(* ===== verification/_CoqProject ===== *)
-Q . S2P
Prelude.v
Streams.v
Errors.v
Json.v
Plan.v
Wire.v
Progress.v
Channel.v
Module.v
Session.v
Demo.v
SessionTheorems.v
WireTheorems.v
Text.v
Config.v
Proto.v
Auth.v
Pool.v
Shared.v
Reconnect.v
Prefixed.v
Transport.v
Mux.v
Paired.v
Client.v
Server.v
ServerSystem.v
TransportDemo.v
TransportTheorems.v
ServerTheorems.v
Backends.v
Cli.v
CliTheorems.v
Paths.v
Transfer.v
TransferTheorems.v
Fs.v
Disk.v
Tracker.v
Frames.v
Resume.v
Workers.v
Scan.v
Receive.v
TransferDemo.v
Exchange.v
ScanTheorems.v
ReceiveTheorems.v
Conversation.v
ResumeSystem.v
ResumeSafety.v
ResumeTheorems.v
DataStream.v
Addresses.v
Stun.v
Candidates.v
Direct.v
DirectTheorems.v
Control.v
ControlTheorems.v
Rendezvous.v
RendezvousTheorems.v
Front.v
FrontTheorems.v
RefTransport.v
Dial.v
Forwarding.v
FrameNet.v
DialTheorems.v
Listen.v
ListenSystem.v
ListenTheorems.v
Consumer.v
ConsumerSystem.v
ConsumerTheorems.v
Startup.v
Diagnose.v
Runs.v
DirectConfig.v
Relayed.v
