(* ===== verification/Prelude.v ===== *)
(** * A verification development for rust-backup

    rust-backup copies databases, file trees and buckets from a source host to a
    destination host through a coordination server.  This library models the
    program and proves what makes it correct.  Files of [src/] are named below
    by their path under it.

    ** The program and the files that model it

    A run of the command line ([crates/rust-backup], [Cli.v]) opens a backend
    module ([crates/rb-postgres] ... [rb-s3], [Backends.v], whose parameters are
    read by the derived decoders of [Json.v]), connects to the server with a
    client of [crates/rb-transport], and runs one side of a session of
    [crates/rb-core] over the channel it obtains.

    The core ([crates/rb-core/src]).  [Errors.v] is [error.rs]; [Plan.v] is
    [plan.rs]; [Wire.v] is [wire.rs] (frames, idle timeouts); [Progress.v] is
    [progress.rs]; [Channel.v] is [channel.rs] (chunk sink and source, plan
    handshake); [Module.v] is [module.rs] (backend traits, registry);
    [Session.v] is [session.rs] (the two run loops); [Config.v] is [config.rs].
    [Json.v] holds JSON values, the interface of the serializer and the decoders
    that serde derives.

    The transport ([crates/rb-transport/src]).  [Proto.v] is [proto.rs], [Auth.v]
    [auth.rs], [Pool.v] [pool.rs], [Shared.v] [shared.rs], [Reconnect.v]
    [reconnect.rs], [Prefixed.v] [prefixed.rs], [Transport.v] [transport.rs],
    [Mux.v] [mux.rs], [Paired.v] [channel.rs], [Client.v] [client.rs], [Server.v]
    [server.rs].  [ServerSystem.v] is the running server: a transition system
    whose state is the shared registry, pools and permits with the list of tasks,
    and whose steps are one operation of one task, or a new connection; [Mux.v] ends
    with such a system for a multiplexer's driver, its openers and its acceptor.
    [Relayed.v] puts the parts of a session together: the run loop of either side
    over its paired channel, and the server's relay between them, as one network.
    [Text.v] holds the functions of [str] the crates call.

    The reference code to be ported ([vendored-from-bore]).  Of [transfer.rs]:
    [Paths.v] is the codec of file names with the parts of [std::path] it relies
    on; [Transfer.v] the planning of a transfer (manifests, chunks, resume plans,
    the choice of the destination's name); [Fs.v] every helper that touches the
    disk, as programs over file operations, and [Disk.v] a disk that answers them;
    [Tracker.v] the progress counters and line; [Frames.v] frames and stalls;
    [Resume.v] the shared resume state; [Workers.v] both ends of the data streams
    and of a stream from standard input; [Scan.v] the scanning of sources;
    [Receive.v] the receiver and the sender around them (staging, verification,
    commit, rollback), which [Conversation.v] joins by a network; [Runs.v] [run_listener] and [run_sender], with the options
    and the tunnels they set up.  [ResumeSystem.v] is a receiver at work: a transition
    system of workers over one disk, one resume state and one persist lock, in
    which any operation of any worker may come next, and the machine may crash.

    The reference tunnels.  [Addresses.v] and [Control.v] are parts of [shared.rs]:
    networks, and the control messages with their summaries.  [Stun.v],
    [Candidates.v] and [Direct.v] are [holepunch.rs]: the STUN codec, discovery and
    responder; candidates and NAT classes; tokens, punching and the authentication
    of direct connections (with the readiness marker of [mux.rs]).  [Rendezvous.v]
    is the server's side of secret tunnels ([secret.rs], [pool.rs] and
    [serve_carrier] of [server.rs]) as a transition system of providers,
    consumers and carriers over four shared registries.  [Front.v] is the front
    door of [server.rs]: the first byte, authentication ([auth.rs]), dispatch, the
    choice of a port, public tunnels and the task of one of their connections.
    [Startup.v] is [Server::new], its settings and [Server::listen]: the frontends
    of virtual hosts, HTTP on the control port, and the endpoint that takes direct
    carriers in and out of their pools.  [Diagnose.v] is the report of
    [holepunch.rs] on a host's UDP, [DirectConfig.v] its socket buffers, endpoint
    configuration and what is done with a direct connection.

    The reference clients.  [RefTransport.v] is [transport.rs], with the
    stream of [shared.rs] that counts the bytes of a relay; [Dial.v] the three
    constructors of [client.rs] with their carriers, the handshake, the offer of
    candidates and the check of a port; [Forwarding.v] the task of a forwarded
    connection at all its ends ([client.rs] and [secret.rs]); [Listen.v]
    [Client::listen] with every arm of its [select!] and the tasks it spawns, and
    [Consumer.v] [Proxy] of [secret.rs] with its own.  [ListenSystem.v] and
    [ConsumerSystem.v] are each loop with its tasks as a transition system: a step
    is one operation of the loop or of a task, on shared counters, flags and
    channels ([hub], [chub]), or any answer at all from everything else.
    [FrameNet.v] joins two programs by queues of whole control messages.

    ** How code is modelled

    Asynchronous code is a program: a tree of the operations it awaits, whose
    answers come from outside ([prog] below).  The signatures compose with [⊕]: a
    session is a program over the stream, the progress counters, the channel and
    the backend.  A program is evaluated by [run] against a handler (an
    environment with a state); traits are signatures, and [interp] plugs an
    implementation in.  [?] is [let?], a panic is the third way a [result] ends.
    [always] and [every] state what holds of every outcome and every operation of
    a program whatever it is answered.

    [Streams.v] has the byte streams: [mem_stream], one end of a pipe that cuts
    the bytes as a schedule says; [behaves], the bytes a program sends and
    receives, which composes along [let!]; and [net], two programs joined by a
    duplex pipe, with the theorem that two dual programs always reach their end
    whatever the interleaving and the cuts, and its extension to traces that leave
    bytes unread ([async]).  [Relayed.v] has a third party: [rnet]
    is a provider, a consumer and a relay, a step is one of any of the three, and
    each direction is a [pipe] of two hops and the relay's buffer.  Machine integers are [N] with their
    wrap-around, saturation or checks written where the code has them.

    Libraries are parameters: JSON and YAML codecs, BLAKE3, SHA-256, HMAC and hex,
    TLS, yamux, sockets, clocks, tokio's bidirectional copy.  What the proofs need
    of them is stated in the classes [JsonLaws], [CryptoLaws], [HexLaws],
    [InternallyTagged] and [CopyLaws], each with a concrete instance; [Demo.v] and [TransportDemo.v] hold the instances and the
    test doubles on which the theorems are evaluated.

    ** Bounds

    A loop whose turns consume something has that as its fuel, and needs no other
    bound: the write and read loops the length of the buffer, the multiplexer and
    path loops the length of their input; the theorems on them say they end.
    Loops that last as long as a peer does are cut: a receive on the control
    stream at [fuel] reads (the result is then [Unfinished], which is no error of
    the code), a [select!] loop of the server at [turns] turns (the task has then
    not returned: [None]), the accept loop and the reconnection loop likewise; the
    worker loops of a transfer at [fuel] frames or tasks; copying and hashing a
    file at [fuel] buffers; walks of directories at a depth and a number of
    entries; the STUN responder and public tunnels at a number of turns; the loops
    of clients, consumers, listeners and the start-up tasks of a server at [turns]
    turns, and a client's stream of connections at [streams].
    The safety theorems hold at every bound; those that say a conversation
    completes ask that the fuel be enough for the messages in it.

    ** What is proved

    [SessionTheorems.v]: sessions complete whatever the scheduling and the
    fragmentation; success of the source means it was not mutated; success of the
    destination means the plan was validated and consented to; refusals and
    mutations are reported on both sides; and a stream cut between two frames is
    reported as complete.
    [WireTheorems.v]: the chunk reader refines a specification on byte strings;
    accepted chunks were verified; frames round-trip; the write loop ends with a
    prefix written; errors carry their phase; and the facts on preflight, sizes,
    registry and counters.
    [TransportTheorems.v]: parsing of endpoints and sizes, backoff and
    reconnection, carriers, replayed prefixes, the multiplexer's driver, the
    message codec.  [Mux.v]: no request to open a stream is forgotten and no stream
    is handed out twice, but an acceptor that is not polled halts the driver.
    [ServerTheorems.v] and [ServerSystem.v]: registration and connection succeed
    under the same conditions; nothing is served without a valid tag; a
    registration lasts as long as its provider; relays reach only the registered
    provider; in every reachable state no registration is stale and permits are
    conserved; two providers can race for a channel; and, with the serializer as
    it is documented, a secret makes the server refuse everyone.
    [Relayed.v]: a backup goes through the server from the two connections to the
    end of the session, whatever the server's other tasks do between the relay's
    operations short of touching this channel's registration; while it copies the relay
    refines a direct connection, and every execution of the three is finite.
    [CliTheorems.v]: flags and [-P] escapes reach the
    modules; session files run their targets in order up to the first failure;
    the registered modules are stubs that move nothing.
    [TransferTheorems.v]: manifests are validated exactly; staged paths stay
    below their root, while the root's own name is unchecked; chunks tile files;
    resuming sends exactly what is missing and both sides count the same
    streams; names survive the codec; no existing destination is picked.
    [Exchange.v] and [DataStream.v]: a stream from standard input arrives as it was
    read, and a data stream delivers, marks and saves every chunk of its queue,
    both ends finishing in every execution.  [ScanTheorems.v]: what is scanned is
    accepted.  [ReceiveTheorems.v]: a destination is complete exactly when its
    content is there; a commit happens or leaves no trace; a root named
    [state.json], or [overwrite-backup] when it replaces a file, is lost.  [Conversation.v]: a whole transfer from standard
    input ends on both sides in the same success with what was read at the
    destination, and leaves the sender's summary unread; a transfer that is run
    again on a destination that holds its content is acknowledged, and nothing on
    the disk changes.
    [ResumeSafety.v] and [ResumeTheorems.v]: in every reachable state of the
    receiver the state on the disk marks only chunks that survive a crash, unless
    a sync failed; the operations respect the layout of the state; a fresh file
    was received in this run; a sync that fails is forgotten.
    [Stun.v]: no datagram makes the codec panic, exchanges round-trip, discovery
    ends after three attempts.  [Candidates.v]: the chain of servers, the
    labels of candidates, the classes.  [Diagnose.v]: the verdict of a
    report is that of the public probes it lists, and of no other.  [Addresses.v]:
    overlap is a shared address, entries survive printing.  [DirectTheorems.v]:
    direct paths and virtual hosts are served exactly to who holds the token, while
    a peer that echoes what it reads is accepted by a consumer and learns the
    token.  [DirectConfig.v]: further connections join the same listener, a
    datagram that is too large does not end a link, clamped buffers are reported
    only below half the request.  [ControlTheorems.v]:
    the log hides secrets, except the nonce.  [RendezvousTheorems.v]: offers
    reach the provider whose registration they answer; both ends of a pair are
    introduced by one offer and told one nonce; pools stay within the limit; a
    provider that restarts at the wrong moment loses its direct path.
    [FrontTheorems.v]: nothing is done for a client before it proved its secret;
    ports stay in the range; a tunnel cleans up after itself, except for a token it
    could not send; a connection is spliced at most once and gives its permit back;
    renewals of a direct path are never read.
    [Startup.v]: direct carriers are installed only under a key whose token
    was shown; the control port is bound once; the port of QUIC follows the
    settings in any order; one failed accept ends the server.
    [DialTheorems.v] and [Dial.v]: a client and the front door always finish,
    registered exactly when the secret is proven; and what the operations of a
    client's parts can be.  [Forwarding.v]: what is forwarded arrives whole, except
    at a provider that logs.  [ListenTheorems.v]: in every reachable state the slots
    of direct carriers are accounted for and at most the target; a direct path is
    tried once; a renewal can be lost.  [ConsumerTheorems.v]: attempts to upgrade
    never overlap and the path changes at most once; a stale offer hides a released
    port.  [Runs.v]: a run that succeeds has taken its tunnel down, a
    persistent listener never succeeds and drops who waits.

    ** What is not modelled

    The direct path of the port ([direct.rs] is a [todo!]), TLS, the internals of
    yamux and of QUIC, argument parsing, logging, and all code under
    [cfg(windows)].  Byte streams end only when a party has returned: a connection
    that breaks shows up as an answer of an environment, not as a step of [net] or
    [rnet].  Of [transfer.rs], the task that redraws the progress line.  Of
    [holepunch.rs], statistics of a connection and [QuicTransport], which only
    delegates to the streams of quinn.  Of [server.rs], plain setters, getters and
    counters.  The virtual hosts, the admin pages, the VPN, the paired diagnosis,
    basic authentication and the access log that the clients and the server of the
    reference call are not in the repository: they are parameters or environments.
    Those files of [vendored-from-bore] that were ported to [crates/rb-transport]
    ([pool.rs], [prefixed.rs], [reconnect.rs], the driver of [mux.rs], the endpoints
    of [transport.rs]) are modelled in their ported form, which is the same code. *)

From Stdlib Require Export NArith ZArith Lia.
From Stdlib Require Export Strings.Byte.
From stdpp Require Export base list strings gmap pretty sorting.

Declare Scope rb_scope.
Delimit Scope rb_scope with rb.
#[global] Open Scope rb_scope.

(** ** Results

    A Rust function that returns [Result<A, E>] finishes with [Ok] or [Err];
    [Panicked] is the third way it can end (an out-of-range slice, an explicit
    [todo!]), which unwinds through every caller. *)

Inductive result (E A : Type) : Type :=
| Ok (a : A)
| Err (e : E)
| Panicked.

Arguments Ok {E A} a.
Arguments Err {E A} e.
Arguments Panicked {E A}.

Definition rbind {E A B} (r : result E A) (f : A -> result E B) : result E B :=
  match r with
  | Ok a => f a
  | Err e => Err e
  | Panicked => Panicked
  end.

(** [Result::map_err]. *)
Definition map_err {E F A} (f : E -> F) (r : result E A) : result F A :=
  match r with
  | Ok a => Ok a
  | Err e => Err (f e)
  | Panicked => Panicked
  end.

(** [Option::ok_or_else]. *)
Definition ok_or {E A} (o : option A) (e : E) : result E A :=
  match o with
  | Some a => Ok a
  | None => Err e
  end.

(** ** Programs

    Asynchronous code is a tree of the operations it awaits: every [.await] on
    something outside the function (a stream, a backend, the registry) is an
    [Op] node whose continuation takes the answer.  The trees are inductive, so
    a program is a terminating computation whatever it is answered. *)

Record sig : Type := Sig { op : Type; resp : op -> Type }.
Arguments resp {s} o.

Definition ssum (S T : sig) : sig :=
  Sig (op S + op T)%type
      (fun o => match o with inl a => resp a | inr b => resp b end).

Infix "⊕" := ssum (at level 50, left associativity) : rb_scope.

Definition no_sig : sig := Sig Empty_set (fun o => match o with end).

Inductive prog (S : sig) (A : Type) : Type :=
| Ret (a : A)
| Op (o : op S) (k : resp o -> prog S A).

Arguments Ret {S A} a.
Arguments Op {S A} o k.

Fixpoint pbind {S A B} (p : prog S A) (f : A -> prog S B) : prog S B :=
  match p with
  | Ret a => f a
  | Op o k => Op o (fun r => pbind (k r) f)
  end.

(** The [?] operator: stop at the first error. *)
Definition ptry {S E A B} (p : prog S (result E A))
  (f : A -> prog S (result E B)) : prog S (result E B) :=
  pbind p (fun r =>
    match r with
    | Ok a => f a
    | Err e => Ret (Err e)
    | Panicked => Ret Panicked
    end).

Definition trigger {S} (o : op S) : prog S (resp o) := Op o Ret.

Notation "'let!' x ':=' p 'in' k" := (pbind p (fun x => k))
  (at level 10, x pattern, p at level 100, k at level 200,
   format "'let!'  x  ':='  p  'in' '//' k") : rb_scope.

Notation "'let?' x ':=' p 'in' k" := (ptry p (fun x => k))
  (at level 10, x pattern, p at level 100, k at level 200,
   format "'let?'  x  ':='  p  'in' '//' k") : rb_scope.

(** ** Handlers: running a program against a stateful environment *)

Definition handler (S : sig) (St : Type) : Type :=
  forall o : op S, St -> resp o * St.

Fixpoint run {S St A} (h : handler S St) (p : prog S A) (st : St) : A * St :=
  match p with
  | Ret a => (a, st)
  | Op o k => run h (k (h o st).1) (h o st).2
  end.

(** The operations of [S] are replaced by programs over [T]: a [dyn] trait
    object ([S] is the trait, [f] the implementation). *)
Fixpoint interp {S T A} (f : forall o : op S, prog T (resp o))
  (p : prog S A) : prog T A :=
  match p with
  | Ret a => Ret a
  | Op o k => pbind (f o) (fun r => interp f (k r))
  end.

(** Handlers of a sum work on a pair of states, side by side. *)
Definition hsum {S T St1 St2} (h1 : handler S St1) (h2 : handler T St2) :
  handler (S ⊕ T) (St1 * St2) :=
  fun o st =>
    match o return resp (s := S ⊕ T) o * (St1 * St2) with
    | inl a => ((h1 a st.1).1, ((h1 a st.1).2, st.2))
    | inr b => ((h2 b st.2).1, (st.1, (h2 b st.2).2))
    end.

Definition hno {St} : handler no_sig St := fun o => match o with end.

(** The same environment, with a log of the operations performed. *)
Definition traced {S St} (h : handler S St) : handler S (St * list (op S)) :=
  fun o st => ((h o st.1).1, ((h o st.1).2, st.2 ++ [o])).

Lemma run_bind {S St A B} (h : handler S St) (p : prog S A)
  (f : A -> prog S B) st :
  run h (pbind p f) st = run h (f (run h p st).1) (run h p st).2.
Proof. revert st; induction p as [a|o k IH]; intros st; simpl; [done|]. apply IH. Qed.

Lemma run_try {S St E A B} (h : handler S St) (p : prog S (result E A))
  (f : A -> prog S (result E B)) st :
  run h (ptry p f) st =
    match (run h p st).1 with
    | Ok a => run h (f a) (run h p st).2
    | Err e => (Err e, (run h p st).2)
    | Panicked => (Panicked, (run h p st).2)
    end.
Proof. unfold ptry. rewrite run_bind. by destruct ((run h p st).1). Qed.

Lemma run_try_ok {S St E A B} (h : handler S St) (p : prog S (result E A))
  (f : A -> prog S (result E B)) st b st' :
  run h (ptry p f) st = (Ok b, st') ->
  exists a st1, run h p st = (Ok a, st1) /\ run h (f a) st1 = (Ok b, st').
Proof.
  rewrite run_try. destruct (run h p st) as [[a|e|] st1]; simpl; [|done..].
  intros H. by exists a, st1.
Qed.

Lemma run_then {S St E A B} (h : handler S St) (p : prog S (result E A))
  (f : A -> prog S (result E B)) st a st1 :
  run h p st = (Ok a, st1) -> run h (ptry p f) st = run h (f a) st1.
Proof. intros E1. by rewrite run_try, E1. Qed.

Lemma run_stops {S St E A B} (h : handler S St) (p : prog S (result E A))
  (f : A -> prog S (result E B)) st e st1 :
  run h p st = (Err e, st1) -> run h (ptry p f) st = (Err e, st1).
Proof. intros E1. by rewrite run_try, E1. Qed.

Lemma run_ret {S St A} (h : handler S St) (a : A) st : run h (Ret a) st = (a, st).
Proof. done. Qed.

Create HintDb rb.
Create Rewrite HintDb rb.
Create Rewrite HintDb run.
#[export] Hint Rewrite @run_bind @run_try @run_ret : run.

(** ** Equivalence of programs

    Continuations are functions, so two programs that perform the same
    operations need not be equal terms; [≡] compares them answer by answer. *)

Fixpoint peq {S A} (p q : prog S A) {struct p} : Prop :=
  match p, q with
  | Ret a, Ret b => a = b
  | Op o k, Op o' k' =>
      exists e : o = o', forall r, peq (k r) (k' (eq_rect o resp r o' e))
  | _, _ => False
  end.

#[export] Instance prog_equiv {S A} : Equiv (prog S A) := peq.

Lemma peq_op {S A} (o : op S) (k k' : resp o -> prog S A) :
  (forall r, k r ≡ k' r) -> Op o k ≡ Op o k'.
Proof. intros H. exists eq_refl. exact H. Qed.

Lemma peq_ind' {S A} (P : prog S A -> prog S A -> Prop) :
  (forall a, P (Ret a) (Ret a)) ->
  (forall o k k', (forall r, k r ≡ k' r) -> (forall r, P (k r) (k' r)) ->
     P (Op o k) (Op o k')) ->
  forall p q, p ≡ q -> P p q.
Proof.
  intros Hret Hop p. induction p as [a|o k IH]; intros [b|o' k'] H; try done.
  - cbn in H. subst b. apply Hret.
  - destruct H as [e H]. subst o'. apply Hop; [exact H|]. intros r. apply IH, H.
Qed.

#[export] Instance peq_equivalence {S A} : Equivalence (≡@{prog S A}).
Proof.
  split.
  - intros p. induction p; [done|]. by apply peq_op.
  - refine (peq_ind' (fun p q => q ≡ p) _ _); [done|]. intros o k k' _ IH. by apply peq_op.
  - intros p q r H. revert p q H r.
    refine (peq_ind' (fun p q => forall r, q ≡ r -> p ≡ r) _ _); [done|].
    intros o k k' _ IH [b|o' k''] Hr; [done|]. destruct Hr as [e Hr]. subst o'.
    apply peq_op. intros r. apply IH, Hr.
Qed.

#[export] Instance pbind_proper {S A B} :
  Proper ((≡) ==> pointwise_relation A (≡) ==> (≡)) (@pbind S A B).
Proof.
  intros p q H f g Hfg. revert p q H.
  refine (peq_ind' (fun p q => pbind p f ≡ pbind q g) _ _); [exact Hfg|].
  intros o k k' _ IH. by apply peq_op.
Qed.

#[export] Instance ptry_proper {S E A B} :
  Proper ((≡) ==> pointwise_relation A (≡) ==> (≡)) (@ptry S E A B).
Proof.
  intros p q H f g Hfg. unfold ptry.
  apply pbind_proper; [done|]. intros [a|e|]; [apply Hfg|reflexivity..].
Qed.

#[export] Instance run_proper {S St A} (h : handler S St) :
  Proper ((≡) ==> (=) ==> (=)) (@run S St A h).
Proof.
  intros p q H st ? <-. revert p q H st.
  refine (peq_ind' (fun p q => forall st, run h p st = run h q st) _ _); [done|].
  intros o k k' _ IH st. simpl. apply IH.
Qed.

Lemma pbind_ret_r {S A} (p : prog S A) : pbind p Ret ≡ p.
Proof. induction p; simpl; [done|]. by apply peq_op. Qed.

Lemma pbind_assoc {S A B C} (p : prog S A) (f : A -> prog S B) (g : B -> prog S C) :
  pbind (pbind p f) g ≡ pbind p (fun a => pbind (f a) g).
Proof. induction p as [a|o k IH]; simpl; [reflexivity|]. by apply peq_op. Qed.

Lemma interp_bind {S T A B} (f : forall o : op S, prog T (resp o))
  (p : prog S A) (g : A -> prog S B) :
  interp f (pbind p g) ≡ pbind (interp f p) (fun a => interp f (g a)).
Proof.
  induction p as [a|o k IH]; simpl; [reflexivity|].
  rewrite pbind_assoc. by apply pbind_proper.
Qed.

(** ** What holds of every outcome

    [always P p]: whatever the environment answers, [p] returns a value that
    satisfies [P]. *)

Fixpoint always {S A} (P : A -> Prop) (p : prog S A) : Prop :=
  match p with
  | Ret a => P a
  | Op o k => forall r, always P (k r)
  end.

Lemma always_run {S St A} (P : A -> Prop) (p : prog S A) (h : handler S St) st :
  always P p -> P (run h p st).1.
Proof. revert st; induction p as [a|o k IH]; intros st H; simpl; [done|]. apply IH, H. Qed.

Lemma always_mono {S A} (P Q : A -> Prop) (p : prog S A) :
  always P p -> (forall a, P a -> Q a) -> always Q p.
Proof. intros H HPQ; induction p as [a|o k IH]; simpl in *; [auto|]. eauto. Qed.

Lemma always_true {S A} (P : A -> Prop) (p : prog S A) : (forall a, P a) -> always P p.
Proof. intros H; induction p; simpl; auto. Qed.

Lemma always_bind {S A B} (P : A -> Prop) (Q : B -> Prop) (p : prog S A)
  (f : A -> prog S B) :
  always P p -> (forall a, P a -> always Q (f a)) -> always Q (pbind p f).
Proof. intros H Hf; induction p as [a|o k IH]; simpl in *; auto. Qed.

Lemma always_then {S E A B} (P : result E B -> Prop) (p : prog S (result E A))
  (f : A -> prog S (result E B)) :
  (forall e, P (Err e)) -> P Panicked -> (forall a, always P (f a)) -> always P (ptry p f).
Proof.
  intros He Hp Hf. apply (always_bind (fun _ => True)); [by apply always_true|].
  intros [a|e|] _; simpl; auto.
Qed.

(** Every operation a program can perform satisfies [P]. *)
Fixpoint every {S A} (P : op S -> Prop) (p : prog S A) : Prop :=
  match p with
  | Ret _ => True
  | Op o k => P o /\ forall r, every P (k r)
  end.

Lemma every_bind {S A B} (P : op S -> Prop) (p : prog S A) (f : A -> prog S B) :
  every P p -> (forall a, every P (f a)) -> every P (pbind p f).
Proof. intros Hp Hf. induction p as [a|o k IH]; simpl in *; [done|]. naive_solver. Qed.

Lemma every_try {S E A B} (P : op S -> Prop) (p : prog S (result E A))
  (f : A -> prog S (result E B)) :
  every P p -> (forall a, every P (f a)) -> every P (ptry p f).
Proof. intros Hp Hf. apply every_bind; [done|]. by intros []. Qed.

Lemma every_mono {S A} (P Q : op S -> Prop) (p : prog S A) :
  (forall o, P o -> Q o) -> every P p -> every Q p.
Proof. intros HPQ Hp. induction p as [a|o k IH]; simpl in *; [done|]. naive_solver. Qed.

#[export] Hint Resolve every_bind every_try : rb.

Lemma traced_every {S St A} (P : op S -> Prop) (h : handler S St) (p : prog S A) st l :
  every P p ->
  exists l', run (traced h) p (st, l) = ((run h p st).1, ((run h p st).2, l ++ l')) /\ Forall P l'.
Proof.
  revert st l; induction p as [a|o k IH]; intros st l; simpl.
  - intros _. exists []. by rewrite app_nil_r.
  - intros [Ho Hk]. destruct (IH (h o st).1 (h o st).2 (l ++ [o]) (Hk _)) as (l'&E&Hl').
    exists (o :: l'). split; [|by constructor]. etrans; [exact E|]. by rewrite <- app_assoc.
Qed.

(** Every error a program can return satisfies [P]. *)
Definition errs {E A} (P : E -> Prop) (r : result E A) : Prop :=
  match r with Err e => P e | _ => True end.

Lemma always_try {S E A B} (P : E -> Prop) (p : prog S (result E A))
  (f : A -> prog S (result E B)) :
  always (errs P) p -> (forall a, always (errs P) (f a)) ->
  always (errs P) (ptry p f).
Proof.
  intros H Hf. unfold ptry. eapply always_bind; [exact H|].
  intros [a|e|] Ha; simpl; auto.
Qed.

Lemma errs_run {S St E A} (P : E -> Prop) (p : prog S (result E A)) (h : handler S St) st e :
  always (errs P) p -> (run h p st).1 = Err e -> P e.
Proof. intros H E'. apply (always_run _ _ h st) in H. by rewrite E' in H. Qed.

#[export] Hint Resolve always_try : rb.

(** ** Bytes and machine integers *)

#[export] Instance byte_eq_decision : EqDecision byte := Byte.byte_eq_dec.

Abbreviation bytes := (list byte).

Definition u16_max : N := 2 ^ 16 - 1.
Definition u32_max : N := 2 ^ 32 - 1.
Definition u64_max : N := 2 ^ 64 - 1.

(** The low byte of [n]. *)
Definition byte_of (n : N) : byte :=
  match Byte.of_N (n mod 256) with Some b => b | None => x00 end.

Lemma to_N_byte_of n : Byte.to_N (byte_of n) = (n mod 256)%N.
Proof.
  unfold byte_of. destruct (Byte.of_N (n mod 256)) as [b|] eqn:E.
  - by apply Byte.to_of_N.
  - apply Byte.of_N_None_iff in E.
    assert (n mod 256 < 256)%N by (apply N.mod_lt; lia). lia.
Qed.

Lemma byte_of_to_N b : byte_of (Byte.to_N b) = b.
Proof. by destruct b. Qed.

Lemma to_N_lt b : (Byte.to_N b < 256)%N.
Proof. by destruct b. Qed.

(** The length of a list as an unsigned integer ([len()] is a [usize]). *)
Definition nlen {A} (l : list A) : N := N.of_nat (length l).

Lemma nlen_nil {A} : nlen (@nil A) = 0%N.
Proof. done. Qed.

Lemma nlen_app {A} (l1 l2 : list A) : nlen (l1 ++ l2) = (nlen l1 + nlen l2)%N.
Proof. unfold nlen. rewrite length_app. lia. Qed.

Lemma nlen_cons {A} (x : A) l : nlen (x :: l) = (1 + nlen l)%N.
Proof. unfold nlen. simpl length. lia. Qed.

#[export] Hint Rewrite @nlen_nil @nlen_app @nlen_cons : rb.

(** [u32::to_le_bytes] and [u32::from_le_bytes]. *)
Definition to_le_bytes (n : N) : bytes :=
  [byte_of n; byte_of (n / 2 ^ 8); byte_of (n / 2 ^ 16); byte_of (n / 2 ^ 24)].

Definition from_le_bytes (l : bytes) : N :=
  foldr (fun b acc => Byte.to_N b + 256 * acc)%N 0%N l.

Lemma from_to_le_bytes n : (n < 2 ^ 32)%N -> from_le_bytes (to_le_bytes n) = n.
Proof.
  intros Hn. unfold from_le_bytes, to_le_bytes. simpl foldr.
  rewrite !to_N_byte_of.
  change (2 ^ 8)%N with 256%N. change (2 ^ 16)%N with (256 * 256)%N.
  change (2 ^ 24)%N with (256 * 256 * 256)%N.
  rewrite <- !N.Div0.div_div.
  assert (Ha : (n / 256 / 256 / 256 < 256)%N).
  { rewrite !N.Div0.div_div. apply N.Div0.div_lt_upper_bound. simpl in *. lia. }
  rewrite (N.mod_small _ _ Ha).
  pose proof (N.div_mod n 256 ltac:(lia)).
  pose proof (N.div_mod (n / 256) 256 ltac:(lia)).
  pose proof (N.div_mod (n / 256 / 256) 256 ltac:(lia)). lia.
Qed.

Lemma length_to_le_bytes n : length (to_le_bytes n) = 4.
Proof. done. Qed.

Lemma to_from_le_bytes l : length l = 4 -> to_le_bytes (from_le_bytes l) = l.
Proof.
  destruct l as [|a [|b [|c [|d [|]]]]]; try discriminate. intros _.
  unfold to_le_bytes, from_le_bytes. simpl foldr.
  pose proof (to_N_lt a). pose proof (to_N_lt b).
  pose proof (to_N_lt c). pose proof (to_N_lt d).
  assert (Hb : forall x y : byte, Byte.to_N x = Byte.to_N y -> x = y).
  { intros x y E. by rewrite <- (byte_of_to_N x), E, byte_of_to_N. }
  change (2 ^ 8)%N with 256%N. change (2 ^ 16)%N with (256 * 256)%N.
  change (2 ^ 24)%N with (256 * 256 * 256)%N.
  assert (Hd : forall x y : N, (x < 256 -> (x + 256 * y) / 256 = y)%N).
  { intros x y Hx. rewrite N.mul_comm, N.div_add, N.div_small by lia. lia. }
  assert (Hm : forall x y : N, (x < 256 -> (x + 256 * y) mod 256 = x)%N).
  { intros x y Hx. rewrite N.mul_comm, N.Div0.mod_add. by apply N.mod_small. }
  rewrite <- !N.Div0.div_div, !Hd by done.
  repeat f_equal; apply Hb; rewrite to_N_byte_of, Hm by done; done.
Qed.

#[export] Hint Resolve length_to_le_bytes : rb.

(** ** Related lists *)

Lemma Forall2_in_l {A B} (P : A -> B -> Prop) l k x :
  Forall2 P l k -> x ∈ l -> exists y, y ∈ k /\ P x y.
Proof.
  induction 1 as [|a b l k Hab _ IH]; [by intros ?%elem_of_nil|].
  intros [->|Hx]%elem_of_cons; [exists b|destruct (IH Hx) as (y&?&?); exists y]; set_solver.
Qed.

Lemma Forall2_in_r {A B} (P : A -> B -> Prop) l k y :
  Forall2 P l k -> y ∈ k -> exists x, x ∈ l /\ P x y.
Proof.
  induction 1 as [|a b l k Hab _ IH]; [by intros ?%elem_of_nil|].
  intros [->|Hy]%elem_of_cons; [exists a|destruct (IH Hy) as (x&?&?); exists x]; set_solver.
Qed.

Lemma elem_of_concat {A} (x : A) ls : x ∈ concat ls <-> exists l, x ∈ l /\ l ∈ ls.
Proof.
  induction ls as [|l ls IH]; simpl.
  - rewrite elem_of_nil. split; [done|]. by intros (?&_&?%elem_of_nil).
  - rewrite elem_of_app, IH. setoid_rewrite elem_of_cons. naive_solver.
Qed.
