(* ===== verification/Streams.v ===== *)
(** * Byte streams

    The code is generic over [S: AsyncRead + AsyncWrite]; the stream is a
    parameter of the model.  This file gives the operations awaited on it
    ([stream_sig]), one concrete environment (an in-memory duplex end that
    moves bytes in pieces of any size), and the two-party semantics: two
    programs joined by two byte queues, with a theorem that peers whose byte
    traces are dual always run to completion, whatever the scheduling and the
    fragmentation. *)

From S2P Require Import Prelude.

(** [std::io::ErrorKind]: the kinds the code tests or builds, the others by name. *)
Inductive error_kind : Type :=
| UnexpectedEof
| NotConnected
| OtherKind (name : string).

#[export] Instance error_kind_eq_decision : EqDecision error_kind.
Proof. solve_decision. Defined.

(** [std::io::Error]. *)
Record io_error : Type := IoError { io_kind : error_kind; io_msg : string }.

(** [tokio::time::timeout]: the inner answer, or [Elapsed]. *)
Inductive timed (A : Type) : Type :=
| InTime (a : A)
| Elapsed.
Arguments InTime {A} a.
Arguments Elapsed {A}.

(** The awaits on a stream.  [WriteT]/[ReadT] are one [write]/[read] call under
    a [timeout] of so many seconds and answer with the bytes moved; [Read] is
    the same call without a timeout; [ReadExact], [WriteAll] and [Flush] are the
    extension methods of the async traits. *)
Inductive stream_op : Type :=
| WriteT (secs : N) (buf : bytes)
| ReadT (secs : N) (n : N)
| Read (n : N)
| ReadExact (n : N)
| WriteAll (buf : bytes)
| Flush.

Definition stream_resp (o : stream_op) : Type :=
  match o with
  | WriteT _ _ => timed (result io_error N)
  | ReadT _ _ => timed (result io_error bytes)
  | Read _ | ReadExact _ => result io_error bytes
  | WriteAll _ | Flush => result io_error unit
  end.

Definition stream_sig : sig := Sig stream_op stream_resp.

(** A stream operation inside a program that has other operations [L] too. *)
Definition stream {L : sig} (o : stream_op) : prog (stream_sig ⊕ L) (stream_resp o) :=
  Op (S := stream_sig ⊕ L) (inl o) Ret.

Definition local {L : sig} (o : op L) : prog (stream_sig ⊕ L) (resp o) :=
  Op (S := stream_sig ⊕ L) (inr o) Ret.

(** A program that only uses the stream leaves the rest of the state alone. *)
Definition on_stream {L : sig} (o : op (stream_sig ⊕ L)) : Prop :=
  match o with inl _ => True | inr _ => False end.

Definition stream_only {L A} : prog (stream_sig ⊕ L) A -> Prop := every on_stream.

Lemma stream_only_run {L SS St A} (hS : handler stream_sig SS) (h : handler L St)
  (p : prog (stream_sig ⊕ L) A) s st :
  stream_only p -> (run (hsum hS h) p (s, st)).2.2 = st.
Proof.
  unfold stream_only. revert s; induction p as [a|[o|o] k IH]; intros s; simpl;
    [done| |by intros [[] _]]. intros [_ Hk]. by apply IH.
Qed.

(** ** An in-memory end of a duplex pipe

    [inbox] holds what the peer wrote before it closed its end, [outbox] what
    was written here; each transfer moves at most [S (sched i)] bytes, where [i]
    counts the transfers. *)

Record mem : Type := Mem { inbox : bytes; outbox : bytes; sched : list nat }.

Definition quota (s : list nat) : nat := match s with [] => 4096 | n :: _ => S n end.

Definition mem_stream : handler stream_sig mem :=
  fun o st =>
    match o return resp (s := stream_sig) o * mem with
    | WriteT _ buf =>
        let n := length buf `min` quota (sched st) in
        (InTime (Ok (N.of_nat n)),
         Mem (inbox st) (outbox st ++ take n buf) (tail (sched st)))
    | ReadT _ n =>
        let m := N.to_nat n `min` quota (sched st) in
        (InTime (Ok (take m (inbox st))),
         Mem (drop m (inbox st)) (outbox st) (tail (sched st)))
    | Read n =>
        let m := N.to_nat n `min` quota (sched st) in
        (Ok (take m (inbox st)),
         Mem (drop m (inbox st)) (outbox st) (tail (sched st)))
    | ReadExact n =>
        if decide (n <= nlen (inbox st))%N then
          (Ok (take (N.to_nat n) (inbox st)),
           Mem (drop (N.to_nat n) (inbox st)) (outbox st) (sched st))
        else
          (Err (IoError UnexpectedEof "early eof"), Mem [] (outbox st) (sched st))
    | WriteAll buf => (Ok tt, Mem (inbox st) (outbox st ++ buf) (sched st))
    | Flush => (Ok tt, st)
    end.

(** ** Byte traces *)

Inductive act : Type := Snd (b : byte) | Rcv (b : byte).

Definition dual_act (a : act) : act :=
  match a with Snd b => Rcv b | Rcv b => Snd b end.

Definition dual (τ : list act) : list act := dual_act <$> τ.
Definition snds (l : bytes) : list act := Snd <$> l.
Definition rcvs (l : bytes) : list act := Rcv <$> l.

Lemma dual_app τ1 τ2 : dual (τ1 ++ τ2) = dual τ1 ++ dual τ2.
Proof. apply fmap_app. Qed.
Lemma dual_snds l : dual (snds l) = rcvs l.
Proof. unfold dual, snds, rcvs. by rewrite <- list_fmap_compose. Qed.
Lemma dual_rcvs l : dual (rcvs l) = snds l.
Proof. unfold dual, snds, rcvs. by rewrite <- list_fmap_compose. Qed.
Lemma dual_dual τ : dual (dual τ) = τ.
Proof. induction τ as [|[b|b] τ IH]; simpl; by rewrite ?IH. Qed.
Lemma snds_app l1 l2 : snds (l1 ++ l2) = snds l1 ++ snds l2.
Proof. apply fmap_app. Qed.
Lemma rcvs_app l1 l2 : rcvs (l1 ++ l2) = rcvs l1 ++ rcvs l2.
Proof. apply fmap_app. Qed.

#[export] Hint Rewrite dual_app dual_snds dual_rcvs dual_dual snds_app rcvs_app
  @app_assoc @app_nil_r : rb.

(** ** Behaviour: what a program does on a faithful stream

    [behaves m h p st τ a st']: from local state [st], and whatever way the
    transport cuts the transfers, [p] sends and receives exactly the bytes of
    [τ], in that order, and returns [a] in local state [st'].

    A [read] may return less than it asked for, never more than has arrived.
    [readable] says why it cannot swallow bytes that belong to what follows:
    it asked for no more than this run of the trace holds ([Exact]), or the
    peer is waiting for us at the end of the run ([Turn]), or nothing follows
    because the conversation is complete ([Whole]). *)

Inductive mode : Type := Exact | Turn | Whole.

(** The mode of a program that others follow. *)
Definition opened (m : mode) : mode := match m with Whole => Turn | _ => m end.

Definition readable (m : mode) (n : N) (bs : bytes) (τ : list act) : Prop :=
  bs <> [] /\ (0 < n)%N /\
  (nlen bs = n \/
   (m <> Exact /\ exists b τ', τ = Snd b :: τ') \/
   (m = Whole /\ τ = [])).

Section Behaves.
Context {L : sig} {St : Type} (m : mode) (h : handler L St).

Abbreviation prg := (prog (stream_sig ⊕ L)).

Inductive behaves {A} : prg A -> St -> list act -> A -> St -> Prop :=
| bh_ret a st : behaves (Ret a) st [] a st
| bh_local o k st τ a st' :
    behaves (k (h o st).1) (h o st).2 τ a st' ->
    behaves (Op (S := stream_sig ⊕ L) (inr o) k) st τ a st'
| bh_write d buf k st τ a st' :
    buf <> [] ->
    (forall n, 0 < n <= length buf ->
       behaves (k (InTime (Ok (N.of_nat n)))) st (snds (drop n buf) ++ τ) a st') ->
    behaves (Op (S := stream_sig ⊕ L) (inl (WriteT d buf)) k) st (snds buf ++ τ) a st'
| bh_read_t d n k st bs τ a st' :
    readable m n bs τ ->
    (forall pre post, bs = pre ++ post -> pre <> [] -> (nlen pre <= n)%N ->
       behaves (k (InTime (Ok pre))) st (rcvs post ++ τ) a st') ->
    behaves (Op (S := stream_sig ⊕ L) (inl (ReadT d n)) k) st (rcvs bs ++ τ) a st'
| bh_read n k st bs τ a st' :
    readable m n bs τ ->
    (forall pre post, bs = pre ++ post -> pre <> [] -> (nlen pre <= n)%N ->
       behaves (k (Ok pre)) st (rcvs post ++ τ) a st') ->
    behaves (Op (S := stream_sig ⊕ L) (inl (Read n)) k) st (rcvs bs ++ τ) a st'
| bh_read_exact n k st bs τ a st' :
    nlen bs = n ->
    behaves (k (Ok bs)) st τ a st' ->
    behaves (Op (S := stream_sig ⊕ L) (inl (ReadExact n)) k) st (rcvs bs ++ τ) a st'
| bh_write_all buf k st τ a st' :
    behaves (k (Ok tt)) st τ a st' ->
    behaves (Op (S := stream_sig ⊕ L) (inl (WriteAll buf)) k) st (snds buf ++ τ) a st'
| bh_flush k st τ a st' :
    behaves (k (Ok tt)) st τ a st' ->
    behaves (Op (S := stream_sig ⊕ L) (inl Flush) k) st τ a st'.

Lemma behaves_eq {A} (p : prg A) st τ τ' a st' :
  behaves p st τ a st' -> τ = τ' -> behaves p st τ' a st'.
Proof. by intros ? <-. Qed.
End Behaves.

Lemma readable_app m n bs τ τ2 : readable (opened m) n bs τ -> readable m n bs (τ ++ τ2).
Proof.
  intros (?&?&[?|[(?&b&τ'&->)|[? _]]]); split_and!; auto; [|by destruct m].
  right; left. split; [by destruct m|]. by exists b, (τ' ++ τ2).
Qed.

Lemma behaves_bind {L St} m (h : handler L St) {A B}
  (p : prog (stream_sig ⊕ L) A) (f : A -> prog _ B) st τ1 a st1 τ2 b st2 :
  behaves (opened m) h p st τ1 a st1 -> behaves m h (f a) st1 τ2 b st2 ->
  behaves m h (pbind p f) st (τ1 ++ τ2) b st2.
Proof.
  intros H Hf. induction H; simpl; rewrite <- ?app_assoc; [done|econstructor; eauto..].
  - intros n Hn. rewrite app_assoc. eauto.
  - by apply readable_app.
  - intros pre post E Hp Hl. rewrite app_assoc. eauto.
  - by apply readable_app.
  - intros pre post E Hp Hl. rewrite app_assoc. eauto.
Qed.

Lemma behaves_try {L St E A B} m (h : handler L St)
  (p : prog (stream_sig ⊕ L) (result E A)) (f : A -> prog _ (result E B))
  st τ1 a st1 τ2 b st2 :
  behaves (opened m) h p st τ1 (Ok a) st1 -> behaves m h (f a) st1 τ2 b st2 ->
  behaves m h (ptry p f) st (τ1 ++ τ2) b st2.
Proof. intros H1 H2. unfold ptry. eapply behaves_bind; [exact H1|]. exact H2. Qed.

Lemma behaves_try_err {L St E A B} m (h : handler L St)
  (p : prog (stream_sig ⊕ L) (result E A)) (f : A -> prog _ (result E B)) st τ e st' :
  behaves (opened m) h p st τ (Err e) st' ->
  behaves m h (ptry p f) st τ (Err e) st'.
Proof.
  intros H. eapply behaves_eq; [|apply app_nil_r]. unfold ptry.
  eapply behaves_bind; [exact H|]. constructor.
Qed.

(** What a program does when its reads are exact it does in any mode. *)
Lemma behaves_mode {L St} m (h : handler L St) {A} (p : prog (stream_sig ⊕ L) A)
  st τ a st' :
  behaves Exact h p st τ a st' -> behaves m h p st τ a st'.
Proof. induction 1; econstructor; eauto; unfold readable in *; naive_solver. Qed.

(** Behaviour does not tell equivalent programs apart. *)
Lemma behaves_equiv {L St} m (h : handler L St) {A} (p q : prog (stream_sig ⊕ L) A)
  st τ a st' :
  p ≡ q -> behaves m h q st τ a st' -> behaves m h p st τ a st'.
Proof.
  intros E Hb. revert p E.
  induction Hb; intros [a0|o0 k0] E; try done.
  { change (a0 = a) in E. subst. apply bh_ret. }
  all: destruct E as [e E]; subst o0; cbn in E.
  - apply (bh_local m h o). apply IHHb, E.
  - apply (bh_write m h d buf); [done|]. intros n Hn. apply (H1 n Hn), E.
  - apply (bh_read_t m h d n _ _ bs); [done|]. intros pre post Ep Hp Hl.
    by apply (H1 pre post); [..|apply E].
  - apply (bh_read m h n _ _ bs); [done|]. intros pre post Ep Hp Hl.
    by apply (H1 pre post); [..|apply E].
  - apply (bh_read_exact m h n _ _ bs); [done|]. apply IHHb, E.
  - apply (bh_write_all m h buf). apply IHHb, E.
  - apply (bh_flush m h). apply IHHb, E.
Qed.

Lemma behaves_assoc {L St} m (h : handler L St) {A B C} (p : prog (stream_sig ⊕ L) A)
  (f : A -> prog _ B) (g : B -> prog _ C) st τ a st' :
  behaves m h (pbind p (fun a => pbind (f a) g)) st τ a st' ->
  behaves m h (pbind (pbind p f) g) st τ a st'.
Proof. apply behaves_equiv, pbind_assoc. Qed.

(** ** Two parties

    One step of one party: it works locally, hands bytes to the transport, or
    takes some of those that have arrived. *)

Inductive lab : Type := Tau | Send (bs : bytes) | Recv (bs : bytes).

Definition party_step {L St A} (h : handler L St) (p : prog (stream_sig ⊕ L) A)
  (st : St) (l : lab) (p' : prog (stream_sig ⊕ L) A) (st' : St) : Prop :=
  match p with
  | Ret _ => False
  | Op o k =>
      match o return (resp (s := stream_sig ⊕ L) o -> prog _ A) -> Prop with
      | inr o => fun k => l = Tau /\ p' = k (h o st).1 /\ st' = (h o st).2
      | inl (WriteT _ buf) => fun k =>
          exists n, 0 < n <= length buf /\ l = Send (take n buf) /\
            p' = k (InTime (Ok (N.of_nat n))) /\ st' = st
      | inl (ReadT _ n) => fun k =>
          exists bs, bs <> [] /\ (nlen bs <= n)%N /\ l = Recv bs /\
            p' = k (InTime (Ok bs)) /\ st' = st
      | inl (Read n) => fun k =>
          exists bs, bs <> [] /\ (nlen bs <= n)%N /\ l = Recv bs /\
            p' = k (Ok bs) /\ st' = st
      | inl (ReadExact n) => fun k =>
          exists bs, nlen bs = n /\ l = Recv bs /\ p' = k (Ok bs) /\ st' = st
      | inl (WriteAll buf) => fun k =>
          l = Send buf /\ p' = k (Ok tt) /\ st' = st
      | inl Flush => fun k => l = Tau /\ p' = k (Ok tt) /\ st' = st
      end k
  end.

(** Two runs of [Rcv]s at the head of one trace: one is a prefix of the other. *)
Lemma rcvs_split q bs σ τ :
  rcvs q ++ σ = rcvs bs ++ τ ->
  (exists r, bs = q ++ r /\ σ = rcvs r ++ τ) \/
  (exists r, q = bs ++ r /\ τ = rcvs r ++ σ).
Proof.
  revert bs; induction q as [|x q IH]; intros [|y bs] E; simpl in E.
  - left; by exists [].
  - left. by exists (y :: bs).
  - right. by exists (x :: q).
  - inversion E as [[Hx E']]; subst.
    destruct (IH _ E') as [(r&->&->)|(r&->&->)]; [left|right]; by exists r.
Qed.

Lemma rcvs_snd_nil q b σ τ : rcvs q ++ σ = Snd b :: τ -> q = [].
Proof. by destruct q. Qed.

(** The bytes a [read] takes from the queue belong to its run of the trace. *)
Lemma readable_take m n bs τ pre q σ :
  readable m n bs τ -> rcvs bs ++ τ = rcvs (pre ++ q) ++ σ -> (nlen pre <= n)%N ->
  exists post, bs = pre ++ post /\ rcvs post ++ τ = rcvs q ++ σ.
Proof.
  intros (_&_&Hr) E Hlen. rewrite rcvs_app, <- app_assoc in E.
  destruct (rcvs_split _ _ _ _ E) as [(r&->&Ht)|(r&->&Ht)]; [|by exists r].
  destruct r as [|x r].
  { exists []. by rewrite !app_nil_r. }
  exfalso. destruct Hr as [Hn|[(_&b&τ'&Hb)|[_ Hb]]]; [|by rewrite Ht in Hb..].
  subst n. unfold nlen in Hlen. rewrite length_app in Hlen. simpl in Hlen. lia.
Qed.

Section PartyStep.
Context {L : sig} {St A : Type} (m : mode) (h : handler L St).
Implicit Types (p : prog (stream_sig ⊕ L) A).

Lemma step_tau p st τ a st' p1 st1 :
  behaves m h p st τ a st' -> party_step h p st Tau p1 st1 ->
  behaves m h p1 st1 τ a st'.
Proof.
  intros H Hs. destruct H; simpl in Hs; destruct_and?; naive_solver.
Qed.

Lemma step_send p st τ a st' bs p1 st1 :
  behaves m h p st τ a st' -> party_step h p st (Send bs) p1 st1 ->
  exists τ', τ = snds bs ++ τ' /\ behaves m h p1 st1 τ' a st'.
Proof.
  intros H Hs.
  destruct H as [| |d buf k st τ a st' Hb H| | | | |]; simpl in Hs; try naive_solver.
  destruct Hs as (n&Hn&E&->&->). injection E as ->.
  exists (snds (drop n buf) ++ τ). split; [|by auto].
  by rewrite app_assoc, <- snds_app, take_drop.
Qed.

Lemma step_recv p st τ a st' bs q σ p1 st1 :
  behaves m h p st τ a st' -> party_step h p st (Recv bs) p1 st1 ->
  τ = rcvs (bs ++ q) ++ σ ->
  behaves m h p1 st1 (rcvs q ++ σ) a st'.
Proof.
  intros H Hs E.
  destruct H as [| | |d n k st bs0 τ a st' Hr H|n k st bs0 τ a st' Hr H
    |n k st bs0 τ a st' Hn H| |]; simpl in Hs; try naive_solver.
  - destruct Hs as (bs'&Hne&Hl&[= <-]&->&->).
    destruct (readable_take _ _ _ _ _ _ _ Hr E Hl) as (post&->&<-). by apply H.
  - destruct Hs as (bs'&Hne&Hl&[= <-]&->&->).
    destruct (readable_take _ _ _ _ _ _ _ Hr E Hl) as (post&->&<-). by apply H.
  - destruct Hs as (bs'&Hl&[= <-]&->&->).
    rewrite rcvs_app, <- app_assoc in E.
    assert (Hb : length bs0 = length bs) by (unfold nlen in *; lia).
    destruct (rcvs_split _ _ _ _ E) as [(r&->&Ht)|(r&->&Ht)];
      rewrite length_app in Hb; destruct r; simpl in Hb; try lia;
      rewrite app_nil_r in *; simpl in Ht; subst; by rewrite ?Ht.
Qed.

(** A party is finished, or can move by itself, or waits for bytes its trace
    says will come: it takes them once enough have arrived. *)
Lemma party_progress p st τ a st' :
  behaves m h p st τ a st' ->
  (p = Ret a /\ st = st' /\ τ = []) \/
  (exists l p1 st1, (forall bs, l <> Recv bs) /\ party_step h p st l p1 st1) \/
  (exists bs τ', τ = rcvs bs ++ τ' /\
     forall q σ, τ = rcvs q ++ σ ->
       (exists r p1 st1, r `prefix_of` q /\ party_step h p st (Recv r) p1 st1) \/
       (exists b σ', σ = Rcv b :: σ')).
Proof.
  intros H.
  destruct H as [a st|o k st τ a st' H|d buf k st τ a st' Hb H|d n k st bs τ a st' Hr H
    |n k st bs τ a st' Hr H|n k st bs τ a st' Hn H|buf k st τ a st' H|k st τ a st' H].
  - by left.
  - right; left. exists Tau. eexists _, _. split; [done|]. simpl. eauto.
  - right; left. eexists (Send (take (length buf) buf)), _, _. split; [done|].
    exists (length buf). split_and!; [|lia|reflexivity..]. by destruct buf; [|simpl; lia].
  - right; right. exists bs, τ. split; [done|]. intros q σ E.
    destruct q as [|x q].
    { right. destruct Hr as [Hne _]. destruct bs as [|y bs]; [done|].
      simpl in E. subst. eauto. }
    left. exists [x]. eexists _, _. split; [by exists q|].
    exists [x]. destruct Hr as (_&Hn&_). split_and!; [done| |done..]. unfold nlen; simpl; lia.
  - right; right. exists bs, τ. split; [done|]. intros q σ E.
    destruct q as [|x q].
    { right. destruct Hr as [Hne _]. destruct bs as [|y bs]; [done|].
      simpl in E. subst. eauto. }
    left. exists [x]. eexists _, _. split; [by exists q|].
    exists [x]. destruct Hr as (_&Hn&_). split_and!; [done| |done..]. unfold nlen; simpl; lia.
  - right; right. exists bs, τ. split; [done|]. intros q σ E.
    destruct (rcvs_split _ _ _ _ E) as [(r&->&->)|(r&->&->)].
    + left. exists bs. eexists _, _. split; [by exists r|]. exists bs. eauto.
    + destruct r as [|x r].
      * left. exists (q ++ []). eexists _, _. split; [by rewrite app_nil_r|].
        exists (q ++ []). eauto.
      * right. simpl. eauto.
  - right; left. eexists (Send buf), _, _. split; [done|]. simpl. eauto.
  - right; left. eexists Tau, _, _. split; [done|]. simpl. eauto.
Qed.
End PartyStep.

(** The two parties and the bytes in flight each way. *)
Record net {L1 L2 : sig} {St1 St2 A1 A2 : Type} : Type := Net {
  n_left : prog (stream_sig ⊕ L1) A1;
  n_lst : St1;
  n_right : prog (stream_sig ⊕ L2) A2;
  n_rst : St2;
  n_l2r : bytes;
  n_r2l : bytes;
}.
Arguments net : clear implicits.
Arguments Net {L1 L2 St1 St2 A1 A2}.

Section TwoParty.
Context {L1 L2 : sig} {St1 St2 A1 A2 : Type}.
Context (h1 : handler L1 St1) (h2 : handler L2 St2).

Abbreviation net := (net L1 L2 St1 St2 A1 A2).

Inductive net_step : net -> net -> Prop :=
| ns_left_tau p st p' st' r rst q1 q2 :
    party_step h1 p st Tau p' st' ->
    net_step (Net p st r rst q1 q2) (Net p' st' r rst q1 q2)
| ns_left_send p st p' st' bs r rst q1 q2 :
    party_step h1 p st (Send bs) p' st' ->
    net_step (Net p st r rst q1 q2) (Net p' st' r rst (q1 ++ bs) q2)
| ns_left_recv p st p' st' bs r rst q1 q2 :
    party_step h1 p st (Recv bs) p' st' ->
    net_step (Net p st r rst q1 (bs ++ q2)) (Net p' st' r rst q1 q2)
| ns_right_tau p st p' st' l lst q1 q2 :
    party_step h2 p st Tau p' st' ->
    net_step (Net l lst p st q1 q2) (Net l lst p' st' q1 q2)
| ns_right_send p st p' st' bs l lst q1 q2 :
    party_step h2 p st (Send bs) p' st' ->
    net_step (Net l lst p st q1 q2) (Net l lst p' st' q1 (q2 ++ bs))
| ns_right_recv p st p' st' bs l lst q1 q2 :
    party_step h2 p st (Recv bs) p' st' ->
    net_step (Net l lst p st (bs ++ q1) q2) (Net l lst p' st' q1 q2).

(** What is left of the two traces, given what is in flight. *)
Definition in_flight (τ1 τ2 : list act) (l2r r2l : bytes) : Prop :=
  (exists σ, τ1 = rcvs r2l ++ σ /\ τ2 = dual σ /\ l2r = []) \/
  (exists σ, τ2 = rcvs l2r ++ σ /\ τ1 = dual σ /\ r2l = []).

Lemma in_flight_sym τ1 τ2 q1 q2 : in_flight τ1 τ2 q1 q2 -> in_flight τ2 τ1 q2 q1.
Proof. intros [H|H]; [right|left]; exact H. Qed.

Lemma in_flight_send bs τ1 τ2 q1 q2 :
  in_flight (snds bs ++ τ1) τ2 q1 q2 -> in_flight τ1 τ2 (q1 ++ bs) q2.
Proof.
  destruct bs as [|b bs]; [by rewrite app_nil_r|].
  intros [(σ&E&->&->)|(σ&->&E&->)]; right.
  - symmetry in E. assert (q2 = []) as -> by (eapply rcvs_snd_nil; exact E).
    cbn [rcvs fmap list_fmap app] in E. exists (dual τ1). rewrite E.
    by autorewrite with rb.
  - exists (dual τ1). autorewrite with rb. split_and!; [|done..].
    rewrite <- app_assoc. f_equal. rewrite <- (dual_dual σ), <- E.
    simpl. by autorewrite with rb.
Qed.

Lemma in_flight_recv bs τ1 τ2 q1 q2 :
  in_flight τ1 τ2 q1 (bs ++ q2) -> bs <> [] ->
  exists τ1', τ1 = rcvs (bs ++ q2) ++ τ1' /\ in_flight (rcvs q2 ++ τ1') τ2 q1 q2.
Proof.
  intros [(σ&->&->&->)|(σ&->&->&E)] Hne.
  - exists σ. split; [done|]. left. eauto.
  - apply app_eq_nil in E. naive_solver.
Qed.
Definition coupled (n : net) (a1 : A1) (s1 : St1) (a2 : A2) (s2 : St2) : Prop :=
  exists τ1 τ2,
    behaves Whole h1 (n_left n) (n_lst n) τ1 a1 s1 /\
    behaves Whole h2 (n_right n) (n_rst n) τ2 a2 s2 /\
    in_flight τ1 τ2 (n_l2r n) (n_r2l n).

Lemma in_flight_take {L St A} (h : handler L St) (p p' : prog (stream_sig ⊕ L) A)
  st st' bs τ1 τ2 a sf q1 q2 :
  behaves Whole h p st τ1 a sf -> party_step h p st (Recv bs) p' st' ->
  in_flight τ1 τ2 q1 (bs ++ q2) ->
  exists τ1', behaves Whole h p' st' τ1' a sf /\ in_flight τ1' τ2 q1 q2.
Proof.
  intros H Hs Hf.
  assert (exists σ, τ1 = rcvs (bs ++ q2) ++ σ /\ in_flight (rcvs q2 ++ σ) τ2 q1 q2)
    as (σ&E&Hf').
  { destruct bs as [|b bs].
    - destruct Hf as [(σ&->&->&->)|(σ&->&->&E)].
      + exists σ. split; [done|]. left. eauto.
      + simpl in E. subst q2. exists (dual σ). split; [done|]. right. eauto.
    - destruct (in_flight_recv _ _ _ _ _ Hf) as (σ&?&?); [done|]. by exists σ. }
  exists (rcvs q2 ++ σ). split; [|done]. by eapply step_recv.
Qed.

Lemma coupled_step n n' a1 s1 a2 s2 :
  coupled n a1 s1 a2 s2 -> net_step n n' -> coupled n' a1 s1 a2 s2.
Proof.
  intros (τ1&τ2&H1&H2&Hf) Hs.
  destruct Hs; simpl in *.
  - exists τ1, τ2. split_and!; try done. by eapply step_tau.
  - destruct (step_send _ _ _ _ _ _ _ _ _ _ H1 H) as (τ'&->&H').
    exists τ', τ2. split_and!; try done. by apply in_flight_send.
  - destruct (in_flight_take _ _ _ _ _ _ _ _ _ _ _ _ H1 H Hf) as (τ'&?&?).
    by exists τ', τ2.
  - exists τ1, τ2. split_and!; try done. by eapply step_tau.
  - destruct (step_send _ _ _ _ _ _ _ _ _ _ H2 H) as (τ'&->&H').
    exists τ1, τ'. split_and!; try done.
    apply in_flight_sym, in_flight_send, in_flight_sym, Hf.
  - apply in_flight_sym in Hf.
    destruct (in_flight_take _ _ _ _ _ _ _ _ _ _ _ _ H2 H Hf) as (τ'&?&?).
    exists τ1, τ'. split_and!; try done. by apply in_flight_sym.
Qed.

Definition final (a1 : A1) (s1 : St1) (a2 : A2) (s2 : St2) : net :=
  Net (Ret a1) s1 (Ret a2) s2 [] [].

Lemma left_can_step p st r rst q1 q2 l p' st' :
  (forall bs, l <> Recv bs) -> party_step h1 p st l p' st' ->
  exists n', net_step (Net p st r rst q1 q2) n'.
Proof. destruct l as [|bs|bs]; intros Hl Hs; [eauto using net_step..|by destruct (Hl bs)]. Qed.

Lemma right_can_step l lst p st q1 q2 lb p' st' :
  (forall bs, lb <> Recv bs) -> party_step h2 p st lb p' st' ->
  exists n', net_step (Net l lst p st q1 q2) n'.
Proof. destruct lb as [|bs|bs]; intros Hl Hs; [eauto using net_step..|by destruct (Hl bs)]. Qed.

(** Nobody is stuck: a coupled pair that cannot step has finished. *)
Lemma coupled_progress n a1 s1 a2 s2 :
  coupled n a1 s1 a2 s2 -> n = final a1 s1 a2 s2 \/ exists n', net_step n n'.
Proof.
  destruct n as [p st r rst q1 q2]. intros (τ1&τ2&H1&H2&Hf). simpl in *.
  destruct (party_progress _ _ _ _ _ _ _ H1) as [(->&->&->)|[(l&p1&st1&Hl&Hs)|Hw1]];
    [|right; by eapply left_can_step|];
  destruct (party_progress _ _ _ _ _ _ _ H2) as [(->&->&->)|[(l&p2&st2&Hl&Hs)|Hw2]];
    try (right; by eapply right_can_step).
  - left. unfold final. destruct Hf as [(σ&E&E2&->)|(σ&E&E2&->)];
      symmetry in E; apply app_eq_nil in E as [E _];
      apply fmap_nil_inv in E; by subst.
  - destruct Hw2 as (bs&τ'&_&Hw). right.
    destruct Hf as [(σ&E&->&->)|(σ&->&E&->)].
    + symmetry in E. apply app_eq_nil in E as [E ->].
      destruct (Hw [] [] eq_refl) as [(r'&p2&st2&Hr&Hs)|(?&?&[=])].
      apply prefix_nil_inv in Hr as ->. eexists.
      eapply (ns_right_recv _ _ _ _ []). done.
    + symmetry in E. apply fmap_nil_inv in E as ->.
      destruct (Hw _ _ eq_refl) as [(r'&p2&st2&[q ->]&Hs)|(?&?&[=])].
      eexists. by eapply ns_right_recv.
  - destruct Hw1 as (bs&τ'&_&Hw). right.
    destruct Hf as [(σ&->&E&->)|(σ&E&->&->)].
    + symmetry in E. apply fmap_nil_inv in E as ->.
      destruct (Hw _ _ eq_refl) as [(r'&p2&st2&[q ->]&Hs)|(?&?&[=])].
      eexists. by eapply ns_left_recv.
    + symmetry in E. apply app_eq_nil in E as [E ->].
      destruct (Hw [] [] eq_refl) as [(r'&p2&st2&Hr&Hs)|(?&?&[=])].
      apply prefix_nil_inv in Hr as ->. eexists.
      eapply (ns_left_recv _ _ _ _ []). done.
  - destruct Hw1 as (?&?&_&Hw1). destruct Hw2 as (?&?&_&Hw2). right.
    destruct Hf as [(σ&->&->&->)|(σ&->&->&->)].
    + destruct (Hw1 _ _ eq_refl) as [(r'&p2&st2&[q ->]&Hs)|(b&σ'&->)].
      { eexists. by eapply ns_left_recv. }
      destruct (Hw2 [] _ eq_refl) as [(r'&p2&st2&Hr&Hs)|(?&?&[=])].
      apply prefix_nil_inv in Hr as ->. eexists.
      eapply (ns_right_recv _ _ _ _ []). done.
    + destruct (Hw2 _ _ eq_refl) as [(r'&p2&st2&[q ->]&Hs)|(b&σ'&->)].
      { eexists. by eapply ns_right_recv. }
      destruct (Hw1 [] _ eq_refl) as [(r'&p2&st2&Hr&Hs)|(?&?&[=])].
      apply prefix_nil_inv in Hr as ->. eexists.
      eapply (ns_left_recv _ _ _ _ []). done.
Qed.

(** Every program is finite, so every execution is: there is no infinite
    sequence of steps, whatever the queues hold. *)
Lemma party_step_smaller {L St A} (h : handler L St) o
  (k : resp (s := stream_sig ⊕ L) o -> prog (stream_sig ⊕ L) A) st l p' st' :
  party_step h (Op o k) st l p' st' -> exists r, p' = k r.
Proof. destruct o as [[]|]; simpl; naive_solver. Qed.

Lemma net_terminates n : Acc (fun n' n => net_step n n') n.
Proof.
  destruct n as [p st r rst q1 q2]. revert st r rst q1 q2.
  induction p as [a|o k IHp]; intros st r; revert st;
    induction r as [b|o' k' IHr]; intros st rst q1 q2;
    constructor; intros n' Hs; inversion Hs; subst;
    match goal with
    | H : party_step _ (Ret _) _ _ _ _ |- _ => by destruct H
    | H : party_step _ (Op _ _) _ _ _ _ |- _ =>
        apply party_step_smaller in H as [x ->]; eauto
    end.
Qed.
End TwoParty.

(** Peers with dual traces: every execution is finite, and wherever it stops
    both have returned, with the results and states their traces announce, and
    no byte is left in flight. *)
Theorem dual_peers_complete {L1 L2 St1 St2 A1 A2}
  (h1 : handler L1 St1) (h2 : handler L2 St2)
  (p1 : prog (stream_sig ⊕ L1) A1) (p2 : prog (stream_sig ⊕ L2) A2)
  st1 st2 τ a1 st1' a2 st2' :
  behaves Whole h1 p1 st1 τ a1 st1' ->
  behaves Whole h2 p2 st2 (dual τ) a2 st2' ->
  Acc (fun n' n => net_step h1 h2 n n') (Net p1 st1 p2 st2 [] []) /\
  forall n, rtc (net_step h1 h2) (Net p1 st1 p2 st2 [] []) n ->
    n = final a1 st1' a2 st2' \/ exists n', net_step h1 h2 n n'.
Proof.
  intros H1 H2. split; [apply net_terminates|].
  assert (Hc : coupled h1 h2 (Net p1 st1 p2 st2 [] []) a1 st1' a2 st2').
  { exists τ, (dual τ). split_and!; [done..|]. left. by exists τ. }
  intros n Hn. remember (Net p1 st1 p2 st2 [] []) as n0 eqn:E0. clear E0.
  induction Hn as [n|n n1 n2 Hs _ IH].
  - by apply coupled_progress.
  - eauto using coupled_step.
Qed.

(** Such a conversation does reach its end. *)
Corollary dual_peers_reach {L1 L2 St1 St2 A1 A2}
  (h1 : handler L1 St1) (h2 : handler L2 St2)
  (p1 : prog (stream_sig ⊕ L1) A1) (p2 : prog (stream_sig ⊕ L2) A2)
  st1 st2 τ a1 st1' a2 st2' :
  behaves Whole h1 p1 st1 τ a1 st1' ->
  behaves Whole h2 p2 st2 (dual τ) a2 st2' ->
  rtc (net_step h1 h2) (Net p1 st1 p2 st2 [] []) (final a1 st1' a2 st2').
Proof.
  intros H1 H2. destruct (dual_peers_complete _ _ _ _ _ _ _ _ _ _ _ H1 H2) as [Hacc Hend].
  clear H1 H2. remember (Net p1 st1 p2 st2 [] []) as n eqn:E. clear E.
  induction Hacc as [n _ IH].
  destruct (Hend n) as [->|[n' Hn]]; [constructor..|].
  eapply rtc_l; [exact Hn|]. apply IH; [done|]. intros n'' Hr.
  apply Hend. by eapply rtc_l.
Qed.

(** Every execution from [start] is finite, [stop] is reached, and no execution
    stops anywhere else. *)
Definition ends_in {L1 L2 St1 St2 A1 A2} (h1 : handler L1 St1) (h2 : handler L2 St2)
  (start stop : net L1 L2 St1 St2 A1 A2) : Prop :=
  Acc (fun n' n => net_step h1 h2 n n') start /\
  rtc (net_step h1 h2) start stop /\
  forall n, rtc (net_step h1 h2) start n -> n = stop \/ exists n', net_step h1 h2 n n'.

Corollary dual_peers_end_whole {L1 L2 St1 St2 A1 A2}
  (h1 : handler L1 St1) (h2 : handler L2 St2)
  (p1 : prog (stream_sig ⊕ L1) A1) (p2 : prog (stream_sig ⊕ L2) A2)
  st1 st2 τ τ' a1 st1' a2 st2' :
  behaves Whole h1 p1 st1 τ a1 st1' ->
  behaves Whole h2 p2 st2 τ' a2 st2' ->
  τ' = dual τ ->
  ends_in h1 h2 (Net p1 st1 p2 st2 [] []) (final a1 st1' a2 st2').
Proof.
  intros H1 H2 ->. destruct (dual_peers_complete _ _ _ _ _ _ _ _ _ _ _ H1 H2).
  split_and!; [done| |done]. by eapply dual_peers_reach.
Qed.

Corollary dual_peers_end {L1 L2 St1 St2 A1 A2}
  (h1 : handler L1 St1) (h2 : handler L2 St2)
  (p1 : prog (stream_sig ⊕ L1) A1) (p2 : prog (stream_sig ⊕ L2) A2)
  st1 st2 τ τ' a1 st1' a2 st2' :
  behaves Exact h1 p1 st1 τ a1 st1' ->
  behaves Exact h2 p2 st2 τ' a2 st2' ->
  τ' = dual τ ->
  ends_in h1 h2 (Net p1 st1 p2 st2 [] []) (final a1 st1' a2 st2').
Proof.
  intros H1%(behaves_mode Whole) H2%(behaves_mode Whole). by apply dual_peers_end_whole.
Qed.

(** ** Conversations that leave bytes unread

    Peers need not be dual: one may send what the other never reads, or read
    later than it sends.  [async τ1 τ2 q1 q2 r1 r2] says that the two traces can
    be played to their end from the queues [q1] and [q2], and leave [r1] and [r2]
    in them; which is played first makes no difference. *)

Inductive async : list act -> list act -> bytes -> bytes -> bytes -> bytes -> Prop :=
| as_done r1 r2 : async [] [] r1 r2 r1 r2
| as_left_send b τ1 τ2 q1 q2 r1 r2 :
    async τ1 τ2 (q1 ++ [b]) q2 r1 r2 -> async (Snd b :: τ1) τ2 q1 q2 r1 r2
| as_left_recv b τ1 τ2 q1 q2 r1 r2 :
    async τ1 τ2 q1 q2 r1 r2 -> async (Rcv b :: τ1) τ2 q1 (b :: q2) r1 r2
| as_right_send b τ1 τ2 q1 q2 r1 r2 :
    async τ1 τ2 q1 (q2 ++ [b]) r1 r2 -> async τ1 (Snd b :: τ2) q1 q2 r1 r2
| as_right_recv b τ1 τ2 q1 q2 r1 r2 :
    async τ1 τ2 q1 q2 r1 r2 -> async τ1 (Rcv b :: τ2) (b :: q1) q2 r1 r2.

Lemma async_sym τ1 τ2 q1 q2 r1 r2 : async τ1 τ2 q1 q2 r1 r2 -> async τ2 τ1 q2 q1 r2 r1.
Proof. induction 1; by constructor. Qed.

(** The left peer may always go first. *)
Lemma async_send_inv b τ1 τ2 q1 q2 r1 r2 :
  async (Snd b :: τ1) τ2 q1 q2 r1 r2 -> async τ1 τ2 (q1 ++ [b]) q2 r1 r2.
Proof.
  intros H. remember (Snd b :: τ1) as τ eqn:E. revert E.
  induction H as [| |? ? ? ? ? ? ? H IH|? ? ? ? ? ? ? H IH|? ? ? ? ? ? ? H IH]; intros E; try done.
  - by injection E as -> ->.
  - constructor. by apply IH.
  - simpl. constructor. by apply IH.
Qed.

Lemma async_recv_inv b c τ1 τ2 q1 q2 r1 r2 :
  async (Rcv b :: τ1) τ2 q1 (c :: q2) r1 r2 -> c = b /\ async τ1 τ2 q1 q2 r1 r2.
Proof.
  intros H. remember (Rcv b :: τ1) as τ eqn:E. remember (c :: q2) as q eqn:Eq. revert q2 E Eq.
  induction H as [| |? ? ? ? ? ? ? H IH|? ? ? ? ? ? ? H IH|? ? ? ? ? ? ? H IH]; intros q0 E Eq; try done.
  - injection E as -> ->. by injection Eq as -> ->.
  - subst q2. destruct (IH (q0 ++ [b0]) E eq_refl) as [-> Ha]. split; [done|]. by constructor.
  - destruct (IH q0 E Eq) as [-> Ha]. split; [done|]. by constructor.
Qed.

Lemma async_sends bs τ1 τ2 q1 q2 r1 r2 :
  async (snds bs ++ τ1) τ2 q1 q2 r1 r2 <-> async τ1 τ2 (q1 ++ bs) q2 r1 r2.
Proof.
  revert q1. induction bs as [|b bs IH]; intros q1; [by rewrite app_nil_r|]. simpl.
  split; intros H.
  - apply async_send_inv, IH in H. by rewrite <- app_assoc in H.
  - constructor. apply IH. by rewrite <- app_assoc.
Qed.

Lemma async_recvs bs τ1 τ2 q1 q2 r1 r2 :
  async τ1 τ2 q1 q2 r1 r2 -> async (rcvs bs ++ τ1) τ2 q1 (bs ++ q2) r1 r2.
Proof. intros H. induction bs as [|b bs IH]; [done|]. simpl. by constructor. Qed.

(** What a peer takes of its queue is what its trace announces. *)
Lemma async_take bs pre τ1 τ2 q1 q2 r1 r2 :
  async (rcvs bs ++ τ1) τ2 q1 (pre ++ q2) r1 r2 -> length pre <= length bs ->
  exists post, bs = pre ++ post /\ async (rcvs post ++ τ1) τ2 q1 q2 r1 r2.
Proof.
  revert bs. induction pre as [|c pre IH]; intros bs H Hl; [by exists bs|].
  destruct bs as [|b bs]; [simpl in Hl; lia|]. simpl in H.
  apply async_recv_inv in H as [-> H]. destruct (IH bs H) as (post&->&Hp); [simpl in Hl; lia|].
  by exists post.
Qed.

(** A conversation that waits does not wait forever. *)
Lemma async_stuck b τ1 τ2 q1 r1 r2 :
  async (Rcv b :: τ1) τ2 q1 [] r1 r2 ->
  (exists c τ, τ2 = Snd c :: τ) \/ (exists c τ q, τ2 = Rcv c :: τ /\ q1 = c :: q).
Proof. intros H. inversion H; subst; naive_solver. Qed.

Lemma async_end r1 r2 q1 q2 : async [] [] q1 q2 r1 r2 -> q1 = r1 /\ q2 = r2.
Proof. by inversion 1. Qed.

(** The run of bytes a peer is about to read, as far as its queue has them. *)
Lemma async_run τ1 τ2 q1 q2 r1 r2 :
  async τ1 τ2 q1 q2 r1 r2 ->
  exists q rest σ, q2 = q ++ rest /\ τ1 = rcvs q ++ σ /\ async σ τ2 q1 rest r1 r2 /\
    (rest = [] \/ forall b σ', σ <> Rcv b :: σ').
Proof.
  revert τ1. induction q2 as [|c q2 IH]; intros τ1 H.
  - exists [], [], τ1. split_and!; [done..|by left].
  - destruct τ1 as [|[b|b] τ1].
    1, 2: exists [], (c :: q2); eexists; split_and!; [done..|exact H|by right].
    apply async_recv_inv in H as [-> H]. destruct (IH τ1 H) as (q&rest&σ&->&->&Ha&Hr).
    by exists (b :: q), rest, σ.
Qed.

Section AsyncParty.
Context {L : sig} {St A : Type} (h : handler L St).
Implicit Types (p : prog (stream_sig ⊕ L) A).

(** A step that takes bytes takes no more than the trace has in its run. *)
Lemma step_recv_exact p st τ a st' bs p1 st1 :
  behaves Exact h p st τ a st' -> party_step h p st (Recv bs) p1 st1 ->
  exists run τ', τ = rcvs run ++ τ' /\ length bs <= length run /\
    forall post, run = bs ++ post -> behaves Exact h p1 st1 (rcvs post ++ τ') a st'.
Proof.
  intros H Hs.
  destruct H as [| | |d n k st run τ a st' Hr H|n k st run τ a st' Hr H
    |n k st run τ a st' Hn H| |]; simpl in Hs; try naive_solver.
  1, 2: destruct Hs as (bs'&Hne&Hl&[= <-]&->&->); exists run, τ;
    assert (Hle : length bs <= length run)
      by (destruct Hr as (_&_&[Hn|[[? _]|[? _]]]); [unfold nlen in *; lia|done..]);
    split_and!; [done..|]; intros post E; by apply H.
  destruct Hs as (bs'&Hl&[= <-]&->&->). exists run, τ.
  assert (Hle : length bs = length run) by (unfold nlen in *; lia).
  split_and!; [done|lia|]. intros post ->. rewrite length_app in Hle.
  destruct post as [|x post]; [|simpl in Hle; lia]. by rewrite app_nil_r in H.
Qed.

(** A party has finished, can step, or waits for bytes that are still to come. *)
Lemma async_party p st τ1 τ2 a st' q1 q2 r1 r2 :
  behaves Exact h p st τ1 a st' -> async τ1 τ2 q1 q2 r1 r2 ->
  (p = Ret a /\ st = st' /\ τ1 = []) \/
  (exists l p1 st1, (forall bs, l <> Recv bs) /\ party_step h p st l p1 st1) \/
  (exists r rest p1 st1, q2 = r ++ rest /\ party_step h p st (Recv r) p1 st1) \/
  (exists b σ, async (Rcv b :: σ) τ2 q1 [] r1 r2).
Proof.
  intros H Ha. destruct (party_progress _ _ _ _ _ _ _ H) as [Hd|[Hs|(bs&τ'&_&Hw)]]; [tauto..|].
  destruct (async_run _ _ _ _ _ _ Ha) as (q&rest&σ&->&->&Hr&Hc).
  destruct (Hw q σ eq_refl) as [(r&p1&st1&[q' ->]&Hs)|(b&σ'&->)].
  - right; right; left. exists r, (q' ++ rest), p1, st1. by rewrite <- app_assoc.
  - right; right; right. destruct Hc as [->|Hc]; [by exists b, σ'|by destruct (Hc b σ')].
Qed.
Lemma async_party_take p p' st st' bs τ1 τ2 a sf q1 q2 r1 r2 :
  behaves Exact h p st τ1 a sf -> party_step h p st (Recv bs) p' st' ->
  async τ1 τ2 q1 (bs ++ q2) r1 r2 ->
  exists τ1', behaves Exact h p' st' τ1' a sf /\ async τ1' τ2 q1 q2 r1 r2.
Proof.
  intros H Hs Ha. destruct (step_recv_exact _ _ _ _ _ _ _ _ H Hs) as (run&τ'&->&Hl&Hp).
  destruct (async_take _ _ _ _ _ _ _ _ Ha Hl) as (post&->&Ha'). exists (rcvs post ++ τ').
  split; [by apply Hp|done].
Qed.
End AsyncParty.

Section AsyncPeers.
Context {L1 L2 : sig} {St1 St2 A1 A2 : Type} (h1 : handler L1 St1) (h2 : handler L2 St2).
Context (a1 : A1) (s1 : St1) (a2 : A2) (s2 : St2) (r1 r2 : bytes).

Definition loosely (n : net L1 L2 St1 St2 A1 A2) : Prop :=
  exists τ1 τ2,
    behaves Exact h1 (n_left n) (n_lst n) τ1 a1 s1 /\
    behaves Exact h2 (n_right n) (n_rst n) τ2 a2 s2 /\
    async τ1 τ2 (n_l2r n) (n_r2l n) r1 r2.

Lemma loosely_step n n' : loosely n -> net_step h1 h2 n n' -> loosely n'.
Proof.
  intros (τ1&τ2&H1&H2&Ha) Hs. destruct Hs; simpl in *.
  - exists τ1, τ2. split_and!; try done. by eapply step_tau.
  - destruct (step_send _ _ _ _ _ _ _ _ _ _ H1 H) as (τ'&->&H').
    exists τ', τ2. split_and!; try done. by apply async_sends.
  - destruct (async_party_take _ _ _ _ _ _ _ _ _ _ _ _ _ _ H1 H Ha) as (τ'&?&?). by exists τ', τ2.
  - exists τ1, τ2. split_and!; try done. by eapply step_tau.
  - destruct (step_send _ _ _ _ _ _ _ _ _ _ H2 H) as (τ'&->&H').
    exists τ1, τ'. split_and!; try done. by apply async_sym, async_sends, async_sym.
  - apply async_sym in Ha.
    destruct (async_party_take _ _ _ _ _ _ _ _ _ _ _ _ _ _ H2 H Ha) as (τ'&?&?).
    exists τ1, τ'. split_and!; try done. by apply async_sym.
Qed.

Lemma loosely_progress n :
  loosely n -> n = Net (Ret a1) s1 (Ret a2) s2 r1 r2 \/ exists n', net_step h1 h2 n n'.
Proof.
  destruct n as [p st r rst q1 q2]. intros (τ1&τ2&H1&H2&Ha). simpl in *.
  destruct (async_party _ _ _ _ _ _ _ _ _ _ _ H1 Ha)
    as [(->&->&->)|[(l&p1&st1&Hl&Hs)|[(x&rest&p1&st1&->&Hs)|(b&σ&Hb)]]].
  - apply async_sym in Ha.
    destruct (async_party _ _ _ _ _ _ _ _ _ _ _ H2 Ha)
      as [(->&->&->)|[(l&p2&st2&Hl&Hs)|[(x&rest&p2&st2&->&Hs)|(b&σ&Hb)]]].
    + left. apply async_end in Ha as [-> ->]. done.
    + right. by eapply right_can_step.
    + right. eexists. by eapply ns_right_recv.
    + apply async_stuck in Hb. naive_solver.
  - right. by eapply left_can_step.
  - right. eexists. by eapply ns_left_recv.
  - right. apply async_sym in Hb.
    destruct (async_party _ _ _ _ _ _ _ _ _ _ _ H2 Hb)
      as [(->&->&->)|[(l&p2&st2&Hl&Hs)|[(x&rest&p2&st2&->&Hs)|(b'&σ'&Hb')]]].
    + apply async_sym, async_stuck in Hb. naive_solver.
    + by eapply right_can_step.
    + eexists. by eapply ns_right_recv.
    + apply async_stuck in Hb'. naive_solver.
Qed.

(** Both return what their traces say, in every execution, and what is left in the
    queues is what the traces leave. *)
Lemma loosely_ends n : loosely n -> ends_in h1 h2 n (Net (Ret a1) s1 (Ret a2) s2 r1 r2).
Proof.
  assert (Hinv : forall n n', rtc (net_step h1 h2) n n' -> loosely n -> loosely n').
  { induction 1; eauto using loosely_step. }
  intros Hn. split; [apply net_terminates|]. split.
  - pose proof (net_terminates h1 h2 n) as Hacc. induction Hacc as [n _ IH].
    destruct (loosely_progress n Hn) as [->|[n' Hs]]; [constructor|].
    eapply rtc_l; [exact Hs|]. apply IH; [done|]. by eapply loosely_step.
  - intros n' Hr. by eapply loosely_progress, Hinv.
Qed.
End AsyncPeers.

Corollary async_peers_end {L1 L2 St1 St2 A1 A2} (h1 : handler L1 St1) (h2 : handler L2 St2)
  (p1 : prog (stream_sig ⊕ L1) A1) (p2 : prog (stream_sig ⊕ L2) A2)
  st1 st2 τ1 τ2 a1 st1' a2 st2' r1 r2 :
  behaves Exact h1 p1 st1 τ1 a1 st1' -> behaves Exact h2 p2 st2 τ2 a2 st2' ->
  async τ1 τ2 [] [] r1 r2 ->
  ends_in h1 h2 (Net p1 st1 p2 st2 [] []) (Net (Ret a1) st1' (Ret a2) st2' r1 r2).
Proof. intros H1 H2 Ha. apply loosely_ends. by exists τ1, τ2. Qed.

(** Dual traces leave nothing; and they may be followed by others. *)
Lemma async_dual τ σ1 σ2 r1 r2 : async σ1 σ2 [] [] r1 r2 -> async (τ ++ σ1) (dual τ ++ σ2) [] [] r1 r2.
Proof.
  intros H. induction τ as [|[b|b] τ IH]; [done|..]; simpl.
  - constructor. by constructor.
  - apply as_right_send. by constructor.
Qed.

(** The last word of one crosses that of the other, which is never read. *)
Lemma async_unread unread word : async (snds unread ++ rcvs word) (snds word) [] [] unread [].
Proof.
  apply async_sends, async_sym. rewrite <- (app_nil_r (snds word)).
  apply async_sends, async_sym. cbn [app].
  pose proof (async_recvs word [] [] unread [] unread [] (as_done unread [])) as Ha.
  by rewrite !app_nil_r in Ha.
Qed.

(** ** Behaviour on the in-memory end *)

Definition sent (τ : list act) : bytes :=
  omap (fun a => match a with Snd b => Some b | Rcv _ => None end) τ.
Definition received (τ : list act) : bytes :=
  omap (fun a => match a with Rcv b => Some b | Snd _ => None end) τ.

Lemma sent_app τ1 τ2 : sent (τ1 ++ τ2) = sent τ1 ++ sent τ2.
Proof. apply omap_app. Qed.
Lemma received_app τ1 τ2 : received (τ1 ++ τ2) = received τ1 ++ received τ2.
Proof. apply omap_app. Qed.
Lemma sent_snds l : sent (snds l) = l.
Proof. induction l as [|b l IH]; simpl; [done|]. unfold sent in *. simpl. by f_equal. Qed.
Lemma sent_rcvs l : sent (rcvs l) = [].
Proof. by induction l. Qed.
Lemma received_rcvs l : received (rcvs l) = l.
Proof. induction l as [|b l IH]; simpl; [done|]. unfold received in *. simpl. by f_equal. Qed.
Lemma received_snds l : received (snds l) = [].
Proof. by induction l. Qed.

#[export] Hint Rewrite sent_app received_app sent_snds sent_rcvs received_rcvs
  received_snds : rb.

Lemma quota_pos s : 0 < quota s.
Proof. destruct s; simpl; lia. Qed.

(** One exact [read] of the in-memory end stays inside its run of bytes. *)
Lemma mem_read_take (n : N) (bs rest : bytes) sch :
  bs <> [] -> nlen bs = n ->
  let m := N.to_nat n `min` quota sch in
  take m (bs ++ rest) = take m bs /\ drop m (bs ++ rest) = drop m bs ++ rest /\
  take m bs <> [] /\ (nlen (take m bs) <= n)%N.
Proof.
  intros Hne Hl m. pose proof (quota_pos sch).
  assert (length bs <> 0) by (by destruct bs).
  assert (0 < m <= length bs) as Hm by (unfold m, nlen in *; lia).
  rewrite take_app_le, drop_app_le by lia. split_and!; [done..| |].
  - destruct bs, m; simpl; try done; lia.
  - unfold nlen in *. rewrite length_take. lia.
Qed.

Lemma behaves_mem {L St} (h : handler L St) {A} (p : prog (stream_sig ⊕ L) A) st τ a st' :
  behaves Exact h p st τ a st' ->
  forall rest out sch, exists sch',
    run (hsum mem_stream h) p (Mem (received τ ++ rest) out sch, st) =
    (a, (Mem rest (out ++ sent τ) sch', st')).
Proof.
  induction 1 as [a st|o k st τ a st' H IH|d buf k st τ a st' Hb H IH|d n k st bs τ a st' Hr H IH
      |n k st bs τ a st' Hr H IH|n k st bs τ a st' Hn H IH|buf k st τ a st' H IH|k st τ a st' H IH];
    intros rest out sch;
    rewrite ?received_app, ?sent_app, ?received_snds, ?received_rcvs, ?sent_snds, ?sent_rcvs;
    simpl.
  - exists sch. by rewrite app_nil_r.
  - apply IH.
  - set (n := length buf `min` quota sch).
    pose proof (quota_pos sch).
    assert (0 < n <= length buf) as Hn.
    { destruct buf; [done|]. unfold n. simpl length. lia. }
    destruct (IH n Hn rest (out ++ take n buf) (tail sch)) as [sch' E]. exists sch'.
    rewrite received_app, sent_app, received_snds, sent_snds in E. simpl in E. rewrite E.
    by rewrite <- app_assoc, (app_assoc (take n buf)), take_drop.
  - destruct Hr as (Hne&Hn&[Hl|[[? _]|[? _]]]); [|done..].
    destruct (mem_read_take n bs (received τ ++ rest) sch Hne Hl) as (E1&E2&E3&E4).
    rewrite <- app_assoc, E1, E2, app_assoc.
    destruct (IH _ _ (eq_sym (take_drop _ _)) E3 E4 rest out (tail sch)) as [sch' E].
    rewrite received_app, sent_app, received_rcvs, sent_rcvs in E. eauto.
  - destruct Hr as (Hne&Hn&[Hl|[[? _]|[? _]]]); [|done..].
    destruct (mem_read_take n bs (received τ ++ rest) sch Hne Hl) as (E1&E2&E3&E4).
    rewrite <- app_assoc, E1, E2, app_assoc.
    destruct (IH _ _ (eq_sym (take_drop _ _)) E3 E4 rest out (tail sch)) as [sch' E].
    rewrite received_app, sent_app, received_rcvs, sent_rcvs in E. eauto.
  - rewrite decide_True by (subst n; rewrite <- app_assoc, nlen_app; lia). simpl.
    assert (Hlen : N.to_nat n = length bs) by (subst n; unfold nlen; lia).
    rewrite Hlen, <- app_assoc, take_app_length, drop_app_length. apply IH.
  - rewrite app_assoc. apply IH.
  - apply IH.
Qed.
