(* ===== verification/Errors.v ===== *)
(** * Errors ([crates/rb-core/src/error.rs])

    The phase-tagged error type every fallible function of the core returns. *)

From S2P Require Import Prelude Streams.

Inductive Phase : Type :=
| Connect
| Analyze
| Validate
| Transfer
| Apply
| Verify
| Teardown.

#[export] Instance Phase_eq_decision : EqDecision Phase.
Proof. solve_decision. Defined.

(** [{phase:?}], the derived [Debug] of the enum. *)
Definition Phase_debug (p : Phase) : string :=
  match p with
  | Connect => "Connect"
  | Analyze => "Analyze"
  | Validate => "Validate"
  | Transfer => "Transfer"
  | Apply => "Apply"
  | Verify => "Verify"
  | Teardown => "Teardown"
  end.

(** [anyhow::Error] is opaque to the code; we keep what it was built from. *)
Inductive cause : Type :=
| CauseIo (e : io_error)
| CauseJson (msg : string)
| CauseMsg (msg : string)
| CauseContext (ctx : string) (inner : cause).

(** The variants [Phase], [Preflight] and [Config] share their names with other
    items of the crate and are spelt [PhaseError], [PreflightError] and
    [ConfigError] here. *)
Inductive BackupError : Type :=
| PhaseError (phase : Phase) (message : string) (source : option cause)
| SourceMutated (msg : string)
| PlanRejected (msg : string)
| PreflightError (msg : string)
| Integrity (msg : string)
| ConfigError (msg : string)
| Other (e : cause).

(** [BackupError::phase] and [BackupError::phase_src]. *)
Definition phase (p : Phase) (message : string) : BackupError :=
  PhaseError p message None.

Definition phase_src (p : Phase) (message : string) (source : cause) : BackupError :=
  PhaseError p message (Some source).

(** The [Display] text declared by the [#[error(...)]] attributes; [shown] is the
    text of a wrapped lower-level error. *)
Definition BackupError_display (shown : cause -> string) (e : BackupError) : string :=
  match e with
  | PhaseError p m _ => "[" +:+ Phase_debug p +:+ "] " +:+ m
  | SourceMutated m => "SOURCE-IMMUTABILITY VIOLATION: " +:+ m
  | PlanRejected m => "plan rejected: " +:+ m
  | PreflightError m => "preflight failed: " +:+ m
  | Integrity m => "integrity check failed: " +:+ m
  | ConfigError m => "configuration error: " +:+ m
  | Other c => shown c
  end.

(** The phase an error is attributed to, when it has one. *)
Definition error_phase (e : BackupError) : option Phase :=
  match e with PhaseError p _ _ => Some p | _ => None end.

Lemma error_phase_phase p m : error_phase (phase p m) = Some p.
Proof. done. Qed.
Lemma error_phase_src p m c : error_phase (phase_src p m c) = Some p.
Proof. done. Qed.

#[export] Hint Rewrite error_phase_phase error_phase_src : rb.

Abbreviation Result := (result BackupError).
