(* ===== verification/Json.v ===== *)
(** * JSON values and codecs

    [serde_json::Value] as the code builds and carries it, and the interface of
    the serializer.  [serde_json] itself is not part of the repository: the
    encoder and decoder of each type are the parameters of [Json], and what the
    code relies on is [JsonLaws]. *)

From stdpp Require Import countable.
From S2P Require Import Prelude.

(** [serde_json::Value].  An object is its list of fields in key order (the
    crate's default map is a [BTreeMap]); a non-integer number is kept as text. *)
Inductive Value : Type :=
| VNull
| VBool (b : bool)
| VNumber (z : Z)
| VFloat (repr : string)
| VString (s : string)
| VArray (l : list Value)
| VObject (fields : list (string * Value)).

(** [String]'s [Ord] is the byte-wise lexicographic one. *)
Fixpoint string_ltb (s t : string) : bool :=
  match s, t with
  | EmptyString, String _ _ => true
  | String a s', String b t' =>
      let x := Ascii.N_of_ascii a in
      let y := Ascii.N_of_ascii b in
      (x <? y)%N || ((x =? y)%N && string_ltb s' t')
  | _, _ => false
  end.

(** [Map::insert]: replace the value of a key, or add it in its place. *)
Fixpoint map_insert {V} (k : string) (v : V) (m : list (string * V)) : list (string * V) :=
  match m with
  | [] => [(k, v)]
  | (k', v') :: m' =>
      if String.eqb k k' then (k, v) :: m'
      else if string_ltb k k' then (k, v) :: m
      else (k', v') :: map_insert k v m'
  end.

(** [Map::get]. *)
Fixpoint map_get {V} (k : string) (m : list (string * V)) : option V :=
  match m with
  | [] => None
  | (k', v') :: m' => if String.eqb k k' then Some v' else map_get k m'
  end.

Lemma map_get_insert_eq {V} k (v : V) m : map_get k (map_insert k v m) = Some v.
Proof.
  induction m as [|[k' v'] m IH]; simpl; [by rewrite String.eqb_refl|].
  destruct (String.eqb k k') eqn:E; simpl; [by rewrite String.eqb_refl|].
  destruct (string_ltb k k'); simpl; rewrite ?String.eqb_refl, ?E; done.
Qed.

Lemma map_get_insert_ne {V} k k' (v : V) m :
  k <> k' -> map_get k' (map_insert k v m) = map_get k' m.
Proof.
  intros Hne. assert (Hk : String.eqb k' k = false) by (by apply String.eqb_neq).
  induction m as [|[k2 v2] m IH]; simpl; [by rewrite Hk|].
  destruct (String.eqb k k2) eqn:E; simpl.
  - apply String.eqb_eq in E as <-. by rewrite Hk.
  - destruct (string_ltb k k2); simpl; [by rewrite Hk|].
    by destruct (String.eqb k' k2).
Qed.

#[export] Hint Rewrite @map_get_insert_eq : rb.

(** ** Codecs *)

(** [serde_json::to_vec] and [from_slice] at one type; the error is the message. *)
Class Json (T : Type) := {
  to_vec : T -> result string bytes;
  from_slice : bytes -> result string T;
}.

(** Documented behaviour of the serializer the protocol rests on: decoding what
    was encoded gives the value back, and JSON text holds no NUL byte (control
    characters are escaped). *)
Class JsonLaws (T : Type) `{Json T} := {
  json_roundtrip (x : T) (b : bytes) : to_vec x = Ok b -> from_slice b = Ok x;
  json_no_nul (x : T) (b : bytes) : to_vec x = Ok b -> x00 ∉ b;
}.

(** A codec every countable type has: the digits of its code.  It satisfies the
    laws, so they are not contradictory; concrete runs use it. *)
Fixpoint pos_digits (p : positive) : bytes :=
  match p with
  | xH => [x31]
  | xO p' => x30 :: pos_digits p'
  | xI p' => x32 :: pos_digits p'
  end.

Fixpoint digits_pos (l : bytes) : option positive :=
  match l with
  | [x31] => Some xH
  | x30 :: l' => xO <$> digits_pos l'
  | x32 :: l' => xI <$> digits_pos l'
  | _ => None
  end.

Lemma digits_pos_digits p : digits_pos (pos_digits p) = Some p.
Proof.
  induction p as [p IH|p IH|]; simpl; [| |done]; destruct (pos_digits p) eqn:E;
    by rewrite ?IH; destruct p.
Qed.

Lemma pos_digits_no_nul p : x00 ∉ pos_digits p.
Proof. induction p; simpl; set_solver. Qed.

Definition digits_json {T} `{Countable T} : Json T := {|
  to_vec x := Ok (pos_digits (encode x));
  from_slice l := ok_or (digits_pos l ≫= decode) "invalid document";
|}.

Lemma digits_json_laws {T} `{Countable T} : @JsonLaws T digits_json.
Proof.
  split.
  - intros x b [= <-]. simpl. rewrite digits_pos_digits. simpl. by rewrite decode_encode.
  - intros x b [= <-]. apply pos_digits_no_nul.
Qed.

(** [Value] is countable. *)
Inductive value_leaf : Type := LNull | LBool (b : bool) | LNum (z : Z) | LFloat (s : string)
  | LStr (s : string) | LKey (s : string).

#[export] Instance value_leaf_eq_decision : EqDecision value_leaf.
Proof. solve_decision. Defined.

#[export] Program Instance value_leaf_countable : Countable value_leaf :=
  inj_countable'
    (fun l => match l with
     | LNull => inl (inl (inl tt)) | LBool b => inl (inl (inr b))
     | LNum z => inl (inr (inl z)) | LFloat s => inl (inr (inr s))
     | LStr s => inr (inl s) | LKey s => inr (inr s) end)
    (fun x => match x with
     | inl (inl (inl _)) => LNull | inl (inl (inr b)) => LBool b
     | inl (inr (inl z)) => LNum z | inl (inr (inr s)) => LFloat s
     | inr (inl s) => LStr s | inr (inr s) => LKey s end) _.
Next Obligation. by intros []. Qed.

Fixpoint value_tree (v : Value) : gen_tree value_leaf :=
  match v with
  | VNull => GenLeaf LNull
  | VBool b => GenLeaf (LBool b)
  | VNumber z => GenLeaf (LNum z)
  | VFloat s => GenLeaf (LFloat s)
  | VString s => GenLeaf (LStr s)
  | VArray l => GenNode 0 (value_tree <$> l)
  | VObject m => GenNode 1 ((fun kv => GenNode 2 [GenLeaf (LKey kv.1); value_tree kv.2]) <$> m)
  end.

Fixpoint tree_value (t : gen_tree value_leaf) : Value :=
  match t with
  | GenLeaf LNull => VNull
  | GenLeaf (LBool b) => VBool b
  | GenLeaf (LNum z) => VNumber z
  | GenLeaf (LFloat s) => VFloat s
  | GenLeaf (LStr s) => VString s
  | GenLeaf (LKey s) => VString s
  | GenNode 0 l => VArray (tree_value <$> l)
  | GenNode _ l =>
      VObject ((fun t => match t with
                | GenNode _ [GenLeaf (LKey k); v] => (k, tree_value v)
                | _ => ("", VNull) end) <$> l)
  end.

Lemma tree_value_tree v : tree_value (value_tree v) = v.
Proof.
  revert v. fix IH 1. intros [| | | | |l|m]; simpl; try done; f_equal.
  - induction l as [|x l IHl]; simpl; [done|]. by rewrite IH; f_equal.
  - induction m as [|[k x] m IHm]; simpl; [done|]. by rewrite IH; f_equal.
Qed.

#[export] Instance Value_eq_decision : EqDecision Value.
Proof.
  refine (fun v w => cast_if (decide (value_tree v = value_tree w))).
  - by rewrite <- (tree_value_tree v), e, tree_value_tree.
  - by intros ->.
Defined.

#[export] Instance Value_countable : Countable Value :=
  inj_countable' value_tree tree_value tree_value_tree.

(** * Derived decoders

    The parameter structs of the modules are read from a JSON value by decoders
    that [serde] derives from their declarations: a required field must be there,
    a field marked [default] takes its default when absent, unknown fields are
    ignored, and a value of another type is an error.  The entries are read in
    the order of the object, the first that fails stops the reading; fields are
    missed afterwards, in the order of the declaration.  This is the documented
    behaviour on objects; the texts of type errors and the reading of other
    shapes than objects are the library's and stay parameters. *)

Class Serde := {
  type_error : string -> Value -> string;
  other_shape : forall T : Type, Value -> string + T;
}.

Section Fields.
Context `{Serde}.

(** How each type of field is read. *)
Definition read_string (v : Value) : result string string :=
  match v with VString s => Ok s | _ => Err (type_error "a string" v) end.

Definition read_bool (v : Value) : result string bool :=
  match v with VBool b => Ok b | _ => Err (type_error "a boolean" v) end.

Definition read_u16 (v : Value) : result string N :=
  match v with
  | VNumber z =>
      if ((0 <=? z) && (z <=? 65535))%Z then Ok (Z.to_N z) else Err (type_error "u16" v)
  | _ => Err (type_error "u16" v)
  end.

Definition read_option {T} (read : Value -> result string T) (v : Value) :
  result string (option T) :=
  match v with
  | VNull => Ok None
  | _ => match read v with Ok x => Ok (Some x) | Err e => Err e | Panicked => Panicked end
  end.

Definition missing (k : string) : string := "missing field `" +:+ k +:+ "`".

Definition required {T} (k : string) (read : Value -> result string T)
  (m : list (string * Value)) : result string T :=
  match map_get k m with Some v => read v | None => Err (missing k) end.

Definition defaulted {T} (k : string) (d : T) (read : Value -> result string T)
  (m : list (string * Value)) : result string T :=
  match map_get k m with Some v => read v | None => Ok d end.

Definition optional {T} (k : string) (read : Value -> result string T)
  (m : list (string * Value)) : result string (option T) :=
  defaulted k None (read_option read) m.

(** The types of the known fields. *)
Definition typed {T} (read : Value -> result string T) (v : Value) : result string unit :=
  match read v with Ok _ => Ok tt | Err e => Err e | Panicked => Panicked end.

Definition known_fields : Type := list (string * (Value -> result string unit)).

Fixpoint visit (known : known_fields) (m : list (string * Value)) : result string unit :=
  match m with
  | [] => Ok tt
  | (k, v) :: m' =>
      match map_get k known with
      | Some t => rbind (t v) (fun _ => visit known m')
      | None => visit known m'
      end
  end.

(** A struct is read from an object. *)
Definition read_struct {T} (known : known_fields)
  (fields : list (string * Value) -> result string T) (v : Value) : result string T :=
  match v with
  | VObject m => rbind (visit known m) (fun _ => fields m)
  | _ => match other_shape T v with inr x => Ok x | inl e => Err e end
  end.

(** ** No decoder panics *)

Definition no_panic {E A} (r : result E A) : Prop :=
  match r with Panicked => False | _ => True end.

Lemma no_panic_rbind {E A C} (r : result E A) (f : A -> result E C) :
  no_panic r -> (forall a, no_panic (f a)) -> no_panic (rbind r f).
Proof. destruct r; simpl; auto. Qed.

Lemma no_panic_string v : no_panic (read_string v).
Proof. by destruct v. Qed.

Lemma no_panic_bool v : no_panic (read_bool v).
Proof. by destruct v. Qed.

Lemma no_panic_u16 v : no_panic (read_u16 v).
Proof. destruct v; try done. unfold read_u16. by destruct (_ && _). Qed.

Lemma no_panic_option {T} (read : Value -> result string T) v :
  (forall v, no_panic (read v)) -> no_panic (read_option read v).
Proof. intros Hr. specialize (Hr v). destruct v; simpl; try done; by destruct (read _). Qed.

Lemma no_panic_required {T} k (read : Value -> result string T) m :
  (forall v, no_panic (read v)) -> no_panic (required k read m).
Proof. intros Hr. unfold required. by destruct (map_get k m). Qed.

Lemma no_panic_defaulted {T} k d (read : Value -> result string T) m :
  (forall v, no_panic (read v)) -> no_panic (defaulted k d read m).
Proof. intros Hr. unfold defaulted. by destruct (map_get k m). Qed.

Lemma no_panic_typed {T} (read : Value -> result string T) v :
  (forall v, no_panic (read v)) -> no_panic (typed read v).
Proof. intros Hr. specialize (Hr v). unfold typed. by destruct (read v). Qed.

Lemma no_panic_visit known m :
  Forall (fun e => forall v, no_panic (e.2 v)) known -> no_panic (visit known m).
Proof.
  intros Hk. induction m as [|[k v] m IH]; simpl; [done|].
  destruct (map_get k known) as [t|] eqn:Et; [|done]. apply no_panic_rbind; [|done].
  clear IH. induction Hk as [|[k' t'] known Hx _ IHk]; simpl in Et; [done|].
  destruct (String.eqb k k'); [injection Et as <-; apply Hx|by apply IHk].
Qed.

Lemma no_panic_struct {T} known (fields : list (string * Value) -> result string T) v :
  Forall (fun e => forall v, no_panic (e.2 v)) known -> (forall m, no_panic (fields m)) ->
  no_panic (read_struct known fields v).
Proof.
  intros Hk Hf. destruct v; simpl; try (by destruct (other_shape _ _)).
  apply no_panic_rbind; [by apply no_panic_visit|done].
Qed.
End Fields.

#[export] Hint Resolve no_panic_rbind no_panic_string no_panic_bool no_panic_u16 no_panic_option
  no_panic_required no_panic_defaulted no_panic_typed no_panic_struct : rb.

(** Concrete texts for the library's errors, for evaluating the decoders. *)
Definition demo_serde : Serde := {|
  type_error := fun expected _ => "invalid type, expected " +:+ expected;
  other_shape := fun _ _ => inl "invalid type, expected struct";
|}.
