(* ===== verification/Plan.v ===== *)
(** * The backup plan ([crates/rb-core/src/plan.rs])

    The plan the source sends and the destination validates, its rendering,
    the preflight result, and the byte-count formatter. *)

From S2P Require Import Prelude Json.
From stdpp Require Import countable.

Definition PLAN_FORMAT_VERSION : N := 1.

Inductive BackupMode : Type := Copy1to1.

#[export] Instance BackupMode_eq_decision : EqDecision BackupMode.
Proof. solve_decision. Defined.

Definition BackupMode_debug (m : BackupMode) : string :=
  match m with Copy1to1 => "Copy1to1" end.

Record PlanItem : Type := {
  item_id : N;                (* u32 *)
  item_ordinal : N;           (* u32 *)
  item_kind : string;
  item_name : string;
  item_estimated_bytes : N;   (* u64 *)
  item_meta : Value;
}.

Record IntegritySpec : Type := {
  algorithm : string;
  per_item : bool;
}.

Definition IntegritySpec_default : IntegritySpec :=
  {| algorithm := "blake3"; per_item := true |}.

Record BackupPlan : Type := {
  format_version : N;         (* u16 *)
  plan_module : string;
  plan_mode : BackupMode;
  created_at : string;
  source_summary : string;
  items : list PlanItem;
  estimated_bytes : N;        (* u64 *)
  integrity : IntegritySpec;
  payload : Value;
}.

(** ** [human_bytes]

    [n as f64] rounds to 53 significant bits, ties to even; the divisions by
    1024 that follow are exact, so the value after [i] of them is the mantissa
    [m] over [1024 ^ i].  [{:.2}] prints the hundredths, ties to even. *)

Definition round_half_even (a b : N) : N :=
  let q := (a / b)%N in
  let r := (a mod b)%N in
  if (b <? 2 * r)%N || ((2 * r =? b)%N && N.odd q) then (q + 1)%N else q.

Definition f64_of_u64 (n : N) : N :=
  let s := (N.size n - 53)%N in
  (round_half_even n (2 ^ s) * 2 ^ s)%N.

Definition units : list string := ["B"; "KiB"; "MiB"; "GiB"; "TiB"].

(** The [while] loop, [left] being [U.len() - 1 - i]; it returns the unit index. *)
Fixpoint human_unit (left : nat) (m : N) (i : nat) : nat :=
  match left with
  | O => i
  | S left' =>
      if (1024 ^ N.of_nat (S i) <=? m)%N then human_unit left' m (S i) else i
  end.

Definition human_hundredths (m : N) (i : nat) : N :=
  round_half_even (100 * m) (1024 ^ N.of_nat i).

Definition two_digits (n : N) : string :=
  (if (n <? 10)%N then "0" else "") +:+ pretty n.

Definition human_bytes (n : N) : string :=
  let m := f64_of_u64 n in
  let i := human_unit (length units - 1) m 0 in
  if Nat.eqb i 0 then pretty n +:+ " B"
  else
    let h := human_hundredths m i in
    pretty (h / 100)%N +:+ "." +:+ two_digits (h mod 100)%N +:+ " " +:+
      default "" (units !! i).

(** ** [BackupPlan::render] *)

(** Characters of a UTF-8 string: bytes that do not continue a character. *)
Fixpoint char_count (s : string) : nat :=
  match s with
  | EmptyString => 0
  | String a s' =>
      let n := Ascii.N_of_ascii a in
      (if (128 <=? n)%N && (n <? 192)%N then 0 else 1) + char_count s'
  end.

Fixpoint spaces (n : nat) : string :=
  match n with O => "" | S n' => " " +:+ spaces n' end.

(** [{:>w}] and [{:<w}]. *)
Definition pad_left (w : nat) (s : string) : string := spaces (w - char_count s) +:+ s.
Definition pad_right (w : nat) (s : string) : string := s +:+ spaces (w - char_count s).

Definition newline : string := String (Ascii.ascii_of_nat 10) "".

Definition render_item (it : PlanItem) : string :=
  "    [" +:+ pad_left 3 (pretty (item_id it)) +:+ "] " +:+
  pad_right 10 (item_kind it) +:+ " " +:+ pad_right 40 (item_name it) +:+ " " +:+
  human_bytes (item_estimated_bytes it) +:+ newline.

Definition render (p : BackupPlan) : string :=
  "Backup plan  module=" +:+ plan_module p +:+ "  mode=" +:+
  BackupMode_debug (plan_mode p) +:+ "  created=" +:+ created_at p +:+ newline +:+
  "  " +:+ source_summary p +:+ newline +:+
  "  items: " +:+ pretty (nlen (items p)) +:+ "   estimated: " +:+
  human_bytes (estimated_bytes p) +:+ "   integrity: " +:+
  algorithm (integrity p) +:+ newline +:+
  foldr String.append "" (render_item <$> items p).

(** ** Preflight *)

Record PreflightCheck : Type := {
  check_name : string;
  check_passed : bool;
  check_detail : string;
}.

Record Preflight : Type := {
  ok : bool;
  checks : list PreflightCheck;
  available_bytes : option N;
}.

Definition pass : Preflight := {| ok := true; checks := []; available_bytes := None |}.

Definition check (self : Preflight) (name : string) (passed : bool) (detail : string) :
  Preflight := {|
  ok := ok self && passed;
  checks := checks self ++
    [{| check_name := name; check_passed := passed; check_detail := detail |}];
  available_bytes := available_bytes self;
|}.

(** ** Facts *)

Definition all_passed (p : Preflight) : bool := forallb check_passed (checks p).

Lemma check_all_passed p n b d :
  ok p = all_passed p -> ok (check p n b d) = all_passed (check p n b d).
Proof.
  intros H. unfold all_passed in *. simpl. rewrite H.
  rewrite forallb_app. simpl. by rewrite andb_true_r.
Qed.

Lemma pass_all_passed : ok pass = all_passed pass.
Proof. done. Qed.

#[export] Hint Resolve check_all_passed pass_all_passed : rb.

Lemma round_half_even_near a b :
  (0 < b)%N ->
  (2 * (round_half_even a b * b) <= 2 * a + b /\ 2 * a <= 2 * (round_half_even a b * b) + b)%N.
Proof.
  intros Hb. unfold round_half_even.
  pose proof (N.div_mod a b ltac:(lia)) as E. pose proof (N.mod_lt a b ltac:(lia)) as Hr.
  set (q := (a / b)%N) in *. set (r := (a mod b)%N) in *.
  destruct (N.ltb_spec b (2 * r)); simpl; [split; nia|].
  destruct (N.eqb_spec (2 * r) b); simpl; [|split; nia].
  destruct (N.odd q); split; nia.
Qed.

Lemma round_half_even_1 a : round_half_even a 1 = a.
Proof.
  unfold round_half_even. rewrite N.div_1_r, N.mod_1_r. simpl. done.
Qed.

Lemma f64_of_u64_exact n : (n < 2 ^ 53)%N -> f64_of_u64 n = n.
Proof.
  intros Hn. unfold f64_of_u64.
  assert (N.size n <= 53)%N as Hs.
  { destruct (N.eq_dec n 0%N) as [->|]; [done|].
    rewrite N.size_log2 by done. apply N.log2_lt_pow2 in Hn; lia. }
  replace (N.size n - 53)%N with 0%N by lia. simpl.
  rewrite round_half_even_1. lia.
Qed.

Lemma human_unit_spec left m i :
  (i = 0 \/ (1024 ^ N.of_nat i <= m)%N) ->
  let j := human_unit left m i in
  i <= j <= i + left /\ (j = 0 \/ (1024 ^ N.of_nat j <= m)%N) /\
  (j = i + left \/ (m < 1024 ^ N.of_nat (S j))%N).
Proof.
  revert i; induction left as [|left IH]; intros i Hi; cbv zeta; cbn [human_unit].
  - split_and!; [lia|lia| |lia]. destruct Hi; [left; lia|by right].
  - destruct (N.leb_spec (1024 ^ N.of_nat (S i)) m) as [Hle|Hlt].
    + destruct (IH (S i)) as (?&?&?); [by right|]. split_and!; [lia|lia|done|].
      destruct H1; [left; lia|by right].
    + split_and!; [lia|lia| |by right]. destruct Hi; [left; lia|by right].
Qed.

(** The unit is the largest one the (rounded) count reaches, capped at TiB. *)
Lemma human_unit_largest n :
  let m := f64_of_u64 n in
  let i := human_unit (length units - 1) m 0 in
  i < length units /\ (i = 0 \/ (1024 ^ N.of_nat i <= m)%N) /\
  (i = 4 \/ (m < 1024 ^ N.of_nat (S i))%N).
Proof.
  cbv zeta. destruct (human_unit_spec 4 (f64_of_u64 n) 0) as ([_ H1]&H2&H3); [by left|].
  change (length units - 1) with 4. split_and!; [simpl length; lia|done|].
  destruct H3; [left; lia|by right].
Qed.

(** ** Countability (for concrete codecs) *)

#[export] Instance BackupMode_countable : Countable BackupMode :=
  inj_countable' (fun _ => tt) (fun _ => Copy1to1) (fun m => match m with Copy1to1 => eq_refl end).

#[export] Instance PlanItem_eq_decision : EqDecision PlanItem.
Proof. solve_decision. Defined.

#[export] Program Instance PlanItem_countable : Countable PlanItem :=
  inj_countable'
    (fun i => (item_id i, item_ordinal i, item_kind i, item_name i, item_estimated_bytes i,
               item_meta i))
    (fun '(a, b, c, d, e, f) => {| item_id := a; item_ordinal := b; item_kind := c;
        item_name := d; item_estimated_bytes := e; item_meta := f |}) _.
Next Obligation. by intros []. Qed.

#[export] Instance IntegritySpec_eq_decision : EqDecision IntegritySpec.
Proof. solve_decision. Defined.

#[export] Program Instance IntegritySpec_countable : Countable IntegritySpec :=
  inj_countable' (fun i => (algorithm i, per_item i))
    (fun '(a, b) => {| algorithm := a; per_item := b |}) _.
Next Obligation. by intros []. Qed.

#[export] Instance BackupPlan_eq_decision : EqDecision BackupPlan.
Proof. solve_decision. Defined.

#[export] Program Instance BackupPlan_countable : Countable BackupPlan :=
  inj_countable'
    (fun p => (format_version p, plan_module p, plan_mode p, created_at p, source_summary p,
               items p, estimated_bytes p, integrity p, payload p))
    (fun '(a, b, c, d, e, f, g, h, i) => {| format_version := a; plan_module := b;
        plan_mode := c; created_at := d; source_summary := e; items := f;
        estimated_bytes := g; integrity := h; payload := i |}) _.
Next Obligation. by intros []. Qed.
