(* ===== verification/Wire.v ===== *)
(** * Wire framing ([crates/rb-core/src/wire.rs])

    Length-prefixed JSON frames over a byte stream, with the idle-timeout read
    and write loops under them. *)

From S2P Require Import Prelude Streams Errors Json Plan.
From stdpp Require Import countable.

Definition CHUNK_SIZE : N := 1024 * 1024.
Definition COPY_BUFFER : N := 64 * 1024.
Definition FRAME_LIMIT : N := 16 * 1024 * 1024.
(** In seconds. *)
Definition IO_IDLE_TIMEOUT : N := 30.

Inductive ControlFrame : Type :=
| Plan (p : BackupPlan)
| PlanAck (accepted : bool) (reason : string)
| Done (total_bytes : N) (blake3 : string)
| Abort (reason : string).

Inductive DataFrame : Type :=
| ChunkStart (item_id : N) (offset : N) (len : N) (blake3 : string)
| ItemEnd (item_id : N) (total : N) (blake3 : string)
| StreamEnd.

(** The digest function of the [blake3] crate, rendered in hexadecimal. *)
Class Blake3 := blake3_hash_hex : bytes -> string.

Definition blake3_hex `{Blake3} (data : bytes) : string := blake3_hash_hex data.

Section Io.
Context {L : sig}.

(** [while !buf.is_empty()]: every turn drops at least one byte, so the length
    of the buffer is enough fuel (see [write_all_idle_loop]). *)
Fixpoint write_all_from (fuel : nat) (buf : bytes) : prog (stream_sig ⊕ L) (Result unit) :=
  match buf, fuel with
  | [], _ | _, O => Ret (Ok tt)
  | _, S fuel' =>
      let! r := stream (WriteT IO_IDLE_TIMEOUT buf) in
      match r with
      | Elapsed => Ret (Err (phase Transfer "write idle timeout"))
      | InTime (Err e) => Ret (Err (phase_src Transfer "write" (CauseIo e)))
      | InTime Panicked => Ret Panicked
      | InTime (Ok n) =>
          if (n =? 0)%N then
            Ret (Err (phase Transfer "write returned 0 (peer closed)"))
          else if (nlen buf <? n)%N then Ret Panicked
          else write_all_from fuel' (drop (N.to_nat n) buf)
      end
  end.

Definition write_all_idle (buf : bytes) : prog (stream_sig ⊕ L) (Result unit) :=
  write_all_from (length buf) buf.

(** [while off < buf.len()], [acc] being the filled part [buf[..off]]. *)
Fixpoint read_exact_from (fuel : nat) (len : N) (acc : bytes) :
  prog (stream_sig ⊕ L) (Result bytes) :=
  if (nlen acc <? len)%N then
    match fuel with
    | O => Ret (Ok acc)
    | S fuel' =>
        let! r := stream (ReadT IO_IDLE_TIMEOUT (len - nlen acc)%N) in
        match r with
        | Elapsed => Ret (Err (phase Transfer "read idle timeout"))
        | InTime (Err e) => Ret (Err (phase_src Transfer "read" (CauseIo e)))
        | InTime Panicked => Ret Panicked
        | InTime (Ok bs) =>
            if (nlen bs =? 0)%N then
              Ret (Err (phase Transfer "unexpected EOF mid-frame"))
            else read_exact_from fuel' len (acc ++ bs)
        end
    end
  else Ret (Ok acc).

(** The buffer of [len] bytes, once filled. *)
Definition read_exact_idle (len : N) : prog (stream_sig ⊕ L) (Result bytes) :=
  read_exact_from (N.to_nat len) len [].

Definition send_frame {T} `{Json T} (frame : T) : prog (stream_sig ⊕ L) (Result unit) :=
  let? body := Ret (map_err (fun e => phase_src Transfer "frame serialize" (CauseJson e))
                      (to_vec frame)) in
  if (FRAME_LIMIT <? nlen body)%N then
    Ret (Err (phase Transfer "frame exceeds FRAME_LIMIT"))
  else
    let? _ := write_all_idle (to_le_bytes (nlen body mod 2 ^ 32)) in
    let? _ := write_all_idle body in
    let! r := stream Flush in
    Ret (map_err (fun e => phase_src Transfer "frame flush" (CauseIo e)) r).

Definition recv_frame {T} `{Json T} : prog (stream_sig ⊕ L) (Result (option T)) :=
  let! r := stream (ReadExact 4) in
  match r with
  | Ok len_buf =>
      let len := from_le_bytes len_buf in
      if (FRAME_LIMIT <? len)%N then
        Ret (Err (phase Transfer "incoming frame too large"))
      else
        let? body := read_exact_idle len in
        let? frame := Ret (map_err
          (fun e => phase_src Transfer "frame deserialize" (CauseJson e))
          (from_slice body)) in
        Ret (Ok (Some frame))
  | Err e =>
      if decide (io_kind e = UnexpectedEof) then Ret (Ok None)
      else Ret (Err (phase_src Transfer "frame len read" (CauseIo e)))
  | Panicked => Ret Panicked
  end.
End Io.

(** The bytes of one frame on the wire. *)
Definition frame_bytes (body : bytes) : bytes := to_le_bytes (nlen body) ++ body.

Section IoFacts.
Context {L : sig} {St : Type} (h : handler L St).

Lemma write_all_from_behaves fuel buf st :
  length buf <= fuel -> behaves Exact h (write_all_from fuel buf) st (snds buf) (Ok tt) st.
Proof.
  revert buf; induction fuel as [|fuel IH]; intros [|b buf] Hf;
    try (simpl in Hf; lia); [constructor..|].
  rewrite <- (app_nil_r (snds _)). cbn [write_all_from].
  apply bh_write; [done|]. intros n Hn. rewrite app_nil_r.
  destruct (N.eqb_spec (N.of_nat n) 0); [lia|].
  destruct (N.ltb_spec (nlen (b :: buf)) (N.of_nat n)) as [Hl|]; [unfold nlen in Hl; lia|].
  rewrite Nat2N.id. apply IH. rewrite length_drop. simpl length in *. lia.
Qed.

Lemma write_all_idle_behaves buf st :
  behaves Exact h (write_all_idle buf) st (snds buf) (Ok tt) st.
Proof. by apply write_all_from_behaves. Qed.

Lemma read_exact_from_behaves fuel len acc bs st :
  nlen (acc ++ bs) = len -> length bs <= fuel ->
  behaves Exact h (read_exact_from fuel len acc) st (rcvs bs) (Ok (acc ++ bs)) st.
Proof.
  revert acc bs; induction fuel as [|fuel IH]; intros acc bs Hlen Hf.
  - destruct bs; [|simpl in Hf; lia]. rewrite app_nil_r in *. cbn [read_exact_from].
    destruct (N.ltb_spec (nlen acc) len); constructor.
  - cbn [read_exact_from]. destruct (N.ltb_spec (nlen acc) len) as [Hlt|Hge].
    + rewrite <- (app_nil_r (rcvs bs)). rewrite nlen_app in Hlen.
      assert (bs <> []) as Hne by (intros ->; rewrite nlen_nil in Hlen; lia).
      apply bh_read_t; [split_and!; [done|lia|left; lia]|].
      intros pre post -> Hp _. rewrite app_nil_r.
      assert (0 < length pre) by (destruct pre; simpl; [done|lia]).
      destruct (N.eqb_spec (nlen pre) 0) as [E|_]; [unfold nlen in E; lia|].
      rewrite app_assoc. apply IH.
      * rewrite <- app_assoc, nlen_app. done.
      * rewrite length_app in Hf. lia.
    + rewrite nlen_app in Hlen. destruct bs as [|b bs]; [|rewrite nlen_cons in Hlen; lia].
      rewrite app_nil_r. constructor.
Qed.

Lemma read_exact_idle_behaves len bs st :
  nlen bs = len -> behaves Exact h (read_exact_idle len) st (rcvs bs) (Ok bs) st.
Proof.
  intros H. apply (read_exact_from_behaves _ _ []); [done|].
  unfold nlen in H. lia.
Qed.

Lemma send_frame_behaves {T} `{Json T} (x : T) body st :
  to_vec x = Ok body -> (nlen body <= FRAME_LIMIT)%N ->
  behaves Exact h (send_frame x) st (snds (frame_bytes body)) (Ok tt) st.
Proof.
  intros Hx Hl. unfold send_frame. rewrite Hx.
  replace (snds (frame_bytes body)) with ([] ++ snds (to_le_bytes (nlen body)) ++ snds body ++ [])
    by (unfold frame_bytes; by autorewrite with rb).
  eapply (behaves_try Exact); [constructor|].
  destruct (N.ltb_spec FRAME_LIMIT (nlen body)); [lia|].
  rewrite N.mod_small by (unfold FRAME_LIMIT in *; lia).
  eapply (behaves_try Exact); [apply write_all_idle_behaves|].
  eapply (behaves_try Exact); [apply write_all_idle_behaves|].
  apply bh_flush. constructor.
Qed.

Lemma recv_frame_behaves {T} `{JsonLaws T} (x : T) body st :
  to_vec x = Ok body -> (nlen body <= FRAME_LIMIT)%N ->
  behaves Exact h recv_frame st (rcvs (frame_bytes body)) (Ok (Some x)) st.
Proof.
  intros Hx Hl. unfold recv_frame, frame_bytes. rewrite rcvs_app.
  apply bh_read_exact; [done|]. cbn [pbind].
  rewrite from_to_le_bytes by (unfold FRAME_LIMIT in *; lia).
  destruct (N.ltb_spec FRAME_LIMIT (nlen body)); [lia|].
  rewrite <- (app_nil_r (rcvs body)).
  eapply (behaves_try Exact); [by apply read_exact_idle_behaves|].
  rewrite (json_roundtrip _ _ Hx). constructor.
Qed.
End IoFacts.

(** ** The loops, unrolled

    The fuel never runs out: each function satisfies the equation of its
    [while] loop. *)

Section Loops.
Context {L : sig}.

Lemma write_all_from_fuel f1 f2 buf :
  length buf <= f1 -> length buf <= f2 ->
  write_all_from (L := L) f1 buf ≡ write_all_from f2 buf.
Proof.
  revert f2 buf. induction f1 as [|f1 IH]; intros [|f2] [|b buf] H1 H2;
    simpl in H1, H2; try lia; try reflexivity.
  cbn [write_all_from]. apply pbind_proper; [reflexivity|].
  intros [[k|e|]|]; try reflexivity.
  destruct (N.eqb_spec k 0); [reflexivity|].
  destruct (N.ltb_spec (nlen (b :: buf)) k); [reflexivity|].
  apply IH; rewrite length_drop; simpl length; lia.
Qed.

Lemma read_exact_from_fuel f1 f2 len acc :
  (len <= nlen acc + N.of_nat f1)%N -> (len <= nlen acc + N.of_nat f2)%N ->
  read_exact_from (L := L) f1 len acc ≡ read_exact_from f2 len acc.
Proof.
  revert f2 acc. induction f1 as [|f1 IH]; intros [|f2] acc H1 H2;
    cbn [read_exact_from]; destruct (N.ltb_spec (nlen acc) len) as [Hl|Hl];
    try lia; try reflexivity.
  apply pbind_proper; [reflexivity|]. intros [[bs|e|]|]; try reflexivity.
  destruct (N.eqb_spec (nlen bs) 0); [reflexivity|].
  apply IH; rewrite nlen_app; lia.
Qed.

(** The [while] loop of [write_all_idle]. *)
Lemma write_all_idle_loop buf :
  write_all_idle (L := L) buf ≡
    match buf with
    | [] => Ret (Ok tt)
    | _ =>
        let! r := stream (WriteT IO_IDLE_TIMEOUT buf) in
        match r with
        | Elapsed => Ret (Err (phase Transfer "write idle timeout"))
        | InTime (Err e) => Ret (Err (phase_src Transfer "write" (CauseIo e)))
        | InTime Panicked => Ret Panicked
        | InTime (Ok n) =>
            if (n =? 0)%N then Ret (Err (phase Transfer "write returned 0 (peer closed)"))
            else if (nlen buf <? n)%N then Ret Panicked
            else write_all_idle (drop (N.to_nat n) buf)
        end
    end.
Proof.
  destruct buf as [|b buf]; [reflexivity|]. unfold write_all_idle at 1.
  cbn [write_all_from length]. apply pbind_proper; [reflexivity|].
  intros [[k|e|]|]; try reflexivity.
  destruct (N.eqb_spec k 0); [reflexivity|].
  destruct (N.ltb_spec (nlen (b :: buf)) k); [reflexivity|].
  apply write_all_from_fuel; rewrite length_drop; simpl length; lia.
Qed.

Lemma read_exact_from_loop len acc :
  read_exact_from (L := L) (N.to_nat len) len acc ≡
    if (nlen acc <? len)%N then
      let! r := stream (ReadT IO_IDLE_TIMEOUT (len - nlen acc)%N) in
      match r with
      | Elapsed => Ret (Err (phase Transfer "read idle timeout"))
      | InTime (Err e) => Ret (Err (phase_src Transfer "read" (CauseIo e)))
      | InTime Panicked => Ret Panicked
      | InTime (Ok bs) =>
          if (nlen bs =? 0)%N then Ret (Err (phase Transfer "unexpected EOF mid-frame"))
          else read_exact_from (N.to_nat len) len (acc ++ bs)
      end
    else Ret (Ok acc).
Proof.
  rewrite (read_exact_from_fuel _ (S (N.to_nat len))) by lia. cbn [read_exact_from].
  destruct (N.ltb_spec (nlen acc) len); [|reflexivity].
  apply pbind_proper; [reflexivity|]. intros [[bs|e|]|]; reflexivity.
Qed.
End Loops.

(** ** Errors *)

Definition is_transfer (e : BackupError) : Prop := error_phase e = Some Transfer.

Section Errors.
Context {L : sig}.

Lemma write_all_idle_errs buf : always (errs is_transfer) (write_all_idle (L := L) buf).
Proof.
  unfold write_all_idle. generalize (length buf) as fuel. intros fuel.
  revert buf; induction fuel as [|fuel IH]; intros [|b buf]; simpl; try done.
  intros [[n|e|]|]; try done.
  destruct (n =? 0)%N; [done|]. destruct (nlen (b :: buf) <? n)%N; [done|]. apply IH.
Qed.

Lemma read_exact_idle_errs len : always (errs is_transfer) (read_exact_idle (L := L) len).
Proof.
  unfold read_exact_idle. generalize (N.to_nat len) as fuel, (@nil byte) as acc.
  intros fuel. induction fuel as [|fuel IH]; intros acc; simpl;
    destruct (nlen acc <? len)%N; simpl; try done.
  intros [[bs|e|]|]; try done. destruct (nlen bs =? 0)%N; [done|]. apply IH.
Qed.

Lemma send_frame_errs {T} `{Json T} (x : T) :
  always (errs is_transfer) (send_frame (L := L) x).
Proof.
  unfold send_frame. apply always_try; [by destruct (to_vec x)|]. intros body.
  destruct (FRAME_LIMIT <? nlen body)%N; [done|].
  repeat (apply always_try; [apply write_all_idle_errs|intros _]).
  simpl. by intros [[]|e|].
Qed.

Lemma recv_frame_errs {T} `{Json T} :
  always (errs is_transfer) (recv_frame (L := L) (T := T)).
Proof.
  unfold recv_frame. simpl. intros [b|e|]; [|by case_decide|done].
  destruct (FRAME_LIMIT <? from_le_bytes b)%N; [done|].
  apply always_try; [apply read_exact_idle_errs|]. intros body.
  by destruct (from_slice body).
Qed.
End Errors.

#[export] Hint Resolve write_all_idle_errs read_exact_idle_errs send_frame_errs
  recv_frame_errs : rb.

(** ** The frame functions only use the stream *)

Section StreamOnly.
Context {L : sig}.

Lemma write_all_idle_stream buf : stream_only (write_all_idle (L := L) buf).
Proof.
  unfold write_all_idle. generalize (length buf) as fuel. intros fuel.
  revert buf; induction fuel as [|fuel IH]; intros [|b buf]; simpl; try done.
  split; [done|]. intros [[n|e|]|]; try done.
  destruct (n =? 0)%N; [done|]. destruct (_ <? n)%N; [done|]. apply IH.
Qed.

Lemma read_exact_idle_stream n : stream_only (read_exact_idle (L := L) n).
Proof.
  unfold read_exact_idle. generalize (N.to_nat n) as fuel, (@nil byte) as acc.
  intros fuel; induction fuel as [|fuel IH]; intros acc; simpl;
    destruct (nlen acc <? n)%N; simpl; try done.
  split; [done|]. intros [[bs|e|]|]; try done. destruct (nlen bs =? 0)%N; [done|]. apply IH.
Qed.

Lemma send_frame_stream {T} `{Json T} (x : T) : stream_only (send_frame (L := L) x).
Proof.
  unfold send_frame. apply every_try; [by destruct (to_vec x)|]. intros body.
  destruct (_ <? nlen body)%N; [done|].
  repeat (apply every_try; [apply write_all_idle_stream|intros _]).
  simpl. split; [done|]. by intros [[]|e|].
Qed.

Lemma recv_frame_stream {T} `{Json T} : stream_only (recv_frame (L := L) (T := T)).
Proof.
  unfold recv_frame. simpl. split; [done|]. intros [b|e|]; [|by case_decide|done].
  destruct (FRAME_LIMIT <? from_le_bytes b)%N; [done|].
  apply every_try; [apply read_exact_idle_stream|]. intros body.
  by destruct (from_slice body).
Qed.
End StreamOnly.

#[export] Hint Resolve write_all_idle_stream read_exact_idle_stream send_frame_stream
  recv_frame_stream : rb.

(** ** Truncated and oversized input, on the in-memory end *)

Section Truncated.
Context {L : sig} {St : Type} (h : handler L St).

Lemma read_exact_from_short fuel len acc inb out sch st :
  (nlen acc + nlen inb < len)%N -> (len <= nlen acc + N.of_nat fuel)%N ->
  exists sch',
    run (hsum mem_stream h) (read_exact_from fuel len acc) (Mem inb out sch, st) =
    (Err (phase Transfer "unexpected EOF mid-frame"), (Mem [] out sch', st)).
Proof.
  revert acc inb sch; induction fuel as [|fuel IH]; intros acc inb sch Hs Hf;
    cbn [read_exact_from]; destruct (N.ltb_spec (nlen acc) len); try lia.
  cbn -[read_exact_from]. set (m := N.to_nat (len - nlen acc) `min` quota sch).
  pose proof (quota_pos sch).
  destruct inb as [|b inb].
  { exists (tail sch). by rewrite take_nil, drop_nil. }
  assert (0 < m) by (unfold m; lia).
  assert (Hn : (0 < nlen (take m (b :: inb)))%N).
  { unfold nlen. rewrite length_take. simpl length. lia. }
  destruct (N.eqb_spec (nlen (take m (b :: inb))) 0) as [E|_]; [lia|].
  apply IH; rewrite nlen_app; [|lia].
  rewrite <- (take_drop m (b :: inb)), nlen_app in Hs. lia.
Qed.

Lemma recv_frame_eof {T} `{Json T} inb out sch st :
  (nlen inb < 4)%N ->
  run (hsum mem_stream h) (recv_frame (T := T)) (Mem inb out sch, st) =
  (Ok None, (Mem [] out sch, st)).
Proof.
  intros Hl. unfold recv_frame. simpl. rewrite decide_False by lia. done.
Qed.

Lemma read_prefix n inb out sch (st : St) {A} (k : result io_error bytes -> prog _ A) :
  run (hsum mem_stream h) (pbind (stream (ReadExact 4)) k)
    (Mem (to_le_bytes n ++ inb) out sch, st) =
  run (hsum mem_stream h) (k (Ok (to_le_bytes n))) (Mem inb out sch, st).
Proof. simpl. rewrite decide_True by (autorewrite with rb; unfold nlen; simpl; lia). done. Qed.

Lemma recv_frame_truncated {T} `{Json T} n inb out sch st :
  (n <= FRAME_LIMIT)%N -> (nlen inb < n)%N ->
  exists sch',
    run (hsum mem_stream h) (recv_frame (T := T)) (Mem (to_le_bytes n ++ inb) out sch, st) =
    (Err (phase Transfer "unexpected EOF mid-frame"), (Mem [] out sch', st)).
Proof.
  intros Hn Hl. unfold recv_frame. rewrite read_prefix.
  rewrite from_to_le_bytes by (unfold FRAME_LIMIT in *; lia).
  destruct (N.ltb_spec FRAME_LIMIT n); [lia|].
  destruct (read_exact_from_short (N.to_nat n) n [] inb out sch st) as [sch' E];
    [rewrite nlen_nil; lia..|].
  exists sch'. rewrite run_try. unfold read_exact_idle. by rewrite E.
Qed.

Lemma recv_frame_oversize {T} `{Json T} n inb out sch st :
  (FRAME_LIMIT < n < 2 ^ 32)%N ->
  run (hsum mem_stream h) (recv_frame (T := T)) (Mem (to_le_bytes n ++ inb) out sch, st) =
  (Err (phase Transfer "incoming frame too large"), (Mem inb out sch, st)).
Proof.
  intros Hn. unfold recv_frame. rewrite read_prefix.
  rewrite from_to_le_bytes by lia. by destruct (N.ltb_spec FRAME_LIMIT n); [|lia].
Qed.
End Truncated.

(** ** Countability (for concrete codecs) *)

#[export] Instance ControlFrame_eq_decision : EqDecision ControlFrame.
Proof. solve_decision. Defined.

#[export] Program Instance ControlFrame_countable : Countable ControlFrame :=
  inj_countable'
    (fun f => match f with
     | Plan p => inl (inl p) | PlanAck a r => inl (inr (a, r))
     | Done t b => inr (inl (t, b)) | Abort r => inr (inr r) end)
    (fun x => match x with
     | inl (inl p) => Plan p | inl (inr (a, r)) => PlanAck a r
     | inr (inl (t, b)) => Done t b | inr (inr r) => Abort r end) _.
Next Obligation. by intros []. Qed.

#[export] Instance DataFrame_eq_decision : EqDecision DataFrame.
Proof. solve_decision. Defined.

#[export] Program Instance DataFrame_countable : Countable DataFrame :=
  inj_countable'
    (fun f => match f with
     | ChunkStart i o l b => inl (i, o, l, b)
     | ItemEnd i t b => inr (inl (i, t, b)) | StreamEnd => inr (inr tt) end)
    (fun x => match x with
     | inl (i, o, l, b) => ChunkStart i o l b
     | inr (inl (i, t, b)) => ItemEnd i t b | inr (inr _) => StreamEnd end) _.
Next Obligation. by intros []. Qed.
