(* ===== verification/Progress.v ===== *)
(** * Progress counters ([crates/rb-core/src/progress.rs])

    Four shared atomic counters.  Holders of a clone of the handle reach the same
    counters, so in programs the calls are operations on one shared state. *)

From S2P Require Import Prelude Plan.
From Stdlib Require Import SpecFloat.

Record Progress : Type := {
  bytes_done : N;     (* AtomicU64 *)
  items_done : N;     (* AtomicUsize *)
  items_total : N;    (* AtomicUsize *)
  bytes_total : N;    (* AtomicU64 *)
}.

Definition Progress_default : Progress :=
  {| bytes_done := 0; items_done := 0; items_total := 0; bytes_total := 0 |}.

Definition Progress_new (items_total bytes_total : N) : Progress :=
  {| bytes_done := 0; items_done := 0;
     items_total := items_total; bytes_total := bytes_total |}.

(** [fetch_add] wraps. *)
Definition add_bytes (p : Progress) (n : N) : Progress :=
  {| bytes_done := (bytes_done p + n) mod 2 ^ 64; items_done := items_done p;
     items_total := items_total p; bytes_total := bytes_total p |}.

Definition item_done (p : Progress) : Progress :=
  {| bytes_done := bytes_done p; items_done := (items_done p + 1) mod 2 ^ 64;
     items_total := items_total p; bytes_total := bytes_total p |}.

(** [Progress::bytes] is the projection [bytes_done]. *)

(** ** [Progress::line]

    Double-precision arithmetic is the IEEE one of [SpecFloat] (53 bits of
    precision, exponents up to 1024, round to nearest even). *)

Definition f64 : Type := spec_float.
Definition f64_of_N (n : N) : f64 := binary_normalize 53 1024 (Z.of_N n) 0 false.
Definition f64_div : f64 -> f64 -> f64 := SFdiv 53 1024.
Definition f64_mul : f64 -> f64 -> f64 := SFmul 53 1024.

(** [f64::min]: a NaN operand loses. *)
Definition f64_min (x y : f64) : f64 :=
  match x, y with
  | S754_nan, _ => y
  | _, S754_nan => x
  | _, _ => if SFltb y x then y else x
  end.

(** [x as u64]: truncate, saturate, NaN to 0. *)
Definition f64_to_u64 (x : f64) : N :=
  match x with
  | S754_nan | S754_zero _ | S754_infinity true | S754_finite true _ _ => 0
  | S754_infinity false => u64_max
  | S754_finite false m e => N.min u64_max (Z.to_N (Z.shiftl (Zpos m) e))
  end.

(** [{:.1}]. *)
Definition f64_tenths (x : f64) : N :=
  match x with
  | S754_finite _ m (Zneg e) => round_half_even (10 * Npos m) (2 ^ Npos e)
  | S754_finite _ m e => 10 * Npos m * 2 ^ Z.to_N e
  | _ => 0
  end.

Definition f64_fixed1 (x : f64) : string :=
  match x with
  | S754_nan => "NaN"
  | S754_infinity s => if s then "-inf" else "inf"
  | S754_zero s => if s then "-0.0" else "0.0"
  | S754_finite s _ _ =>
      let t := f64_tenths x in
      (if s then "-" else "") +:+ pretty (t / 10)%N +:+ "." +:+ pretty (t mod 10)%N
  end.

Definition line (p : Progress) (elapsed_secs : f64) : string :=
  let done := bytes_done p in
  let total := bytes_total p in
  let rate :=
    if SFltb (S754_zero false) elapsed_secs
    then f64_to_u64 (f64_div (f64_of_N done) elapsed_secs) else 0%N in
  let pct :=
    if (0 <? total)%N
    then f64_min (f64_mul (f64_div (f64_of_N done) (f64_of_N total)) (f64_of_N 100)) (f64_of_N 100)
    else S754_zero false in
  "items " +:+ pretty (items_done p) +:+ "/" +:+ pretty (items_total p) +:+ "  " +:+
  human_bytes done +:+ "/" +:+ human_bytes total +:+ "  (" +:+ f64_fixed1 pct +:+ "%)  " +:+
  human_bytes rate +:+ "/s".

(** ** The handle, as operations of a program *)

Inductive progress_op : Type :=
| AddBytes (n : N)
| ItemDone
| GetBytes.

Definition progress_sig : sig :=
  Sig progress_op (fun o => match o with GetBytes => N | _ => unit end).

Definition progress_handler : handler progress_sig Progress :=
  fun o p =>
    match o return resp (s := progress_sig) o * Progress with
    | AddBytes n => (tt, add_bytes p n)
    | ItemDone => (tt, item_done p)
    | GetBytes => (bytes_done p, p)
    end.

Lemma add_bytes_add p n m : add_bytes (add_bytes p n) m = add_bytes p (n + m).
Proof.
  unfold add_bytes; simpl. f_equal. rewrite N.Div0.add_mod_idemp_l. f_equal. lia.
Qed.
