(* ===== verification/Channel.v ===== *)
(** * The chunk channel ([crates/rb-core/src/channel.rs])

    The traits the modules program against ([ChunkSink], [ChunkSource]), their
    implementations over one substream, and the plan handshake. *)

From S2P Require Import Prelude Streams Errors Json Plan Wire Progress.

(** An event drawn from a [ChunkSource] ([Chunk], [ItemEnd], [End]). *)
Inductive ChunkEvent : Type :=
| EventChunk (item_id : N) (offset : N) (data : bytes)
| EventItemEnd (item_id : N) (total : N) (blake3 : string)
| EventEnd.

(** The methods of the [ChunkSink] trait. *)
Inductive sink_op : Type :=
| SendChunk (item_id offset : N) (data : bytes)
| FinishItem (item_id total : N) (blake3 : string)
| Finish.

Definition sink_sig : sig := Sig sink_op (fun _ => Result unit).

(** The method of the [ChunkSource] trait. *)
Inductive source_op : Type := Next.

Definition source_sig : sig := Sig source_op (fun _ => Result ChunkEvent).

(** The rendering of a frame in an error message (its derived [Debug]). *)
Class FrameDebug := frame_debug : option ControlFrame -> string.

Section Channel.
Context `{Json ControlFrame} `{Json DataFrame} `{Blake3} `{FrameDebug}.
(** The other operations of the program the channel is used in. *)
Context {R : sig}.

Abbreviation chan := (stream_sig ⊕ (progress_sig ⊕ R)).

Definition count (o : progress_op) : prog chan (resp (s := progress_sig) o) :=
  Op (S := chan) (inr (inl o)) Ret.

(** ** [StreamChunkSink]

    [progress] says whether the sink was built with [new_counted]. *)

Definition send_chunk (progress : bool) (item_id offset : N) (data : bytes) :
  prog chan (Result unit) :=
  if (CHUNK_SIZE <? nlen data)%N then
    Ret (Err (phase Transfer "chunk exceeds CHUNK_SIZE"))
  else
    let header := ChunkStart item_id offset (nlen data mod 2 ^ 32) (blake3_hex data) in
    let? _ := send_frame header in
    let? _ := write_all_idle data in
    if progress then
      let! _ := count (AddBytes (nlen data)) in
      Ret (Ok tt)
    else Ret (Ok tt).

Definition finish_item (progress : bool) (item_id total : N) (blake3 : string) :
  prog chan (Result unit) :=
  let? _ := send_frame (ItemEnd item_id total blake3) in
  if progress then
    let! _ := count ItemDone in
    Ret (Ok tt)
  else Ret (Ok tt).

Definition finish : prog chan (Result unit) := send_frame StreamEnd.

Definition StreamChunkSink (progress : bool) (o : sink_op) : prog chan (Result unit) :=
  match o with
  | SendChunk item_id offset data => send_chunk progress item_id offset data
  | FinishItem item_id total blake3 => finish_item progress item_id total blake3
  | Finish => finish
  end.

(** ** [StreamChunkSource] *)

Definition mismatch (item_id offset : N) : string :=
  "chunk item=" +:+ pretty item_id +:+ " offset=" +:+ pretty offset +:+ ": blake3 mismatch".

Definition next (progress : bool) : prog chan (Result ChunkEvent) :=
  let? frame := recv_frame (T := DataFrame) in
  match frame with
  | None | Some StreamEnd => Ret (Ok EventEnd)
  | Some (ChunkStart item_id offset len blake3) =>
      let? data := read_exact_idle len in
      let got := blake3_hex data in
      if String.eqb got blake3 then
        if progress then
          let! _ := count (AddBytes (nlen data)) in
          Ret (Ok (EventChunk item_id offset data))
        else Ret (Ok (EventChunk item_id offset data))
      else Ret (Err (Integrity (mismatch item_id offset)))
  | Some (ItemEnd item_id total blake3) =>
      if progress then
        let! _ := count ItemDone in
        Ret (Ok (EventItemEnd item_id total blake3))
      else Ret (Ok (EventItemEnd item_id total blake3))
  end.

Definition StreamChunkSource (progress : bool) (o : source_op) : prog chan (Result ChunkEvent) :=
  match o with Next => next progress end.

(** ** The plan handshake *)

Definition send_plan (plan : BackupPlan) : prog chan (Result unit) :=
  send_frame (Plan plan).

Definition recv_plan : prog chan (Result BackupPlan) :=
  let? f := recv_frame (T := ControlFrame) in
  match f with
  | Some (Plan p) => Ret (Ok p)
  | Some (Abort reason) => Ret (Err (PlanRejected reason))
  | other => Ret (Err (phase Connect ("expected Plan frame, got " +:+ frame_debug other)))
  end.

Definition send_ack (accepted : bool) (reason : string) : prog chan (Result unit) :=
  send_frame (PlanAck accepted reason).

Definition recv_ack : prog chan (Result unit) :=
  let? f := recv_frame (T := ControlFrame) in
  match f with
  | Some (PlanAck true _) => Ret (Ok tt)
  | Some (PlanAck _ reason) => Ret (Err (PlanRejected reason))
  | other => Ret (Err (phase Connect ("expected PlanAck, got " +:+ frame_debug other)))
  end.
End Channel.

(** ** What travels for each call

    [encodes x bs]: the serializer accepts [x] and its frame is [bs]. *)

Definition encodes {T} `{Json T} (x : T) (bs : bytes) : Prop :=
  exists body, to_vec x = Ok body /\ (nlen body <= FRAME_LIMIT)%N /\ bs = frame_bytes body.

Section Frames.
Context {L : sig} {St : Type} (h : handler L St).

Lemma send_encoded {T} `{Json T} (x : T) bs st :
  encodes x bs -> behaves Exact h (send_frame x) st (snds bs) (Ok tt) st.
Proof. intros (body&?&?&->). by apply send_frame_behaves. Qed.

Lemma recv_encoded {T} `{JsonLaws T} (x : T) bs st :
  encodes x bs -> behaves Exact h recv_frame st (rcvs bs) (Ok (Some x)) st.
Proof. intros (body&?&?&->). by apply recv_frame_behaves. Qed.
End Frames.

#[export] Hint Resolve send_encoded recv_encoded : rb.

Inductive call_wire `{Json DataFrame} `{Blake3} : sink_op -> bytes -> Prop :=
| cw_chunk item_id offset data hdr :
    (nlen data <= CHUNK_SIZE)%N ->
    encodes (ChunkStart item_id offset (nlen data) (blake3_hex data)) hdr ->
    call_wire (SendChunk item_id offset data) (hdr ++ data)
| cw_item item_id total blake3 hdr :
    encodes (ItemEnd item_id total blake3) hdr ->
    call_wire (FinishItem item_id total blake3) hdr
| cw_finish hdr : encodes StreamEnd hdr -> call_wire Finish hdr.

(** The event the other side draws for a call, and the effect on its counters. *)
Definition event_of (o : sink_op) : ChunkEvent :=
  match o with
  | SendChunk item_id offset data => EventChunk item_id offset data
  | FinishItem item_id total blake3 => EventItemEnd item_id total blake3
  | Finish => EventEnd
  end.

Definition counted (progress : bool) (o : sink_op) (p : Progress) : Progress :=
  if progress then
    match o with
    | SendChunk _ _ data => add_bytes p (nlen data)
    | FinishItem _ _ _ => item_done p
    | Finish => p
    end
  else p.

Section ChannelFacts.
Context `{JsonLaws DataFrame} `{Blake3} {R : sig} {St : Type} (hR : handler R St).

Abbreviation hC := (hsum progress_handler hR).

Lemma chunk_size_u32 n : (n <= CHUNK_SIZE)%N -> (n mod 2 ^ 32)%N = n.
Proof. intros. apply N.mod_small. unfold CHUNK_SIZE in *. lia. Qed.

Lemma sink_behaves progress o bs p st :
  call_wire o bs ->
  behaves Exact hC (StreamChunkSink progress o) (p, st) (snds bs) (Ok tt)
    (counted progress o p, st).
Proof.
  intros Hw. destruct Hw as [item_id offset data hdr Hl He|item_id total b hdr He|hdr He];
    cbn [StreamChunkSink].
  - unfold send_chunk. destruct (N.ltb_spec CHUNK_SIZE (nlen data)); [lia|].
    rewrite chunk_size_u32 by done. rewrite snds_app.
    eapply (behaves_try Exact); [by apply send_encoded|].
    rewrite <- (app_nil_r (snds data)).
    eapply (behaves_try Exact); [apply write_all_idle_behaves|].
    destruct progress; [apply (bh_local Exact hC (inl _))|]; constructor.
  - unfold finish_item. rewrite <- (app_nil_r (snds hdr)).
    eapply (behaves_try Exact); [by apply send_encoded|].
    destruct progress; [apply (bh_local Exact hC (inl _))|]; constructor.
  - unfold finish. destruct progress; by apply send_encoded.
Qed.

Lemma next_behaves progress o bs p st :
  call_wire o bs ->
  behaves Exact hC (next progress) (p, st) (rcvs bs) (Ok (event_of o))
    (counted progress o p, st).
Proof.
  intros Hw. unfold next.
  destruct Hw as [item_id offset data hdr Hl He|item_id total b hdr He|hdr He].
  - rewrite rcvs_app. eapply (behaves_try Exact); [by apply recv_encoded|].
    rewrite <- (app_nil_r (rcvs data)).
    eapply (behaves_try Exact); [by apply read_exact_idle_behaves|].
    cbv zeta. rewrite String.eqb_refl.
    destruct progress; [apply (bh_local Exact hC (inl _))|]; constructor.
  - rewrite <- (app_nil_r (rcvs hdr)).
    eapply (behaves_try Exact); [by apply recv_encoded|].
    destruct progress; [apply (bh_local Exact hC (inl _))|]; constructor.
  - rewrite <- (app_nil_r (rcvs hdr)).
    eapply (behaves_try Exact); [by apply recv_encoded|].
    destruct progress; constructor.
Qed.
End ChannelFacts.
