(* ===== verification/Module.v ===== *)
(** * Backup modules and their registry ([crates/rb-core/src/module.rs])

    The traits a backend implements, as records of programs over the backend's
    own operations, and the registry of modules by name. *)

From S2P Require Import Prelude Json Errors Plan Wire Channel.

(** [TargetParams(pub serde_json::Value)]. *)
Record TargetParams : Type := { params_value : Value }.

Definition from_value (v : Value) : TargetParams := {| params_value := v |}.

(** [serde_json::from_value] at a module's parameter type (derived decoders). *)
Class FromValue (T : Type) := from_json_value : Value -> result string T.

(** [TargetParams::deserialize]. *)
Definition deserialize {T} `{FromValue T} (self : TargetParams) : Result T :=
  map_err (fun e => ConfigError ("invalid module params: " +:+ e))
    (from_json_value (params_value self)).

(** [B] are the operations of the backend (queries, file reads, API calls). *)
Record Source (B : sig) : Type := {
  analyze : prog B (Result BackupPlan);
  stream_out : BackupPlan -> prog (sink_sig ⊕ B) (Result unit);
  fingerprint : prog B (Result string);
}.
Arguments analyze {B}. Arguments stream_out {B}. Arguments fingerprint {B}.

Record Destination (B : sig) : Type := {
  validate : BackupPlan -> prog B (Result Preflight);
  stream_in : BackupPlan -> prog (source_sig ⊕ B) (Result unit);
}.
Arguments validate {B}. Arguments stream_in {B}.

Record BackupModule (B : sig) : Type := {
  name : string;
  version_support : string;
  open_source : TargetParams -> prog B (Result (Source B));
  open_destination : TargetParams -> prog B (Result (Destination B));
}.
Arguments name {B}. Arguments version_support {B}.
Arguments open_source {B}. Arguments open_destination {B}.

Section Registry.
Context {B : sig}.

Record ModuleRegistry : Type := { modules : gmap string (BackupModule B) }.

Definition registry_new : ModuleRegistry := {| modules := ∅ |}.

Definition register (self : ModuleRegistry) (m : BackupModule B) : ModuleRegistry :=
  {| modules := <[name m := m]> (modules self) |}.

Definition get (self : ModuleRegistry) (n : string) : option (BackupModule B) :=
  modules self !! n.

(** [&str]'s order. *)
Definition string_le (s t : string) : Prop := string_ltb t s = false.

#[export] Instance string_le_decision s t : Decision (string_le s t).
Proof. unfold string_le. apply _. Defined.

Definition names (self : ModuleRegistry) : list string :=
  merge_sort string_le (map_to_list (modules self)).*1.
End Registry.
Arguments ModuleRegistry : clear implicits.

(** ** Facts *)

Lemma ascii_N_inj a b : Ascii.N_of_ascii a = Ascii.N_of_ascii b -> a = b.
Proof. intros E. by rewrite <- (Ascii.ascii_N_embedding a), E, Ascii.ascii_N_embedding. Qed.

Lemma string_ltb_cons a s b t :
  string_ltb (String a s) (String b t) = true <->
  (Ascii.N_of_ascii a < Ascii.N_of_ascii b)%N \/ (a = b /\ string_ltb s t = true).
Proof.
  simpl. rewrite orb_true_iff, andb_true_iff, N.ltb_lt, N.eqb_eq.
  split; (intros [?|[E ?]]; [by left|right; split; [|done]]).
  - by apply ascii_N_inj.
  - by rewrite E.
Qed.

Lemma string_le_cons a s b t :
  string_le (String a s) (String b t) <->
  (Ascii.N_of_ascii a < Ascii.N_of_ascii b)%N \/ (a = b /\ string_le s t).
Proof.
  unfold string_le. rewrite <- not_true_iff_false, string_ltb_cons, <- not_true_iff_false.
  destruct (N.lt_trichotomy (Ascii.N_of_ascii a) (Ascii.N_of_ascii b)) as [H|[H|H]].
  - split; [by left|]. intros _ [?|[-> _]]; lia.
  - pose proof (ascii_N_inj _ _ H); subst. naive_solver lia.
  - split; [intros Hn; destruct Hn; by left|]. intros [?|[-> _]]; lia.
Qed.

#[export] Instance string_le_total : Total string_le.
Proof.
  intros s; induction s as [|a s IH]; intros [|b t]; [by left..|by right|].
  rewrite !string_le_cons.
  destruct (N.lt_trichotomy (Ascii.N_of_ascii a) (Ascii.N_of_ascii b)) as [?|[E|?]];
    [naive_solver| |naive_solver].
  apply ascii_N_inj in E as ->. destruct (IH t); naive_solver.
Qed.

#[export] Instance string_le_trans : Transitive string_le.
Proof.
  intros s; induction s as [|a s IH]; intros [|b t] [|c u]; try done.
  rewrite !string_le_cons.
  intros [?|[-> ?]] [?|[-> ?]]; [left; lia|naive_solver..|].
  right. split; [done|]. by eapply IH.
Qed.

Section RegistryFacts.
Context {B : sig}.
Implicit Types (r : ModuleRegistry B) (m : BackupModule B).

Lemma get_register_eq r m : get (register r m) (name m) = Some m.
Proof. apply lookup_insert_eq. Qed.

Lemma get_register_ne r m n : name m <> n -> get (register r m) n = get r n.
Proof. intros ?. by apply lookup_insert_ne. Qed.

Lemma names_sorted r : StronglySorted string_le (names r).
Proof. apply StronglySorted_merge_sort; apply _. Qed.

Lemma names_elem r n : n ∈ names r <-> is_Some (get r n).
Proof.
  unfold names, get. rewrite merge_sort_Permutation, list_elem_of_fmap.
  split.
  - intros ([k v]&->&Hin). apply elem_of_map_to_list in Hin. by exists v.
  - intros [v Hv]. exists (n, v). split; [done|]. by apply elem_of_map_to_list.
Qed.

Lemma names_nodup r : NoDup (names r).
Proof. unfold names. rewrite merge_sort_Permutation. apply NoDup_fst_map_to_list. Qed.
End RegistryFacts.
