(* ===== verification/Session.v ===== *)
(** * Session orchestration ([crates/rb-core/src/session.rs])

    The two run loops.  A session program has four kinds of operation: the
    substream, the shared progress counters, the transport channel that hands
    out substreams, and the backend of the module.  [tracing] output is not
    modelled. *)

From S2P Require Import Prelude Streams Errors Json Plan Wire Progress Channel Module.

(** The two awaits of the [DataChannel] trait; the stream they return is the one
    the rest of the session uses. *)
Inductive channel_op : Type := OpenStream | AcceptStream.

Definition channel_sig : sig := Sig channel_op (fun _ => Result unit).

Record SourceOutcome : Type := { out_plan : BackupPlan; bytes_sent : N }.

Section Session.
Context `{Json ControlFrame} `{Json DataFrame} `{Blake3} `{FrameDebug}.
Context {B : sig}.

Abbreviation sess := (stream_sig ⊕ (progress_sig ⊕ (channel_sig ⊕ B))).

Definition channel (o : channel_op) : prog sess (Result unit) :=
  Op (S := sess) (inr (inr (inl o))) Ret.

Definition backend_op (o : op B) : prog sess (resp o) :=
  Op (S := sess) (inr (inr (inr o))) Ret.

(** A call of a backend method. *)
Definition backend {A} (p : prog B A) : prog sess A := interp backend_op p.

(** The sink and the source the session passes to the module. *)
Definition sink_impl (o : op (sink_sig ⊕ B)) : prog sess (resp o) :=
  match o with
  | inl c => StreamChunkSink true c
  | inr b => backend_op b
  end.

Definition source_impl (o : op (source_sig ⊕ B)) : prog sess (resp o) :=
  match o with
  | inl c => StreamChunkSource true c
  | inr b => backend_op b
  end.

Definition run_source (source : Source B) : prog sess (Result SourceOutcome) :=
  let? fp_before := backend (fingerprint source) in
  let? plan := backend (analyze source) in
  let? _ := channel AcceptStream in
  let? _ := send_plan plan in
  let? _ := recv_ack in
  let? _ := interp sink_impl (stream_out source plan) in
  let? _ := finish in
  let! sent := count GetBytes in
  let? _ := send_frame (Done sent "") in
  let? fp_after := backend (fingerprint source) in
  if String.eqb fp_before fp_after then
    Ret (Ok {| out_plan := plan; bytes_sent := sent |})
  else
    Ret (Err (SourceMutated ("source fingerprint changed during backup (" +:+ fp_before +:+
      " -> " +:+ fp_after +:+ ")"))).

Definition run_destination (dest : Destination B) (accept : BackupPlan -> prog B bool) :
  prog sess (Result BackupPlan) :=
  let? _ := channel OpenStream in
  let? plan := recv_plan in
  let? preflight := backend (validate dest plan) in
  let! approved := (if ok preflight then backend (accept plan) else Ret false) in
  let reason :=
    if negb (ok preflight) then "preflight failed"
    else if negb approved then "rejected by operator"
    else "accepted" in
  let? _ := send_ack approved reason in
  if negb approved then
    Ret (Err (if negb (ok preflight) then PreflightError reason else PlanRejected reason))
  else
    let? _ := interp source_impl (stream_in dest plan) in
    let? last := recv_frame (T := ControlFrame) in
    match last with
    | Some (Done _ _) => Ret (Ok plan)
    | Some (Abort reason) => Ret (Err (phase Apply ("source aborted: " +:+ reason)))
    | _ => Ret (Ok plan)
    end.
End Session.

(** ** The module's side of the chunk channel

    [recorder] notes the calls a producer makes on its sink; [feeder] answers a
    consumer from a list of events, and remembers ([None]) that it was asked for
    one too many. *)

Definition recorder : handler sink_sig (list sink_op) :=
  fun o l => (Ok tt, l ++ [o]).

Definition feeder : handler source_sig (option (list ChunkEvent)) :=
  fun _ l =>
    match l with
    | Some (e :: l') => (Ok e, Some l')
    | _ => (Ok EventEnd, None)
    end.

Lemma recorder_grows {B St A} (hB : handler B St) (p : prog (sink_sig ⊕ B) A) l b :
  exists cs, (run (hsum recorder hB) p (l, b)).2.1 = l ++ cs.
Proof.
  revert l b; induction p as [a|[o|o] k IH]; intros l b; simpl.
  - exists []. by rewrite app_nil_r.
  - destruct (IH (Ok tt) (l ++ [o]) b) as [cs E]. exists (o :: cs).
    etrans; [exact E|]. by rewrite <- app_assoc.
  - apply IH.
Qed.

Lemma feeder_none {B St A} (hB : handler B St) (p : prog (source_sig ⊕ B) A) b :
  (run (hsum feeder hB) p (None, b)).2.1 = None.
Proof. revert b; induction p as [a|[o|o] k IH]; intros b; simpl; [done|apply IH..]. Qed.

(** The counters after a list of calls (or of the events they become). *)
Definition counts (p : Progress) (cs : list sink_op) : Progress :=
  foldl (fun p c => counted true c p) p cs.

Section SessionFacts.
Context `{JsonLaws DataFrame} `{Blake3} {B : sig} {SC SB : Type}.
Context (hC : handler channel_sig SC) (hB : handler B SB).

Abbreviation hL := (hsum progress_handler (hsum hC hB)).

Lemma backend_behaves {A} (p : prog B A) pr c b :
  behaves Exact hL (backend p) (pr, (c, b)) [] (run hB p b).1 (pr, (c, (run hB p b).2)).
Proof.
  revert b; induction p as [a|o k IH]; intros b; simpl; [constructor|].
  apply (bh_local Exact hL (inr (inr o))). apply IH.
Qed.

Lemma sink_run_behaves {A} (p : prog (sink_sig ⊕ B) A) l cs bss pr c b r b' :
  run (hsum recorder hB) p (l, b) = (r, (l ++ cs, b')) ->
  Forall2 call_wire cs bss ->
  behaves Exact hL (interp sink_impl p) (pr, (c, b)) (snds (concat bss)) r
    (counts pr cs, (c, b')).
Proof.
  revert l cs bss pr b; induction p as [a|[o|o] k IH]; intros l cs bss pr b Hr Hw.
  - injection Hr as -> E ->. rewrite <- (app_nil_r l) in E at 1.
    apply app_inv_head in E as <-. inversion Hw; subst. constructor.
  - simpl in Hr. destruct (recorder_grows hB (k (Ok tt)) (l ++ [o]) b) as [cs' E].
    assert (E2 : l ++ cs = l ++ o :: cs').
    { transitivity ((l ++ [o]) ++ cs'); [|by rewrite <- app_assoc].
      etrans; [|exact E]. exact (eq_sym (f_equal (fun x => x.2.1) Hr)). }
    apply app_inv_head in E2 as ->.
    inversion Hw as [|? bs ? bss' Ho Hw']; subst. cbn [concat]. rewrite snds_app.
    cbn [interp sink_impl].
    change (counts pr (o :: cs')) with (counts (counted true o pr) cs').
    eapply (behaves_bind Exact); [by apply sink_behaves|].
    eapply IH; [|done]. etrans; [exact Hr|]. by rewrite <- app_assoc.
  - simpl in *. apply (bh_local Exact hL (inr (inr o))). by eapply IH.
Qed.

Lemma source_run_behaves {A} (p : prog (source_sig ⊕ B) A) cs bss pr c b r b' :
  run (hsum feeder hB) p (Some (event_of <$> cs), b) = (r, (Some [], b')) ->
  Forall2 call_wire cs bss ->
  behaves Exact hL (interp source_impl p) (pr, (c, b)) (rcvs (concat bss)) r
    (counts pr cs, (c, b')).
Proof.
  revert cs bss pr b; induction p as [a|[[]|o] k IH]; intros cs bss pr b Hr Hw.
  - injection Hr as -> E ->. apply fmap_nil_inv in E as ->.
    inversion Hw; subst. constructor.
  - destruct cs as [|x cs]; simpl in Hr.
    { pose proof (feeder_none hB (k (Ok EventEnd)) b) as E.
      pose proof (f_equal (fun x => x.2.1) Hr) as E2. simpl in E2.
      assert (Some [] = @None (list ChunkEvent)) by (etrans; [exact (eq_sym E2)|exact E]).
      done. }
    inversion Hw as [|? bs ? bss' Ho Hw']; subst. cbn [concat]. rewrite rcvs_app.
    cbn [interp source_impl StreamChunkSource].
    change (counts pr (x :: cs)) with (counts (counted true x pr) cs).
    eapply (behaves_bind Exact); [by apply next_behaves|]. by eapply IH.
  - simpl in *. apply (bh_local Exact hL (inr (inr o))). by eapply IH.
Qed.
End SessionFacts.

(** ** The two sides of a conversation *)

(** What the backend of the source does during a run: fingerprint, analysis, the
    sink calls it makes while streaming, and the second fingerprint. *)
Inductive source_plays {B SB} (hB : handler B SB) (src : Source B) (b0 : SB)
  (plan : BackupPlan) (cs : list sink_op) (fp fp' : string) (b4 : SB) : Prop :=
| source_plays_intro b1 b2 b3 :
    run hB (fingerprint src) b0 = (Ok fp, b1) ->
    run hB (analyze src) b1 = (Ok plan, b2) ->
    run (hsum recorder hB) (stream_out src plan) ([], b2) = (Ok tt, (cs, b3)) ->
    run hB (fingerprint src) b3 = (Ok fp', b4) ->
    source_plays hB src b0 plan cs fp fp' b4.

(** The destination validates, accepts, and restores from exactly these events. *)
Inductive destination_plays {B SB} (hB : handler B SB) (dst : Destination B)
  (accept : BackupPlan -> prog B bool) (b0 : SB) (plan : BackupPlan)
  (cs : list sink_op) (b3 : SB) : Prop :=
| destination_plays_intro pf b1 b2 :
    run hB (validate dst plan) b0 = (Ok pf, b1) -> ok pf = true ->
    run hB (accept plan) b1 = (true, b2) ->
    run (hsum feeder hB) (stream_in dst plan) (Some (event_of <$> cs), b2) =
      (Ok tt, (Some [], b3)) ->
    destination_plays hB dst accept b0 plan cs b3.

(** The bytes of the accepted conversation. *)
Inductive session_wire `{Json ControlFrame} `{Json DataFrame} `{Blake3}
  (plan : BackupPlan) (cs : list sink_op) (n : N) : bytes -> bytes -> bytes -> bytes -> Prop :=
| session_wire_intro bp ba bss bd :
    encodes (Plan plan) bp ->
    encodes (PlanAck true "accepted") ba ->
    Forall2 call_wire (cs ++ [Finish]) bss ->
    encodes (Done n "") bd ->
    session_wire plan cs n bp ba (concat bss) bd.

Definition audit (fp fp' : string) (plan : BackupPlan) (n : N) : Result SourceOutcome :=
  if String.eqb fp fp' then Ok {| out_plan := plan; bytes_sent := n |}
  else Err (SourceMutated ("source fingerprint changed during backup (" +:+ fp +:+
              " -> " +:+ fp' +:+ ")")).

Lemma counts_finish p cs : counts p (cs ++ [Finish]) = counts p cs.
Proof. unfold counts. by rewrite foldl_app. Qed.

Section Conversation.
Context `{JsonLaws ControlFrame} `{JsonLaws DataFrame} `{Blake3} `{FrameDebug}.
Context {B : sig} {SC SB : Type} (hC : handler channel_sig SC) (hB : handler B SB).

Abbreviation hL := (hsum progress_handler (hsum hC hB)).

Lemma backend_ok {A} (p : prog B A) pr c b r b' :
  run hB p b = (r, b') -> behaves Exact hL (backend p) (pr, (c, b)) [] r (pr, (c, b')).
Proof. intros E. pose proof (backend_behaves hC hB p pr c b) as Hb. by rewrite E in Hb. Qed.

Lemma channel_ok o pr c b c' :
  hC o c = (Ok tt, c') ->
  behaves Exact hL (channel (B := B) o) (pr, (c, b)) [] (Ok tt) (pr, (c', b)).
Proof.
  intros E. apply (bh_local Exact hL (inr (inl o))). simpl. rewrite E. constructor.
Qed.

(** Skip a step that moves no byte. *)
Lemma behaves_try_silent {A E C} (p : prog (stream_sig ⊕ (progress_sig ⊕ (channel_sig ⊕ B)))
    (result E A)) (f : A -> prog _ (result E C)) st a st1 τ c st2 :
  behaves Exact hL p st [] (Ok a) st1 -> behaves Exact hL (f a) st1 τ c st2 ->
  behaves Exact hL (ptry p f) st τ c st2.
Proof. apply (behaves_try Exact hL p f st []). Qed.

Lemma recv_ack_behaves acc reason bs st :
  encodes (PlanAck acc reason) bs ->
  behaves Exact hL recv_ack st (rcvs bs)
    (if acc then Ok tt else Err (PlanRejected reason)) st.
Proof.
  intros He. unfold recv_ack. rewrite <- (app_nil_r (rcvs bs)).
  eapply (behaves_try Exact); [by apply recv_encoded|]. destruct acc; constructor.
Qed.

Lemma recv_plan_behaves plan bs st :
  encodes (Plan plan) bs -> behaves Exact hL recv_plan st (rcvs bs) (Ok plan) st.
Proof.
  intros He. unfold recv_plan. rewrite <- (app_nil_r (rcvs bs)).
  eapply (behaves_try Exact); [by apply recv_encoded|]. constructor.
Qed.

Lemma source_accepted src p c c' b0 plan cs fp fp' b4 bp ba bs bd :
  let n := bytes_done (counts p cs) in
  hC AcceptStream c = (Ok tt, c') ->
  source_plays hB src b0 plan cs fp fp' b4 ->
  session_wire plan cs n bp ba bs bd ->
  behaves Exact hL (run_source src) (p, (c, b0))
    (snds bp ++ rcvs ba ++ snds bs ++ snds bd)
    (audit fp fp' plan n) (counts p cs, (c', b4)).
Proof.
  intros n Hc [b1 b2 b3 H1' H2' H3' H4'] [bp' ba' bss bd' Hp Ha Hw Hd].
  apply Forall2_app_inv_l in Hw as (bss1&bss2&Hw1&Hw2&->).
  inversion Hw2 as [|? be ? ? Hf Hn]; subst. inversion Hn; subst. inversion Hf as [| |? He]; subst.
  rewrite concat_app. simpl. rewrite app_nil_r, snds_app, <- (app_assoc (snds (concat bss1))).
  unfold run_source.
  eapply behaves_try_silent; [by apply backend_ok|].
  eapply behaves_try_silent; [by apply backend_ok|].
  eapply behaves_try_silent; [by apply channel_ok|].
  eapply (behaves_try Exact); [by apply send_encoded|].
  eapply (behaves_try Exact); [by apply (recv_ack_behaves true "accepted")|].
  eapply (behaves_try Exact); [by eapply (sink_run_behaves hC hB _ [])|].
  eapply (behaves_try Exact); [by apply send_encoded|].
  apply (bh_local Exact hL (inl GetBytes)). cbn [pbind hsum progress_handler fst snd].
  rewrite <- (app_nil_r (snds bd')).
  eapply (behaves_try Exact); [by apply send_encoded|].
  eapply behaves_try_silent; [by apply backend_ok|].
  unfold audit. destruct (String.eqb fp fp'); constructor.
Qed.

Lemma destination_accepted dst accept p c c' b0 plan cs n b3 bp ba bs bd :
  hC OpenStream c = (Ok tt, c') ->
  destination_plays hB dst accept b0 plan (cs ++ [Finish]) b3 ->
  session_wire plan cs n bp ba bs bd ->
  behaves Exact hL (run_destination dst accept) (p, (c, b0))
    (rcvs bp ++ snds ba ++ rcvs bs ++ rcvs bd)
    (Ok plan) (counts p cs, (c', b3)).
Proof.
  intros Hc [pf b1 b2 H1' H2' H3' H4'] [bp' ba' bss bd' Hp Ha Hw Hd].
  unfold run_destination.
  eapply behaves_try_silent; [by apply channel_ok|].
  eapply (behaves_try Exact); [by apply recv_plan_behaves|].
  eapply behaves_try_silent; [by apply backend_ok|]. rewrite H2'.
  apply (behaves_bind Exact hL _ _ _ [] true (p, (c', b2))); [by apply backend_ok|].
  cbn [negb]. eapply (behaves_try Exact); [by apply send_encoded|].
  rewrite <- (counts_finish p cs).
  eapply (behaves_try Exact); [by eapply source_run_behaves|].
  rewrite <- (app_nil_r (rcvs bd')).
  eapply (behaves_try Exact); [by apply recv_encoded|]. constructor.
Qed.

(** ** Refusal *)

Lemma source_rejected src p c c' b0 fp b1 plan b2 reason bp ba :
  hC AcceptStream c = (Ok tt, c') ->
  run hB (fingerprint src) b0 = (Ok fp, b1) ->
  run hB (analyze src) b1 = (Ok plan, b2) ->
  encodes (Plan plan) bp -> encodes (PlanAck false reason) ba ->
  behaves Exact hL (run_source src) (p, (c, b0)) (snds bp ++ rcvs ba)
    (Err (PlanRejected reason)) (p, (c', b2)).
Proof.
  intros Hc H1' H2' Hp Ha. unfold run_source.
  eapply behaves_try_silent; [by apply backend_ok|].
  eapply behaves_try_silent; [by apply backend_ok|].
  eapply behaves_try_silent; [by apply channel_ok|].
  eapply (behaves_try Exact); [by apply send_encoded|].
  apply (behaves_try_err Exact). by apply (recv_ack_behaves false reason).
Qed.

(** The answer to a plan: the preflight result first, then the operator, who is
    asked only when it passed. *)
Definition refusal (pf_ok approved : bool) : string :=
  if negb pf_ok then "preflight failed"
  else if negb approved then "rejected by operator" else "accepted".

Lemma destination_refused dst accept p c c' b0 plan pf b1 b2 bp ba :
  hC OpenStream c = (Ok tt, c') ->
  run hB (validate dst plan) b0 = (Ok pf, b1) ->
  (if ok pf then run hB (accept plan) b1 = (false, b2) else b2 = b1) ->
  encodes (Plan plan) bp -> encodes (PlanAck false (refusal (ok pf) false)) ba ->
  behaves Exact hL (run_destination dst accept) (p, (c, b0)) (rcvs bp ++ snds ba)
    (Err (if ok pf then PlanRejected "rejected by operator"
          else PreflightError "preflight failed"))
    (p, (c', b2)).
Proof.
  intros Hc Hv Ho Hp Ha. unfold run_destination.
  eapply behaves_try_silent; [by apply channel_ok|].
  eapply (behaves_try Exact); [by apply recv_plan_behaves|].
  eapply behaves_try_silent; [by apply backend_ok|].
  rewrite <- (app_nil_r (snds ba)).
  destruct (ok pf).
  - apply (behaves_bind Exact hL _ _ _ [] false (p, (c', b2))); [by apply backend_ok|].
    eapply (behaves_try Exact); [by apply send_encoded|]. constructor.
  - subst b2. eapply (behaves_try Exact); [by apply send_encoded|]. constructor.
Qed.
End Conversation.

(** ** Arbitrary transports

    The stream and the channel answer as they like ([hS], [hC]); only the
    backend is the one under study. *)

Section AnyTransport.
Context `{Json ControlFrame} `{Json DataFrame} `{Blake3} `{FrameDebug}.
Context {B : sig} {SS SC SB : Type}.
Context (hS : handler stream_sig SS) (hC : handler channel_sig SC) (hB : handler B SB).

Abbreviation hAll := (hsum hS (hsum progress_handler (hsum hC hB))).

(** The backend part of a session state. *)
Definition backend_state (st : SS * (Progress * (SC * SB))) : SB := st.2.2.2.

Lemma run_backend {A} (p : prog B A) s pr c b :
  run hAll (backend p) (s, (pr, (c, b))) =
  ((run hB p b).1, (s, (pr, (c, (run hB p b).2)))).
Proof. revert b; induction p as [a|o k IH]; intros b; simpl; [done|apply IH]. Qed.

Lemma run_backend_ok {A} (p : prog B A) st r st' :
  run hAll (backend p) st = (r, st') ->
  run hB p (backend_state st) = (r, backend_state st').
Proof.
  destruct st as [s [pr [c b]]]. rewrite run_backend. intros [= <- <-].
  unfold backend_state; simpl. by destruct (run hB p b).
Qed.

(** Programs that make no backend call leave the backend as it is. *)
Fixpoint silent {A} (p : prog (stream_sig ⊕ (progress_sig ⊕ (channel_sig ⊕ B))) A) : Prop :=
  match p with
  | Ret _ => True
  | Op o k =>
      match o with
      | inr (inr (inr _)) => False
      | _ => True
      end /\ forall r, silent (k r)
  end.

Lemma silent_run {A} (p : prog _ A) st :
  silent p -> backend_state (run hAll p st).2 = backend_state st.
Proof.
  revert st; induction p as [a|o k IH]; intros st; simpl; [done|].
  intros [Ho Hk]. rewrite IH by apply Hk. by destruct o as [o|[o|[o|o]]].
Qed.
End AnyTransport.

(** ** A stream that ends early *)

Section Truncated.
Context `{JsonLaws ControlFrame} `{JsonLaws DataFrame} `{Blake3} `{FrameDebug}.
Context {B : sig} {SC SB : Type} (hC : handler channel_sig SC) (hB : handler B SB).

Abbreviation hL := (hsum progress_handler (hsum hC hB)).

(** A consumer fed by a stream that stops between two frames sees an [End]. *)
Lemma source_run_truncated {A} (p : prog (source_sig ⊕ B) A) cs bss pr c b r b' out sch :
  run (hsum feeder hB) p (Some ((event_of <$> cs) ++ [EventEnd]), b) = (r, (Some [], b')) ->
  Forall2 call_wire cs bss ->
  exists sch',
    run (hsum mem_stream hL) (interp source_impl p) (Mem (concat bss) out sch, (pr, (c, b))) =
    (r, (Mem [] out sch', (counts pr cs, (c, b')))).
Proof.
  revert cs bss pr b sch; induction p as [a|[[]|o] k IH]; intros cs bss pr b sch Hr Hw.
  - injection Hr as _ E _. by apply app_eq_nil in E as [_ E].
  - cbn [interp source_impl StreamChunkSource]. rewrite run_bind.
    destruct cs as [|x cs].
    + inversion Hw; subst. cbn [concat].
      assert (E : run (hsum mem_stream hL) (next true) (Mem [] out sch, (pr, (c, b))) =
                  (Ok EventEnd, (Mem [] out sch, (pr, (c, b))))).
      { unfold next. by rewrite run_try, recv_frame_eof. }
      setoid_rewrite E. cbn [fst snd].
      destruct (behaves_mem hL _ _ _ _ _
        (source_run_behaves hC hB (k (Ok EventEnd)) [] [] pr c b r b' Hr Hw)
        [] out sch) as [sch' E'].
      exists sch'. etrans; [exact E'|]. by rewrite app_nil_r.
    + inversion Hw as [|? bs ? bss' Ho Hw']; subst. cbn [concat].
      destruct (behaves_mem hL _ _ _ _ _ (next_behaves (hsum hC hB) true x bs pr (c, b) Ho)
        (concat bss') out sch) as [sch1 E1].
      rewrite received_rcvs, sent_rcvs, app_nil_r in E1. setoid_rewrite E1. cbn [fst snd].
      change (counts pr (x :: cs)) with (counts (counted true x pr) cs).
      by apply IH.
  - simpl in *. by apply IH.
Qed.

End Truncated.
