(* ===== verification/Demo.v ===== *)
(** * Concrete parameters

    The test doubles of [crates/rb-core/tests/session_test.rs] and concrete
    instances of the model's parameters (codecs, digest, transport), so that the
    theorems can be applied and evaluated on real inputs. *)

From S2P Require Import Prelude Streams Errors Json Plan Wire Progress Channel Module Session.

#[export] Instance demo_control_json : Json ControlFrame := digits_json.
#[export] Instance demo_data_json : Json DataFrame := digits_json.
#[export] Instance demo_control_laws : JsonLaws ControlFrame := digits_json_laws.
#[export] Instance demo_data_laws : JsonLaws DataFrame := digits_json_laws.
#[export] Instance demo_blake3 : Blake3 := fun data => "b3:" +:+ pretty (from_le_bytes data).
#[export] Instance demo_debug : FrameDebug :=
  fun f => match f with None => "None" | Some _ => "Some(..)" end.

Definition demo_plan : BackupPlan := {|
  format_version := PLAN_FORMAT_VERSION;
  plan_module := "mock";
  plan_mode := Copy1to1;
  created_at := "2026-06-20T00:00:00Z";
  source_summary := "1 item";
  items := [{| item_id := 1; item_ordinal := 0; item_kind := "blob"; item_name := "alpha";
               item_estimated_bytes := 2048; item_meta := VNull |}];
  estimated_bytes := 2048;
  integrity := IntegritySpec_default;
  payload := VObject [];
|}.

(** The mocks' shared state: a call counter and the bytes received. *)
Inductive mock_op : Type := FetchAdd | Extend (data : bytes).

Definition mock_sig : sig :=
  Sig mock_op (fun o => match o with FetchAdd => N | Extend _ => unit end).

Record mock : Type := { calls : N; received_bytes : bytes }.

Definition mock0 : mock := {| calls := 0; received_bytes := [] |}.

Definition mock_handler : handler mock_sig mock :=
  fun o st =>
    match o return resp (s := mock_sig) o * mock with
    | FetchAdd => (calls st, {| calls := calls st + 1; received_bytes := received_bytes st |})
    | Extend d => (tt, {| calls := calls st; received_bytes := received_bytes st ++ d |})
    end.

Definition mock_op_prog (o : mock_op) : prog mock_sig (resp (s := mock_sig) o) :=
  Op (S := mock_sig) o Ret.

Definition sink_call (c : sink_op) : prog (sink_sig ⊕ mock_sig) (Result unit) :=
  Op (S := sink_sig ⊕ mock_sig) (inl c) Ret.

Definition mock_stream_out (data : bytes) : prog (sink_sig ⊕ mock_sig) (Result unit) :=
  let? _ := sink_call (SendChunk 1 0 data) in
  sink_call (FinishItem 1 (nlen data) (blake3_hex data)).

Definition MockSource (fp : string) (data : bytes) : Source mock_sig := {|
  analyze := Ret (Ok demo_plan);
  stream_out := fun _ => mock_stream_out data;
  fingerprint := Ret (Ok fp);
|}.

(** Its fingerprint differs at each call. *)
Definition MutatingSource : Source mock_sig := {|
  analyze := Ret (Ok demo_plan);
  stream_out := fun _ => mock_stream_out [x78];
  fingerprint := let! n := mock_op_prog FetchAdd in Ret (Ok ("fp-" +:+ pretty n));
|}.

(** [loop { match src.next().await? { ... } }], at most [fuel] events. *)
Fixpoint mock_stream_in (fuel : nat) : prog (source_sig ⊕ mock_sig) (Result unit) :=
  match fuel with
  | O => Ret (Err (phase Apply "too many events"))
  | S fuel' =>
      let? e := Op (S := source_sig ⊕ mock_sig) (inl Next) Ret in
      match e with
      | EventChunk _ _ data =>
          let! _ := Op (S := source_sig ⊕ mock_sig) (inr (Extend data)) Ret in
          mock_stream_in fuel'
      | EventItemEnd _ _ _ => mock_stream_in fuel'
      | EventEnd => Ret (Ok tt)
      end
  end.

Definition MockDest : Destination mock_sig := {|
  validate := fun _ => Ret (Ok (check pass "space" true "ok"));
  stream_in := fun _ => mock_stream_in 8;
|}.

Definition say (b : bool) : BackupPlan -> prog mock_sig bool := fun _ => Ret b.

(** A transport that hands out the substream at once. *)
Definition demo_channel : handler channel_sig unit := fun _ _ => (Ok tt, tt).

Definition demo_calls (data : bytes) : list sink_op :=
  [SendChunk 1 0 data; FinishItem 1 (nlen data) (blake3_hex data)].

(** The frame of a value, and the check that it is one the code would send. *)
Definition demo_frame {T} `{Json T} (x : T) : bytes :=
  match to_vec x with Ok b => frame_bytes b | _ => [] end.

Definition demo_fits {T} `{Json T} (x : T) : bool :=
  match to_vec x with Ok b => (nlen b <=? FRAME_LIMIT)%N | _ => false end.

Lemma demo_encodes {T} `{Json T} (x : T) : demo_fits x = true -> encodes x (demo_frame x).
Proof.
  unfold demo_frame, demo_fits, encodes. destruct (to_vec x) as [b| |]; [|done..].
  intros Hl%N.leb_le. by exists b.
Qed.

Definition demo_wire (c : sink_op) : bytes :=
  match c with
  | SendChunk i o d => demo_frame (ChunkStart i o (nlen d) (blake3_hex d)) ++ d
  | FinishItem i t b => demo_frame (ItemEnd i t b)
  | Finish => demo_frame StreamEnd
  end.

Definition demo_call_fits (c : sink_op) : bool :=
  match c with
  | SendChunk i o d =>
      (nlen d <=? CHUNK_SIZE)%N && demo_fits (ChunkStart i o (nlen d) (blake3_hex d))
  | FinishItem i t b => demo_fits (ItemEnd i t b)
  | Finish => demo_fits StreamEnd
  end.

Lemma demo_call_wire c : demo_call_fits c = true -> call_wire c (demo_wire c).
Proof.
  destruct c as [i o d|i t b|]; unfold demo_call_fits, demo_wire; intros Hc.
  - apply andb_true_iff in Hc as [Hl%N.leb_le Hc].
    constructor; [exact Hl|exact (demo_encodes _ Hc)].
  - constructor. exact (demo_encodes _ Hc).
  - constructor. exact (demo_encodes _ Hc).
Qed.

Lemma demo_call_wires cs :
  forallb demo_call_fits cs = true -> Forall2 call_wire cs (demo_wire <$> cs).
Proof.
  induction cs as [|c cs IH]; cbn [forallb]; intros Hc; [constructor|].
  apply andb_true_iff in Hc as [H1 H2].
  constructor; [exact (demo_call_wire _ H1)|exact (IH H2)].
Qed.

Lemma demo_accept_fits : demo_fits (PlanAck true "accepted") = true.
Proof. vm_compute. reflexivity. Qed.

Lemma demo_session_wire plan cs n :
  demo_fits (Wire.Plan plan) = true ->
  forallb demo_call_fits (cs ++ [Finish]) = true ->
  demo_fits (Done n "") = true ->
  session_wire plan cs n (demo_frame (Wire.Plan plan)) (demo_frame (PlanAck true "accepted"))
    (concat (demo_wire <$> (cs ++ [Finish]))) (demo_frame (Done n "")).
Proof.
  intros Hp Hc Hd. constructor.
  - exact (demo_encodes _ Hp).
  - exact (demo_encodes _ demo_accept_fits).
  - exact (demo_call_wires _ Hc).
  - exact (demo_encodes _ Hd).
Qed.
