(* ===== verification/SessionTheorems.v ===== *)
(** * What a session guarantees

    The two run loops of [session.rs] against each other and against arbitrary
    transports. *)

From S2P Require Import Prelude Streams Errors Json Plan Wire Progress Channel Module Session Demo.

Section Accepted.
Context `{JsonLaws ControlFrame} `{JsonLaws DataFrame} `{Blake3} `{FrameDebug}.
Context {B1 B2 : sig} {SC1 SB1 SC2 SB2 : Type}.
Context (hC1 : handler channel_sig SC1) (hB1 : handler B1 SB1).
Context (hC2 : handler channel_sig SC2) (hB2 : handler B2 SB2).

Abbreviation h1 := (hsum progress_handler (hsum hC1 hB1)).
Abbreviation h2 := (hsum progress_handler (hsum hC2 hB2)).


(** The same conversation with a source whose fingerprint changed while it
    streamed: the destination completes, and the source reports
    [SourceMutated], never success, in every execution. *)
Theorem mutating_source_caught src dst accept p1 p2 c1 c1' c2 c2' b1 b1' b2 b2' plan cs
    fp fp' bp ba bs bd :
  let n := bytes_done (counts p1 cs) in
  fp <> fp' ->
  hC1 AcceptStream c1 = (Ok tt, c1') ->
  hC2 OpenStream c2 = (Ok tt, c2') ->
  source_plays hB1 src b1 plan cs fp fp' b1' ->
  destination_plays hB2 dst accept b2 plan (cs ++ [Finish]) b2' ->
  session_wire plan cs n bp ba bs bd ->
  ends_in h1 h2
    (Net (run_source src) (p1, (c1, b1))
         (run_destination dst accept) (p2, (c2, b2)) [] [])
    (final (Err (SourceMutated ("source fingerprint changed during backup (" +:+ fp +:+
                   " -> " +:+ fp' +:+ ")"))) (counts p1 cs, (c1', b1'))
           (Ok plan) (counts p2 cs, (c2', b2'))).
Proof.
  intros n Hfp Hc1 Hc2 Hs Hd Hw.
  pose proof (source_accepted hC1 hB1 _ _ _ _ _ _ _ _ _ _ _ _ _ _ Hc1 Hs Hw) as H1'.
  unfold audit in H1'. rewrite (proj2 (String.eqb_neq fp fp') Hfp) in H1'.
  eapply dual_peers_end; [exact H1'|by eapply destination_accepted|].
  by rewrite !dual_app, !dual_snds, dual_rcvs.
Qed.

(** C35: a refused plan (failed preflight, or an operator who declines): every
    execution ends with the source reporting [PlanRejected] with the reason and
    the destination [PreflightError] or [PlanRejected]; the source's backend was
    only fingerprinted and analysed, the destination's only validated, no
    payload byte was counted. *)
Theorem refused_plan_aborts src dst accept p1 p2 c1 c1' c2 c2' b0 fp b1 plan b2 d0 pf d1 d2 bp ba :
  hC1 AcceptStream c1 = (Ok tt, c1') ->
  hC2 OpenStream c2 = (Ok tt, c2') ->
  run hB1 (fingerprint src) b0 = (Ok fp, b1) ->
  run hB1 (analyze src) b1 = (Ok plan, b2) ->
  run hB2 (validate dst plan) d0 = (Ok pf, d1) ->
  (if ok pf then run hB2 (accept plan) d1 = (false, d2) else d2 = d1) ->
  encodes (Wire.Plan plan) bp -> encodes (PlanAck false (refusal (ok pf) false)) ba ->
  ends_in h1 h2
    (Net (run_source src) (p1, (c1, b0))
         (run_destination dst accept) (p2, (c2, d0)) [] [])
    (final (Err (PlanRejected (refusal (ok pf) false))) (p1, (c1', b2))
           (Err (if ok pf then PlanRejected "rejected by operator"
                 else PreflightError "preflight failed")) (p2, (c2', d2))).
Proof.
  intros Hc1 Hc2 Hf Ha Hv Ho Hp Hk.
  eapply dual_peers_end; [by eapply source_rejected|by eapply destination_refused|].
  by rewrite dual_app, dual_snds, dual_rcvs.
Qed.
End Accepted.

Abbreviation demo_handler := (hsum progress_handler (hsum demo_channel mock_handler)).


Lemma mutating_source_caught_witness :
  exists msg b,
  ends_in demo_handler demo_handler
    (Net (run_source MutatingSource) (Progress_default, (tt, mock0))
         (run_destination MockDest (say true)) (Progress_default, (tt, mock0)) [] [])
    (final (Err (SourceMutated msg)) b
       (Ok demo_plan)
       ({| bytes_done := 1; items_done := 1; items_total := 0; bytes_total := 0 |},
        (tt, {| calls := 0; received_bytes := [x78] |}))).
Proof.
  eexists _, _.
  apply (mutating_source_caught demo_channel mock_handler demo_channel mock_handler
    MutatingSource MockDest (say true)
    Progress_default Progress_default tt tt tt tt mock0
    {| calls := 2; received_bytes := [] |} mock0
    {| calls := 0; received_bytes := [x78] |} demo_plan
    (demo_calls [x78]) "fp-0" "fp-1" (demo_frame (Wire.Plan demo_plan))
    (demo_frame (PlanAck true "accepted"))
    (concat (demo_wire <$> (demo_calls [x78] ++ [Finish]))) (demo_frame (Done 1 ""))).
  - done.
  - reflexivity.
  - reflexivity.
  - econstructor; reflexivity.
  - econstructor; reflexivity.
  - apply demo_session_wire; vm_compute; reflexivity.
Defined.

Lemma refused_plan_aborts_witness :
  ends_in demo_handler demo_handler
    (Net (run_source (MockSource "stable" [x01])) (Progress_default, (tt, mock0))
         (run_destination MockDest (say false)) (Progress_default, (tt, mock0)) [] [])
    (final (Err (PlanRejected "rejected by operator")) (Progress_default, (tt, mock0))
           (Err (PlanRejected "rejected by operator")) (Progress_default, (tt, mock0))).
Proof.
  apply (refused_plan_aborts demo_channel mock_handler demo_channel mock_handler
    (MockSource "stable" [x01]) MockDest (say false)
    Progress_default Progress_default tt tt tt tt mock0 "stable" mock0 demo_plan mock0
    mock0 (check pass "space" true "ok") mock0 mock0
    (demo_frame (Wire.Plan demo_plan))
    (demo_frame (PlanAck false "rejected by operator"))); try reflexivity.
  - apply demo_encodes. vm_compute. reflexivity.
  - apply demo_encodes. vm_compute. reflexivity.
Defined.

(** ** Arbitrary transports *)

Section AnyTransport.
Context `{Json ControlFrame} `{Json DataFrame} `{Blake3} `{FrameDebug}.
Context {B : sig} {SS SC SB : Type}.
Context (hS : handler stream_sig SS) (hC : handler channel_sig SC) (hB : handler B SB).

Abbreviation hAll := (hsum hS (hsum progress_handler (hsum hC hB))).

(** C3: source immutability.  Whatever the stream, the channel and the peer do,
    a source run that reports success computed its fingerprint before anything
    else and again after everything else, with the same result. *)
Theorem source_success_means_unchanged src st out st' :
  run hAll (run_source src) st = (Ok out, st') ->
  exists fp b1 b2,
    run hB (fingerprint src) (backend_state st) = (Ok fp, b1) /\
    run hB (fingerprint src) b2 = (Ok fp, backend_state st').
Proof.
  intros E. unfold run_source in E.
  apply run_try_ok in E as (fp&s1&E1&E). apply run_backend_ok in E1.
  do 6 (apply run_try_ok in E as (?&?&_&E)).
  rewrite run_bind in E. do 1 (apply run_try_ok in E as (?&?&_&E)).
  apply run_try_ok in E as (fp'&s2&E2&E). apply run_backend_ok in E2.
  destruct (String.eqb_spec fp fp') as [<-|]; [|done].
  injection E as _ ->. eauto.
Qed.

(** C4: consent before restore.  Whatever the stream, the channel and the peer do,
    a destination run that reports success validated the plan it reports, with
    every check passed, was then told yes for that plan, and only then, on the
    backend as consent left it, ran the restore to its end. *)
Theorem destination_success_means_consent dst accept st plan st' :
  run hAll (run_destination dst accept) st = (Ok plan, st') ->
  exists pf b0 b1 b2 s2 s3,
    run hB (validate dst plan) b0 = (Ok pf, b1) /\ ok pf = true /\
    run hB (accept plan) b1 = (true, b2) /\
    backend_state s2 = b2 /\
    run hAll (interp source_impl (stream_in dst plan)) s2 = (Ok tt, s3).
Proof.
  intros E. unfold run_destination in E.
  apply run_try_ok in E as ([]&s1&_&E).
  apply run_try_ok in E as (plan'&s1'&_&E).
  apply run_try_ok in E as (pf&s2&Ev&E). apply run_backend_ok in Ev.
  rewrite run_bind in E.
  destruct (ok pf) eqn:Hok; [|by repeat (apply run_try_ok in E as (?&?&_&E))].
  destruct s2 as [ss2 [pr2 [c2 b1]]]. rewrite run_backend in E. cbn [fst snd] in E.
  destruct (run hB (accept plan') b1) as [[] b2] eqn:Ea; cbn [fst snd negb] in E;
    [|by repeat (apply run_try_ok in E as (?&?&_&E))].
  apply run_try_ok in E as ([]&s3&Es&E).
  apply run_try_ok in E as ([]&s4&Er&E).
  apply run_try_ok in E as (last&s5&_&E).
  assert (plan' = plan) as -> by (destruct last as [[]|]; by injection E).
  exists pf, (backend_state s1'), b1, b2, s3, s4. split_and!; try done.
  pose proof (stream_only_run hS (hsum progress_handler (hsum hC hB)) (send_ack true "accepted")
    ss2 (pr2, (c2, b2)) (send_frame_stream _)) as Hs.
  rewrite Es in Hs. cbn [snd] in Hs. unfold backend_state. by rewrite Hs.
Qed.
End AnyTransport.

Lemma source_success_means_unchanged_witness :
  exists fp b1 b2,
    run mock_handler (fingerprint (MockSource "stable" [x01; x02])) mock0 = (Ok fp, b1) /\
    run mock_handler (fingerprint (MockSource "stable" [x01; x02])) b2 = (Ok fp, mock0).
Proof.
  pose (st0 := (Mem (demo_frame (PlanAck true "accepted")) [] [],
                (Progress_default, (tt, mock0)))).
  pose (r := run (hsum mem_stream demo_handler) (run_source (MockSource "stable" [x01; x02])) st0).
  apply (source_success_means_unchanged mem_stream demo_channel mock_handler
    (MockSource "stable" [x01; x02]) st0
    {| out_plan := demo_plan; bytes_sent := 2 |} r.2).
  vm_compute. reflexivity.
Defined.

Lemma destination_success_means_consent_witness :
  exists pf b0 b1 b2 s2 s3,
    run mock_handler (validate MockDest demo_plan) b0 = (Ok pf, b1) /\ ok pf = true /\
    run mock_handler (say true demo_plan) b1 = (true, b2) /\
    backend_state s2 = b2 /\
    run (hsum mem_stream demo_handler) (interp source_impl (stream_in MockDest demo_plan)) s2 =
      (Ok tt, s3).
Proof.
  pose (st0 := (Mem (demo_frame (Wire.Plan demo_plan) ++ demo_frame StreamEnd ++
                     demo_frame (Done 0 "")) [] [],
                (Progress_default, (tt, mock0)))).
  pose (r := run (hsum mem_stream demo_handler) (run_destination MockDest (say true)) st0).
  apply (destination_success_means_consent mem_stream demo_channel mock_handler
    MockDest (say true) st0 demo_plan r.2).
  vm_compute. reflexivity.
Defined.

(** ** A source that disappears *)

Section Truncated.
Context `{JsonLaws ControlFrame} `{JsonLaws DataFrame} `{Blake3} `{FrameDebug}.
Context {B : sig} {SC SB : Type} (hC : handler channel_sig SC) (hB : handler B SB).

Abbreviation hL := (hsum progress_handler (hsum hC hB)).

(** C36: the completion frame is not required.  If the stream ends after any
    number of whole chunk and item frames, with no [StreamEnd] and no [Done],
    a destination that stops at [End] reports success all the same: a source
    that dies between two frames is taken for one that has finished. *)
Theorem truncated_stream_reported_complete dst accept p c c' b0 plan pf b1 b2 b3 cs bp bss sch :
  hC OpenStream c = (Ok tt, c') ->
  run hB (validate dst plan) b0 = (Ok pf, b1) -> ok pf = true ->
  run hB (accept plan) b1 = (true, b2) ->
  run (hsum feeder hB) (stream_in dst plan) (Some ((event_of <$> cs) ++ [EventEnd]), b2) =
    (Ok tt, (Some [], b3)) ->
  encodes (Wire.Plan plan) bp -> Forall2 call_wire cs bss ->
  (exists ba, encodes (PlanAck true "accepted") ba) ->
  (run (hsum mem_stream hL) (run_destination dst accept)
     (Mem (bp ++ concat bss) [] sch, (p, (c, b0)))).1 = Ok plan.
Proof.
  intros Hc Hv Hok Ha Hr Hp Hw [ba Hba]. unfold run_destination.
  assert (E1 : exists sch1, run (hsum mem_stream hL) (channel OpenStream)
      (Mem (bp ++ concat bss) [] sch, (p, (c, b0))) =
      (Ok tt, (Mem (bp ++ concat bss) [] sch1, (p, (c', b0))))).
  { exists sch. simpl. by rewrite Hc. }
  destruct E1 as [sch1 E1]. rewrite run_try, E1. cbn [fst snd].
  destruct (behaves_mem hL _ _ _ _ _ (recv_plan_behaves hC hB plan bp (p, (c', b0)) Hp)
    (concat bss) [] sch1) as [sch2 E2].
  rewrite received_rcvs, sent_rcvs in E2. cbn [app] in E2. rewrite run_try, E2. cbn [fst snd].
  rewrite run_try, run_backend, Hv. cbn [fst snd]. rewrite Hok, run_bind, run_backend, Ha.
  cbn [fst snd negb].
  destruct (behaves_mem hL _ _ _ _ _
    (send_encoded hL (PlanAck true "accepted") ba (p, (c', b2)) Hba)
    (concat bss) [] sch2) as [sch3 E3].
  rewrite received_snds, sent_snds in E3. cbn [app] in E3. unfold send_ack.
  erewrite run_then by exact E3.
  destruct (source_run_truncated hC hB _ cs bss p c' b2 _ b3 ba sch3 Hr Hw) as [sch4 E4].
  erewrite run_then by exact E4. by rewrite run_try, recv_frame_eof.
Qed.
End Truncated.

Lemma truncated_stream_reported_complete_witness :
  (run (hsum mem_stream demo_handler) (run_destination MockDest (say true))
     (Mem (demo_frame (Wire.Plan demo_plan) ++
           concat (demo_wire <$> [SendChunk 1 0 [x01; x02]])) [] [],
      (Progress_default, (tt, mock0)))).1 = Ok demo_plan.
Proof.
  apply (truncated_stream_reported_complete demo_channel mock_handler MockDest (say true)
    Progress_default tt tt mock0 demo_plan (check pass "space" true "ok") mock0 mock0
    {| calls := 0; received_bytes := [x01; x02] |} [SendChunk 1 0 [x01; x02]]).
  - reflexivity.
  - reflexivity.
  - reflexivity.
  - reflexivity.
  - reflexivity.
  - apply demo_encodes. vm_compute. reflexivity.
  - apply demo_call_wires. vm_compute. reflexivity.
  - eexists. apply demo_encodes. vm_compute. reflexivity.
Defined.
