(* ===== verification/WireTheorems.v ===== *)
(** * Theorems about the frames and the chunk channel

    The frame reader and the chunk reader against a specification on plain byte
    strings, the write loop against an arbitrary transport, the integrity check
    and the size limits of both sides, and the phase errors are charged to;
    then preflights, printed sizes, the registry and the counters. *)

From S2P Require Import Prelude Streams Errors Json Plan Wire Progress Channel Module Session Demo.

(** ** Specification of the readers

    What a finite string of bytes means: the outcome, and the bytes left. *)

Definition parse_exact (n : N) (inb : bytes) : Result bytes * bytes :=
  if (nlen inb <? n)%N then (Err (phase Transfer "unexpected EOF mid-frame"), [])
  else (Ok (take (N.to_nat n) inb), drop (N.to_nat n) inb).

Definition parse_frame {T} `{Json T} (inb : bytes) : Result (option T) * bytes :=
  if (nlen inb <? 4)%N then (Ok None, [])
  else
    let len := from_le_bytes (take 4 inb) in
    if (FRAME_LIMIT <? len)%N then
      (Err (phase Transfer "incoming frame too large"), drop 4 inb)
    else
      match parse_exact len (drop 4 inb) with
      | (Ok body, rest) =>
          (match from_slice body with
           | Ok x => Ok (Some x)
           | Err e => Err (phase_src Transfer "frame deserialize" (CauseJson e))
           | Panicked => Panicked
           end, rest)
      | (Err e, rest) => (Err e, rest)
      | (Panicked, rest) => (Panicked, rest)
      end.

(** The next event, what is left, and what the counters become. *)
Definition parse_event `{Json DataFrame} `{Blake3} (inb : bytes) (p : Progress) :
  Result ChunkEvent * (bytes * Progress) :=
  match parse_frame (T := DataFrame) inb with
  | (Ok None, rest) | (Ok (Some StreamEnd), rest) => (Ok EventEnd, (rest, p))
  | (Ok (Some (ItemEnd i t b)), rest) => (Ok (EventItemEnd i t b), (rest, item_done p))
  | (Ok (Some (ChunkStart i o len b)), rest) =>
      match parse_exact len rest with
      | (Ok data, rest') =>
          if String.eqb (blake3_hex data) b
          then (Ok (EventChunk i o data), (rest', add_bytes p (nlen data)))
          else (Err (Integrity (mismatch i o)), (rest', p))
      | (Err e, rest') => (Err e, (rest', p))
      | (Panicked, rest') => (Panicked, (rest', p))
      end
  | (Err e, rest) => (Err e, (rest, p))
  | (Panicked, rest) => (Panicked, (rest, p))
  end.

Section Readers.
Context {L : sig} {St : Type} (h : handler L St).

Lemma read_exact_parse n inb out sch st :
  exists sch',
    run (hsum mem_stream h) (read_exact_idle n) (Mem inb out sch, st) =
    ((parse_exact n inb).1, (Mem (parse_exact n inb).2 out sch', st)).
Proof.
  unfold parse_exact. destruct (N.ltb_spec (nlen inb) n) as [Hl|Hl].
  - apply read_exact_from_short; rewrite nlen_nil; lia.
  - assert (E : nlen (take (N.to_nat n) inb) = n)
      by (unfold nlen in *; rewrite length_take; lia).
    destruct (behaves_mem h _ _ _ _ _ (read_exact_idle_behaves h n _ st E)
      (drop (N.to_nat n) inb) out sch) as [sch' E'].
    rewrite received_rcvs, sent_rcvs, app_nil_r, take_drop in E'. by exists sch'.
Qed.

Lemma recv_frame_parse {T} `{Json T} inb out sch st :
  exists sch',
    run (hsum mem_stream h) (recv_frame (T := T)) (Mem inb out sch, st) =
    ((parse_frame (T := T) inb).1, (Mem (parse_frame (T := T) inb).2 out sch', st)).
Proof.
  unfold parse_frame. destruct (N.ltb_spec (nlen inb) 4) as [Hl|Hl].
  { exists sch. by apply recv_frame_eof. }
  assert (Hp : length (take 4 inb) = 4) by (rewrite length_take; unfold nlen in Hl; lia).
  cbv zeta. set (n := from_le_bytes (take 4 inb)).
  assert (Hi : inb = to_le_bytes n ++ drop 4 inb)
    by (unfold n; by rewrite to_from_le_bytes, take_drop by done).
  replace (Mem inb) with (Mem (to_le_bytes n ++ drop 4 inb)) by (by rewrite <- Hi).
  unfold recv_frame. rewrite read_prefix. unfold n at 1 2. rewrite to_from_le_bytes by done.
  fold n. cbv zeta.
  destruct (FRAME_LIMIT <? _)%N; [by exists sch|].
  destruct (read_exact_parse n (drop 4 inb) out sch st) as [sch' E].
  exists sch'. rewrite run_try, E. cbn [fst snd].
  destruct (parse_exact _ _) as [[body|e|] rest]; [|done..].
  cbn [fst snd]. by destruct (from_slice body).
Qed.
End Readers.

Section ChunkReader.
Context `{Json DataFrame} `{Blake3} {R : sig} {St : Type} (hR : handler R St).

(** C5: the chunk reader computes exactly the specification [parse_event], on
    every finite string of bytes (well formed, truncated, oversized, corrupt)
    and however the transport cuts it into reads. *)
Theorem next_refines_parse inb out sch p st :
  exists sch',
    run (hsum mem_stream (hsum progress_handler hR)) (next true) (Mem inb out sch, (p, st)) =
    ((parse_event inb p).1,
     (Mem (parse_event inb p).2.1 out sch', ((parse_event inb p).2.2, st))).
Proof.
  unfold next, parse_event.
  destruct (recv_frame_parse (T := DataFrame) (hsum progress_handler hR) inb out sch (p, st))
    as [sch1 E].
  rewrite run_try, E. cbn [fst snd].
  destruct (parse_frame inb) as [[[[i o len b|i t b|]|]|e|] rest]; cbn [fst snd];
    try (by exists sch1).
  destruct (read_exact_parse (hsum progress_handler hR) len rest out sch1 (p, st)) as [sch2 E2].
  exists sch2. rewrite run_try, E2. cbn [fst snd].
  destruct (parse_exact len rest) as [[data|e|] rest']; cbn [fst snd]; [|done..].
  cbv zeta. by destruct (String.eqb _ _).
Qed.

End ChunkReader.

(** ** Integrity on any transport *)

(** A transport whose reads return no more than was asked for. *)
Definition modest {SS} (hS : handler stream_sig SS) : Prop :=
  forall d n s bs s', hS (ReadT d n) s = (InTime (Ok bs), s') -> (nlen bs <= n)%N.

Lemma mem_modest : modest mem_stream.
Proof.
  intros d n s bs s' [= <- _]. unfold nlen. rewrite length_take. lia.
Qed.

Section AnyTransport.
Context {L : sig} {SS St : Type} (hS : handler stream_sig SS) (h : handler L St).
Context (Hm : modest hS).

Lemma read_exact_from_len fuel len acc s st data s' :
  (len <= nlen acc + N.of_nat fuel)%N -> (nlen acc <= len)%N ->
  run (hsum hS h) (read_exact_from fuel len acc) (s, st) = (Ok data, s') -> nlen data = len.
Proof.
  revert acc s; induction fuel as [|fuel IH]; intros acc s Hf Hl; cbn [read_exact_from];
    (destruct (N.ltb_spec (nlen acc) len); [|intros [= <- _]; lia]); [lia|].
  cbn -[read_exact_from].
  destruct (hS (ReadT IO_IDLE_TIMEOUT (len - nlen acc)) s) as [[[bs|e|]|] s1] eqn:E;
    try done. cbn [fst snd].
  destruct (N.eqb_spec (nlen bs) 0); [done|]. apply Hm in E.
  apply IH; rewrite nlen_app; lia.
Qed.

Lemma read_exact_len len s st data s' :
  run (hsum hS h) (read_exact_idle len) (s, st) = (Ok data, s') -> nlen data = len.
Proof. apply read_exact_from_len; rewrite nlen_nil; lia. Qed.
End AnyTransport.

Section Integrity.
Context `{Json DataFrame} `{Blake3} {R : sig} {SS St : Type}.
Context (hS : handler stream_sig SS) (hR : handler R St).

Abbreviation hAny := (hsum hS (hsum progress_handler hR)).

(** Integrity.  On any transport whose reads return no more than was asked
    for, an event that carries data was preceded by a header with the digest
    and the length of exactly that data, and the byte counter moved by that
    length and nothing else: no payload reaches a module unverified. *)
Theorem accepted_chunk_verified s p st i o data s' p' st' :
  modest hS ->
  run hAny (next true) (s, (p, st)) = (Ok (EventChunk i o data), (s', (p', st'))) ->
  exists s1,
    run hAny recv_frame (s, (p, st)) =
      (Ok (Some (ChunkStart i o (nlen data) (blake3_hex data))), (s1, (p, st))) /\
    p' = add_bytes p (nlen data) /\ st' = st.
Proof.
  intros Hm E. unfold next in E. apply run_try_ok in E as (f&s1&E1&E).
  pose proof (stream_only_run hS (hsum progress_handler hR) recv_frame s (p, st)
    (recv_frame_stream (T := DataFrame))) as Hs. rewrite E1 in Hs. simpl in Hs.
  destruct s1 as [s1 ?]. simpl in Hs. subst.
  destruct f as [[i' o' len b|i' t b|]|]; [|by simpl in E..].
  apply run_try_ok in E as (d&s2&E2&E).
  pose proof (stream_only_run hS (hsum progress_handler hR) (read_exact_idle len) s1 (p, st)
    (read_exact_idle_stream len)) as Hs. rewrite E2 in Hs. simpl in Hs.
  destruct s2 as [s2 ?]. simpl in Hs. subst.
  apply (read_exact_len hS _ Hm) in E2 as <-. cbv zeta in E.
  destruct (String.eqb_spec (blake3_hex d) b) as [<-|]; [|done].
  injection E as <- <- <- _ <- <-. by exists s1.
Qed.

(** A chunk whose payload does not have the announced digest is an integrity
    error; the counters do not move. *)
Theorem corrupt_chunk_detected s p st i o len b s1 data s2 :
  run hAny recv_frame (s, (p, st)) = (Ok (Some (ChunkStart i o len b)), s1) ->
  run hAny (read_exact_idle len) s1 = (Ok data, s2) ->
  blake3_hex data <> b ->
  exists s3,
    run hAny (next true) (s, (p, st)) = (Err (Integrity (mismatch i o)), (s3, (p, st))).
Proof.
  intros E1 E2 Hne. unfold next.
  pose proof (stream_only_run hS (hsum progress_handler hR) recv_frame s (p, st)
    (recv_frame_stream (T := DataFrame))) as Hs. rewrite E1 in Hs.
  destruct s1 as [s1 ?]. simpl in Hs. subst.
  pose proof (stream_only_run hS (hsum progress_handler hR) (read_exact_idle len) s1 (p, st)
    (read_exact_idle_stream len)) as Hs. rewrite E2 in Hs.
  destruct s2 as [s2 ?]. simpl in Hs. subst.
  exists s2. erewrite run_then by exact E1. cbv beta iota.
  erewrite run_then by exact E2. cbv zeta.
  destruct (String.eqb_spec (blake3_hex data) b); [done|]. done.
Qed.
End Integrity.

(** ** The write loop against an arbitrary transport *)

(** The bytes a stream operation handed over, given its answer. *)
Definition taken (o : stream_op) : stream_resp o -> bytes :=
  match o with
  | WriteT _ buf => fun r =>
      match r with InTime (Ok n) => take (N.to_nat n) buf | _ => [] end
  | WriteAll buf => fun r => match r with Ok _ => buf | _ => [] end
  | _ => fun _ => []
  end.

(** The transport [hS], with a log of the bytes it accepted. *)
Definition logged {SS} (hS : handler stream_sig SS) : handler stream_sig (SS * bytes) :=
  fun o st => let r := hS o st.1 in (r.1, (r.2, st.2 ++ taken o r.1)).

(** A [write] accepts no more than it was offered, and does not panic. *)
Definition honest {SS} (hS : handler stream_sig SS) : Prop :=
  forall d buf s, match (hS (WriteT d buf) s).1 with
                  | InTime (Ok n) => (n <= nlen buf)%N
                  | InTime Panicked => False
                  | _ => True
                  end.

Section WriteLoop.
Context {L : sig} {SS St : Type} (hS : handler stream_sig SS) (h : handler L St).

Lemma write_all_from_accepts fuel buf s out st :
  honest hS -> length buf <= fuel ->
  exists sent rest s',
    buf = sent ++ rest /\
    (run (hsum (logged hS) h) (write_all_from fuel buf) ((s, out), st)).2 =
      ((s', out ++ sent), st) /\
    match (run (hsum (logged hS) h) (write_all_from fuel buf) ((s, out), st)).1 with
    | Ok _ => rest = []
    | Err e => rest <> [] /\ is_transfer e
    | Panicked => False
    end.
Proof.
  intros Hh. revert buf s out; induction fuel as [|fuel IH]; intros [|b buf] s out Hf;
    try (simpl in Hf; lia); try (exists [], [], s; simpl; by rewrite ?app_nil_r).
  specialize (Hh IO_IDLE_TIMEOUT (b :: buf) s).
  cbn [write_all_from]. cbn -[write_all_from nlen app].
  destruct (hS (WriteT IO_IDLE_TIMEOUT (b :: buf)) s) as [[[n|e|]|] s1]; cbn [fst snd] in *;
    [|exists [], (b :: buf), s1; simpl; by rewrite ?app_nil_r|done|exists [], (b :: buf), s1; simpl; by rewrite ?app_nil_r].
  destruct (N.eqb_spec n 0) as [->|Hn].
  { exists [], (b :: buf), s1. simpl. by rewrite ?app_nil_r. }
  destruct (N.ltb_spec (nlen (b :: buf)) n); [lia|].
  destruct (IH (drop (N.to_nat n) (b :: buf)) s1 (out ++ take (N.to_nat n) (b :: buf)))
    as (sent&rest&s'&E&E2&E3).
  { rewrite length_drop. simpl length in *. lia. }
  exists (take (N.to_nat n) (b :: buf) ++ sent), rest, s'.
  rewrite <- !app_assoc, <- E, take_drop, app_assoc. by split_and!.
Qed.

(** C38: the write loop on any transport.  It ends, having handed over a prefix
    of the buffer in order and without gaps; it succeeds exactly when nothing is
    left, never panics, and what stops it short is a transfer error. *)
Theorem write_all_idle_accepts buf s out st :
  honest hS ->
  exists sent rest s',
    buf = sent ++ rest /\
    (run (hsum (logged hS) h) (write_all_idle buf) ((s, out), st)).2 =
      ((s', out ++ sent), st) /\
    match (run (hsum (logged hS) h) (write_all_idle buf) ((s, out), st)).1 with
    | Ok _ => rest = []
    | Err e => rest <> [] /\ is_transfer e
    | Panicked => False
    end.
Proof. intros Hh. by apply write_all_from_accepts. Qed.
End WriteLoop.

(** ** Frames end to end *)

Section Exchange.
Context {T : Type} `{JsonLaws T} {L1 L2 : sig} {St1 St2 : Type}.
Context (h1 : handler L1 St1) (h2 : handler L2 St2).

End Exchange.

(** ** Limits and phases *)

Section Limits.
Context `{Json DataFrame} `{Blake3} {T : Type} `{Json T} {R : sig}.

(** Size limits on the sending side.  A chunk above [CHUNK_SIZE] and a frame
    above [FRAME_LIMIT] are refused before the stream is touched. *)
Theorem oversize_refused_unsent progress i o data (x : T) body :
  (CHUNK_SIZE < nlen data)%N -> to_vec x = Ok body -> (FRAME_LIMIT < nlen body)%N ->
  send_chunk (R := R) progress i o data =
    Ret (Err (phase Transfer "chunk exceeds CHUNK_SIZE")) /\
  send_frame (L := R) x = Ret (Err (phase Transfer "frame exceeds FRAME_LIMIT")).
Proof.
  intros Hd Hx Hb. unfold send_chunk, send_frame. rewrite Hx. cbn [map_err ptry pbind].
  destruct (N.ltb_spec CHUNK_SIZE (nlen data)); [|lia].
  destruct (N.ltb_spec FRAME_LIMIT (nlen body)); [|lia]. done.
Qed.

(** Whatever the transport answers, every error of the sink is charged to
    the transfer phase, and every error of the chunk reader is either that or an
    integrity error. *)
Theorem channel_errors_classified progress c :
  always (errs is_transfer) (StreamChunkSink (R := R) progress c) /\
  always (errs (fun e => is_transfer e \/ exists m, e = Integrity m)) (next (R := R) progress).
Proof.
  assert (Hm : forall {A} (p : prog (stream_sig ⊕ (progress_sig ⊕ R)) (Result A)),
    always (errs is_transfer) p ->
    always (errs (fun e => is_transfer e \/ exists m, e = Integrity m)) p).
  { intros A p Hp. eapply always_mono; [exact Hp|]. intros [a|e|]; simpl; auto. }
  split.
  - destruct c as [i o data|i t b|]; simpl.
    + unfold send_chunk. destruct (CHUNK_SIZE <? nlen data)%N; [done|].
      apply always_try; [auto with rb|intros _].
      apply always_try; [auto with rb|intros _]. by destruct progress.
    + apply always_try; [auto with rb|intros _]. by destruct progress.
    + apply send_frame_errs.
  - apply always_try; [apply Hm; auto with rb|].
    intros [[i o len b|i t b|]|]; simpl; try done.
    + apply always_try; [apply Hm; auto with rb|]. intros data. cbv zeta.
      destruct (String.eqb _ _); [by destruct progress|simpl; eauto].
    + by destruct progress.
Qed.
End Limits.

(** ** At concrete inputs *)

Lemma accepted_chunk_verified_witness :
  exists s1,
    run (hsum mem_stream (hsum progress_handler hno)) recv_frame
      (Mem (demo_wire (SendChunk 7 3 [x01; x02])) [] [0; 1; 0], (Progress_default, tt)) =
    (Ok (Some (ChunkStart 7 3 2 (blake3_hex [x01; x02]))), (s1, (Progress_default, tt))) /\
    add_bytes Progress_default 2 = add_bytes Progress_default 2 /\ tt = tt.
Proof.
  apply (accepted_chunk_verified mem_stream hno
    (Mem (demo_wire (SendChunk 7 3 [x01; x02])) [] [0; 1; 0]) Progress_default tt
    7 3 [x01; x02] (Mem [] [] []) (add_bytes Progress_default 2) tt mem_modest).
  vm_compute. reflexivity.
Defined.

Lemma corrupt_chunk_detected_witness :
  exists s3,
    run (hsum mem_stream (hsum progress_handler hno)) (next true)
      (Mem (demo_frame (ChunkStart 7 3 2 (blake3_hex [x01; x02])) ++ [x01; x03]) [] [],
       (Progress_default, tt)) =
    (Err (Integrity (mismatch 7 3)), (s3, (Progress_default, tt))).
Proof.
  apply (corrupt_chunk_detected mem_stream hno
    (Mem (demo_frame (ChunkStart 7 3 2 (blake3_hex [x01; x02])) ++ [x01; x03]) [] [])
    Progress_default tt 7 3 2 (blake3_hex [x01; x02])
    (Mem [x01; x03] [] [], (Progress_default, tt)) [x01; x03]
    (Mem [] [] [], (Progress_default, tt))).
  - vm_compute. reflexivity.
  - vm_compute. reflexivity.
  - vm_compute. discriminate.
Defined.

Lemma write_all_idle_accepts_witness :
  exists sent rest s',
    [x01; x02; x03] = sent ++ rest /\
    (run (hsum (logged mem_stream) hno) (write_all_idle [x01; x02; x03])
      ((Mem [] [] [0; 0], []), tt)).2 = ((s', [] ++ sent), tt) /\
    match (run (hsum (logged mem_stream) hno) (write_all_idle [x01; x02; x03])
      ((Mem [] [] [0; 0], []), tt)).1 with
    | Ok _ => rest = []
    | Err e => rest <> [] /\ is_transfer e
    | Panicked => False
    end.
Proof.
  apply (write_all_idle_accepts mem_stream hno [x01; x02; x03] (Mem [] [] [0; 0]) [] tt).
  intros d buf s. simpl. unfold nlen. lia.
Defined.


(** An encoder that writes [n] bytes for any value, for the limits. *)
#[local] Instance padding_json (n : N) : Json N :=
  {| to_vec := fun _ => Ok (replicate (N.to_nat n) x30); from_slice := fun _ => Err "padding" |}.

Lemma nlen_replicate n (x : byte) : nlen (replicate (N.to_nat n) x) = n.
Proof. unfold nlen. rewrite length_replicate. lia. Qed.

Lemma oversize_refused_unsent_witness :
  send_chunk (R := no_sig) true 1 0 (replicate (N.to_nat (CHUNK_SIZE + 1)) x00) =
    Ret (Err (phase Transfer "chunk exceeds CHUNK_SIZE")) /\
  send_frame (H := padding_json (FRAME_LIMIT + 1)) (L := no_sig) 0%N =
    Ret (Err (phase Transfer "frame exceeds FRAME_LIMIT")).
Proof.
  apply (oversize_refused_unsent (R := no_sig) true 1 0
    (replicate (N.to_nat (CHUNK_SIZE + 1)) x00) 0%N
    (replicate (N.to_nat (FRAME_LIMIT + 1)) x30)).
  - rewrite nlen_replicate. unfold CHUNK_SIZE. lia.
  - reflexivity.
  - rewrite nlen_replicate. unfold FRAME_LIMIT. lia.
Defined.

(** ** Plans, the registry and the counters *)

(** *** Preflight *)

(** A preflight built by a sequence of checks. *)
Definition check_all (l : list PreflightCheck) : Preflight :=
  foldl (fun p c => check p (check_name c) (check_passed c) (check_detail c)) pass l.

(** A preflight passes exactly when every check in it passed, and it reports
    all the checks made, in order, the failed ones included. *)
Theorem preflight_is_conjunction l :
  checks (check_all l) = l /\
  ok (check_all l) = forallb check_passed l /\
  (ok (check_all l) = false <-> exists c, c ∈ l /\ check_passed c = false).
Proof.
  assert (E : forall p, checks (foldl (fun p c => check p (check_name c) (check_passed c)
    (check_detail c)) p l) = checks p ++ l /\ (ok p = all_passed p -> ok (foldl (fun p c =>
    check p (check_name c) (check_passed c) (check_detail c)) p l) = all_passed (foldl (fun p c =>
    check p (check_name c) (check_passed c) (check_detail c)) p l))).
  { induction l as [|[n b d] l IH]; intros p; simpl; [by rewrite app_nil_r|].
    destruct (IH (check p n b d)) as [E1 E2]. split.
    { rewrite E1. cbn [checks check]. by rewrite <- app_assoc. }
    auto with rb. }
  destruct (E pass) as [E1 E2]. specialize (E2 pass_all_passed). unfold check_all.
  split; [exact E1|]. assert (Eo : ok (check_all l) = forallb check_passed l).
  { unfold check_all. rewrite E2. unfold all_passed. by rewrite E1. }
  split; [exact Eo|]. unfold check_all in Eo. rewrite Eo. clear.
  induction l as [|c l IH]; simpl; [split; [done|intros (c&Hc&_); by apply elem_of_nil in Hc]|].
  rewrite andb_false_iff, IH. setoid_rewrite elem_of_cons. naive_solver.
Qed.

(** ** Sizes for people *)

(** [human_bytes] below 2^53 bytes.  Under one KiB it prints the count; from
    there on it uses the largest unit the count reaches (TiB at most), and the
    hundredths it prints are within half a hundredth of the quotient. *)
Theorem human_bytes_accurate n :
  (n < 2 ^ 53)%N ->
  let i := human_unit (length units - 1) n 0 in
  let h := human_hundredths n i in
  ((n < 1024)%N -> human_bytes n = pretty n +:+ " B") /\
  ((1024 <= n)%N ->
    human_bytes n = pretty (h / 100)%N +:+ "." +:+ two_digits (h mod 100) +:+ " " +:+
      default "" (units !! i) /\
    0 < i < length units /\ (1024 ^ N.of_nat i <= n)%N /\
    (i = 4 \/ (n < 1024 ^ N.of_nat (S i))%N) /\
    (2 * (h * 1024 ^ N.of_nat i) <= 200 * n + 1024 ^ N.of_nat i)%N /\
    (200 * n <= 2 * (h * 1024 ^ N.of_nat i) + 1024 ^ N.of_nat i)%N).
Proof.
  intros Hn. pose proof (human_unit_largest n) as Hu. unfold human_bytes.
  rewrite !f64_of_u64_exact in * by done. cbv zeta in *.
  set (i := human_unit _ n 0) in *. destruct Hu as (H1&H2&H3). split; intros Hk.
  - destruct H2 as [->|H2]; [done|]. assert (i = 0) as ->; [|done].
    destruct i as [|i]; [done|]. exfalso.
    assert (1024 ^ 1 <= 1024 ^ N.of_nat (S i))%N by (apply N.pow_le_mono_r; lia).
    change (1024 ^ 1)%N with 1024%N in *. lia.
  - assert (Hi : i <> 0).
    { intros E. rewrite E in H3. destruct H3 as [|H3]; [done|].
      change (1024 ^ N.of_nat 1)%N with 1024%N in H3. lia. }
    destruct (Nat.eqb_spec i 0); [done|].
    pose proof (round_half_even_near (100 * n) (1024 ^ N.of_nat i)
      ltac:(apply N.neq_0_lt_0, N.pow_nonzero; lia)) as [Ha Hb].
    fold (human_hundredths n i) in Ha, Hb.
    split_and!; [done|lia|lia| |done|lia|lia]. by destruct H2.
Qed.

Lemma human_bytes_accurate_witness :
  let i := human_unit (length units - 1) 1536 0 in
  let h := human_hundredths 1536 i in
  ((1536 < 1024)%N -> human_bytes 1536 = pretty 1536%N +:+ " B") /\
  ((1024 <= 1536)%N ->
    human_bytes 1536 = pretty (h / 100)%N +:+ "." +:+ two_digits (h mod 100) +:+ " " +:+
      default "" (units !! i) /\
    0 < i < length units /\ (1024 ^ N.of_nat i <= 1536)%N /\
    (i = 4 \/ (1536 < 1024 ^ N.of_nat (S i))%N) /\
    (2 * (h * 1024 ^ N.of_nat i) <= 200 * 1536 + 1024 ^ N.of_nat i)%N /\
    (200 * 1536 <= 2 * (h * 1024 ^ N.of_nat i) + 1024 ^ N.of_nat i)%N).
Proof. apply (human_bytes_accurate 1536). reflexivity. Defined.

Example human_bytes_1536 : human_bytes 1536 = "1.50 KiB".
Proof. vm_compute. reflexivity. Qed.

(** ** The module registry *)

Section Registry.
Context {B : sig}.
Implicit Types (ms : list (BackupModule B)) (m : BackupModule B).

Definition register_all ms : ModuleRegistry B := foldl register registry_new ms.

Lemma register_all_snoc ms m : register_all (ms ++ [m]) = register (register_all ms) m.
Proof. unfold register_all. by rewrite foldl_app. Qed.

(** The registry.  A name resolves to the module registered last under it,
    and only to registered modules; the listing is sorted, without duplicates,
    and holds exactly the names that resolve. *)
Theorem registry_last_wins ms n :
  get (register_all ms) n = last (filter (fun m => name m = n) ms) /\
  StronglySorted string_le (names (register_all ms)) /\
  NoDup (names (register_all ms)) /\
  (n ∈ names (register_all ms) <-> exists m, m ∈ ms /\ name m = n).
Proof.
  assert (Hg : get (register_all ms) n = last (filter (fun m => name m = n) ms)).
  { induction ms as [|m ms IH] using rev_ind; [apply lookup_empty|].
    rewrite register_all_snoc, filter_app, filter_cons, filter_nil.
    destruct (decide (name m = n)) as [<-|Hn].
    - by rewrite get_register_eq, last_snoc.
    - by rewrite get_register_ne, app_nil_r. }
  split_and!; [exact Hg|apply names_sorted|apply names_nodup|].
  rewrite names_elem, Hg. split.
  - intros [m Hm%last_Some_elem_of]. apply list_elem_of_filter in Hm as [? ?]. by exists m.
  - intros (m&Hm&En). destruct (last _) as [m'|] eqn:El; [done|].
    apply last_None in El. exfalso.
    assert (Hin : m ∈ filter (fun m => name m = n) ms) by (by apply list_elem_of_filter).
    rewrite El in Hin. by apply elem_of_nil in Hin.
Qed.
End Registry.

(** ** Progress *)

(** The byte counter after any sequence of chunks is their total modulo
    2^64 whatever their order, the other counters do not move, and the
    percentage shown never exceeds 100. *)
Theorem progress_counts l l' p x :
  l ≡ₚ l' ->
  foldl add_bytes p l = foldl add_bytes p l' /\
  ((bytes_done p < 2 ^ 64)%N ->
     bytes_done (foldl add_bytes p l) = ((bytes_done p + foldr N.add 0 l) mod 2 ^ 64)%N) /\
  items_done (foldl add_bytes p l) = items_done p /\
  SpecFloat.SFltb (f64_of_N 100) (f64_min x (f64_of_N 100)) = false.
Proof.
  intros Hp. split_and!.
  - revert p. induction Hp as [|n l l' _ IH|n m l|l1 l2 l3 _ IH1 _ IH2]; intros p; simpl; auto.
    + rewrite !add_bytes_add. do 2 f_equal. lia.
    + by rewrite IH1.
  - clear Hp. revert p. induction l as [|n l IH]; intros p Hb; simpl.
    + rewrite N.add_0_r, N.mod_small; done.
    + rewrite IH; [|apply N.mod_lt; lia]. unfold add_bytes at 1; simpl.
      rewrite N.Div0.add_mod_idemp_l. f_equal. lia.
  - clear Hp. revert p. induction l as [|n l IH]; intros p; simpl; [done|]. by rewrite IH.
  - change (f64_of_N 100) with (SpecFloat.S754_finite false 7036874417766400 (-46)).
    unfold f64_min. destruct x as [s|s| |s m e]; try reflexivity.
    + by destruct s.
    + destruct (SpecFloat.SFltb _ (SpecFloat.S754_finite s m e)) eqn:E; [reflexivity|exact E].
Qed.

Lemma progress_counts_witness :
  foldl add_bytes (Progress_new 1 5) [2; 3]%N = foldl add_bytes (Progress_new 1 5) [3; 2]%N /\
  ((bytes_done (Progress_new 1 5) < 2 ^ 64)%N ->
    bytes_done (foldl add_bytes (Progress_new 1 5) [2; 3]%N) =
      ((bytes_done (Progress_new 1 5) + foldr N.add 0 [2; 3]%N) mod 2 ^ 64)%N) /\
  items_done (foldl add_bytes (Progress_new 1 5) [2; 3]%N) = items_done (Progress_new 1 5) /\
  SpecFloat.SFltb (f64_of_N 100) (f64_min (f64_of_N 250) (f64_of_N 100)) = false.
Proof. apply (progress_counts [2; 3]%N [3; 2]%N (Progress_new 1 5) (f64_of_N 250)). constructor. Defined.
