(* ===== verification/Text.v ===== *)
(** * String functions of the standard library the code calls

    Strings are UTF-8 byte strings; the functions below are the [str] and
    integer-parsing methods used in [shared.rs], [transport.rs] and [main.rs]. *)

From S2P Require Import Prelude.
From Stdlib Require Import Strings.Ascii.
From stdpp Require Import list strings.

(** [str::strip_prefix]. *)
Fixpoint strip_prefix (p s : string) : option string :=
  match p, s with
  | EmptyString, _ => Some s
  | String a p', String b s' => if Ascii.eqb a b then strip_prefix p' s' else None
  | String _ _, EmptyString => None
  end.

(** [str::split_once] at an ASCII character. *)
Fixpoint split_once (c : Ascii.ascii) (s : string) : option (string * string) :=
  match s with
  | EmptyString => None
  | String a s' =>
      if Ascii.eqb a c then Some (EmptyString, s')
      else match split_once c s' with
           | Some (l, r) => Some (String a l, r)
           | None => None
           end
  end.

(** [str::rsplit_once]: at the last occurrence. *)
Fixpoint rsplit_once (c : Ascii.ascii) (s : string) : option (string * string) :=
  match s with
  | EmptyString => None
  | String a s' =>
      match rsplit_once c s' with
      | Some (l, r) => Some (String a l, r)
      | None => if Ascii.eqb a c then Some (EmptyString, s') else None
      end
  end.

(** [s.split(c).next()]: up to the first occurrence. *)
Definition split_first (c : Ascii.ascii) (s : string) : string :=
  match split_once c s with Some (l, _) => l | None => s end.

(** The characters of the Unicode property White_Space, encoded. *)
Definition bytes_str (l : list nat) : list Ascii.ascii := Ascii.ascii_of_nat <$> l.

Definition white_space : list (list Ascii.ascii) := bytes_str <$>
  [[9]; [10]; [11]; [12]; [13]; [32]; [194; 133]; [194; 160]; [225; 154; 128];
   [226; 128; 128]; [226; 128; 129]; [226; 128; 130]; [226; 128; 131]; [226; 128; 132];
   [226; 128; 133]; [226; 128; 134]; [226; 128; 135]; [226; 128; 136]; [226; 128; 137];
   [226; 128; 138]; [226; 128; 168]; [226; 128; 169]; [226; 128; 175]; [226; 129; 159];
   [227; 128; 128]].

Fixpoint strip_list (p l : list Ascii.ascii) : option (list Ascii.ascii) :=
  match p, l with
  | [], _ => Some l
  | a :: p', b :: l' => if Ascii.eqb a b then strip_list p' l' else None
  | _ :: _, [] => None
  end.

Definition strip_any (ps : list (list Ascii.ascii)) (l : list Ascii.ascii) : option (list Ascii.ascii) :=
  head (omap (fun p => strip_list p l) ps).

(** Every turn strips at least one byte. *)
Fixpoint trim_while (fuel : nat) (ps : list (list Ascii.ascii)) (l : list Ascii.ascii) : list Ascii.ascii :=
  match fuel, strip_any ps l with
  | S fuel', Some l' => trim_while fuel' ps l'
  | _, _ => l
  end.

(** [str::trim]. *)
Definition trim (s : string) : string :=
  let l := String.list_ascii_of_string s in
  let l1 := trim_while (length l) white_space l in
  let l2 := reverse (trim_while (length l1) (reverse <$> white_space) (reverse l1)) in
  String.string_of_list_ascii l2.

(** [to_ascii_lowercase]. *)
Definition lower (a : Ascii.ascii) : Ascii.ascii :=
  let n := Ascii.N_of_ascii a in
  if ((65 <=? n) && (n <=? 90))%N then Ascii.ascii_of_N (n + 32) else a.

Fixpoint to_ascii_lowercase (s : string) : string :=
  match s with
  | EmptyString => EmptyString
  | String a s' => String (lower a) (to_ascii_lowercase s')
  end.

(** ** Parsing integers *)

Definition digit (a : Ascii.ascii) : option N :=
  let n := Ascii.N_of_ascii a in
  if ((48 <=? n) && (n <=? 57))%N then Some (n - 48)%N else None.

(** The digits of a number, stopping when the value passes [max]. *)
Fixpoint parse_dec (max acc : N) (s : string) : option N :=
  match s with
  | EmptyString => Some acc
  | String a s' =>
      match digit a with
      | Some d =>
          let acc' := (acc * 10 + d)%N in
          if (max <? acc')%N then None else parse_dec max acc' s'
      | None => None
      end
  end.

Definition parse_digits (max : N) (s : string) : option N :=
  match s with EmptyString => None | _ => parse_dec max 0 s end.

(** [parse::<u16>] ([max] = 65535) and [parse::<u64>]: one leading [+] is
    accepted, a [-] is not. *)
Definition parse_unsigned (max : N) (s : string) : option N :=
  match s with
  | String "+"%char s' => parse_digits max s'
  | _ => parse_digits max s
  end.

(** [parse::<i64>]. *)
Definition parse_i64 (s : string) : option Z :=
  match s with
  | String "-"%char s' => (fun n => - Z.of_N n)%Z <$> parse_digits (2 ^ 63) s'
  | String "+"%char s' => Z.of_N <$> parse_digits (2 ^ 63 - 1) s'
  | _ => Z.of_N <$> parse_digits (2 ^ 63 - 1) s
  end.

(** ** Facts *)

(** [c] does not occur in [s]. *)
Fixpoint free (c : Ascii.ascii) (s : string) : bool :=
  match s with EmptyString => true | String a s' => negb (Ascii.eqb a c) && free c s' end.

Lemma strip_prefix_app p s : strip_prefix p (p +:+ s) = Some s.
Proof. induction p as [|a p IH]; simpl; [by destruct s|]. by rewrite Ascii.eqb_refl. Qed.

Lemma strip_prefix_some p s r : strip_prefix p s = Some r -> s = p +:+ r.
Proof.
  revert s; induction p as [|a p IH]; intros s; simpl; [by intros [= ->]|].
  destruct s as [|b s]; [done|]. destruct (Ascii.eqb_spec a b) as [->|]; [|done]. intros E. by rewrite (IH _ E).
Qed.

Lemma split_once_free c l r : free c l = true -> split_once c (l +:+ String c r) = Some (l, r).
Proof.
  induction l as [|a l IH]; simpl; [by rewrite Ascii.eqb_refl|].
  intros [Ha Hl]%andb_true_iff. apply negb_true_iff in Ha. by rewrite Ha, IH.
Qed.

Lemma split_once_none c s : free c s = true -> split_once c s = None.
Proof.
  induction s as [|a s IH]; simpl; [done|].
  intros [Ha Hs]%andb_true_iff. apply negb_true_iff in Ha. by rewrite Ha, IH.
Qed.

Lemma rsplit_once_none c s : free c s = true -> rsplit_once c s = None.
Proof.
  induction s as [|a s IH]; simpl; [done|].
  intros [Ha Hs]%andb_true_iff. apply negb_true_iff in Ha. by rewrite IH, Ha.
Qed.

Lemma rsplit_once_free c l r : free c r = true -> rsplit_once c (l +:+ String c r) = Some (l, r).
Proof.
  intros Hr. induction l as [|a l IH]; simpl.
  - by rewrite rsplit_once_none, Ascii.eqb_refl.
  - by rewrite IH.
Qed.

Lemma free_app c s t : free c (s +:+ t) = free c s && free c t.
Proof. induction s as [|a s IH]; simpl; [done|]. by rewrite IH, andb_assoc. Qed.

(** Decimal digits read back what [pretty] writes. *)
Lemma digit_pretty n : (n < 10)%N -> digit (pretty_N_char n) = Some n.
Proof.
  intros Hn. destruct n as [|p]; [done|].
  do 4 (destruct p as [p|p|]; [..|done]; try (exfalso; lia)).
Qed.

Lemma parse_dec_pretty_go max x s :
  (x <= max)%N -> parse_dec max 0 (pretty_N_go x s) = parse_dec max x s.
Proof.
  revert s. induction (N.lt_wf_0 x) as [x _ IH]. intros s Hx.
  destruct (decide (0 < x)%N) as [Hp|Hp].
  - rewrite pretty_N_go_step by done. pose proof (N.div_lt x 10 Hp ltac:(lia)).
    rewrite IH by lia. cbn [parse_dec].
    pose proof (N.mod_lt x 10 ltac:(lia)). rewrite digit_pretty by lia.
    rewrite N.mul_comm, <- N.div_mod by lia.
    destruct (N.ltb_spec max x); [lia|done].
  - assert (x = 0)%N as -> by lia. by rewrite pretty_N_go_0.
Qed.

Lemma pretty_N_nonempty (n : N) : pretty n <> "".
Proof.
  unfold pretty, pretty_N. case_decide as Hn; [done|].
  rewrite pretty_N_go_step by lia. generalize (n / 10)%N as x, (pretty_N_char (n mod 10)) as c.
  intros x c. assert (forall s, s <> "" -> pretty_N_go x s <> "") as H; [|by apply H].
  clear. induction (N.lt_wf_0 x) as [x _ IH]. intros s Hs.
  destruct (decide (0 < x)%N) as [Hp|Hp].
  - rewrite pretty_N_go_step by done. apply IH; [|done]. apply N.div_lt; lia.
  - assert (x = 0)%N as -> by lia. by rewrite pretty_N_go_0.
Qed.

Lemma parse_dec_pretty max n : (n <= max)%N -> parse_dec max 0 (pretty n) = Some n.
Proof.
  intros Hn. unfold pretty, pretty_N. case_decide as H0; [|by rewrite parse_dec_pretty_go].
  subst. change (parse_dec max 0 "0") with (if (max <? 0)%N then None else Some 0%N).
  destruct (N.ltb_spec max 0); [lia|done].
Qed.

Lemma parse_digits_pretty max n : (n <= max)%N -> parse_digits max (pretty n) = Some n.
Proof.
  intros Hn. unfold parse_digits. pose proof (pretty_N_nonempty n).
  rewrite (parse_dec_pretty _ _ Hn). by destruct (pretty n).
Qed.

Lemma parse_dec_bound max acc s n : (acc <= max)%N -> parse_dec max acc s = Some n -> (n <= max)%N.
Proof.
  revert acc; induction s as [|a s IH]; intros acc Ha; simpl; [by intros [= <-]|].
  destruct (digit a) as [d|]; [|done].
  destruct (N.ltb_spec max (acc * 10 + d)); [done|]. by apply IH.
Qed.

Lemma parse_digits_bound max s n : parse_digits max s = Some n -> (n <= max)%N.
Proof. destruct s; [done|]. apply parse_dec_bound. lia. Qed.

Lemma parse_unsigned_bound max s n : parse_unsigned max s = Some n -> (n <= max)%N.
Proof.
  unfold parse_unsigned. destruct s as [|a s]; [done|].
  destruct a as [[] [] [] [] [] [] [] []]; apply parse_digits_bound.
Qed.

(** The characters of a decimal number. *)
Fixpoint all_digits (s : string) : bool :=
  match s with
  | EmptyString => true
  | String a s' => match digit a with Some _ => all_digits s' | None => false end
  end.

Lemma parse_dec_all_digits max acc s n : parse_dec max acc s = Some n -> all_digits s = true.
Proof.
  revert acc; induction s as [|a s IH]; intros acc; simpl; [done|].
  destruct (digit a); [|done]. destruct (_ <? _)%N; [done|]. apply IH.
Qed.

Lemma all_digits_pretty (n : N) : all_digits (pretty n) = true.
Proof. by eapply (parse_dec_all_digits n 0), parse_dec_pretty. Qed.

Lemma all_digits_free c s : digit c = None -> all_digits s = true -> free c s = true.
Proof.
  intros Hc. induction s as [|a s IH]; simpl; [done|].
  destruct (digit a) eqn:E; [|done]. intros H. rewrite IH by done.
  destruct (Ascii.eqb_spec a c) as [->|]; [congruence|done].
Qed.

Lemma parse_unsigned_digits max s :
  all_digits s = true -> parse_unsigned max s = parse_digits max s.
Proof.
  unfold parse_unsigned. destruct s as [|a s]; [done|].
  destruct a as [[] [] [] [] [] [] [] []]; done.
Qed.

Lemma parse_unsigned_pretty max n : (n <= max)%N -> parse_unsigned max (pretty n) = Some n.
Proof.
  intros Hn. rewrite parse_unsigned_digits by apply all_digits_pretty.
  by apply parse_digits_pretty.
Qed.

Lemma string_app_nil (s : string) : s +:+ "" = s.
Proof. induction s as [|a s IH]; [done|]. exact (f_equal (String a) IH). Qed.

Lemma string_app_assoc (s t u : string) : (s +:+ t) +:+ u = s +:+ (t +:+ u).
Proof. induction s as [|a s IH]; [done|]. exact (f_equal (String a) IH). Qed.

Lemma split_once_some c s l r : split_once c s = Some (l, r) -> free c l = true /\ s = l +:+ String c r.
Proof.
  revert l; induction s as [|a s IH]; intros l; simpl; [done|].
  destruct (Ascii.eqb_spec a c) as [->|Hne]; [by intros [= <- <-]|].
  destruct (split_once c s) as [[l' r']|]; [|done]. intros [= <- <-].
  destruct (IH l' eq_refl) as [Hf ->]. split; [|done]. simpl. rewrite Hf.
  by apply Ascii.eqb_neq in Hne as ->.
Qed.

(** A character that is not the first byte of any of the patterns stops them. *)
Lemma strip_any_none ps a l :
  forallb (fun p => match p with [] => false | b :: _ => negb (Ascii.eqb b a) end) ps = true ->
  strip_any ps (a :: l) = None.
Proof.
  unfold strip_any. induction ps as [|[|b p] ps IH]; simpl; [done..|].
  intros [Hb Hps]%andb_true_iff. apply negb_true_iff in Hb. rewrite Hb. by apply IH.
Qed.

(** ASCII letters and digits. *)
Definition alnum (a : ascii) : bool :=
  let n := Ascii.N_of_ascii a in
  ((48 <=? n) && (n <=? 57) || (65 <=? n) && (n <=? 90) || (97 <=? n) && (n <=? 122))%N.

Fixpoint all_alnum (s : string) : bool :=
  match s with EmptyString => true | String a s' => alnum a && all_alnum s' end.

Lemma alnum_not_space a :
  alnum a = true ->
  forallb (fun p => match p with [] => false | b :: _ => negb (Ascii.eqb b a) end) white_space = true
  /\ forallb (fun p => match p with [] => false | b :: _ => negb (Ascii.eqb b a) end)
       (reverse <$> white_space) = true.
Proof. destruct a as [[] [] [] [] [] [] [] []]; vm_compute; done. Qed.

Lemma all_alnum_list s :
  all_alnum s = true -> Forall (fun a => alnum a = true) (String.list_ascii_of_string s).
Proof.
  induction s as [|a s IH]; simpl; [constructor|]. intros [Ha Hs]%andb_true_iff.
  constructor; auto.
Qed.

Lemma trim_while_alnum fuel ps l :
  (forall a, alnum a = true ->
    forallb (fun p => match p with [] => false | b :: _ => negb (Ascii.eqb b a) end) ps = true) ->
  Forall (fun p => p <> []) ps ->
  Forall (fun a => alnum a = true) l -> trim_while fuel ps l = l.
Proof.
  intros Hps Hne Hl. destruct fuel as [|fuel]; [done|]. cbn [trim_while].
  destruct Hl as [|a l Ha Hl].
  - replace (strip_any ps []) with (@None (list ascii)); [done|].
    unfold strip_any. induction Hne as [|p ps Hp _ IH]; [done|]. destruct p; [done|].
    simpl. apply IH. intros c Hc. specialize (Hps c Hc). simpl in Hps.
    by apply andb_true_iff in Hps as [_ ?].
  - by rewrite strip_any_none by auto.
Qed.

Lemma trim_alnum s : all_alnum s = true -> trim s = s.
Proof.
  intros Hs%all_alnum_list. unfold trim. cbv zeta.
  rewrite (trim_while_alnum _ white_space); [|by intros a []%alnum_not_space| |done].
  2:{ repeat constructor; done. }
  rewrite (trim_while_alnum _ (reverse <$> white_space)); [|by intros a []%alnum_not_space| |].
  - by rewrite reverse_involutive, String.string_of_list_ascii_of_string.
  - repeat constructor; done.
  - by apply Forall_reverse.
Qed.

Lemma all_alnum_app s t : all_alnum (s +:+ t) = all_alnum s && all_alnum t.
Proof. induction s as [|a s IH]; simpl; [done|]. by rewrite IH, andb_assoc. Qed.

Lemma all_digits_alnum s : all_digits s = true -> all_alnum s = true.
Proof.
  induction s as [|a s IH]; simpl; [done|]. unfold digit, alnum.
  destruct ((48 <=? Ascii.N_of_ascii a) && (Ascii.N_of_ascii a <=? 57))%N; [|done]. simpl. auto.
Qed.

Lemma lower_alnum a : alnum (lower a) = true -> alnum a = true.
Proof. destruct a as [[] [] [] [] [] [] [] []]; vm_compute; done. Qed.

Lemma lowercase_alnum s : all_alnum (to_ascii_lowercase s) = true -> all_alnum s = true.
Proof.
  induction s as [|a s IH]; simpl; [done|]. intros [Ha Hs]%andb_true_iff.
  rewrite (lower_alnum _ Ha). simpl. auto.
Qed.
