(* ===== verification/Config.v ===== *)
(** * Configuration ([crates/rb-core/src/config.rs])

    The settings records with their defaults, and the loading of a session file.
    The YAML decoder and the file system are not part of the repository. *)

From S2P Require Import Prelude Streams Json Errors.

Inductive Role : Type := RoleSource | RoleDestination.

#[export] Instance Role_eq_decision : EqDecision Role.
Proof. solve_decision. Defined.

Record TransportConfig : Type := {
  to : string;
  tc_channel : string;
  secret : option string;
  carriers : N;       (* u32 *)
  udp : bool;
  insecure : bool;
}.

Definition default_carriers : N := 1.
Definition default_udp : bool := true.

Definition TransportConfig_default : TransportConfig := {|
  to := "";
  tc_channel := "";
  secret := None;
  carriers := default_carriers;
  udp := default_udp;
  insecure := false;
|}.

Record TargetSpec : Type := {
  spec_module : string;
  spec_role : Role;
  spec_transport : TransportConfig;
  spec_params : Value;
  spec_auto_accept : bool;
}.

Record ServerConfig : Type := {
  bind_addr : string;
  control_port : N;   (* u16 *)
  server_secret : option string;
  max_conns : N;      (* usize *)
  server_udp : bool;
}.

Definition default_bind : string := "0.0.0.0".
Definition default_control_port : N := 7835.
Definition default_max_conns : N := 256.

Definition ServerConfig_default : ServerConfig := {|
  bind_addr := default_bind;
  control_port := default_control_port;
  server_secret := None;
  max_conns := default_max_conns;
  server_udp := default_udp;
|}.

Record SessionConfig : Type := {
  sc_server : option ServerConfig;
  sc_targets : list TargetSpec;
}.

Definition SessionConfig_default : SessionConfig := {| sc_server := None; sc_targets := [] |}.

(** [serde_yaml::from_str] at [SessionConfig]; the error is the message. *)
Class YamlConfig := yaml_from_str : string -> result string SessionConfig.

(** [std::fs::read_to_string]; the error is the message. *)
Inductive fs_op : Type := ReadToString (path : string).

Definition fs_sig : sig := Sig fs_op (fun _ => result string string).

Section Load.
Context `{YamlConfig}.

Definition from_yaml (text : string) : Result SessionConfig :=
  map_err (fun e => ConfigError ("YAML parse: " +:+ e)) (yaml_from_str text).

Definition from_path (path : string) : prog fs_sig (Result SessionConfig) :=
  let! r := trigger (S := fs_sig) (ReadToString path) in
  let? text := Ret (map_err (fun e => ConfigError ("read " +:+ path +:+ ": " +:+ e)) r) in
  Ret (from_yaml text).
End Load.
