(* ===== verification/Proto.v ===== *)
(** * The control protocol ([crates/rb-transport/src/proto.rs])

    NUL-delimited JSON messages between a client and the coordination server. *)

From S2P Require Import Prelude Streams Json.
From stdpp Require Import countable.

Definition MAX_FRAME_LENGTH : N := 1024.

(** [Uuid]: its sixteen bytes, as one number. *)
Abbreviation Uuid := N.

Inductive ClientMsg : Type :=
| Register (channel : string)
| Connect (channel : string)
| Authenticate (tag : string)
| ClientHeartbeat.

Inductive ServerMsg : Type :=
| Challenge (u : Uuid)
| ServerOk
| ServerHeartbeat
| ServerError (reason : string).

(** [anyhow::Error], as far as the code builds one: an error of the stream, of
    the serializer, a message ([bail!], [ensure!], [anyhow!]), or an error under a
    context, an error of a type of the code's own, which a caller can tell by
    [downcast_ref].  [Unfinished] is not an error of the code: it marks a run of the
    model that was cut at its bound on the number of reads (see [recv_within]). *)
Inductive anyhow : Type :=
| AnyIo (e : io_error)
| AnyJson (msg : string)
| AnyMsg (msg : string)
| AnyContext (ctx : string) (inner : anyhow)
| AnyTyped (type_name msg : string)
| Unfinished.

(** [{e}]: the outermost message. *)
Definition any_display (e : anyhow) : string :=
  match e with
  | AnyIo e => io_msg e
  | AnyJson m | AnyMsg m | AnyContext m _ | AnyTyped _ m => m
  | Unfinished => ""
  end.

Abbreviation ares := (result anyhow).

Section Delimited.
Context {L : sig}.

Abbreviation net := (stream_sig ⊕ L).

Definition io_try {A} (p : prog net (result io_error A)) : prog net (ares A) :=
  let! r := p in Ret (map_err AnyIo r).

(** [send_client] and [send_server]. *)
Definition send_msg {T} `{Json T} (msg : T) : prog net (ares unit) :=
  let? json := Ret (map_err AnyJson (to_vec msg)) in
  let? _ := io_try (stream (WriteAll json)) in
  let? _ := io_try (stream (WriteAll [x00])) in
  let? _ := io_try (stream Flush) in
  Ret (Ok tt).

Definition send_client `{Json ClientMsg} (msg : ClientMsg) := send_msg msg.
Definition send_server `{Json ServerMsg} (msg : ServerMsg) := send_msg msg.

(** [read_buf.iter().position(|&b| b == 0)]: what precedes the first NUL and
    what follows it. *)
Fixpoint split_nul (l : bytes) : option (bytes * bytes) :=
  match l with
  | [] => None
  | b :: l' =>
      if decide (b = x00) then Some ([], l')
      else match split_nul l' with
           | Some (pre, post) => Some (b :: pre, post)
           | None => None
           end
  end.

(** [recv_client] and [recv_server]: the state of the codec is [read_buf].  The
    [loop] runs as long as the peer sends bytes without a NUL, so it has no
    bound of its own: [fuel] bounds the number of reads. *)
Fixpoint recv_within {T} `{Json T} (fuel : nat) (read_buf : bytes) :
  prog net (ares (option T) * bytes) :=
  match split_nul read_buf with
  | Some (json, rest) =>
      Ret (match from_slice json with
           | Ok x => Ok (Some x)
           | Err e => Err (AnyJson e)
           | Panicked => Panicked
           end, rest)
  | None =>
      match fuel with
      | O => Ret (Err Unfinished, read_buf)
      | S fuel' =>
          let! r := stream (Read 1024) in
          match r with
          | Ok [] => Ret (Ok None, read_buf)
          | Ok bs => recv_within fuel' (read_buf ++ bs)
          | Err e => Ret (Err (AnyIo e), read_buf)
          | Panicked => Ret (Panicked, read_buf)
          end
      end
  end.

Definition recv_client `{Json ClientMsg} (fuel : nat) (read_buf : bytes) :
  prog net (ares (option ClientMsg) * bytes) := recv_within fuel read_buf.

Definition recv_server `{Json ServerMsg} (fuel : nat) (read_buf : bytes) :
  prog net (ares (option ServerMsg) * bytes) := recv_within fuel read_buf.
End Delimited.

(** Both message types are internally tagged ([#[serde(tag = ...)]]).  Documented
    behaviour of serde on such enums: a newtype variant is serialized only if its
    content is a struct or a map, since the tag is added to its fields; for any
    other content the serializer returns an error. *)
Class InternallyTagged `{Json ClientMsg} `{Json ServerMsg} := {
  tagged_authenticate tag : exists e, to_vec (Authenticate tag) = Err e;
  tagged_challenge u : exists e, to_vec (Challenge u) = Err e;
  tagged_error reason : exists e, to_vec (ServerError reason) = Err e;
}.

(** ** Countability (for concrete codecs) *)

#[export] Instance ClientMsg_eq_decision : EqDecision ClientMsg.
Proof. solve_decision. Defined.

#[export] Program Instance ClientMsg_countable : Countable ClientMsg :=
  inj_countable'
    (fun m => match m with
     | Register c => inl (inl c) | Connect c => inl (inr c)
     | Authenticate t => inr (inl t) | ClientHeartbeat => inr (inr tt) end)
    (fun x => match x with
     | inl (inl c) => Register c | inl (inr c) => Connect c
     | inr (inl t) => Authenticate t | inr (inr _) => ClientHeartbeat end) _.
Next Obligation. by intros []. Qed.

#[export] Instance ServerMsg_eq_decision : EqDecision ServerMsg.
Proof. solve_decision. Defined.

#[export] Program Instance ServerMsg_countable : Countable ServerMsg :=
  inj_countable'
    (fun m => match m with
     | Challenge u => inl (inl u) | ServerOk => inl (inr tt)
     | ServerHeartbeat => inr (inl tt) | ServerError r => inr (inr r) end)
    (fun x => match x with
     | inl (inl u) => Challenge u | inl (inr _) => ServerOk
     | inr (inl _) => ServerHeartbeat | inr (inr r) => ServerError r end) _.
Next Obligation. by intros []. Qed.

(** ** Facts *)

Lemma split_nul_app pre post : x00 ∉ pre -> split_nul (pre ++ x00 :: post) = Some (pre, post).
Proof.
  induction pre as [|b pre IH]; intros Hn; simpl.
  - done.
  - rewrite elem_of_cons in Hn. rewrite decide_False by naive_solver.
    rewrite IH; naive_solver.
Qed.

Lemma split_nul_none l : x00 ∉ l -> split_nul l = None.
Proof.
  induction l as [|b l IH]; intros Hn; simpl; [done|].
  rewrite elem_of_cons in Hn. rewrite decide_False by naive_solver.
  rewrite IH; naive_solver.
Qed.

Lemma split_nul_some l pre post :
  split_nul l = Some (pre, post) -> l = pre ++ x00 :: post /\ x00 ∉ pre.
Proof.
  revert pre; induction l as [|b l IH]; intros pre; simpl; [done|].
  case_decide as Hb; [intros [= <- <-]; subst; split; [done|by apply not_elem_of_nil]|].
  destruct (split_nul l) as [[pre' post']|] eqn:E; [|done]. intros [= <- <-].
  destruct (IH pre') as [-> Hn]; [done|]. split; [done|].
  rewrite elem_of_cons. naive_solver.
Qed.

(** The bytes of one message. *)
Definition msg_wire {T} `{Json T} (x : T) (bs : bytes) : Prop :=
  exists json, to_vec x = Ok json /\ bs = json ++ [x00].

Section Facts.
Context {L : sig} {St : Type} (h : handler L St).

Lemma send_msg_behaves {T} `{Json T} (x : T) bs st :
  msg_wire x bs -> behaves Exact h (send_msg x) st (snds bs) (Ok tt) st.
Proof.
  intros (json&Hx&->). unfold send_msg. rewrite Hx.
  replace (snds (json ++ [x00]))
    with ([] ++ (snds json ++ []) ++ (snds [x00] ++ []) ++ [] ++ [])
    by (by rewrite !app_nil_r, snds_app).
  eapply (behaves_try Exact); [constructor|].
  do 2 (eapply (behaves_try Exact); [apply bh_write_all; constructor|]).
  eapply (behaves_try Exact); [apply bh_flush; constructor|]. constructor.
Qed.

(** A receive, together with what follows it: the trace goes on with something
    this side sends, or ends there. *)
Definition turn (m : mode) (τ : list act) : Prop :=
  (m <> Exact /\ exists b τ', τ = Snd b :: τ') \/ (m = Whole /\ τ = []).

Lemma recv_within_behaves {T A} `{JsonLaws T} m (x : T) json fuel buf rest
  (k : ares (option T) * bytes -> prog (stream_sig ⊕ L) A) st τ a st' :
  to_vec x = Ok json -> json ++ [x00] = buf ++ rest -> length rest <= fuel -> turn m τ ->
  behaves m h (k (Ok (Some x), [])) st τ a st' ->
  behaves m h (pbind (recv_within fuel buf) k) st (rcvs rest ++ τ) a st'.
Proof.
  intros Hx. pose proof (json_no_nul _ _ Hx) as Hn. revert buf rest.
  induction fuel as [|fuel IH]; intros buf rest E Hf Ht Hk;
    (destruct rest as [|b rest];
      [rewrite app_nil_r in E; subst buf; cbn [recv_within];
       rewrite split_nul_app by done; cbn [pbind]; by rewrite (json_roundtrip _ _ Hx)|]);
    [simpl in Hf; lia|].
  assert (Hb : split_nul buf = None).
  { apply split_nul_none. intros Hin. apply Hn.
    destruct (app_eq_inv _ _ _ _ E) as [(u&->&_)|(u&->&Eu)]; [apply elem_of_app; by left|].
    destruct u as [|c [|? ?]]; [by rewrite app_nil_r in Hin|done..]. }
  cbn [recv_within]. rewrite Hb. cbn [pbind stream].
  apply bh_read.
  - split_and!; [done|done|]. destruct Ht as [?|?]; auto.
  - intros pre post Ep Hpre _. destruct pre as [|c pre]; [done|]. cbn [pbind].
    apply IH; [|apply (f_equal length) in Ep; rewrite length_app in Ep; simpl in *; lia|done|done].
    by rewrite E, Ep, <- app_assoc.
Qed.

Lemma recv_msg_behaves {T A} `{JsonLaws T} m (x : T) bs fuel
  (k : ares (option T) * bytes -> prog (stream_sig ⊕ L) A) st τ a st' :
  msg_wire x bs -> length bs <= fuel -> turn m τ ->
  behaves m h (k (Ok (Some x), [])) st τ a st' ->
  behaves m h (pbind (recv_within fuel []) k) st (rcvs bs ++ τ) a st'.
Proof. intros (json&Hx&->) Hf Ht Hk. by eapply recv_within_behaves. Qed.

Lemma send_then_behaves {T A} `{Json T} m (x : T) bs
  (k : ares unit -> prog (stream_sig ⊕ L) A) st τ a st' :
  msg_wire x bs -> behaves m h (k (Ok tt)) st τ a st' ->
  behaves m h (pbind (send_msg x) k) st (snds bs ++ τ) a st'.
Proof.
  intros Hx Hk. eapply behaves_bind; [apply behaves_mode; by apply send_msg_behaves|done].
Qed.

Lemma msg_wire_send {T} `{Json T} (x : T) bs τ : msg_wire x bs -> exists b τ', snds bs ++ τ = Snd b :: τ'.
Proof. intros (json&_&->). destruct json as [|b json]; simpl; eauto. Qed.
End Facts.
