(* ===== verification/Auth.v ===== *)
(** * Challenge-response authentication ([crates/rb-transport/src/auth.rs])

    The server draws a random challenge, the client answers with its HMAC under
    the hashed secret. *)

From S2P Require Import Prelude Streams Json Proto.

(** The primitives of the [sha2], [hmac] and [hex] crates. *)
Class Crypto := {
  sha256 : bytes -> bytes;
  hmac_sha256 : bytes -> bytes -> bytes;
  hex_encode : bytes -> string;
  hex_decode : string -> option bytes;
}.

(** Documented behaviour: decoding inverts encoding. *)
Class CryptoLaws `{Crypto} := {
  hex_round_trip b : hex_decode (hex_encode b) = Some b;
}.

(** [Uuid::as_bytes]: sixteen bytes, most significant first. *)
Definition uuid_bytes (u : Uuid) : bytes :=
  (fun i => byte_of (u / 2 ^ (8 * N.of_nat i))) <$> [15; 14; 13; 12; 11; 10; 9; 8; 7; 6; 5; 4; 3; 2; 1; 0].

(** [Authenticator]: the keyed HMAC state, as its key. *)
Record Authenticator : Type := { hmac_key : bytes }.

(** A receive loop returns the codec's buffer with its result; this is [?] on
    such a computation. *)
Definition dtry {S A B} (p : prog S (ares A * bytes))
  (f : A -> bytes -> prog S (ares B * bytes)) : prog S (ares B * bytes) :=
  pbind p (fun '(r, d) =>
    match r with
    | Ok a => f a d
    | Err e => Ret (Err e, d)
    | Panicked => Ret (Panicked, d)
    end).

Definition keep {S A} (d : bytes) (p : prog S (ares A)) : prog S (ares A * bytes) :=
  pbind p (fun r => Ret (r, d)).

Section Auth.
Context `{Crypto}.

Definition authenticator_new (secret : string) : Authenticator :=
  {| hmac_key := sha256 (String.list_byte_of_string secret) |}.

Definition answer (self : Authenticator) (challenge : Uuid) : string :=
  hex_encode (hmac_sha256 (hmac_key self) (uuid_bytes challenge)).

(** [verify_slice] compares the whole tag. *)
Definition validate (self : Authenticator) (challenge : Uuid) (tag : string) : bool :=
  match hex_decode tag with
  | Some tag => bool_decide (tag = hmac_sha256 (hmac_key self) (uuid_bytes challenge))
  | None => false
  end.

Context `{Json ClientMsg} `{Json ServerMsg} {L : sig}.
Abbreviation net := (stream_sig ⊕ L).

(** [new_v4] draws the challenge; [fuel] bounds the reads of one receive. *)
Definition server_handshake (self : Authenticator) (new_v4 : prog net Uuid) (fuel : nat)
  (d : bytes) : prog net (ares unit * bytes) :=
  let! challenge := new_v4 in
  dtry (keep d (send_server (Challenge challenge))) (fun _ d =>
  dtry (recv_client fuel d) (fun msg d =>
    match msg with
    | Some (Authenticate tag) =>
        if validate self challenge tag then Ret (Ok tt, d)
        else Ret (Err (AnyMsg "invalid secret"), d)
    | _ => Ret (Err (AnyMsg "server requires secret, but no secret was provided"), d)
    end)).

Definition client_handshake (self : Authenticator) (fuel : nat) (d : bytes) :
  prog net (ares unit * bytes) :=
  dtry (recv_server fuel d) (fun msg d =>
    match msg with
    | Some (Challenge challenge) =>
        let tag := answer self challenge in
        keep d (send_client (Authenticate tag))
    | Some _ =>
        Ret (Err (AnyMsg "expected authentication challenge, but no secret was required"), d)
    | None => Ret (Err (AnyMsg "connection closed before authentication"), d)
    end).
End Auth.

(** ** Facts *)

Section AuthFacts.
Context `{CryptoLaws}.

Lemma validate_iff a c tag :
  validate a c tag = true <->
  hex_decode tag = Some (hmac_sha256 (hmac_key a) (uuid_bytes c)).
Proof.
  unfold validate. destruct (hex_decode tag) as [b|]; [|done].
  rewrite bool_decide_eq_true. naive_solver.
Qed.

Lemma validate_answer a c : validate a c (answer a c) = true.
Proof. apply validate_iff. apply hex_round_trip. Qed.

(** A tag computed under another key is accepted only if the two HMACs agree. *)
Lemma validate_other a b c :
  hmac_sha256 (hmac_key a) (uuid_bytes c) <> hmac_sha256 (hmac_key b) (uuid_bytes c) ->
  validate b c (answer a c) = false.
Proof.
  intros Hne. destruct (validate b c (answer a c)) eqn:E; [|done].
  apply validate_iff in E. unfold answer in E. rewrite hex_round_trip in E. congruence.
Qed.
End AuthFacts.

Lemma run_dtry {S St A B} (h : handler S St) (p : prog S (ares A * bytes))
  (f : A -> bytes -> prog S (ares B * bytes)) st b d st' :
  run h (dtry p f) st = ((Ok b, d), st') ->
  exists a d1 st1, run h p st = ((Ok a, d1), st1) /\ run h (f a d1) st1 = ((Ok b, d), st').
Proof.
  unfold dtry. rewrite run_bind. destruct (run h p st) as [[[a|e|] d1] st1]; cbn [fst snd];
    [|done..]. intros E. by exists a, d1, st1.
Qed.
