(* ===== verification/Pool.v ===== *)
(** * The carrier pool ([crates/rb-transport/src/pool.rs])

    Round-robin choice among the live carriers of a provider, and the registry
    of carriers waiting for their token. *)

From S2P Require Import Prelude.

Section Pool.
(** [mux::Opener], a handle to a connection's driver. *)
Context {Opener : Type}.

Record Carrier : Type := { opener : Opener; alive : bool }.

Definition Carrier_new (o : Opener) : Carrier := {| opener := o; alive := true |}.

Record CarrierPool : Type := {
  pool_carriers : list Carrier;
  pool_next : N;   (* AtomicUsize *)
}.

Definition CarrierPool_new (first : Opener) : CarrierPool :=
  {| pool_carriers := [Carrier_new first]; pool_next := 0 |}.

Definition pick (self : CarrierPool) : option Opener * CarrierPool :=
  let carriers := filter (fun c => alive c = true) (pool_carriers self) in
  if Nat.eqb (length carriers) 0 then
    (None, {| pool_carriers := carriers; pool_next := pool_next self |})
  else
    let idx := (pool_next self mod nlen carriers)%N in
    (opener <$> carriers !! N.to_nat idx,
     {| pool_carriers := carriers; pool_next := (pool_next self + 1) mod 2 ^ 64 |}).

(** [PendingCarriers] and the guard that clears a token when dropped. *)
Definition PendingCarriers : Type := gmap string Carrier.

Record TokenGuard : Type := { token : string }.

Definition TokenGuard_new (t : string) : TokenGuard := {| token := t |}.

Definition token_guard_drop (registry : PendingCarriers) (g : TokenGuard) : PendingCarriers :=
  delete (token g) registry.

(** ** Facts *)

Definition live (p : CarrierPool) : list Carrier :=
  filter (fun c => alive c = true) (pool_carriers p).

Lemma live_pick p : live (pick p).2 = live p.
Proof.
  unfold live, pick. destruct (Nat.eqb _ 0); cbn [snd pool_carriers];
    rewrite list_filter_filter; apply list_filter_iff; naive_solver.
Qed.

(** [k] picks in a row. *)
Fixpoint picks (k : nat) (p : CarrierPool) : list (option Opener) * CarrierPool :=
  match k with
  | O => ([], p)
  | S k' => let '(o, p1) := pick p in let '(os, p2) := picks k' p1 in (o :: os, p2)
  end.

Lemma pick_live p :
  live p <> [] ->
  (pick p).1 = opener <$> live p !! (N.to_nat (pool_next p mod nlen (live p))) /\
  pool_next (pick p).2 = ((pool_next p + 1) mod 2 ^ 64)%N.
Proof.
  intros Hl. unfold pick. fold (live p). destruct (live p); [done|]. done.
Qed.

(** The picks walk round the live carriers from [next] on. *)
Lemma picks_rotate k p :
  live p <> [] -> (pool_next p + N.of_nat k < 2 ^ 64)%N ->
  (picks k p).1 =
    (fun i => opener <$> live p !! ((N.to_nat (pool_next p) + i) mod length (live p))) <$> seq 0 k.
Proof.
  revert p; induction k as [|k IH]; intros p Hl Hn; [done|].
  cbn [picks seq fmap list_fmap].
  destruct (pick_live p Hl) as [E1 E2]. pose proof (live_pick p) as E3.
  destruct (pick p) as [o p1] eqn:Ep. cbn [fst snd] in *.
  specialize (IH p1). destruct (picks k p1) as [os p2] eqn:Eq. cbn [fst snd] in *.
  assert (Hlen : length (live p) <> 0) by (by destruct (live p)).
  rewrite N.mod_small in E2 by lia.
  rewrite IH by (rewrite ?E3, ?E2; done || lia). rewrite E1, E3, E2. f_equal.
  - do 3 f_equal. rewrite Nat.add_0_r, N2Nat.inj_mod. unfold nlen. by rewrite Nat2N.id.
  - rewrite <- seq_shift, <- list_fmap_compose. apply list_fmap_ext. intros i x _.
    simpl. do 3 f_equal. rewrite N2Nat.inj_add. lia.
Qed.
End Pool.
Arguments Carrier : clear implicits.
Arguments CarrierPool : clear implicits.
Arguments PendingCarriers : clear implicits.
