(* ===== verification/Shared.v ===== *)
(** * Shared utilities ([crates/rb-transport/src/shared.rs])

    Sizes with a unit suffix, and the proxy buffer size read once from the
    environment. *)

From S2P Require Import Prelude Text.

Definition DEFAULT_PROXY_BUFFER_SIZE : N := 256 * 1024.
Definition MIN_PROXY_BUFFER_SIZE : N := 4 * 1024.
Definition MAX_PROXY_BUFFER_SIZE : N := 16 * 1024 * 1024.

(** The longest prefix of ASCII digits, and the rest. *)
Fixpoint split_digits (s : string) : string * string :=
  match s with
  | EmptyString => (EmptyString, EmptyString)
  | String a s' =>
      match digit a with
      | Some _ => let '(n, r) := split_digits s' in (String a n, r)
      | None => (EmptyString, s)
      end
  end.

Definition suffix_multiplier (suffix : string) : option N :=
  if decide (suffix = "" \/ suffix = "b") then Some 1%N
  else if decide (suffix = "k" \/ suffix = "kb") then Some 1000%N
  else if decide (suffix = "m" \/ suffix = "mb") then Some 1000000%N
  else if decide (suffix = "g" \/ suffix = "gb") then Some 1000000000%N
  else if decide (suffix = "ki" \/ suffix = "kib") then Some 1024%N
  else if decide (suffix = "mi" \/ suffix = "mib") then Some (1024 * 1024)%N
  else if decide (suffix = "gi" \/ suffix = "gib") then Some (1024 * 1024 * 1024)%N
  else None.

(** [u64::checked_mul]. *)
Definition checked_mul (a b : N) : option N :=
  if (a * b <=? u64_max)%N then Some (a * b)%N else None.

Definition parse_size_bytes (value : string) : option N :=
  let trimmed := trim value in
  if String.eqb trimmed "" then None
  else
    let '(number, suffix) := split_digits trimmed in
    match parse_unsigned u64_max number with
    | Some b =>
        match suffix_multiplier (to_ascii_lowercase (trim suffix)) with
        | Some multiplier => checked_mul b multiplier
        | None => None
        end
    | None => None
    end.

(** [Ord::clamp] ([lo <= hi]). *)
Definition clamp (x lo hi : N) : N := N.min (N.max x lo) hi.

(** [size] is the [OnceLock]: the first call fixes the answer.  [var] is the
    environment variable, absent when [None]. *)
Definition proxy_buffer_size (size : option N) (var : option string) : N * option N :=
  match size with
  | Some n => (n, size)
  | None =>
      let n := match var with
               | Some raw =>
                   match parse_size_bytes raw with
                   | Some b => clamp b MIN_PROXY_BUFFER_SIZE MAX_PROXY_BUFFER_SIZE
                   | None => DEFAULT_PROXY_BUFFER_SIZE
                   end
               | None => DEFAULT_PROXY_BUFFER_SIZE
               end in
      (n, Some n)
  end.

(** ** Facts *)

Lemma split_digits_app s t :
  all_digits s = true ->
  match t with EmptyString => True | String a _ => digit a = None end ->
  split_digits (s +:+ t) = (s, t).
Proof.
  intros Hs Ht. induction s as [|a s IH]; simpl in *.
  - destruct t as [|b t]; [done|]. simpl. by rewrite Ht.
  - destruct (digit a); [|done]. by rewrite IH.
Qed.

Lemma split_digits_number s : all_digits (split_digits s).1 = true.
Proof.
  induction s as [|a s IH]; simpl; [done|].
  destruct (digit a) as [d|] eqn:E; [|done]. destruct (split_digits s). simpl in *. by rewrite E.
Qed.

Lemma checked_mul_bound a b n : checked_mul a b = Some n -> (n < 2 ^ 64)%N /\ n = (a * b)%N.
Proof.
  unfold checked_mul. destruct (N.leb_spec (a * b) u64_max); [|done].
  intros [= <-]. unfold u64_max in *. lia.
Qed.

(** A string without surrounding white space is its own trim. *)
Definition trimmed (s : string) : bool := String.eqb (trim s) s.
