(* ===== verification/Reconnect.v ===== *)
(** * Reconnection ([crates/rb-transport/src/reconnect.rs])

    Capped exponential backoff and the loop around it. *)

From S2P Require Import Prelude Proto.

Definition DEFAULT_INITIAL_BACKOFF_SECS : N := 1.
Definition DEFAULT_MAX_BACKOFF_SECS : N := 32.

Record Backoff : Type := {
  next_secs : N;      (* u64 *)
  max_secs : N;
  initial_secs : N;
}.

Definition new_with (initial_secs max_secs : N) : Backoff := {|
  next_secs := N.min initial_secs max_secs;
  max_secs := max_secs;
  initial_secs := initial_secs;
|}.

Definition Backoff_new : Backoff :=
  new_with DEFAULT_INITIAL_BACKOFF_SECS DEFAULT_MAX_BACKOFF_SECS.

Definition Backoff_default : Backoff := Backoff_new.

Definition peek (self : Backoff) : N := next_secs self.

(** [u64::saturating_mul]. *)
Definition saturating_mul (a b : N) : N := N.min (a * b) u64_max.

Definition next_delay (self : Backoff) : N * Backoff :=
  let delay := next_secs self in
  (delay, {| next_secs := N.min (saturating_mul (next_secs self) 2) (max_secs self);
             max_secs := max_secs self; initial_secs := initial_secs self |}).

Definition reset (self : Backoff) : Backoff :=
  {| next_secs := initial_secs self;
     max_secs := max_secs self; initial_secs := initial_secs self |}.

(** The closures and the timer [run] awaits; the closures return ([inr]) or fail
    ([inl]). *)
Inductive reconnect_op {Handle : Type} : Type :=
| DoConnect
| DoServe (handle : Handle)
| Sleep (secs : N).
Arguments reconnect_op : clear implicits.

Definition reconnect_sig (Handle : Type) : sig :=
  Sig (reconnect_op Handle) (fun o =>
    match o with
    | DoConnect => (anyhow + Handle)%type
    | DoServe _ => (anyhow + unit)%type
    | Sleep _ => unit
    end).

Section Run.
Context {Handle : Type}.

Abbreviation rs := (reconnect_sig Handle).

(** The [loop], [fuel] turns of it; it has no exit, so a run that reaches the
    end of its fuel yields the backoff state it would go on with. *)
Fixpoint reconnect_loop (fuel : nat) (backoff : Backoff) : prog rs Backoff :=
  match fuel with
  | O => Ret backoff
  | S fuel' =>
      let! c := trigger (S := rs) DoConnect in
      let! b := (match c with
                 | inr handle =>
                     let! _ := trigger (S := rs) (DoServe handle) in
                     Ret (reset backoff)
                 | inl _ => Ret backoff
                 end) in
      let '(delay, b) := next_delay b in
      let! _ := trigger (S := rs) (Sleep delay) in
      reconnect_loop fuel' b
  end.

(** [None]: still reconnecting. *)
Definition reconnect_run (fuel : nat) (auto_reconnect : bool) : prog rs (option (ares unit)) :=
  if auto_reconnect then
    let! _ := reconnect_loop fuel Backoff_new in
    Ret None
  else
    let! c := trigger (S := rs) DoConnect in
    match c with
    | inr handle =>
        let! r := trigger (S := rs) (DoServe handle) in
        Ret (Some (match r with inr _ => Ok tt | inl e => Err e end))
    | inl e => Ret (Some (Err e))
    end.
End Run.

(** ** Facts *)

(** [k] delays in a row. *)
Fixpoint delays (k : nat) (b : Backoff) : list N * Backoff :=
  match k with
  | O => ([], b)
  | S k' => let '(d, b1) := next_delay b in let '(ds, b2) := delays k' b1 in (d :: ds, b2)
  end.

Lemma delays_spec k b :
  (next_secs b <= max_secs b)%N -> (max_secs b <= u64_max)%N ->
  (delays k b).1 = (fun i => N.min (next_secs b * 2 ^ N.of_nat i) (max_secs b)) <$> seq 0 k.
Proof.
  revert b; induction k as [|k IH]; intros b Hb Hm; [done|].
  cbn [delays next_delay seq fmap list_fmap].
  set (b1 := {| next_secs := _ |}). specialize (IH b1).
  destruct (delays k b1) as [ds b2]. cbn [fst] in *. f_equal; [rewrite N.pow_0_r; lia|].
  rewrite IH; [|subst b1; simpl; lia|done]. rewrite <- seq_shift, <- list_fmap_compose.
  apply list_fmap_ext. intros i x _. subst b1. cbn [next_secs max_secs]. simpl.
  rewrite Nat2N.inj_succ, N.pow_succ_r'. unfold saturating_mul.
  set (e := (2 ^ N.of_nat x)%N). assert (1 <= e)%N.
  { unfold e. pose proof (N.pow_nonzero 2 (N.of_nat x)). lia. }
  destruct (N.le_gt_cases (next_secs b * 2) u64_max) as [Hle|Hgt].
  - rewrite (N.min_l (next_secs b * 2)) by done.
    destruct (N.le_gt_cases (next_secs b * 2) (max_secs b)).
    + rewrite (N.min_l (next_secs b * 2)) by done. f_equal. lia.
    + rewrite (N.min_r (next_secs b * 2)) by lia. rewrite !N.min_r; nia.
  - rewrite (N.min_r (next_secs b * 2)) by lia. rewrite (N.min_r u64_max) by lia.
    rewrite !N.min_r; nia.
Qed.
