(* ===== verification/Prefixed.v ===== *)
(** * A stream with a replayed prefix ([crates/rb-transport/src/prefixed.rs])

    The poll functions of a wrapper that hands out already-read bytes before it
    reads from the stream inside. *)

From S2P Require Import Prelude Streams.

(** [std::task::Poll]. *)
Inductive Poll (A : Type) : Type := Ready (a : A) | Pending.
Arguments Ready {A} a.
Arguments Pending {A}.

(** The methods of [AsyncRead] and [AsyncWrite] a wrapper forwards; the read
    answers with the bytes put in the caller's buffer of [n] free bytes. *)
Record AsyncStream (S : Type) : Type := {
  poll_read : S -> N -> Poll (result io_error bytes) * S;
  poll_write : S -> bytes -> Poll (result io_error N) * S;
  poll_flush : S -> Poll (result io_error unit) * S;
  poll_shutdown : S -> Poll (result io_error unit) * S;
  poll_write_vectored : S -> list bytes -> Poll (result io_error N) * S;
  is_write_vectored : S -> bool;
}.
Arguments poll_read {S}. Arguments poll_write {S}. Arguments poll_flush {S}.
Arguments poll_shutdown {S}. Arguments poll_write_vectored {S}. Arguments is_write_vectored {S}.

Record Prefixed (S : Type) : Type := { prefix : bytes; pos : nat; inner : S }.
Arguments prefix {S}. Arguments pos {S}. Arguments inner {S}.

Section Prefixed.
Context {S : Type} (A : AsyncStream S).

Definition Prefixed_new (prefix : bytes) (inner : S) : Prefixed S :=
  {| prefix := prefix; pos := 0; inner := inner |}.

Definition with_inner (this : Prefixed S) (s : S) : Prefixed S :=
  {| prefix := prefix this; pos := pos this; inner := s |}.

Definition prefixed_read (this : Prefixed S) (n : N) : Poll (result io_error bytes) * Prefixed S :=
  if decide (pos this < length (prefix this)) then
    let remaining := drop (pos this) (prefix this) in
    let k := length remaining `min` N.to_nat n in
    (Ready (Ok (take k remaining)),
     {| prefix := prefix this; pos := pos this + k; inner := inner this |})
  else
    let '(r, s) := poll_read A (inner this) n in (r, with_inner this s).

Definition prefixed_write (this : Prefixed S) (buf : bytes) : Poll (result io_error N) * Prefixed S :=
  let '(r, s) := poll_write A (inner this) buf in (r, with_inner this s).

Definition prefixed_flush (this : Prefixed S) : Poll (result io_error unit) * Prefixed S :=
  let '(r, s) := poll_flush A (inner this) in (r, with_inner this s).

Definition prefixed_shutdown (this : Prefixed S) : Poll (result io_error unit) * Prefixed S :=
  let '(r, s) := poll_shutdown A (inner this) in (r, with_inner this s).

Definition prefixed_write_vectored (this : Prefixed S) (bufs : list bytes) :
  Poll (result io_error N) * Prefixed S :=
  let '(r, s) := poll_write_vectored A (inner this) bufs in (r, with_inner this s).

Definition prefixed_is_write_vectored (this : Prefixed S) : bool :=
  is_write_vectored A (inner this).

Definition prefixed_stream : AsyncStream (Prefixed S) := {|
  poll_read := prefixed_read;
  poll_write := prefixed_write;
  poll_flush := prefixed_flush;
  poll_shutdown := prefixed_shutdown;
  poll_write_vectored := prefixed_write_vectored;
  is_write_vectored := prefixed_is_write_vectored;
|}.
End Prefixed.

(** ** Reading to the end

    The bytes a sequence of reads of the given sizes obtains ([Pending] and
    errors obtain none). *)
Fixpoint reads {S} (A : AsyncStream S) (ns : list N) (s : S) : bytes * S :=
  match ns with
  | [] => ([], s)
  | n :: ns' =>
      let '(r, s1) := poll_read A s n in
      let '(out, s2) := reads A ns' s1 in
      (match r with Ready (Ok bs) => bs | _ => [] end ++ out, s2)
  end.

(** Reads on the bare inner stream that are left when the prefix is used up:
    the sizes of the reads that reach it. *)
Fixpoint sizes_left (k : nat) (ns : list N) : list N :=
  match ns with
  | [] => []
  | n :: ns' =>
      if decide (0 < k) then sizes_left (k - N.to_nat n) ns' else ns
  end.

Lemma sizes_left_0 ns : sizes_left 0 ns = ns.
Proof. by destruct ns. Qed.

Lemma take_min_app {A} n m (l : list A) :
  take (length l `min` n) l ++ take m (drop (length l `min` n) l) = take (n + m) l.
Proof.
  rewrite take_take_drop. destruct (Nat.le_gt_cases n (length l)).
  - by rewrite Nat.min_r by lia.
  - rewrite Nat.min_l, !take_ge by lia. done.
Qed.

Lemma reads_prefixed {S} (A : AsyncStream S) ns (t : Prefixed S) :
  pos t <= length (prefix t) ->
  let ms := sizes_left (length (prefix t) - pos t) ns in
  (reads (prefixed_stream A) ns t).1 =
    take (N.to_nat (foldr N.add 0%N ns)) (drop (pos t) (prefix t)) ++
      (reads A ms (inner t)).1 /\
  inner (reads (prefixed_stream A) ns t).2 = (reads A ms (inner t)).2.
Proof.
  revert t; induction ns as [|n ns IH]; intros t Hp; cbv zeta; [by rewrite take_0|].
  cbn [sizes_left foldr]. cbn [reads].
  change (poll_read (prefixed_stream A) t n) with (prefixed_read A t n).
  unfold prefixed_read. rewrite N2Nat.inj_add.
  destruct (decide (pos t < length (prefix t))) as [Hl|Hl].
  - rewrite decide_True by lia. set (k := _ `min` _).
    set (t1 := {| prefix := prefix t; pos := pos t + k; inner := inner t |}).
    assert (Hk : k = (length (prefix t) - pos t) `min` N.to_nat n)
      by (unfold k; by rewrite length_drop).
    destruct (IH t1) as [E1 E2]; [subst t1; simpl; lia|]. cbn [pos prefix inner t1] in E1, E2.
    replace (length (prefix t) - (pos t + k)) with (length (prefix t) - pos t - N.to_nat n)
      in E1, E2 by lia.
    destruct (reads _ ns t1) as [out s2]. cbn [fst snd] in *. split; [|done].
    rewrite E1, app_assoc. f_equal. rewrite <- drop_drop. apply take_min_app.
  - rewrite decide_False by lia. rewrite (drop_ge (prefix t)) by lia. rewrite take_nil.
    cbn [reads]. destruct (poll_read A (inner t) n) as [r s1].
    destruct (IH (with_inner t s1)) as [E1 E2]; [done|].
    cbn [pos prefix inner with_inner] in E1, E2.
    replace (length (prefix t) - pos t) with 0 in E1, E2 by lia.
    rewrite sizes_left_0, (drop_ge (prefix t)), take_nil in * by lia.
    destruct (reads (prefixed_stream A) ns (with_inner t s1)) as [out s2].
    destruct (reads A ns s1) as [out' s2']. cbn [fst snd] in *. by subst.
Qed.
