(* ===== verification/Transport.v ===== *)
(** * Endpoints and connections ([crates/rb-transport/src/transport.rs])

    Parsing of the coordination server's address, the connection set-up as a
    program over the network operations it awaits, and the stream that is either
    a plain or a TLS one.  [rustls], [tokio] and the resolver are not part of the
    repository. *)

From S2P Require Import Prelude Streams Proto Text Prefixed.
From Stdlib Require Import Strings.Ascii.

Definition CONTROL_PORT : N := 7835.
(** In seconds. *)
Definition NETWORK_TIMEOUT : N := 3.

Record Endpoint : Type := {
  host : string;
  port : N;    (* u16 *)
  tls : bool;
}.

Definition parse (to : string) : Endpoint :=
  let '(tls, default_port, rest) :=
    match strip_prefix "https://" to with
    | Some rest => (true, 443%N, rest)
    | None =>
        match strip_prefix "http://" to with
        | Some rest => (false, 80%N, rest)
        | None => (false, CONTROL_PORT, to)
        end
    end in
  let authority := split_first "/"%char rest in
  let '(host, port) :=
    match rsplit_once ":"%char authority with
    | Some (host, port) =>
        if String.eqb host "" then (authority, default_port)
        else match parse_unsigned u16_max port with
             | Some port => (host, port)
             | None => (authority, default_port)
             end
    | None => (authority, default_port)
    end in
  {| host := host; port := port; tls := tls |}.

(** ** [ControlStream] *)

Inductive ControlStream (P T : Type) : Type :=
| Plain (s : P)
| Tls (s : T).
Arguments Plain {P T} s.
Arguments Tls {P T} s.

Section ControlStream.
Context {P T : Type} (AP : AsyncStream P) (AT : AsyncStream T).

(** Every method goes to the stream inside. *)
Definition dispatch {R} (f : P -> R * P) (g : T -> R * T) (s : ControlStream P T) :
  R * ControlStream P T :=
  match s with
  | Plain s => let '(r, s) := f s in (r, Plain s)
  | Tls s => let '(r, s) := g s in (r, Tls s)
  end.

Definition control_stream : AsyncStream (ControlStream P T) := {|
  poll_read := fun s n => dispatch (fun s => poll_read AP s n) (fun s => poll_read AT s n) s;
  poll_write := fun s b => dispatch (fun s => poll_write AP s b) (fun s => poll_write AT s b) s;
  poll_flush := dispatch (poll_flush AP) (poll_flush AT);
  poll_shutdown := dispatch (poll_shutdown AP) (poll_shutdown AT);
  poll_write_vectored := fun s b =>
    dispatch (fun s => poll_write_vectored AP s b) (fun s => poll_write_vectored AT s b) s;
  is_write_vectored := fun s =>
    match s with Plain s => is_write_vectored AP s | Tls s => is_write_vectored AT s end;
|}.
End ControlStream.

(** ** TLS settings *)

Inductive SignatureScheme : Type := RSA_PKCS1_SHA256 | ECDSA_NISTP256_SHA256 | ED25519.

(** How a client decides about the server's certificate: against the bundled
    roots, or by the verifier of the [--insecure] flag, which asserts all of it. *)
Inductive Verifier : Type :=
| WebPkiRoots
| InsecureVerifier.

Record ClientConfig : Type := {
  verifier : Verifier;
  client_auth : bool;
}.

Definition default_client_config : ClientConfig :=
  {| verifier := WebPkiRoots; client_auth := false |}.

Definition insecure_client_config : ClientConfig :=
  {| verifier := InsecureVerifier; client_auth := false |}.

(** The verifier's methods, [webpki] being the crate's own check. *)
Definition verify_server_cert {C} (webpki : C -> result string unit) (v : Verifier) (cert : C) :
  result string unit :=
  match v with
  | WebPkiRoots => webpki cert
  | InsecureVerifier => Ok tt
  end.

Definition supported_verify_schemes : list SignatureScheme :=
  [RSA_PKCS1_SHA256; ECDSA_NISTP256_SHA256; ED25519].

(** ** Connecting

    The awaits on the network.  [TcpConnect] is one [TcpStream::connect] under a
    timeout of so many seconds, [TlsConnect] the TLS handshake on that stream,
    [OpenControl] the [open] of the multiplexer's control substream; what follows
    on the byte stream of the program is that substream. *)

Inductive net_op : Type :=
| TcpConnect (secs : N) (host : string) (port : N)
| TlsConnect (cfg : ClientConfig) (server_name : string)
| OpenControl.

Definition net_sig : sig :=
  Sig net_op (fun o =>
    match o with
    | TcpConnect _ _ _ => timed (result io_error unit)
    | _ => result io_error unit
    end).

(** [ServerName::try_from]. *)
Class ServerNames := server_name_try_from : string -> result string string.

(** [anyhow]'s [context] on an error. *)
Definition context {A} (msg : string) (r : ares A) : ares A :=
  map_err (fun e => AnyContext msg e) r.

Section Connect.
Context `{ServerNames} {L : sig}.

Abbreviation cl := (stream_sig ⊕ (net_sig ⊕ L)).

Definition net_await (o : net_op) : prog cl (resp (s := net_sig) o) :=
  Op (S := cl) (inr (inl o)) Ret.

Definition connect_with_timeout (host : string) (port : N) : prog cl (ares unit) :=
  let! r := net_await (TcpConnect NETWORK_TIMEOUT host port) in
  Ret (match r with
       | Elapsed => Err (AnyContext "connection timeout" (AnyMsg "deadline has elapsed"))
       | InTime r => context "failed to connect" (map_err AnyIo r)
       end).

Definition connect (endpoint : Endpoint) (insecure : bool) :
  prog cl (ares (ControlStream unit unit)) :=
  let? tcp := connect_with_timeout (host endpoint) (port endpoint) in
  if negb (tls endpoint) then Ret (Ok (Plain tcp))
  else
    let cfg := if insecure then insecure_client_config else default_client_config in
    let? server_name := Ret (context "invalid server name"
                               (map_err AnyMsg (server_name_try_from (host endpoint)))) in
    let! r := net_await (TlsConnect cfg server_name) in
    let? tls_stream := Ret (context "tls handshake failed" (map_err AnyIo r)) in
    Ret (Ok (Tls tls_stream)).
End Connect.

(** ** Facts *)

Lemma parse_dec_not_digit max acc c s t :
  digit c = None -> parse_dec max acc (s +:+ String c t) = None.
Proof.
  intros Hc. revert acc; induction s as [|a s IH]; intros acc; simpl; [by rewrite Hc|].
  destruct (digit a); [|done]. by destruct (_ <? _)%N.
Qed.
