(* ===== verification/Mux.v ===== *)
(** * The multiplexer driver ([crates/rb-transport/src/mux.rs])

    One task owns the yamux connection; openers send it requests and it hands
    inbound streams to the acceptor.  [yamux] and the [tokio] channels are not
    part of the repository: what the task polls and sends are operations.  Then
    the task, the calls of openers and the acceptor as a transition system over the
    bounded channels between them: a step is one operation of one of them. *)

From S2P Require Import Prelude Streams Prefixed.

Definition MAX_NUM_STREAMS : N := 2 ^ 16.

(** [yamux::Config], the two settings the code changes. *)
Record MuxConfig : Type := {
  max_connection_receive_window : option N;
  max_num_streams : N;
}.

Definition config : MuxConfig :=
  {| max_connection_receive_window := None; max_num_streams := MAX_NUM_STREAMS |}.

Definition disconnected : io_error := IoError NotConnected "multiplexer connection closed".

Section Mux.
(** A stream of the connection, and the reply slot of a request. *)
Context {Stream Reply : Type}.

(** ** [Opener::open] *)

Inductive opener_op : Type :=
| SendRequest          (* requests.send(tx).await: did the driver take it? *)
| AwaitReply.          (* rx.await: the reply, or none when its slot was dropped *)

Definition opener_sig : sig :=
  Sig opener_op (fun o =>
    match o with SendRequest => bool | AwaitReply => option (result io_error Stream) end).

Definition opener_open : prog opener_sig (result io_error Stream) :=
  let! sent := trigger (S := opener_sig) SendRequest in
  if sent then
    let! r := trigger (S := opener_sig) AwaitReply in
    Ret (match r with Some r => r | None => Err disconnected end)
  else Ret (Err disconnected).

(** ** [drive] *)

Inductive drive_op : Type :=
| PollRecv
| PollNewOutbound
| PollNextInbound
| Park                                                 (* the poll was [Pending] *)
| SendReply (to : Reply) (r : result io_error Stream)
| SendInbound (s : Stream)
| PollClose.

Definition drive_sig : sig :=
  Sig drive_op (fun o =>
    match o with
    | PollRecv => Poll (option Reply)
    | PollNewOutbound => Poll (result string Stream)
    | PollNextInbound => Poll (option (result string Stream))
    | _ => unit
    end).

Inductive Step : Type :=
| Inbound (s : Stream)
| Opened (r : result string Stream)
| StepDone.

Record driver : Type := { pending : option Reply; openers_gone : bool }.

Definition driver0 : driver := {| pending := None; openers_gone := false |}.

Abbreviation dr := (prog drive_sig).

Definition poll {A} (o : drive_op) (k : resp (s := drive_sig) o -> dr A) : dr A :=
  Op (S := drive_sig) o k.

(** The closure given to [poll_fn]. *)
Definition drive_poll (st : driver) : dr (Poll Step * driver) :=
  let! st :=
    (if negb (bool_decide (is_Some (pending st))) && negb (openers_gone st) then
       poll PollRecv (fun r =>
         Ret (match r with
              | Ready (Some reply) => {| pending := Some reply; openers_gone := openers_gone st |}
              | Ready None => {| pending := pending st; openers_gone := true |}
              | Pending => st
              end))
     else Ret st) in
  let! opened :=
    (if bool_decide (is_Some (pending st)) then
       poll PollNewOutbound (fun r =>
         Ret (match r with Ready result => Some result | Pending => None end))
     else Ret None) in
  match opened with
  | Some result => Ret (Ready (Opened result), st)
  | None =>
      poll PollNextInbound (fun r =>
        Ret (match r with
             | Ready (Some (Ok s)) => (Ready (Inbound s), st)
             | Ready _ => (Ready StepDone, st)
             | Pending => (Pending, st)
             end))
  end.

(** [io::Error::other]. *)
Definition io_other (msg : string) : io_error := IoError (OtherKind "Other") msg.

(** [fuel] polls of the loop; [true]: the connection ended and was closed. *)
Fixpoint drive (fuel : nat) (st : driver) : dr (bool * driver) :=
  match fuel with
  | O => Ret (false, st)
  | S fuel' =>
      let! (step, st) := drive_poll st in
      match step with
      | Pending => poll Park (fun _ => drive fuel' st)
      | Ready (Opened result) =>
          match pending st with
          | Some reply =>
              poll (SendReply reply (map_err io_other result)) (fun _ =>
                drive fuel' {| pending := None; openers_gone := openers_gone st |})
          | None => drive fuel' st
          end
      | Ready (Inbound s) => poll (SendInbound s) (fun _ => drive fuel' st)
      | Ready StepDone => poll PollClose (fun _ => Ret (true, st))
      end
  end.

(** ** Facts

    The requests taken from the queue and the replies sent, in order, while the
    driver runs against [h]. *)

Record mux_log : Type := { taken_reqs : list Reply; answered : list Reply }.

Definition log_step (o : drive_op) : resp (s := drive_sig) o -> mux_log -> mux_log :=
  match o with
  | PollRecv => fun r l =>
      match r with
      | Ready (Some q) => {| taken_reqs := taken_reqs l ++ [q]; answered := answered l |}
      | _ => l
      end
  | SendReply q _ => fun _ l => {| taken_reqs := taken_reqs l; answered := answered l ++ [q] |}
  | _ => fun _ l => l
  end.

Definition mux_logged {SS} (h : handler drive_sig SS) : handler drive_sig (SS * mux_log) :=
  fun o st => ((h o st.1).1, ((h o st.1).2, log_step o (h o st.1).1 st.2)).

(** Every request taken was answered, once and in order, but for the pending one. *)
Definition accounted (st : driver) (l : mux_log) : Prop :=
  taken_reqs l = answered l ++ option_list (pending st).

Lemma drive_poll_accounted {SS} (h : handler drive_sig SS) st s l :
  accounted st l ->
  let r := run (mux_logged h) (drive_poll st) (s, l) in
  accounted r.1.2 r.2.2 /\ answered r.2.2 = answered l /\
  (forall x, r.1.1 = Ready (Opened x) -> is_Some (pending r.1.2)) /\
  (openers_gone st = true -> openers_gone r.1.2 = true).
Proof.
  unfold accounted. intros Hl. unfold drive_poll. cbv zeta.
  destruct st as [[q|] gone]; simpl.
  - destruct (h PollNewOutbound s) as [[x|] s1]; simpl; [by eauto|].
    destruct (h PollNextInbound s1) as [[[[]|]|] s2]; simpl; by eauto.
  - destruct gone; simpl.
    + destruct (h PollNextInbound s) as [[[[]|]|] s2]; simpl; by eauto.
    + destruct (h PollRecv s) as [[[q|]|] s1]; simpl.
      * rewrite app_nil_r in Hl. rewrite Hl.
        destruct (h PollNewOutbound s1) as [[x|] s2]; simpl; [by eauto|].
        destruct (h PollNextInbound s2) as [[[[]|]|] s3]; simpl; by eauto.
      * destruct (h PollNextInbound s1) as [[[[]|]|] s3]; simpl; by eauto.
      * destruct (h PollNextInbound s1) as [[[[]|]|] s3]; simpl; by eauto.
Qed.
End Mux.
Arguments drive_op : clear implicits.
Arguments drive_sig : clear implicits.
Arguments driver : clear implicits.

(** ** The driver, its openers and its acceptor

    The task of the driver, the calls of [Opener::open] and the acceptor over the
    two bounded channels; the connection answers in any way.  A call has its own
    reply slot, by the number of the call. *)

(** The capacity of both channels. *)
Definition CHANNEL_CAPACITY : nat := 32.

Inductive slot : Type :=
| Waiting
| Answered (r : result io_error nat)
| Dropped.                                   (* its sender was dropped *)

Record mux_system : Type := {
  drive_task : prog (drive_sig nat nat) (bool * driver nat);
  driver_ended : bool;
  handles : bool;                            (* whether an [Opener] is left *)
  requests : list nat;
  calls : list (prog (opener_sig (Stream := nat)) (result io_error nat));
  slots : list slot;
  inbound : list nat;
  acceptor : bool;
  accepted : list nat;
  next_stream : nat;
}.

(** [client] and [server], the driver bounded by [fuel] polls. *)
Definition spawn_driver (fuel : nat) : mux_system :=
  {| drive_task := drive fuel driver0; driver_ended := false; handles := true; requests := [];
     calls := []; slots := []; inbound := []; acceptor := true; accepted := []; next_stream := 0 |}.

Definition with_drive (s : mux_system) (p : prog (drive_sig nat nat) (bool * driver nat)) : mux_system :=
  {| drive_task := p; driver_ended := driver_ended s; handles := handles s; requests := requests s;
     calls := calls s; slots := slots s; inbound := inbound s; acceptor := acceptor s;
     accepted := accepted s; next_stream := next_stream s |}.
Definition with_requests (s : mux_system) (q : list nat) : mux_system :=
  {| drive_task := drive_task s; driver_ended := driver_ended s; handles := handles s; requests := q;
     calls := calls s; slots := slots s; inbound := inbound s; acceptor := acceptor s;
     accepted := accepted s; next_stream := next_stream s |}.
Definition with_calls (s : mux_system) cs sl : mux_system :=
  {| drive_task := drive_task s; driver_ended := driver_ended s; handles := handles s;
     requests := requests s; calls := cs; slots := sl; inbound := inbound s; acceptor := acceptor s;
     accepted := accepted s; next_stream := next_stream s |}.
Definition with_handles (s : mux_system) (b : bool) : mux_system :=
  {| drive_task := drive_task s; driver_ended := driver_ended s; handles := b;
     requests := requests s; calls := calls s; slots := slots s; inbound := inbound s;
     acceptor := acceptor s; accepted := accepted s; next_stream := next_stream s |}.
Definition with_inbound (s : mux_system) (i : list nat) (a : bool) (acc : list nat) : mux_system :=
  {| drive_task := drive_task s; driver_ended := driver_ended s; handles := handles s;
     requests := requests s; calls := calls s; slots := slots s; inbound := i; acceptor := a;
     accepted := acc; next_stream := next_stream s |}.
Definition with_next (s : mux_system) : mux_system :=
  {| drive_task := drive_task s; driver_ended := driver_ended s; handles := handles s;
     requests := requests s; calls := calls s; slots := slots s; inbound := inbound s;
     acceptor := acceptor s; accepted := accepted s; next_stream := S (next_stream s) |}.

(** The end of the task: the receiver of requests, with what is queued, and a
    request in service are dropped. *)
Definition drop_slot (sl : list slot) (i : nat) : list slot :=
  match sl !! i with Some Waiting => <[i := Dropped]> sl | _ => sl end.
Definition end_driver (s : mux_system) (p : prog (drive_sig nat nat) (bool * driver nat)) : mux_system :=
  let held := match p with Ret (_, st) => option_list (pending st) | _ => [] end in
  {| drive_task := p; driver_ended := true; handles := handles s; requests := [];
     calls := calls s; slots := foldl drop_slot (slots s) (requests s ++ held); inbound := inbound s;
     acceptor := acceptor s; accepted := accepted s; next_stream := next_stream s |}.

(** An operation of the driver, its answer and what it does to the channels. *)
Inductive drive_step (s : mux_system) :
  forall o : drive_op nat nat, resp (s := drive_sig nat nat) o -> mux_system -> Prop :=
| drive_recv q rest : requests s = q :: rest ->
    drive_step s PollRecv (Ready (Some q)) (with_requests s rest)
| drive_recv_empty : requests s = [] -> handles s = true -> drive_step s PollRecv Pending s
| drive_recv_gone : requests s = [] -> handles s = false -> drive_step s PollRecv (Ready None) s
| drive_outbound_pending : drive_step s PollNewOutbound Pending s
| drive_outbound_failed e : drive_step s PollNewOutbound (Ready (Err e)) s
| drive_outbound : drive_step s PollNewOutbound (Ready (Ok (next_stream s))) (with_next s)
| drive_inbound_pending : drive_step s PollNextInbound Pending s
| drive_inbound_end r : r = None \/ (exists e, r = Some (Err e)) -> drive_step s PollNextInbound (Ready r) s
| drive_inbound : drive_step s PollNextInbound (Ready (Some (Ok (next_stream s)))) (with_next s)
| drive_park : drive_step s Park tt s
| drive_reply i r : slots s !! i = Some Waiting ->
    drive_step s (SendReply i r) tt (with_calls s (calls s) (<[i := Answered r]> (slots s)))
| drive_send x : acceptor s = true -> length (inbound s) < CHANNEL_CAPACITY ->
    drive_step s (SendInbound x) tt (with_inbound s (inbound s ++ [x]) true (accepted s))
| drive_send_gone x : acceptor s = false -> drive_step s (SendInbound x) tt s.

Inductive mux_step (s : mux_system) : mux_system -> Prop :=
| step_drive o k r s' : driver_ended s = false -> drive_task s = Op o k -> drive_step s o r s' ->
    mux_step s (with_drive s' (k r))
| step_close k : driver_ended s = false -> drive_task s = Op (S := drive_sig nat nat) PollClose k ->
    mux_step s (end_driver s (k tt))
| step_call : handles s = true ->
    mux_step s (with_calls s (calls s ++ [opener_open]) (slots s ++ [Waiting]))
| step_request i k : calls s !! i = Some (Op (S := opener_sig) SendRequest k) ->
    driver_ended s = false -> length (requests s) < CHANNEL_CAPACITY ->
    mux_step s (with_calls (with_requests s (requests s ++ [i])) (<[i := k true]> (calls s)) (slots s))
| step_refused i k : calls s !! i = Some (Op (S := opener_sig) SendRequest k) -> driver_ended s = true ->
    mux_step s (with_calls s (<[i := k false]> (calls s)) (<[i := Dropped]> (slots s)))
| step_answer i k r : calls s !! i = Some (Op (S := opener_sig) AwaitReply k) ->
    slots s !! i = Some (Answered r) ->
    mux_step s (with_calls s (<[i := k (Some r)]> (calls s)) (slots s))
| step_no_answer i k : calls s !! i = Some (Op (S := opener_sig) AwaitReply k) ->
    slots s !! i = Some Dropped ->
    mux_step s (with_calls s (<[i := k None]> (calls s)) (slots s))
| step_drop_handles :
    (forall i k, calls s !! i <> Some (Op (S := opener_sig) SendRequest k)) -> mux_step s (with_handles s false)
| step_accept x rest : inbound s = x :: rest -> acceptor s = true ->
    mux_step s (with_inbound s rest true (accepted s ++ [x]))
| step_drop_acceptor : mux_step s (with_inbound s [] false (accepted s)).

Inductive mux_reached (fuel : nat) : mux_system -> Prop :=
| mux_start : mux_reached fuel (spawn_driver fuel)
| mux_next s s' : mux_reached fuel s -> mux_step s s' -> mux_reached fuel s'.

(** *** What the driver holds

    [holding q p]: the program [p] of the driver has taken the request [q] and not
    answered it; it takes none while it has one, and answers no other. *)
Fixpoint holding (q : option nat) (p : prog (drive_sig nat nat) (bool * driver nat)) : Prop :=
  match p with
  | Ret (_, st) => pending st = q
  | Op o k =>
      match o return (resp (s := drive_sig nat nat) o -> _) -> Prop with
      | PollRecv => fun k =>
          q = None /\ forall r, holding (match r with Ready (Some x) => Some x | _ => None end) (k r)
      | SendReply x _ => fun k => q = Some x /\ holding None (k tt)
      | PollClose => fun k => exists b st, k tt = Ret (b, st) /\ pending st = q
      | _ => fun k => forall r, holding q (k r)
      end k
  end.

Lemma drive_holding fuel st : holding (pending st) (drive fuel st).
Proof.
  revert st. induction fuel as [|fuel IH]; intros st; [done|].
  destruct st as [[q|] gone]; simpl.
  - intros [x|]; simpl; [by split; [|apply (IH {| pending := None; openers_gone := gone |})]|].
    intros [[[x|e|]|]|]; simpl; try (intros []; apply (IH {| pending := (Some q); openers_gone := gone |})); by eexists _, _.
  - destruct gone; simpl.
    + intros [[[x|e|]|]|]; simpl; try (intros []; apply (IH {| pending := None; openers_gone := true |})); by eexists _, _.
    + split; [done|]. intros [[q|]|]; simpl.
      * intros [x|]; simpl; [by split; [|apply (IH {| pending := None; openers_gone := false |})]|].
        intros [[[x|e|]|]|]; simpl; try (intros []; apply (IH {| pending := (Some q); openers_gone := false |})); by eexists _, _.
      * intros [[[x|e|]|]|]; simpl; try (intros []; apply (IH {| pending := None; openers_gone := true |})); by eexists _, _.
      * intros [[[x|e|]|]|]; simpl; try (intros []; apply (IH {| pending := None; openers_gone := false |})); by eexists _, _.
Qed.

(** The streams in flight: the connection gave [x], and it is not handed on yet. *)
Fixpoint carrying (x : option nat) (p : prog (drive_sig nat nat) (bool * driver nat)) : Prop :=
  match p with
  | Ret _ => True
  | Op o k =>
      match o return (resp (s := drive_sig nat nat) o -> _) -> Prop with
      | PollNewOutbound => fun k =>
          x = None /\ forall r, carrying (match r with Ready (Ok y) => Some y | _ => None end) (k r)
      | PollNextInbound => fun k =>
          x = None /\ forall r, carrying (match r with Ready (Some (Ok y)) => Some y | _ => None end) (k r)
      | SendReply _ r => fun k =>
          x = (match r with Ok y => Some y | _ => None end) /\ carrying None (k tt)
      | SendInbound y => fun k => x = Some y /\ carrying None (k tt)
      | _ => fun k => forall r, carrying x (k r)
      end k
  end.

Lemma drive_carrying fuel st : carrying None (drive fuel st).
Proof.
  revert st. induction fuel as [|fuel IH]; intros st; [done|].
  destruct st as [[q|] gone]; simpl.
  - split; [done|]. intros [[y|e|]|]; simpl; [by split; [|apply IH]..|].
    split; [done|]. intros [[[y|e|]|]|]; simpl; try (by intros []); by split; [|apply IH].
  - destruct gone; simpl.
    + split; [done|]. intros [[[y|e|]|]|]; simpl; try (by intros []); by split; [|apply IH].
    + intros [[q|]|]; simpl.
      * split; [done|]. intros [[y|e|]|]; simpl; [by split; [|apply IH]..|].
        split; [done|]. intros [[[y|e|]|]|]; simpl; try (by intros []); by split; [|apply IH].
      * split; [done|]. intros [[[y|e|]|]|]; simpl; try (by intros []); by split; [|apply IH].
      * split; [done|]. intros [[[y|e|]|]|]; simpl; try (by intros []); by split; [|apply IH].
Qed.

(** *** The invariant *)

(** A call that sent its request. *)
Definition await_reply : prog (opener_sig (Stream := nat)) (result io_error nat) :=
  Op (S := opener_sig) AwaitReply
    (fun r => Ret (match r with Some r => r | None => Err disconnected end)).

Definition slot_stream (sl : slot) : option nat := match sl with Answered (Ok x) => Some x | _ => None end.

(** The streams that were handed out. *)
Definition handed (s : mux_system) : list nat := omap slot_stream (slots s) ++ accepted s ++ inbound s.

(** A call, its slot, and what it returned. *)
Definition call_ok (p : prog (opener_sig (Stream := nat)) (result io_error nat)) (sl : slot) : Prop :=
  (p = opener_open /\ sl = Waiting) \/ p = await_reply \/
  exists r, p = Ret r /\ (sl = Answered r \/ (sl = Dropped /\ r = Err disconnected)).

(** The calls that wait for an answer. *)
Definition waiting (s : mux_system) (i : nat) : Prop :=
  calls s !! i = Some await_reply /\ slots s !! i = Some Waiting.

(** Who has the requests of the calls that wait. *)
Definition requests_ok (s : mux_system) : Prop :=
  if driver_ended s then requests s = [] /\ forall i, ~ waiting s i
  else exists q, holding q (drive_task s) /\ NoDup (requests s ++ option_list q) /\
    forall i, i ∈ requests s ++ option_list q <-> waiting s i.

Definition streams_ok (s : mux_system) : Prop :=
  exists x, (driver_ended s = false -> carrying x (drive_task s)) /\
    NoDup (option_list x ++ handed s) /\ Forall (fun y => y < next_stream s) (option_list x ++ handed s).

Definition mux_inv (s : mux_system) : Prop :=
  Forall2 call_ok (calls s) (slots s) /\ requests_ok s /\ streams_ok s /\
  length (requests s) <= CHANNEL_CAPACITY /\ length (inbound s) <= CHANNEL_CAPACITY.

Lemma omap_insert_same (sl : list slot) i x y :
  sl !! i = Some x -> slot_stream x = None -> slot_stream y = None ->
  omap slot_stream (<[i := y]> sl) = omap slot_stream sl.
Proof.
  intros Hi Hx Hy. rewrite (insert_take_drop sl i y) by by eapply lookup_lt_Some.
  rewrite <- (take_drop_middle sl i x Hi) at 3. rewrite !omap_app. simpl. by rewrite Hx, Hy.
Qed.

Lemma omap_insert_stream (sl : list slot) i y :
  sl !! i = Some Waiting ->
  omap slot_stream (<[i := Answered (Ok y)]> sl) ≡ₚ y :: omap slot_stream sl.
Proof.
  intros Hi. rewrite (insert_take_drop sl i _) by by eapply lookup_lt_Some.
  rewrite <- (take_drop_middle sl i Waiting Hi) at 3. rewrite !omap_app. simpl.
  by rewrite <- Permutation_middle.
Qed.

(** Dropping slots: those that waited are dropped, the others stay. *)
Lemma drop_slots_lookup js (sl : list slot) j :
  foldl drop_slot sl js !! j =
    (fun x => match x with Waiting => if bool_decide (j ∈ js) then Dropped else Waiting | _ => x end) <$> sl !! j.
Proof.
  revert sl. induction js as [|i js IH]; intros sl; simpl.
  { destruct (sl !! j) as [[]|]; simpl; done. }
  rewrite IH. unfold drop_slot. destruct (decide (i = j)) as [->|Hne].
  - destruct (sl !! j) as [[]|] eqn:E; simpl; rewrite ?E; try done.
    rewrite list_lookup_insert_eq by by eapply lookup_lt_Some. simpl.
    rewrite bool_decide_true by set_solver. done.
  - assert (El : match sl !! i with Some Waiting => <[i:=Dropped]> sl | _ => sl end !! j = sl !! j).
    { destruct (sl !! i) as [[]|]; try done. by rewrite list_lookup_insert_ne. }
    rewrite El. destruct (sl !! j) as [[]|]; simpl; try done.
    f_equal. case_bool_decide; case_bool_decide; set_solver.
Qed.

Lemma drop_slots_streams js (sl : list slot) : omap slot_stream (foldl drop_slot sl js) = omap slot_stream sl.
Proof.
  revert sl. induction js as [|i js IH]; intros sl; simpl; [done|]. rewrite IH. unfold drop_slot.
  destruct (sl !! i) as [[]|] eqn:E; try done. by eapply omap_insert_same.
Qed.

Lemma drop_slots_length js (sl : list slot) : length (foldl drop_slot sl js) = length sl.
Proof.
  revert sl. induction js as [|i js IH]; intros sl; simpl; [done|]. rewrite IH. unfold drop_slot.
  destruct (sl !! i) as [[]|]; try done. apply length_insert.
Qed.

Lemma mux_inv_start fuel : mux_inv (spawn_driver fuel).
Proof.
  unfold mux_inv, requests_ok, streams_ok, handed, waiting. simpl. split; [constructor|].
  split; [|split; [|lia]].
  - exists None. split; [exact (drive_holding fuel driver0)|]. simpl. split; [constructor|]. intros i.
    split; [by intros ?%not_elem_of_nil|by intros [? _]].
  - exists None. split; [intros _; exact (drive_carrying fuel driver0)|]. by split; constructor.
Qed.

(** A step of the driver that leaves calls, slots and what was handed out alone. *)
Lemma drive_quiet s q x o k r s' :
  driver_ended s = false -> drive_task s = Op o k ->
  Forall2 call_ok (calls s) (slots s) -> length (inbound s) <= CHANNEL_CAPACITY ->
  length (requests s') <= CHANNEL_CAPACITY ->
  driver_ended s' = false -> calls s' = calls s -> slots s' = slots s -> inbound s' = inbound s ->
  accepted s' = accepted s ->
  holding q (k r) -> NoDup (requests s' ++ option_list q) ->
  (forall i, i ∈ requests s' ++ option_list q <-> waiting s i) ->
  carrying x (k r) -> NoDup (option_list x ++ handed s) ->
  Forall (fun y => y < next_stream s') (option_list x ++ handed s) ->
  mux_inv (with_drive s' (k r)).
Proof.
  intros He Ht Hc Hi Hr He' Ec Es Ei Ea Hq Hnd Hiff Hx Hnx Hlt.
  unfold mux_inv, requests_ok, streams_ok, handed, waiting in *. simpl. rewrite He', Ec, Es, Ei, Ea.
  split; [done|]. split; [by exists q|]. split; [|done]. exists x. by split.
Qed.

(** A stream is new. *)
Lemma fresh_stream n (l : list nat) :
  NoDup l -> Forall (fun y => y < n) l -> NoDup (n :: l) /\ Forall (fun y => y < S n) (n :: l).
Proof.
  intros Hn Hl. split.
  - apply NoDup_cons. split; [|done]. intros Hin. rewrite Forall_forall in Hl. specialize (Hl _ Hin). lia.
  - constructor; [lia|]. eapply Forall_impl; [exact Hl|]. simpl. lia.
Qed.

Lemma waiting_not_held s q i : NoDup (requests s ++ [q]) -> i ∈ requests s -> i <> q.
Proof. intros Hnd Hi ->. apply NoDup_app in Hnd as (_ & Hd & _). apply (Hd q Hi). set_solver. Qed.

(** An answer: the slot is filled, and its stream handed out. *)
Lemma reply_inv s i r k :
  Forall2 call_ok (calls s) (slots s) -> length (requests s) <= CHANNEL_CAPACITY ->
  length (inbound s) <= CHANNEL_CAPACITY -> driver_ended s = false ->
  holding None (k tt) -> NoDup (requests s ++ [i]) ->
  (forall j, j ∈ requests s ++ [i] <-> waiting s j) -> carrying None (k tt) ->
  NoDup (option_list (match r with Ok y => Some y | _ => None end) ++ handed s) ->
  Forall (fun y => y < next_stream s) (option_list (match r with Ok y => Some y | _ => None end) ++ handed s) ->
  mux_inv (with_drive (with_calls s (calls s) (<[i := Answered r]> (slots s))) (k tt)).
Proof.
  intros Hc Hr Hi He Hq Hnd Hiff Hx Hnx Hlt.
  assert (Hw : waiting s i) by (apply Hiff; set_solver). destruct Hw as [Hci Hsi].
  assert (Hperm : handed (with_calls s (calls s) (<[i := Answered r]> (slots s))) ≡ₚ
    option_list (match r with Ok y => Some y | _ => None end) ++ handed s).
  { unfold handed. simpl. destruct r as [y|e|]; simpl; [|by erewrite omap_insert_same..].
    by rewrite omap_insert_stream. }
  split; [|split; [|split; [|done]]]; simpl.
  - rewrite <- (list_insert_id (calls s) i await_reply Hci). apply Forall2_insert; [done|]. by right; left.
  - unfold requests_ok. simpl. rewrite He. exists None. simpl. rewrite app_nil_r.
    split; [done|]. split; [by apply NoDup_app in Hnd as (? & _ & _)|]. intros j. unfold waiting in *. simpl.
    destruct (decide (j = i)) as [->|Hne].
    + split.
      * intros Hin. by destruct (waiting_not_held s i i Hnd Hin).
      * rewrite list_lookup_insert_eq by (by eapply lookup_lt_Some). by intros [_ [=]].
    + rewrite list_lookup_insert_ne by done. rewrite <- Hiff. set_solver.
  - exists None. split; [done|]. simpl. by rewrite Hperm.
Qed.

(** A stream for the acceptor. *)
Lemma send_inv s q y k :
  Forall2 call_ok (calls s) (slots s) -> length (requests s) <= CHANNEL_CAPACITY ->
  length (inbound s) < CHANNEL_CAPACITY -> driver_ended s = false ->
  holding q (k tt) -> NoDup (requests s ++ option_list q) ->
  (forall j, j ∈ requests s ++ option_list q <-> waiting s j) -> carrying None (k tt) ->
  NoDup (y :: handed s) -> Forall (fun y => y < next_stream s) (y :: handed s) ->
  mux_inv (with_drive (with_inbound s (inbound s ++ [y]) true (accepted s)) (k tt)).
Proof.
  intros Hc Hr Hi He Hq Hnd Hiff Hx Hnx Hlt.
  assert (Hperm : handed (with_inbound s (inbound s ++ [y]) true (accepted s)) ≡ₚ y :: handed s).
  { unfold handed. simpl. rewrite !app_assoc. symmetry. apply Permutation_cons_append. }
  split; [done|]. split; [|split; [|split; [done|simpl; rewrite length_app; simpl; lia]]].
  - unfold requests_ok. simpl. rewrite He. by exists q.
  - exists None. split; [done|]. simpl. by rewrite Hperm.
Qed.

Lemma drive_step_inv s o k r s' :
  mux_inv s -> driver_ended s = false -> drive_task s = Op o k -> drive_step s o r s' ->
  mux_inv (with_drive s' (k r)).
Proof.
  intros (Hc & Hreq & (x & Hx & Hnx & Hlt) & Hr & Hi) He Ht Hs. specialize (Hx He).
  unfold requests_ok in Hreq. rewrite He in Hreq. destruct Hreq as (q & Hq & Hnd & Hiff).
  rewrite Ht in Hq, Hx.
  destruct Hs as [q0 rest Eq|Eq Eh|Eq Eh|e| | | |r Er| | |i r Ei|y Ea Hlen|y Ea]; simpl in Hq, Hx.
  - destruct Hq as [-> Hq]. rewrite Eq in Hnd, Hiff, Hr. simpl in *. rewrite app_nil_r in Hnd, Hiff.
    apply (drive_quiet s (Some q0) x PollRecv k (Ready (Some q0))); simpl; try done; try lia.
    + apply (Hq (Ready (Some q0))).
    + by rewrite <- Permutation_cons_append.
    + intros i. rewrite <- Hiff. set_solver.
  - destruct Hq as [-> Hq]. by apply (drive_quiet s None x PollRecv k Pending); try apply (Hq Pending).
  - destruct Hq as [-> Hq]. by apply (drive_quiet s None x PollRecv k (Ready None)); try apply (Hq (Ready None)).
  - destruct Hx as [-> Hx]. by apply (drive_quiet s q None PollNewOutbound k Pending); try apply (Hx Pending).
  - destruct Hx as [-> Hx].
    by apply (drive_quiet s q None PollNewOutbound k (Ready (Err e))); try apply (Hx (Ready (Err e))).
  - destruct Hx as [-> Hx]. destruct (fresh_stream _ _ Hnx Hlt) as [Hn1 Hn2].
    by apply (drive_quiet s q (Some (next_stream s)) PollNewOutbound k (Ready (Ok (next_stream s))));
      try apply (Hx (Ready (Ok _))).
  - destruct Hx as [-> Hx]. by apply (drive_quiet s q None PollNextInbound k Pending); try apply (Hx Pending).
  - destruct Hx as [-> Hx]. apply (drive_quiet s q None PollNextInbound k (Ready r)); try done.
    by destruct Er as [->|[e ->]]; [apply (Hx (Ready None))|apply (Hx (Ready (Some (Err e))))].
  - destruct Hx as [-> Hx]. destruct (fresh_stream _ _ Hnx Hlt) as [Hn1 Hn2].
    by apply (drive_quiet s q (Some (next_stream s)) PollNextInbound k (Ready (Some (Ok (next_stream s)))));
      try apply (Hx (Ready (Some (Ok _)))).
  - by apply (drive_quiet s q x Park k tt).
  - destruct Hq as [-> Hq], Hx as [-> Hx]. by apply reply_inv.
  - destruct Hx as [-> Hx]. by apply send_inv with q.
  - destruct Hx as [-> Hx]. apply (drive_quiet s q None (SendInbound y) k tt); try done.
    + by apply NoDup_cons in Hnx as [_ Hnx].
    + by apply Forall_cons in Hlt as [_ Hlt].
Qed.

(** The calls and slots change together, and the driver stays as it was. *)
Lemma calls_inv s i p sl :
  mux_inv s -> is_Some (calls s !! i) -> call_ok p sl -> ~ waiting s i -> p <> await_reply ->
  slots s !! i = Some sl \/ (slots s !! i = Some Waiting /\ slot_stream sl = None) ->
  mux_inv (with_calls s (<[i := p]> (calls s)) (<[i := sl]> (slots s))).
Proof.
  intros (Hc & Hreq & (x & Hx & Hnx & Hlt) & Hr & Hi) Hci Hok Hnw Hp Hsl.
  assert (Hs : is_Some (slots s !! i)) by (destruct Hsl as [->|[-> _]]; by eexists).
  assert (Hw : forall j, waiting (with_calls s (<[i := p]> (calls s)) (<[i := sl]> (slots s))) j <-> waiting s j).
  { intros j. unfold waiting in *. simpl. destruct (decide (j = i)) as [->|Hne].
    - rewrite !list_lookup_insert_eq by (eapply lookup_lt_is_Some; done). naive_solver.
    - by rewrite !list_lookup_insert_ne. }
  assert (Hh : handed (with_calls s (<[i := p]> (calls s)) (<[i := sl]> (slots s))) = handed s).
  { unfold handed. simpl. f_equal. destruct Hsl as [E|[E En]]; [by rewrite list_insert_id|].
    by eapply omap_insert_same. }
  split; [by apply Forall2_insert|]. split; [|split; [|done]].
  - unfold requests_ok in *. simpl. destruct (driver_ended s).
    + destruct Hreq as [Hreq Hno]. split; [done|]. intros j. by rewrite Hw.
    + destruct Hreq as (q & Hq & Hnd & Hiff). exists q. split; [done|]. split; [done|]. intros j. by rewrite Hw.
  - exists x. by rewrite Hh.
Qed.

Lemma call_at s i p :
  Forall2 call_ok (calls s) (slots s) -> calls s !! i = Some p ->
  exists sl, slots s !! i = Some sl /\ call_ok p sl.
Proof. intros Hc Hi. destruct (Forall2_lookup_l _ _ _ _ _ Hc Hi) as (sl & Hs & Hok). by exists sl. Qed.

#[local] Instance opener_op_eq : EqDecision opener_op.
Proof. solve_decision. Defined.

Lemma request_shape p sl k : call_ok p sl -> p = Op (S := opener_sig) SendRequest k ->
  sl = Waiting /\ k true = await_reply /\ k false = Ret (Err disconnected).
Proof.
  intros [[-> ->]|[->|(r & -> & _)]]; intros [= E]; apply (Eqdep_dec.inj_pair2_eq_dec _ opener_op_eq) in E; by subst.
Qed.

Lemma reply_shape p sl k : call_ok p sl -> p = Op (S := opener_sig) AwaitReply k ->
  p = await_reply /\ k = fun r => Ret (match r with Some r => r | None => Err disconnected end).
Proof.
  intros [[-> ->]|[->|(r & -> & _)]]; intros [= E]; apply (Eqdep_dec.inj_pair2_eq_dec _ opener_op_eq) in E; by subst.
Qed.

(** The end of the driver. *)
Lemma close_inv s k :
  mux_inv s -> driver_ended s = false ->
  drive_task s = Op (S := drive_sig nat nat) PollClose k -> mux_inv (end_driver s (k tt)).
Proof.
  intros Hinv He Ht.
  destruct Hinv as (Hc & Hreq & (x & Hx & Hnx & Hlt) & Hr & Hi).
  unfold requests_ok in Hreq. rewrite He in Hreq. destruct Hreq as (q & Hq & Hnd & Hiff).
  rewrite Ht in Hq. destruct Hq as (b & st & Ek & Eq). unfold end_driver. rewrite Ek, Eq.
  split; [|split; [|split; [|simpl; lia]]]; simpl.
  - apply Forall2_same_length_lookup. split.
    { apply Forall2_length in Hc. rewrite Hc. symmetry. apply drop_slots_length. }
    intros i p sl Hp Hsl. destruct (call_at _ _ _ Hc Hp) as (sl0 & Hs0 & Hok).
    rewrite drop_slots_lookup, Hs0 in Hsl. injection Hsl as <-.
    destruct sl0 as [|r|]; [|done..]. case_bool_decide as Hin; [|done].
    apply Hiff in Hin as [Hin _]. rewrite Hp in Hin. injection Hin as ->. by right; left.
  - unfold requests_ok. simpl. split; [done|]. intros i [Hci Hsi]. simpl in *.
    rewrite drop_slots_lookup in Hsi. destruct (slots s !! i) as [sl|] eqn:Es; [|done]. simpl in Hsi.
    destruct sl as [|r|]; try done. rewrite bool_decide_true in Hsi; [done|]. by apply Hiff.
  - exists x. split; [done|]. unfold handed in *. simpl. by rewrite drop_slots_streams.
Qed.

(** A new call. *)
Lemma call_inv s :
  mux_inv s -> mux_inv (with_calls s (calls s ++ [opener_open]) (slots s ++ [Waiting])).
Proof.
  intros Hinv.
  destruct Hinv as (Hc & Hreq & (x & Hx & Hnx & Hlt) & Hr & Hi).
  assert (Hw : forall j, waiting (with_calls s (calls s ++ [opener_open]) (slots s ++ [Waiting])) j <-> waiting s j).
  { intros j. unfold waiting. simpl. pose proof (Forall2_length _ _ _ Hc) as Hl. rewrite !lookup_app, Hl.
    destruct (calls s !! j) as [p|] eqn:Ec.
    - destruct (call_at _ _ _ Hc Ec) as (sl & -> & _). done.
    - assert (slots s !! j = None) as -> by (apply lookup_ge_None in Ec; apply lookup_ge_None; lia).
      destruct (j - length (slots s)) as [|[|]]; simpl; split; by intros [[=] ?]. }
  split; [apply Forall2_app; [done|]; constructor; [by left|constructor]|].
  split; [|split; [|done]].
  - unfold requests_ok in *. simpl. destruct (driver_ended s).
    * destruct Hreq as [? Hno]. split; [done|]. intros j. by rewrite Hw.
    * destruct Hreq as (q & Hq & Hnd & Hiff). exists q. split; [done|]. split; [done|]. intros j. by rewrite Hw.
  - exists x. split; [done|]. unfold handed in *. simpl. rewrite omap_app. simpl. by rewrite app_nil_r.
Qed.

Lemma request_inv s i k :
  mux_inv s -> calls s !! i = Some (Op (S := opener_sig) SendRequest k) ->
  driver_ended s = false -> length (requests s) < CHANNEL_CAPACITY ->
  mux_inv (with_calls (with_requests s (requests s ++ [i])) (<[i := k true]> (calls s)) (slots s)).
Proof.
  intros Hinv Hi He Hlen.
  destruct Hinv as (Hc & Hreq & Hst & Hr & Hin).
  destruct (call_at _ _ _ Hc Hi) as (sl & Hs & Hok). destruct (request_shape _ _ _ Hok eq_refl) as (-> & -> & _).
  unfold requests_ok in Hreq. rewrite He in Hreq. destruct Hreq as (q & Hq & Hnd & Hiff).
  assert (Hni : i ∉ requests s ++ option_list q).
  { intros [Hw _]%Hiff. rewrite Hi in Hw. done. }
  split; [rewrite <- (list_insert_id (slots s) i Waiting Hs); apply Forall2_insert; [done|]; by right; left|].
  split; [|split; [done|simpl; rewrite length_app; simpl; lia]].
  unfold requests_ok. simpl. rewrite He. exists q. split; [done|].
  assert (Hp : (requests s ++ [i]) ++ option_list q ≡ₚ i :: requests s ++ option_list q).
  { rewrite <- app_assoc. simpl. symmetry. apply Permutation_middle. }
  split; [rewrite Hp; by constructor|]. intros j. rewrite Hp, elem_of_cons, Hiff. unfold waiting. simpl.
  destruct (decide (j = i)) as [->|Hne].
  - rewrite list_lookup_insert_eq by by eapply lookup_lt_Some. naive_solver.
  - rewrite list_lookup_insert_ne by done. naive_solver.
Qed.

Lemma mux_step_inv s s' : mux_inv s -> mux_step s s' -> mux_inv s'.
Proof.
  intros Hinv Hs. destruct Hs as [o k r s' He Ht Hd|k He Ht|Hh|i k Hi He Hlen|i k Hi He|i k r Hi Hsl|i k Hi Hsl|Hno|x rest Hin Ha|].
  - by eapply drive_step_inv.
  - by apply close_inv.
  - by apply call_inv.
  - by apply request_inv.
  - (* a request that was refused *)
    pose proof Hinv as (Hc & _). destruct (call_at _ _ _ Hc Hi) as (sl & Hs & Hok).
    destruct (request_shape _ _ _ Hok eq_refl) as (-> & _ & ->).
    apply calls_inv; [done|by eexists| |..|done|by right].
    + right; right. eexists. split; [done|]. by right.
    + intros [Hw _]. rewrite Hi in Hw. done.
  - pose proof Hinv as (Hc & _). destruct (call_at _ _ _ Hc Hi) as (sl & Hs & Hok).
    destruct (reply_shape _ _ _ Hok eq_refl) as [_ ->]. rewrite <- (list_insert_id (slots s) i _ Hsl).
    apply calls_inv; [done|by eexists| |..|done|by left].
    + right; right. eexists. split; [done|]. by left.
    + intros [_ Hw]. rewrite Hsl in Hw. done.
  - pose proof Hinv as (Hc & _). destruct (call_at _ _ _ Hc Hi) as (sl & Hs & Hok).
    destruct (reply_shape _ _ _ Hok eq_refl) as [_ ->]. rewrite <- (list_insert_id (slots s) i _ Hsl).
    apply calls_inv; [done|by eexists| |..|done|by left].
    + right; right. eexists. split; [done|]. by right.
    + intros [_ Hw]. rewrite Hsl in Hw. done.
  - exact Hinv.
  - destruct Hinv as (Hc & Hreq & (y & Hx & Hnx & Hlt) & Hr & Hi). split; [done|]. split; [done|].
    rewrite Hin in Hi. simpl in Hi. split; [|simpl; lia].
    assert (Hh : handed (with_inbound s rest true (accepted s ++ [x])) = handed s).
    { unfold handed. simpl. by rewrite Hin, <- app_assoc. }
    exists y. by rewrite Hh.
  - destruct Hinv as (Hc & Hreq & (y & Hx & Hnx & Hlt) & Hr & Hi). split; [done|]. split; [done|].
    split; [|simpl; lia]. exists y. unfold handed in *. simpl. rewrite app_nil_r in *. split; [done|].
    rewrite !app_assoc in Hnx, Hlt. apply NoDup_app in Hnx as (Hnx & _ & _). apply Forall_app in Hlt as [Hlt _].
    by rewrite <- !app_assoc in *.
Qed.

Lemma mux_reached_inv fuel s : mux_reached fuel s -> mux_inv s.
Proof. induction 1 as [|s s' _ IH Hs]; [apply mux_inv_start|by eapply mux_step_inv]. Qed.

(** C33: No open is forgotten and no stream is handed out twice.  In every reachable
    state of a driver with its openers and acceptor, a call that waits has its
    request in the queue or held by the driver, which is still running; a call that
    returned got the answer that was sent to it, or learned that the connection is
    closed; the streams that openers and acceptor were given are all different;
    and both queues stay within their capacity. *)
Theorem opens_are_accounted fuel s :
  mux_reached fuel s ->
  (forall i, waiting s i -> driver_ended s = false /\ (i ∈ requests s \/ holding (Some i) (drive_task s))) /\
  (forall i r, calls s !! i = Some (Ret r) -> slots s !! i = Some (Answered r) \/ r = Err disconnected) /\
  NoDup (handed s) /\
  length (requests s) <= CHANNEL_CAPACITY /\ length (inbound s) <= CHANNEL_CAPACITY.
Proof.
  intros (Hc & Hreq & (x & _ & Hnx & _) & Hr & Hi)%mux_reached_inv. split; [|split; [|split; [|done]]].
  - intros i Hw. unfold requests_ok in Hreq. destruct (driver_ended s); [destruct Hreq as [_ Hno]; by destruct (Hno i)|].
    split; [done|]. destruct Hreq as (q & Hq & _ & Hiff). apply Hiff, elem_of_app in Hw as [Hw|Hw]; [by left|].
    destruct q as [q|]; simpl in Hw; [|by apply not_elem_of_nil in Hw].
    apply list_elem_of_singleton in Hw as ->. by right.
  - intros i r Hci. destruct (call_at _ _ _ Hc Hci) as (sl & Hs & [[[=] _]|[[=]|(r' & [= <-] & [->|[-> ->]])]]);
      [by left|by right].
  - by apply NoDup_app in Hnx as (_ & _ & Hnx).
Qed.

(** *** An acceptor that does not accept *)

(** The driver waits for room in a full queue of inbound streams. *)
Definition stalled (i : nat) (s : mux_system) : Prop :=
  (exists x k, drive_task s = Op (S := drive_sig nat nat) (SendInbound x) k) /\ driver_ended s = false /\
  acceptor s = true /\ length (inbound s) = CHANNEL_CAPACITY /\ waiting s i.

Definition next_op (p : prog (drive_sig nat nat) (bool * driver nat)) : option (drive_op nat nat) :=
  match p with Op o _ => Some o | Ret _ => None end.

Lemma send_needs_room s o r s' :
  drive_step s o r s' -> forall x, o = SendInbound x -> acceptor s = true -> length (inbound s) < CHANNEL_CAPACITY.
Proof. intros [ | | | | | | | | | | |y Ha Hl|y Ha] x [=] Ha'; [done|by rewrite Ha in Ha']. Qed.

(** Whatever the openers do, a call that waits then waits on until the acceptor
    takes a stream or is dropped. *)
Lemma stalled_until_accepted i s s' :
  stalled i s -> mux_step s s' -> inbound s' = inbound s -> acceptor s' = true -> stalled i s'.
Proof.
  intros ((x & k & Ht) & He & Ha & Hl & Hw) Hs Ei Ea.
  assert (Hcalls : forall j p, ~ (calls s !! j = Some await_reply /\ slots s !! j = Some Waiting) ->
    is_Some (calls s !! j) -> <[j := p]> (calls s) !! i = Some await_reply).
  { intros j p Hj _. rewrite list_lookup_insert_ne; [apply Hw|]. by intros ->. }
  destruct Hs as [o k' r s' He' Ht' Hd|k' He' Ht'|Hh|j k' Hj He' Hlen|j k' Hj He'|j k' r Hj Hsl|j k' Hj Hsl|Hno|y rest Hin Ha'|].
  - rewrite Ht in Ht'. pose proof (f_equal next_op Ht') as [= E].
    pose proof (send_needs_room _ _ _ _ Hd x (eq_sym E) Ha). lia.
  - rewrite Ht in Ht'. by pose proof (f_equal next_op Ht').
  - split; [by eexists _, _|]. repeat split; try done; simpl.
    + apply lookup_app_l_Some, Hw.
    + apply lookup_app_l_Some, Hw.
  - split; [by eexists _, _|]. repeat split; try done; simpl; [|apply Hw].
    apply (Hcalls j); [|by eexists]. intros [Hj' _]. by rewrite Hj in Hj'.
  - by rewrite He in He'.
  - split; [by eexists _, _|]. repeat split; try done; simpl; [|apply Hw].
    apply (Hcalls j); [|by eexists]. intros [_ Hj']. by rewrite Hsl in Hj'.
  - split; [by eexists _, _|]. repeat split; try done; simpl; [|apply Hw].
    apply (Hcalls j); [|by eexists]. intros [_ Hj']. by rewrite Hsl in Hj'.
  - by split; [by eexists _, _|].
  - apply (f_equal length) in Ei. rewrite Hin in Ei. simpl in Ei. lia.
  - done.
Qed.

(** A driver with nothing to do but take streams in. *)
Definition idle (m : nat) (s : mux_system) : Prop :=
  drive_task s = drive m driver0 /\ driver_ended s = false /\ handles s = true /\ requests s = [] /\
  calls s = [] /\ slots s = [] /\ acceptor s = true.

Lemma drive_one fuel s o k r s' :
  mux_reached fuel s -> driver_ended s = false -> drive_task s = Op o k -> drive_step s o r s' ->
  mux_reached fuel (with_drive s' (k r)).
Proof. intros Hs He Ht Hd. eapply mux_next; [exact Hs|]. by eapply step_drive. Qed.

(** The peer opens a stream: the driver has it in hand. *)
Lemma stream_arrives fuel m s :
  mux_reached fuel s -> idle (S m) s ->
  exists (k : unit -> prog (drive_sig nat nat) (bool * driver nat)) x s', mux_reached fuel s' /\ drive_task s' = Op (S := drive_sig nat nat) (SendInbound x) k /\
    k tt = drive m driver0 /\ driver_ended s' = false /\ handles s' = true /\ requests s' = [] /\
    calls s' = [] /\ slots s' = [] /\ acceptor s' = true /\ inbound s' = inbound s.
Proof.
  intros Hs (Ht & He & Hh & Hr & Hc & Hl & Ha).
  pose proof (drive_one fuel s PollRecv _ Pending s Hs He Ht (drive_recv_empty s Hr Hh)) as H1.
  pose proof (drive_one fuel _ PollNextInbound _ _ _ H1 He eq_refl (drive_inbound _)) as H2.
  simpl in H2. eexists _, _, _. split; [exact H2|]. by repeat split.
Qed.

Lemma queue_fills fuel n m s :
  mux_reached fuel s -> idle (n + m) s -> length (inbound s) + n <= CHANNEL_CAPACITY ->
  exists s', mux_reached fuel s' /\ idle m s' /\ length (inbound s') = length (inbound s) + n.
Proof.
  revert s. induction n as [|n IH]; intros s Hs Hi Hl; [exists s; split; [done|]; split; [done|lia]|].
  destruct (stream_arrives fuel (n + m) s Hs Hi) as (k & x & s1 & Hs1 & Ht & Ek & He & Hh & Hr & Hc & Hsl & Ha & Ei).
  assert (Hroom : length (inbound s1) < CHANNEL_CAPACITY) by (rewrite Ei; lia).
  pose proof (drive_one fuel s1 _ _ _ _ Hs1 He Ht (drive_send s1 x Ha Hroom)) as H3.
  destruct (IH _ H3) as (s' & Hs' & Hi' & Hl').
  - by repeat split.
  - simpl. rewrite length_app, Ei. simpl. lia.
  - exists s'. split; [done|]. split; [done|]. rewrite Hl'. simpl. rewrite length_app, Ei. simpl. lia.
Qed.

(** A peer can halt the driver: after one stream more than the queue holds, an
    opener waits until the acceptor is polled. *)
Lemma driver_can_stall : exists s, mux_reached (S CHANNEL_CAPACITY) s /\ stalled 0 s.
Proof.
  destruct (queue_fills (S CHANNEL_CAPACITY) CHANNEL_CAPACITY 1 _ (mux_start _)) as (s & Hs & Hi & Hl);
    [by repeat split|simpl; lia|].
  destruct (stream_arrives _ 0 s Hs Hi) as (k & x & s1 & Hs1 & Ht & _ & He & Hh & Hr & Hc & Hsl & Ha & Ei).
  pose proof (mux_next _ _ _ Hs1 (step_call s1 Hh)) as H2. rewrite Hc, Hsl in H2. simpl in H2.
  assert (H3 : mux_reached (S CHANNEL_CAPACITY)
    (with_calls (with_requests (with_calls s1 [opener_open] [Waiting]) [0]) [await_reply] [Waiting])).
  { pose proof (step_request (with_calls s1 [opener_open] [Waiting]) 0 _ eq_refl He) as H3.
    simpl in H3. rewrite Hr in H3. eapply mux_next; [exact H2|]. apply H3. unfold CHANNEL_CAPACITY. simpl. lia. }
  eexists. split; [exact H3|]. split; [by eexists _, _|]. simpl. rewrite Ei. by repeat split.
Qed.

(** ** Evaluated *)

(** A call that is answered, while a stream of the peer is taken in. *)
Lemma opens_are_accounted_witness :
  exists s, mux_reached 3 s /\ calls s = [Ret (Ok 0)] /\ NoDup (handed s).
Proof.
  pose proof (mux_next 3 _ _ (mux_start 3) (step_call (spawn_driver 3) eq_refl)) as H.
  eapply mux_next in H; [|eapply (step_request _ 0); [reflexivity..|unfold CHANNEL_CAPACITY; simpl; lia]].
  eapply mux_next in H; [|eapply step_drive; [reflexivity..|by apply drive_recv]].
  eapply mux_next in H; [|eapply step_drive; [reflexivity..|by apply drive_outbound]].
  eapply mux_next in H; [|eapply step_drive; [reflexivity..|by apply drive_reply]].
  eapply mux_next in H; [|eapply (step_answer _ 0); reflexivity].
  eexists. split; [exact H|]. split; [reflexivity|]. exact (proj1 (proj2 (proj2 (opens_are_accounted 3 _ H)))).
Defined.
