(* ===== verification/Paired.v ===== *)
(** * The paired channel ([crates/rb-transport/src/channel.rs])

    What a connected side does to obtain the data substream: the destination
    opens it and sends a ready marker, the source accepts it and checks the
    marker. *)

From S2P Require Import Prelude Streams Errors Json Plan Wire Channel Session.

(** [mux::STREAM_READY]. *)
Definition STREAM_READY : byte := x00.

(** The multiplexer's awaits: [Opener::open] and [Acceptor::accept].  The stream
    they return is the byte stream of the rest of the program. *)
Inductive mux_op : Type := MuxOpen | MuxAccept.

Definition mux_sig : sig :=
  Sig mux_op (fun o =>
    match o with MuxOpen => result io_error unit | MuxAccept => option unit end).

(** The two variants of [PairedChannelInner]; the control stream each holds is
    not used again, only the codec's buffer is kept. *)
Inductive PairedChannel : Type :=
| PairedSource (control : bytes)
| PairedDestination (control : bytes).

Section Paired.
Context {L : sig}.

Abbreviation pc := (stream_sig ⊕ (mux_sig ⊕ L)).

Definition mux_await (o : mux_op) : prog pc (resp (s := mux_sig) o) :=
  Op (S := pc) (inr (inl o)) Ret.

Definition connect_err {A} (what : string) (r : result io_error A) : Result A :=
  map_err (fun e => phase Connect (what +:+ ": " +:+ io_msg e)) r.

Definition open_stream (self : PairedChannel) : prog pc (Result unit) :=
  match self with
  | PairedDestination _ =>
      let! r := mux_await MuxOpen in
      let? _ := Ret (connect_err "open stream" r) in
      let! r := stream (WriteAll [STREAM_READY]) in
      let? _ := Ret (connect_err "write ready" r) in
      Ret (Ok tt)
  | PairedSource _ => Ret (Err (phase Connect "source cannot open streams"))
  end.

Definition accept_stream (self : PairedChannel) : prog pc (Result unit) :=
  match self with
  | PairedSource _ =>
      let! r := mux_await MuxAccept in
      let? _ := Ret (ok_or r (phase Connect "acceptor closed")) in
      let! r := stream (ReadExact 1) in
      let? marker := Ret (connect_err "read ready" r) in
      if decide (head marker = Some STREAM_READY) then Ret (Ok tt)
      else Ret (Err (phase Connect "invalid stream ready marker"))
  | PairedDestination _ => Ret (Err (phase Connect "destination cannot accept streams"))
  end.

(** The [DataChannel] the session gets. *)
Definition paired_channel (self : PairedChannel) (o : channel_op) : prog pc (Result unit) :=
  match o with
  | OpenStream => open_stream self
  | AcceptStream => accept_stream self
  end.

(** [DataChannel::carriers]. *)
Definition paired_carriers (self : PairedChannel) : N := 1.
End Paired.

Section PairedFacts.
Context {L : sig} {St : Type} (hM : handler mux_sig St) {St' : Type} (hL : handler L St').

Abbreviation hP := (hsum hM hL).

Lemma open_stream_behaves d m m' st :
  hM MuxOpen m = (Ok tt, m') ->
  behaves Exact hP (open_stream (PairedDestination d)) (m, st) (snds [STREAM_READY]) (Ok tt)
    (m', st).
Proof.
  intros E. unfold open_stream. cbn [pbind mux_await]. apply (bh_local Exact hP (inl MuxOpen)).
  simpl. rewrite E. simpl. apply (bh_write_all Exact hP [STREAM_READY]). constructor.
Qed.

Lemma accept_stream_behaves d m m' st b :
  hM MuxAccept m = (Some tt, m') ->
  behaves Exact hP (accept_stream (PairedSource d)) (m, st) (rcvs [b])
    (if decide (b = STREAM_READY) then Ok tt
     else Err (phase Connect "invalid stream ready marker")) (m', st).
Proof.
  intros E. unfold accept_stream. cbn [pbind mux_await]. apply (bh_local Exact hP (inl MuxAccept)).
  simpl. rewrite E. simpl. apply (bh_read_exact Exact hP 1 _ _ [b]); [done|].
  cbn. destruct (decide (b = STREAM_READY)) as [->|Hb].
  - rewrite decide_True by done. constructor.
  - rewrite decide_False by naive_solver. constructor.
Qed.
End PairedFacts.
