(* ===== verification/Client.v ===== *)
(** * Connecting to the coordination server ([crates/rb-transport/src/client.rs])

    Both sides open the control substream, name their channel, authenticate when
    they have a secret, and wait for the server's verdict. *)

From S2P Require Import Prelude Streams Errors Json Config Proto Auth Transport Paired.

(** The derived [Debug] of the server's messages, in an error text. *)
Class ServerDebug := server_debug : option ServerMsg -> string.

Section Client.
Context `{Crypto} `{Json ClientMsg} `{Json ServerMsg} `{ServerNames} `{ServerDebug}.
Context {L : sig}.

Abbreviation cl := (stream_sig ⊕ (net_sig ⊕ L)).

(** [.map_err(|e| BackupError::phase(Phase::Connect, format!("...: {e}")))]. *)
Definition connecting {A} (what : string) (r : ares A) : Result A :=
  map_err (fun e => phase Errors.Connect (what +:+ ": " +:+ any_display e)) r.

(** [fuel] bounds the reads of one receive. *)
Definition connect_as (fuel : nat) (cfg : TransportConfig) (hello : ClientMsg) (what : string)
  (channel : bytes -> PairedChannel) : prog cl (Result PairedChannel) :=
  let endpoint := parse (to cfg) in
  let! socket := connect endpoint (insecure cfg) in
  let? _ := Ret (connecting "transport" socket) in
  let! ctrl := net_await OpenControl in
  let? _ := Ret (connecting "open control" (map_err AnyIo ctrl)) in
  let! sent := send_client hello in
  let? _ := Ret (connecting what sent) in
  let! (authed, control) :=
    (match secret cfg with
     | Some s => client_handshake (authenticator_new s) fuel []
     | None => Ret (Ok tt, [])
     end) in
  let? _ := Ret (connecting "auth" authed) in
  let! (reply, control) := recv_server fuel control in
  let? reply := Ret (connecting "recv" reply) in
  match reply with
  | Some ServerOk => Ret (Ok (channel control))
  | Some (ServerError reason) => Ret (Err (phase Errors.Connect ("server error: " +:+ reason)))
  | other => Ret (Err (phase Errors.Connect ("unexpected response: " +:+ server_debug other)))
  end.

Definition connect_source (fuel : nat) (cfg : TransportConfig) : prog cl (Result PairedChannel) :=
  connect_as fuel cfg (Register (tc_channel cfg)) "send register" PairedSource.

Definition connect_destination (fuel : nat) (cfg : TransportConfig) :
  prog cl (Result PairedChannel) :=
  connect_as fuel cfg (Proto.Connect (tc_channel cfg)) "send connect" PairedDestination.
End Client.
