(* ===== verification/Server.v ===== *)
(** * The coordination server ([crates/rb-transport/src/server.rs])

    Each connection is a task: it reads the client's first message,
    authenticates it, and serves it as a provider or as a consumer until it
    leaves; each substream a consumer opens becomes a relay task.  The tasks share
    the registry of providers and the connection permits.  This file gives the
    tasks as programs, the shared state with the meaning of each operation on it,
    and the server as a transition system in which the tasks interleave
    operation by operation. *)

From S2P Require Import Prelude Streams Json Config Proto Auth Pool Paired Text Shared.

(** Which branch of a [select!] is ready. *)
Inductive branch : Type := HeartbeatTick | ControlMsg | InboundStream.

(** What a task awaits or calls, other than its own byte stream (the control
    substream of a connection, the consumer's substream of a relay).  Openers are
    connection numbers, pools are addresses: both are shared handles. *)
Inductive srv_op : Type :=
| AcceptControl                        (* acceptor.accept() for the control substream *)
| NewUuid                              (* Uuid::new_v4() *)
| NewPool (opener : nat)               (* Arc::new(CarrierPool::new(opener)) *)
| RegContains (id : string)
| RegInsert (id : string) (pool : nat)
| RegRemove (id : string)
| RegGet (id : string)
| PickPool (pool : nat)
| Select
| AcceptInbound                        (* acceptor.accept() for a consumer's substream *)
| TryAcquire
| SpawnRelay (inbound : nat) (id : string)
| ReleasePermit
| OpenProvider (opener : nat)
| WriteProvider (buf : bytes)
| ProxyBufferSize
| CopyBidirectional (a b : N).

Definition srv_resp (o : srv_op) : Type :=
  match o with
  | AcceptControl => bool
  | NewUuid => Uuid
  | NewPool _ => nat
  | RegContains _ => bool
  | RegInsert _ _ | RegRemove _ => unit
  | RegGet _ => option nat
  | PickPool _ => option nat
  | Select => branch
  | AcceptInbound => option nat
  | TryAcquire => bool
  | SpawnRelay _ _ => unit
  | ReleasePermit => unit
  | OpenProvider _ | WriteProvider _ | CopyBidirectional _ _ => result io_error unit
  | ProxyBufferSize => N
  end.

Definition srv_sig : sig := Sig srv_op srv_resp.

Abbreviation srv := (stream_sig ⊕ srv_sig).

(** The outcome of a task; [None] when its loop was cut at the bound on its turns,
    that is, when it is still serving. *)
Abbreviation outcome := (option (ares unit)).

Definition await (o : srv_op) : prog srv (srv_resp o) := Op (S := srv) (inr o) Ret.

Section Server.
Context `{Crypto} `{Json ClientMsg} `{Json ServerMsg}.

(** [DropGuard]: the entry is removed when the function returns, on every path. *)
Definition with_guard (id : string) (body : prog srv outcome) : prog srv outcome :=
  let! r := body in
  match r with
  | None => Ret None
  | Some r => let! _ := await (RegRemove id) in Ret (Some r)
  end.

(** The [select!] loop of a provider: heartbeats out, messages in. *)
Fixpoint provider_loop (turns fuel : nat) (d : bytes) : prog srv outcome :=
  match turns with
  | O => Ret None
  | S turns' =>
      let! b := await Select in
      match b with
      | ControlMsg =>
          let! (msg, d) := recv_client fuel d in
          match msg with
          | Ok (Some _) => provider_loop turns' fuel d
          | Ok None => Ret (Some (Ok tt))
          | Err e => Ret (Some (Err e))
          | Panicked => Ret (Some Panicked)
          end
      | _ =>
          let! r := send_server ServerHeartbeat in
          match r with
          | Ok _ => provider_loop turns' fuel d
          | Err _ => Ret (Some (Ok tt))
          | Panicked => Ret (Some Panicked)
          end
      end
  end.

Definition serve_provider (turns fuel : nat) (control : bytes) (opener : nat) (id : string) :
  prog srv outcome :=
  let! used := await (RegContains id) in
  if used then
    let! r := send_server (ServerError "channel already in use") in
    Ret (Some r)
  else
    let! pool := await (NewPool opener) in
    let! _ := await (RegInsert id pool) in
    with_guard id
      (let! r := send_server ServerOk in
       match r with
       | Ok _ => provider_loop turns fuel control
       | Err e => Ret (Some (Err e))
       | Panicked => Ret (Some Panicked)
       end).

(** The [select!] loop of a consumer: heartbeats, messages, and a relay for each
    substream while there are permits. *)
Fixpoint consumer_loop (turns fuel : nat) (d : bytes) (id : string) : prog srv outcome :=
  match turns with
  | O => Ret None
  | S turns' =>
      let! b := await Select in
      match b with
      | HeartbeatTick =>
          let! r := send_server ServerHeartbeat in
          match r with
          | Ok _ => consumer_loop turns' fuel d id
          | Err _ => Ret (Some (Ok tt))
          | Panicked => Ret (Some Panicked)
          end
      | ControlMsg =>
          let! (msg, d) := recv_client fuel d in
          match msg with
          | Ok (Some _) => consumer_loop turns' fuel d id
          | Ok None => Ret (Some (Ok tt))
          | Err e => Ret (Some (Err e))
          | Panicked => Ret (Some Panicked)
          end
      | InboundStream =>
          let! inbound := await AcceptInbound in
          match inbound with
          | None => Ret (Some (Ok tt))
          | Some consumer_stream =>
              let! permit := await TryAcquire in
              if permit then
                let! _ := await (SpawnRelay consumer_stream id) in
                consumer_loop turns' fuel d id
              else consumer_loop turns' fuel d id
          end
      end
  end.

Definition serve_consumer (turns fuel : nat) (control : bytes) (id : string) :
  prog srv outcome :=
  let! r := send_server ServerOk in
  match r with
  | Ok _ => consumer_loop turns fuel control id
  | Err e => Ret (Some (Err e))
  | Panicked => Ret (Some Panicked)
  end.

(** [self] is the connection's number, that of its opener. *)
Definition handle_conn (turns fuel : nat) (self : nat) (auth : option Authenticator) :
  prog srv outcome :=
  let! accepted := await AcceptControl in
  if negb accepted then Ret (Some (Ok tt))
  else
    let! (first, d) := recv_client fuel [] in
    match first with
    | Ok first =>
        let! (authed, d) :=
          (match auth with
           | Some authenticator => server_handshake authenticator (await NewUuid) fuel d
           | None => Ret (Ok tt, d)
           end) in
        match authed with
        | Ok _ =>
            match first with
            | Some (Register channel) => serve_provider turns fuel d self channel
            | Some (Connect channel) => serve_consumer turns fuel d channel
            | Some _ => Ret (Some (Ok tt))
            | None => Ret (Some (Ok tt))
            end
        | Err e => Ret (Some (Err e))
        | Panicked => Ret (Some Panicked)
        end
    | Err e => Ret (Some (Err e))
    | Panicked => Ret (Some Panicked)
    end.

Definition relay (id : string) : prog srv (ares unit) :=
  let? _ := io_try (stream (L := srv_sig) (ReadExact 1)) in
  let! pool := await (RegGet id) in
  let? pool := Ret (ok_or pool (AnyMsg ("no provider registered for '" +:+ id +:+ "'"))) in
  let! opener := await (PickPool pool) in
  let? opener := Ret (ok_or opener (AnyMsg "no live provider carrier")) in
  let! provider := await (OpenProvider opener) in
  let? _ := Ret (map_err (fun e => AnyContext "provider unavailable" (AnyIo e)) provider) in
  let! w := await (WriteProvider [STREAM_READY]) in
  let? _ := Ret (map_err AnyIo w) in
  let! buf := await ProxyBufferSize in
  let! c := await (CopyBidirectional buf buf) in
  Ret (map_err AnyIo c).

(** The spawned task: it owns a permit, dropped at the end. *)
Definition relay_task (id : string) : prog srv outcome :=
  let! r := relay id in
  let! _ := await ReleasePermit in
  Ret (Some (Ok tt)).
End Server.

(** ** The shared state *)

Record shared : Type := Shared {
  registry : gmap string nat;
  pools : gmap nat (CarrierPool nat);
  permits : nat;
  buffer_size : option N;
}.

(** [max_conns] permits, no provider. *)
Definition shared0 (max_conns : nat) : shared :=
  {| registry := ∅; pools := ∅; permits := max_conns; buffer_size := None |}.

Definition set_registry (s : shared) (m : gmap string nat) : shared :=
  {| registry := m; pools := pools s; permits := permits s; buffer_size := buffer_size s |}.
Definition set_pools (s : shared) (m : gmap nat (CarrierPool nat)) : shared :=
  {| registry := registry s; pools := m; permits := permits s; buffer_size := buffer_size s |}.
Definition set_permits (s : shared) (n : nat) : shared :=
  {| registry := registry s; pools := pools s; permits := n; buffer_size := buffer_size s |}.
Definition set_buffer_size (s : shared) (b : option N) : shared :=
  {| registry := registry s; pools := pools s; permits := permits s; buffer_size := b |}.

(** What an operation answers and does to the shared state; [a] is the answer of
    the environment to those that concern the network, [var] the process's
    environment variable. *)
Definition shared_step (var : option string) (o : srv_op) (a : srv_resp o) (s : shared) :
  srv_resp o * shared :=
  match o return srv_resp o -> srv_resp o * shared with
  | NewPool opener => fun _ =>
      let p := size (pools s) in
      (p, set_pools s (<[p := CarrierPool_new opener]> (pools s)))
  | RegContains id => fun _ => (bool_decide (is_Some (registry s !! id)), s)
  | RegInsert id p => fun _ => (tt, set_registry s (<[id := p]> (registry s)))
  | RegRemove id => fun _ => (tt, set_registry s (delete id (registry s)))
  | RegGet id => fun _ => (registry s !! id, s)
  | PickPool p => fun _ =>
      match pools s !! p with
      | Some pool => let '(o, pool) := pick pool in (o, set_pools s (<[p := pool]> (pools s)))
      | None => (None, s)
      end
  | TryAcquire => fun _ =>
      match permits s with
      | O => (false, s)
      | S n => (true, set_permits s n)
      end
  | ReleasePermit => fun _ => (tt, set_permits s (S (permits s)))
  | ProxyBufferSize => fun _ =>
      let '(n, cell) := proxy_buffer_size (buffer_size s) var in (n, set_buffer_size s cell)
  | _ => fun a => (a, s)
  end a.

(** ** [run_server] *)

Inductive listen_op : Type :=
| Bind (addr : string)
| TcpAccept
| SpawnConn (conn : nat) (auth : option Authenticator).

Definition listen_sig : sig :=
  Sig listen_op (fun o =>
    match o with
    | Bind _ => result io_error unit
    | TcpAccept => result io_error nat
    | SpawnConn _ _ => unit
    end).

(** The accept loop never ends; [fuel] turns of it. *)
Fixpoint accept_loop (fuel : nat) (auth : option Authenticator) : prog listen_sig outcome :=
  match fuel with
  | O => Ret None
  | S fuel' =>
      let! r := trigger (S := listen_sig) TcpAccept in
      match r with
      | Ok conn =>
          let! _ := trigger (S := listen_sig) (SpawnConn conn auth) in
          accept_loop fuel' auth
      | Err _ => accept_loop fuel' auth
      | Panicked => Ret (Some Panicked)
      end
  end.

Definition run_server `{Crypto} (fuel : nat) (cfg : ServerConfig) : prog listen_sig outcome :=
  let addr := bind_addr cfg +:+ ":" +:+ pretty (control_port cfg) in
  let! r := trigger (S := listen_sig) (Bind addr) in
  match r with
  | Ok _ => accept_loop fuel (authenticator_new <$> server_secret cfg)
  | Err e => Ret (Some (Err (AnyContext ("bind " +:+ addr) (AnyIo e))))
  | Panicked => Ret (Some Panicked)
  end.
