(* ===== verification/ServerSystem.v ===== *)
(** * The server as a transition system

    Any number of connections and relays interleave their operations on the
    shared state; the network answers as it likes.  Invariants of every
    reachable state, by induction on the steps. *)

From S2P Require Import Prelude Streams Json Proto Auth Pool Paired Shared Server.

Abbreviation task := (prog srv outcome).

Section System.
Context `{Crypto} `{Json ClientMsg} `{Json ServerMsg}.
Context (auth : option Authenticator) (var : option string) (max_conns : nat).

Record system : Type := System { sys_shared : shared; sys_tasks : list task }.

(** The tasks an operation starts. *)
Definition spawned (o : op srv) : list task :=
  match o with inr (SpawnRelay _ id) => [relay_task id] | _ => [] end.

(** One operation of a task, [a] being the environment's answer. *)
Definition op_step (o : op srv) : resp (s := srv) o -> shared -> resp (s := srv) o * shared :=
  match o with
  | inl _ => fun a s => (a, s)
  | inr o => fun a s => shared_step var o a s
  end.

Inductive sys_step : system -> system -> Prop :=
| step_conn s ts turns fuel self :
    sys_step (System s ts) (System s (ts ++ [handle_conn turns fuel self auth]))
| step_task s ts i o k a :
    ts !! i = Some (Op o k) ->
    sys_step (System s ts)
      (System (op_step o a s).2 (<[i := k (op_step o a s).1]> ts ++ spawned o)).

Definition reachable : system -> Prop := rtc sys_step (System (shared0 max_conns) []).

Lemma reachable_ind' (P : system -> Prop) :
  P (System (shared0 max_conns) []) ->
  (forall x y, reachable x -> P x -> sys_step x y -> P y) ->
  forall x, reachable x -> P x.
Proof.
  intros Hb Hs. apply (rtc_ind_r P); [exact Hb|]. intros y z Hy Hyz HP. by eapply Hs.
Qed.

(** ** Ownership of registry entries

    [guarded id p]: [p] removes [id] before it returns and inserts nothing first.
    [well_guarded p]: what [p] inserts, it goes on to guard. *)

Fixpoint guarded (id : string) (p : task) : Prop :=
  match p with
  | Ret r => r = None
  | Op o k =>
      match o with
      | inr (RegRemove id') => id' = id
      | inr (RegInsert _ _) => False
      | _ => forall r, guarded id (k r)
      end
  end.

Fixpoint well_guarded (p : task) : Prop :=
  match p with
  | Ret _ => True
  | Op o k =>
      match o with
      | inr (RegInsert id _) => forall r, guarded id (k r)
      | _ => True
      end /\ forall r, well_guarded (k r)
  end.

(** Operations that leave the registry alone. *)
Definition calm (o : op srv) : Prop :=
  match o with inr (RegInsert _ _) | inr (RegRemove _) => False | _ => True end.

#[local] Instance calm_decision o : Decision (calm o).
Proof. destruct o as [o|[]]; simpl; apply _. Defined.

Lemma stream_calm {A} (p : prog srv A) : stream_only p -> every calm p.
Proof. apply every_mono. by intros [o|o]. Qed.

Lemma guarded_bind {A} id (p : prog srv A) (f : A -> task) :
  every calm p -> (forall a, guarded id (f a)) -> guarded id (pbind p f).
Proof.
  intros Hp Hf. induction p as [a|o k IH]; simpl in *; [done|]. destruct Hp as [Ho Hk].
  destruct o as [o|[]]; simpl in *; try done; intros r; by apply IH.
Qed.

Lemma well_guarded_bind {A} (p : prog srv A) (f : A -> task) :
  every calm p -> (forall a, well_guarded (f a)) -> well_guarded (pbind p f).
Proof.
  intros Hp Hf. induction p as [a|o k IH]; simpl in *; [done|]. destruct Hp as [Ho Hk].
  split; [|intros r; by apply IH]. by destruct o as [o|[]].
Qed.

Lemma calm_well_guarded (p : task) : every calm p -> well_guarded p.
Proof.
  intros Hp. induction p as [a|o k IH]; simpl in *; [done|]. destruct Hp as [Ho Hk].
  split; [|intros r; by apply IH]. by destruct o as [o|[]].
Qed.

Lemma with_guard_guarded id (body : task) :
  every calm body -> guarded id (with_guard id body) /\ well_guarded (with_guard id body).
Proof.
  intros Hb. split; unfold with_guard; [apply guarded_bind|apply well_guarded_bind]; try done;
    by intros [r|].
Qed.

(** The programs on the control stream use nothing else. *)
Lemma send_msg_stream {L T} `{Json T} (x : T) : stream_only (send_msg (L := L) x).
Proof.
  unfold send_msg. apply every_try; [by destruct (to_vec x)|]. intros json.
  repeat (apply every_try; [simpl; split; [done|by intros []]|intros _]). done.
Qed.

Lemma recv_within_stream {L T} `{Json T} fuel d : stream_only (recv_within (L := L) (T := T) fuel d).
Proof.
  revert d; induction fuel as [|fuel IH]; intros d; simpl; destruct (split_nul d) as [[]|]; try done.
  split; [done|]. intros [[|b bs]|e|]; try done. apply IH.
Qed.

Lemma provider_loop_calm turns fuel d : every calm (provider_loop turns fuel d).
Proof.
  revert d; induction turns as [|turns IH]; intros d; simpl; [done|]. split; [done|].
  intros [| |].
  - apply every_bind; [apply stream_calm, send_msg_stream|]. by intros [[]|e|].
  - apply every_bind; [apply stream_calm, recv_within_stream|].
    by intros [[[m|]|e|] d1].
  - apply every_bind; [apply stream_calm, send_msg_stream|]. by intros [[]|e|].
Qed.

Lemma consumer_loop_calm turns fuel d id : every calm (consumer_loop turns fuel d id).
Proof.
  revert d; induction turns as [|turns IH]; intros d; simpl; [done|]. split; [done|].
  intros [| |].
  - apply every_bind; [apply stream_calm, send_msg_stream|]. by intros [[]|e|].
  - apply every_bind; [apply stream_calm, recv_within_stream|].
    by intros [[[m|]|e|] d1].
  - simpl. split; [done|]. intros [s|]; [|done]. simpl. split; [done|].
    intros [|]; [|apply IH]. simpl. split; [done|]. intros _. apply IH.
Qed.

Lemma server_handshake_calm a fuel d :
  every calm (server_handshake a (await NewUuid) fuel d).
Proof.
  unfold server_handshake, dtry, keep. simpl. split; [done|]. intros c.
  apply every_bind; [apply every_bind; [apply stream_calm, send_msg_stream|done]|].
  intros [[[]|e|] d1]; try done.
  apply every_bind; [apply stream_calm, recv_within_stream|].
  intros [[[[| |tag|]|]|e|] d2]; try done. by destruct (validate a c tag).
Qed.

Lemma serve_provider_well_guarded turns fuel d self id :
  well_guarded (serve_provider turns fuel d self id).
Proof.
  unfold serve_provider. simpl. split; [done|]. intros [|].
  - apply well_guarded_bind; [apply stream_calm, send_msg_stream|]. done.
  - simpl. split; [done|]. intros pool.
    assert (Hb : every calm (let! r := send_server ServerOk in
      match r with
      | Ok _ => provider_loop turns fuel d
      | Err e => Ret (Some (Err e))
      | Panicked => Ret (Some Panicked)
      end)).
    { apply every_bind; [apply stream_calm, send_msg_stream|].
      intros [[]|e|]; try done; apply provider_loop_calm. }
    destruct (with_guard_guarded id _ Hb) as [Hg Hw]. by split; intros _.
Qed.

Lemma handle_conn_well_guarded turns fuel self : well_guarded (handle_conn turns fuel self auth).
Proof.
  unfold handle_conn. simpl. split; [done|]. intros [|]; [|done]. simpl.
  apply well_guarded_bind; [apply stream_calm, recv_within_stream|].
  intros [[first|e|] d]; try done.
  apply well_guarded_bind; [destruct auth; [apply server_handshake_calm|done]|].
  intros [[[]|e|] d']; try done.
  destruct first as [[ch|ch|tag|]|]; try done.
  - apply serve_provider_well_guarded.
  - apply calm_well_guarded. apply every_bind; [apply stream_calm, send_msg_stream|].
    intros [[]|e|]; try done; apply consumer_loop_calm.
Qed.

Lemma relay_calm id : every calm (relay id).
Proof.
  unfold relay. apply every_try; [simpl; split; [done|by intros []]|intros bs].
  simpl. split; [done|]. intros [p|]; [|done]. simpl. split; [done|].
  intros [o|]; [|done]. simpl. split; [done|]. intros [[]|e|]; try done. simpl.
  split; [done|]. by intros [[]|e|].
Qed.

Lemma relay_task_well_guarded id : well_guarded (relay_task id).
Proof.
  apply calm_well_guarded. apply every_bind; [apply relay_calm|]. by intros r.
Qed.

(** ** Permits

    [holds n p]: [p] will return exactly the [n] permits it has, and those it
    takes; starting a relay hands one over. *)

Fixpoint holds (n : nat) (p : task) : Prop :=
  match p with
  | Ret _ => n = 0
  | Op o k =>
      match o return (resp (s := srv) o -> nat -> Prop) -> Prop with
      | inr TryAcquire => fun P => P true (S n) /\ P false n
      | inr (SpawnRelay _ _) | inr ReleasePermit => fun P =>
          exists m, n = S m /\ forall r, P r m
      | _ => fun P => forall r, P r n
      end (fun r n => holds n (k r))
  end.

(** Operations that leave the permits alone. *)
Definition permit_free (o : op srv) : Prop :=
  match o with
  | inr TryAcquire | inr (SpawnRelay _ _) | inr ReleasePermit => False
  | _ => True
  end.

#[local] Instance permit_free_decision o : Decision (permit_free o).
Proof. destruct o as [o|[]]; simpl; apply _. Defined.

Lemma stream_permit_free {A} (p : prog srv A) : stream_only p -> every permit_free p.
Proof. apply every_mono. by intros [o|o]. Qed.

Lemma holds_bind {A} n (p : prog srv A) (f : A -> task) :
  every permit_free p -> (forall a, holds n (f a)) -> holds n (pbind p f).
Proof.
  intros Hp Hf. induction p as [a|o k IH]; simpl in *; [done|]. destruct Hp as [Ho Hk].
  destruct o as [o|[]]; simpl in *; try done; intros r; by apply IH.
Qed.

Lemma permit_free_holds (p : task) : every permit_free p -> holds 0 p.
Proof.
  intros Hp. induction p as [a|o k IH]; simpl in *; [done|]. destruct Hp as [Ho Hk].
  destruct o as [o|[]]; simpl in *; try done; intros r; by apply IH.
Qed.

Lemma provider_loop_permit_free turns fuel d : every permit_free (provider_loop turns fuel d).
Proof.
  revert d; induction turns as [|turns IH]; intros d; simpl; [done|]. split; [done|].
  intros [| |].
  - apply every_bind; [apply stream_permit_free, send_msg_stream|]. by intros [[]|e|].
  - apply every_bind; [apply stream_permit_free, recv_within_stream|].
    by intros [[[m|]|e|] d1].
  - apply every_bind; [apply stream_permit_free, send_msg_stream|]. by intros [[]|e|].
Qed.

Lemma serve_provider_permit_free turns fuel d self id :
  every permit_free (serve_provider turns fuel d self id).
Proof.
  unfold serve_provider, with_guard. simpl. split; [done|]. intros [|].
  - apply every_bind; [apply stream_permit_free, send_msg_stream|done].
  - simpl. split; [done|]. intros pool. split; [done|]. intros _.
    apply every_bind; [|by intros [r|]].
    apply every_bind; [apply stream_permit_free, send_msg_stream|].
    intros [[]|e|]; try done; apply provider_loop_permit_free.
Qed.

Lemma consumer_loop_holds turns fuel d id : holds 0 (consumer_loop turns fuel d id).
Proof.
  revert d; induction turns as [|turns IH]; intros d; simpl; [done|]. intros [| |].
  - apply holds_bind; [apply stream_permit_free, send_msg_stream|]. by intros [[]|e|].
  - apply holds_bind; [apply stream_permit_free, recv_within_stream|].
    by intros [[[m|]|e|] d1].
  - simpl. intros [s|]; [|done]. simpl. split; [|apply IH].
    exists 0. split; [done|]. intros _. apply IH.
Qed.

Lemma handle_conn_holds turns fuel self : holds 0 (handle_conn turns fuel self auth).
Proof.
  unfold handle_conn. simpl. intros [|]; [|done]. simpl.
  apply holds_bind; [apply stream_permit_free, recv_within_stream|].
  intros [[first|e|] d]; try done.
  apply holds_bind.
  { destruct auth as [a|]; [|done]. unfold server_handshake, dtry, keep. simpl.
    split; [done|]. intros c.
    apply every_bind;
      [apply every_bind; [apply stream_permit_free, send_msg_stream|done]|].
    intros [[[]|e|] d1]; try done.
    apply every_bind; [apply stream_permit_free, recv_within_stream|].
    intros [[[[| |tag|]|]|e|] d2]; try done. by destruct (validate a c tag). }
  intros [[[]|e|] d']; try done.
  destruct first as [[ch|ch|tag|]|]; try done.
  - apply permit_free_holds, serve_provider_permit_free.
  - apply holds_bind; [apply stream_permit_free, send_msg_stream|].
    intros [[]|e|]; try done; apply consumer_loop_holds.
Qed.

Lemma relay_permit_free id : every permit_free (relay id).
Proof.
  unfold relay. apply every_try; [simpl; split; [done|by intros []]|intros bs].
  simpl. split; [done|]. intros [p|]; [|done]. simpl. split; [done|].
  intros [o|]; [|done]. simpl. split; [done|]. intros [[]|e|]; try done. simpl.
  split; [done|]. by intros [[]|e|].
Qed.

Lemma relay_task_holds id : holds 1 (relay_task id).
Proof.
  apply holds_bind; [apply relay_permit_free|]. intros r. simpl. exists 0. by split.
Qed.

(** ** The invariants *)

Lemma op_step_calm o a s : calm o -> registry (op_step o a s).2 = registry s.
Proof.
  destruct o as [o|[]]; simpl; intros Hc; try done.
  - destruct (pools s !! pool); [|done]. by destruct (pick _).
  - by destruct (permits s).
  - by destruct (proxy_buffer_size _ _).
Qed.

Lemma op_step_permit_free o a s : permit_free o -> permits (op_step o a s).2 = permits s.
Proof.
  destruct o as [o|[]]; simpl; intros Hc; try done.
  - destruct (pools s !! pool); [|done]. by destruct (pick _).
  - by destruct (proxy_buffer_size _ _).
Qed.

Definition owned (x : system) : Prop :=
  (forall i p, sys_tasks x !! i = Some p -> well_guarded p) /\
  (forall id pool, registry (sys_shared x) !! id = Some pool ->
     exists i p, sys_tasks x !! i = Some p /\ guarded id p).

Lemma well_guarded_step s ts i o k a j p :
  (forall i p, ts !! i = Some p -> well_guarded p) ->
  ts !! i = Some (Op o k) ->
  (<[i := k (op_step o a s).1]> ts ++ spawned o) !! j = Some p -> well_guarded p.
Proof.
  intros Hw Hi. rewrite lookup_app_Some. intros [Hj|[_ Hj]].
  - apply list_lookup_insert_Some in Hj as [(->&<-&_)|[_ Hj]]; [|by eapply Hw].
    apply Hw in Hi as [_ Hi]. apply Hi.
  - destruct o as [o|[]]; simpl in Hj; try done.
    apply list_lookup_singleton_Some in Hj as [_ <-]. apply relay_task_well_guarded.
Qed.

Lemma owned_step x y : owned x -> sys_step x y -> owned y.
Proof.
  intros [Hw Ho] Hs. destruct Hs as [s ts turns fuel self|s ts i o k a Hi];
    unfold owned; cbn [sys_tasks sys_shared] in *.
  { split.
    - intros i p [Hp|[_ Hp]]%lookup_app_Some; [by eapply Hw|].
      apply list_lookup_singleton_Some in Hp as [_ <-]. apply handle_conn_well_guarded.
    - intros id pool Hl. destruct (Ho _ _ Hl) as (i&p&Hp&Hg). exists i, p.
      split; [by apply lookup_app_l_Some|done]. }
  split; [intros j p; by apply well_guarded_step|].
  assert (Hlen : i < length ts) by (by eapply lookup_lt_Some).
  (* Owners of other keys keep what they own; the stepping task keeps its key
     unless it removes it. *)
  assert (Hkeep : forall id pool, registry s !! id = Some pool ->
    (forall id', o = inr (RegRemove id') -> id' <> id) ->
    exists j p, (<[i := k (op_step o a s).1]> ts ++ spawned o) !! j = Some p /\ guarded id p).
  { intros id pool Hl Hne. destruct (Ho _ _ Hl) as (j&p&Hp&Hg).
    destruct (decide (j = i)) as [->|Hj].
    - exists i, (k (op_step o a s).1). split.
      + apply lookup_app_l_Some. by apply list_lookup_insert_eq.
      + rewrite Hi in Hp. injection Hp as <-. simpl in Hg.
        destruct o as [o|[]]; simpl in *; try done.
        exfalso. by eapply Hne.
    - exists j, p. split; [|done]. apply lookup_app_l_Some. by rewrite list_lookup_insert_ne. }
  intros id pool Hl.
  destruct (decide (calm o)) as [Hc|Hc].
  - rewrite op_step_calm in Hl by done. eapply Hkeep; [done|].
    intros id' ->. done.
  - destruct o as [o|[]]; try by destruct Hc.
    + simpl in Hl. destruct (decide (id0 = id)) as [->|Hid].
      * exists i, (k tt). split; [apply lookup_app_l_Some; by apply list_lookup_insert_eq|].
        apply Hw in Hi as [Hi _]. apply Hi.
      * rewrite lookup_insert_ne in Hl by done. by eapply Hkeep.
    + simpl in Hl. apply lookup_delete_Some in Hl as [Hid Hl]. eapply Hkeep; [done|].
      by intros id' [= <-].
Qed.

Definition balanced (x : system) : Prop :=
  exists ns, Forall2 holds ns (sys_tasks x) /\ sum_list ns + permits (sys_shared x) = max_conns.

Lemma sum_list_insert ns i (n m : nat) :
  ns !! i = Some n -> sum_list (<[i := m]> ns) + n = sum_list ns + m.
Proof.
  revert i; induction ns as [|x ns IH]; intros [|i]; simpl; try done.
  - intros [= ->]. lia.
  - intros Hi. specialize (IH i Hi). lia.
Qed.

(** The permits a task holds after an operation, and those it hands over. *)
Lemma holds_op s o k n a :
  holds n (Op o k) ->
  exists m ms, holds m (k (op_step o a s).1) /\ Forall2 holds ms (spawned o) /\
    m + sum_list ms + permits (op_step o a s).2 = n + permits s.
Proof.
  intros Hh. destruct (decide (permit_free o)) as [Hf|Hf].
  - exists n, []. rewrite op_step_permit_free by done. split_and!.
    + destruct o as [o|[]]; simpl in *; try done; apply Hh.
    + destruct o as [o|[]]; simpl in *; done || constructor.
    + simpl. lia.
  - destruct o as [o|[]]; try by destruct Hf.
    + destruct Hh as [Ht Hn]. cbn [op_step shared_step spawned].
      destruct (permits s) as [|c] eqn:Ec; simpl.
      * exists n, []. rewrite Ec. split_and!; [done|constructor|simpl; lia].
      * exists (S n), []. split_and!; [done|constructor|simpl; lia].
    + destruct Hh as (m&->&Hm). exists m, [1]. cbn [op_step shared_step spawned fst snd].
      split_and!; [apply Hm| |simpl; lia]. repeat constructor. apply relay_task_holds.
    + destruct Hh as (m&->&Hm). exists m, []. cbn [op_step shared_step spawned fst snd].
      split_and!; [apply Hm|constructor|simpl; lia].
Qed.

Lemma balanced_step x y : balanced x -> sys_step x y -> balanced y.
Proof.
  intros (ns&Hns&Hsum) Hs. destruct Hs as [s ts turns fuel self|s ts i o k a Hi];
    unfold balanced; cbn [sys_tasks sys_shared] in *.
  - exists (ns ++ [0]). split.
    + apply Forall2_app; [done|]. repeat constructor. apply handle_conn_holds.
    + rewrite sum_list_with_app. simpl. lia.
  - destruct (Forall2_lookup_r _ _ _ _ _ Hns Hi) as (n&Hn&Hh).
    destruct (holds_op s o k n a Hh) as (m&ms&Hm&Hms&E).
    exists (<[i := m]> ns ++ ms). split.
    + apply Forall2_app; [|done]. by apply Forall2_insert.
    + rewrite sum_list_with_app. pose proof (sum_list_insert _ _ _ m Hn). lia.
Qed.

(** C8: no stale registration.  In every reachable state of the server, however
    the tasks interleave and whatever the network answers, a channel that the
    registry maps to a pool is guarded by a task that has not returned and that
    will remove the entry on every path: errors, disconnection and panics of its
    own stream included. *)
Theorem no_stale_registration x id pool :
  reachable x -> registry (sys_shared x) !! id = Some pool ->
  exists i p, sys_tasks x !! i = Some p /\ guarded id p /\ forall r, p <> Ret (Some r).
Proof.
  intros Hx Hl. assert (owned x) as [_ Ho].
  { clear Hl. revert x Hx. apply reachable_ind'; [|intros x y _; apply owned_step].
    split; simpl; [by intros i p|]. intros id' p'. by rewrite lookup_empty. }
  destruct (Ho _ _ Hl) as (i&p&Hp&Hg). exists i, p. split_and!; [done|done|].
  by intros r ->.
Qed.

(** C9: connection permits.  In every reachable state the permits still available
    and those the running tasks will give back add up to [max_conns]; so relays
    never exceed the limit, no permit is lost, and when every task has returned
    all of them are available again. *)
Theorem permits_conserved x :
  reachable x ->
  (exists ns, Forall2 holds ns (sys_tasks x) /\
     sum_list ns + permits (sys_shared x) = max_conns) /\
  ((forall i p, sys_tasks x !! i = Some p -> exists r, p = Ret r) ->
     permits (sys_shared x) = max_conns).
Proof.
  intros Hx. assert (balanced x) as (ns&Hns&Hsum).
  { revert x Hx. apply reachable_ind'; [|intros x y _; apply balanced_step].
    exists []. simpl. split; [constructor|lia]. }
  split; [by exists ns|]. intros Hret.
  assert (sum_list ns = 0); [|lia]. clear Hsum Hx.
  remember (sys_tasks x) as ts eqn:E. clear E. induction Hns as [|n p ns ts Hh Hns IH]; [done|].
  simpl. destruct (Hret 0 p eq_refl) as [r ->]. simpl in Hh. subst n. simpl. apply IH.
  intros i p Hp. by apply (Hret (S i)).
Qed.
End System.
