(* ===== verification/TransportDemo.v ===== *)
(** * Concrete parameters of the transport

    Codecs, primitives and an environment, so that the theorems on the transport
    can be applied and evaluated on real inputs. *)

From S2P Require Import Prelude Streams Json Config Proto Auth Transport Client Server.

#[export] Instance demo_client_json : Json ClientMsg := digits_json.
#[export] Instance demo_server_json : Json ServerMsg := digits_json.
#[export] Instance demo_client_laws : JsonLaws ClientMsg := digits_json_laws.
#[export] Instance demo_server_laws : JsonLaws ServerMsg := digits_json_laws.
(** Codecs that cannot write the newtype variants, as serde's cannot. *)
Definition tagged_client_json : Json ClientMsg := {|
  to_vec m :=
    match m with
    | Authenticate _ =>
        Err "cannot serialize tagged newtype variant ClientMsg::Authenticate containing a string"
    | _ => to_vec (Json := digits_json) m
    end;
  from_slice := from_slice (Json := digits_json);
|}.

Definition tagged_server_json : Json ServerMsg := {|
  to_vec m :=
    match m with
    | Challenge _ =>
        Err "cannot serialize tagged newtype variant ServerMsg::Challenge containing a string"
    | ServerError _ =>
        Err "cannot serialize tagged newtype variant ServerMsg::Error containing a string"
    | _ => to_vec (Json := digits_json) m
    end;
  from_slice := from_slice (Json := digits_json);
|}.

Lemma tagged_json : InternallyTagged (H := tagged_client_json) (H0 := tagged_server_json).
Proof. constructor; intros; eauto. Qed.

#[export] Instance demo_names : ServerNames := fun h => Ok h.
#[export] Instance demo_server_debug : ServerDebug :=
  fun m => match m with None => "None" | Some _ => "Some(..)" end.

(** A toy "MAC" (key, then message) and the text of a byte string as its
    encoding: enough to satisfy the laws and tell keys apart. *)
#[export] Instance demo_crypto : Crypto := {|
  sha256 := fun b => b;
  hmac_sha256 := fun k m => k ++ m;
  hex_encode := String.string_of_list_byte;
  hex_decode := fun s => Some (String.list_byte_of_string s);
|}.

#[export] Instance demo_crypto_laws : CryptoLaws.
Proof. constructor. intros b. simpl. by rewrite String.list_byte_of_string_of_list_byte. Qed.

Definition demo_msg {T} `{Json T} (x : T) : bytes :=
  match to_vec x with Ok j => j ++ [x00] | _ => [] end.

(** The environment of a server whose network always works. *)
Definition demo_answer (b : branch) (o : srv_op) : srv_resp o :=
  match o with
  | AcceptControl => true
  | NewUuid => 77%N
  | NewPool _ => 0
  | RegContains _ => false
  | RegInsert _ _ | RegRemove _ | SpawnRelay _ _ | ReleasePermit => tt
  | RegGet _ | PickPool _ => None
  | Select => b
  | AcceptInbound => Some 0
  | TryAcquire => true
  | OpenProvider _ | WriteProvider _ | CopyBidirectional _ _ => Ok tt
  | ProxyBufferSize => 0%N
  end.

(** Its streams deliver [inb] at each read. *)
Definition demo_stream (inb : bytes) (o : stream_op) : stream_resp o :=
  match o with
  | WriteT _ buf => InTime (Ok (nlen buf))
  | ReadT _ _ => InTime (Ok inb)
  | Read _ | ReadExact _ => Ok inb
  | WriteAll _ | Flush => Ok tt
  end.

Definition demo_config (secret : option string) : TransportConfig := {|
  to := "backup.example:7835";
  tc_channel := "nightly";
  Config.secret := secret;
  carriers := default_carriers;
  udp := default_udp;
  insecure := false;
|}.

(** A client's network that always works. *)
Definition demo_net : handler net_sig unit :=
  fun o _ =>
    match o return resp (s := net_sig) o * unit with
    | TcpConnect _ _ _ => (InTime (Ok tt), tt)
    | TlsConnect _ _ => (Ok tt, tt)
    | OpenControl => (Ok tt, tt)
    end.
