(* ===== verification/TransportTheorems.v ===== *)
(** * Theorems about the transport's building blocks

    Endpoints, sizes, backoff, carriers, replayed prefixes, the multiplexer driver
    and the ready marker. *)

From S2P Require Import Prelude Streams Errors Json Text Proto Pool Shared Reconnect Prefixed.
From S2P Require Import Transport Mux Session Paired TransportDemo.
From Stdlib Require Import Strings.Ascii.

(** ** Endpoints *)

(** What may follow the authority of an address. *)
Definition path_like (s : string) : bool :=
  match s with EmptyString => true | String a _ => Ascii.eqb a "/"%char end.

Lemma split_first_path l p :
  free "/"%char l = true -> path_like p = true -> split_first "/"%char (l +:+ p) = l.
Proof.
  intros Hl Hp. unfold split_first. destruct p as [|a p].
  - rewrite string_app_nil. by rewrite split_once_none.
  - simpl in Hp. apply Ascii.eqb_eq in Hp as ->. by rewrite split_once_free.
Qed.

(** The address after the scheme is taken apart at the last colon. *)
Lemma authority_parse host port default rest path :
  host <> "" -> free "/"%char host = true -> (port <= u16_max)%N -> path_like path = true ->
  rest = host +:+ ":" +:+ pretty port +:+ path ->
  let authority := split_first "/"%char rest in
  match rsplit_once ":"%char authority with
  | Some (h, p) =>
      if String.eqb h "" then (authority, default)
      else match parse_unsigned u16_max p with
           | Some p => (h, p)
           | None => (authority, default)
           end
  | None => (authority, default)
  end = (host, port).
Proof.
  intros Hne Hh Hp Hpath ->. cbv zeta.
  assert (Hd : all_digits (pretty port) = true) by apply all_digits_pretty.
  replace (host +:+ ":" +:+ pretty port +:+ path) with ((host +:+ ":" +:+ pretty port) +:+ path)
    by (by rewrite !string_app_assoc).
  rewrite split_first_path; [|rewrite !free_app, Hh; simpl; by apply all_digits_free|done].
  change (":" +:+ pretty port) with (String ":" (pretty port)).
  rewrite rsplit_once_free by (by apply all_digits_free).
  destruct (String.eqb_spec host ""); [done|]. by rewrite parse_unsigned_pretty.
Qed.

(** Without a scheme in front, a host, a port and a path do not look like one. *)
Lemma no_scheme scheme host port path :
  free "/"%char host = true -> path_like path = true -> free "/"%char scheme = true ->
  strip_prefix (scheme +:+ "://") (host +:+ ":" +:+ pretty (port : N) +:+ path) = None.
Proof.
  intros Hh Hpath Hs. destruct (strip_prefix _ _) as [r|] eqn:E; [|done]. exfalso.
  apply strip_prefix_some in E.
  assert (Hd : all_digits (pretty port) = true) by apply all_digits_pretty.
  assert (Hf : split_first "/"%char (host +:+ ":" +:+ pretty port +:+ path) =
               host +:+ ":" +:+ pretty port).
  { rewrite <- (string_app_assoc ":"), <- (string_app_assoc host).
    apply split_first_path; [|done]. rewrite !free_app, Hh. simpl. by apply all_digits_free. }
  rewrite E in Hf. rewrite string_app_assoc in Hf. unfold split_first in Hf.
  replace (scheme +:+ ("://" +:+ r)) with ((scheme +:+ ":") +:+ String "/"%char ("/" +:+ r)) in Hf
    by (by rewrite string_app_assoc).
  rewrite split_once_free in Hf by (rewrite free_app, Hs; done).
  assert (Hr : rsplit_once ":"%char (scheme +:+ ":") = rsplit_once ":"%char (host +:+ ":" +:+ pretty port))
    by (by rewrite Hf).
  change (":" +:+ pretty port) with (String ":" (pretty port)) in Hr.
  rewrite (rsplit_once_free ":"%char scheme "") in Hr by done.
  rewrite rsplit_once_free in Hr by (by apply all_digits_free).
  injection Hr as _ Hp. by apply (pretty_N_nonempty port).
Qed.

(** Endpoint parsing.  An address written as an optional scheme, a host
    without a slash, a port and an optional path is read back exactly, with TLS
    for https alone; and whatever the text, the port fits sixteen bits. *)
Theorem parse_endpoint host port path to :
  host <> "" -> free "/"%char host = true -> (port <= u16_max)%N -> path_like path = true ->
  parse ("https://" +:+ host +:+ ":" +:+ pretty port +:+ path) =
    {| Transport.host := host; Transport.port := port; tls := true |} /\
  parse ("http://" +:+ host +:+ ":" +:+ pretty port +:+ path) =
    {| Transport.host := host; Transport.port := port; tls := false |} /\
  parse (host +:+ ":" +:+ pretty port +:+ path) =
    {| Transport.host := host; Transport.port := port; tls := false |} /\
  (Transport.port (parse to) <= u16_max)%N.
Proof.
  intros Hne Hh Hp Hpath.
  pose proof (fun d => authority_parse host port d _ path Hne Hh Hp Hpath eq_refl) as Ha.
  split_and!.
  - unfold parse. rewrite strip_prefix_app. cbv zeta in *. by rewrite Ha.
  - unfold parse. replace (strip_prefix "https://" ("http://" +:+ _)) with (@None string) by done.
    rewrite strip_prefix_app. cbv zeta in *. by rewrite Ha.
  - unfold parse. rewrite (no_scheme "https"), (no_scheme "http") by done.
    cbv zeta in *. by rewrite Ha.
  - unfold parse.
    destruct (match strip_prefix "https://" to with Some _ => _ | None => _ end)
      as [[t d] rest] eqn:Ed.
    assert (Hd : (d <= u16_max)%N).
    { destruct (strip_prefix "https://" to); [|destruct (strip_prefix "http://" to)];
        injection Ed as _ <- _; unfold u16_max, CONTROL_PORT; lia. }
    cbv zeta. destruct (rsplit_once _ _) as [[h p]|]; [|done].
    destruct (String.eqb h ""); [done|].
    destruct (parse_unsigned u16_max p) eqn:Ep; [|done]. by eapply parse_unsigned_bound.
Qed.

Lemma parse_endpoint_witness :
  parse ("https://" +:+ "backup.example" +:+ ":" +:+ pretty 9000%N +:+ "/v1") =
    {| host := "backup.example"; port := 9000; tls := true |} /\
  parse ("http://" +:+ "backup.example" +:+ ":" +:+ pretty 9000%N +:+ "/v1") =
    {| host := "backup.example"; port := 9000; tls := false |} /\
  parse ("backup.example" +:+ ":" +:+ pretty 9000%N +:+ "/v1") =
    {| host := "backup.example"; port := 9000; tls := false |} /\
  (port (parse "x") <= u16_max)%N.
Proof.
  apply (parse_endpoint "backup.example" 9000 "/v1" "x"); [done|reflexivity| |reflexivity].
  unfold u16_max. lia.
Defined.

(** ** Sizes *)

(** A decimal count followed by a known unit, in any letter case, parses to
    the product, or to nothing when it does not fit 64 bits; every parsed size
    fits; and the proxy buffer is always between 4 KiB and 16 MiB, fixed by the
    first call. *)
Theorem parse_size_spec n suffix multiplier value size var var' :
  (n <= u64_max)%N -> suffix_multiplier (to_ascii_lowercase suffix) = Some multiplier ->
  parse_size_bytes (pretty n +:+ suffix) =
    (if (n * multiplier <=? u64_max)%N then Some (n * multiplier)%N else None) /\
  (forall m, parse_size_bytes value = Some m -> (m < 2 ^ 64)%N) /\
  (let '(b, cell) := proxy_buffer_size None var in
   (MIN_PROXY_BUFFER_SIZE <= b <= MAX_PROXY_BUFFER_SIZE)%N /\
   proxy_buffer_size cell var' = (b, cell)) /\
  proxy_buffer_size (Some size) var = (size, Some size).
Proof.
  intros Hn Hs. split_and!.
  - assert (Ht : all_alnum suffix = true /\
      match suffix with EmptyString => True | String a _ => digit a = None end).
    { unfold suffix_multiplier in Hs.
      destruct suffix as [|a s]; [done|]. split.
      - apply lowercase_alnum. revert Hs.
        repeat (case_decide as Hd; [destruct Hd as [E|E]; by rewrite E|clear Hd]). done.
      - destruct (digit a) eqn:Ed; [|done]. exfalso.
        assert (Hl : lower a = a).
        { revert Ed. destruct a as [[] [] [] [] [] [] [] []]; vm_compute; done. }
        simpl in Hs. rewrite Hl in Hs. revert Hs.
        repeat (case_decide as Hd;
          [destruct Hd as [E|E]; (discriminate E || (injection E as -> _; by vm_compute in Ed))
          |clear Hd]). done. }
    destruct Ht as [Ht1 Ht2]. unfold parse_size_bytes.
    assert (Hd : all_digits (pretty n) = true) by apply all_digits_pretty.
    rewrite trim_alnum by (rewrite all_alnum_app, Ht1, all_digits_alnum by done; done).
    destruct (String.eqb_spec (pretty n +:+ suffix) "") as [E|_].
    { exfalso. destruct (pretty n) eqn:Ep; [|done]. by apply (pretty_N_nonempty n). }
    rewrite split_digits_app, parse_unsigned_pretty by done.
    by rewrite trim_alnum, Hs.
  - intros m. unfold parse_size_bytes. destruct (String.eqb _ _); [done|].
    destruct (split_digits _) as [num suf]. destruct (parse_unsigned u64_max num); [|done].
    destruct (suffix_multiplier (to_ascii_lowercase (trim suf))); [|done]. by intros [? _]%checked_mul_bound.
  - unfold proxy_buffer_size. split; [|done].
    unfold clamp, MIN_PROXY_BUFFER_SIZE, MAX_PROXY_BUFFER_SIZE, DEFAULT_PROXY_BUFFER_SIZE.
    destruct var as [raw|]; [destruct (parse_size_bytes raw)|]; lia.
  - done.
Qed.

Lemma parse_size_spec_witness :
  parse_size_bytes (pretty 8%N +:+ "KiB") =
    (if (8 * 1024 <=? u64_max)%N then Some (8 * 1024)%N else None) /\
  (forall m, parse_size_bytes "12 mb" = Some m -> (m < 2 ^ 64)%N) /\
  (let '(b, cell) := proxy_buffer_size None (Some "1g") in
   (MIN_PROXY_BUFFER_SIZE <= b <= MAX_PROXY_BUFFER_SIZE)%N /\
   proxy_buffer_size cell None = (b, cell)) /\
  proxy_buffer_size (Some 4096%N) (Some "1g") = (4096%N, Some 4096%N).
Proof.
  apply (parse_size_spec 8 "KiB" 1024 "12 mb" 4096 (Some "1g") None);
    [unfold u64_max; lia|vm_compute; reflexivity].
Defined.

Example parse_size_spaces : parse_size_bytes " 12 mb " = Some 12000000%N.
Proof. vm_compute. reflexivity. Qed.

(** ** Backoff *)

(** The delays of a new backoff double from the initial one up to the cap,
    and [k] of them in a row are exactly these. *)
Theorem backoff_doubles_to_cap k initial max :
  (max <= u64_max)%N ->
  (delays k (new_with initial max)).1 =
    (fun i => N.min (N.min initial max * 2 ^ N.of_nat i) max) <$> seq 0 k.
Proof. intros Hm. apply (delays_spec k (new_with initial max)); simpl; lia. Qed.

Lemma backoff_doubles_to_cap_witness :
  (delays 7 Backoff_new).1 = [1; 2; 4; 8; 16; 32; 32]%N.
Proof.
  etrans; [apply (backoff_doubles_to_cap 7 1 32); unfold u64_max; lia|reflexivity].
Defined.

(** [reset] forgets the cap.  With an initial delay above the cap, the delay
    after a reset is the initial one. *)
Theorem reset_ignores_cap initial max b :
  (max < initial)%N -> (delays 1 (new_with initial max)).1 = [max] /\
  (next_delay (reset (new_with initial max))).1 = initial /\
  (next_delay (reset (new_with initial max))).1 <> max /\
  (next_delay (reset b)).1 = initial_secs b.
Proof. intros Hlt. simpl. split_and!; [f_equal; lia|done|lia|done]. Qed.

Lemma reset_ignores_cap_witness :
  (delays 1 (new_with 60 32)).1 = [32%N] /\
  (next_delay (reset (new_with 60 32))).1 = 60%N /\
  (next_delay (reset (new_with 60 32))).1 <> 32%N /\
  (next_delay (reset Backoff_new)).1 = initial_secs Backoff_new.
Proof. apply (reset_ignores_cap 60 32 Backoff_new). lia. Defined.

(** What [run] sleeps, given which of its attempts to connect succeed: the
    streak of failures decides. *)
Fixpoint sleeps (outcomes : list bool) (streak : nat) : list N :=
  match outcomes with
  | [] => []
  | o :: os =>
      let n := if o then 0 else streak in
      N.min (2 ^ N.of_nat n) 32 :: sleeps os (S n)
  end.

(** An environment that connects as told, and a log of the sleeps. *)
Definition reconnect_env {Handle} (hdl : Handle) (served : anyhow + unit) :
  handler (reconnect_sig Handle) (list bool * list N) :=
  fun o st =>
    match o return resp (s := reconnect_sig Handle) o * (list bool * list N) with
    | DoConnect =>
        (match st.1 with true :: _ => inr hdl | _ => inl (AnyMsg "connect") end,
         (tail st.1, st.2))
    | DoServe _ => (served, st)
    | Sleep n => (tt, (st.1, st.2 ++ [n]))
    end.

Lemma reconnect_loop_sleeps {Handle} (hdl : Handle) served os b streak log :
  next_secs b = N.min (2 ^ N.of_nat streak) 32 -> max_secs b = 32%N -> initial_secs b = 1%N ->
  (run (reconnect_env hdl served) (reconnect_loop (length os) b) (os, log)).2.2 =
    log ++ sleeps os streak.
Proof.
  revert b streak log; induction os as [|o os IH]; intros b streak log Hn Hm Hi;
    [by rewrite app_nil_r|]. cbn [length reconnect_loop sleeps].
  assert (Hnext : forall n : nat, (N.min (saturating_mul (N.min (2 ^ N.of_nat n) 32) 2) 32 =
    N.min (2 ^ N.of_nat (S n)) 32)%N).
  { intros n. rewrite Nat2N.inj_succ, N.pow_succ_r'. unfold saturating_mul, u64_max. lia. }
  destruct o; cbn.
  - etrans; [apply (IH _ 1)|]; cbn; try done; rewrite ?Hm, ?Hi; try done.
    by rewrite <- app_assoc.
  - etrans; [apply (IH _ (S streak))|]; cbn; try done; rewrite ?Hm, ?Hn, ?Hnext; try done.
    by rewrite <- app_assoc.
Qed.

(** The reconnection loop.  Whatever the pattern of successes and failures,
    the sleep after the attempt that ends a streak of [n] failures is 2^n
    seconds, at most 32, and a connection that was served, however it ended,
    starts the streak afresh; without reconnection there is one attempt. *)
Theorem reconnect_delays {Handle} (hdl : Handle) served os :
  (run (reconnect_env hdl served) (reconnect_run (length os) true) (os, [])).2.2 = sleeps os 0 /\
  Forall (fun n => 1 <= n <= 32)%N (sleeps os 0) /\
  (run (reconnect_env hdl served) (reconnect_run 0 false) (true :: os, [])) =
    (Some (match served with inr _ => Ok tt | inl e => Err e end), (os, [])).
Proof.
  split_and!; [|generalize 0; induction os as [|o os IH]; intros n; constructor; auto|done].
  - unfold reconnect_run. rewrite run_bind. cbn [run snd].
    apply (reconnect_loop_sleeps hdl served os Backoff_new 0 []); done.
  - pose proof (N.pow_nonzero 2 (N.of_nat (if o then 0 else n))). lia.
Qed.

Example reconnect_delays_run : sleeps [false; false; true; false] 0 = [1; 2; 1; 2]%N.
Proof. reflexivity. Qed.

(** ** Carriers *)

(** Round robin.  As many picks in a row as there are live carriers return
    each of them exactly once, a pick never returns a dead carrier, and it fails
    exactly when all are dead. *)
Theorem pick_round_robin {O} (p : CarrierPool O) :
  (pool_next p + nlen (live p) < 2 ^ 64)%N ->
  (picks (length (live p)) p).1 ≡ₚ (fun c => Some (opener c)) <$> live p /\
  ((pick p).1 = None <-> live p = []) /\
  (forall o, (pick p).1 = Some o -> exists c, c ∈ pool_carriers p /\ alive c = true /\ opener c = o) /\
  Forall (fun c => alive c = true) (pool_carriers (pick p).2).
Proof.
  intros Hn. destruct (decide (live p = [])) as [El|El].
  - rewrite El. unfold pick. fold (live p). rewrite El. by split_and!.
  - destruct (pick_live p El) as [E1 _]. split_and!.
    + rewrite picks_rotate by done. set (n := length (live p)).
      assert (Hn0 : n <> 0) by (unfold n; by destruct (live p)).
      set (s := N.to_nat (pool_next p)).
      assert (Er : (fun i => opener <$> live p !! ((s + i) mod n)) <$> seq 0 n =
                   (fun c => Some (opener c)) <$> rotate s (live p)).
      { apply list_eq. intros i. rewrite !list_lookup_fmap.
        destruct (decide (i < n)) as [Hi|Hi].
        - rewrite lookup_seq_lt by done. simpl. rewrite lookup_rotate_r by done.
          unfold rotate_nat_add. rewrite <- Nat2Z.inj_add, <- Nat2Z.inj_mod, Nat2Z.id. fold n.
          destruct (live p !! ((s + i) `mod` n)) as [c|] eqn:El'; [reflexivity|].
          apply lookup_ge_None in El'. fold n in El'.
          pose proof (Nat.mod_upper_bound (s + i) n Hn0). lia.
        - rewrite (proj2 (lookup_ge_None (seq 0 n) i)) by (rewrite length_seq; lia).
          rewrite (proj2 (lookup_ge_None (rotate s (live p)) i)); [done|].
          rewrite length_rotate. fold n. lia. }
      rewrite Er. apply fmap_Permutation. unfold rotate.
      by rewrite (comm (++)), take_drop.
    + rewrite E1. split; [|done]. intros Hf. exfalso.
      assert (N.to_nat (pool_next p mod nlen (live p)) < length (live p)) as Hlt.
      { assert (length (live p) <> 0) by (by destruct (live p)).
        pose proof (N.mod_lt (pool_next p) (nlen (live p))). unfold nlen in *. lia. }
      apply lookup_lt_is_Some in Hlt as [c Hc]. by rewrite Hc in Hf.
    + intros o. rewrite E1. intros (c&Hc&->)%fmap_Some.
      apply list_elem_of_lookup_2 in Hc. unfold live in Hc.
      apply list_elem_of_filter in Hc as [? ?]. by exists c.
    + unfold pick. destruct (Nat.eqb _ _); cbn [snd pool_carriers];
        apply Forall_forall; intros c Hc; by apply list_elem_of_filter in Hc as [? _].
Qed.

Definition demo_pool : CarrierPool nat := {|
  pool_carriers := [Carrier_new 1; {| opener := 2; alive := false |}; Carrier_new 3; Carrier_new 4];
  pool_next := 5;
|}.

Lemma pick_round_robin_witness :
  (picks 3 demo_pool).1 ≡ₚ [Some 1; Some 3; Some 4] /\
  ((pick demo_pool).1 = None <-> live demo_pool = []) /\
  (forall o, (pick demo_pool).1 = Some o ->
     exists c, c ∈ pool_carriers demo_pool /\ alive c = true /\ opener c = o) /\
  Forall (fun c => alive c = true) (pool_carriers (pick demo_pool).2).
Proof. apply (pick_round_robin demo_pool). reflexivity. Defined.

(** ** Replayed prefixes *)

(** Replay.  Reads of any sizes on a wrapped stream obtain the prefix first,
    whole and in order, and then exactly what the same stream would have given to
    the reads that are left; writes, flushes and shutdown reach the inner stream
    and leave the prefix alone. *)
Theorem prefixed_replays {S} (A : AsyncStream S) p (s : S) ns buf :
  (reads (prefixed_stream A) ns (Prefixed_new p s)).1 =
    take (N.to_nat (foldr N.add 0%N ns)) p ++ (reads A (sizes_left (length p) ns) s).1 /\
  inner (reads (prefixed_stream A) ns (Prefixed_new p s)).2 =
    (reads A (sizes_left (length p) ns) s).2 /\
  (forall t, poll_write (prefixed_stream A) t buf =
     ((poll_write A (inner t) buf).1, with_inner t (poll_write A (inner t) buf).2)) /\
  (forall t, poll_flush (prefixed_stream A) t =
     ((poll_flush A (inner t)).1, with_inner t (poll_flush A (inner t)).2)) /\
  (forall t, poll_shutdown (prefixed_stream A) t =
     ((poll_shutdown A (inner t)).1, with_inner t (poll_shutdown A (inner t)).2)).
Proof.
  destruct (reads_prefixed A ns (Prefixed_new p s)) as [E1 E2]; [simpl; lia|].
  cbn [prefix pos inner Prefixed_new] in E1, E2. rewrite Nat.sub_0_r, ?drop_0 in *.
  split_and!; [done|done|..]; intros t; simpl; unfold prefixed_write, prefixed_flush,
    prefixed_shutdown; [by destruct (poll_write A _ _)|by destruct (poll_flush A _)|
    by destruct (poll_shutdown A _)].
Qed.

(** ** The multiplexer driver *)

Lemma drive_accounted {Stream Reply SS} (h : handler (drive_sig Stream Reply) SS) fuel st s l :
  accounted st l ->
  let r := run (mux_logged h) (drive fuel st) (s, l) in accounted r.1.2 r.2.2.
Proof.
  revert st s l; induction fuel as [|fuel IH]; intros st s l Hl; [done|].
  cbn [drive]. cbv zeta. rewrite run_bind.
  destruct (drive_poll_accounted h st s l Hl) as (Ha&_&Ho&_).
  destruct (run (mux_logged h) (drive_poll st) (s, l)) as [[step st1] [s1 l1]].
  cbn [fst snd] in *. destruct step as [[y|x|]|].
  - apply (IH st1 _ l1 Ha).
  - destruct (Ho x eq_refl) as [q Hq]. rewrite Hq.
    apply (IH {| pending := None; openers_gone := openers_gone st1 |} _
      {| taken_reqs := taken_reqs l1; answered := answered l1 ++ [q] |}).
    unfold accounted in *. rewrite Ha, Hq. simpl. by rewrite app_nil_r.
  - exact Ha.
  - apply (IH st1 _ l1 Ha).
Qed.

(** The driver answers every request to open a stream, once and in the order
    it took them: at any moment the requests taken are those answered and at most
    one more, whatever the connection and the openers do; and an opener whose
    request is refused or dropped sees a disconnection, never a wait. *)
Theorem driver_answers_in_order {Stream Reply SS} (h : handler (drive_sig Stream Reply) SS) fuel s :
  let r := run (mux_logged h) (drive fuel driver0) (s, {| taken_reqs := []; answered := [] |}) in
  taken_reqs r.2.2 = answered r.2.2 ++ option_list (pending r.1.2) /\
  (forall SO (ho : handler (opener_sig (Stream := Stream)) SO) so,
     (run ho opener_open so).1 =
       if (ho SendRequest so).1 then
         match (ho AwaitReply (ho SendRequest so).2).1 with
         | Some x => x
         | None => Err disconnected
         end
       else Err disconnected).
Proof.
  cbv zeta. split; [by apply drive_accounted|].
  intros SO ho so. unfold opener_open. cbn. by destruct (ho SendRequest so) as [[] so1].
Qed.

(** ** The ready marker *)

(** The destination's new substream is ready at the source: opening on one
    side and accepting on the other both succeed over any transport, and a first
    byte that is not the marker is refused. *)
Theorem stream_ready {L1 L2 : sig} {SM1 SM2 S1 S2} (hM1 : handler mux_sig SM1)
  (hM2 : handler mux_sig SM2) (h1 : handler L1 S1) (h2 : handler L2 S2) d1 d2 m1 m1' m2 m2' s1 s2 b :
  hM1 MuxOpen m1 = (Ok tt, m1') -> hM2 MuxAccept m2 = (Some tt, m2') -> b <> STREAM_READY ->
  ends_in (hsum hM1 h1) (hsum hM2 h2)
    (Net (paired_channel (PairedDestination d1) OpenStream) (m1, s1)
         (paired_channel (PairedSource d2) AcceptStream) (m2, s2) [] [])
    (final (Ok tt) (m1', s1) (Ok tt) (m2', s2)) /\
  behaves Exact (hsum hM2 h2) (accept_stream (PairedSource d2)) (m2, s2) (rcvs [b])
    (Err (phase Errors.Connect "invalid stream ready marker")) (m2', s2).
Proof.
  intros E1 E2 Hb. split.
  - eapply dual_peers_end.
    + by apply open_stream_behaves.
    + apply (accept_stream_behaves hM2 h2 d2 m2 m2' s2 STREAM_READY E2).
    + done.
  - pose proof (accept_stream_behaves hM2 h2 d2 m2 m2' s2 b E2) as Hx.
    by rewrite decide_False in Hx.
Qed.

Definition demo_mux : handler mux_sig unit :=
  fun o _ =>
    match o return resp (s := mux_sig) o * unit with
    | MuxOpen => (Ok tt, tt)
    | MuxAccept => (Some tt, tt)
    end.

Lemma stream_ready_witness :
  ends_in (hsum demo_mux hno) (hsum demo_mux hno)
    (Net (paired_channel (PairedDestination []) OpenStream) (tt, tt)
         (paired_channel (PairedSource []) AcceptStream) (tt, tt) [] [])
    (final (Ok tt) (tt, tt) (Ok tt) (tt, tt)) /\
  behaves Exact (hsum demo_mux hno) (accept_stream (PairedSource [])) (tt, tt) (rcvs [x01])
    (Err (phase Errors.Connect "invalid stream ready marker")) (tt, tt).
Proof.
  apply (stream_ready demo_mux demo_mux hno hno [] [] tt tt tt tt tt tt x01); done.
Defined.

(** ** The control codec *)

Section Codec.
Context {T : Type} `{JsonLaws T} {L : sig} {St : Type} (h : handler L St).

Abbreviation hm := (hsum mem_stream h).

Lemma split_nul_unique pre post json rest :
  x00 ∉ pre -> x00 ∉ json -> pre ++ x00 :: post = json ++ x00 :: rest -> pre = json /\ post = rest.
Proof.
  intros Hp Hj E. apply (f_equal split_nul) in E. rewrite !split_nul_app in E by done.
  by injection E.
Qed.

(** One receive takes one message, whatever part of it is already buffered and
    however the rest arrives, and keeps what follows for the next. *)
Lemma recv_one (x : T) json rest fuel d inb out sch st :
  to_vec x = Ok json -> d ++ inb = json ++ x00 :: rest -> length inb <= fuel ->
  exists d' inb' sch',
    run hm (recv_within (T := T) fuel d) (Mem inb out sch, st) =
      ((Ok (Some x), d'), (Mem inb' out sch', st)) /\ d' ++ inb' = rest /\ length inb' <= length inb.
Proof.
  intros Hx. pose proof (json_no_nul _ _ Hx) as Hn. revert d inb sch.
  induction fuel as [|fuel IH]; intros d inb sch E Hf; cbn [recv_within];
    destruct (split_nul d) as [[pre post]|] eqn:Es;
    try (apply split_nul_some in Es as [-> Hpre]; rewrite <- app_assoc in E;
         destruct (split_nul_unique pre (post ++ inb) json rest Hpre Hn E) as [-> <-];
         exists post, inb, sch; by rewrite (json_roundtrip _ _ Hx)).
  - destruct inb; [|simpl in Hf; lia]. rewrite app_nil_r in E. subst d.
    by rewrite split_nul_app in Es.
  - cbn [pbind stream run hsum mem_stream fst snd inbox outbox sched].
    set (m := N.to_nat 1024 `min` quota sch).
    assert (Hm : 0 < m) by (pose proof (quota_pos sch); unfold m; lia).
    destruct inb as [|b inb].
    { rewrite app_nil_r in E. subst d. by rewrite split_nul_app in Es. }
    destruct m as [|m]; [lia|]. cbn [take drop].
    destruct (IH (d ++ b :: take m inb) (drop m inb) (tail sch)) as (d'&inb'&sch'&Er&Ed&Hl).
    + by rewrite <- app_assoc, <- app_comm_cons, take_drop.
    + rewrite length_drop. simpl in Hf. lia.
    + exists d', inb', sch'. split_and!; [exact Er|done|].
      rewrite length_drop in Hl. simpl. lia.
Qed.

(** Receives in a row, each with the buffer the one before it left. *)
Fixpoint recv_many (n fuel : nat) (d : bytes) :
  prog (stream_sig ⊕ L) (list (ares (option T)) * bytes) :=
  match n with
  | O => Ret ([], d)
  | S n' =>
      let! (m, d) := recv_within fuel d in
      let! (ms, d) := recv_many n' fuel d in
      Ret (m :: ms, d)
  end.

(** The codec.  Messages written one after the other are received one by one,
    all of them and in order, however the bytes are cut into reads; what follows
    the last stays buffered or unread, nothing is lost.  The number of bytes to
    come is a sufficient bound on the reads of each receive. *)
Theorem messages_received_in_order xs wires rest fuel out sch st :
  Forall2 msg_wire xs wires -> length (concat wires ++ rest) <= fuel ->
  exists d' inb' sch',
    run hm (recv_many (length xs) fuel []) (Mem (concat wires ++ rest) out sch, st) =
      (((fun x => Ok (Some x)) <$> xs, d'), (Mem inb' out sch', st)) /\
    d' ++ inb' = rest.
Proof.
  intros Hw Hf.
  assert (Hgen : forall d inb sch, d ++ inb = concat wires ++ rest -> length inb <= fuel ->
    exists d' inb' sch',
      run hm (recv_many (length xs) fuel d) (Mem inb out sch, st) =
        (((fun x => Ok (Some x)) <$> xs, d'), (Mem inb' out sch', st)) /\ d' ++ inb' = rest);
    [|by apply Hgen].
  clear Hf sch. induction Hw as [|x w xs wires (json&Hx&->) Hw IH]; intros d inb sch E Hl.
  - by exists d, inb, sch.
  - cbn [concat] in E. rewrite <- !app_assoc in E.
    destruct (recv_one x json (concat wires ++ rest) fuel d inb out sch st Hx E Hl)
      as (d1&inb1&sch1&E1&Ed1&Hl1).
    destruct (IH d1 inb1 sch1 Ed1 ltac:(lia)) as (d2&inb2&sch2&E2&Ed2).
    exists d2, inb2, sch2. split; [|done]. cbn [length recv_many].
    rewrite run_bind. setoid_rewrite E1. cbn [fst snd].
    rewrite run_bind. setoid_rewrite E2. done.
Qed.
End Codec.

Lemma messages_received_in_order_witness :
  exists d' inb' sch',
    run (hsum mem_stream hno) (recv_many (T := ClientMsg) 2 5000 [])
      (Mem (concat [demo_msg (Register "nightly"); demo_msg ClientHeartbeat] ++ [x01]) [] [3; 0; 7], tt)
    = (((fun x => Ok (Some x)) <$> [Register "nightly"; ClientHeartbeat], d'),
       (Mem inb' [] sch', tt)) /\
    d' ++ inb' = [x01].
Proof.
  apply (messages_received_in_order hno [Register "nightly"; ClientHeartbeat]
    [demo_msg (Register "nightly"); demo_msg ClientHeartbeat] [x01] 5000 [] [3; 0; 7] tt).
  - repeat constructor; by eexists.
  - apply Nat.leb_le. vm_compute. reflexivity.
Defined.
