(* ===== verification/ServerTheorems.v ===== *)
(** * Theorems about the coordination server and its clients *)

From S2P Require Import Prelude Streams Errors Json Config Proto Auth Pool Transport Paired.
From S2P Require Import Client Shared Server ServerSystem TransportDemo.

(** ** The server's side of a connection, alone *)

(** Its operations against the shared state, [orc] answering for the network. *)
Definition srv_handler (var : option string) (orc : forall o, srv_resp o) : handler srv_sig shared :=
  fun o s => shared_step var o (orc o) s.

(** A provider on the books: a fresh pool holding its opener. *)
Definition registered (s : shared) (self : nat) (id : string) : shared :=
  set_registry (set_pools s (<[size (pools s) := CarrierPool_new self]> (pools s)))
    (<[id := size (pools s)]> (registry s)).

Section Serving.
Context `{CryptoLaws} `{JsonLaws ClientMsg} `{JsonLaws ServerMsg}.
Context (var : option string) (orc : forall o, srv_resp o).
Context (Hacc : orc AcceptControl = true).

Abbreviation hV := (srv_handler var orc).

Lemma serve_provider_behaves m fuel d self id s bs :
  registry s !! id = None -> msg_wire ServerOk bs ->
  behaves m hV (serve_provider 0 fuel d self id) s (snds bs) None (registered s self id).
Proof.
  intros Hid Hb. unfold serve_provider. cbn [pbind await].
  apply (bh_local m hV (RegContains id)). simpl. rewrite Hid. simpl.
  apply (bh_local m hV (NewPool self)). simpl.
  apply (bh_local m hV (RegInsert id _)). unfold with_guard.
  apply behaves_assoc. rewrite <- (app_nil_r (snds bs)).
  apply send_then_behaves; [done|]. constructor.
Qed.

Lemma serve_consumer_behaves m fuel d id s bs :
  msg_wire ServerOk bs ->
  behaves m hV (serve_consumer 0 fuel d id) s (snds bs) None s.
Proof.
  intros Hb. unfold serve_consumer. rewrite <- (app_nil_r (snds bs)).
  apply send_then_behaves; [done|]. constructor.
Qed.

(** The server accepts the right tag and goes on. *)
Lemma server_auth_behaves {A} m a fuel bc ba
  (k : ares unit * bytes -> prog srv A) s τ r s' :
  msg_wire (Challenge (orc NewUuid)) bc ->
  msg_wire (Authenticate (answer a (orc NewUuid))) ba -> length ba <= fuel -> turn m τ ->
  behaves m hV (k (Ok tt, [])) s τ r s' ->
  behaves m hV (pbind (server_handshake a (await NewUuid) fuel []) k) s
    (snds bc ++ rcvs ba ++ τ) r s'.
Proof.
  intros Hc Ha Hf Ht Hk. unfold server_handshake. cbn [pbind await].
  apply (bh_local m hV NewUuid). simpl. unfold dtry, keep.
  apply behaves_assoc, behaves_assoc, send_then_behaves; [done|]. cbn [pbind].
  apply behaves_assoc, (recv_msg_behaves hV m (Authenticate (answer a (orc NewUuid))));
    [done..|]. cbn [pbind]. by rewrite validate_answer.
Qed.
End Serving.

(** ** The client's side, alone *)

(** A network on which every connection, handshake and substream succeeds. *)
Definition net_up `{ServerNames} {SN} (hN : handler net_sig SN) : Prop :=
  (forall secs h p s, hN (TcpConnect secs h p) s = (InTime (Ok tt), s)) /\
  (forall c n s, hN (TlsConnect c n) s = (Ok tt, s)) /\
  (forall s, hN OpenControl s = (Ok tt, s)) /\
  (forall h, exists n, server_name_try_from h = Ok n).

Section Connecting.
Context `{CryptoLaws} `{JsonLaws ClientMsg} `{JsonLaws ServerMsg} `{ServerNames} `{ServerDebug}.
Context {L : sig} {SN SL : Type} (hN : handler net_sig SN) (hL : handler L SL) (Hup : net_up hN).

Abbreviation hX := (hsum hN hL).

Lemma connect_behaves {A} m e i (k : ares (ControlStream unit unit) -> prog _ A) st τ a st' :
  (forall sock, behaves m hX (k (Ok sock)) st τ a st') ->
  behaves m hX (pbind (connect e i) k) st τ a st'.
Proof.
  intros Hk. destruct Hup as (Ht&Hl&_&Hn), st as [s l]. unfold connect, connect_with_timeout.
  cbn [pbind ptry net_await]. apply (bh_local m hX (inl (TcpConnect _ _ _))). simpl. rewrite Ht.
  simpl. destruct (negb (tls e)); [apply Hk|]. destruct (Hn (host e)) as [n ->]. simpl.
  apply (bh_local m hX (inl (TlsConnect _ n))). simpl. rewrite Hl. simpl. apply Hk.
Qed.

(** Up to the server's answer: the hello has been sent. *)
Lemma connect_as_behaves m fuel cfg hello what ch st τ r st' bh :
  msg_wire hello bh ->
  behaves m hX
    (let! (authed, control) :=
       (match secret cfg with
        | Some s => client_handshake (authenticator_new s) fuel []
        | None => Ret (Ok tt, [])
        end) in
     let? _ := Ret (connecting "auth" authed) in
     let! (reply, control) := recv_server fuel control in
     let? reply := Ret (connecting "recv" reply) in
     match reply with
     | Some ServerOk => Ret (Ok (ch control))
     | Some (ServerError reason) => Ret (Err (phase Errors.Connect ("server error: " +:+ reason)))
     | other => Ret (Err (phase Errors.Connect ("unexpected response: " +:+ server_debug other)))
     end) st τ r st' ->
  behaves m hX (connect_as fuel cfg hello what ch) st (snds bh ++ τ) r st'.
Proof.
  intros Hh Hk. unfold connect_as. cbv zeta. apply connect_behaves. intros sock. cbn [ptry pbind].
  destruct st as [s l]. apply (bh_local m hX (inl OpenControl)).
  destruct Hup as (_&_&Ho&_). simpl. rewrite Ho. simpl.
  by apply send_then_behaves.
Qed.

(** With no secret, or one the server shares, the client gets its channel. *)
Lemma connect_as_ok fuel cfg hello what ch c bh bo bc ba st :
  msg_wire hello bh -> msg_wire ServerOk bo -> length bo <= fuel ->
  (forall s, secret cfg = Some s ->
     msg_wire (Challenge c) bc /\ length bc <= fuel /\
     msg_wire (Authenticate (answer (authenticator_new s) c)) ba) ->
  behaves Whole hX (connect_as fuel cfg hello what ch) st
    (snds bh ++ (if secret cfg then rcvs bc ++ snds ba else []) ++ rcvs bo)
    (Ok (ch [])) st.
Proof.
  intros Hh Ho Hf Hs. apply connect_as_behaves; [done|].
  assert (Hlast : forall m, m = Whole -> behaves m hX
    (pbind (recv_server fuel []) (fun '(reply, control) =>
       let? reply := Ret (connecting "recv" reply) in
       match reply with
       | Some ServerOk => Ret (Ok (ch control))
       | Some (ServerError reason) =>
           Ret (Err (phase Errors.Connect ("server error: " +:+ reason)))
       | other =>
           Ret (Err (phase Errors.Connect ("unexpected response: " +:+ server_debug other)))
       end)) st (rcvs bo) (Ok (ch [])) st).
  { intros m ->. rewrite <- (app_nil_r (rcvs bo)).
    apply (recv_msg_behaves hX Whole ServerOk); [done|done|by right|]. constructor. }
  destruct (secret cfg) as [s|].
  - destruct (Hs s eq_refl) as (Hc&Hfc&Ha). unfold client_handshake, dtry. rewrite <- app_assoc.
    apply behaves_assoc, (recv_msg_behaves hX Whole (Challenge c)); [done|done| |].
    { left. split; [done|]. by apply (msg_wire_send (Authenticate (answer (authenticator_new s) c))). }
    unfold keep. apply behaves_assoc, send_then_behaves; [done|]. cbn [pbind].
    cbn [ptry pbind connecting map_err]. by apply Hlast.
  - cbn [pbind ptry connecting map_err app]. by apply Hlast.
Qed.
End Connecting.

(** ** The two sides together *)

Section Handshake.
Context `{CryptoLaws} `{JsonLaws ClientMsg} `{JsonLaws ServerMsg} `{ServerNames} `{ServerDebug}.
Context {L : sig} {SN SL : Type} (hN : handler net_sig SN) (hL : handler L SL).
Context (var : option string) (orc : forall o, srv_resp o).

(** The messages of the conversation and their bytes, each within the bound on
    the reads of one receive; the last two only with a secret. *)
Definition handshake_wire (fuel : nat) (secret : option string) (hello : ClientMsg)
  (bh bo bc ba : bytes) : Prop :=
  msg_wire hello bh /\ length bh <= fuel /\ msg_wire ServerOk bo /\ length bo <= fuel /\
  forall s, secret = Some s ->
    msg_wire (Challenge (orc NewUuid)) bc /\ length bc <= fuel /\
    msg_wire (Authenticate (answer (authenticator_new s) (orc NewUuid))) ba /\ length ba <= fuel.

Abbreviation hX := (hsum hN hL).
Abbreviation hV := (srv_handler var orc).

(** The server's half for any first message it serves. *)
Lemma handle_conn_behaves fuel self secret hello bh bo bc ba s s' :
  orc AcceptControl = true -> handshake_wire fuel secret hello bh bo bc ba ->
  behaves Whole hV
    (match Some hello with
     | Some (Register ch) => serve_provider 0 fuel [] self ch
     | Some (Connect ch) => serve_consumer 0 fuel [] ch
     | _ => Ret (Some (Ok tt))
     end) s (snds bo) None s' ->
  behaves Whole hV (handle_conn 0 fuel self (authenticator_new <$> secret)) s
    (rcvs bh ++ (if secret then snds bc ++ rcvs ba else []) ++ snds bo) None s'.
Proof.
  intros Hacc (Hh&Hfh&Ho&Hfo&Hs) Hk. unfold handle_conn. cbn [pbind await].
  apply (bh_local Whole hV AcceptControl). simpl. rewrite Hacc. simpl.
  apply (recv_msg_behaves hV Whole hello); [done|done| |].
  { left. split; [done|]. destruct secret as [x|].
    - destruct (Hs x eq_refl) as (Hc&_). rewrite <- app_assoc. by apply (msg_wire_send (Challenge (orc NewUuid))).
    - rewrite <- (app_nil_r (snds bo)). simpl. by apply (msg_wire_send ServerOk). }
  destruct secret as [x|].
  - destruct (Hs x eq_refl) as (Hc&Hfc&Ha&Hfa). rewrite <- app_assoc. cbn [option_fmap fmap option_map].
    apply (server_auth_behaves var orc Whole (authenticator_new x)); [done|done|done| |].
    { left. split; [done|]. rewrite <- (app_nil_r (snds bo)). by apply (msg_wire_send ServerOk). }
    cbn [pbind]. destruct hello; exact Hk.
  - cbn [pbind fmap option_fmap option_map app]. destruct hello; exact Hk.
Qed.

(** Registration.  A source and a server that share a secret, or use none,
    complete the handshake over any transport, provided the serializer can write
    its messages: every execution is finite and ends with the source holding its
    channel and the server serving it, the channel mapped to a new pool with the
    source's opener. *)
Theorem source_registers fuel self cfg bh bo bc ba st s :
  net_up hN -> orc AcceptControl = true ->
  handshake_wire fuel (secret cfg) (Register (tc_channel cfg)) bh bo bc ba ->
  registry s !! tc_channel cfg = None ->
  ends_in hX hV
    (Net (connect_source fuel cfg) st
         (handle_conn 0 fuel self (authenticator_new <$> secret cfg)) s [] [])
    (final (Ok (PairedSource [])) st None (registered s self (tc_channel cfg))).
Proof.
  intros Hup Hacc Hw Hid. pose proof Hw as (Hh&_&Ho&Hfo&Hs).
  eapply dual_peers_end_whole.
  - apply (connect_as_ok hN hL Hup fuel cfg _ "send register" PairedSource (orc NewUuid)
      bh bo bc ba); [done..|]. intros x Hx. destruct (Hs x Hx) as (?&?&?&_). auto.
  - apply (handle_conn_behaves fuel self (secret cfg) (Register (tc_channel cfg))); [done..|].
    by apply serve_provider_behaves.
  - destruct (secret cfg); by autorewrite with rb.
Qed.

(** Connection.  A destination gets its channel under the same conditions,
    whether or not a provider is registered for it: the server answers [Ok]
    before it looks, and its shared state does not change. *)
Theorem destination_connects fuel self cfg bh bo bc ba st s :
  net_up hN -> orc AcceptControl = true ->
  handshake_wire fuel (secret cfg) (Proto.Connect (tc_channel cfg)) bh bo bc ba ->
  ends_in hX hV
    (Net (connect_destination fuel cfg) st
         (handle_conn 0 fuel self (authenticator_new <$> secret cfg)) s [] [])
    (final (Ok (PairedDestination [])) st None s).
Proof.
  intros Hup Hacc Hw. pose proof Hw as (Hh&_&Ho&Hfo&Hs).
  eapply dual_peers_end_whole.
  - apply (connect_as_ok hN hL Hup fuel cfg _ "send connect" PairedDestination (orc NewUuid)
      bh bo bc ba); [done..|]. intros x Hx. destruct (Hs x Hx) as (?&?&?&_). auto.
  - apply (handle_conn_behaves fuel self (secret cfg) (Proto.Connect (tc_channel cfg))); [done..|].
    by apply serve_consumer_behaves.
  - destruct (secret cfg); by autorewrite with rb.
Qed.
End Handshake.

(** A demo conversation. *)
Lemma demo_handshake_wire secret hello :
  (length (demo_msg hello) <=? 2000) && (length (demo_msg ServerOk) <=? 2000) &&
  (length (demo_msg (Challenge 77)) <=? 2000) &&
  (length (demo_msg (Authenticate (answer (authenticator_new (default "" secret)) 77))) <=? 2000)
    = true ->
  handshake_wire (demo_answer ControlMsg) 2000 secret hello (demo_msg hello) (demo_msg ServerOk)
    (demo_msg (Challenge 77))
    (demo_msg (Authenticate (answer (authenticator_new (default "" secret)) 77))).
Proof.
  intros Hl. apply andb_true_iff in Hl as [Hl H4]. apply andb_true_iff in Hl as [Hl H3].
  apply andb_true_iff in Hl as [H1 H2].
  apply Nat.leb_le in H1, H2, H3, H4. unfold handshake_wire.
  split_and!; [by eexists|done|by eexists|done|].
  intros s ->. split_and!; [by eexists|done|by eexists|done].
Qed.

Lemma demo_net_up : net_up demo_net.
Proof.
  split_and!; [by intros ? ? ? []|by intros ? ? []|by intros []|]. intros h. by exists h.
Qed.

Lemma source_registers_witness :
  ends_in (hsum demo_net hno) (srv_handler None (demo_answer ControlMsg))
    (Net (connect_source (L := no_sig) 2000 (demo_config (Some "s3cret"))) (tt, tt)
         (handle_conn 0 2000 5 (Some (authenticator_new "s3cret"))) (shared0 256) [] [])
    (final (Ok (PairedSource [])) (tt, tt) None (registered (shared0 256) 5 "nightly")).
Proof.
  apply (source_registers demo_net hno None (demo_answer ControlMsg) 2000 5
    (demo_config (Some "s3cret")) (demo_msg (Register "nightly")) (demo_msg ServerOk) (demo_msg (Challenge 77))
    (demo_msg (Authenticate (answer (authenticator_new (default "" (Some "s3cret"))) 77))) (tt, tt) (shared0 256));
    [|reflexivity|apply demo_handshake_wire; vm_compute; reflexivity|reflexivity].
  exact demo_net_up.
Defined.

Lemma destination_connects_witness :
  ends_in (hsum demo_net hno) (srv_handler None (demo_answer ControlMsg))
    (Net (connect_destination (L := no_sig) 2000 (demo_config None)) (tt, tt)
         (handle_conn 0 2000 5 None) (shared0 256) [] [])
    (final (Ok (PairedDestination [])) (tt, tt) None (shared0 256)).
Proof.
  apply (destination_connects demo_net hno None (demo_answer ControlMsg) 2000 5
    (demo_config None) (demo_msg (Proto.Connect "nightly")) (demo_msg ServerOk) (demo_msg (Challenge 77))
    (demo_msg (Authenticate (answer (authenticator_new (default "" None)) 77))) (tt, tt) (shared0 256));
    [|reflexivity|apply demo_handshake_wire; vm_compute; reflexivity].
  exact demo_net_up.
Defined.

(** ** What an unauthenticated client can do *)

(** Operations that serve a client: everything but the control substream and the
    challenge. *)
Definition serving (o : op srv) : Prop :=
  match o with inl _ | inr AcceptControl | inr NewUuid => False | _ => True end.

Section Security.
Context `{Crypto} `{Json ClientMsg} `{Json ServerMsg}.
Context {St : Type} (h : handler srv St).

Lemma stream_not_serving {A} (p : prog srv A) : stream_only p -> every (fun o => ~ serving o) p.
Proof. apply every_mono. intros [o|o]; [by intros _ []|done]. Qed.

Lemma server_handshake_not_serving a fuel d :
  every (fun o => ~ serving o) (server_handshake a (await NewUuid) fuel d).
Proof.
  unfold server_handshake, dtry, keep. simpl. split; [by intros []|]. intros c.
  apply every_bind; [apply every_bind; [apply stream_not_serving, send_msg_stream|done]|].
  intros [[[]|e|] d1]; try done.
  apply every_bind; [apply stream_not_serving, recv_within_stream|].
  intros [[[[| |tag|]|]|e|] d2]; try done. by destruct (validate a c tag).
Qed.

Lemma not_serving_log (o : op srv) (l : list (op srv)) :
  serving o -> o ∈ l -> ~ Forall (fun o => ~ serving o) l.
Proof. intros Hs Ho Hl. rewrite Forall_forall in Hl. by eapply Hl. Qed.

(** The handshake succeeds only on a valid tag for the challenge it drew. *)
Lemma server_handshake_ok a fuel d s d' s' :
  run h (server_handshake a (await NewUuid) fuel d) s = ((Ok tt, d'), s') ->
  exists c tag s0 s1 d1 d2 s2,
    (h (inr NewUuid) s0).1 = c /\
    run h (recv_client fuel d1) s1 = ((Ok (Some (Authenticate tag)), d2), s2) /\
    hex_decode tag = Some (hmac_sha256 (hmac_key a) (uuid_bytes c)).
Proof.
  unfold server_handshake. cbn [pbind await run]. set (c := (h (inr NewUuid) s).1).
  intros E. apply run_dtry in E as (u&d1&s1&_&E). apply run_dtry in E as (m&d2&s2&Er&E).
  destruct m as [[| |tag|]|]; try done.
  destruct (validate a c tag) eqn:Ev; [|done]. unfold validate in Ev.
  destruct (hex_decode tag) as [b|] eqn:Eh; [|done]. apply bool_decide_eq_true in Ev as ->.
  exists c, tag, s, s1, d1, d2, s2. split_and!; [done|exact Er|exact Eh].
Qed.

End Security.


(** ** A server with a secret *)

Section LockedOut.
Context `{InternallyTagged} `{Crypto}.

(** Neither serves a client nor writes to it. *)
Definition mute (o : op srv) : Prop :=
  ~ serving o /\ match o with inl (WriteAll _) | inl Flush => False | _ => True end.

Lemma recv_mute {T} `{Json T} fuel d : every mute (recv_within (L := srv_sig) (T := T) fuel d).
Proof.
  revert d; induction fuel as [|fuel IH]; intros d; simpl; destruct (split_nul d) as [[]|]; try done.
  split; [split; [by intros []|done]|]. intros [[|b l]|e|]; try done.
Qed.

Lemma server_handshake_mute a fuel d :
  every mute (server_handshake a (await NewUuid) fuel d) /\
  forall c, exists e, server_handshake a (Ret c) fuel d = Ret (Err (AnyJson e), d) :> prog srv _.
Proof.
  assert (E : forall c, exists e, server_handshake a (Ret c) fuel d = Ret (Err (AnyJson e), d) :> prog srv _).
  { intros c. destruct (tagged_challenge c) as [e Ee]. exists e.
    unfold server_handshake, send_server, send_msg. cbn [pbind]. by rewrite Ee. }
  split; [|done]. split; [by split; [intros []|]|]. intros c. destruct (E c) as [e Ee].
  unfold server_handshake in Ee. cbn [pbind] in Ee |- *. by rewrite Ee.
Qed.

(** C39: a secret locks everyone out.  The challenge and the answer are newtype
    variants that hold a string in internally tagged enums, which serde does not
    serialize.  So on a server with a secret no connection is ever served nor
    sent a single byte, whatever the client sends and the network does, and a
    client with a secret never connects, whatever the server sends. *)
Theorem secret_locks_everyone_out {L : sig} `{ServerNames} `{ServerDebug}
  turns fuel self a (cfg : TransportConfig) hello what channel :
  secret cfg <> None ->
  every mute (handle_conn turns fuel self (Some a)) /\
  always (fun r => match r with Ok _ => False | _ => True end)
    (connect_as (L := L) fuel cfg hello what channel).
Proof.
  intros Hs. split.
  - split; [by split; [intros []|]|]. intros []; [|done]. cbn [pbind negb].
    apply every_bind; [apply recv_mute|]. intros [[first|e|] d]; try done.
    simpl. split; [by split; [intros []|]|]. intros c.
    destruct (proj2 (server_handshake_mute a fuel d) c) as [e Ee].
    unfold server_handshake in Ee. cbn [pbind] in Ee. by rewrite Ee.
  - destruct (secret cfg) as [s|] eqn:Es; [|done]. unfold connect_as. rewrite Es.
    apply always_bind with (P := fun _ => True); [by apply always_true|]. intros [skt|e|] _; try done.
    cbn [connecting map_err]. unfold ptry at 1. cbn [pbind].
    apply always_bind with (P := fun _ => True); [by apply always_true|]. intros [[]|e|] _; try done.
    unfold ptry at 1. cbn [pbind map_err connecting].
    apply always_bind with (P := fun _ => True); [by apply always_true|]. intros [[]|e|] _; try done.
    unfold ptry at 1. cbn [pbind map_err connecting].
    apply always_bind with (P := fun r : ares unit * bytes => match r.1 with Ok _ => False | _ => True end);
      [|by intros [[|e|] d]].
    unfold client_handshake, dtry.
    apply always_bind with (P := fun _ => True); [by apply always_true|].
    intros [[[[]|]|e|] d] _; try done.
    destruct (tagged_authenticate (answer (authenticator_new s) u)) as [e Ee].
    unfold keep, send_client, send_msg. by rewrite Ee.
Qed.
End LockedOut.

Lemma secret_locks_everyone_out_witness :
  every mute (handle_conn (H0 := tagged_client_json) (H1 := tagged_server_json)
    1 9 5 (Some (authenticator_new "s3cret"))) /\
  always (fun r => match r with Ok _ => False | _ => True end)
    (connect_as (L := no_sig) (H0 := tagged_client_json) (H1 := tagged_server_json)
       9 (demo_config (Some "s3cret")) (Register "nightly") "send register" PairedSource).
Proof. by apply (secret_locks_everyone_out (H1 := tagged_json)). Defined.

(** ** Registrations come and go *)

(** No operation of a log is an [OpenProvider]. *)
Ltac in_log :=
  let Ho := fresh in
  intros Ho; exfalso;
  repeat (apply elem_of_cons in Ho as [Ho|Ho]; [discriminate Ho|]); by apply elem_of_nil in Ho.

(** The shared state under an environment with a state of its own. *)
Definition srv_env {E} (var : option string) (env : forall o, E -> srv_resp o * E) :
  handler srv_sig (E * shared) :=
  fun o st =>
    ((shared_step var o (env o st.1).1 st.2).1,
     ((env o st.1).2, (shared_step var o (env o st.1).1 st.2).2)).

Section Lifetime.
Context `{Crypto} `{Json ClientMsg} `{Json ServerMsg}.
Context {SS E : Type} (hS : handler stream_sig SS).
Context (var : option string) (env : forall o, E -> srv_resp o * E).

Abbreviation hE := (hsum hS (srv_env var env)).

Lemma calm_run {A} (p : prog srv A) st e s :
  every calm p -> registry (run hE p (st, (e, s))).2.2.2 = registry s.
Proof.
  revert st e s; induction p as [a|[o|o] k IH]; intros st e s; simpl; [done| |];
    intros [Ho Hk]; rewrite IH by apply Hk; [done|].
  apply (op_step_calm var (inr o) (env o e).1 s Ho).
Qed.

(** A registration lasts as long as its provider's connection.  Whatever the
    provider and the network do, when serving it ends, by disconnection or by any
    error, the registry is what it was before; and a provider that asks for a
    channel in use changes nothing. *)
Theorem registration_scoped turns fuel d self id st e s r st' e' s' :
  run hE (serve_provider turns fuel d self id) (st, (e, s)) = (Some r, (st', (e', s'))) ->
  registry s' = registry s.
Proof.
  unfold serve_provider. cbn [pbind await run hsum srv_env shared_step fst snd].
  destruct (decide (is_Some (registry s !! id))) as [Hu|Hu].
  - rewrite bool_decide_eq_true_2 by done. intros Eq.
    match type of Eq with run hE ?p (st, (?e1, s)) = _ =>
      pose proof (calm_run p st e1 s) as Hc end.
    rewrite Eq in Hc. apply Hc. apply every_bind; [apply stream_calm, send_msg_stream|done].
  - rewrite bool_decide_eq_false_2 by done. cbn [pbind await run hsum srv_env shared_step fst snd].
    set (s1 := set_registry _ _). unfold with_guard.
    match goal with |- run hE (pbind ?p ?f) (st, (?e1, s1)) = _ -> _ =>
      rewrite (run_bind hE p f); pose proof (calm_run p st e1 s1) as Hc;
      destruct (run hE p (st, (e1, s1))) as [[r1|] [st1 [e2 s2]]]
    end; cbn [pbind await run hsum srv_env shared_step fst snd] in *; [|done].
    intros [= <- <- <- <-]. unfold set_registry. cbn [registry].
    rewrite Hc.
    + unfold s1. cbn [registry set_registry]. apply delete_insert_id.
      by apply eq_None_not_Some.
    + apply every_bind; [apply stream_calm, send_msg_stream|].
      intros [[]|e3|]; try done; apply provider_loop_calm.
Qed.

(** A relay reaches only the channel's provider.  On any network, the only
    carrier a relay asks for is the one picked from the pool the registry holds
    for its channel at that moment, and whatever happens its last act is to give
    its permit back. *)
Theorem relay_opens_registered_provider id st e s r st' log :
  run (traced hE) (relay_task id) ((st, (e, s)), []) = (r, (st', log)) ->
  last log = Some (inr ReleasePermit) /\
  forall o, inr (OpenProvider o) ∈ log ->
    exists p pool, registry s !! id = Some p /\ pools s !! p = Some pool /\ (pick pool).1 = Some o.
Proof.
  intros Eq. unfold relay_task in Eq. rewrite run_bind in Eq.
  cbn [pbind await run traced fst snd] in Eq. injection Eq as _ _ <-.
  split; [by rewrite last_snoc|]. intros o Ho.
  apply elem_of_app in Ho as [Ho|Ho]; [|by apply list_elem_of_singleton in Ho].
  revert Ho. unfold relay, io_try. cbn [pbind ptry stream await run traced hsum fst snd app].
  destruct (hS (ReadExact 1) st) as [[bs|err|] st1]; cbn [map_err fst snd pbind run]; [|in_log..].
  cbn [pbind ptry await run traced hsum srv_env shared_step fst snd app].
  destruct (registry s !! id) as [p|]; cbn [ok_or pbind run fst snd]; [|in_log].
  cbn [pbind ptry await run traced hsum srv_env shared_step fst snd app].
  destruct (pools s !! p) as [pool|] eqn:Ep; [|cbn [ok_or pbind run fst snd]; in_log].
  destruct (pick pool) as [[o'|] pool'] eqn:Epick; cbn [ok_or pbind run fst snd]; [|in_log].
  cbn [traced hsum srv_env shared_step fst snd app].
  match goal with |- context [run (traced hE) ?q (?x, ?l)] =>
    destruct (traced_every (fun w : op srv => forall o, w = inr (OpenProvider o) -> o = o') hE q x l)
      as (l'&Eq&Hl')
  end.
  { destruct (map_err _ _) as [[]|err|]; cbn; try done.
    split; [done|]. intros [[]|err|]; cbn; try done. }
  setoid_rewrite Eq. cbn [fst snd]. intros Ho. exists p, pool. split_and!; [done|done|].
  rewrite Epick. cbn [fst]. f_equal. apply elem_of_app in Ho as [Ho|Ho].
  { do 3 (apply elem_of_cons in Ho as [Ho|Ho]; [discriminate Ho|]).
    apply list_elem_of_singleton in Ho. by injection Ho as ->. }
  rewrite Forall_forall in Hl'. symmetry. by apply (Hl' _ Ho).
Qed.
End Lifetime.

(** ** Concrete executions of the system *)

Section Executions.
Context `{Crypto} `{Json ClientMsg} `{Json ServerMsg}.
Context (auth : option Authenticator) (max_conns : nat).

(** One operation of task [i], the environment answering [orc]. *)
Definition exec1 (x : system) (step : nat * (forall o : op srv, resp (s := srv) o)) : system :=
  match sys_tasks x !! step.1 with
  | Some (Op o k) =>
      let r := op_step None o (step.2 o) (sys_shared x) in
      System r.2 (<[step.1 := k r.1]> (sys_tasks x) ++ spawned o)
  | _ => x
  end.

Lemma exec_reachable steps ns :
  reachable auth None max_conns
    (foldl exec1 (System (shared0 max_conns) ((fun n => handle_conn 1 8 n auth) <$> ns)) steps).
Proof.
  assert (H0' : reachable auth None max_conns
    (System (shared0 max_conns) ((fun n => handle_conn 1 8 n auth) <$> ns))).
  { induction ns as [|n ns IH] using rev_ind; [constructor|].
    rewrite fmap_app. eapply rtc_r; [exact IH|]. apply step_conn. }
  revert H0'. generalize (System (shared0 max_conns) ((fun n => handle_conn 1 8 n auth) <$> ns)).
  induction steps as [|[i orc] steps IH]; intros x Hx; [done|]. cbn [foldl]. apply IH.
  unfold exec1. cbn [fst snd]. destruct x as [s ts]. cbn [sys_tasks sys_shared].
  destruct (ts !! i) as [[r|o k]|] eqn:Ei; [done| |done].
  eapply rtc_r; [exact Hx|]. by apply step_task.
Qed.
End Executions.

(** Reads deliver [inb]; the network works. *)
Definition demo_oracle (inb : bytes) (o : op srv) : resp (s := srv) o :=
  match o with
  | inl o => demo_stream inb o
  | inr o => demo_answer ControlMsg o
  end.

(** [n] operations of task [i]. *)
Definition turns_of (i n : nat) (inb : bytes) : list (nat * (forall o : op srv, resp (s := srv) o)) :=
  replicate n (i, demo_oracle inb).

(** Two providers ask for the same channel: both look before either inserts, the
    second overwrites the first, then the first leaves. *)
Definition race : list (nat * (forall o : op srv, resp (s := srv) o)) :=
  turns_of 0 3 (demo_msg (Register "nightly")) ++ turns_of 1 3 (demo_msg (Register "nightly")) ++
  turns_of 0 5 [] ++ turns_of 1 5 [] ++ turns_of 0 3 [].

Definition after_race : system :=
  foldl exec1 (System (shared0 256) ((fun n => handle_conn 1 8 n None) <$> [0; 1])) race.

(** The check and the insertion of a registration are two steps.  There is a
    reachable state in which a provider was told [Ok] and is being served, as the
    owner of its channel, while the registry has no entry for it: another
    provider had passed the check at the same time, and took the entry with it
    when it left.  Every relay for the channel then fails. *)
Theorem registration_race :
  exists x, reachable None None 256 x /\
    registry (sys_shared x) !! "nightly" = None /\
    sys_tasks x !! 0 = Some (Ret (Some (Ok tt))) /\
    sys_tasks x !! 1 = Some (with_guard "nightly" (provider_loop 1 8 [])).
Proof.
  exists after_race. split; [apply exec_reachable|].
  split_and!; vm_compute; reflexivity.
Qed.

(** The theorems on reachable states, at the state where one provider is served. *)
Definition one_provider : system :=
  foldl exec1 (System (shared0 2) ((fun n => handle_conn 1 8 n None) <$> [0]))
    (turns_of 0 8 (demo_msg (Register "nightly"))).

Lemma no_stale_registration_witness :
  exists i p, sys_tasks one_provider !! i = Some p /\ guarded "nightly" p /\
    forall r, p <> Ret (Some r).
Proof.
  apply (no_stale_registration None None 2 one_provider "nightly" 0).
  - apply exec_reachable.
  - vm_compute. reflexivity.
Defined.

Lemma permits_conserved_witness :
  (exists ns, Forall2 holds ns (sys_tasks one_provider) /\
     sum_list ns + permits (sys_shared one_provider) = 2) /\
  ((forall i p, sys_tasks one_provider !! i = Some p -> exists r, p = Ret r) ->
     permits (sys_shared one_provider) = 2).
Proof. apply (permits_conserved None None 2 one_provider). apply exec_reachable. Defined.

(** An environment that always works, over a provider that leaves at once. *)
Definition demo_env (o : srv_op) (s : unit) : srv_resp o * unit := (demo_answer ControlMsg o, s).

Lemma registration_scoped_witness :
  registry (run (hsum mem_stream (srv_env None demo_env)) (serve_provider 3 8 [] 5 "nightly")
    (Mem [] [] [], (tt, shared0 2))).2.2.2 = ∅.
Proof.
  pose (x := run (hsum mem_stream (srv_env None demo_env)) (serve_provider 3 8 [] 5 "nightly")
    (Mem [] [] [], (tt, shared0 2))).
  apply (registration_scoped mem_stream None demo_env 3 8 [] 5 "nightly"
    (Mem [] [] []) tt (shared0 2) (Ok tt) x.2.1 x.2.2.1 x.2.2.2).
  vm_compute. reflexivity.
Defined.

Definition with_provider : shared := registered (shared0 2) 5 "nightly".

Lemma relay_opens_registered_provider_witness :
  let x := run (traced (hsum mem_stream (srv_env None demo_env))) (relay_task "nightly")
    ((Mem [x00] [] [], (tt, with_provider)), []) in
  last x.2.2 = Some (inr ReleasePermit) /\
  forall o, inr (OpenProvider o) ∈ x.2.2 ->
    exists p pool, registry with_provider !! "nightly" = Some p /\
      pools with_provider !! p = Some pool /\ (pick pool).1 = Some o.
Proof.
  pose (x := run (traced (hsum mem_stream (srv_env None demo_env))) (relay_task "nightly")
    ((Mem [x00] [] [], (tt, with_provider)), [])).
  apply (relay_opens_registered_provider mem_stream None demo_env "nightly" (Mem [x00] [] [])
    tt with_provider x.1 x.2.1 x.2.2).
  vm_compute. reflexivity.
Defined.
