(* ===== verification/Backends.v ===== *)
(** * The backend modules ([crates/rb-postgres], [rb-mongodb], [rb-filesystem],
      [rb-s3], each [src/lib.rs])

    At this commit each module reads its parameters and declares the shape of its
    plan payload; the operations themselves are stubs that fail in their phase,
    and every destination refuses in its preflight. *)

From S2P Require Import Prelude Json Errors Plan Channel Module.

(** The stubs differ by the name of the crate in their texts. *)
Definition unimplemented (crate op : string) : string :=
  crate +:+ ": " +:+ op +:+ " not yet implemented (plan Phase 2)".

Section Stubs.
Context {B : sig}.

Definition stub_source (crate : string) : Source B := {|
  analyze := Ret (Err (phase Analyze (unimplemented crate "analyze")));
  stream_out := fun _plan => Ret (Err (phase Transfer (unimplemented crate "stream_out")));
  fingerprint := Ret (Err (phase Analyze (unimplemented crate "fingerprint")));
|}.

Definition stub_check (crate : string) : Preflight :=
  check pass "not-implemented" false
    (crate +:+ " restore stub — destination validation and restore not yet implemented (plan Phase 2)").

Definition stub_destination (crate : string) : Destination B := {|
  validate := fun _plan => Ret (Ok (stub_check crate));
  stream_in := fun _plan => Ret (Err (phase Apply (unimplemented crate "stream_in")));
|}.

(** [params.deserialize()?], then the source or destination that holds them. *)
Definition open_with {P T} `{FromValue P} (make : P -> T) (params : TargetParams) :
  prog B (Result T) :=
  Ret (rbind (deserialize (T := P) params) (fun p => Ok (make p))).
End Stubs.

Notation "'field' x ':=' r 'in' k" := (rbind r (fun x => k))
  (at level 10, x pattern, r at level 100, k at level 200) : rb_scope.

Module Postgres.
Record PostgresParams : Type := {
  host : string;
  port : N;
  user : string;
  password : option string;
  database : option string;
  sslmode : string;
  admin : bool;
}.

Definition default_pg_port : N := 5432.
Definition default_sslmode : string := "prefer".

#[global] Instance read_params `{Serde} : FromValue PostgresParams :=
  read_struct
    [("host", typed read_string); ("port", typed read_u16); ("user", typed read_string);
     ("password", typed (read_option read_string));
     ("database", typed (read_option read_string)); ("sslmode", typed read_string);
     ("admin", typed read_bool)]
  (fun m =>
    field host := required "host" read_string m in
    field port := defaulted "port" default_pg_port read_u16 m in
    field user := required "user" read_string m in
    field password := optional "password" read_string m in
    field database := optional "database" read_string m in
    field sslmode := defaulted "sslmode" default_sslmode read_string m in
    field admin := defaulted "admin" false read_bool m in
    Ok {| host := host; port := port; user := user; password := password;
          database := database; sslmode := sslmode; admin := admin |}).

Record RoleDef : Type := { role_name : string; is_user : bool; comment : option string }.

Record TableDef : Type := {
  table_schema : string;
  table_name : string;
  columns : list (string * string);
  constraints : list string;
  indexes : list string;
  table_owner : string;
  grants : list string;
  estimated_rows : N;
  table_estimated_bytes : N;
}.

Record SequenceDef : Type := { sequence_name : string; current_value : Z }.

Record FunctionDef : Type := { signature : string; definition : string }.

Record SchemaDef : Type := {
  schema_name : string;
  tables : list TableDef;
  sequences : list SequenceDef;
  functions : list FunctionDef;
}.

Record DatabaseDef : Type := {
  database_name : string;
  database_owner : string;
  encoding : string;
  schemas : list SchemaDef;
  extensions : list string;
}.

Record PostgresPlan : Type := {
  server_version : string;
  roles : list RoleDef;
  databases : list DatabaseDef;
}.

Section Backend.
Context `{Serde} {B : sig}.

Definition PostgresSource (params : PostgresParams) : Source B := stub_source "rb-postgres".
Definition PostgresDestination (params : PostgresParams) : Destination B :=
  stub_destination "rb-postgres".

Definition module : BackupModule B := {|
  name := "postgres";
  version_support := "PostgreSQL 10..=18 (logical, pure Rust)";
  open_source := open_with PostgresSource;
  open_destination := open_with PostgresDestination;
|}.
End Backend.
End Postgres.

Module Mongodb.
Record MongoDbParams : Type := {
  uri : option string;
  host : option string;
  port : N;
  user : option string;
  password : option string;
  database : option string;
  auth_db : option string;
}.

Definition default_mongo_port : N := 27017.

#[global] Instance read_params `{Serde} : FromValue MongoDbParams :=
  read_struct
    [("uri", typed (read_option read_string)); ("host", typed (read_option read_string));
     ("port", typed read_u16); ("user", typed (read_option read_string));
     ("password", typed (read_option read_string));
     ("database", typed (read_option read_string));
     ("auth_db", typed (read_option read_string))]
  (fun m =>
    field uri := optional "uri" read_string m in
    field host := optional "host" read_string m in
    field port := defaulted "port" default_mongo_port read_u16 m in
    field user := optional "user" read_string m in
    field password := optional "password" read_string m in
    field database := optional "database" read_string m in
    field auth_db := optional "auth_db" read_string m in
    Ok {| uri := uri; host := host; port := port; user := user; password := password;
          database := database; auth_db := auth_db |}).

Record MongoCollection : Type := {
  collection_name : string;
  options : option Value;
  collection_indexes : list string;
  estimated_docs : N;
  collection_estimated_bytes : N;
}.

Record MongoUser : Type := { user_name : string; user_roles : list string }.

Record MongoDatabase : Type := {
  database_name : string;
  collections : list MongoCollection;
  users : list MongoUser;
}.

Record MongoDbPlan : Type := { server_version : string; databases : list MongoDatabase }.

Section Backend.
Context `{Serde} {B : sig}.

Definition MongoDbSource (params : MongoDbParams) : Source B := stub_source "rb-mongodb".
Definition MongoDbDestination (params : MongoDbParams) : Destination B :=
  stub_destination "rb-mongodb".

Definition module : BackupModule B := {|
  name := "mongodb";
  version_support := "MongoDB 4..=8";
  open_source := open_with MongoDbSource;
  open_destination := open_with MongoDbDestination;
|}.
End Backend.
End Mongodb.

Module Filesystem.
Record FilesystemParams : Type := {
  root : string;
  follow_symlinks : bool;
  preserve_ownership : bool;
  preserve_xattr : bool;
}.

Definition default_preserve_ownership : bool := true.

#[global] Instance read_params `{Serde} : FromValue FilesystemParams :=
  read_struct
    [("root", typed read_string); ("follow_symlinks", typed read_bool);
     ("preserve_ownership", typed read_bool); ("preserve_xattr", typed read_bool)]
  (fun m =>
    field root := required "root" read_string m in
    field follow_symlinks := defaulted "follow_symlinks" false read_bool m in
    field preserve_ownership :=
      defaulted "preserve_ownership" default_preserve_ownership read_bool m in
    field preserve_xattr := defaulted "preserve_xattr" false read_bool m in
    Ok {| root := root; follow_symlinks := follow_symlinks;
          preserve_ownership := preserve_ownership; preserve_xattr := preserve_xattr |}).

Record FilesystemEntry : Type := {
  path : string;
  kind : string;
  size : N;
  fs_mode : N;
  uid : N;
  gid : N;
  mtime : N;
  target : option string;
}.

Record FilesystemPlan : Type := {
  plan_root : string;
  entries : list FilesystemEntry;
  total_bytes : N;
  ownership_note : string;
}.

Section Backend.
Context `{Serde} {B : sig}.

Definition FilesystemSource (params : FilesystemParams) : Source B := stub_source "rb-filesystem".
Definition FilesystemDestination (params : FilesystemParams) : Destination B :=
  stub_destination "rb-filesystem".

Definition module : BackupModule B := {|
  name := "filesystem";
  version_support := "Filesystem (POSIX; ownership+perms preserved on Linux)";
  open_source := open_with FilesystemSource;
  open_destination := open_with FilesystemDestination;
|}.
End Backend.
End Filesystem.

Module S3.
Record S3Params : Type := {
  endpoint : option string;
  region : option string;
  bucket : string;
  prefix : option string;
  access_key : option string;
  secret_key : option string;
  path_style : bool;
}.

#[global] Instance read_params `{Serde} : FromValue S3Params :=
  read_struct
    [("endpoint", typed (read_option read_string));
     ("region", typed (read_option read_string)); ("bucket", typed read_string);
     ("prefix", typed (read_option read_string));
     ("access_key", typed (read_option read_string));
     ("secret_key", typed (read_option read_string)); ("path_style", typed read_bool)]
  (fun m =>
    field endpoint := optional "endpoint" read_string m in
    field region := optional "region" read_string m in
    field bucket := required "bucket" read_string m in
    field prefix := optional "prefix" read_string m in
    field access_key := optional "access_key" read_string m in
    field secret_key := optional "secret_key" read_string m in
    field path_style := defaulted "path_style" false read_bool m in
    Ok {| endpoint := endpoint; region := region; bucket := bucket; prefix := prefix;
          access_key := access_key; secret_key := secret_key; path_style := path_style |}).

Record S3Object : Type := {
  key : string;
  object_size : N;
  etag : option string;
  content_type : option string;
  storage_class : option string;
}.

Record S3Bucket : Type := {
  bucket_name : string;
  objects : list S3Object;
  policy : option string;
}.

Record S3Plan : Type := { source_endpoint : option string; buckets : list S3Bucket }.

Section Backend.
Context `{Serde} {B : sig}.

Definition S3Source (params : S3Params) : Source B := stub_source "rb-s3".
Definition S3Destination (params : S3Params) : Destination B := stub_destination "rb-s3".

Definition module : BackupModule B := {|
  name := "s3";
  version_support := "S3-compatible (AWS S3, MinIO)";
  open_source := open_with S3Source;
  open_destination := open_with S3Destination;
|}.
End Backend.
End S3.
