(* ===== verification/Cli.v ===== *)
(** * The command line program ([crates/rust-backup/src/main.rs])

    From parsed arguments or a session file to sessions: module parameters,
    transport settings, the registry of modules, and the run of each target from
    the opening of its backend to the end of its session.  [clap]'s parsing and
    [tracing] are not modelled; [TargetArgs] is the parsed record. *)

From S2P Require Import Prelude Streams Errors Json Config Plan Wire Progress Channel Module.
From S2P Require Import Session Json Backends Text Proto Auth Transport Paired Client Server.
From Stdlib Require Import Strings.Ascii.

Inductive CliRole : Type := CliSource | CliDestination.

Record TargetArgs : Type := {
  role : CliRole;
  arg_to : string;
  arg_channel : string;
  arg_secret : option string;
  arg_carriers : N;
  no_udp : bool;
  arg_insecure : bool;
  yes : bool;
  arg_host : option string;
  arg_port : option N;
  arg_user : option string;
  arg_password : option string;
  arg_database : option string;
  arg_sslmode : option string;
  arg_uri : option string;
  arg_auth_db : option string;
  arg_root : option string;
  arg_bucket : option string;
  arg_endpoint : option string;
  arg_region : option string;
  arg_prefix : option string;
  arg_access_key : option string;
  arg_secret_key : option string;
  arg_admin : bool;
  arg_path_style : bool;
  arg_follow_symlinks : bool;
  no_preserve_ownership : bool;
  arg_preserve_xattr : bool;
  param : list string;
  arg_config : option string;
}.

Definition transport (self : TargetArgs) : TransportConfig := {|
  to := arg_to self;
  tc_channel := arg_channel self;
  secret := arg_secret self;
  carriers := arg_carriers self;
  udp := negb (no_udp self);
  insecure := arg_insecure self;
|}.

(** ** Module parameters *)

Abbreviation fields := (list (string * Value)).

Definition put_str (k : string) (v : option string) (m : fields) : fields :=
  match v with Some s => map_insert k (VString s) m | None => m end.

Definition put_flag (k : string) (b : bool) (v : bool) (m : fields) : fields :=
  if b then map_insert k (VBool v) m else m.

Definition parse_scalar (v : string) : Value :=
  if String.eqb v "true" then VBool true
  else if String.eqb v "false" then VBool false
  else match parse_i64 v with
       | Some n => VNumber n
       | None => VString v
       end.

(** The [for kv in &self.param] loop. *)
Fixpoint put_params (kvs : list string) (m : fields) : ares fields :=
  match kvs with
  | [] => Ok m
  | kv :: kvs' =>
      match split_once "="%char kv with
      | Some (k, v) => put_params kvs' (map_insert k (parse_scalar v) m)
      | None => Err (AnyMsg ("-P expects key=value, got '" +:+ kv +:+ "'"))
      end
  end.

(** The typed flags, before the [-P] escapes. *)
Definition typed_params (self : TargetArgs) : fields :=
  let m := [] in
  let m := put_str "host" (arg_host self) m in
  let m := put_str "user" (arg_user self) m in
  let m := put_str "password" (arg_password self) m in
  let m := put_str "database" (arg_database self) m in
  let m := put_str "sslmode" (arg_sslmode self) m in
  let m := put_str "uri" (arg_uri self) m in
  let m := put_str "auth_db" (arg_auth_db self) m in
  let m := put_str "root" (arg_root self) m in
  let m := put_str "bucket" (arg_bucket self) m in
  let m := put_str "endpoint" (arg_endpoint self) m in
  let m := put_str "region" (arg_region self) m in
  let m := put_str "prefix" (arg_prefix self) m in
  let m := put_str "access_key" (arg_access_key self) m in
  let m := put_str "secret_key" (arg_secret_key self) m in
  let m := match arg_port self with
           | Some p => map_insert "port" (VNumber (Z.of_N p)) m
           | None => m
           end in
  let m := put_flag "admin" (arg_admin self) true m in
  let m := put_flag "path_style" (arg_path_style self) true m in
  let m := put_flag "follow_symlinks" (arg_follow_symlinks self) true m in
  let m := put_flag "preserve_ownership" (no_preserve_ownership self) false m in
  put_flag "preserve_xattr" (arg_preserve_xattr self) true m.

Definition params (self : TargetArgs) : ares TargetParams :=
  match put_params (param self) (typed_params self) with
  | Ok m => Ok {| params_value := VObject m |}
  | Err e => Err e
  | Panicked => Panicked
  end.

(** ** The operations of the program

    The byte stream is the control substream while a side connects, and the data
    substream from the moment the multiplexer hands it out. *)

Inductive tty_op : Type :=
| Print (text : string)
| FlushStdout
| ReadLine.

Definition tty_sig : sig :=
  Sig tty_op (fun o => match o with ReadLine => result string string | _ => unit end).

Section Cli.
Context `{Json ControlFrame} `{Json DataFrame} `{Blake3} `{FrameDebug}.
Context `{Crypto} `{Json ClientMsg} `{Json ServerMsg} `{ServerNames} `{ServerDebug} `{Serde}.
Context `{YamlConfig} {B : sig}.
(** The rendering of a lower-level error inside an error text. *)
Context (shown : cause -> string).

Abbreviation backend_sig := (tty_sig ⊕ B).
Abbreviation cli := (stream_sig ⊕ (net_sig ⊕ (mux_sig ⊕ (fs_sig ⊕ backend_sig)))).

Definition build_registry : ModuleRegistry B :=
  let reg := registry_new in
  let reg := register reg Postgres.module in
  let reg := register reg Mongodb.module in
  let reg := register reg Filesystem.module in
  register reg S3.module.

(** [anyhow!("{e}")]. *)
Definition any_of {A} (r : Result A) : ares A :=
  map_err (fun e => AnyMsg (BackupError_display shown e)) r.

Definition prompt_yes (plan : BackupPlan) : prog backend_sig bool :=
  let! _ := trigger (S := backend_sig)
    (inl (Print (newline +:+ render plan +:+ newline +:+ "Proceed with restore? [yes/no] "))) in
  let! _ := trigger (S := backend_sig) (inl FlushStdout) in
  let! r := trigger (S := backend_sig) (inl ReadLine) in
  Ret (match r with
       | Ok line =>
           let answer := to_ascii_lowercase (trim line) in
           String.eqb answer "y" || String.eqb answer "yes"
       | _ => false
       end).

Definition accept_plan (auto_accept : bool) (plan : BackupPlan) : prog backend_sig bool :=
  if auto_accept then Ret true else prompt_yes plan.

(** A backend's programs beside the terminal. *)
Definition on_backend {A} (p : prog B A) : prog backend_sig A :=
  interp (fun o => trigger (S := backend_sig) (inr o)) p.

Definition beside {C A} (p : prog (C ⊕ B) A) : prog (C ⊕ backend_sig) A :=
  interp (fun o : op (C ⊕ B) =>
    match o return prog (C ⊕ backend_sig) (resp (s := C ⊕ B) o) with
    | inl c => Op (S := C ⊕ backend_sig) (inl c) Ret
    | inr b => Op (S := C ⊕ backend_sig) (inr (inr b)) Ret
    end) p.

Definition source_beside (s : Source B) : Source backend_sig := {|
  analyze := on_backend (analyze s);
  stream_out := fun plan => beside (stream_out s plan);
  fingerprint := on_backend (fingerprint s);
|}.

Definition destination_beside (d : Destination B) : Destination backend_sig := {|
  Module.validate := fun plan => on_backend (Module.validate d plan);
  stream_in := fun plan => beside (stream_in d plan);
|}.

(** [Progress::default()] for one session: its counters become local state. *)
Fixpoint with_progress {R A} (p : Progress) (q : prog (stream_sig ⊕ (progress_sig ⊕ R)) A) :
  prog (stream_sig ⊕ R) A :=
  match q with
  | Ret a => Ret a
  | Op o k =>
      match o return (resp (s := stream_sig ⊕ (progress_sig ⊕ R)) o -> prog _ A) -> prog _ A with
      | inl s => fun k => Op (S := stream_sig ⊕ R) (inl s) k
      | inr (inl c) => fun k => k (progress_handler c p).1
      | inr (inr r) => fun k => Op (S := stream_sig ⊕ R) (inr r) k
      end (fun r =>
        with_progress
          (match o return resp (s := stream_sig ⊕ (progress_sig ⊕ R)) o -> Progress with
           | inr (inl c) => fun _ => (progress_handler c p).2
           | _ => fun _ => p
           end r) (k r))
  end.

(** The session over the connected channel. *)
Definition over_channel (ch : PairedChannel)
  (o : op (stream_sig ⊕ (channel_sig ⊕ backend_sig))) : prog cli (resp o) :=
  match o return prog cli (resp (s := stream_sig ⊕ (channel_sig ⊕ backend_sig)) o) with
  | inl s => Op (S := cli) (inl s) Ret
  | inr (inl c) =>
      interp (fun o : op (stream_sig ⊕ (mux_sig ⊕ (fs_sig ⊕ backend_sig))) =>
        match o return prog cli (resp (s := stream_sig ⊕ (mux_sig ⊕ (fs_sig ⊕ backend_sig))) o) with
        | inl s => Op (S := cli) (inl s) Ret
        | inr r => Op (S := cli) (inr (inr r)) Ret
        end) (paired_channel ch c)
  | inr (inr b) => Op (S := cli) (inr (inr (inr (inr b)))) Ret
  end.

Definition session_over {A} (ch : PairedChannel)
  (q : prog (stream_sig ⊕ (progress_sig ⊕ (channel_sig ⊕ backend_sig))) A) : prog cli A :=
  interp (over_channel ch) (with_progress Progress_default q).

Definition backend_cli {A} (q : prog B A) : prog cli A :=
  interp (fun o => Op (S := cli) (inr (inr (inr (inr (inr o))))) Ret) q.

(** [fuel] bounds the reads of one receive on the control substream. *)
Definition execute (fuel : nat) (module : BackupModule B) (role : Role)
  (transport : TransportConfig) (params : TargetParams) (auto_accept : bool) :
  prog cli (ares unit) :=
  match role with
  | RoleSource =>
      let! src := backend_cli (open_source module params) in
      let? src := Ret (any_of src) in
      let! ch := connect_source (L := mux_sig ⊕ (fs_sig ⊕ backend_sig)) fuel transport in
      let? ch := Ret (any_of ch) in
      let! r := session_over ch (run_source (source_beside src)) in
      let? _ := Ret (any_of r) in
      Ret (Ok tt)
  | RoleDestination =>
      let! dst := backend_cli (open_destination module params) in
      let? dst := Ret (any_of dst) in
      let! ch := connect_destination (L := mux_sig ⊕ (fs_sig ⊕ backend_sig)) fuel transport in
      let? ch := Ret (any_of ch) in
      let! r := session_over ch
        (run_destination (destination_beside dst) (accept_plan auto_accept)) in
      let? _ := Ret (any_of r) in
      Ret (Ok tt)
  end.

Definition run_target (fuel : nat) (reg : ModuleRegistry B) (module : string) (a : TargetArgs) :
  prog cli (ares unit) :=
  let? m := Ret (ok_or (get reg module) (AnyMsg ("unknown module '" +:+ module +:+ "'"))) in
  let? params := Ret (params a) in
  let role := match role a with CliSource => RoleSource | CliDestination => RoleDestination end in
  execute fuel m role (transport a) params (yes a).

Definition Role_debug (r : Role) : string :=
  match r with RoleSource => "Source" | RoleDestination => "Destination" end.

(** The [for] loop over the targets, from index [i]. *)
Fixpoint run_targets (fuel : nat) (reg : ModuleRegistry B) (i : N) (ts : list TargetSpec) :
  prog cli (ares unit) :=
  match ts with
  | [] => Ret (Ok tt)
  | t :: ts' =>
      let? m := Ret (ok_or (get reg (spec_module t))
                       (AnyMsg ("unknown module '" +:+ spec_module t +:+ "'"))) in
      let! r := execute fuel m (spec_role t) (spec_transport t)
                  {| params_value := spec_params t |} (spec_auto_accept t) in
      let? _ := Ret (context ("target " +:+ pretty i +:+ " (" +:+ spec_module t +:+ "/" +:+
                       Role_debug (spec_role t) +:+ ")") r) in
      run_targets fuel reg (i + 1) ts'
  end.

Definition run_session (fuel : nat) (reg : ModuleRegistry B) (path : string) :
  prog cli (ares unit) :=
  let! cfg := interp (fun o => Op (S := cli) (inr (inr (inr (inl o)))) Ret) (from_path path) in
  let? cfg := Ret (any_of cfg) in
  run_targets fuel reg 0 (sc_targets cfg).

(** [main], after the arguments are parsed; [Server] is [Server.run_server] on a
    configuration with these fields. *)
Record ServerArgs : Type := {
  sa_bind_addr : string;
  sa_control_port : N;
  sa_secret : option string;
  sa_max_conns : N;
  sa_udp : bool;
}.

Inductive Cmd : Type :=
| CmdServer (a : ServerArgs)
| CmdRun (config : string)
| CmdPostgres (a : TargetArgs)
| CmdMongodb (a : TargetArgs)
| CmdFilesystem (a : TargetArgs)
| CmdS3 (a : TargetArgs).

Definition server_config (a : ServerArgs) : ServerConfig := {|
  bind_addr := sa_bind_addr a;
  control_port := sa_control_port a;
  server_secret := sa_secret a;
  max_conns := sa_max_conns a;
  server_udp := sa_udp a;
|}.

(** A command is a server to run, or a program of this kind. *)
Definition main (fuel : nat) (cmd : Cmd) : prog listen_sig outcome + prog cli (ares unit) :=
  let registry := build_registry in
  match cmd with
  | CmdServer a =>
      inl (let! r := run_server fuel (server_config a) in
           Ret ((fun r => context "coordination server" r) <$> r))
  | CmdRun config => inr (run_session fuel registry config)
  | CmdPostgres a => inr (run_target fuel registry "postgres" a)
  | CmdMongodb a => inr (run_target fuel registry "mongodb" a)
  | CmdFilesystem a => inr (run_target fuel registry "filesystem" a)
  | CmdS3 a => inr (run_target fuel registry "s3" a)
  end.
End Cli.

(** ** Logging *)

Definition log_level (verbose : N) : string :=
  match verbose with 0%N => "info" | 1%N => "debug" | _ => "trace" end.

(** The filter of [init_tracing]; [var] is [RUST_LOG]. *)
Definition tracing_filter (verbose : N) (var : option string) : string :=
  match var with
  | Some f => f
  | None =>
      let level := log_level verbose in
      "rust_backup=" +:+ level +:+ ",rb_core=" +:+ level +:+ ",rb_transport=" +:+ level
  end.
