(* ===== verification/CliTheorems.v ===== *)
(** * Theorems about the command line and the backend modules *)

From Stdlib Require Import Strings.Ascii.
From S2P Require Import Prelude Streams Errors Json Config Plan Wire Progress Channel Module Session Backends Text Proto Auth Transport Paired Client Server Cli Demo.

(** ** The fold of the flags *)

(** One typed flag: a key and the value it puts, if it is set. *)
Definition put (m : list (string * Value)) (e : string * option Value) : list (string * Value) :=
  match e.2 with Some v => map_insert e.1 v m | None => m end.

Definition typed_entries (a : TargetArgs) : list (string * option Value) :=
  [("host", VString <$> arg_host a); ("user", VString <$> arg_user a);
   ("password", VString <$> arg_password a); ("database", VString <$> arg_database a);
   ("sslmode", VString <$> arg_sslmode a); ("uri", VString <$> arg_uri a);
   ("auth_db", VString <$> arg_auth_db a); ("root", VString <$> arg_root a);
   ("bucket", VString <$> arg_bucket a); ("endpoint", VString <$> arg_endpoint a);
   ("region", VString <$> arg_region a); ("prefix", VString <$> arg_prefix a);
   ("access_key", VString <$> arg_access_key a); ("secret_key", VString <$> arg_secret_key a);
   ("port", (fun p => VNumber (Z.of_N p)) <$> arg_port a);
   ("admin", if arg_admin a then Some (VBool true) else None);
   ("path_style", if arg_path_style a then Some (VBool true) else None);
   ("follow_symlinks", if arg_follow_symlinks a then Some (VBool true) else None);
   ("preserve_ownership", if no_preserve_ownership a then Some (VBool false) else None);
   ("preserve_xattr", if arg_preserve_xattr a then Some (VBool true) else None)].

Lemma put_str_put k v m : put_str k v m = put m (k, VString <$> v).
Proof. by destruct v. Qed.

Lemma put_flag_put k b v m : put_flag k b v m = put m (k, if b then Some (VBool v) else None).
Proof. by destruct b. Qed.

Lemma typed_params_entries a : typed_params a = foldl put [] (typed_entries a).
Proof.
  unfold typed_params, typed_entries. cbv zeta. cbn [foldl].
  rewrite !put_flag_put, !put_str_put. by destruct (arg_port a).
Qed.

(** The value the flags give a key. *)
Fixpoint entry (k : string) (es : list (string * option Value)) : option Value :=
  match es with
  | [] => None
  | (k', v) :: es' =>
      if String.eqb k' k then match entry k es' with Some x => Some x | None => v end
      else entry k es'
  end.

Lemma map_get_put k m e :
  map_get k (put m e) = match (if String.eqb e.1 k then e.2 else None) with
                        | Some x => Some x
                        | None => map_get k m
                        end.
Proof.
  destruct e as [k' [v|]]; unfold put; simpl; [|by destruct (String.eqb k' k)].
  destruct (String.eqb_spec k' k) as [<-|Hne]; [apply map_get_insert_eq|by apply map_get_insert_ne].
Qed.

Lemma map_get_puts k es m :
  map_get k (foldl put m es) =
    match entry k es with Some x => Some x | None => map_get k m end.
Proof.
  revert m; induction es as [|[k' v] es IH]; intros m; simpl; [done|].
  rewrite IH, map_get_put. simpl. by destruct (String.eqb k' k), (entry k es).
Qed.

Lemma typed_get k a : map_get k (typed_params a) = entry k (typed_entries a).
Proof. rewrite typed_params_entries, map_get_puts. by destruct (entry _ _). Qed.

(** What the [-P] escapes say of a key: the last one wins. *)
Fixpoint escape (k : string) (kvs : list string) : option string :=
  match kvs with
  | [] => None
  | kv :: kvs' =>
      match escape k kvs' with
      | Some v => Some v
      | None =>
          match split_once "="%char kv with
          | Some (k', v) => if String.eqb k' k then Some v else None
          | None => None
          end
      end
  end.

Lemma put_params_get kvs m m' k :
  put_params kvs m = Ok m' ->
  map_get k m' = match escape k kvs with Some v => Some (parse_scalar v) | None => map_get k m end.
Proof.
  revert m; induction kvs as [|kv kvs IH]; intros m; simpl; [by intros [= ->]|].
  destruct (split_once _ kv) as [[k' v]|]; [|done]. intros E. rewrite (IH _ E).
  destruct (escape k kvs); [done|].
  destruct (String.eqb_spec k' k) as [->|Hne]; [apply map_get_insert_eq|by apply map_get_insert_ne].
Qed.

Lemma put_params_ok kvs m :
  (exists m', put_params kvs m = Ok m') <-> Forall (fun kv => free "="%char kv = false) kvs.
Proof.
  revert m; induction kvs as [|kv kvs IH]; intros m; simpl; [split; eauto|].
  rewrite Forall_cons. destruct (split_once "="%char kv) as [[k v]|] eqn:E.
  - rewrite IH. apply split_once_some in E as [_ ->].
    rewrite free_app. simpl. rewrite andb_false_r. naive_solver.
  - split; [by intros []|]. intros [Hf _]. exfalso. revert E Hf. clear.
    induction kv as [|a kv IH]; simpl; [done|]. destruct (Ascii.eqb_spec a "="%char); [done|].
    destruct (split_once _ kv) as [[]|]; [done|]. simpl. auto.
Qed.

(** Module parameters.  The flags fold into an object exactly when every [-P]
    escape has an equals sign; a key then holds the value of its last escape,
    read as a boolean, an integer or else a string, and without an escape what
    the typed flags put there. *)
Theorem params_fold (a : TargetArgs) :
  match params a with
  | Ok p => Forall (fun kv => free "="%char kv = false) (param a) /\
      exists m, params_value p = VObject m /\
        forall k, map_get k m =
          match escape k (param a) with
          | Some v => Some (parse_scalar v)
          | None => map_get k (typed_params a)
          end
  | Err _ => exists kv, kv ∈ param a /\ free "="%char kv = true
  | Panicked => False
  end.
Proof.
  unfold params. destruct (put_params (param a) (typed_params a)) as [m|e|] eqn:E.
  - split; [apply (put_params_ok _ (typed_params a)); eauto|]. exists m. split; [done|].
    intros k. by apply put_params_get.
  - assert (~ Forall (fun kv => free "="%char kv = false) (param a)) as Hn.
    { rewrite <- (put_params_ok _ (typed_params a)). intros [m' E']. congruence. }
    apply not_Forall_Exists in Hn; [|intros kv; apply _].
    apply Exists_exists in Hn as (kv&Hkv&Hf). exists kv. split; [done|].
    by apply not_false_is_true.
  - revert E. generalize (typed_params a). induction (param a) as [|kv kvs IH]; intros m; simpl; [done|].
    destruct (split_once _ kv) as [[]|]; [|done]. apply IH.
Qed.

Example scalars :
  parse_scalar "true" = VBool true /\ parse_scalar "-12" = VNumber (-12) /\
  parse_scalar "12x" = VString "12x" /\ parse_scalar "9223372036854775808" = VString "9223372036854775808".
Proof. vm_compute. done. Qed.

(** ** From the flags to the modules' parameters *)

Section Decoding.
Context `{Serde}.

Lemma map_insert_forall {V} (P : string * V -> Prop) k v m :
  P (k, v) -> Forall P m -> Forall P (map_insert k v m).
Proof.
  intros Hk Hm. induction Hm as [|[k' v'] m Hx Hm IH]; simpl; [by constructor|].
  destruct (String.eqb k k'); [by constructor|]. destruct (string_ltb k k'); by repeat constructor.
Qed.

(** An entry the table accepts. *)
Definition accepted (known : known_fields) (kv : string * Value) : Prop :=
  match map_get kv.1 known with Some t => t kv.2 = Ok tt | None => True end.

Lemma visit_accepted known m : Forall (accepted known) m -> visit known m = Ok tt.
Proof.
  induction 1 as [|[k v] m Hx _ IH]; simpl; [done|]. unfold accepted in Hx. simpl in Hx.
  destruct (map_get k known); [by rewrite Hx|done].
Qed.

Lemma puts_accepted known es m :
  Forall (fun e => forall v, e.2 = Some v -> accepted known (e.1, v)) es ->
  Forall (accepted known) m -> Forall (accepted known) (foldl put m es).
Proof.
  intros He. revert m. induction He as [|[k o] es Hx _ IH]; intros m Hm; simpl; [done|].
  apply IH. unfold put. simpl in *. destruct o as [v|]; [|done].
  by apply map_insert_forall; [apply Hx|].
Qed.

Lemma port_ok n : (n <= u16_max)%N -> read_u16 (VNumber (Z.of_N n)) = Ok n.
Proof.
  intros Hn. unfold read_u16. destruct (Z.leb_spec 0 (Z.of_N n)); [|lia].
  destruct (Z.leb_spec (Z.of_N n) 65535); simpl; [|unfold u16_max in Hn; lia].
  by rewrite N2Z.id.
Qed.

Definition text_keys : list string :=
  ["host"; "user"; "password"; "database"; "sslmode"; "uri"; "auth_db"; "root"; "bucket";
   "endpoint"; "region"; "prefix"; "access_key"; "secret_key"].
Definition flag_keys : list string :=
  ["admin"; "path_style"; "follow_symlinks"; "preserve_ownership"; "preserve_xattr"].

(** A table that takes strings, flags and ports where the flags put them. *)
Lemma flags_accepted known a :
  (forall k s, k ∈ text_keys -> accepted known (k, VString s)) ->
  (forall k b, k ∈ flag_keys -> accepted known (k, VBool b)) ->
  (forall p, arg_port a = Some p -> accepted known ("port", VNumber (Z.of_N p))) ->
  visit known (typed_params a) = Ok tt.
Proof.
  intros Hs Hb Hp. apply visit_accepted. rewrite typed_params_entries.
  apply puts_accepted; [|by apply Forall_nil].
  assert (Hs' : forall k o, k ∈ text_keys ->
    forall v, VString <$> o = Some v -> accepted known (k, v)).
  { intros k [s|] Hk v Ev; [injection Ev as <-; auto|discriminate Ev]. }
  assert (Hb' : forall k (c b : bool), k ∈ flag_keys ->
    forall v, (if c then Some (VBool b) else None) = Some v -> accepted known (k, v)).
  { intros k [] b Hk v Ev; [injection Ev as <-; auto|discriminate Ev]. }
  unfold typed_entries.
  do 14 (apply Forall_cons; split; [by apply Hs'; repeat (apply list_elem_of_here || apply list_elem_of_further)|]).
  apply Forall_cons; split.
  { intros v. simpl. destruct (arg_port a) as [p|]; [|done]. intros Ev. injection Ev as <-. by apply Hp. }
  do 5 (apply Forall_cons; split; [by apply Hb'; repeat (apply list_elem_of_here || apply list_elem_of_further)|]).
  by apply Forall_nil.
Qed.

(** Used for the four tables. *)
Ltac table_accepts Hport :=
  apply flags_accepted;
  [ intros k s Hk; repeat (apply elem_of_cons in Hk as [->|Hk]; [done|]); by apply elem_of_nil in Hk
  | intros k s Hk; repeat (apply elem_of_cons in Hk as [->|Hk]; [done|]); by apply elem_of_nil in Hk
  | intros p Ep; unfold accepted; cbn;
    first [done | unfold typed; rewrite port_ok; [done|by apply Hport]] ].

(** The decoder of a module on the typed flags, reduced to the flags it reads. *)
Ltac decode Hport :=
  unfold from_json_value, Filesystem.read_params, Postgres.read_params, Mongodb.read_params,
    S3.read_params, read_struct;
  match goal with |- context [visit ?t (typed_params ?a)] =>
    assert (visit t (typed_params a) = Ok tt) as -> by (table_accepts Hport)
  end;
  unfold optional, required, defaulted, read_option; rewrite !typed_get;
  cbn [rbind typed_entries entry String.eqb Ascii.eqb Bool.eqb fmap option_fmap option_map map_err].

(** The typed flags reach the modules.  Without escapes, each module reads
    from the folded parameters exactly what the flags say, with its documented
    defaults: a port below 65536 arrives unchanged, a flag that only flips a
    default leaves it alone when absent, and a required flag left out is the
    error that names it. *)
Theorem flags_reach_modules (a : TargetArgs) m :
  params_value m = VObject (typed_params a) ->
  (forall p, arg_port a = Some p -> (p <= u16_max)%N) ->
  deserialize m =
    match arg_root a with
    | Some root => Ok {| Filesystem.root := root;
        Filesystem.follow_symlinks := arg_follow_symlinks a;
        Filesystem.preserve_ownership := negb (no_preserve_ownership a);
        Filesystem.preserve_xattr := arg_preserve_xattr a |}
    | None => Err (ConfigError ("invalid module params: " +:+ missing "root"))
    end /\
  deserialize m =
    match arg_host a, arg_user a with
    | Some host, Some user => Ok {| Postgres.host := host;
        Postgres.port := default 5432%N (arg_port a); Postgres.user := user;
        Postgres.password := arg_password a; Postgres.database := arg_database a;
        Postgres.sslmode := default "prefer" (arg_sslmode a); Postgres.admin := arg_admin a |}
    | None, _ => Err (ConfigError ("invalid module params: " +:+ missing "host"))
    | _, None => Err (ConfigError ("invalid module params: " +:+ missing "user"))
    end /\
  deserialize m = Ok {| Mongodb.uri := arg_uri a; Mongodb.host := arg_host a;
    Mongodb.port := default 27017%N (arg_port a); Mongodb.user := arg_user a;
    Mongodb.password := arg_password a; Mongodb.database := arg_database a;
    Mongodb.auth_db := arg_auth_db a |} /\
  deserialize m =
    match arg_bucket a with
    | Some bucket => Ok {| S3.endpoint := arg_endpoint a; S3.region := arg_region a;
        S3.bucket := bucket; S3.prefix := arg_prefix a; S3.access_key := arg_access_key a;
        S3.secret_key := arg_secret_key a; S3.path_style := arg_path_style a |}
    | None => Err (ConfigError ("invalid module params: " +:+ missing "bucket"))
    end.
Proof.
  intros Hm Hport. unfold deserialize. rewrite Hm. split_and!.
  - decode Hport. destruct (arg_root a); [|done].
    by destruct (arg_follow_symlinks a), (no_preserve_ownership a), (arg_preserve_xattr a).
  - decode Hport. destruct (arg_host a); [|done].
    destruct (arg_port a) as [p|]; cbn [fmap option_fmap option_map rbind];
      [rewrite (port_ok p) by by apply Hport|];
      (destruct (arg_user a); [|done]);
      by destruct (arg_password a), (arg_database a), (arg_sslmode a), (arg_admin a).
  - decode Hport.
    destruct (arg_uri a), (arg_host a), (arg_port a) as [p|]; cbn [fmap option_fmap option_map rbind];
      try rewrite (port_ok p) by (by apply Hport);
      by destruct (arg_user a), (arg_password a), (arg_database a), (arg_auth_db a).
  - decode Hport.
    destruct (arg_endpoint a), (arg_region a), (arg_bucket a); try done;
      by destruct (arg_prefix a), (arg_access_key a), (arg_secret_key a), (arg_path_style a).
Qed.
End Decoding.

(** A restore of a directory tree, as the command line gives it. *)
Definition demo_args (to : string) : TargetArgs := {|
  role := CliDestination; arg_to := to; arg_channel := "nightly"; arg_secret := None;
  arg_carriers := 4; no_udp := false; arg_insecure := false; yes := true;
  arg_host := None; arg_port := Some 7000%N; arg_user := None; arg_password := None;
  arg_database := None; arg_sslmode := None; arg_uri := None; arg_auth_db := None;
  arg_root := Some "/srv/data"; arg_bucket := None; arg_endpoint := None; arg_region := None;
  arg_prefix := None; arg_access_key := None; arg_secret_key := None; arg_admin := false;
  arg_path_style := false; arg_follow_symlinks := false; no_preserve_ownership := true;
  arg_preserve_xattr := false; param := []; arg_config := None;
|}.

Lemma flags_reach_modules_witness :
  deserialize (T := Filesystem.FilesystemParams)
    (H := Filesystem.read_params (H := demo_serde))
    {| params_value := VObject (typed_params (demo_args "hub.example:7835")) |} =
  Ok {| Filesystem.root := "/srv/data"; Filesystem.follow_symlinks := false;
        Filesystem.preserve_ownership := false; Filesystem.preserve_xattr := false |}.
Proof.
  apply (flags_reach_modules (H := demo_serde) (demo_args "hub.example:7835")); [reflexivity|].
  intros p [= <-]. unfold u16_max. lia.
Defined.

(** * Theorems about the registered modules and the runs of targets *)

(** ** The stubs *)

Section Stubs.
Context `{Json ControlFrame} `{Json DataFrame} `{Blake3} `{FrameDebug} `{Serde} {B : sig}.

(** A session program that never calls the backend. *)
Definition no_backend {L : sig} (o : op (stream_sig ⊕ (progress_sig ⊕ (channel_sig ⊕ L)))) : Prop :=
  match o with inr (inr (inr _)) => False | _ => True end.

Lemma stream_no_backend {L A} (p : prog (stream_sig ⊕ (progress_sig ⊕ (channel_sig ⊕ L))) A) :
  stream_only p -> every no_backend p.
Proof. apply every_mono. by intros [o|o]. Qed.

(** No parameter decoder panics. *)
Ltac readable_params :=
  intros v; apply no_panic_struct;
  [ repeat (apply Forall_cons; split; [intros ?; cbn [snd]; auto 8 with rb|]); by apply Forall_nil
  | intros ?; repeat (apply no_panic_rbind; [unfold optional; auto with rb|intros ?]); done ].

Ltac stub_case B Hopen Hdst ps P crate :=
  destruct (Hopen P _ _ (stub_source (B := B) crate)) with (params := ps) as (rs&Es&Hs);
    [readable_params|];
  destruct (Hopen P _ _ (stub_destination (B := B) crate)) with (params := ps) as (rd&Ed&Hd);
    [readable_params|];
  exists crate, rs, rd; by destruct (Hdst crate).

(** At this commit no registered module moves data.  Whatever the parameters,
    opening one gives a parameter error or its stub; a session with that source
    ends in its analysis phase before anything is sent, and a session with that
    destination, whatever the peer, the transport and the operator do, never
    calls the backend, never asks for acceptance, and never succeeds. *)
Theorem stub_modules_move_nothing name m params accept :
  get (build_registry (B := B)) name = Some m ->
  exists crate rs rd,
    open_source m params = Ret rs /\
    (rs = Ok (stub_source crate) \/ exists e, rs = Err (ConfigError e)) /\
    open_destination m params = Ret rd /\
    (rd = Ok (stub_destination crate) \/ exists e, rd = Err (ConfigError e)) /\
    run_source (B := B) (stub_source crate) =
      Ret (Err (phase Analyze (unimplemented crate "fingerprint"))) /\
    every no_backend (run_destination (stub_destination (B := B) crate) accept) /\
    always (fun r => match r with Ok _ => False | _ => True end)
      (run_destination (stub_destination (B := B) crate) accept).
Proof.
  intros Hm.
  assert (Hopen : forall P (H' : FromValue P) T (x : T),
    (forall v, no_panic (from_json_value (T := P) v)) ->
    forall params, exists r, open_with (B := B) (fun _ : P => x) params = Ret r /\
      (r = Ok x \/ exists e, r = Err (ConfigError e))).
  { intros P H' T x Hp ps. eexists. split; [reflexivity|]. unfold deserialize.
    specialize (Hp (params_value ps)). destruct (from_json_value (params_value ps));
      simpl; [by left|right; eauto|done]. }
  assert (Hdst : forall crate, every no_backend (run_destination (stub_destination (B := B) crate) accept) /\
    always (fun r => match r with Ok _ => False | _ => True end)
      (run_destination (stub_destination (B := B) crate) accept)).
  { intros crate. change (run_destination (stub_destination crate) accept) with
      (let? _ := channel (B := B) OpenStream in
       let? plan := recv_plan in
       let? _ := send_ack false "preflight failed" in
       Ret (Err (PreflightError "preflight failed")) : prog _ (Result BackupPlan)).
    split.
    - apply every_try; [simpl; split; [done|by intros r]|intros _].
      apply every_try; [apply stream_no_backend|intros plan].
      { apply every_try; [apply recv_frame_stream|]. by intros [[]|]. }
      apply every_try; [apply stream_no_backend, send_frame_stream|done].
    - unfold ptry. apply always_bind with (P := fun _ => True); [by apply always_true|].
      intros [[]|e|] _; try done.
      apply always_bind with (P := fun _ => True); [by apply always_true|].
      intros [plan|e|] _; try done.
      apply always_bind with (P := fun _ => True); [by apply always_true|].
      by intros [[]|e|] _. }
  unfold build_registry in Hm.
  repeat match type of Hm with
  | get (register ?r ?x) name = Some m =>
      destruct (decide (Module.name x = name)) as [En|En];
      [subst name; rewrite get_register_eq in Hm; injection Hm as <-|
       rewrite get_register_ne in Hm by exact En; clear En]
  end; [..|exfalso; revert Hm; unfold get, registry_new; cbn [modules]; by rewrite lookup_empty].
  all: [> stub_case B Hopen Hdst params S3.S3Params "rb-s3"
    |stub_case B Hopen Hdst params Filesystem.FilesystemParams "rb-filesystem"
    |stub_case B Hopen Hdst params Mongodb.MongoDbParams "rb-mongodb"
    |stub_case B Hopen Hdst params Postgres.PostgresParams "rb-postgres"].
Qed.
End Stubs.

Lemma stub_modules_move_nothing_witness :
  exists crate rs rd,
    open_source (S3.module (H := demo_serde) (B := mock_sig)) {| params_value := VNull |} = Ret rs /\
    (rs = Ok (stub_source crate) \/ exists e, rs = Err (ConfigError e)) /\
    open_destination (S3.module (H := demo_serde) (B := mock_sig)) {| params_value := VNull |} = Ret rd /\
    (rd = Ok (stub_destination crate) \/ exists e, rd = Err (ConfigError e)) /\
    run_source (B := mock_sig) (stub_source crate) =
      Ret (Err (phase Analyze (unimplemented crate "fingerprint"))) /\
    every no_backend (run_destination (stub_destination (B := mock_sig) crate) (say true)) /\
    always (fun r => match r with Ok _ => False | _ => True end)
      (run_destination (stub_destination (B := mock_sig) crate) (say true)).
Proof.
  apply (stub_modules_move_nothing (H3 := demo_serde) (B := mock_sig) "s3"). reflexivity.
Defined.

(** ** The targets of a session file *)

Section Targets.
Context `{Json ControlFrame} `{Json DataFrame} `{Blake3} `{FrameDebug}.
Context `{Crypto} `{Json ClientMsg} `{Json ServerMsg} `{ServerNames} `{ServerDebug}.
Context {B : sig} (shown : cause -> string) (fuel : nat) (reg : ModuleRegistry B).
Context {St : Type} (h : handler (stream_sig ⊕ (net_sig ⊕ (mux_sig ⊕ (fs_sig ⊕ (tty_sig ⊕ B))))) St).

(** What the loop runs for a target of a registered module. *)
Definition attempt (m : BackupModule B) (t : TargetSpec) (st : St) : ares unit * St :=
  run h (execute shown fuel m (spec_role t) (spec_transport t)
           {| params_value := spec_params t |} (spec_auto_accept t)) st.

(** Every target of a list ran, in order, to its success. *)
Inductive completed : list TargetSpec -> St -> St -> Prop :=
| completed_none st : completed [] st st
| completed_next t ts m st st1 st2 :
    get reg (spec_module t) = Some m -> attempt m t st = (Ok tt, st1) ->
    completed ts st1 st2 -> completed (t :: ts) st st2.

(** The error a failing target leaves: it names the target's position, module
    and role. *)
Definition blamed (i : N) (t : TargetSpec) (e : anyhow) : anyhow :=
  AnyContext ("target " +:+ pretty i +:+ " (" +:+ spec_module t +:+ "/" +:+
              Role_debug (spec_role t) +:+ ")") e.

(** A session file runs its targets one after the other and stops at the
    first that does not succeed.  The targets before it all ran to success, none
    after it is touched, and the error says which one failed and why; a target
    of an unknown module fails before anything is done for it. *)
Theorem run_targets_stops_at_first_failure i ts st :
  exists done rest st1,
    ts = done ++ rest /\ completed done st st1 /\
    match rest with
    | [] => run h (run_targets shown fuel reg i ts) st = (Ok tt, st1)
    | t :: _ =>
        match get reg (spec_module t) with
        | None => run h (run_targets shown fuel reg i ts) st =
            (Err (AnyMsg ("unknown module '" +:+ spec_module t +:+ "'")), st1)
        | Some m =>
            match attempt m t st1 with
            | (Ok _, _) => False
            | (Err e, st2) => run h (run_targets shown fuel reg i ts) st =
                (Err (blamed (i + nlen done) t e), st2)
            | (Panicked, st2) => run h (run_targets shown fuel reg i ts) st = (Panicked, st2)
            end
        end
    end.
Proof.
  revert i st; induction ts as [|t ts IH]; intros i st.
  { exists [], [], st. repeat split. constructor. }
  cbn [run_targets]. destruct (get reg (spec_module t)) as [m|] eqn:Em; cycle 1.
  { exists [], (t :: ts), st. rewrite Em. repeat split. constructor. }
  change (ok_or (Some m) ?e) with (@Ok anyhow _ m). rewrite run_try. cbn [fst snd run].
  rewrite run_bind. fold (attempt m t st).
  destruct (attempt m t st) as [[[]|e|] st1] eqn:Ea; cbn [fst snd].
  - destruct (IH (i + 1)%N st1) as (dn&rest&st2&->&Hc&Hr).
    exists (t :: dn), rest, st2. split; [done|]. split; [by econstructor|].
    rewrite nlen_cons. replace (i + (1 + nlen dn))%N with (i + 1 + nlen dn)%N by lia. exact Hr.
  - exists [], (t :: ts), st. rewrite Em, Ea. split; [done|]. split; [constructor|].
    change (nlen []) with 0%N. by rewrite N.add_0_r.
  - exists [], (t :: ts), st. rewrite Em, Ea. repeat split. constructor.
Qed.
End Targets.
