(* ===== verification/Paths.v ===== *)
(** * Paths and their encoding on the wire ([vendored-from-bore/transfer.rs])

    The path functions of the standard library the transfer code calls, as they
    work on Unix, and the codec that carries file names over the wire whatever
    their bytes.  An [OsStr], a [Path] and a [String] are byte strings.  The code
    compiled under [cfg(windows)] is not modelled; names that a Windows peer sent
    ([w:]) are decoded as the Unix build decodes them. *)

From Stdlib Require Import Strings.Ascii.
From stdpp Require Import countable list.
From S2P Require Import Prelude Text Proto.

(** ** UTF-8 ([str::from_utf8], [String::from_utf8_lossy]) *)

Definition in_range (lo hi : N) (s : string) : bool :=
  match s with
  | String a _ => ((lo <=? Ascii.N_of_ascii a) && (Ascii.N_of_ascii a <=? hi))%N
  | EmptyString => false
  end.

Definition tail (s : string) : string := match s with String _ s' => s' | EmptyString => s end.

(** The character that starts with byte [a] and goes on with [s]: whether it is
    well formed, and how many bytes it takes (the bytes one replacement character
    stands for, when it is not). *)
Definition utf8_char (a : ascii) (s : string) : bool * nat :=
  let n := Ascii.N_of_ascii a in
  if (n <? 128)%N then (true, 1)
  else if ((194 <=? n) && (n <=? 223))%N then
    if in_range 128 191 s then (true, 2) else (false, 1)
  else if ((224 <=? n) && (n <=? 239))%N then
    let lo := if (n =? 224)%N then 160%N else 128%N in
    let hi := if (n =? 237)%N then 159%N else 191%N in
    if in_range lo hi s then
      if in_range 128 191 (tail s) then (true, 3) else (false, 2)
    else (false, 1)
  else if ((240 <=? n) && (n <=? 244))%N then
    let lo := if (n =? 240)%N then 144%N else 128%N in
    let hi := if (n =? 244)%N then 143%N else 191%N in
    if in_range lo hi s then
      if in_range 128 191 (tail s) then
        if in_range 128 191 (tail (tail s)) then (true, 4) else (false, 3)
      else (false, 2)
    else (false, 1)
  else (false, 1).

(** [skip] bytes of the current character are left. *)
Fixpoint utf8_from (skip : nat) (s : string) : bool :=
  match s with
  | EmptyString => true
  | String a s' =>
      match skip with
      | S k => utf8_from k s'
      | O => (utf8_char a s').1 && utf8_from (pred (utf8_char a s').2) s'
      end
  end.

Definition valid_utf8 (s : string) : bool := utf8_from 0 s.

(** U+FFFD. *)
Definition replacement : string :=
  String.string_of_list_ascii (Ascii.ascii_of_nat <$> [239; 191; 189]).

Fixpoint lossy_from (copy : bool) (skip : nat) (s : string) : string :=
  match s with
  | EmptyString => EmptyString
  | String a s' =>
      match skip with
      | S k => if copy then String a (lossy_from copy k s') else lossy_from copy k s'
      | O =>
          let '(ok, n) := utf8_char a s' in
          if ok then String a (lossy_from true (pred n) s')
          else replacement +:+ lossy_from false (pred n) s'
      end
  end.

(** [to_string_lossy], and what [display()] prints. *)
Definition to_string_lossy (s : string) : string := lossy_from true 0 s.

(** ** UTF-16 ([u16::from_le_bytes], [String::from_utf16]) *)

(** [chunks_exact(2)]: an odd byte at the end is dropped. *)
Fixpoint units16 (s : string) : list N :=
  match s with
  | String a (String b s') => (Ascii.N_of_ascii a + 256 * Ascii.N_of_ascii b)%N :: units16 s'
  | _ => []
  end.

(** The UTF-8 bytes of a code point. *)
Definition encode_utf8 (c : N) : string :=
  let byte n := Ascii.ascii_of_N n in
  let low k := byte (128 + (c / 2 ^ k) mod 64)%N in
  String.string_of_list_ascii
    (if (c <? 128)%N then [byte c]
     else if (c <? 2048)%N then [byte (192 + c / 64)%N; low 0%N]
     else if (c <? 65536)%N then [byte (224 + c / 4096)%N; low 6%N; low 0%N]
     else [byte (240 + c / 262144)%N; low 12%N; low 6%N; low 0%N]).

Definition surrogate (lo : N) (u : N) : bool := ((lo <=? u) && (u <=? lo + 1023))%N.

Fixpoint from_utf16 (us : list N) : option string :=
  match us with
  | [] => Some EmptyString
  | u :: us' =>
      if surrogate 55296 u then
        match us' with
        | v :: us'' =>
            if surrogate 56320 v then
              (fun s => encode_utf8 (65536 + (u - 55296) * 1024 + (v - 56320)) +:+ s)
                <$> from_utf16 us''
            else None
        | [] => None
        end
      else if surrogate 56320 u then None
      else (fun s => encode_utf8 u +:+ s) <$> from_utf16 us'
  end.

(** ** [std::path] on Unix *)

Inductive component : Type :=
| RootDir
| CurDir
| ParentDir
| Normal (name : string).

#[export] Instance component_eq_decision : EqDecision component.
Proof. solve_decision. Defined.

#[export] Program Instance component_countable : Countable component :=
  inj_countable'
    (fun c => match c with
     | RootDir => inl (inl tt) | CurDir => inl (inr tt)
     | ParentDir => inr (inl tt) | Normal n => inr (inr n) end)
    (fun x => match x with
     | inl (inl _) => RootDir | inl (inr _) => CurDir
     | inr (inl _) => ParentDir | inr (inr n) => Normal n end) _.
Next Obligation. by intros []. Qed.

(** [s.split('/')]. *)
Fixpoint split_slash (s : string) : list string :=
  match s with
  | EmptyString => [EmptyString]
  | String a s' =>
      if Ascii.eqb a "/"%char then EmptyString :: split_slash s'
      else match split_slash s' with
           | x :: xs => String a x :: xs
           | [] => [String a EmptyString]
           end
  end.

(** A part between separators: empty parts and dots are normalized away. *)
Definition parse_component (c : string) : option component :=
  if String.eqb c "" then None
  else if String.eqb c "." then None
  else if String.eqb c ".." then Some ParentDir
  else Some (Normal c).

Definition has_root (p : string) : bool :=
  match p with String a _ => Ascii.eqb a "/"%char | EmptyString => false end.

(** A dot that starts a relative path is kept. *)
Definition include_cur_dir (p : string) : bool :=
  match p with
  | String a EmptyString => Ascii.eqb a "."%char
  | String a (String b _) => Ascii.eqb a "."%char && Ascii.eqb b "/"%char
  | EmptyString => false
  end.

Definition parts (p : string) : list component := omap parse_component (split_slash p).

Definition components (p : string) : list component :=
  (if has_root p then [RootDir] else if include_cur_dir p then [CurDir] else []) ++ parts p.

Fixpoint ends_with_slash (s : string) : bool :=
  match s with
  | EmptyString => false
  | String a EmptyString => Ascii.eqb a "/"%char
  | String _ s' => ends_with_slash s'
  end.

(** [PathBuf::push]; [Path::join] is [push] on a copy. *)
Definition push (buf path : string) : string :=
  if has_root path then path
  else if String.eqb buf "" || ends_with_slash buf then buf +:+ path
  else buf +:+ "/" +:+ path.

(** [Path::parent], up to the equality of paths, which compares components. *)
Definition parent (p : list component) : option (list component) :=
  match last p with
  | None | Some RootDir => None
  | Some _ => Some (removelast p)
  end.

Definition file_name (p : string) : option string :=
  match last (components p) with Some (Normal n) => Some n | _ => None end.

(** [rsplit_file_at_dot]: the stem and the extension of a file name. *)
Definition rsplit_file_at_dot (file : string) : option string * option string :=
  if String.eqb file ".." then (Some file, None)
  else match rsplit_once "."%char file with
       | Some (before, after) => if String.eqb before "" then (Some file, None) else (Some before, Some after)
       | None => (None, Some file)
       end.

Definition file_stem (p : string) : option string :=
  match file_name p with
  | Some f =>
      match rsplit_file_at_dot f with
      | (Some before, _) => Some before
      | (None, after) => after
      end
  | None => None
  end.

Definition extension (p : string) : option string :=
  match file_name p with
  | Some f => match rsplit_file_at_dot f with (Some _, after) => after | (None, _) => None end
  | None => None
  end.

(** ** The codec of names *)

(** The [hex] crate. *)
Class Hex := {
  hex_encode : string -> string;
  hex_decode : string -> option string;
}.

(** Documented behaviour: decoding inverts encoding, and the text is made of
    hexadecimal digits. *)
Class HexLaws `{Hex} := {
  hex_round_trip b : hex_decode (hex_encode b) = Some b;
  hex_digits b : all_alnum (hex_encode b) = true;
}.

Section Codec.
Context `{Hex}.

Definition encode_component_os (value : string) : string :=
  if valid_utf8 value then "u:" +:+ hex_encode value else "b:" +:+ hex_encode value.

(** On Unix every text is a safe component. *)
Definition safe_component (text : string) : string := text.

Definition decode_unix_component (payload : string) : string := default "" (hex_decode payload).

Definition decode_windows_component (payload : string) : string :=
  let bytes := default "" (hex_decode payload) in
  match from_utf16 (units16 bytes) with
  | Some text => safe_component text
  | None => "_bore_wide_" +:+ payload
  end.

Definition decode_component (encoded : string) : string :=
  match strip_prefix "u:" encoded with
  | Some payload =>
      match hex_decode payload with
      | Some bytes =>
          if valid_utf8 bytes then safe_component bytes else "_bore_bad_utf8_" +:+ payload
      | None => "_bore_bad_utf8_" +:+ payload
      end
  | None =>
      match strip_prefix "b:" encoded with
      | Some payload => decode_unix_component payload
      | None =>
          match strip_prefix "w:" encoded with
          | Some payload => decode_windows_component payload
          | None => "_bore_invalid_" +:+ encoded
          end
      end
  end.

Definition encode_native_path (path : string) : string :=
  if valid_utf8 path then "u:" +:+ hex_encode path else "b:" +:+ hex_encode path.

Definition decode_native_path (encoded : string) : string := decode_component encoded.

Definition encode_root_name (path : string) : ares string :=
  match components path with
  | [] => Err (AnyMsg "output path is empty")
  | [Normal name] => Ok (encode_component_os name)
  | _ => Err (AnyMsg "transfer root name must be a single path component")
  end.

Definition source_file_name_string (path : string) : ares string :=
  match file_name path with
  | Some name => Ok (encode_component_os name)
  | None => Err (AnyMsg (to_string_lossy path +:+ " does not end with a file name"))
  end.

(** The loop over the components of a relative path. *)
Fixpoint encode_parts (path : string) (cs : list component) : ares (list string) :=
  match cs with
  | [] => Ok []
  | Normal name :: cs' => rbind (encode_parts path cs') (fun ps => Ok (encode_component_os name :: ps))
  | _ :: _ => Err (AnyMsg ("invalid relative path " +:+ to_string_lossy path))
  end.

(** [parts.join("/")]. *)
Fixpoint join_slash (ps : list string) : string :=
  match ps with
  | [] => ""
  | [p] => p
  | p :: ps' => p +:+ "/" +:+ join_slash ps'
  end.

Definition encode_relative_path (path : string) : ares string :=
  if String.eqb path "" then Ok ""
  else rbind (encode_parts path (components path)) (fun ps => Ok (join_slash ps)).

Fixpoint push_parts (encoded : string) (ps : list string) (path : string) : ares string :=
  match ps with
  | [] => Ok path
  | part :: ps' =>
      if String.eqb part "" then
        Err (AnyMsg ("invalid relative path encoding " +:+ encoded))
      else push_parts encoded ps' (push path (decode_component part))
  end.

Definition decode_relative_path (encoded : string) : ares string :=
  if String.eqb encoded "" then Ok ""
  else push_parts encoded (split_slash encoded) "".

Definition is_normal (c : component) : bool := match c with Normal _ => true | _ => false end.

Definition validate_relative_path (path : string) : ares unit :=
  if forallb is_normal (components path) then Ok tt
  else Err (AnyMsg ("invalid relative path component in " +:+ to_string_lossy path)).

Definition display_component (encoded : string) : string :=
  to_string_lossy (decode_component encoded).

Definition display_rel_path (encoded : string) : string :=
  if String.eqb encoded "" then "."
  else match decode_relative_path encoded with
       | Ok path => to_string_lossy path
       | _ => encoded
       end.

Definition rename_component (name : string) (idx : N) : string :=
  let suffix := " (" +:+ pretty idx +:+ ")" in
  if valid_utf8 name then
    match file_stem name, extension name with
    | Some stem, Some ext => stem +:+ suffix +:+ "." +:+ ext
    | _, _ => name +:+ suffix
    end
  else name +:+ suffix.

Definition stage_path (stage_root rel_path : string) : ares string :=
  if String.eqb rel_path "" then Ok stage_root
  else rbind (decode_relative_path rel_path) (fun p => Ok (push stage_root p)).
End Codec.

(** ** Facts on paths *)

Notation slash := "/"%char.

Lemma string_app_cons a s t : String a s +:+ t = String a (s +:+ t).
Proof. done. Qed.

Lemma split_slash_app a b : split_slash (a +:+ "/" +:+ b) = split_slash a ++ split_slash b.
Proof.
  induction a as [|x a IH]; [done|]. rewrite string_app_cons. cbn [split_slash].
  destruct (Ascii.eqb x slash); rewrite IH; [done|].
  destruct (split_slash a) as [|p ps] eqn:Ea; [|done].
  destruct a as [|y a]; simpl in Ea; [done|]. destruct (Ascii.eqb y slash); [done|].
  by destruct (split_slash a).
Qed.

Lemma split_slash_free s : free slash s = true -> split_slash s = [s].
Proof.
  induction s as [|a s IH]; simpl; [done|].
  intros [Ha Hs]%andb_true_iff. apply negb_true_iff in Ha. by rewrite Ha, IH.
Qed.

Lemma split_slash_all_free s : Forall (fun x => free slash x = true) (split_slash s).
Proof.
  induction s as [|a s IH]; simpl; [by repeat constructor|].
  destruct (Ascii.eqb a slash) eqn:Ea; [by constructor|].
  destruct IH as [|x xs Hx Hxs]; constructor; simpl; rewrite ?Ea, ?Hx; auto.
Qed.

Lemma parts_slash a b : parts (a +:+ "/" +:+ b) = parts a ++ parts b.
Proof. unfold parts. by rewrite split_slash_app, omap_app. Qed.

(** A trailing separator adds nothing. *)
Lemma ends_with_slash_split s : ends_with_slash s = true -> exists t, s = t +:+ "/".
Proof.
  induction s as [|a s IH]; [done|]. simpl. destruct s as [|b s].
  - intros Ha%Ascii.eqb_eq. subst. by exists "".
  - intros Hs. destruct (IH Hs) as [t E]. exists (String a t). by rewrite E.
Qed.

Lemma parts_push buf p : has_root p = false -> parts (push buf p) = parts buf ++ parts p.
Proof.
  intros Hp. unfold push. rewrite Hp.
  destruct (String.eqb_spec buf "") as [->|Hb]; [done|]. simpl.
  destruct (ends_with_slash buf) eqn:Es; [|apply parts_slash].
  apply ends_with_slash_split in Es as [t ->]. rewrite string_app_assoc, parts_slash.
  change (t +:+ "/") with (t +:+ "/" +:+ ""). by rewrite parts_slash, app_nil_r.
Qed.

Lemma components_push buf p :
  buf <> "" -> has_root p = false -> components (push buf p) = components buf ++ parts p.
Proof.
  intros Hb Hp. unfold components. rewrite parts_push, app_assoc by done. f_equal.
  unfold push. rewrite Hp. destruct buf as [|a [|b buf]]; [done| |].
  - destruct (Ascii.eqb_spec a slash) as [->|Ha]; [done|]. simpl.
    apply Ascii.eqb_neq in Ha. rewrite Ha. simpl.
    change (String a "" +:+ "/" +:+ p) with (String a (String slash p)).
    simpl. by rewrite Ha, andb_true_r.
  - replace (String.eqb (String a (String b buf)) "") with false by done.
    by destruct (ends_with_slash (String a (String b buf))).
Qed.

(** What a component's name looks like. *)
Definition name_ok (n : string) : Prop :=
  n <> "" /\ n <> "." /\ n <> ".." /\ free slash n = true.

Definition named (c : component) : Prop := match c with Normal n => name_ok n | _ => True end.

Lemma parts_named p : Forall named (parts p).
Proof.
  unfold parts. induction (split_slash_all_free p) as [|x xs Hx _ IH]; simpl; [constructor|].
  unfold parse_component. destruct (String.eqb_spec x ""); [done|].
  destruct (String.eqb_spec x "."); [done|].
  destruct (String.eqb_spec x ".."); constructor; done.
Qed.

Lemma name_relative n : name_ok n -> has_root n = false /\ include_cur_dir n = false.
Proof.
  intros (H1&H2&H3&Hf). destruct n as [|a [|b n]]; [done|..]; simpl in *.
  - apply andb_true_iff in Hf as [Ha%negb_true_iff _]. split; [done|].
    destruct (Ascii.eqb_spec a "."%char); by subst.
  - apply andb_true_iff in Hf as [Ha%negb_true_iff [Hb%negb_true_iff _]%andb_true_iff].
    split; [done|]. by rewrite Hb, andb_false_r.
Qed.

Lemma name_parts n : name_ok n -> parts n = [Normal n].
Proof.
  intros (H1&H2&H3&Hf). unfold parts. rewrite split_slash_free by done. simpl.
  unfold parse_component. destruct (String.eqb_spec n ""); [done|].
  destruct (String.eqb_spec n "."); [done|]. by destruct (String.eqb_spec n "..").
Qed.

Lemma name_components n : name_ok n -> components n = [Normal n].
Proof.
  intros Hn. destruct (name_relative n Hn) as [Hr Hc]. unfold components.
  by rewrite Hr, Hc, name_parts.
Qed.

Lemma push_name buf n : name_ok n -> components (push buf n) = components buf ++ [Normal n].
Proof.
  intros Hn. destruct (name_relative n Hn) as [Hr _].
  destruct (String.eqb_spec buf "") as [->|Hb].
  - unfold push. rewrite Hr. simpl. by apply name_components.
  - by rewrite components_push, name_parts.
Qed.

(** A path made of names only is relative, and all in its parts. *)
Lemma all_normal_parts p :
  forallb is_normal (components p) = true -> has_root p = false /\ components p = parts p.
Proof. unfold components. destruct (has_root p), (include_cur_dir p); done. Qed.

(** ** Facts on the codec *)

Lemma all_alnum_no_slash s : all_alnum s = true -> free slash s = true.
Proof.
  induction s as [|a s IH]; simpl; [done|]. intros [Ha Hs]%andb_true_iff.
  rewrite IH by done. destruct (Ascii.eqb_spec a slash) as [->|]; done.
Qed.

Section CodecFacts.
Context `{HexLaws}.

Lemma decode_encode_component v : decode_component (encode_component_os v) = v.
Proof.
  unfold encode_component_os, decode_component. destruct (valid_utf8 v) eqn:E.
  - by rewrite strip_prefix_app, hex_round_trip, E.
  - change (strip_prefix "u:" ("b:" +:+ hex_encode v)) with (@None string).
    rewrite strip_prefix_app. unfold decode_unix_component. by rewrite hex_round_trip.
Qed.

Lemma encode_component_part v :
  encode_component_os v <> "" /\ free slash (encode_component_os v) = true.
Proof.
  unfold encode_component_os. pose proof (all_alnum_no_slash _ (hex_digits v)).
  destruct (valid_utf8 v); (split; [discriminate|done]).
Qed.

Lemma join_slash_split ps :
  ps <> [] -> Forall (fun p => free slash p = true) ps -> split_slash (join_slash ps) = ps.
Proof.
  intros Hne Hps. induction Hps as [|p ps Hp Hps IH]; [done|].
  destruct ps as [|q ps]; [by apply split_slash_free|].
  change (join_slash (p :: q :: ps)) with (p +:+ "/" +:+ join_slash (q :: ps)).
  by rewrite split_slash_app, split_slash_free, IH.
Qed.

Lemma encode_parts_names path ns :
  encode_parts path (Normal <$> ns) = Ok (encode_component_os <$> ns).
Proof. induction ns as [|n ns IH]; csimpl; [done|]. by rewrite IH. Qed.

Lemma push_parts_names encoded ns buf :
  Forall name_ok ns ->
  exists p, push_parts encoded (encode_component_os <$> ns) buf = Ok p /\
    components p = components buf ++ (Normal <$> ns).
Proof.
  intros Hns. revert buf. induction Hns as [|n ns Hn _ IH]; intros buf; csimpl.
  - exists buf. by rewrite app_nil_r.
  - destruct (encode_component_part n) as [Hne _].
    destruct (String.eqb_spec (encode_component_os n) ""); [done|].
    rewrite decode_encode_component. destruct (IH (push buf n)) as (p&E&Hp).
    exists p. split; [done|]. by rewrite Hp, push_name, <- app_assoc.
Qed.

(** A path made of names is encoded, and the text decodes to the same names. *)
Lemma encode_names path ns :
  components path = Normal <$> ns -> Forall name_ok ns ->
  exists text path', encode_relative_path path = Ok text /\
    decode_relative_path text = Ok path' /\ components path' = Normal <$> ns.
Proof.
  intros Hc Hns. unfold encode_relative_path. destruct (String.eqb_spec path "") as [->|Hne].
  { by exists "", "". }
  rewrite Hc, encode_parts_names. cbn [rbind].
  destruct ns as [|n ns].
  { by exists "", "". }
  set (ps := encode_component_os <$> n :: ns).
  assert (Hsplit : split_slash (join_slash ps) = ps).
  { apply join_slash_split; [done|]. apply Forall_fmap, Forall_true.
    intros x. apply encode_component_part. }
  assert (Hjoin : join_slash ps <> "").
  { intros E. rewrite E in Hsplit. injection Hsplit as Hx _.
    by destruct (proj1 (encode_component_part n)). }
  destruct (push_parts_names (join_slash ps) (n :: ns) "" Hns) as (p&Ep&Hp).
  exists (join_slash ps), p. split_and!; [done| |].
  - unfold decode_relative_path. rewrite Hsplit. by destruct (String.eqb_spec (join_slash ps) "").
  - exact Hp.
Qed.
End CodecFacts.

Lemma normal_names cs :
  forallb is_normal cs = true -> Forall named cs ->
  exists ns, cs = Normal <$> ns /\ Forall name_ok ns.
Proof.
  intros Hn Hc. induction Hc as [|c cs Hx _ IH]; [by exists []|]. simpl in Hn.
  destruct c as [| | |n]; try done. destruct (IH Hn) as (ns&->&Hns).
  exists (n :: ns). split; [done|]. by constructor.
Qed.

(** A concrete codec: two hexadecimal digits a byte. *)
Definition hex_digit (n : N) : ascii :=
  Ascii.ascii_of_N (if (n <? 10)%N then 48 + n else 87 + n)%N.

Fixpoint demo_hex_encode (s : string) : string :=
  match s with
  | EmptyString => EmptyString
  | String a s' =>
      String (hex_digit (Ascii.N_of_ascii a / 16))
        (String (hex_digit (Ascii.N_of_ascii a mod 16)) (demo_hex_encode s'))
  end.

Definition unhex_digit (a : ascii) : option N :=
  let n := Ascii.N_of_ascii a in
  if ((48 <=? n) && (n <=? 57))%N then Some (n - 48)%N
  else if ((97 <=? n) && (n <=? 102))%N then Some (n - 87)%N
  else if ((65 <=? n) && (n <=? 70))%N then Some (n - 55)%N
  else None.

Fixpoint demo_hex_decode (s : string) : option string :=
  match s with
  | EmptyString => Some EmptyString
  | String a (String b s') =>
      match unhex_digit a, unhex_digit b, demo_hex_decode s' with
      | Some x, Some y, Some t => Some (String (Ascii.ascii_of_N (16 * x + y)) t)
      | _, _, _ => None
      end
  | _ => None
  end.

#[export] Instance demo_hex : Hex :=
  {| hex_encode := demo_hex_encode; hex_decode := demo_hex_decode |}.

#[export] Instance demo_hex_laws : HexLaws.
Proof.
  constructor; intros b; simpl; induction b as [|a b IH]; simpl; try done.
  - rewrite IH. by destruct a as [[] [] [] [] [] [] [] []].
  - rewrite IH. by destruct a as [[] [] [] [] [] [] [] []].
Qed.
