(* ===== verification/Transfer.v ===== *)
(** * File transfers ([vendored-from-bore/transfer.rs])

    The planning side of a transfer: the manifest and its validation, the tiling
    of files into chunks, resuming, and the choice of the destination's name.
    This is the reference code a later phase ports; it is kept beside the crates
    and not compiled with them. *)

From stdpp Require Import list gmap.
From S2P Require Import Prelude Streams Json Wire Proto Text Paths.

Definition PROTOCOL_VERSION : N := 3.
Definition MANIFEST_CHUNK : N := 128.
Definition CHUNK_SIZE : N := 1024 * 1024.
Definition MAX_PARALLEL : N := 32.
Definition DEFAULT_MAX_CARRIERS : N := 16.
Definition AUTO_CARRIER_CAP : N := DEFAULT_MAX_CARRIERS.
Definition RESUME_STATE_FILE : string := "state.json".
Definition MULTI_SOURCE_STAGE_ROOT : string := ".bore-multi-root".

Inductive CollisionPolicy : Type := Fail_ | Overwrite | Rename.

Record TransportMode : Type := { direct_udp : bool; relay_tls : bool }.

Definition label (self : TransportMode) : string :=
  if direct_udp self then "direct-udp" else "relay".

Definition security (self : TransportMode) : string :=
  if direct_udp self then "quic-encrypted" else if relay_tls self then "tls" else "plain".

Definition TransportMode_display (self : TransportMode) : string :=
  label self +:+ " (" +:+ security self +:+ ")".

Inductive RootSourceKind : Type := Filesystem | Stdin.

Inductive EntryKind : Type := RegularFile | Directory | Symlink | CharDevice | BlockDevice.

#[export] Instance EntryKind_eq_decision : EqDecision EntryKind.
Proof. solve_decision. Defined.

Definition is_regular_file (self : EntryKind) : bool :=
  match self with RegularFile => true | _ => false end.

Definition is_directory (self : EntryKind) : bool :=
  match self with Directory => true | _ => false end.

Record BeginFrame : Type := {
  protocol_version : N;
  transfer_id : string;
  root_name : string;
  root_source : RootSourceKind;
  total_entries : N;
  begin_total_bytes : option N;
  transport_mode : TransportMode;
  requested_parallel : N;   (* u16 *)
  multi_source : bool;
}.

Record DeviceDescriptor : Type := { major : N; minor : N }.

Record ManifestEntry : Type := {
  id : N;                   (* u32 *)
  rel_path : string;
  kind : EntryKind;
  size : option N;          (* u64 *)
  full_hash : option string;
  chunk_count : N;          (* u32 *)
  symlink_target : option string;
  device : option DeviceDescriptor;
  mode : option N;
}.

Record TransferSummary : Type := {
  regular_files : N;
  directories : N;
  symlinks : N;
  devices : N;
  total_bytes : N;
  transfer_hash : string;
}.

Record TransferRecord : Type := {
  record_rel_path : string;
  record_kind : EntryKind;
  record_size : option N;
  record_symlink_target : option string;
  record_device : option DeviceDescriptor;
  content_hash : option string;
}.

Record ResumeFilePlan : Type := { plan_entry_id : N; completed_chunks : list N }.

Record FileResumeState : Type := { file_entry_id : N; completed : list bool }.

Record ResumeState : Type := {
  state_protocol_version : N;
  state_transfer_id : string;
  state_manifest_hash : string;
  final_name : string;
  files : list FileResumeState;
}.

Record PlannedEntry : Type := { manifest : ManifestEntry; source_path : option string }.

Record ChunkTask : Type := {
  task_entry_id : N;
  task_path : string;
  task_rel_path : string;
  task_offset : N;
  task_len : N;             (* u32 *)
  task_chunk_index : N;
}.

(** Sums of [u64] and [u32] casts, as a release build computes them. *)
Definition add_u64 (a b : N) : N := ((a + b) mod 2 ^ 64)%N.
Definition as_u32 (n : N) : N := (n mod 2 ^ 32)%N.

(** ** Chunks *)

Definition chunk_count_for (size : N) : N :=
  if (size =? 0)%N then 0%N else as_u32 ((size + CHUNK_SIZE - 1) / CHUNK_SIZE).

(** The product of two [u32] fits a [u64]; the subtraction saturates. *)
Definition chunk_len (size chunk_index : N) : N :=
  let offset := (chunk_index * CHUNK_SIZE)%N in
  N.min (size - offset) CHUNK_SIZE.

Definition anyhow_context {A} (o : option A) (msg : string) : ares A := ok_or o (AnyMsg msg).

(** [0..n] for a [u32] bound. *)
Definition upto (n : N) : list N := N.of_nat <$> seq 0 (N.to_nat n).

Section Planning.
Context `{Hex}.

Definition validate_chunk_geometry (entry : ManifestEntry) (chunk_index offset len : N) :
  ares unit :=
  rbind (anyhow_context (size entry) "regular file manifest entry missing size") (fun size =>
  if (chunk_count entry <=? chunk_index)%N then
    Err (AnyMsg ("chunk index " +:+ pretty chunk_index +:+ " out of range (" +:+
                 pretty (chunk_count entry) +:+ ") for " +:+ display_rel_path (rel_path entry)))
  else
    let expected_off := (chunk_index * CHUNK_SIZE)%N in
    let expected_len := chunk_len size chunk_index in
    if negb (offset =? expected_off)%N || negb (len =? expected_len)%N then
      Err (AnyMsg ("chunk geometry mismatch for " +:+ display_rel_path (rel_path entry) +:+
                   " chunk " +:+ pretty chunk_index +:+ ": got off=" +:+ pretty offset +:+
                   " len=" +:+ pretty len +:+ ", expected off=" +:+ pretty expected_off +:+
                   " len=" +:+ pretty expected_len))
    else Ok tt).

(** ** The manifest *)

(** The [while let] over the parents of a path; each is shorter. *)
Fixpoint ancestors (fuel : nat) (p : list component) : list (list component) :=
  match fuel, parent p with
  | S fuel', Some q => q :: ancestors fuel' q
  | _, _ => []
  end.

(** What the loop has seen: the ids, and the kind of each path.  Paths are keyed
    by their components, by which [Path] compares. *)
Record seen : Type := { seen_ids : gset N; seen_paths : gmap (list component) EntryKind }.

Definition descends_through (m : gmap (list component) EntryKind) (p : list component) : bool :=
  existsb (fun q => match m !! q with Some k => negb (is_directory k) | None => false end)
    (ancestors (length p) p).

Definition check_regular (begin : BeginFrame) (entry : ManifestEntry) : ares unit :=
  if negb (is_regular_file (kind entry)) then Ok tt
  else match root_source begin with
       | Filesystem =>
           match size entry, full_hash entry with
           | Some size, Some _ =>
               if negb (chunk_count entry =? chunk_count_for size)%N then
                 Err (AnyMsg ("regular file " +:+ display_rel_path (rel_path entry) +:+
                              " has an invalid chunk count"))
               else Ok tt
           | _, _ =>
               Err (AnyMsg ("regular file " +:+ display_rel_path (rel_path entry) +:+
                            " is missing size or hash metadata"))
           end
       | Stdin =>
           if negb (String.eqb (rel_path entry) "") || bool_decide (is_Some (size entry)) then
             Err (AnyMsg "stdin transfers must have a single root file with unknown size")
           else Ok tt
       end.

Fixpoint validate_entries (begin : BeginFrame) (s : seen) (entries : list ManifestEntry) :
  ares unit :=
  match entries with
  | [] => Ok tt
  | entry :: entries' =>
      if bool_decide (id entry ∈ seen_ids s) then
        Err (AnyMsg ("duplicate manifest entry id " +:+ pretty (id entry)))
      else
        rbind (decode_relative_path (rel_path entry)) (fun path =>
        rbind (validate_relative_path path) (fun _ =>
        let p := components path in
        match seen_paths s !! p with
        | Some _ =>
            Err (AnyMsg ("duplicate manifest entry " +:+ display_rel_path (rel_path entry)))
        | None =>
            let m := <[p := kind entry]> (seen_paths s) in
            if descends_through m p then
              Err (AnyMsg ("manifest entry " +:+ display_rel_path (rel_path entry) +:+
                           " would descend through a non-directory ancestor"))
            else
              rbind (check_regular begin entry) (fun _ =>
              validate_entries begin
                {| seen_ids := {[id entry]} ∪ seen_ids s; seen_paths := m |} entries')
        end))
  end.

Definition validate_manifest (begin : BeginFrame) (entries : list ManifestEntry) : ares unit :=
  match entries with
  | [] => Err (AnyMsg "manifest is empty")
  | root :: _ =>
      if negb (String.eqb (rel_path root) "") then
        Err (AnyMsg "manifest root entry must use an empty relative path")
      else validate_entries begin {| seen_ids := ∅; seen_paths := ∅ |} entries
  end.

(** ** Resuming *)

Definition all_chunks_complete_plan (entries : list ManifestEntry) : list ResumeFilePlan :=
  (fun e => {| plan_entry_id := id e; completed_chunks := upto (chunk_count e) |})
    <$> filter (fun e => is_regular_file (kind e) = true) entries.

(** [collect()] into a map: the last of the entries with an id wins. *)
Definition collect_map {A B} (key : A -> N) (f : A -> B) (l : list A) : gmap N B :=
  foldl (fun m x => <[key x := f x]> m) ∅ l.

(** The chunks marked done, from index [i], and the bytes they hold. *)
Fixpoint done_chunks (size i : N) (done : list bool) (bytes : N) : N * list N :=
  match done with
  | [] => (bytes, [])
  | b :: done' =>
      if b then
        let '(bytes', l) := done_chunks size (i + 1) done' (add_u64 bytes (chunk_len size i)) in
        (bytes', i :: l)
      else done_chunks size (i + 1) done' bytes
  end.

Fixpoint resume_files (by_id : gmap N ManifestEntry) (fs : list FileResumeState) (bytes : N) :
  ares (N * list ResumeFilePlan) :=
  match fs with
  | [] => Ok (bytes, [])
  | file :: fs' =>
      rbind (anyhow_context (by_id !! file_entry_id file)
               ("resume state references unknown entry " +:+ pretty (file_entry_id file))) (fun entry =>
      if negb (nlen (completed file) =? chunk_count entry)%N then
        Err (AnyMsg ("resume state chunk layout does not match entry " +:+
                     pretty (file_entry_id file)))
      else
        let '(bytes', l) := done_chunks (default 0%N (size entry)) 0 (completed file) bytes in
        rbind (resume_files by_id fs' bytes') (fun '(total, plans) =>
        Ok (total, {| plan_entry_id := file_entry_id file; completed_chunks := l |} :: plans)))
  end.

Definition build_resume_plan (entries : list ManifestEntry) (state : ResumeState) :
  ares (N * list ResumeFilePlan) :=
  resume_files (collect_map id (fun e => e) entries) (files state) 0.

(** The state of a transfer that starts afresh. *)
Definition fresh_state (begin : BeginFrame) (manifest_hash final_name : string)
  (entries : list ManifestEntry) : ResumeState := {|
  state_protocol_version := PROTOCOL_VERSION;
  state_transfer_id := transfer_id begin;
  state_manifest_hash := manifest_hash;
  final_name := final_name;
  files := (fun e => {| file_entry_id := id e;
                        completed := replicate (N.to_nat (chunk_count e)) false |})
             <$> filter (fun e => is_regular_file (kind e) = true) entries;
|}.

(** ** The sender's work *)

Definition chunk_task (entry : PlannedEntry) (path : string) (chunk_index : N) : ChunkTask := {|
  task_entry_id := id (manifest entry);
  task_path := path;
  task_rel_path := rel_path (manifest entry);
  task_offset := (chunk_index * CHUNK_SIZE)%N;
  task_len := as_u32 (chunk_len (default 0%N (size (manifest entry))) chunk_index);
  task_chunk_index := chunk_index;
|}.

(** The loop over the chunks of one entry. *)
Fixpoint entry_tasks (entry : PlannedEntry) (done : list N) (indices : list N) :
  ares (list ChunkTask) :=
  match indices with
  | [] => Ok []
  | i :: indices' =>
      if bool_decide (i ∈ done) then entry_tasks entry done indices'
      else
        rbind (anyhow_context (source_path entry) "regular file is missing its source path")
          (fun path =>
        rbind (entry_tasks entry done indices') (fun ts => Ok (chunk_task entry path i :: ts)))
  end.

Fixpoint tasks_of (done : gmap N (list N)) (entries : list PlannedEntry) :
  ares (list ChunkTask) :=
  match entries with
  | [] => Ok []
  | entry :: entries' =>
      if negb (is_regular_file (kind (manifest entry))) then tasks_of done entries'
      else
        rbind (entry_tasks entry (default [] (done !! id (manifest entry)))
                 (upto (chunk_count (manifest entry)))) (fun ts =>
        rbind (tasks_of done entries') (fun ts' => Ok (ts ++ ts')))
  end.

Definition build_chunk_tasks (entries : list PlannedEntry) (resume_plan : list ResumeFilePlan) :
  ares (list ChunkTask) :=
  tasks_of (collect_map plan_entry_id completed_chunks resume_plan) entries.

(** How many data streams the receiver waits for. *)
Definition pending_chunks (entries : list ManifestEntry) (resume_plan : list ResumeFilePlan) : N :=
  let done := collect_map plan_entry_id (fun p => nlen (completed_chunks p)) resume_plan in
  foldr (fun e n => chunk_count e - as_u32 (default 0 (done !! id e)) + n)%N 0%N
    (filter (fun e => is_regular_file (kind e) = true) entries).

Definition clamp (x lo hi : N) : N := N.min (N.max x lo) hi.

Definition expected_worker_connections (begin : BeginFrame) (entries : list ManifestEntry)
  (resume_plan : list ResumeFilePlan) : N :=
  if (pending_chunks entries resume_plan =? 0)%N then 0%N
  else clamp (requested_parallel begin) 1 MAX_PARALLEL.

(** [available] is [available_parallelism], cast to [u16]. *)
Definition default_parallel_hint (available : option N) : N :=
  clamp (match available with Some n => n mod 2 ^ 16 | None => 4 end)%N 4 MAX_PARALLEL.

Definition resolve_parallel (available : option N) (requested : N) : N :=
  if (requested =? 0)%N then default_parallel_hint available else clamp requested 1 MAX_PARALLEL.

Definition resolve_carriers (requested parallel_hint : N) : N :=
  if (requested =? 0)%N then clamp parallel_hint 1 AUTO_CARRIER_CAP else requested.

(** ** The summary *)

Context `{Json TransferRecord} `{Blake3}.

(** The hasher is fed piece by piece; it hashes their concatenation. *)
Definition update_transfer_hash (hasher : bytes) (entry : ManifestEntry)
  (content_hash : option string) : ares bytes :=
  let record := {| record_rel_path := rel_path entry; record_kind := kind entry;
    record_size := size entry; record_symlink_target := symlink_target entry;
    record_device := device entry; content_hash := content_hash |} in
  rbind (map_err AnyJson (to_vec record)) (fun payload =>
  Ok (hasher ++ to_le_bytes (as_u32 (nlen payload)) ++ payload)).

Definition count_entry (entry : ManifestEntry) (c : TransferSummary) : TransferSummary :=
  let '(f, d, s, v, b) := match kind entry with
    | RegularFile => (1, 0, 0, 0, default 0 (size entry))
    | Directory => (0, 1, 0, 0, 0)
    | Symlink => (0, 0, 1, 0, 0)
    | CharDevice | BlockDevice => (0, 0, 0, 1, 0)
    end%N in
  {| regular_files := add_u64 (regular_files c) f; directories := add_u64 (directories c) d;
     symlinks := add_u64 (symlinks c) s; devices := add_u64 (devices c) v;
     total_bytes := add_u64 (total_bytes c) b; transfer_hash := transfer_hash c |}.

Fixpoint summarize (c : TransferSummary) (hasher : bytes) (entries : list ManifestEntry) :
  ares TransferSummary :=
  match entries with
  | [] => Ok {| regular_files := regular_files c; directories := directories c;
                symlinks := symlinks c; devices := devices c; total_bytes := total_bytes c;
                transfer_hash := blake3_hash_hex hasher |}
  | entry :: entries' =>
      rbind (update_transfer_hash hasher entry (full_hash entry)) (fun hasher' =>
      summarize (count_entry entry c) hasher' entries')
  end.

Definition summary_from_materialized_entries (entries : list ManifestEntry) :
  ares TransferSummary :=
  summarize {| regular_files := 0; directories := 0; symlinks := 0; devices := 0;
               total_bytes := 0; transfer_hash := "" |} [] entries.
End Planning.

(** ** The destination's name *)

Inductive exists_op : Type := TryExists (path : string).

Definition exists_sig : sig := Sig exists_op (fun _ => result io_error bool).

Definition try_exists (path : string) : prog exists_sig (ares bool) :=
  let! r := trigger (S := exists_sig) (TryExists path) in Ret (map_err AnyIo r).

(** [for idx in 1..10_000]: [left] candidates from [idx]. *)
Fixpoint find_free (left : nat) (idx : N) (dest_root requested : string) :
  prog exists_sig (ares string) :=
  match left with
  | O => Ret (Err (AnyMsg "unable to find a free renamed destination"))
  | S left' =>
      let renamed := rename_component requested idx in
      let? taken := try_exists (push dest_root renamed) in
      if negb taken then Ret (Ok renamed) else find_free left' (idx + 1) dest_root requested
  end.

Definition resolve_final_name_local (dest_root requested : string) (collision : CollisionPolicy) :
  prog exists_sig (ares string) :=
  let candidate := push dest_root requested in
  let? taken := try_exists candidate in
  if negb taken then Ret (Ok requested)
  else match collision with
       | Fail_ => Ret (Err (AnyMsg ("destination already exists: " +:+ to_string_lossy candidate +:+
                                    " (use --overwrite or --rename)")))
       | Overwrite => Ret (Ok requested)
       | Rename => find_free 9999 1 dest_root requested
       end.

(** Where a transfer that starts afresh ends up: the sender's root name, resolved
    against what is there; several sources go straight into the root. *)
Definition final_path `{Hex} (dest_root : string) (begin : BeginFrame)
  (collision : CollisionPolicy) : prog exists_sig (ares string) :=
  match root_source begin, multi_source begin with
  | Filesystem, true => Ret (Ok dest_root)
  | _, _ =>
      let? name := resolve_final_name_local dest_root (decode_component (root_name begin)) collision in
      Ret (Ok (push dest_root name))
  end.

(** The data streams the sender opens: [parallel] is the receiver's answer, the
    clamped request. *)
Definition sender_workers (parallel : N) (tasks : list ChunkTask) : N :=
  match tasks with [] => 0%N | _ => clamp parallel 1 MAX_PARALLEL end.

Definition accepted_parallel (begin : BeginFrame) : N :=
  clamp (requested_parallel begin) 1 MAX_PARALLEL.
