(* ===== verification/TransferTheorems.v ===== *)
(** * Theorems about file transfers *)

From stdpp Require Import list gmap.
From S2P Require Import Prelude Streams Json Wire Proto Text Paths Transfer.

(** ** Chunks *)

Lemma elem_upto i n : i ∈ upto n <-> (i < n)%N.
Proof.
  unfold upto. rewrite list_elem_of_fmap. setoid_rewrite elem_of_seq. split.
  - intros (k&->&Hk). lia.
  - intros Hi. exists (N.to_nat i). lia.
Qed.

Lemma upto_succ n : upto (n + 1) = upto n ++ [n].
Proof.
  unfold upto. replace (N.to_nat (n + 1)) with (S (N.to_nat n)) by lia.
  rewrite seq_S, fmap_app. simpl. by rewrite N2Nat.id.
Qed.

Lemma NoDup_upto n : NoDup (upto n).
Proof. apply NoDup_fmap_2; [intros x y; lia|apply NoDup_seq]. Qed.

Lemma length_upto n : length (upto n) = N.to_nat n.
Proof. unfold upto. by rewrite length_fmap, length_seq. Qed.

Definition sum (l : list N) : N := foldr N.add 0%N l.

Lemma sum_app l1 l2 : sum (l1 ++ l2) = (sum l1 + sum l2)%N.
Proof. induction l1 as [|x l1 IH]; simpl; [done|]. unfold sum in *. simpl. lia. Qed.

(** The first [n] chunks hold the first [n] megabytes, or the whole file. *)
Lemma sum_chunks size n : sum (chunk_len size <$> upto n) = N.min size (n * CHUNK_SIZE).
Proof.
  induction n as [|n IH] using N.peano_ind; [by rewrite N.min_r by lia|].
  rewrite <- N.add_1_r, upto_succ, fmap_app, sum_app, IH. simpl.
  unfold sum, chunk_len. simpl. lia.
Qed.

Lemma chunk_len_bound size i : (chunk_len size i <= CHUNK_SIZE)%N.
Proof. unfold chunk_len. lia. Qed.

Lemma chunk_len_u32 size i : as_u32 (chunk_len size i) = chunk_len size i.
Proof.
  unfold as_u32. apply N.mod_small. pose proof (chunk_len_bound size i).
  unfold CHUNK_SIZE in *. lia.
Qed.

Lemma chunk_count_exact size :
  (size <= u32_max * CHUNK_SIZE)%N ->
  let n := chunk_count_for size in
  (size <= n * CHUNK_SIZE)%N /\ (n * CHUNK_SIZE < size + CHUNK_SIZE)%N.
Proof.
  intros Hs. cbv zeta. unfold chunk_count_for, CHUNK_SIZE, u32_max in *.
  destruct (N.eqb_spec size 0) as [->|Hne]; [lia|].
  change (1024 * 1024)%N with 1048576%N in *. unfold as_u32.
  pose proof (N.div_mod (size + 1048576 - 1) 1048576 ltac:(lia)) as Hd.
  pose proof (N.mod_lt (size + 1048576 - 1) 1048576 ltac:(lia)) as Hm.
  assert (Hq : ((size + 1048576 - 1) / 1048576 < 2 ^ 32)%N).
  { apply N.Div0.div_lt_upper_bound. simpl in *. lia. }
  rewrite N.mod_small by exact Hq. clear Hs Hq. revert Hd Hm.
  generalize ((size + 1048576 - 1) / 1048576)%N ((size + 1048576 - 1) mod 1048576)%N.
  intros q r. lia.
Qed.

(** Chunks tile the file.  A file of up to 4 PiB is cut into chunks of one to
    [CHUNK_SIZE] bytes that add up to its size, and each of its bytes lies in
    exactly one of them. *)
Theorem chunks_tile_the_file size :
  (size <= u32_max * CHUNK_SIZE)%N ->
  let n := chunk_count_for size in
  sum (chunk_len size <$> upto n) = size /\
  (forall i, (i < n)%N -> (1 <= chunk_len size i <= CHUNK_SIZE)%N) /\
  (forall b, (b < size)%N ->
    exists! i, (i < n)%N /\ (i * CHUNK_SIZE <= b < i * CHUNK_SIZE + chunk_len size i)%N).
Proof.
  intros Hs n. destruct (chunk_count_exact size Hs) as [H1 H2]. fold n in H1, H2. split_and!.
  - rewrite sum_chunks. lia.
  - intros i Hi. unfold chunk_len. assert (n * CHUNK_SIZE >= (i + 1) * CHUNK_SIZE)%N by nia.
    unfold CHUNK_SIZE in *. lia.
  - intros b Hb. exists (b / CHUNK_SIZE)%N. unfold chunk_len.
    pose proof (N.div_mod b CHUNK_SIZE ltac:(done)) as Hd.
    pose proof (N.mod_lt b CHUNK_SIZE ltac:(done)) as Hm.
    assert (Hu : forall j, (j * CHUNK_SIZE <= b < j * CHUNK_SIZE + CHUNK_SIZE)%N -> (b / CHUNK_SIZE)%N = j).
    { intros j Hj. symmetry. apply (N.div_unique b CHUNK_SIZE j (b - j * CHUNK_SIZE)); lia. }
    revert Hd Hm Hu. generalize (b / CHUNK_SIZE)%N (b mod CHUNK_SIZE)%N.
    clearbody n. revert H1 H2. change CHUNK_SIZE with 1048576%N. intros H1 H2 q r Hd Hm Hu.
    split; [lia|]. intros j Hj. apply Hu. lia.
Qed.

Lemma chunks_tile_the_file_witness :
  let n := chunk_count_for 2500000 in
  sum (chunk_len 2500000 <$> upto n) = 2500000%N /\
  (forall i, (i < n)%N -> (1 <= chunk_len 2500000 i <= CHUNK_SIZE)%N) /\
  (forall b, (b < 2500000)%N ->
    exists! i, (i < n)%N /\ (i * CHUNK_SIZE <= b < i * CHUNK_SIZE + chunk_len 2500000 i)%N).
Proof. apply (chunks_tile_the_file 2500000). unfold u32_max, CHUNK_SIZE. lia. Defined.

(** Beyond, the [u32] cast of the count wraps. *)
Example count_wraps : chunk_count_for (2 ^ 32 * CHUNK_SIZE) = 0%N.
Proof. vm_compute. done. Qed.

Section Geometry.
Context `{Hex}.

(** Chunk geometry.  A chunk is accepted exactly when it is the one the
    manifest announces at that index: at its place in the file and of its
    length.  So a peer never makes the receiver allocate more than [CHUNK_SIZE]
    bytes for a chunk, nor write past the end of the file. *)
Theorem geometry_accepts_only_the_tile entry i off len :
  (validate_chunk_geometry entry i off len = Ok tt <->
   exists s, size entry = Some s /\ (i < chunk_count entry)%N /\
     off = (i * CHUNK_SIZE)%N /\ len = chunk_len s i) /\
  (validate_chunk_geometry entry i off len = Ok tt ->
   (len <= CHUNK_SIZE)%N /\ (len = 0%N \/ (off + len <= default 0 (size entry))%N)).
Proof.
  assert (Hiff : validate_chunk_geometry entry i off len = Ok tt <->
    exists s, size entry = Some s /\ (i < chunk_count entry)%N /\
      off = (i * CHUNK_SIZE)%N /\ len = chunk_len s i).
  { unfold validate_chunk_geometry, anyhow_context. destruct (size entry) as [s|]; simpl;
      [|split; [done|by intros (?&?&_)]].
    destruct (N.leb_spec (chunk_count entry) i); [split; [done|]; intros (?&?&?&_); lia|].
    destruct (N.eqb_spec off (i * CHUNK_SIZE)), (N.eqb_spec len (chunk_len s i)); simpl;
      (split; [|intros (s'&[= <-]&_&?&?)]); try done; intros _; by exists s. }
  split; [exact Hiff|]. intros (s&->&Hi&->&->)%Hiff. simpl.
  split; [apply chunk_len_bound|]. unfold chunk_len. lia.
Qed.
End Geometry.

(** ** Resuming *)

Section CollectMap.
Context {A B : Type} (key : A -> N) (f : A -> B).

Lemma collect_from (m : gmap N B) l k :
  (forall x, x ∈ l -> key x <> k) ->
  foldl (fun m x => <[key x := f x]> m) m l !! k = m !! k.
Proof.
  revert m; induction l as [|y l IH]; intros m Hl; simpl; [done|].
  rewrite IH by set_solver. apply lookup_insert_ne. set_solver.
Qed.

Lemma collect_map_in l x :
  NoDup (key <$> l) -> x ∈ l -> collect_map key f l !! key x = Some (f x).
Proof.
  unfold collect_map. generalize (∅ : gmap N B). induction l as [|y l IH]; intros m Hn Hx; [by apply elem_of_nil in Hx|].
  simpl. apply NoDup_cons in Hn as [Hy Hn].
  destruct (decide (key y = key x)) as [E|Hne].
  - assert (y = x) as ->.
    { apply elem_of_cons in Hx as [->|Hx]; [done|]. destruct Hy. rewrite E. by apply list_elem_of_fmap_2. }
    rewrite collect_from; [apply lookup_insert_eq|].
    intros z Hz Ez. apply Hy. rewrite <- Ez. by apply list_elem_of_fmap_2.
  - apply IH; [done|]. set_solver.
Qed.

Lemma collect_map_inv l k v :
  collect_map key f l !! k = Some v -> exists x, x ∈ l /\ key x = k /\ f x = v.
Proof.
  unfold collect_map. assert (Hg : forall m : gmap N B, foldl (fun m x => <[key x := f x]> m) m l !! k = Some v ->
    m !! k = Some v \/ exists x, x ∈ l /\ key x = k /\ f x = v).
  { induction l as [|y l IH]; intros m Hm; simpl in Hm; [by left|].
    destruct (IH _ Hm) as [Hy|(x&Hx&?)]; [|right; exists x; set_solver].
    destruct (decide (key y = k)) as [<-|Hne].
    - rewrite lookup_insert_eq in Hy. injection Hy as <-. right. exists y. set_solver.
    - rewrite lookup_insert_ne in Hy by done. by left. }
  intros Hm. by destruct (Hg ∅ Hm).
Qed.
End CollectMap.

Lemma done_chunks_spec size i done b :
  let l := (done_chunks size i done b).2 in
  NoDup l /\ forall j, j ∈ l <-> exists k : nat, done !! k = Some true /\ j = (i + N.of_nat k)%N.
Proof.
  revert i b; induction done as [|d done IH]; intros i b; simpl.
  - split; [constructor|]. intros j. rewrite elem_of_nil. by split; [done|intros (k&?&_)].
  - assert (Hs : forall j, (exists k : nat, (d :: done) !! k = Some true /\ j = (i + N.of_nat k)%N) <->
      (d = true /\ j = i) \/ exists k : nat, done !! k = Some true /\ j = (i + 1 + N.of_nat k)%N).
    { intros j. split.
      - intros ([|k]&Hk&->); simpl in Hk; [left; split; [congruence|lia]|].
        right. exists k. split; [done|lia].
      - intros [[-> ->]|(k&Hk&->)]; [exists 0; split; [done|lia]|].
        exists (S k). split; [done|lia]. }
    destruct d.
    + destruct (done_chunks size (i + 1) done (add_u64 b (chunk_len size i))) as [b' l] eqn:E.
      destruct (IH (i + 1)%N (add_u64 b (chunk_len size i))) as [Hn Hl]. rewrite E in Hn, Hl.
      simpl in *. split.
      * constructor; [|done]. rewrite Hl. intros (k&_&?). lia.
      * intros j. rewrite elem_of_cons, Hl, Hs. naive_solver.
    + destruct (IH (i + 1)%N b) as [Hn Hl]. split; [done|]. intros j.
      rewrite Hl, Hs. naive_solver.
Qed.

(** What a resume plan says of a resumable state. *)
Definition planned (by_id : gmap N ManifestEntry) (f : FileResumeState) (p : ResumeFilePlan) : Prop :=
  plan_entry_id p = file_entry_id f /\
  (exists e, by_id !! file_entry_id f = Some e /\ nlen (completed f) = chunk_count e) /\
  NoDup (completed_chunks p) /\
  forall j, j ∈ completed_chunks p <-> completed f !! N.to_nat j = Some true.

Lemma resume_files_planned by_id fs b total plans :
  resume_files by_id fs b = Ok (total, plans) -> Forall2 (planned by_id) fs plans.
Proof.
  revert b plans; induction fs as [|f fs IH]; intros b plans; simpl.
  { intros [= _ <-]. constructor. }
  unfold anyhow_context. destruct (by_id !! file_entry_id f) as [e|] eqn:Ee; [|done]. simpl.
  destruct (N.eqb_spec (nlen (completed f)) (chunk_count e)) as [El|]; [|done]. simpl.
  destruct (done_chunks (default 0%N (size e)) 0 (completed f) b) as [b' l] eqn:Ed.
  destruct (resume_files by_id fs b') as [[t ps]|?|] eqn:Er; [|done..].
  intros [= -> <-]. constructor; [|by eapply IH].
  destruct (done_chunks_spec (default 0%N (size e)) 0 (completed f) b) as [Hn Hl].
  rewrite Ed in Hn, Hl. simpl in Hn, Hl. unfold planned. simpl.
  split; [done|]. split; [by exists e|]. split; [done|]. intros j. rewrite Hl. split.
  - intros (k&Hk&->). by replace (N.to_nat (0 + N.of_nat k)) with k by lia.
  - intros Hj. exists (N.to_nat j). split; [done|lia].
Qed.

Lemma planned_ids by_id fs plans :
  Forall2 (planned by_id) fs plans -> plan_entry_id <$> plans = file_entry_id <$> fs.
Proof. induction 1 as [|f p fs ps [E _] _ IH]; csimpl; [done|]. by rewrite E, IH. Qed.

Section Tasks.

Definition regular (e : PlannedEntry) : Prop := is_regular_file (kind (manifest e)) = true.

#[local] Instance regular_decision e : Decision (regular e).
Proof. unfold regular. apply _. Defined.

(** The indices of an entry's chunks that are not done. *)
Definition missing (done : gmap N (list N)) (e : PlannedEntry) : list N :=
  filter (.∉ default [] (done !! id (manifest e))) (upto (chunk_count (manifest e))).

Lemma entry_tasks_eq e path done indices :
  source_path e = Some path ->
  entry_tasks e done indices = Ok (chunk_task e path <$> filter (.∉ done) indices).
Proof.
  intros Ep. induction indices as [|i ix IH]; [done|]. cbn [entry_tasks].
  rewrite filter_cons. destruct (bool_decide_reflect (i ∈ done)) as [Hi|Hi].
  - rewrite decide_False by (by intros ?). exact IH.
  - rewrite decide_True by done. unfold anyhow_context. by rewrite Ep, IH.
Qed.

Lemma tasks_of_eq done es :
  Forall (fun e => regular e -> is_Some (source_path e)) es ->
  tasks_of done es =
    Ok (concat ((fun e => chunk_task e (default "" (source_path e)) <$> missing done e)
                  <$> filter regular es)).
Proof.
  induction 1 as [|e es He _ IH]; [done|]. cbn [tasks_of]. rewrite filter_cons.
  case_decide as Hr.
  - destruct (He Hr) as [path Ep]. unfold regular in Hr. rewrite Hr. cbn [negb].
    rewrite (entry_tasks_eq e path) by done. rewrite IH. csimpl. by rewrite Ep.
  - unfold regular in Hr. apply not_true_is_false in Hr. by rewrite Hr.
Qed.

Lemma pending_none es plan :
  pending_chunks es plan = 0%N <->
  forall e, e ∈ es -> is_regular_file (kind e) = true ->
    (chunk_count e <= as_u32 (default 0 (collect_map plan_entry_id
      (fun p => nlen (completed_chunks p)) plan !! id e)))%N.
Proof.
  unfold pending_chunks. set (m := collect_map _ _ _).
  induction es as [|e es IH]; [split; [intros _ e He; by apply elem_of_nil in He|done]|].
  rewrite filter_cons. destruct (decide (is_regular_file (kind e) = true)) as [Hr|Hr].
  - simpl. split.
    + intros E e' [->|He']%elem_of_cons Hr'; [lia|]. apply (proj1 IH); [lia|done|done].
    + intros Hall. assert (H1 := Hall e ltac:(set_solver) Hr).
      rewrite (proj2 IH); [lia|]. intros e' He'. apply Hall. set_solver.
  - rewrite IH. split; intros Hall e' He' Hr'; [|apply Hall; [set_solver|done]].
    apply elem_of_cons in He' as [->|He']; [done|auto].
Qed.
End Tasks.

Lemma collect_map_compose {A B C} (key : A -> N) (f : A -> B) (g : B -> C) l :
  collect_map key (fun x => g (f x)) l = g <$> collect_map key f l.
Proof.
  unfold collect_map. rewrite <- (fmap_empty (M := gmap N) g). generalize (∅ : gmap N B).
  induction l as [|x l IH]; intros m; simpl; [done|]. by rewrite <- fmap_insert, IH.
Qed.

(** A list without repetitions of numbers below [n] is as long as [n] when it
    holds them all. *)
Lemma covers_upto n d :
  NoDup d -> (forall j, j ∈ d -> (j < n)%N) ->
  (n <= nlen d)%N <-> (forall i, (i < n)%N -> i ∈ d).
Proof.
  intros Hd Hlt. unfold nlen. split.
  - intros Hn i Hi. assert (Hs : d ⊆+ upto n).
    { apply NoDup_submseteq; [done|]. intros j Hj. by apply elem_upto, Hlt. }
    apply submseteq_length_Permutation in Hs; [|rewrite length_upto; lia].
    rewrite Hs. by apply elem_upto.
  - intros Hall. assert (Hs : upto n ⊆+ d).
    { apply NoDup_submseteq; [apply NoDup_upto|]. intros j Hj%elem_upto. auto. }
    apply submseteq_length in Hs. rewrite length_upto in Hs. lia.
Qed.

(** The state records a chunk as received. *)
Definition done_in (state : ResumeState) (entry i : N) : Prop :=
  exists f, f ∈ files state /\ file_entry_id f = entry /\ completed f !! N.to_nat i = Some true.

Section Resume.
Context `{Hex} (es : list PlannedEntry) (state : ResumeState) (plan : list ResumeFilePlan).
Context (Hids : NoDup ((fun e => id (manifest e)) <$> es)).
Context (Hfiles : NoDup (file_entry_id <$> files state)).
Context (Hpaths : Forall (fun e => regular e -> is_Some (source_path e)) es).
Context (Hcounts : Forall (fun e => (chunk_count (manifest e) <= u32_max)%N) es).
Context (Hplan : Forall2 (planned (collect_map id (fun e => e) (manifest <$> es))) (files state) plan).

Abbreviation done := (collect_map plan_entry_id completed_chunks plan).

Lemma plan_ids : plan_entry_id <$> plan = file_entry_id <$> files state.
Proof. exact (planned_ids _ _ _ Hplan). Qed.

Lemma done_lookup entry i : i ∈ default [] (done !! entry) <-> done_in state entry i.
Proof.
  split.
  - destruct (done !! entry) as [l|] eqn:El; [|by intros ?%elem_of_nil]. simpl. intros Hi.
    apply collect_map_inv in El as (p&Hp&<-&<-).
    destruct (Forall2_in_r _ _ _ _ Hplan Hp) as (f&Hf&Eid&_&_&Hc).
    exists f. split_and!; [done..|]. by apply Hc.
  - intros (f&Hf&<-&Hi). destruct (Forall2_in_l _ _ _ _ Hplan Hf) as (p&Hp&Eid&_&_&Hc).
    rewrite <- Eid, (collect_map_in plan_entry_id completed_chunks plan p);
      [by apply Hc|by rewrite plan_ids|done].
Qed.

Lemma done_bounded e : e ∈ es ->
  let d := default [] (done !! id (manifest e)) in
  NoDup d /\ forall j, j ∈ d -> (j < chunk_count (manifest e))%N.
Proof.
  intros He. destruct (done !! id (manifest e)) as [l|] eqn:El; simpl;
    [|split; [constructor|by intros j ?%elem_of_nil]].
  apply collect_map_inv in El as (p&Hp&Eid&<-).
  destruct (Forall2_in_r _ _ _ _ Hplan Hp) as (f&Hf&Eid'&(m&Em&El)&Hn&Hc).
  split; [done|]. intros j Hj%Hc%lookup_lt_Some.
  assert (m = manifest e) as ->.
  { rewrite <- Eid', Eid, (collect_map_in id (fun e => e) _ (manifest e)) in Em; [by injection Em| |].
    - by rewrite <- list_fmap_compose.
    - by apply list_elem_of_fmap_2. }
  unfold nlen in El. lia.
Qed.

Definition all_tasks : list ChunkTask :=
  concat ((fun e => chunk_task e (default "" (source_path e)) <$> missing done e) <$> filter regular es).

Lemma elem_all_tasks t :
  t ∈ all_tasks <->
  exists e path i, e ∈ es /\ regular e /\ source_path e = Some path /\
    (i < chunk_count (manifest e))%N /\ ~ done_in state (id (manifest e)) i /\ t = chunk_task e path i.
Proof.
  unfold all_tasks. rewrite elem_of_concat. setoid_rewrite list_elem_of_fmap.
  setoid_rewrite list_elem_of_filter. split.
  - intros (l&Ht&e&->&Hr&He). apply list_elem_of_fmap in Ht as (i&->&Hi).
    apply list_elem_of_filter in Hi as [Hd Hi%elem_upto].
    destruct (proj1 (Forall_forall _ _) Hpaths e He Hr) as [path Ep].
    exists e, path, i. rewrite Ep. split_and!; try done. by rewrite <- done_lookup.
  - intros (e&path&i&He&Hr&Ep&Hi&Hd&->). eexists. split; [|by exists e].
    apply list_elem_of_fmap. exists i. rewrite Ep. split; [done|].
    apply list_elem_of_filter. rewrite done_lookup. split; [done|by apply elem_upto].
Qed.

Lemma NoDup_all_tasks : NoDup all_tasks.
Proof.
  unfold all_tasks. generalize done as dn. intros dn. clear Hpaths Hcounts Hplan.
  induction es as [|e l IH]; [constructor|]. csimpl in Hids. apply NoDup_cons in Hids as [He Hl].
  rewrite filter_cons. destruct (decide (regular e)) as [Hr|]; [|by apply IH]. csimpl.
  apply NoDup_app. split_and!; [| |by apply IH].
  - apply NoDup_fmap_2; [intros i j E; by injection E|]. apply NoDup_filter, NoDup_upto.
  - intros t Ht Ht'. apply He. apply list_elem_of_fmap in Ht as (i&->&_).
    apply elem_of_concat in Ht' as (x&Hx&Hin).
    apply list_elem_of_fmap in Hin as (e'&->&Hin). apply list_elem_of_filter in Hin as [_ Hin].
    apply list_elem_of_fmap in Hx as (j&E&_). apply list_elem_of_fmap.
    exists e'. split; [|done]. by injection E.
Qed.

Lemma no_tasks_no_pending : all_tasks = [] <-> pending_chunks (manifest <$> es) plan = 0%N.
Proof.
  rewrite pending_none. rewrite (collect_map_compose plan_entry_id completed_chunks nlen).
  assert (Hcov : forall e, e ∈ es ->
    ((chunk_count (manifest e) <=
       as_u32 (default 0 ((nlen <$> done) !! id (manifest e))))%N <->
     forall i, (i < chunk_count (manifest e))%N -> done_in state (id (manifest e)) i)).
  { intros e He. destruct (done_bounded e He) as [Hn Hb].
    rewrite lookup_fmap. replace (default 0%N (nlen <$> done !! id (manifest e)))
      with (nlen (default [] (done !! id (manifest e)))) by (by destruct (done !! _)).
    pose proof (covers_upto _ _ Hn Hb) as Hc. setoid_rewrite done_lookup in Hc.
    rewrite <- Hc. unfold as_u32. rewrite N.mod_small; [done|].
    assert (default [] (done !! id (manifest e)) ⊆+ upto (chunk_count (manifest e))) as Hs.
    { apply NoDup_submseteq; [done|]. intros j Hj. by apply elem_upto, Hb. }
    apply submseteq_length in Hs. rewrite length_upto in Hs.
    pose proof (proj1 (Forall_forall _ _) Hcounts e He) as Hu. simpl in Hu. unfold u32_max, nlen in *. lia. }
  split.
  - intros Hnil m (e&->&He)%list_elem_of_fmap Hr. apply (Hcov e He). intros i Hi.
    destruct (decide (i ∈ default [] (done !! id (manifest e)))) as [Hd|Hd]; [by apply done_lookup|].
    rewrite done_lookup in Hd.
    destruct (proj1 (Forall_forall _ _) Hpaths e He Hr) as [path Ep].
    assert (chunk_task e path i ∈ all_tasks) as Ht by (apply elem_all_tasks; by exists e, path, i).
    rewrite Hnil in Ht. by apply elem_of_nil in Ht.
  - intros Hall. destruct all_tasks as [|t ts] eqn:Et; [done|]. exfalso.
    assert (t ∈ all_tasks) as Ht by (rewrite Et; apply list_elem_of_here).
    apply elem_all_tasks in Ht as (e&path&i&He&Hr&_&Hi&Hd&_). apply Hd.
    apply (Hcov e He); [|done]. apply Hall; [by apply list_elem_of_fmap_2|done].
Qed.
End Resume.

(** C34: resuming sends exactly what is missing.  From a resume plan the receiver
    built, the sender makes one task for each chunk of a regular file that the
    receiver's state does not record, and no other, each once; the receiver's
    geometry check accepts every one of them; and the sender opens exactly as
    many data streams as the receiver waits for. *)
Theorem resume_sends_exactly_what_is_missing `{Hex} begin es state bytes plan :
  NoDup ((fun e => id (manifest e)) <$> es) ->
  NoDup (file_entry_id <$> files state) ->
  Forall (fun e => regular e -> is_Some (source_path e)) es ->
  Forall (fun e => (chunk_count (manifest e) <= u32_max)%N) es ->
  build_resume_plan (manifest <$> es) state = Ok (bytes, plan) ->
  exists tasks, build_chunk_tasks es plan = Ok tasks /\
    (forall t, t ∈ tasks <->
      exists e path i, e ∈ es /\ regular e /\ source_path e = Some path /\
        (i < chunk_count (manifest e))%N /\ ~ done_in state (id (manifest e)) i /\
        t = chunk_task e path i) /\
    NoDup tasks /\
    (forall t, t ∈ tasks -> exists e, e ∈ es /\ task_entry_id t = id (manifest e) /\
      (is_Some (size (manifest e)) ->
       validate_chunk_geometry (manifest e) (task_chunk_index t) (task_offset t) (task_len t) = Ok tt)) /\
    sender_workers (accepted_parallel begin) tasks =
      expected_worker_connections begin (manifest <$> es) plan.
Proof.
  intros Hids Hfiles Hpaths Hcounts Hplan%resume_files_planned.
  exists (all_tasks es plan). split; [by apply tasks_of_eq|].
  pose proof (elem_all_tasks es state plan Hfiles Hpaths Hplan) as Hel.
  split; [exact Hel|]. split; [by eapply NoDup_all_tasks|]. split.
  - intros t (e&path&i&He&_&_&Hi&_&->)%Hel. exists e. split_and!; [done..|].
    intros [s Es]. unfold validate_chunk_geometry, chunk_task. simpl. rewrite Es. simpl.
    rewrite chunk_len_u32. destruct (N.leb_spec (chunk_count (manifest e)) i); [lia|].
    by rewrite !N.eqb_refl.
  - pose proof (no_tasks_no_pending es state plan Hids Hfiles Hpaths Hcounts Hplan) as Hn.
    unfold sender_workers, expected_worker_connections, accepted_parallel.
    destruct (N.eqb_spec (pending_chunks (manifest <$> es) plan) 0) as [E|E].
    + by rewrite (proj2 Hn E).
    + destruct (all_tasks es plan); [by destruct E; apply Hn|].
      unfold clamp, MAX_PARALLEL. lia.
Qed.

(** A file of two and a half chunks whose middle one was received. *)
Definition demo_entry : ManifestEntry := {|
  id := 1; rel_path := ""; kind := RegularFile; size := Some 2500000%N; full_hash := Some "";
  chunk_count := 3; symlink_target := None; device := None; mode := None;
|}.

Definition demo_planned : PlannedEntry := {| manifest := demo_entry; source_path := Some "a.bin" |}.

Definition demo_state : ResumeState := {|
  state_protocol_version := PROTOCOL_VERSION; state_transfer_id := "t"; state_manifest_hash := "";
  final_name := "u:61"; files := [{| file_entry_id := 1; completed := [false; true; false] |}];
|}.

Definition demo_begin (name : string) : BeginFrame := {|
  protocol_version := PROTOCOL_VERSION; transfer_id := "t"; root_name := name;
  root_source := Filesystem; total_entries := 1; begin_total_bytes := None;
  transport_mode := {| direct_udp := false; relay_tls := true |};
  requested_parallel := 4; multi_source := false;
|}.

Lemma resume_sends_exactly_what_is_missing_witness :
  exists tasks,
    build_chunk_tasks [demo_planned] [{| plan_entry_id := 1; completed_chunks := [1%N] |}] = Ok tasks /\
    (forall t, t ∈ tasks <->
      exists e path i, e ∈ [demo_planned] /\ regular e /\ source_path e = Some path /\
        (i < chunk_count (manifest e))%N /\ ~ done_in demo_state (id (manifest e)) i /\
        t = chunk_task e path i) /\
    NoDup tasks /\
    (forall t, t ∈ tasks -> exists e, e ∈ [demo_planned] /\ task_entry_id t = id (manifest e) /\
      (is_Some (size (manifest e)) ->
       validate_chunk_geometry (manifest e) (task_chunk_index t) (task_offset t) (task_len t) = Ok tt)) /\
    sender_workers (accepted_parallel (demo_begin "")) tasks =
      expected_worker_connections (demo_begin "") [demo_entry]
        [{| plan_entry_id := 1; completed_chunks := [1%N] |}].
Proof.
  apply (resume_sends_exactly_what_is_missing (demo_begin "") [demo_planned] demo_state 1048576).
  - by repeat constructor; intros ?%elem_of_nil.
  - by repeat constructor; intros ?%elem_of_nil.
  - repeat constructor. by exists "a.bin".
  - repeat constructor. unfold u32_max. simpl. lia.
  - vm_compute. reflexivity.
Defined.

(** ** Manifests *)

Section Manifests.
Context `{Hex}.

(** An entry's path, when its encoding is good and made of names only. *)
Definition entry_path (e : ManifestEntry) (p : list component) : Prop :=
  exists path, decode_relative_path (rel_path e) = Ok path /\
    components path = p /\ forallb is_normal p = true.

Definition strictly_below (p q : list component) : Prop := exists r, r <> [] /\ p = q ++ r.

(** What a regular file of a manifest must say. *)
Definition regular_ok (begin : BeginFrame) (e : ManifestEntry) : Prop :=
  is_regular_file (kind e) = true ->
  match root_source begin with
  | Filesystem => exists s h, size e = Some s /\ full_hash e = Some h /\ chunk_count e = chunk_count_for s
  | Stdin => rel_path e = "" /\ size e = None
  end.

(** A well-formed manifest. *)
Record manifest_ok (begin : BeginFrame) (es : list ManifestEntry) : Prop := {
  ok_root : exists root rest, es = root :: rest /\ rel_path root = "";
  ok_ids : NoDup (id <$> es);
  ok_paths : exists ps, Forall2 entry_path es ps /\ NoDup ps /\
    forall i j e q p, es !! i = Some e -> ps !! i = Some q -> ps !! j = Some p -> i < j ->
      strictly_below p q -> is_directory (kind e) = true;
  ok_regular : Forall (regular_ok begin) es;
}.

Lemma check_regular_ok begin e : check_regular begin e = Ok tt <-> regular_ok begin e.
Proof.
  unfold check_regular, regular_ok. destruct (is_regular_file (kind e)); simpl; [|done].
  destruct (root_source begin).
  - destruct (size e) as [s|], (full_hash e) as [h|]; simpl;
      try (split; [done|intros Hx; by destruct (Hx eq_refl) as (?&?&?&?&?)]).
    destruct (N.eqb_spec (chunk_count e) (chunk_count_for s)) as [E|E]; simpl.
    + split; [|done]. intros _ _. by exists s, h.
    + split; [done|]. intros Hx. destruct (Hx eq_refl) as (?&?&[= <-]&_&?). done.
  - destruct (String.eqb_spec (rel_path e) "") as [E|E]; simpl.
    + destruct (size e); simpl.
      * split; [done|]. intros Hx. by destruct (Hx eq_refl).
      * done.
    + split; [done|]. intros Hx. by destruct (Hx eq_refl).
Qed.

(** The ancestors of a path of names are its strict prefixes. *)
Lemma ancestors_prefixes n p q :
  length p <= n -> forallb is_normal p = true -> q ∈ ancestors n p <-> strictly_below p q.
Proof.
  revert p. induction n as [|n IH]; intros p Hn Hp.
  - destruct p; [|simpl in Hn; lia]. simpl. rewrite elem_of_nil. split; [done|].
    intros (r&Hr&E). by destruct q, r.
  - destruct p as [|c p _] using rev_ind.
    { simpl. rewrite elem_of_nil. split; [done|]. intros (r&Hr&E). by destruct q, r. }
    rewrite forallb_app in Hp. apply andb_true_iff in Hp as [Hp Hc]. simpl in Hc.
    assert (Epar : parent (p ++ [c]) = Some p).
    { unfold parent. rewrite last_snoc, removelast_last. by destruct c. }
    cbn [ancestors]. rewrite Epar, elem_of_cons, IH; [|rewrite length_app in Hn; simpl in Hn; lia|done].
    unfold strictly_below. split.
    + intros [->|(r&Hr&->)]; [by exists [c]|]. exists (r ++ [c]).
      rewrite <- app_assoc. split; [by destruct r|done].
    + intros (r&Hr&E). destruct r as [|x r _] using rev_ind; [done|].
      rewrite app_assoc in E. apply app_inj_tail in E as [-> ->].
      destruct r as [|y r]; [left; by rewrite app_nil_r|]. right. by exists (y :: r).
Qed.

Lemma descends_through_iff m p :
  forallb is_normal p = true ->
  descends_through m p = true <->
  exists q k, strictly_below p q /\ m !! q = Some k /\ is_directory k = false.
Proof.
  intros Hp. unfold descends_through. rewrite existsb_exists. split.
  - intros (q&Hq&Hk). apply list_elem_of_In in Hq. rewrite ancestors_prefixes in Hq by done.
    destruct (m !! q) as [k|] eqn:E; [|done]. exists q, k. split_and!; [done..|].
    by apply negb_true_iff.
  - intros (q&k&Hq&E&Hk). exists q. rewrite <- list_elem_of_In, ancestors_prefixes by done.
    split; [done|]. by rewrite E, Hk.
Qed.

Lemma strictly_below_irrefl p : ~ strictly_below p p.
Proof.
  intros (r&Hr&E). rewrite <- (app_nil_r p) in E at 1. by apply app_inv_head in E.
Qed.

Definition see (s : seen) (e : ManifestEntry) (p : list component) : seen :=
  {| seen_ids := {[id e]} ∪ seen_ids s; seen_paths := <[p := kind e]> (seen_paths s) |}.

(** One turn of the loop. *)
Lemma validate_step begin s e es :
  validate_entries begin s (e :: es) = Ok tt <->
  id e ∉ seen_ids s /\ exists p, entry_path e p /\ seen_paths s !! p = None /\
    (forall q k, strictly_below p q -> seen_paths s !! q = Some k -> is_directory k = true) /\
    regular_ok begin e /\ validate_entries begin (see s e p) es = Ok tt.
Proof.
  cbn [validate_entries]. destruct (bool_decide_reflect (id e ∈ seen_ids s)) as [Hi|Hi].
  { split; [done|]. by intros []. }
  destruct (decode_relative_path (rel_path e)) as [path|x|] eqn:Ed; cbn [rbind].
  2,3: split; [done|]; intros (_&p&(path&E&_)&_); congruence.
  unfold validate_relative_path. destruct (forallb is_normal (components path)) eqn:En; cbn [rbind].
  2: { split; [done|]. intros (_&p&(path'&E&<-&En')&_). congruence. }
  set (p := components path).
  assert (Hp : forall p', entry_path e p' -> p' = p).
  { intros p' (path'&E&<-&_). rewrite Ed in E. by injection E as <-. }
  destruct (seen_paths s !! p) as [k|] eqn:Es.
  { split; [done|]. intros (_&p'&Hp'%Hp&Es'&_). congruence. }
  destruct (descends_through (<[p:=kind e]> (seen_paths s)) p) eqn:Edt.
  - split; [done|]. intros (_&p'&Hp'%Hp&_&Hq&_). subst p'.
    apply descends_through_iff in Edt as (q&k&Hb&Ek&Hk); [|done].
    rewrite lookup_insert_ne in Ek by (intros ->; by apply strictly_below_irrefl in Hb).
    specialize (Hq q k Hb Ek). congruence.
  - destruct (check_regular begin e) as [[]|x|] eqn:Ec; cbn [rbind].
    + split.
      * intros Hv. split; [done|]. exists p.
        split_and!; [by exists path|done| |by apply check_regular_ok|exact Hv].
        intros q k Hb Ek. destruct (is_directory k) eqn:Hk; [done|].
        assert (descends_through (<[p:=kind e]> (seen_paths s)) p = true); [|congruence].
        apply descends_through_iff; [done|]. exists q, k. split_and!; [done| |done].
        rewrite lookup_insert_ne; [done|]. intros ->. by apply strictly_below_irrefl in Hb.
      * intros (_&p'&Hp'%Hp&_&_&_&Hv). by subst p'.
    + split; [done|]. intros (_&p'&_&_&_&Hr%check_regular_ok&_). congruence.
    + split; [done|]. intros (_&p'&_&_&_&Hr%check_regular_ok&_). congruence.
Qed.

(** What the loop accepts, given what it has seen. *)
Definition entries_ok (begin : BeginFrame) (s : seen) (es : list ManifestEntry) : Prop :=
  NoDup (id <$> es) /\ Forall (fun e => id e ∉ seen_ids s) es /\
  (exists ps, Forall2 entry_path es ps /\ NoDup ps /\
    Forall (fun p => seen_paths s !! p = None /\
      forall q k, strictly_below p q -> seen_paths s !! q = Some k -> is_directory k = true) ps /\
    forall i j e q p, es !! i = Some e -> ps !! i = Some q -> ps !! j = Some p -> i < j ->
      strictly_below p q -> is_directory (kind e) = true) /\
  Forall (regular_ok begin) es.

Lemma entries_ok_cons begin s e es :
  entries_ok begin s (e :: es) <->
  id e ∉ seen_ids s /\ exists p, entry_path e p /\ seen_paths s !! p = None /\
    (forall q k, strictly_below p q -> seen_paths s !! q = Some k -> is_directory k = true) /\
    regular_ok begin e /\ entries_ok begin (see s e p) es.
Proof.
  unfold entries_ok. csimpl. setoid_rewrite NoDup_cons. setoid_rewrite Forall_cons. split.
  - intros ([Hie Hid]&[Hsi Hsis]&(ps&H2&Hnd&Hseen&Hord)&[Hr Hrs]).
    apply Forall2_cons_inv_l in H2 as (p&ps'&Hp&H2&->).
    apply NoDup_cons in Hnd as [Hpn Hnd]. apply Forall_cons in Hseen as [[Hp0 Hpq] Hseen].
    split; [done|]. exists p. split_and!; [exact Hp|done..|exact Hr|exact Hid| | |exact Hrs].
    + rewrite Forall_forall in Hsis |- *. intros e' He'. simpl.
      apply not_elem_of_union. split; [|by apply Hsis]. apply not_elem_of_singleton.
      intros E. apply Hie. rewrite <- E. by apply list_elem_of_fmap_2.
    + exists ps'. split_and!; [done..| |].
      * rewrite Forall_forall in Hseen |- *. intros x Hx. destruct (Hseen x Hx) as [Hx0 Hxq]. simpl.
        split; [rewrite lookup_insert_ne; [done|]; by intros ->|].
        intros q k Hb Ek. destruct (decide (p = q)) as [->|Hne].
        -- rewrite lookup_insert_eq in Ek. injection Ek as <-.
           apply list_elem_of_lookup in Hx as [j Hj]. by apply (Hord 0 (S j) e q x); [..|lia|].
        -- rewrite lookup_insert_ne in Ek by done. by eapply Hxq.
      * intros i j e' q x He' Hq Hx Hij. apply (Hord (S i) (S j) e' q x); [done..|lia].
  - intros (Hsi&p&Hp&Hp0&Hpq&Hr&Hid&Hsis&(ps&H2&Hnd&Hseen&Hord)&Hrs).
    split_and!; [|done|done| | |done|done].
    + intros (e'&E&He')%list_elem_of_fmap. rewrite Forall_forall in Hsis.
      specialize (Hsis e' He'). simpl in Hsis. set_solver.
    + eapply Forall_impl; [exact Hsis|]. simpl. set_solver.
    + exists (p :: ps). split_and!; [by constructor| | |].
      * constructor; [|done]. intros Hin. rewrite Forall_forall in Hseen.
        destruct (Hseen p Hin) as [Hx _]. simpl in Hx. by rewrite lookup_insert_eq in Hx.
      * constructor; [done|]. eapply Forall_impl; [exact Hseen|]. simpl. intros x [Hx Hxq].
        apply lookup_insert_None in Hx as [Hx Hne]. split; [done|]. intros q k Hb Ek.
        apply (Hxq q k Hb). rewrite lookup_insert_ne; [done|]. intros ->. congruence.
      * intros [|i] [|j] e' q x He' Hq Hx Hij Hb; simpl in *; try lia.
        -- injection He' as <-. injection Hq as <-. rewrite Forall_forall in Hseen.
           destruct (Hseen x (list_elem_of_lookup_2 _ _ _ Hx)) as [_ Hxq].
           apply (Hxq p (kind e) Hb). simpl. apply lookup_insert_eq.
        -- apply (Hord i j e' q x); [done..|lia|done].
Qed.

Lemma validate_entries_ok begin s es :
  validate_entries begin s es = Ok tt <-> entries_ok begin s es.
Proof.
  revert s; induction es as [|e es IH]; intros s.
  - split; [|done]. intros _. split_and!; try constructor. exists []. split_and!; try constructor.
    by intros i j e q p ?.
  - rewrite validate_step, entries_ok_cons. by setoid_rewrite IH.
Qed.

Lemma manifest_accepted begin es : validate_manifest begin es = Ok tt <-> manifest_ok begin es.
Proof.
  unfold validate_manifest. destruct es as [|root rest].
  { split; [done|]. intros [(?&?&?&_) _ _ _]. done. }
  destruct (String.eqb_spec (rel_path root) "") as [Er|Er]; cbn [negb].
  2: { split; [done|]. intros [(?&?&[= <- <-]&?) _ _ _]. done. }
  rewrite validate_entries_ok. unfold entries_ok. split.
  - intros (Hid&_&(ps&H2&Hnd&_&Hord)&Hr). split; [by exists root, rest|done|by exists ps|done].
  - intros [_ Hid (ps&H2&Hnd&Hord) Hr]. split_and!; [done| |exists ps|done].
    + apply Forall_forall. intros e _. simpl. set_solver.
    + split_and!; [done..| |done]. apply Forall_forall. intros p _. simpl. by setoid_rewrite lookup_empty.
Qed.
(** C10: the manifest check decides well-formedness.  A manifest is accepted
    exactly when it is not empty and starts with the root; no two entries share an
    id or, once decoded, a path; every path is made of plain names; no entry lies
    below an earlier one that is not a directory; and regular files carry the
    size, hash and chunk count of their kind of transfer. *)
Theorem validate_manifest_iff begin es : validate_manifest begin es = Ok tt <-> manifest_ok begin es.
Proof. apply manifest_accepted. Qed.
End Manifests.

(** ** Where things are written *)

(** An entry of an accepted manifest is a list of plain names below any root. *)
Lemma manifest_names `{Hex} begin es e :
  validate_manifest begin es = Ok tt -> e ∈ es ->
  exists names, Forall name_ok names /\ forall root, root <> "" ->
    exists path, stage_path root (rel_path e) = Ok path /\
      components path = components root ++ (Normal <$> names).
Proof.
  intros [_ _ (ps&H2&_) _]%manifest_accepted He.
  destruct (Forall2_in_l _ _ _ _ H2 He) as (p&_&path&Ed&<-&Hn).
  destruct (all_normal_parts path Hn) as [Hr Hp].
  unfold stage_path. destruct (String.eqb_spec (rel_path e) "") as [E|E].
  { exists []. split; [constructor|]. intros root _. exists root. by rewrite app_nil_r. }
  rewrite Hp in Hn. destruct (normal_names _ Hn (parts_named path)) as (ns&Ens&Hns).
  exists ns. split; [done|]. intros root Hroot. exists (push root path).
  rewrite Ed. split; [done|]. by rewrite components_push, Ens.
Qed.

(** C40: staging stays inside.  The path at which an entry of an accepted manifest
    is staged is the staging root followed by plain names: no absolute path, no
    parent directory, whatever the names on the wire decode to. *)
Theorem staged_paths_stay_below `{Hex} stage_root begin es :
  stage_root <> "" -> validate_manifest begin es = Ok tt ->
  forall e, e ∈ es -> exists path names, stage_path stage_root (rel_path e) = Ok path /\
    components path = components stage_root ++ (Normal <$> names) /\ Forall name_ok names.
Proof.
  intros Hs Hv e He. destruct (manifest_names begin es e Hv He) as (ns&Hns&Hp).
  destruct (Hp stage_root Hs) as (path&E&Hc). by exists path, ns.
Qed.

Definition demo_manifest : list ManifestEntry :=
  let entry i rel k c := {|
    id := i; rel_path := rel; kind := k; size := if is_regular_file k then Some 5%N else None;
    full_hash := if is_regular_file k then Some "" else None; chunk_count := c;
    symlink_target := None; device := None; mode := None |} in
  [entry 0%N "" Directory 0%N; entry 1%N "u:61" Directory 0%N;
   entry 2%N "u:61/u:622e747874" RegularFile 1%N].

Lemma staged_paths_stay_below_witness :
  exists path names, stage_path "/srv/stage" "u:61/u:622e747874" = Ok path /\
    components path = components "/srv/stage" ++ (Normal <$> names) /\ Forall name_ok names.
Proof.
  apply (staged_paths_stay_below "/srv/stage" (demo_begin "u:78") demo_manifest) with (e :=
    {| id := 2; rel_path := "u:61/u:622e747874"; kind := RegularFile; size := Some 5%N;
       full_hash := Some ""; chunk_count := 1; symlink_target := None; device := None;
       mode := None |}).
  - done.
  - vm_compute. reflexivity.
  - do 2 apply list_elem_of_further. apply list_elem_of_here.
Defined.

(** Nothing exists yet. *)
Definition nothing_there : handler exists_sig unit := fun _ st => (Ok false, st).

(** The root name is not checked.  The name a sender gives to the root of a
    single transfer goes through no validation: any text without a leading slash
    can be one, and the result is committed at that path from the destination
    root, parent directories included, though the manifest is accepted. *)
Theorem root_name_escapes `{HexLaws} dest begin es collision target :
  dest <> "" -> has_root target = false ->
  root_source begin = Filesystem -> multi_source begin = false ->
  validate_manifest begin es = Ok tt ->
  exists name,
    let begin' := {| protocol_version := protocol_version begin; transfer_id := transfer_id begin;
      root_name := name; root_source := root_source begin; total_entries := total_entries begin;
      begin_total_bytes := begin_total_bytes begin; transport_mode := transport_mode begin;
      requested_parallel := requested_parallel begin; multi_source := multi_source begin |} in
    validate_manifest begin' es = Ok tt /\
    exists path, (run nothing_there (final_path dest begin' collision) tt).1 = Ok path /\
      components path = components dest ++ parts target.
Proof.
  intros Hd Ht Hf Hm Hv. exists (encode_component_os target). cbv zeta. split.
  - apply manifest_accepted. apply manifest_accepted in Hv. destruct Hv as [H1 H2 H3 H4].
    split; [exact H1|exact H2|exact H3|exact H4].
  - unfold final_path. cbn [root_source multi_source root_name]. rewrite Hf, Hm.
    rewrite decode_encode_component. exists (push dest target). split; [done|].
    by apply components_push.
Qed.

Lemma root_name_escapes_witness :
  exists name,
    let begin' := {| protocol_version := PROTOCOL_VERSION; transfer_id := "t"; root_name := name;
      root_source := Filesystem; total_entries := 1; begin_total_bytes := None;
      transport_mode := {| direct_udp := false; relay_tls := true |};
      requested_parallel := 4; multi_source := false |} in
    validate_manifest begin' demo_manifest = Ok tt /\
    exists path, (run nothing_there (final_path "/srv/in" begin' Fail_) tt).1 = Ok path /\
      components path = [RootDir; Normal "srv"; Normal "in"; ParentDir; ParentDir; Normal "etc"].
Proof.
  apply (root_name_escapes "/srv/in" (demo_begin "u:78") demo_manifest Fail_ "../../etc");
    try done; vm_compute; done.
Defined.

Section Names.
Context {St : Type} (h : handler exists_sig St).

Lemma try_exists_ok p st b st' :
  run h (try_exists p) st = (Ok b, st') -> (h (TryExists p) st).1 = Ok b.
Proof. simpl. destruct (h (TryExists p) st) as [[x|e|] s]; simpl; congruence. Qed.

Lemma find_free_ok left idx dest requested st name st' :
  run h (find_free left idx dest requested) st = (Ok name, st') ->
  (exists i, (idx <= i < idx + N.of_nat left)%N /\ name = rename_component requested i) /\
  exists s0, (h (TryExists (push dest name)) s0).1 = Ok false.
Proof.
  revert idx st; induction left as [|left IH]; intros idx st; [done|]. cbn [find_free].
  intros ([]&s1&E1&E)%run_try_ok; cbn [negb] in E.
  - destruct (IH _ _ E) as [(i&Hi&->) Hs]. split; [|done]. exists i. split; [lia|done].
  - simpl in E. injection E as <- <-. split; [exists idx; split; [lia|done]|].
    exists st. by eapply try_exists_ok.
Qed.

(** No destination is taken by accident.  Unless told to overwrite, the name
    chosen for a transfer is one whose path was found free, and it is the name
    asked for or one of its 9999 numbered variants. *)
Theorem never_picks_a_taken_name dest requested collision st name st' :
  run h (resolve_final_name_local dest requested collision) st = (Ok name, st') ->
  (name = requested \/ exists i, (1 <= i < 10000)%N /\ name = rename_component requested i) /\
  (collision = Overwrite \/ exists s0, (h (TryExists (push dest name)) s0).1 = Ok false).
Proof.
  unfold resolve_final_name_local. intros ([]&s1&E1&E)%run_try_ok; cbn [negb] in E.
  - destruct collision; [done| |].
    + simpl in E. injection E as <- <-. split; [by left|by left].
    + apply find_free_ok in E as [(i&Hi&->) Hs]. split; [|by right].
      right. exists i. split; [|done]. by replace (1 + N.of_nat 9999)%N with 10000%N in Hi by done.
  - simpl in E. injection E as <- <-. split; [by left|]. right. exists st.
    by eapply try_exists_ok.
Qed.
End Names.

Lemma never_picks_a_taken_name_witness :
  let h := fun (o : exists_op) (st : unit) =>
    (match o with TryExists p => Ok (String.eqb p "/in/a.txt") end : result io_error bool, st) in
  ("a (1).txt" = "a.txt" \/
   exists i, (1 <= i < 10000)%N /\ "a (1).txt" = rename_component "a.txt" i) /\
  (Rename = Overwrite \/ exists s0, (h (TryExists (push "/in" "a (1).txt")) s0).1 = Ok false).
Proof.
  intros h. apply (never_picks_a_taken_name h "/in" "a.txt" Rename tt "a (1).txt" tt).
  vm_compute. reflexivity.
Defined.

(** ** The path codec *)

(** Relative paths travel intact.  A path is encoded exactly when it is made
    of names only, whatever bytes the names hold, and decoding the text gives a
    path with the same names. *)
Theorem relative_path_round_trip `{HexLaws} path :
  match encode_relative_path path with
  | Ok text => forallb is_normal (components path) = true /\
      exists path', decode_relative_path text = Ok path' /\ components path' = components path
  | Err _ => forallb is_normal (components path) = false
  | Panicked => False
  end.
Proof.
  destruct (forallb is_normal (components path)) eqn:Hn.
  - destruct (all_normal_parts path Hn) as [_ Hp].
    destruct (normal_names _ Hn) as (ns&Ens&Hns); [rewrite Hp; apply parts_named|].
    destruct (encode_names path ns Ens Hns) as (text&path'&->&Hd&Hc). split; [done|].
    exists path'. by rewrite Hc, Ens.
  - unfold encode_relative_path. destruct (String.eqb_spec path "") as [->|_]; [done|].
    revert Hn. induction (components path) as [|[| | |n] cs IH]; simpl; try done.
    intros Hn. specialize (IH Hn). destruct (encode_parts path cs); simpl in *; [by destruct IH|done|done].
Qed.

Lemma relative_path_round_trip_witness :
  match encode_relative_path "docs/a.txt" with
  | Ok text => forallb is_normal (components "docs/a.txt") = true /\
      exists path', decode_relative_path text = Ok path' /\
        components path' = components "docs/a.txt"
  | Err _ => forallb is_normal (components "docs/a.txt") = false
  | Panicked => False
  end.
Proof. exact (relative_path_round_trip "docs/a.txt"). Defined.
