(* ===== verification/Fs.v ===== *)
(** * The file system ([vendored-from-bore/transfer.rs])

    The operations of [tokio::fs] and [std::fs] the transfer code awaits, as a
    signature; the helpers of [transfer.rs] that only use them; and an in-memory
    file system on which programs are evaluated.

    Transfers await more than one kind of thing (streams, files, the shared
    resume state, progress counters).  A helper is written once, over any
    signature that has the operations it needs ([Has]). *)

From stdpp Require Import list gmap.
From S2P Require Import Prelude Streams Json Wire Proto Text Paths Transfer.

(** ** Signatures that have the operations of another *)

Class Has (S T : sig) := call : forall o : op S, prog T (resp o).

Fixpoint lift_r {S T A} (p : prog T A) : prog (S ⊕ T) A :=
  match p with
  | Ret a => Ret a
  | Op o k => Op (S := S ⊕ T) (inr o) (fun r => lift_r (k r))
  end.

#[export] Instance has_here {S T} : Has S (S ⊕ T) | 0 :=
  fun o => Op (S := S ⊕ T) (inl o) Ret.
#[export] Instance has_there {S T U} `{Has S U} : Has S (T ⊕ U) | 2 :=
  fun o => lift_r (call o).
#[export] Instance has_self {S} : Has S S | 1 := fun o => trigger o.

(** ** Operations *)

Abbreviation handle := N.

Inductive file_type : Type := FtFile | FtDir | FtSymlink | FtCharDevice | FtBlockDevice | FtOther.

#[export] Instance file_type_eq_decision : EqDecision file_type.
Proof. solve_decision. Defined.

Record Metadata : Type := {
  meta_type : file_type;
  meta_len : N;             (* u64 *)
  meta_mode : N;            (* u32 *)
  meta_rdev : N;            (* u64 *)
}.

Definition is_file (m : Metadata) : bool := bool_decide (meta_type m = FtFile).
Definition is_dir (m : Metadata) : bool := bool_decide (meta_type m = FtDir).

(** [OpenOptions]. *)
Record open_options : Type := {
  o_read : bool; o_write : bool; o_create : bool; o_truncate : bool;
}.

Inductive fs_op : Type :=
| FsTryExists (path : string)
| FsSymlinkMetadata (path : string)
| FsMetadata (path : string)
| FsRead (path : string)
| FsWrite (path : string) (data : bytes)
| FsRemoveFile (path : string)
| FsRemoveDirAll (path : string)
| FsCreateDirAll (path : string)
| FsRename (from to : string)
| FsSetPermissions (path : string) (mode : N)
| FsSymlink (target link : string)
| FsMknod (path : string) (block : bool) (mode : N) (dev : N)
| FsReadLink (path : string)
| FsReadDir (path : string)
| FsNextEntry (dir : handle)
| FsOpen (options : open_options) (path : string)
| FsSetLen (file : handle) (len : N)
| FsSyncData (file : handle)
| FsSyncAll (file : handle)
| FsFlush (file : handle)
| FsSeek (file : handle) (offset : N)
| FsWriteAll (file : handle) (data : bytes)
| FsReadSome (file : handle) (n : N)
| FsReadExact (file : handle) (n : N).

(** What each answers when it succeeds; [FsNextEntry] the next file name. *)
Definition fs_ans (o : fs_op) : Type :=
  match o with
  | FsTryExists _ => bool
  | FsSymlinkMetadata _ | FsMetadata _ => Metadata
  | FsRead _ | FsReadSome _ _ | FsReadExact _ _ => bytes
  | FsReadLink _ => string
  | FsNextEntry _ => option string
  | FsReadDir _ | FsOpen _ _ => handle
  | _ => unit
  end.

Definition fs_sig : sig := Sig fs_op (fun o => result io_error (fs_ans o)).

(** [ErrorKind::NotFound]. *)
Definition NotFound : error_kind := OtherKind "NotFound".

(** How [libc] packs device numbers. *)
Class Libc := { makedev : N -> N -> N; major_of : N -> N; minor_of : N -> N }.

Section Calls.
Context {T : sig} `{Has fs_sig T}.

Definition fs (o : fs_op) : prog T (result io_error (fs_ans o)) := call (S := fs_sig) o.

(** [fs::op(..).await?]. *)
Definition fs_q (o : fs_op) : prog T (ares (fs_ans o)) :=
  let! r := fs o in Ret (map_err AnyIo r).

(** [.await.with_context(|| msg)?]. *)
Definition fs_ctx (msg : string) (o : fs_op) : prog T (ares (fs_ans o)) :=
  let! r := fs o in Ret (map_err (fun e => AnyContext msg (AnyIo e)) r).

(** [let _ = fs::op(..).await]. *)
Definition fs_ignore (o : fs_op) : prog T unit := let! _ := fs o in Ret tt.

(** ** Helpers *)

Definition path_exists (path : string) : prog T (ares bool) :=
  let! r := fs (FsSymlinkMetadata path) in
  Ret (match r with
       | Ok _ => Ok true
       | Err e =>
           if decide (io_kind e = NotFound) then Ok false
           else Err (AnyContext ("failed to inspect " +:+ to_string_lossy path) (AnyIo e))
       | Panicked => Panicked
       end).

Definition remove_any (path : string) : prog T (ares unit) :=
  let! r := fs (FsSymlinkMetadata path) in
  match r with
  | Ok meta =>
      if is_dir meta then
        fs_ctx ("failed to remove directory " +:+ to_string_lossy path) (FsRemoveDirAll path)
      else fs_ctx ("failed to remove file " +:+ to_string_lossy path) (FsRemoveFile path)
  | Err e =>
      if decide (io_kind e = NotFound) then Ret (Ok tt)
      else Ret (Err (AnyContext ("failed to inspect " +:+ to_string_lossy path) (AnyIo e)))
  | Panicked => Ret Panicked
  end.

(** On Unix. *)
Definition file_mode (metadata : Metadata) : option N := Some (meta_mode metadata).

Definition set_file_mode (path : string) (mode : option N) : prog T (ares unit) :=
  match mode with
  | Some mode =>
      fs_ctx ("failed to set permissions on " +:+ to_string_lossy path)
        (FsSetPermissions path (N.land mode 4095))
  | None => Ret (Ok tt)
  end.

Definition create_symlink (target link : string) : prog T (ares unit) :=
  fs_ctx ("failed to create symlink " +:+ to_string_lossy link +:+ " -> " +:+ to_string_lossy target)
    (FsSymlink target link).

(** The cast of the numbers to the platform's [u32]. *)
Definition device_makedev `{Libc} (major minor : N) : N := makedev (as_u32 major) (as_u32 minor).
Definition device_major `{Libc} (device : N) : N := major_of device.
Definition device_minor `{Libc} (device : N) : N := minor_of device.

Definition create_device `{Libc} (entry : ManifestEntry) (path : string) : prog T (ares unit) :=
  let? device := Ret (anyhow_context (device entry) "device entry missing metadata") in
  let? block := Ret (match kind entry with
                     | CharDevice => Ok false
                     | BlockDevice => Ok true
                     | _ => Err (AnyMsg "invalid device entry kind")
                     end) in
  fs_ctx ("failed to create device " +:+ to_string_lossy path)
    (FsMknod path block (N.land (default 384%N (mode entry)) 4095)
       (device_makedev (major device) (minor device))).

Definition read_write : open_options :=
  {| o_read := true; o_write := true; o_create := false; o_truncate := false |}.

Definition prepare_regular_file (path : string) (size : N) : prog T (ares unit) :=
  let? file := fs_ctx ("failed to open staged file " +:+ to_string_lossy path)
    (FsOpen {| o_read := true; o_write := true; o_create := true; o_truncate := false |} path) in
  fs_ctx ("failed to resize staged file " +:+ to_string_lossy path) (FsSetLen file size).

(** [for path in paths] of [sync_staged_files]. *)
Fixpoint sync_paths (paths : list string) : prog T (ares unit) :=
  match paths with
  | [] => Ret (Ok tt)
  | path :: paths' =>
      let? file := fs_ctx ("failed to reopen staged file " +:+ to_string_lossy path +:+ " for sync")
        (FsOpen read_write path) in
      let? _ := fs_ctx ("failed to sync staged file " +:+ to_string_lossy path) (FsSyncData file) in
      sync_paths paths'
  end.

Definition sync_staged_files (paths : list string) : prog T (ares unit) := sync_paths paths.

Definition COPY_BUFFER : N := 64 * 1024.

(** The loop of [hash_file_sync] lasts as long as the file does; [fuel] bounds
    its turns.  The hasher is what it was fed. *)
Fixpoint hash_loop `{Blake3} (fuel : nat) (path : string) (file : handle) (hasher : bytes) :
  prog T (ares string) :=
  match fuel with
  | O => Ret (Err Unfinished)
  | S fuel' =>
      let? buf := fs_ctx ("failed to read " +:+ to_string_lossy path +:+ " for hashing")
        (FsReadSome file COPY_BUFFER) in
      match buf with
      | [] => Ret (Ok (blake3_hash_hex hasher))
      | _ => hash_loop fuel' path file (hasher ++ buf)
      end
  end.

Definition read_only : open_options :=
  {| o_read := true; o_write := false; o_create := false; o_truncate := false |}.

Definition hash_file_sync `{Blake3} (fuel : nat) (path : string) : prog T (ares string) :=
  let? file := fs_ctx ("failed to open " +:+ to_string_lossy path +:+ " for hashing")
    (FsOpen read_only path) in
  hash_loop fuel path file [].

Definition hash_file_async `{Blake3} (fuel : nat) (path : string) : prog T (ares string) :=
  hash_file_sync fuel path.
End Calls.

(** [Path::with_extension], on Unix: the file name is the last part that is
    neither empty nor a dot. *)
Fixpoint drop_blank (ps : list string) : list string :=
  match ps with
  | p :: ps' => if String.eqb p "" || String.eqb p "." then drop_blank ps' else ps
  | [] => []
  end.

Definition with_extension (path ext : string) : string :=
  match file_stem path with
  | Some stem =>
      let name := if String.eqb ext "" then stem else stem +:+ "." +:+ ext in
      join_slash (reverse (name :: drop 1 (drop_blank (reverse (split_slash path)))))
  | None => path
  end.

(** [Path::parent] as a path. *)
Definition path_parent (path : string) : option string :=
  match parent (components path) with
  | None => None
  | Some [] => Some ""
  | Some [RootDir] => Some "/"
  | Some [CurDir] => Some "."
  | Some _ =>
      Some (join_slash (reverse (drop_blank (drop 1 (drop_blank (reverse (split_slash path)))))))
  end.

(** ** Small JSON files *)

Section JsonFiles.
Context {T : sig} `{Has fs_sig T}.

Definition write_json_atomic {V} `{Json V} (path : string) (value : V) : prog T (ares unit) :=
  let tmp := with_extension path "tmp" in
  let? data := Ret (map_err AnyJson (to_vec value)) in
  let? _ := fs_q (FsWrite tmp data) in
  let? there := fs_q (FsTryExists path) in
  let! _ := (if there then fs_ignore (FsRemoveFile path) else Ret tt) in
  fs_q (FsRename tmp path).

Definition read_json {V} `{Json V} (path : string) : prog T (ares V) :=
  let? data := fs_q (FsRead path) in
  Ret (map_err AnyJson (from_slice data)).
End JsonFiles.

Example with_extension_state : with_extension "/dst/.bore-x/state.json" "tmp" = "/dst/.bore-x/state.tmp".
Proof. vm_compute. done. Qed.

Example path_parent_nested : path_parent "/dst//stage/./a" = Some "/dst//stage".
Proof. vm_compute. done. Qed.
