(* ===== verification/Disk.v ===== *)
(** * An in-memory file system

    One concrete environment for the operations of [Fs.v]: every operation
    succeeds where a Unix file system lets it, a write reaches the file when it
    returns, paths are found by their components (symbolic links are not
    followed).  Theorems about what ends up on the disk are stated on it. *)

From stdpp Require Import list gmap.
From S2P Require Import Prelude Streams Json Wire Proto Text Paths Transfer Fs.

Abbreviation key := (list component).

(** Writing [d] at an offset; a gap before it reads as zeros. *)
Definition splice (off : nat) (d f : bytes) : bytes :=
  take off (f ++ replicate (off - length f) x00) ++ d ++ drop (off + length d) f.

Inductive node : Type :=
| NFile (data : bytes)
| NDir
| NLink (target : string)
| NDev (block : bool) (dev : N).

(** The nodes by path, the open files with their positions, the directories
    being listed, and the next handle. *)
Record disk : Type := Disk {
  d_nodes : gmap key node;
  d_open : gmap handle (key * N);
  d_lists : gmap handle (list string);
  d_next : handle;
}.

Definition with_nodes (d : disk) (m : gmap key node) : disk :=
  Disk m (d_open d) (d_lists d) (d_next d).

Definition at_position (d : disk) (h : handle) (q : key) (pos : N) : disk :=
  Disk (d_nodes d) (<[h := (q, pos)]> (d_open d)) (d_lists d) (d_next d).

Definition opened_file (d : disk) (m : gmap key node) (q : key) : disk :=
  Disk m (<[d_next d := (q, 0%N)]> (d_open d)) (d_lists d) (d_next d + 1)%N.

Definition not_found : io_error := IoError NotFound "No such file or directory".
Definition is_a_directory : io_error := IoError (OtherKind "IsADirectory") "Is a directory".
Definition already_exists : io_error := IoError (OtherKind "AlreadyExists") "File exists".
Definition not_empty : io_error := IoError (OtherKind "DirectoryNotEmpty") "Directory not empty".

Definition meta_of (n : node) : Metadata :=
  match n with
  | NFile data => {| meta_type := FtFile; meta_len := nlen data; meta_mode := 420; meta_rdev := 0 |}
  | NDir => {| meta_type := FtDir; meta_len := 0; meta_mode := 493; meta_rdev := 0 |}
  | NLink t => {| meta_type := FtSymlink; meta_len := 0; meta_mode := 511; meta_rdev := 0 |}
  | NDev block dev =>
      {| meta_type := if block then FtBlockDevice else FtCharDevice; meta_len := 0; meta_mode := 384;
         meta_rdev := dev |}
  end.

Definition under (q k : key) : bool := bool_decide (q `prefix_of` k).

(** Without the tree at [q]. *)
Definition prune (q : key) (m : gmap key node) : gmap key node :=
  filter (fun kn => under q kn.1 = false) m.

(** The tree at [a] moved to [b]. *)
Definition graft (a b : key) (m : gmap key node) : gmap key node :=
  list_to_map ((fun kn => if under a kn.1 then (b ++ drop (length a) kn.1, kn.2) else kn)
    <$> map_to_list (prune b m)).

Definition child_of (q k : key) : option string :=
  if under q k then
    match drop (length q) k with [Normal n] => Some n | _ => None end
  else None.

Definition children (q : key) (m : gmap key node) : list string :=
  omap (child_of q) (map_to_list m).*1.

(** [create_dir_all]: every directory on the way. *)
Fixpoint make_dirs (done todo : key) (m : gmap key node) : option (gmap key node) :=
  match todo with
  | [] => Some m
  | c :: todo' =>
      let q := done ++ [c] in
      match m !! q with
      | Some NDir => make_dirs q todo' m
      | None => make_dirs q todo' (<[q := NDir]> m)
      | Some _ => None
      end
  end.

Definition resize (n : nat) (data : bytes) : bytes := take n (data ++ replicate (n - length data) x00).

(** What can be renamed over what. *)
Definition replaceable (d : disk) (a b : key) : option io_error :=
  match d_nodes d !! a, d_nodes d !! b with
  | None, _ => Some not_found
  | _, None => None
  | Some NDir, Some NDir => match children b (d_nodes d) with [] => None | _ => Some not_empty end
  | Some NDir, Some _ => Some (IoError (OtherKind "NotADirectory") "Not a directory")
  | Some _, Some NDir => Some is_a_directory
  | Some _, Some _ => None
  end.

Definition disk_handler : handler fs_sig disk :=
  fun o d =>
    let get p := d_nodes d !! components p in
    match o return result io_error (fs_ans o) * disk with
    | FsTryExists p => (Ok (bool_decide (is_Some (get p))), d)
    | FsSymlinkMetadata p | FsMetadata p => (ok_or (meta_of <$> get p) not_found, d)
    | FsRead p =>
        (match get p with
         | Some (NFile data) => Ok data
         | Some _ => Err is_a_directory
         | None => Err not_found
         end, d)
    | FsWrite p data =>
        match get p with
        | Some NDir => (Err is_a_directory, d)
        | _ => (Ok tt, with_nodes d (<[components p := NFile data]> (d_nodes d)))
        end
    | FsRemoveFile p =>
        match get p with
        | Some NDir => (Err is_a_directory, d)
        | Some _ => (Ok tt, with_nodes d (delete (components p) (d_nodes d)))
        | None => (Err not_found, d)
        end
    | FsRemoveDirAll p =>
        match get p with
        | Some _ => (Ok tt, with_nodes d (prune (components p) (d_nodes d)))
        | None => (Err not_found, d)
        end
    | FsCreateDirAll p =>
        match make_dirs [] (components p) (d_nodes d) with
        | Some m => (Ok tt, with_nodes d m)
        | None => (Err already_exists, d)
        end
    | FsRename a b =>
        match replaceable d (components a) (components b) with
        | Some e => (Err e, d)
        | None =>
            if decide (components a = components b) then (Ok tt, d)
            else (Ok tt, with_nodes d (graft (components a) (components b) (d_nodes d)))
        end
    | FsSetPermissions p _ => (match get p with Some _ => Ok tt | None => Err not_found end, d)
    | FsSymlink target link =>
        match get link with
        | Some _ => (Err already_exists, d)
        | None => (Ok tt, with_nodes d (<[components link := NLink target]> (d_nodes d)))
        end
    | FsMknod p block _ dev =>
        match get p with
        | Some _ => (Err already_exists, d)
        | None => (Ok tt, with_nodes d (<[components p := NDev block dev]> (d_nodes d)))
        end
    | FsReadLink p => (match get p with Some (NLink t) => Ok t | _ => Err not_found end, d)
    | FsReadDir p =>
        match get p with
        | Some NDir =>
            (Ok (d_next d),
             Disk (d_nodes d) (d_open d)
               (<[d_next d := children (components p) (d_nodes d)]> (d_lists d)) (d_next d + 1)%N)
        | _ => (Err not_found, d)
        end
    | FsNextEntry h =>
        match d_lists d !! h with
        | Some (n :: ns) => (Ok (Some n), Disk (d_nodes d) (d_open d) (<[h := ns]> (d_lists d)) (d_next d))
        | _ => (Ok None, d)
        end
    | FsOpen opts p =>
        match get p with
        | Some (NFile data) =>
            (Ok (d_next d),
             opened_file d (if o_truncate opts then <[components p := NFile []]> (d_nodes d) else d_nodes d)
               (components p))
        | Some _ => (Err is_a_directory, d)
        | None =>
            if o_create opts then
              (Ok (d_next d), opened_file d (<[components p := NFile []]> (d_nodes d)) (components p))
            else (Err not_found, d)
        end
    | FsSetLen h n =>
        match d_open d !! h with
        | Some (q, _) =>
            match d_nodes d !! q with
            | Some (NFile data) =>
                (Ok tt, with_nodes d (<[q := NFile (resize (N.to_nat n) data)]> (d_nodes d)))
            | _ => (Err not_found, d)
            end
        | None => (Err not_found, d)
        end
    | FsSyncData _ | FsSyncAll _ | FsFlush _ => (Ok tt, d)
    | FsSeek h off =>
        match d_open d !! h with
        | Some (q, _) => (Ok tt, at_position d h q off)
        | None => (Err not_found, d)
        end
    | FsWriteAll h data =>
        match d_open d !! h with
        | Some (q, pos) =>
            match d_nodes d !! q with
            | Some (NFile old) =>
                (Ok tt, at_position (with_nodes d (<[q := NFile (splice (N.to_nat pos) data old)]> (d_nodes d)))
                          h q (pos + nlen data)%N)
            | _ => (Err not_found, d)
            end
        | None => (Err not_found, d)
        end
    | FsReadSome h n =>
        match d_open d !! h with
        | Some (q, pos) =>
            match d_nodes d !! q with
            | Some (NFile data) =>
                let bs := take (N.to_nat n) (drop (N.to_nat pos) data) in
                (Ok bs, at_position d h q (pos + nlen bs)%N)
            | _ => (Err not_found, d)
            end
        | None => (Err not_found, d)
        end
    | FsReadExact h n =>
        match d_open d !! h with
        | Some (q, pos) =>
            match d_nodes d !! q with
            | Some (NFile data) =>
                let bs := take (N.to_nat n) (drop (N.to_nat pos) data) in
                if (nlen bs =? n)%N then (Ok bs, at_position d h q (pos + n)%N)
                else (Err (IoError UnexpectedEof "early eof"), d)
            | _ => (Err not_found, d)
            end
        | None => (Err not_found, d)
        end
    end.

(** ** Splicing *)

Lemma length_splice_pre off f : length (take off (f ++ replicate (off - length f) x00)) = off.
Proof. rewrite length_take, length_app, length_replicate. lia. Qed.

Lemma splice_lookup_in off d f i :
  off <= i < off + length d -> splice off d f !! i = d !! (i - off).
Proof.
  intros Hi. unfold splice. pose proof (length_splice_pre off f) as El.
  rewrite lookup_app_r, El by lia. by rewrite lookup_app_l by lia.
Qed.

Lemma splice_lookup_out off d f i b :
  (i < off \/ off + length d <= i) -> f !! i = Some b -> splice off d f !! i = Some b.
Proof.
  intros Hi Hf. pose proof (lookup_lt_Some _ _ _ Hf) as Hl. unfold splice.
  pose proof (length_splice_pre off f) as El. destruct Hi as [Hi|Hi].
  - rewrite lookup_app_l by lia. rewrite lookup_take, decide_True by lia. by rewrite lookup_app_l by lia.
  - rewrite lookup_app_r, El, lookup_app_r, lookup_drop by lia.
    rewrite <- Hf. f_equal. lia.
Qed.

Lemma length_splice off d f : off + length d <= length f -> length (splice off d f) = length f.
Proof.
  intros Hl. unfold splice. rewrite length_app, length_splice_pre, length_app, length_drop. lia.
Qed.
