(* ===== verification/Tracker.v ===== *)
(** * Progress of a transfer ([vendored-from-bore/transfer.rs])

    The counters the two sides of a transfer update and the line printed from
    them.  Every clone of the handle reaches the same counters: in programs the
    calls are operations on one shared state.  The task that prints the line at
    each tick only reads; it is not modelled. *)

From Stdlib Require Import SpecFloat Strings.Ascii.
From stdpp Require Import list.
From S2P Require Import Prelude Progress Text Paths Transfer.

Record ProgressShared : Type := {
  shared_label : string;
  enabled : bool;
  shared_total_bytes : option N;
  total_files : N;
  bytes_done : N;        (* AtomicU64 *)
  resumed_bytes : N;     (* AtomicU64 *)
  files_done : N;        (* AtomicU64 *)
  workers : N;           (* AtomicU64 *)
  current : string;
  finished : bool;
}.

(** [ProgressTracker::new], for a standard error that [is_terminal] or not. *)
Definition ProgressTracker_new (is_terminal : bool) (label : string) (total_bytes : option N)
  (total_files : N) : ProgressShared := {|
  shared_label := label; enabled := is_terminal; shared_total_bytes := total_bytes;
  total_files := total_files; bytes_done := 0; resumed_bytes := 0; files_done := 0;
  workers := 0; current := ""; finished := false;
|}.

Section Counters.
Context (p : ProgressShared).

Definition with_counters (bytes resumed files active : N) (cur : string) (fin : bool) :
  ProgressShared := {|
  shared_label := shared_label p; enabled := enabled p;
  shared_total_bytes := shared_total_bytes p; total_files := total_files p;
  bytes_done := bytes; resumed_bytes := resumed; files_done := files; workers := active;
  current := cur; finished := fin;
|}.

Definition set_current (value : string) : ProgressShared :=
  with_counters (bytes_done p) (resumed_bytes p) (files_done p) (workers p) value (finished p).

Definition add_bytes (bytes : N) : ProgressShared :=
  with_counters (add_u64 (bytes_done p) bytes) (resumed_bytes p) (files_done p) (workers p)
    (current p) (finished p).

Definition add_resumed_bytes (bytes : N) : ProgressShared :=
  with_counters (bytes_done p) (add_u64 (resumed_bytes p) bytes) (files_done p) (workers p)
    (current p) (finished p).

Definition worker_started : ProgressShared :=
  with_counters (bytes_done p) (resumed_bytes p) (files_done p) (add_u64 (workers p) 1)
    (current p) (finished p).

(** [fetch_sub] wraps too. *)
Definition worker_finished : ProgressShared :=
  with_counters (bytes_done p) (resumed_bytes p) (files_done p) (add_u64 (workers p) u64_max)
    (current p) (finished p).

Definition add_file : ProgressShared :=
  with_counters (bytes_done p) (resumed_bytes p) (add_u64 (files_done p) 1) (workers p)
    (current p) (finished p).

Definition finish : ProgressShared :=
  with_counters (bytes_done p) (resumed_bytes p) (files_done p) (workers p) (current p) true.
End Counters.

Inductive tracker_op : Type :=
| SetCurrent (value : string)
| AddBytes (n : N)
| AddResumedBytes (n : N)
| WorkerStarted
| WorkerFinished
| AddFile
| Finish.

Definition tracker_sig : sig := Sig tracker_op (fun _ => unit).

Definition tracker_step (o : tracker_op) (p : ProgressShared) : ProgressShared :=
  match o with
  | SetCurrent v => set_current p v
  | AddBytes n => add_bytes p n
  | AddResumedBytes n => add_resumed_bytes p n
  | WorkerStarted => worker_started p
  | WorkerFinished => worker_finished p
  | AddFile => add_file p
  | Finish => finish p
  end.

Definition tracker_handler : handler tracker_sig ProgressShared :=
  fun o p => (tt, tracker_step o p).

(** ** The printed line *)

Definition f64_ge (x y : f64) : bool := SFleb y x.

(** [while value >= 1024.0 && unit < UNITS.len() - 1], [left] units to go. *)
Fixpoint scale_units (left : nat) (unit : nat) (value : f64) : nat * f64 :=
  match left with
  | O => (unit, value)
  | S left' =>
      if f64_ge value (f64_of_N 1024)
      then scale_units left' (S unit) (f64_div value (f64_of_N 1024))
      else (unit, value)
  end.

Definition UNITS : list string := ["B"; "KiB"; "MiB"; "GiB"; "TiB"].

Definition human_bytes (value : N) : string :=
  let '(unit, v) := scale_units (length UNITS - 1) 0 (f64_of_N value) in
  let name := default "" (UNITS !! unit) in
  if Nat.eqb unit 0 then pretty (f64_to_u64 v) +:+ name else f64_fixed1 v +:+ name.

(** [f64::max] of numbers, and [0.001]. *)
Definition f64_max (x y : f64) : f64 := if SFltb x y then y else x.
Definition f64_milli : f64 := f64_div (f64_of_N 1) (f64_of_N 1000).

Definition format_duration (secs : f64) : string :=
  if SFltb secs (f64_of_N 60) then f64_fixed1 secs +:+ "s"
  else
    let m := f64_to_u64 (f64_div secs (f64_of_N 60)) in
    let s := (f64_to_u64 secs mod 60)%N in
    pretty m +:+ "m" +:+ (if (s <? 10)%N then "0" else "") +:+ pretty s +:+ "s".

(** [chars().count()] and [chars().take(n)]; [skip] bytes of the current
    character are left. *)
Fixpoint chars_count (skip : nat) (s : string) : nat :=
  match s with
  | EmptyString => 0
  | String a s' =>
      match skip with
      | S k => chars_count k s'
      | O => S (chars_count (pred (utf8_char a s').2) s')
      end
  end.

Fixpoint take_chars (n skip : nat) (s : string) : string :=
  match s with
  | EmptyString => EmptyString
  | String a s' =>
      match skip, n with
      | S k, _ => String a (take_chars n k s')
      | O, O => EmptyString
      | O, S n' => String a (take_chars n' (pred (utf8_char a s').2) s')
      end
  end.

Definition truncate_item (value : string) : string :=
  if Nat.leb (chars_count 0 value) 48 then value else take_chars (48 - 3) 0 value +:+ "...".

(** [{:>5}]. *)
Fixpoint spaces (n : nat) : string := match n with O => "" | S n' => String " "%char (spaces n') end.
Definition pad_left (width : nat) (s : string) : string := spaces (width - String.length s) +:+ s.

Definition control_char (n : nat) : string := String (ascii_of_nat n) "".

(** [None]: nothing is printed. *)
Definition render_progress (shared : ProgressShared) (elapsed : f64) (done : bool) : option string :=
  if negb (enabled shared) then None
  else
    let elapsed_secs := f64_max elapsed f64_milli in
    let bytes := bytes_done shared in
    let resumed := resumed_bytes shared in
    let speed := human_bytes (f64_to_u64 (f64_div (f64_of_N bytes) elapsed_secs)) in
    let sum := add_u64 bytes resumed in
    let ratio :=
      match shared_total_bytes shared with
      | Some total =>
          if (0 <? total)%N then
            " " +:+ human_bytes sum +:+ "/" +:+ human_bytes total +:+ " " +:+
            pad_left 5 (f64_fixed1 (f64_mul (f64_div (f64_of_N sum) (f64_of_N total)) (f64_of_N 100)))
            +:+ "%"
          else " " +:+ human_bytes sum +:+ "/" +:+ human_bytes total
      | None => " " +:+ human_bytes bytes
      end in
    let files_str :=
      if (0 <? total_files shared)%N
      then " files " +:+ pretty (files_done shared) +:+ "/" +:+ pretty (total_files shared) else "" in
    let resumed_str := if (0 <? resumed)%N then " resumed " +:+ human_bytes resumed else "" in
    let workers_str :=
      if (0 <? workers shared)%N then " workers " +:+ pretty (workers shared) else "" in
    let file_str :=
      if negb done && negb (String.eqb (current shared) "")
      then " " +:+ truncate_item (current shared) else "" in
    Some ("[" +:+ shared_label shared +:+ "]" +:+ ratio +:+ files_str +:+ resumed_str +:+
          workers_str +:+ " " +:+ speed +:+ "/s" +:+ file_str +:+ control_char 27 +:+ "[K" +:+
          control_char (if done then 10 else 13)).

Definition print_transfer_done (label file_name : string) (total_bytes : N) (elapsed : f64)
  (dest : option string) : string :=
  let elapsed_secs := f64_max elapsed f64_milli in
  let avg_speed := human_bytes (f64_to_u64 (f64_div (f64_of_N total_bytes) elapsed_secs)) in
  let dest_str := match dest with Some p => " → " +:+ to_string_lossy p | None => "" end in
  "[" +:+ label +:+ "] complete: " +:+ file_name +:+ " — " +:+ human_bytes total_bytes +:+ " in " +:+
  format_duration elapsed_secs +:+ " — " +:+ avg_speed +:+ "/s avg — checksums ok" +:+ dest_str +:+
  control_char 10.

(** The values of the repository's own tests. *)
Example human_bytes_zero : human_bytes 0 = "0B" /\ human_bytes 1023 = "1023B".
Proof. vm_compute. done. Qed.
Example human_bytes_units : human_bytes 1024 = "1.0KiB" /\ human_bytes 1048576 = "1.0MiB".
Proof. vm_compute. done. Qed.
Example format_duration_minutes : format_duration (f64_of_N 90) = "1m30s".
Proof. vm_compute. done. Qed.

Example render_line :
  render_progress
    (with_counters (ProgressTracker_new true "sender" (Some 2048%N) 2) 1024 0 1 2 "a.txt" false)
    (f64_of_N 1) false =
  Some ("[sender] 1.0KiB/2.0KiB  50.0% files 1/2 workers 2 1.0KiB/s a.txt" +:+
        control_char 27 +:+ "[K" +:+ control_char 13).
Proof. vm_compute. done. Qed.

(** Starting and finishing workers cancel out, although the counter wraps. *)
Lemma worker_finished_started p :
  (workers p < 2 ^ 64)%N -> workers (worker_finished (worker_started p)) = workers p.
Proof.
  intros H. simpl. unfold add_u64, u64_max. rewrite N.Div0.add_mod_idemp_l.
  replace (workers p + 1 + (2 ^ 64 - 1))%N with (workers p + 1 * 2 ^ 64)%N by lia.
  rewrite N.Div0.mod_add. by apply N.mod_small.
Qed.
