(* ===== verification/Frames.v ===== *)
(** * The frames of a transfer ([vendored-from-bore/transfer.rs])

    The messages of the transfer protocol, their framing on a stream, and the
    read and write loops under an idle timeout.  The same shape as [Wire.v], in
    the reference code's own version: the timeout is an argument, zero turns it
    off, and nothing is flushed. *)

From stdpp Require Import countable list.
From S2P Require Import Prelude Streams Json Wire Proto Text Paths Transfer Fs.

Definition FRAME_LIMIT : N := 16 * 1024 * 1024.
Definition STREAM_CHUNK_MAX : N := CHUNK_SIZE.

Record CompletedFrame : Type := {
  completed_final_path : string;
  completed_total_bytes : N;
  completed_regular_files : N;
  completed_transfer_hash : string;
}.

Inductive Frame : Type :=
| Begin (begin : BeginFrame)
| ManifestChunk (entries : list ManifestEntry)
| ManifestDone
| ManifestAccepted (final_name : string) (parallel resumed_bytes : N)
    (resume : list ResumeFilePlan)
| WorkerHello (transfer_id : string)
| WorkerDone
| WorkerComplete
| ChunkStart (entry_id chunk_index offset len : N) (blake3 : string)
| StreamChunk (len : N)
| StreamEnd (size : N) (blake3 : string)
| StreamVerified (size : N) (blake3 : string)
| SummaryFrame (summary : TransferSummary)
| Completed (completed : CompletedFrame)
| ErrorFrame (message : string).

(** What a finished transfer reports. *)
Record TransferOutcome : Type := {
  outcome_transfer_id : string;
  outcome_final_path : string;
  outcome_total_bytes : N;
  outcome_regular_files : N;
  outcome_transport : TransportMode;
}.

(** [{frame:?}]: the derived formatter is only used in messages. *)
Class FrameText := frame_debug : Frame -> string.

(** ** Deadlines *)

(** The timer of [tokio::time::timeout]: whether the deadline passes before the
    pending operation answers. *)
Inductive timer_op : Type := Expires (secs : N).
Definition timer_sig : sig := Sig timer_op (fun _ => bool).

Definition stalled {A} (secs : N) : ares A :=
  Err (AnyMsg ("transfer stalled: no progress for " +:+ pretty secs +:+ "s")).

Section Stall.
Context {T : sig} `{Has timer_sig T}.

(** [tokio::time::timeout]: the deadline races with every operation of the future;
    when it wins, the future is dropped at the operation it was waiting for. *)
Fixpoint timeout {A} (secs : N) (fut : prog T A) : prog T (timed A) :=
  match fut with
  | Ret r => Ret (InTime r)
  | Op o k =>
      let! late := call (S := timer_sig) (Expires secs) in
      if late : bool then Ret Elapsed else Op o (fun r => timeout secs (k r))
  end.

Definition with_stall {A} (secs : N) (fut : prog T (ares A)) : prog T (ares A) :=
  if (secs =? 0)%N then fut
  else
    let! r := timeout secs fut in
    Ret (match r with InTime r => r | Elapsed => stalled secs end).
End Stall.

Section Io.
Context {L : sig}.

Abbreviation net := (stream_sig ⊕ L).

(** [Err(err).context(msg)]. *)
Definition io_context (msg : string) (e : io_error) : anyhow := AnyContext msg (AnyIo e).

(** [while off < buf.len()]: every turn writes at least a byte, so the length of
    the buffer is enough fuel (see [io_write_all_from_fuel]). *)
Fixpoint write_all_from (fuel : nat) (buf : bytes) (secs : N) : prog net (ares unit) :=
  match buf, fuel with
  | [], _ | _, O => Ret (Ok tt)
  | _, S fuel' =>
      let! r := stream (WriteT secs buf) in
      match r with
      | InTime (Ok n) =>
          if (n =? 0)%N then Ret (Err (AnyMsg "transfer stalled: peer is not accepting data"))
          else if (nlen buf <? n)%N then Ret Panicked
          else write_all_from fuel' (drop (N.to_nat n) buf) secs
      | InTime (Err e) => Ret (Err (io_context "failed to write transfer data" e))
      | InTime Panicked => Ret Panicked
      | Elapsed => Ret (stalled secs)
      end
  end.

Definition write_all_idle (buf : bytes) (secs : N) : prog net (ares unit) :=
  if (secs =? 0)%N then io_try (stream (WriteAll buf))
  else write_all_from (length buf) buf secs.

(** [while off < total], [acc] being the filled part of the buffer. *)
Fixpoint read_exact_from (fuel : nat) (total : N) (acc : bytes) (secs : N) :
  prog net (ares bytes) :=
  if (nlen acc <? total)%N then
    match fuel with
    | O => Ret (Ok acc)
    | S fuel' =>
        let! r := stream (ReadT secs (total - nlen acc)%N) in
        match r with
        | InTime (Ok bs) =>
            if (nlen bs =? 0)%N then
              Ret (Err (AnyMsg ("unexpected EOF mid-chunk after " +:+ pretty (nlen acc) +:+ "/" +:+
                                pretty total +:+ " bytes")))
            else read_exact_from fuel' total (acc ++ bs) secs
        | InTime (Err e) => Ret (Err (io_context "failed to read transfer data" e))
        | InTime Panicked => Ret Panicked
        | Elapsed => Ret (stalled secs)
        end
    end
  else Ret (Ok acc).

(** The buffer of [total] bytes, once filled. *)
Definition read_exact_idle (total secs : N) : prog net (ares bytes) :=
  if (secs =? 0)%N then io_try (stream (ReadExact total))
  else read_exact_from (N.to_nat total) total [] secs.

Context `{Json Frame}.

Definition send_frame (frame : Frame) : prog net (ares unit) :=
  let? payload := Ret (map_err (fun e => AnyContext "failed to encode transfer frame" (AnyJson e))
                         (to_vec frame)) in
  if (FRAME_LIMIT <? nlen payload)%N then
    Ret (Err (AnyMsg "transfer frame exceeds configured limit"))
  else
    let? _ := io_try (stream (WriteAll (to_le_bytes (as_u32 (nlen payload))))) in
    let? _ := io_try (stream (WriteAll payload)) in
    Ret (Ok tt).

Definition recv_frame : prog net (ares (option Frame)) :=
  let! r := stream (ReadExact 4) in
  match r with
  | Ok header =>
      let len := from_le_bytes header in
      if (FRAME_LIMIT <? len)%N then
        Ret (Err (AnyMsg ("peer sent an oversized transfer frame (" +:+ pretty len +:+ " bytes)")))
      else
        let? buf := io_try (stream (ReadExact len)) in
        let? frame := Ret (map_err AnyJson (from_slice buf)) in
        Ret (Ok (Some frame))
  | Err e =>
      if decide (io_kind e = UnexpectedEof) then Ret (Ok None)
      else Ret (Err (io_context "failed to read transfer frame header" e))
  | Panicked => Ret Panicked
  end.

Definition expect_frame : prog net (ares Frame) :=
  let? frame := recv_frame in
  Ret (match frame with
       | Some (ErrorFrame message) => Err (AnyMsg ("peer reported an error: " +:+ message))
       | Some frame => Ok frame
       | None => Err (AnyMsg "unexpected EOF on transfer stream")
       end).

Definition recv_manifest_accepted (transfer_id : string) : prog net (ares Frame) :=
  let? frame := recv_frame in
  Ret (match frame with
       | Some (ErrorFrame message) => Err (AnyMsg ("peer reported an error: " +:+ message))
       | Some frame => Ok frame
       | None => Err (AnyMsg ("listener did not respond to transfer manifest — is 'bore transfer listener' running with --transfer-id " +:+ transfer_id +:+ "?"))
       end).
End Io.

(** The bytes of one frame on the wire. *)
Definition wire_bytes (payload : bytes) : bytes := to_le_bytes (nlen payload) ++ payload.

Definition encodes `{Json Frame} (f : Frame) (bs : bytes) : Prop :=
  exists payload, to_vec f = Ok payload /\ (nlen payload <= FRAME_LIMIT)%N /\ bs = wire_bytes payload.

(** ** What the frame functions send and receive *)

(** A clock that never runs out. *)
Definition in_time {L St} (h : handler L St) `{Has timer_sig L} : Prop :=
  forall secs st, run h (call (S := timer_sig) (Expires secs)) st = (false, st).

Section Facts.
Context {L : sig} {St : Type} (h : handler L St).

Lemma io_write_all_from_behaves fuel buf secs st :
  length buf <= fuel -> behaves Exact h (write_all_from fuel buf secs) st (snds buf) (Ok tt) st.
Proof.
  revert buf; induction fuel as [|fuel IH]; intros [|b buf] Hf;
    try (simpl in Hf; lia); [constructor..|].
  rewrite <- (app_nil_r (snds _)). cbn [write_all_from].
  apply bh_write; [done|]. intros n Hn. rewrite app_nil_r.
  destruct (N.eqb_spec (N.of_nat n) 0); [lia|].
  destruct (N.ltb_spec (nlen (b :: buf)) (N.of_nat n)) as [Hl|]; [unfold nlen in Hl; lia|].
  rewrite Nat2N.id. apply IH. rewrite length_drop. simpl length in *. lia.
Qed.

Lemma io_write_behaves buf st :
  behaves Exact h (io_try (stream (WriteAll buf))) st (snds buf) (Ok tt) st.
Proof. rewrite <- (app_nil_r (snds _)). apply bh_write_all. constructor. Qed.

Lemma io_read_behaves n bs st :
  nlen bs = n -> behaves Exact h (io_try (stream (ReadExact n))) st (rcvs bs) (Ok bs) st.
Proof. intros Hn. rewrite <- (app_nil_r (rcvs _)). apply bh_read_exact; [done|]. constructor. Qed.

Lemma io_write_all_idle_behaves buf secs st :
  behaves Exact h (write_all_idle buf secs) st (snds buf) (Ok tt) st.
Proof.
  unfold write_all_idle. destruct (N.eqb_spec secs 0);
    [apply io_write_behaves|by apply io_write_all_from_behaves].
Qed.

Lemma io_read_exact_from_behaves fuel total acc bs secs st :
  nlen (acc ++ bs) = total -> length bs <= fuel ->
  behaves Exact h (read_exact_from fuel total acc secs) st (rcvs bs) (Ok (acc ++ bs)) st.
Proof.
  revert acc bs; induction fuel as [|fuel IH]; intros acc bs Hlen Hf.
  - destruct bs; [|simpl in Hf; lia]. rewrite app_nil_r in *. cbn [read_exact_from].
    destruct (N.ltb_spec (nlen acc) total); constructor.
  - cbn [read_exact_from]. rewrite nlen_app in Hlen.
    destruct (N.ltb_spec (nlen acc) total) as [Hlt|Hge].
    + rewrite <- (app_nil_r (rcvs bs)).
      assert (bs <> []) as Hne by (intros ->; rewrite nlen_nil in Hlen; lia).
      apply bh_read_t; [split_and!; [done|lia|left; lia]|].
      intros pre post -> Hp _. rewrite app_nil_r.
      assert (0 < length pre) by (destruct pre; simpl; [done|lia]).
      destruct (N.eqb_spec (nlen pre) 0) as [E|_]; [unfold nlen in E; lia|].
      rewrite app_assoc. rewrite length_app in Hf.
      apply IH; [by rewrite <- app_assoc, nlen_app|lia].
    + destruct bs as [|b bs]; [|rewrite nlen_cons in Hlen; lia].
      rewrite app_nil_r. constructor.
Qed.

Lemma io_read_exact_idle_behaves total bs secs st :
  nlen bs = total -> behaves Exact h (read_exact_idle total secs) st (rcvs bs) (Ok bs) st.
Proof.
  intros Hn. unfold read_exact_idle. destruct (N.eqb_spec secs 0); [by apply io_read_behaves|].
  apply (io_read_exact_from_behaves _ _ []); [done|]. unfold nlen in Hn. lia.
Qed.

Lemma io_send_frame_behaves `{Json Frame} f bs st :
  encodes f bs -> behaves Exact h (send_frame f) st (snds bs) (Ok tt) st.
Proof.
  intros (payload&Hf&Hl&->). unfold send_frame. rewrite Hf.
  replace (snds (wire_bytes payload))
    with ([] ++ snds (to_le_bytes (nlen payload)) ++ snds payload ++ [])
    by (unfold wire_bytes; by autorewrite with rb).
  eapply (behaves_try Exact); [constructor|].
  destruct (N.ltb_spec FRAME_LIMIT (nlen payload)); [lia|].
  unfold as_u32. rewrite N.mod_small by (unfold FRAME_LIMIT in *; lia).
  do 2 (eapply (behaves_try Exact); [apply io_write_behaves|]). constructor.
Qed.

Lemma io_recv_frame_behaves `{JsonLaws Frame} f bs st :
  encodes f bs -> behaves Exact h recv_frame st (rcvs bs) (Ok (Some f)) st.
Proof.
  intros (payload&Hf&Hl&->). unfold recv_frame, wire_bytes. rewrite rcvs_app.
  apply bh_read_exact; [done|]. cbn [pbind].
  rewrite from_to_le_bytes by (unfold FRAME_LIMIT in *; lia).
  destruct (N.ltb_spec FRAME_LIMIT (nlen payload)); [lia|].
  rewrite <- (app_nil_r (rcvs payload)).
  eapply (behaves_try Exact); [by apply io_read_behaves|].
  rewrite (json_roundtrip _ _ Hf). constructor.
Qed.

Definition is_error (f : Frame) : bool := match f with ErrorFrame _ => true | _ => false end.

Lemma expect_frame_behaves `{JsonLaws Frame} f bs st :
  encodes f bs -> is_error f = false ->
  behaves Exact h expect_frame st (rcvs bs) (Ok f) st.
Proof.
  intros Hf He. unfold expect_frame. rewrite <- (app_nil_r (rcvs bs)).
  eapply (behaves_try Exact); [by apply io_recv_frame_behaves|]. destruct f; try done; constructor.
Qed.
End Facts.

(** A deadline that does not pass changes nothing. *)
Lemma behaves_local {L St A X} m (h : handler L St) (p : prog L X)
  (k : X -> prog (stream_sig ⊕ L) A) st τ a st' :
  behaves m h (k (run h p st).1) (run h p st).2 τ a st' ->
  behaves m h (pbind (lift_r p) k) st τ a st'.
Proof.
  revert st. induction p as [x|o k' IH]; intros st H; [exact H|].
  cbn [lift_r pbind]. apply bh_local. apply IH. exact H.
Qed.

Lemma behaves_map {L St A B} m (h : handler L St) (f : A -> B)
  (p : prog (stream_sig ⊕ L) A) st τ a st' :
  behaves m h p st τ a st' -> behaves m h (pbind p (fun x => Ret (f x))) st τ (f a) st'.
Proof. induction 1; cbn [pbind]; econstructor; eauto. Qed.

Lemma timeout_behaves {L St A} `{Has timer_sig L} m (h : handler L St) secs
  (fut : prog (stream_sig ⊕ L) A) st τ a st' :
  in_time h -> behaves m h fut st τ a st' -> behaves m h (timeout secs fut) st τ (InTime a) st'.
Proof.
  intros Ht Hb.
  induction Hb; cbn [timeout]; [constructor|..];
    (unfold call at 1, has_there; apply behaves_local; rewrite Ht; simpl);
    econstructor; eauto.
Qed.

Lemma with_stall_behaves {L St A} `{Has timer_sig L} m (h : handler L St) secs
  (fut : prog (stream_sig ⊕ L) (ares A)) st τ a st' :
  in_time h -> behaves m h fut st τ a st' -> behaves m h (with_stall secs fut) st τ a st'.
Proof.
  intros Ht Hb. unfold with_stall. destruct (secs =? 0)%N; [done|].
  apply (behaves_map m h (fun r => match r with InTime r => r | Elapsed => stalled secs end)
           _ _ _ (InTime a)).
  by apply timeout_behaves.
Qed.

(** The fuel of the write loop never runs out. *)
Lemma io_write_all_from_fuel {L} f1 f2 buf secs :
  length buf <= f1 -> length buf <= f2 ->
  write_all_from (L := L) f1 buf secs ≡ write_all_from f2 buf secs.
Proof.
  revert f2 buf. induction f1 as [|f1 IH]; intros [|f2] [|b buf] H1 H2;
    simpl in H1, H2; try lia; try reflexivity.
  cbn [write_all_from]. apply pbind_proper; [reflexivity|].
  intros [[k|e|]|]; try reflexivity.
  destruct (N.eqb_spec k 0); [reflexivity|].
  destruct (N.ltb_spec (nlen (b :: buf)) k); [reflexivity|].
  apply IH; rewrite length_drop; simpl length; lia.
Qed.

(** ** The frame functions only use the stream *)

Section StreamOnly.
Context {L : sig}.

Lemma io_write_all_idle_stream buf secs : stream_only (write_all_idle (L := L) buf secs).
Proof.
  unfold write_all_idle. destruct (secs =? 0)%N; [done|].
  generalize (length buf) as fuel. intros fuel.
  revert buf; induction fuel as [|fuel IH]; intros [|b buf]; simpl; try done.
  split; [done|]. intros [[n|e|]|]; try done.
  destruct (n =? 0)%N; [done|]. destruct (_ <? n)%N; [done|]. apply IH.
Qed.

Lemma io_read_exact_idle_stream n secs : stream_only (read_exact_idle (L := L) n secs).
Proof.
  unfold read_exact_idle. destruct (secs =? 0)%N; [done|].
  generalize (N.to_nat n) as fuel, (@nil byte) as acc.
  intros fuel; induction fuel as [|fuel IH]; intros acc; simpl;
    (destruct (nlen acc <? n)%N; simpl; [|done]); [done|].
  split; [done|]. intros [[bs|e|]|]; try done. destruct (nlen bs =? 0)%N; [done|]. apply IH.
Qed.

Lemma io_send_frame_stream `{Json Frame} f : stream_only (send_frame (L := L) f).
Proof.
  unfold send_frame. apply every_try; [by destruct (to_vec f)|]. intros body.
  destruct (FRAME_LIMIT <? nlen body)%N; [done|].
  apply every_try; [done|]. intros _. apply every_try; [done|]. done.
Qed.

Lemma io_recv_frame_stream `{Json Frame} : stream_only (recv_frame (L := L)).
Proof.
  unfold recv_frame. simpl. split; [done|]. intros [b|e|]; [|by case_decide|done].
  destruct (FRAME_LIMIT <? from_le_bytes b)%N; [done|].
  apply every_try; [done|]. intros buf. apply every_try; [by destruct (from_slice buf)|done].
Qed.

Lemma expect_frame_stream `{Json Frame} : stream_only (expect_frame (L := L)).
Proof. unfold expect_frame. apply every_try; [apply io_recv_frame_stream|done]. Qed.
End StreamOnly.

#[export] Hint Resolve io_write_all_idle_stream io_read_exact_idle_stream io_send_frame_stream
  io_recv_frame_stream expect_frame_stream : rb.
