(* ===== verification/Resume.v ===== *)
(** * The resume state of a receiver ([vendored-from-bore/transfer.rs])

    The runtime record the workers of a receiver share, each critical section of
    its mutex as a function, the methods of [ResumeShared] as programs over those
    sections and the file system, and the layout invariant of the state. *)

From stdpp Require Import list gmap.
From S2P Require Import Prelude Streams Json Wire Proto Text Paths Transfer Fs.

Definition RESUME_FLUSH_EVERY_CHUNKS : N := 8.

(** [dirty_paths] is a set ordered by path. *)
Record ResumeRuntime : Type := {
  state : ResumeState;
  dirty_paths : list string;
  pending_persist : N;             (* u64 *)
  fresh_chunks : gmap N N;         (* u32 counts *)
}.

Record ResumeShared : Type := {
  resume_transfer_id : string;
  state_file : string;
  resume_stage_root : string;
  resume_entries : gmap N ManifestEntry;
}.

Definition with_files (st : ResumeState) (fs : list FileResumeState) : ResumeState := {|
  state_protocol_version := state_protocol_version st;
  state_transfer_id := state_transfer_id st;
  state_manifest_hash := state_manifest_hash st;
  final_name := final_name st;
  files := fs;
|}.

(** The runtime a transfer starts with. *)
Definition new_runtime (st : ResumeState) : ResumeRuntime :=
  {| state := st; dirty_paths := []; pending_persist := 0; fresh_chunks := ∅ |}.

(** ** Sets of paths

    A [BTreeSet<PathBuf>] compares paths by their components. *)

Definition component_rank (c : component) : N * string :=
  match c with
  | RootDir => (0, "") | CurDir => (1, "") | ParentDir => (2, "") | Normal n => (3, n)
  end%N.

Definition component_ltb (a b : component) : bool :=
  let '(i, s) := component_rank a in
  let '(j, t) := component_rank b in
  (i <? j)%N || ((i =? j)%N && string_ltb s t).

Fixpoint path_ltb (p q : list component) : bool :=
  match p, q with
  | [], _ :: _ => true
  | a :: p', b :: q' => component_ltb a b || (bool_decide (a = b) && path_ltb p' q')
  | _, [] => false
  end.

Definition same_path (p q : string) : Prop := components p = components q.

(** [BTreeSet::insert]: an equal path already there stays. *)
Fixpoint insert_path (p : string) (ps : list string) : list string :=
  match ps with
  | [] => [p]
  | q :: ps' =>
      if decide (components p = components q) then ps
      else if path_ltb (components p) (components q) then p :: ps
      else q :: insert_path p ps'
  end.

(** ** The critical sections *)

Definition missing_entry (entry_id : N) : anyhow :=
  AnyMsg ("resume state missing entry " +:+ pretty entry_id).

(** [files.iter().find(..)]. *)
Fixpoint find_file (entry_id : N) (fs : list FileResumeState) : option FileResumeState :=
  match fs with
  | [] => None
  | f :: fs' => if (file_entry_id f =? entry_id)%N then Some f else find_file entry_id fs'
  end.

(** [files.iter_mut().find(..)], then an assignment through the reference. *)
Fixpoint update_file (entry_id : N) (g : list bool -> list bool) (fs : list FileResumeState) :
  list FileResumeState :=
  match fs with
  | [] => []
  | f :: fs' =>
      if (file_entry_id f =? entry_id)%N
      then {| file_entry_id := file_entry_id f; completed := g (completed f) |} :: fs'
      else f :: update_file entry_id g fs'
  end.

Section Sections.
Context (r : ResumeRuntime).

Definition is_chunk_complete_locked (entry_id chunk_index : N) : ares bool :=
  rbind (ok_or (find_file entry_id (files (state r))) (missing_entry entry_id)) (fun file =>
  Ok (default false (completed file !! N.to_nat chunk_index))).

Definition mark_locked (entry_id chunk_index : N) (path : string) : ares bool * ResumeRuntime :=
  match find_file entry_id (files (state r)) with
  | None => (Err (missing_entry entry_id), r)
  | Some file =>
      match completed file !! N.to_nat chunk_index with
      | None =>
          (Err (AnyMsg ("chunk " +:+ pretty chunk_index +:+ " is out of range for entry " +:+
                        pretty entry_id)), r)
      | Some _ =>
          let pending := add_u64 (pending_persist r) 1 in
          (Ok (RESUME_FLUSH_EVERY_CHUNKS <=? pending)%N,
           {| state := with_files (state r)
                (update_file entry_id <[N.to_nat chunk_index := true]> (files (state r)));
              dirty_paths := insert_path path (dirty_paths r);
              pending_persist := pending;
              fresh_chunks :=
                <[entry_id := as_u32 (default 0%N (fresh_chunks r !! entry_id) + 1)]> (fresh_chunks r) |})
      end
  end.

(** The snapshot [flush_pending] takes: nothing if nothing is pending. *)
Definition take_snapshot : option (ResumeState * list string) * ResumeRuntime :=
  match pending_persist r, dirty_paths r with
  | N0, [] => (None, r)
  | _, _ =>
      (Some (state r, dirty_paths r),
       {| state := state r; dirty_paths := []; pending_persist := 0; fresh_chunks := fresh_chunks r |})
  end.

Definition all_chunks_fresh_locked (entry_id chunk_count : N) : bool :=
  (chunk_count <=? default 0 (fresh_chunks r !! entry_id))%N.

Definition all_chunks_complete_locked (entry_id : N) : ares bool :=
  rbind (ok_or (find_file entry_id (files (state r))) (missing_entry entry_id)) (fun file =>
  Ok (forallb (fun done => done) (completed file))).

Definition reset_locked (entry_id : N) : ares ResumeState * ResumeRuntime :=
  match find_file entry_id (files (state r)) with
  | None => (Err (missing_entry entry_id), r)
  | Some _ =>
      let st := with_files (state r)
        (update_file entry_id (fmap (fun _ => false)) (files (state r))) in
      (Ok st, {| state := st; dirty_paths := dirty_paths r; pending_persist := 0;
                 fresh_chunks := fresh_chunks r |})
  end.
End Sections.

(** ** The methods

    The creation of the runtime, every critical section of its mutex, and the
    acquisition and the release of [persist_lock]. *)

Inductive resume_op : Type :=
| CreateRuntime (st : ResumeState)
| IsChunkComplete (entry_id chunk_index : N)
| Mark (entry_id chunk_index : N) (path : string)
| TakeSnapshot
| AllChunksFresh (entry_id chunk_count : N)
| AllChunksComplete (entry_id : N)
| Reset_ (entry_id : N)
| PersistLock
| PersistUnlock.

Definition resume_ans (o : resume_op) : Type :=
  match o with
  | IsChunkComplete _ _ | Mark _ _ _ | AllChunksComplete _ => ares bool
  | TakeSnapshot => option (ResumeState * list string)
  | AllChunksFresh _ _ => bool
  | Reset_ _ => ares ResumeState
  | CreateRuntime _ | PersistLock | PersistUnlock => unit
  end.

Definition resume_sig : sig := Sig resume_op resume_ans.

(** What a section answers and leaves; the lock does not touch the runtime. *)
Definition resume_handler : handler resume_sig ResumeRuntime :=
  fun o r =>
    match o return resume_ans o * ResumeRuntime with
    | CreateRuntime st => (tt, new_runtime st)
    | IsChunkComplete e c => (is_chunk_complete_locked r e c, r)
    | Mark e c p => mark_locked r e c p
    | TakeSnapshot => take_snapshot r
    | AllChunksFresh e n => (all_chunks_fresh_locked r e n, r)
    | AllChunksComplete e => (all_chunks_complete_locked r e, r)
    | Reset_ e => reset_locked r e
    | PersistLock | PersistUnlock => (tt, r)
    end.

Section Methods.
Context {T : sig} `{Has fs_sig T} `{Has resume_sig T} `{Json ResumeState}.

Definition resume (o : resume_op) : prog T (resume_ans o) := call (S := resume_sig) o.

Definition persist_resume_state (path : string) (st : ResumeState) : prog T (ares unit) :=
  write_json_atomic path st.

Definition load_resume_state (path : string) : prog T (ares ResumeState) := read_json path.

Definition is_chunk_complete (entry_id chunk_index : N) : prog T (ares bool) :=
  resume (IsChunkComplete entry_id chunk_index).

(** The guard of [persist_lock] is released whichever way the body ends. *)
Definition with_persist_lock {A} (body : prog T (ares A)) : prog T (ares A) :=
  let! _ := resume PersistLock in
  let! r := body in
  let! _ := resume PersistUnlock in
  Ret r.

Definition flush_snapshot (self : ResumeShared) (snapshot : option (ResumeState * list string)) :
  prog T (ares unit) :=
  match snapshot with
  | Some (st, paths) =>
      let? _ := sync_staged_files paths in
      persist_resume_state (state_file self) st
  | None => Ret (Ok tt)
  end.

Definition flush_pending (self : ResumeShared) : prog T (ares unit) :=
  with_persist_lock (pbind (resume TakeSnapshot) (flush_snapshot self)).

Definition mark_chunk_complete (self : ResumeShared) (entry_id chunk_index : N) (path : string) :
  prog T (ares unit) :=
  let? should_flush := resume (Mark entry_id chunk_index path) in
  if should_flush : bool then flush_pending self else Ret (Ok tt).

Definition all_chunks_fresh (entry_id chunk_count : N) : prog T bool :=
  resume (AllChunksFresh entry_id chunk_count).

Definition all_chunks_complete (entry_id : N) : prog T (ares bool) :=
  resume (AllChunksComplete entry_id).

Definition reset_file (self : ResumeShared) (entry_id : N) : prog T (ares unit) :=
  with_persist_lock
    (let? st := resume (Reset_ entry_id) in persist_resume_state (state_file self) st).
End Methods.
