(* ===== verification/Workers.v ===== *)
(** * The data streams of a transfer ([vendored-from-bore/transfer.rs])

    Both ends of a worker's stream, the dispatch of the workers, and the stream
    of a transfer from standard input.  The shared queue of tasks, the counter of
    chunks sent, the spawned tasks and the local connection are operations. *)

From stdpp Require Import list gmap.
From S2P Require Import Prelude Streams Json Wire Proto Text Paths Transfer.
From S2P Require Import Fs Tracker Frames Resume.

(** ** Operations the two sides share with other tasks *)

(** The sender's queue and its counter ([sent.fetch_add(1) + 1]). *)
Inductive queue_op : Type := PopTask | CountSent.
Definition queue_sig : sig :=
  Sig queue_op (fun o => match o with PopTask => option ChunkTask | CountSent => N end).

(** The local TCP connection. *)
Inductive dial_op : Type := TcpConnect | SleepDelay.
Definition dial_sig : sig :=
  Sig dial_op (fun o => match o with TcpConnect => result io_error unit | SleepDelay => unit end).

(** A [JoinSet] of workers: a worker is spawned (the receiver's on the stream it
    accepted); the next one to end answers, with the error of the join itself
    ([inl]) or what the task returned. *)
Inductive join_op : Type := Spawn | JoinNext.
Definition join_sig : sig :=
  Sig join_op (fun o => match o with Spawn => unit | JoinNext => option (string + ares unit) end).

(** [accept_worker_stream]'s three futures: which one is ready first. *)
Inductive accept_event : Type :=
| Incoming (accepted : bool)                 (* [recv()]: a stream, or the channel is closed *)
| ControlPeek (r : result io_error N)        (* [peek] on the control stream *)
| IdleElapsed.

Inductive accept_op : Type := SelectWorker (idle : option N).
Definition accept_sig : sig := Sig accept_op (fun _ => accept_event).

Inductive stdin_op : Type := ReadStdin (n : N).
Definition stdin_sig : sig := Sig stdin_op (fun _ => result io_error bytes).

Section Common.
Context {T : sig} `{Has tracker_sig T}.

Definition track (o : tracker_op) : prog T unit := call (S := tracker_sig) o.
End Common.

(** [HashMap::get_mut], or else open the file and insert its handle. *)
Definition cached {T K} `{Countable K} (cache : gmap K handle) (key : K)
  (open : prog T (ares handle)) : prog T (ares (handle * gmap K handle)) :=
  match cache !! key with
  | Some f => Ret (Ok (f, cache))
  | None => let? f := open in Ret (Ok (f, <[key := f]> cache))
  end.

Section Join.
Context {T : sig} `{Has join_sig T}.

(** [while let Some(joined) = joins.join_next().await], on both sides: one turn for
    each worker spawned. *)
Fixpoint join_workers (fuel : nat) : prog T (ares unit) :=
  match fuel with
  | O => Ret (Err Unfinished)
  | S fuel' =>
      let! joined := call (S := join_sig) JoinNext in
      match joined with
      | None => Ret (Ok tt)
      | Some (inl e) => Ret (Err (AnyContext "worker join failed" (AnyMsg e)))
      | Some (inr (Ok _)) => join_workers fuel'
      | Some (inr r) => Ret r
      end
  end.

End Join.

(** ** The receiving end *)

Section Receiver.
Context {L : sig} `{Has timer_sig L} `{Has fs_sig L} `{Has resume_sig L} `{Has tracker_sig L}.
Context `{Json Frame} `{Json ResumeState} `{Blake3} `{Hex} `{FrameText}.

Abbreviation net := (stream_sig ⊕ L).

Definition write_only : open_options :=
  {| o_read := false; o_write := true; o_create := false; o_truncate := false |}.

(** [if !resume.is_chunk_complete(..) { .. }]. *)
Definition store_chunk (self : ResumeShared) (entry : ManifestEntry)
  (entry_id chunk_index offset : N) (payload : bytes) (cache : gmap N handle) :
  prog net (ares (gmap N handle)) :=
  let? done := is_chunk_complete entry_id chunk_index in
  if done : bool then Ret (Ok cache)
  else
    let? path := Ret (stage_path (resume_stage_root self) (rel_path entry)) in
    let? (file, cache) := cached cache entry_id
      (fs_ctx ("failed to open staged file " +:+ to_string_lossy path) (FsOpen write_only path)) in
    let? _ := fs_q (FsSeek file offset) in
    let? _ := fs_q (FsWriteAll file payload) in
    let? _ := mark_chunk_complete self entry_id chunk_index path in
    Ret (Ok cache).

(** What follows a [ChunkStart]. *)
Definition receive_chunk (self : ResumeShared) (stall_timeout : N)
  (entry_id chunk_index offset len : N) (blake3 : string) (cache : gmap N handle) :
  prog net (ares (gmap N handle)) :=
  let? entry := Ret (anyhow_context (resume_entries self !! entry_id)
                       ("unknown entry id " +:+ pretty entry_id)) in
  if negb (is_regular_file (kind entry)) then
    Ret (Err (AnyMsg "chunk data is only valid for regular files"))
  else
    let? _ := Ret (validate_chunk_geometry entry chunk_index offset len) in
    let? payload := read_exact_idle len stall_timeout in
    if negb (String.eqb (blake3_hash_hex payload) blake3) then
      Ret (Err (AnyMsg ("chunk hash mismatch for " +:+ display_rel_path (rel_path entry) +:+
                        " chunk " +:+ pretty chunk_index)))
    else
      let? cache := store_chunk self entry entry_id chunk_index offset payload cache in
      let! _ := (if (chunk_index =? 0)%N then track AddFile else Ret tt) in
      let! _ := (if negb (String.eqb (rel_path entry) "")
                 then track (SetCurrent (display_rel_path (rel_path entry))) else Ret tt) in
      let! _ := track (AddBytes len) in
      Ret (Ok cache).

(** The [loop] lasts as long as the sender sends frames: [fuel] bounds them. *)
Fixpoint worker_loop (fuel : nat) (self : ResumeShared) (stall_timeout : N)
  (cache : gmap N handle) : prog net (ares unit) :=
  match fuel with
  | O => Ret (Err Unfinished)
  | S fuel' =>
      let? frame := with_stall stall_timeout recv_frame in
      match frame with
      | Some (ChunkStart entry_id chunk_index offset len blake3) =>
          let? cache := receive_chunk self stall_timeout entry_id chunk_index offset len blake3 cache in
          worker_loop fuel' self stall_timeout cache
      | Some WorkerDone =>
          let? _ := flush_pending self in
          send_frame WorkerComplete
      | Some (ErrorFrame message) => Ret (Err (AnyMsg ("sender worker aborted: " +:+ message)))
      | Some other => Ret (Err (AnyMsg ("unexpected worker frame: " +:+ frame_debug other)))
      | None => Ret (Err (AnyMsg "data stream closed before WorkerDone (sender interrupted?)"))
      end
  end.

(** What [handle_worker_connection] does once the loop has ended. *)
Definition worker_end (self : ResumeShared) (worker_result : ares unit) : prog net (ares unit) :=
  match worker_result with
  | Panicked => Ret Panicked
  | _ =>
      let! flush_result := flush_pending self in
      let! _ := match worker_result with
                | Err err =>
                    let! _ := send_frame (ErrorFrame (any_display err)) in Ret tt
                | _ => Ret tt
                end in
      let! _ := track WorkerFinished in
      Ret (rbind flush_result (fun _ => worker_result))
  end.

Definition handle_worker_connection (fuel : nat) (self : ResumeShared) (stall_timeout : N) :
  prog net (ares unit) :=
  let? hello := with_stall stall_timeout expect_frame in
  match hello with
  | WorkerHello transfer_id =>
      if negb (String.eqb transfer_id (resume_transfer_id self)) then
        Ret (Err (AnyMsg ("worker connected for unexpected transfer id " +:+ transfer_id)))
      else
        let! _ := track WorkerStarted in
        let! worker_result := worker_loop fuel self stall_timeout ∅ in
        worker_end self worker_result
  | other => Ret (Err (AnyMsg ("unexpected first worker frame: " +:+ frame_debug other)))
  end.
End Receiver.

Section Accepting.
Context {L : sig} `{Has timer_sig L} `{Has join_sig L} `{Has accept_sig L}.
Context `{Json Frame} `{FrameText}.

Abbreviation net := (stream_sig ⊕ L).

Definition control_disconnected (r : result io_error N) : ares unit :=
  match r with
  | Ok n =>
      if (n =? 0)%N then Err (AnyMsg "sender disconnected before all data streams connected")
      else Err (AnyMsg "unexpected control data before all data streams connected")
  | Err e =>
      Err (AnyContext "control connection failed while waiting for data streams" (AnyIo e))
  | Panicked => Panicked
  end.

Definition accept_worker_stream (stall_timeout : N) : prog net (ares unit) :=
  let idle := N.max stall_timeout 1 in
  let! event := call (S := accept_sig)
    (SelectWorker (if (0 <? stall_timeout)%N then Some idle else None)) in
  Ret (match event with
       | Incoming true => Ok tt
       | Incoming false => Err (AnyMsg "worker channel closed before all data streams connected")
       | ControlPeek r => control_disconnected r
       | IdleElapsed =>
           Err (AnyMsg ("timed out after " +:+ pretty stall_timeout +:+
                        "s waiting for the sender's data streams"))
       end).

(** [for connected in 0..expected_workers]: [left] workers from [connected]. *)
Fixpoint accept_workers (left : nat) (connected expected stall_timeout : N) :
  prog net (ares unit) :=
  match left with
  | O => Ret (Ok tt)
  | S left' =>
      let! r := accept_worker_stream stall_timeout in
      match r with
      | Ok _ =>
          let! _ := call (S := join_sig) Spawn in
          accept_workers left' (connected + 1) expected stall_timeout
      | Err e =>
          Ret (Err (AnyContext ("only " +:+ pretty connected +:+ " of " +:+ pretty expected +:+
                                " data streams connected") e))
      | Panicked => Ret Panicked
      end
  end.

Definition receive_filesystem_streams (resume : option ResumeShared)
  (begin : BeginFrame) (entries : list ManifestEntry) (resume_plan : list ResumeFilePlan)
  (stall_timeout : N) : prog net (ares TransferSummary) :=
  let? _ := Ret (anyhow_context resume "filesystem transfer is missing resume state") in
  let expected := expected_worker_connections begin entries resume_plan in
  let? _ := accept_workers (N.to_nat expected) 0 expected stall_timeout in
  let? _ := join_workers (S (N.to_nat expected)) in
  with_stall stall_timeout
    (let? frame := expect_frame in
     Ret (match frame with
          | SummaryFrame summary => Ok summary
          | other =>
              Err (AnyMsg ("unexpected control frame while waiting for transfer summary: " +:+
                           frame_debug other))
          end)).
End Accepting.

(** ** The sending end *)

Definition LOCAL_CONNECT_RETRIES : nat := 50.

Section Connect.
Context {T : sig} `{Has dial_sig T}.

Fixpoint connect_retry (left : nat) (last_err : option io_error) : prog T (ares unit) :=
  match left with
  | O =>
      Ret (Err (match last_err with
                | Some e => AnyIo e
                | None => AnyMsg "failed to connect local transfer socket"
                end))
  | S left' =>
      let! r := call (S := dial_sig) TcpConnect in
      match r with
      | Ok _ => Ret (Ok tt)
      | Err e => let! _ := call (S := dial_sig) SleepDelay in connect_retry left' (Some e)
      | Panicked => Ret Panicked
      end
  end.

Definition connect_local : prog T (ares unit) := connect_retry LOCAL_CONNECT_RETRIES None.
End Connect.

Section Sender.
Context {L : sig} `{Has timer_sig L} `{Has fs_sig L} `{Has queue_sig L} `{Has tracker_sig L}.
Context `{Has dial_sig L}.
Context `{Json Frame} `{Blake3} `{Hex} `{FrameText}.

Abbreviation net := (stream_sig ⊕ L).

(** The chunk of a task, from the sender's file. *)
Definition read_chunk (task : ChunkTask) (cache : gmap (list component) handle) :
  prog net (ares (bytes * gmap (list component) handle)) :=
  let? (file, cache) := cached cache (components (task_path task))
    (fs_ctx ("failed to open source file " +:+ to_string_lossy (task_path task))
       (FsOpen read_only (task_path task))) in
  let? _ := fs_q (FsSeek file (task_offset task)) in
  let? buf := (fs_q (FsReadExact file (task_len task)) : prog net (ares bytes)) in
  Ret (Ok (buf, cache)).

(** One turn of the sending loop, [Some] when it goes on. *)
Definition send_chunk (task : ChunkTask) (injected_limit : option N) (stall_timeout : N)
  (cache : gmap (list component) handle) : prog net (ares (gmap (list component) handle)) :=
  let! _ := (if (task_chunk_index task =? 0)%N then track AddFile else Ret tt) in
  let! _ := (if negb (String.eqb (task_rel_path task) "")
             then track (SetCurrent (display_rel_path (task_rel_path task))) else Ret tt) in
  let? (chunk, cache) := read_chunk task cache in
  let digest := blake3_hash_hex chunk in
  let? _ := send_frame (ChunkStart (task_entry_id task) (task_chunk_index task)
                          (task_offset task) (task_len task) digest) in
  let? _ := write_all_idle chunk stall_timeout in
  let! _ := track (AddBytes (task_len task)) in
  let! count := call (S := queue_sig) CountSent in
  Ret (match injected_limit with
       | Some limit =>
           if (limit <=? count)%N then
             Err (AnyMsg ("forced transfer interruption after " +:+ pretty limit +:+ " chunks sent"))
           else Ok cache
       | None => Ok cache
       end).

(** The [loop] ends when the queue is empty; [fuel] bounds its turns. *)
Fixpoint send_loop (fuel : nat) (injected_limit : option N) (stall_timeout : N)
  (cache : gmap (list component) handle) : prog net (ares unit) :=
  match fuel with
  | O => Ret (Err Unfinished)
  | S fuel' =>
      let! task := call (S := queue_sig) PopTask in
      match task with
      | None => send_frame WorkerDone
      | Some task =>
          let? cache := send_chunk task injected_limit stall_timeout cache in
          send_loop fuel' injected_limit stall_timeout cache
      end
  end.

(** The frame the receiver's worker ends with. *)
Definition terminal_frame (stall_timeout : N) : prog net (ares unit) :=
  let? frame := with_stall stall_timeout expect_frame in
  Ret (match frame with
       | WorkerComplete => Ok tt
       | ErrorFrame message => Err (AnyMsg ("receiver worker reported error: " +:+ message))
       | other => Err (AnyMsg ("unexpected terminal worker frame: " +:+ frame_debug other))
       end).

(** The task [send_chunked_files] spawns. *)
Definition sender_worker (fuel : nat) (transfer_id : string) (injected_limit : option N)
  (stall_timeout : N) : prog net (ares unit) :=
  let? _ := connect_local in
  let? _ := send_frame (WorkerHello transfer_id) in
  let! _ := track WorkerStarted in
  let! worker_result := send_loop fuel injected_limit stall_timeout ∅ in
  match worker_result with
  | Ok _ =>
      let! terminal := terminal_frame stall_timeout in
      let! _ := track WorkerFinished in
      Ret terminal
  | Err _ => let! _ := track WorkerFinished in Ret worker_result
  | Panicked => Ret Panicked
  end.
End Sender.

Section Dispatch.
Context {T : sig} `{Has join_sig T}.

Fixpoint spawn_workers (n : nat) : prog T unit :=
  match n with
  | O => Ret tt
  | S n' => let! _ := call (S := join_sig) Spawn in spawn_workers n'
  end.

(** The spawned tasks are [sender_worker]s that share a queue of the [tasks]. *)
Definition send_chunked_files (parallel : N) : prog T (ares unit) :=
  let workers := N.to_nat (clamp parallel 1 MAX_PARALLEL) in
  let! _ := spawn_workers workers in
  join_workers (S workers).
End Dispatch.

(** ** Transfers from standard input *)

Section StdinSender.
Context {L : sig} `{Has tracker_sig L} `{Has stdin_sig L}.
Context `{Json Frame} `{Json TransferRecord} `{Blake3} `{FrameText}.

Abbreviation net := (stream_sig ⊕ L).

(** The loop ends with standard input; [fuel] bounds its turns.  The result is
    the count and what the hasher was fed. *)
Fixpoint pump_stdin (fuel : nat) (stall_timeout total : N) (hasher : bytes) :
  prog net (ares (N * bytes)) :=
  match fuel with
  | O => Ret (Err Unfinished)
  | S fuel' =>
      let! r := call (S := stdin_sig) (ReadStdin COPY_BUFFER) in
      match r with
      | Err e => Ret (Err (AnyContext "failed to read stdin" (AnyIo e)))
      | Panicked => Ret Panicked
      | Ok [] => Ret (Ok (total, hasher))
      | Ok buf =>
          let? _ := send_frame (StreamChunk (as_u32 (nlen buf))) in
          let? _ := write_all_idle buf stall_timeout in
          let! _ := track (AddBytes (nlen buf)) in
          pump_stdin fuel' stall_timeout (add_u64 total (nlen buf)) (hasher ++ buf)
      end
  end.

(** [ManifestEntry { size: Some(..), full_hash: Some(..), ..entry }]. *)
Definition materialized (entry : ManifestEntry) (size : N) (hash : string) : ManifestEntry := {|
  id := id entry; rel_path := rel_path entry; kind := kind entry; size := Some size;
  full_hash := Some hash; chunk_count := chunk_count entry;
  symlink_target := symlink_target entry; device := device entry; mode := mode entry;
|}.

Definition send_stdin_stream (fuel : nat) (entries : list PlannedEntry) (stall_timeout : N) :
  prog net (ares TransferSummary) :=
  let? entry := Ret (anyhow_context (head entries) "stdin transfer is missing its manifest entry") in
  let! _ := track (SetCurrent "stdin") in
  let? (total, hasher) := pump_stdin fuel stall_timeout 0 [] in
  let digest := blake3_hash_hex hasher in
  let? _ := send_frame (StreamEnd total digest) in
  let? frame := expect_frame in
  let? _ := Ret (match frame with
                 | StreamVerified size blake3 =>
                     if negb (size =? total)%N || negb (String.eqb blake3 digest) then
                       Err (AnyMsg "receiver did not verify the same stdin stream")
                     else Ok tt
                 | other =>
                     Err (AnyMsg ("unexpected stdin verification frame: " +:+ frame_debug other))
                 end) in
  Ret (summary_from_materialized_entries [materialized (manifest entry) total digest]).
End StdinSender.

Section StdinReceiver.
Context {L : sig} `{Has timer_sig L} `{Has fs_sig L} `{Has tracker_sig L}.
Context `{Json Frame} `{Json TransferRecord} `{Blake3} `{Hex} `{FrameText}.

Abbreviation net := (stream_sig ⊕ L).

Definition create_file : open_options :=
  {| o_read := false; o_write := true; o_create := true; o_truncate := true |}.

(** What follows a [StreamEnd]. *)
Definition finish_stdin (entry : ManifestEntry) (path : string) (file : handle)
  (size total : N) (blake3 : string) (hasher : bytes) : prog net (ares TransferSummary) :=
  let? _ := fs_q (FsFlush file) in
  let? _ := fs_q (FsSyncAll file) in
  let? _ := set_file_mode path (mode entry) in
  let local := blake3_hash_hex hasher in
  if negb (size =? total)%N then Ret (Err (AnyMsg "stdin byte count mismatch"))
  else if negb (String.eqb blake3 local) then Ret (Err (AnyMsg "stdin stream hash mismatch"))
  else
    let? _ := send_frame (StreamVerified size local) in
    Ret (summary_from_materialized_entries [materialized entry size local]).

(** The loop ends with a [StreamEnd]; [fuel] bounds the frames. *)
Fixpoint drain_stdin (fuel : nat) (entry : ManifestEntry) (path : string) (file : handle)
  (stall_timeout total : N) (hasher : bytes) : prog net (ares TransferSummary) :=
  match fuel with
  | O => Ret (Err Unfinished)
  | S fuel' =>
      let? frame := with_stall stall_timeout expect_frame in
      match frame with
      | StreamChunk len =>
          if (len =? 0)%N || (STREAM_CHUNK_MAX <? len)%N then
            Ret (Err (AnyMsg ("stdin stream chunk length " +:+ pretty len +:+
                              " out of bounds (max " +:+ pretty STREAM_CHUNK_MAX +:+ ")")))
          else
            let? buf := read_exact_idle len stall_timeout in
            let? _ := fs_q (FsWriteAll file buf) in
            let! _ := track (AddBytes len) in
            drain_stdin fuel' entry path file stall_timeout (add_u64 total len) (hasher ++ buf)
      | StreamEnd size blake3 => finish_stdin entry path file size total blake3 hasher
      | other =>
          Ret (Err (AnyMsg ("unexpected frame in stdin stream: " +:+ frame_debug other)))
      end
  end.

Definition receive_stdin_stream (fuel : nat) (entries : list ManifestEntry)
  (stage_root : string) (stall_timeout : N) : prog net (ares TransferSummary) :=
  let? entry := Ret (anyhow_context (head entries)
                       "stdin receiver plan is missing its manifest entry") in
  let! _ := track (SetCurrent "stdin") in
  let? path := Ret (stage_path stage_root (rel_path entry)) in
  let? _ := match path_parent path with
            | Some parent => fs_q (FsCreateDirAll parent)
            | None => Ret (Ok tt)
            end in
  let? file := fs_ctx ("failed to create destination file " +:+ to_string_lossy path)
    (FsOpen create_file path) in
  drain_stdin fuel entry path file stall_timeout 0 [].
End StdinReceiver.
