(* ===== verification/Scan.v ===== *)
(** * What a sender sends ([vendored-from-bore/transfer.rs])

    From the sources named on the command line to the planned manifest: source
    lists, confirmation on the terminal, and the scan of the file system. *)

From Stdlib Require Import SpecFloat Strings.Ascii.
From stdpp Require Import list gmap sorting strings.
From S2P Require Import Prelude Streams Json Plan Wire Progress Module Proto Text Paths Transfer Fs.

Inductive SymlinkMode : Type := SymlinkInclude | SymlinkExclude.
Inductive DeviceMode : Type := DeviceExclude | DeviceInclude.

#[export] Instance SymlinkMode_eq_decision : EqDecision SymlinkMode.
Proof. solve_decision. Defined.
#[export] Instance DeviceMode_eq_decision : EqDecision DeviceMode.
Proof. solve_decision. Defined.

Inductive SenderSource : Type := SourceFilesystem (path : string) | SourceStdin.

Record PlannedTransfer : Type := {
  planned_transfer_id : string;
  planned_root_name : string;
  planned_root_source : RootSourceKind;
  planned_entries : list PlannedEntry;
  planned_total_bytes : option N;
  planned_parallel : N;          (* u16 *)
  planned_multi_source : bool;
}.

Definition parse_sender_source (source : string) : SenderSource :=
  if String.eqb source "stdin" && Nat.eqb (length (components source)) 1 then SourceStdin
  else SourceFilesystem source.

Definition is_stdin (source : string) : bool :=
  match parse_sender_source source with SourceStdin => true | _ => false end.

(** ** The terminal *)

Inductive term_op : Type :=
| Print (text : string)
| FlushStdout
| ConfirmResponse        (* the test seam's environment variable *)
| OpenTty
| ReadTtyLine
| StdinIsTerminal
| ReadStdinLine.

Definition term_sig : sig := Sig term_op (fun o =>
  match o with
  | Print _ => unit
  | FlushStdout | OpenTty => result io_error unit
  | ConfirmResponse => option string
  | ReadTtyLine | ReadStdinLine => result io_error string
  | StdinIsTerminal => bool
  end).

Definition newline : string := String (ascii_of_nat 10) "".

Definition f64_fixed2 (x : f64) : string :=
  match x with
  | S754_finite s m e =>
      let t := match e with
               | Zneg e => round_half_even (100 * Npos m) (2 ^ Npos e)
               | e => 100 * Npos m * 2 ^ Z.to_N e
               end%N in
      (if s then "-" else "") +:+ pretty (t / 100)%N +:+ "." +:+
      (if (t mod 100 <? 10)%N then "0" else "") +:+ pretty (t mod 100)%N
  | S754_zero s => if s then "-0.00" else "0.00"
  | S754_infinity s => if s then "-inf" else "inf"
  | S754_nan => "NaN"
  end.

Definition format_bytes (bytes : N) : string :=
  if (bytes <? 1024)%N then pretty bytes +:+ " B"
  else if (bytes <? 1024 * 1024)%N then
    f64_fixed1 (f64_div (f64_of_N bytes) (f64_of_N 1024)) +:+ " KB"
  else if (bytes <? 1024 * 1024 * 1024)%N then
    f64_fixed1 (f64_div (f64_of_N bytes) (f64_of_N (1024 * 1024))) +:+ " MB"
  else f64_fixed2 (f64_div (f64_of_N bytes) (f64_of_N (1024 * 1024 * 1024))) +:+ " GB".

(** [input.trim().eq_ignore_ascii_case("y")]. *)
Definition says_yes (input : string) : bool := String.eqb (to_ascii_lowercase (trim input)) "y".

Section Terminal.
Context {T : sig} `{Has term_sig T}.

Definition term (o : op term_sig) : prog T (resp o) := call (S := term_sig) o.
Definition println (text : string) : prog T unit := term (Print (text +:+ newline)).

Definition read_confirmation_line : prog T (ares string) :=
  let! seam := term ConfirmResponse in
  match seam with
  | Some val => Ret (Ok (val +:+ newline))
  | None =>
      let! tty := term OpenTty in
      match tty with
      | Ok _ =>
          let! r := term ReadTtyLine in
          Ret (map_err (fun e => AnyContext "failed to read confirmation from /dev/tty" (AnyIo e)) r)
      | _ =>
          let! terminal := term StdinIsTerminal in
          if negb terminal then
            Ret (Err (AnyMsg "--ask-confirm requires an interactive terminal; stdin is not a tty and /dev/tty is unavailable"))
          else
            let! r := term ReadStdinLine in
            Ret (map_err (fun e => AnyContext "failed to read confirmation" (AnyIo e)) r)
      end
  end.

(** The question both confirmations end with. *)
Definition ask (prompt : string) : prog T (ares bool) :=
  let! _ := term (Print prompt) in
  let! r := term FlushStdout in
  let? _ := Ret (map_err (fun e => AnyContext "failed to flush stdout" (AnyIo e)) r) in
  let? input := read_confirmation_line in
  Ret (Ok (says_yes input)).

Definition top_level (e : ManifestEntry) : bool :=
  negb (String.eqb (rel_path e) "") && free "/"%char (rel_path e).

(** [DIR]: the sizes of the regular files under the entry, added up. *)
Definition size_under (entries : list ManifestEntry) (dir : string) : N :=
  foldl (fun n e =>
    if is_regular_file (kind e) && bool_decide (is_Some (strip_prefix (dir +:+ "/") (rel_path e)))
    then match size e with Some s => add_u64 n s | None => n end else n) 0%N entries.

Fixpoint print_top (all entries : list ManifestEntry) : prog T unit :=
  match entries with
  | [] => Ret tt
  | entry :: entries' =>
      let! _ :=
        (if negb (top_level entry) then Ret tt
         else
           let name := display_component (rel_path entry) in
           println (match kind entry with
             | Directory => "  DIR  " +:+ name +:+ " (" +:+ format_bytes (size_under all (rel_path entry)) +:+ ")"
             | RegularFile => "  FILE " +:+ name +:+ " (" +:+ format_bytes (default 0%N (size entry)) +:+ ")"
             | _ => "  OTHER " +:+ name
             end)) in
      print_top all entries'
  end.

Definition print_root (begin : BeginFrame) (entries : list ManifestEntry) : prog T unit :=
  let name := display_component (root_name begin) in
  let total := " (" +:+ format_bytes (default 0%N (begin_total_bytes begin)) +:+ ")" in
  println (match kind <$> head entries with
    | Some Directory => "  DIR  " +:+ name +:+ total
    | Some RegularFile => "  FILE " +:+ name +:+ total
    | _ => "  " +:+ name +:+ total
    end).

Definition display_and_confirm_manifest_sync (begin : BeginFrame) (entries : list ManifestEntry)
  (dest_root : string) (ask_confirm : bool) : prog T (ares bool) :=
  let! _ := println ("Incoming transfer " +:+ transfer_id begin +:+ ":") in
  match root_source begin with
  | Stdin =>
      let! _ := println ("  STDIN  " +:+ display_component (root_name begin) +:+
                         "  (size unknown until transfer completes)") in
      let! _ := (if ask_confirm then
        println "[listener] --ask-confirm is ignored for stdin transfers; proceeding automatically."
        else Ret tt) in
      Ret (Ok true)
  | Filesystem =>
      let! _ := (if multi_source begin then print_top entries entries else print_root begin entries) in
      let regular_count := nlen (filter (fun e => is_regular_file (kind e) = true) entries) in
      let! _ := println ("  " +:+ pretty regular_count +:+ " file(s), " +:+
        format_bytes (default 0%N (begin_total_bytes begin)) +:+ "  →  " +:+ to_string_lossy dest_root) in
      if negb ask_confirm then Ret (Ok true) else ask "Accept transfer? [y/N] "
  end.
End Terminal.

(** ** Directories *)

Section Directories.
Context {T : sig} `{Has fs_sig T}.

(** [collect::<Result<Vec<_>, _>>()]: up to the first error. *)
Fixpoint collect_names (fuel : nat) (dir : handle) (acc : list string) :
  prog T (ares (list string)) :=
  match fuel with
  | O => Ret (Err Unfinished)
  | S fuel' =>
      let? name := fs_q (FsNextEntry dir) in
      match name with
      | Some n => collect_names fuel' dir (acc ++ [n])
      | None => Ret (Ok acc)
      end
  end.

(** [flatten()]: errors are skipped. *)
Fixpoint flatten_names (fuel : nat) (dir : handle) (acc : list string) : prog T (list string) :=
  match fuel with
  | O => Ret acc
  | S fuel' =>
      let! name := fs (FsNextEntry dir) in
      match name with
      | Ok (Some n) => flatten_names fuel' dir (acc ++ [n])
      | Ok None => Ret acc
      | _ => flatten_names fuel' dir acc
      end
  end.

(** The entries of one directory: the queue and the sum after them. *)
Fixpoint add_sizes (dir : string) (names : list string) (queue : list string) (total : N) :
  prog T (list string * N) :=
  match names with
  | [] => Ret (queue, total)
  | n :: names' =>
      let p := push dir n in
      let! m := fs (FsSymlinkMetadata p) in
      match m with
      | Ok m =>
          if is_dir m then add_sizes dir names' (p :: queue) total
          else if is_file m then add_sizes dir names' queue (add_u64 total (meta_len m))
          else add_sizes dir names' queue total
      | _ => add_sizes dir names' queue total
      end
  end.

(** [while let Some(dir) = queue.pop()]: the head of [queue] is the vector's end. *)
Fixpoint dir_size (fuel : nat) (queue : list string) (total : N) : prog T N :=
  match fuel, queue with
  | S fuel', dir :: queue' =>
      let! d := fs (FsReadDir dir) in
      match d with
      | Ok d =>
          let! names := flatten_names fuel' d [] in
          let! (queue'', total') := add_sizes dir names queue' total in
          dir_size fuel' queue'' total'
      | _ => dir_size fuel' queue' total
      end
  | _, _ => Ret total
  end.

Definition compute_dir_size_sync (fuel : nat) (path : string) : prog T N :=
  dir_size fuel [path] 0.

(** [content.lines()] and the filters on each line. *)
Fixpoint split_lines (s : string) : list string :=
  match s with
  | EmptyString => []
  | String a s' =>
      if Ascii.eqb a (ascii_of_nat 10) then "" :: split_lines s'
      else match split_lines s' with
           | x :: xs => String a x :: xs
           | [] => [String a ""]
           end
  end.

Definition source_lines (content : string) : list string :=
  omap (fun line =>
    if negb (free "#"%char line) then None
    else if String.eqb (trim line) "" then None else Some (trim line)) (split_lines content).

(** [read_to_string]: bytes that are no UTF-8 are an error. *)
Fixpoint read_source_files (files : list string) : prog T (ares (list string)) :=
  match files with
  | [] => Ret (Ok [])
  | file :: files' =>
      let msg := "failed to read source list file " +:+ to_string_lossy file in
      let? data := fs_ctx msg (FsRead file) in
      let content := String.string_of_list_byte data in
      if negb (valid_utf8 content) then
        Ret (Err (AnyContext msg (AnyIo (IoError (OtherKind "InvalidData") "stream did not contain valid UTF-8"))))
      else
        let? rest := read_source_files files' in
        Ret (Ok (source_lines content ++ rest))
  end.
End Directories.

Section Confirm.
Context {T : sig} `{Has fs_sig T} `{Has term_sig T}.

Fixpoint print_sources (fuel : nat) (sources : list string) : prog T (ares unit) :=
  match sources with
  | [] => Ret (Ok tt)
  | source :: sources' =>
      if is_stdin source then
        let! _ := println "  STDIN (stream)" in
        print_sources fuel sources'
      else
        let? meta := fs_ctx ("failed to stat " +:+ to_string_lossy source) (FsSymlinkMetadata source) in
        let! _ :=
          (if is_dir meta then
             let! size := compute_dir_size_sync fuel source in
             println ("  DIR  " +:+ to_string_lossy source +:+ " (" +:+ format_bytes size +:+ ")")
           else if is_file meta then
             println ("  FILE " +:+ to_string_lossy source +:+ " (" +:+ format_bytes (meta_len meta) +:+ ")")
           else println ("  OTHER " +:+ to_string_lossy source)) in
        print_sources fuel sources'
  end.

Definition confirm_sources_sync (fuel : nat) (sources : list string) (ask_confirm : bool) :
  prog T (ares bool) :=
  let! _ := println "Sources to be transferred:" in
  let? _ := print_sources fuel sources in
  if negb ask_confirm then Ret (Ok true) else ask "Proceed? [y/N] ".
End Confirm.

(** ** The scan *)

(** What the scan has gathered: [entries], [total_bytes], [next_id]. *)
Record scanned : Type := {
  scan_entries : list PlannedEntry;
  scan_total : N;                (* u64 *)
  scan_next : N;                 (* u32 *)
}.

Definition blank_entry (id : N) (rel_path : string) (kind : EntryKind) (mode : option N) :
  ManifestEntry := {|
  id := id; rel_path := rel_path; kind := kind; size := None; full_hash := None;
  chunk_count := 0; symlink_target := None; device := None; mode := mode;
|}.

Definition push_entry (st : scanned) (m : ManifestEntry) (source : option string) : scanned := {|
  scan_entries := scan_entries st ++ [{| manifest := m; source_path := source |}];
  scan_total := scan_total st;
  scan_next := scan_next st;
|}.

Definition checked_add (max a b : N) : option N :=
  if (a + b <=? max)%N then Some (a + b)%N else None.

(** The path of a child relative to the root of the scan. *)
Definition child_path (rel name : string) : string :=
  if String.eqb rel "" then name else push rel name.

Section Scanning.
Context {T : sig} `{Has fs_sig T} `{Hex} `{Blake3} `{Libc}.
Context (symlinks : SymlinkMode) (devices : DeviceMode) (fuel : nat).

(** One entry that is not a directory; [st] has its id counted already. *)
Definition scan_leaf (source rel rel_string : string) (id : N) (meta : Metadata) (st : scanned) :
  prog T (ares scanned) :=
  let is_root := String.eqb rel "" in
  let mode := file_mode meta in
  match meta_type meta with
  | FtFile =>
      let size := meta_len meta in
      let? full_hash := hash_file_sync fuel source in
      let? total := Ret (anyhow_context (checked_add u64_max (scan_total st) size) "transfer size overflow") in
      Ret (Ok (push_entry
        {| scan_entries := scan_entries st; scan_total := total; scan_next := scan_next st |}
        {| id := id; rel_path := rel_string; kind := RegularFile; size := Some size;
           full_hash := Some full_hash; chunk_count := chunk_count_for size;
           symlink_target := None; device := None; mode := mode |} (Some source)))
  | FtSymlink =>
      if decide (symlinks = SymlinkExclude) then
        Ret (if is_root then
               Err (AnyMsg ("source " +:+ to_string_lossy source +:+ " is a symlink but --symlinks=exclude"))
             else Ok st)
      else
        let? target := fs_ctx ("failed to read symlink " +:+ to_string_lossy source) (FsReadLink source) in
        Ret (Ok (push_entry st
          {| id := id; rel_path := rel_string; kind := Symlink; size := None; full_hash := None;
             chunk_count := 0; symlink_target := Some (encode_native_path target);
             device := None; mode := mode |} None))
  | FtCharDevice | FtBlockDevice =>
      if decide (devices = DeviceExclude) then
        Ret (if is_root then
               Err (AnyMsg ("source " +:+ to_string_lossy source +:+ " is a device but --devices=exclude"))
             else Ok st)
      else
        Ret (Ok (push_entry st
          {| id := id; rel_path := rel_string;
             kind := if decide (meta_type meta = FtCharDevice) then CharDevice else BlockDevice;
             size := None; full_hash := None; chunk_count := 0; symlink_target := None;
             device := Some {| major := device_major (meta_rdev meta);
                               minor := device_minor (meta_rdev meta) |};
             mode := mode |} None))
  | FtDir | FtOther => Ret (Err (AnyMsg ("unsupported special file " +:+ to_string_lossy source)))
  end.

(** The recursion is as deep as the tree: [depth]; [fuel] bounds the entries of a
    directory and the reads of a file. *)
Fixpoint scan_entry (depth : nat) (source rel : string) (st : scanned) :
  prog T (ares scanned) :=
  match depth with
  | O => Ret (Err Unfinished)
  | S depth' =>
      let? meta := fs_ctx ("failed to stat " +:+ to_string_lossy source) (FsSymlinkMetadata source) in
      let? rel_string := Ret (encode_relative_path rel) in
      let id := scan_next st in
      let? next := Ret (anyhow_context (checked_add u32_max id 1) "too many manifest entries") in
      let st := {| scan_entries := scan_entries st; scan_total := scan_total st; scan_next := next |} in
      if is_dir meta then
        let st := push_entry st (blank_entry id rel_string Directory (file_mode meta)) None in
        let? dir := fs_ctx ("failed to read directory " +:+ to_string_lossy source) (FsReadDir source) in
        let! names := collect_names fuel dir [] in
        let? names := Ret (map_err (AnyContext ("failed to enumerate directory " +:+ to_string_lossy source)) names) in
        (fix scan_children (names : list string) (st : scanned) : prog T (ares scanned) :=
           match names with
           | [] => Ret (Ok st)
           | name :: names' =>
               let? st := scan_entry depth' (push source name) (child_path rel name) st in
               scan_children names' st
           end) (merge_sort string_le names) st
      else scan_leaf source rel rel_string id meta st
  end.

Definition scan_filesystem_transfer (depth : nat) (transfer_id source : string) (parallel : N) :
  prog T (ares PlannedTransfer) :=
  let? root_name := Ret (source_file_name_string source) in
  let? st := scan_entry depth source "" {| scan_entries := []; scan_total := 0; scan_next := 0 |} in
  match scan_entries st with
  | [] => Ret (Err (AnyMsg ("nothing to transfer from " +:+ to_string_lossy source)))
  | _ =>
      Ret (Ok {| planned_transfer_id := transfer_id; planned_root_name := root_name;
        planned_root_source := Filesystem; planned_entries := scan_entries st;
        planned_total_bytes := Some (scan_total st); planned_parallel := parallel;
        planned_multi_source := false |})
  end.

(** [for source in &sources]. *)
Fixpoint scan_sources (depth : nat) (sources : list string) (st : scanned) : prog T (ares scanned) :=
  match sources with
  | [] => Ret (Ok st)
  | source :: sources' =>
      let? name := Ret (anyhow_context (file_name source) (to_string_lossy source +:+ " has no file name")) in
      let? st := scan_entry depth source name st in
      scan_sources depth sources' st
  end.

(** [sources[0]] panics when there is none. *)
Definition multi_root (sources : list string) (output : option string) : ares (string * bool) :=
  match output with
  | Some out => rbind (encode_root_name out) (fun n => Ok (n, false))
  | None =>
      match sources with
      | source :: _ => rbind (source_file_name_string source) (fun n => Ok (n, true))
      | [] => Panicked
      end
  end.

Definition scan_multi_filesystem_transfer (depth : nat) (transfer_id : string)
  (sources : list string) (output : option string) (parallel : N) :
  prog T (ares PlannedTransfer) :=
  let? (root_name, multi_source) := Ret (multi_root sources output) in
  let? st := scan_sources depth sources
    {| scan_entries := [{| manifest := blank_entry 0 "" Directory None; source_path := None |}];
       scan_total := 0; scan_next := 1 |} in
  if (nlen (scan_entries st) <=? 1)%N then
    Ret (Err (AnyMsg "nothing to transfer from the specified sources"))
  else
    Ret (Ok {| planned_transfer_id := transfer_id; planned_root_name := root_name;
      planned_root_source := Filesystem; planned_entries := scan_entries st;
      planned_total_bytes := Some (scan_total st); planned_parallel := parallel;
      planned_multi_source := multi_source |}).

(** [options.parallel] with the number of processors, and [options.output]. *)
Definition plan_transfer (depth : nat) (available : option N) (transfer_id : string)
  (parallel : N) (output : option string) (all_sources : list string) :
  prog T (ares PlannedTransfer) :=
  let parallel := resolve_parallel available parallel in
  match all_sources with
  | [source] =>
      match parse_sender_source source with
      | SourceStdin =>
          let? out := Ret (anyhow_context output "--output is required when --source stdin") in
          let? root_name := Ret (encode_root_name out) in
          Ret (Ok {| planned_transfer_id := transfer_id; planned_root_name := root_name;
            planned_root_source := Stdin;
            planned_entries := [{| manifest := blank_entry 0 "" RegularFile None; source_path := None |}];
            planned_total_bytes := None; planned_parallel := 1; planned_multi_source := false |})
      | SourceFilesystem path => scan_filesystem_transfer depth transfer_id path parallel
      end
  | _ => scan_multi_filesystem_transfer depth transfer_id all_sources output parallel
  end.
End Scanning.

(** [run_sender] up to its plan: the sources of the command line and of the list
    files, checked and confirmed. *)
Definition gather_sources {T} `{Has fs_sig T} `{Has term_sig T} (fuel : nat)
  (sources source_files : list string) (ask_confirm : bool) : prog T (ares (list string)) :=
  let? extra := match source_files with
                | [] => Ret (Ok [])
                | _ => read_source_files source_files
                end in
  let all_sources := sources ++ extra in
  match all_sources with
  | [] => Ret (Err (AnyMsg "no sources specified; use --sources or --source-files"))
  | _ =>
      if Nat.ltb 1 (length all_sources) && existsb is_stdin all_sources then
        Ret (Err (AnyMsg "'stdin' cannot be combined with other sources; send stdin on its own"))
      else
        let? confirmed := confirm_sources_sync fuel all_sources ask_confirm in
        if negb confirmed then Ret (Err (AnyMsg "transfer cancelled by user"))
        else Ret (Ok all_sources)
  end.
