(* ===== verification/Receive.v ===== *)
(** * The receiving side of a transfer ([vendored-from-bore/transfer.rs])

    Staging, verifying and committing on disk, and the whole transfer as its
    receiver runs it over the control stream. *)

From stdpp Require Import list gmap.
From S2P Require Import Prelude Streams Json Wire Proto Text Paths Transfer.
From S2P Require Import Fs Tracker Frames Resume Workers Scan.

Record ReceiverPlan : Type := {
  plan_begin : BeginFrame;
  plan_entries : list ManifestEntry;
  plan_final_name : string;
  plan_final_path : string;
  stage_dir : string;
  stage_root : string;
  plan_resume : option ResumeShared;
  plan_resumed_bytes : N;
  plan_resume_plan : list ResumeFilePlan;
  plan_multi_source : bool;
  already_complete : bool;
}.

#[export] Instance TransferSummary_eq_decision : EqDecision TransferSummary.
Proof. solve_decision. Defined.

Section Disk.
Context {T : sig} `{Has fs_sig T} `{Hex} `{Libc}.

(** ** Staging *)

(** [if let Some(parent) = path.parent() { fs::create_dir_all(parent).await?; }]. *)
Definition create_parent (path : string) : prog T (ares unit) :=
  match path_parent path with
  | Some parent => fs_q (FsCreateDirAll parent)
  | None => Ret (Ok tt)
  end.

(** One turn of the loop; what is already there is left alone. *)
Definition prepare_entry (path : string) (entry : ManifestEntry) : prog T (ares unit) :=
  match kind entry with
  | Directory => fs_q (FsCreateDirAll path)
  | RegularFile =>
      let? _ := create_parent path in
      prepare_regular_file path (default 0%N (size entry))
  | Symlink =>
      let? there := path_exists path in
      if there : bool then Ret (Ok tt)
      else
        let? _ := create_parent path in
        let? target := Ret (anyhow_context (symlink_target entry) "symlink entry is missing its target") in
        create_symlink (decode_native_path target) path
  | CharDevice | BlockDevice =>
      let? there := path_exists path in
      if there : bool then Ret (Ok tt)
      else
        let? _ := create_parent path in
        create_device entry path
  end.

Fixpoint prepare_stage_entries (stage_root : string) (entries : list ManifestEntry) :
  prog T (ares unit) :=
  match entries with
  | [] => Ret (Ok tt)
  | entry :: entries' =>
      let? path := Ret (stage_path stage_root (rel_path entry)) in
      let? _ := prepare_entry path entry in
      prepare_stage_entries stage_root entries'
  end.

(** ** Comparing a destination with a manifest *)

Context `{Blake3} (fuel : nat).

(** Whether the entry is there with the manifest's content. *)
Definition entry_satisfied (path : string) (entry : ManifestEntry) : prog T (ares bool) :=
  match kind entry with
  | RegularFile =>
      match full_hash entry with
      | None => Ret (Ok false)
      | Some expected =>
          let! meta := fs (FsSymlinkMetadata path) in
          match meta with
          | Ok meta =>
              if negb (is_file meta) || negb (bool_decide (Some (meta_len meta) = size entry))
              then Ret (Ok false)
              else
                let? actual := hash_file_async fuel path in
                Ret (Ok (String.eqb actual expected))
          | Err _ => Ret (Ok false)
          | Panicked => Ret Panicked
          end
      end
  | Directory =>
      let! meta := fs (FsSymlinkMetadata path) in
      Ret (Ok (match meta with Ok meta => is_dir meta | _ => false end))
  | Symlink | CharDevice | BlockDevice => Ret (Ok false)
  end.

Fixpoint entries_satisfied (root : string) (entries : list ManifestEntry) : prog T (ares bool) :=
  match entries with
  | [] => Ret (Ok true)
  | entry :: entries' =>
      let? path := Ret (stage_path root (rel_path entry)) in
      let? same := entry_satisfied path entry in
      if same : bool then entries_satisfied root entries' else Ret (Ok false)
  end.

Definition destination_satisfies_manifest (root : string) (entries : list ManifestEntry)
  (multi_source : bool) : prog T (ares bool) :=
  let? missing := (if multi_source then Ret (Ok false)
                   else let? there := fs_q (FsTryExists root) in Ret (Ok (negb there))) in
  if missing : bool then Ret (Ok false) else entries_satisfied root entries.

(** ** Committing *)

(** One rename into place; with [Overwrite] what is there is set aside first, and
    put back when the rename fails. *)
Definition place (collision : CollisionPolicy) (what src dst backup : string) : prog T (ares unit) :=
  let failed := "failed to commit staged " +:+ what +:+ " to " +:+ to_string_lossy dst in
  let? there := fs_q (FsTryExists dst) in
  if there : bool then
    match collision with
    | Fail_ | Rename => Ret (Err (AnyMsg ("destination already exists: " +:+ to_string_lossy dst)))
    | Overwrite =>
        let? _ := fs_ctx ("failed to stage existing destination " +:+ to_string_lossy dst)
                    (FsRename dst backup) in
        let! r := fs (FsRename src dst) in
        match r with
        | Ok _ => remove_any backup
        | Err e =>
            let! _ := fs_ignore (FsRename backup dst) in
            Ret (Err (AnyContext failed (AnyIo e)))
        | Panicked => Ret Panicked
        end
    end
  else fs_ctx failed (FsRename src dst).

(** [while let Some(entry) = read_dir.next_entry().await?]. *)
Fixpoint place_children (children : nat) (collision : CollisionPolicy) (dir : handle)
  (stage_root stage_dir dest_root : string) : prog T (ares unit) :=
  match children with
  | O => Ret (Err Unfinished)
  | S children' =>
      let? entry := fs_q (FsNextEntry dir) in
      match entry with
      | None => Ret (Ok tt)
      | Some name =>
          let? _ := place collision "item" (push stage_root name) (push dest_root name)
            (push stage_dir ("overwrite-backup-" +:+ to_string_lossy name)) in
          place_children children' collision dir stage_root stage_dir dest_root
      end
  end.

Definition commit_stage (plan : ReceiverPlan) (collision : CollisionPolicy) : prog T (ares unit) :=
  if plan_multi_source plan then
    let? dir := fs_ctx ("failed to list multi-source stage " +:+ to_string_lossy (stage_root plan))
      (FsReadDir (stage_root plan)) in
    let? _ := place_children fuel collision dir (stage_root plan) (stage_dir plan) (plan_final_path plan) in
    let! _ := fs_ignore (FsRemoveDirAll (stage_dir plan)) in
    Ret (Ok tt)
  else
    let? _ := place collision "transfer" (stage_root plan) (plan_final_path plan)
      (push (stage_dir plan) "overwrite-backup") in
    match root_source (plan_begin plan) with
    | Stdin =>
        let? there := fs_q (FsTryExists (stage_dir plan)) in
        let! _ := (if there : bool then fs_ignore (FsRemoveDirAll (stage_dir plan)) else Ret tt) in
        Ret (Ok tt)
    | Filesystem =>
        let! _ := fs_ignore (FsRemoveDirAll (stage_dir plan)) in
        Ret (Ok tt)
    end.
End Disk.

(** ** Verifying *)

Section Verify.
Context {T : sig} `{Has fs_sig T} `{Has resume_sig T}.
Context `{Hex} `{Blake3} `{Json ResumeState} `{Json TransferRecord} (fuel : nat).

(** One turn of [verify_summary]'s loop. *)
Definition verify_entry (plan : ReceiverPlan) (resume : ResumeShared) (entry : ManifestEntry) :
  prog T (ares unit) :=
  if negb (is_regular_file (kind entry)) then Ret (Ok tt)
  else
    let? complete := all_chunks_complete (id entry) in
    if negb complete then
      Ret (Err (AnyMsg ("receiver is still missing chunks for " +:+ display_rel_path (rel_path entry))))
    else
      let? expected := Ret (anyhow_context (full_hash entry) "regular file manifest is missing its hash") in
      let! fresh := all_chunks_fresh (id entry) (chunk_count entry) in
      if fresh : bool then Ret (Ok tt)
      else
        let? path := Ret (stage_path (stage_root plan) (rel_path entry)) in
        let? actual := hash_file_async fuel path in
        if negb (String.eqb expected actual) then
          let? _ := reset_file resume (id entry) in
          Ret (Err (AnyMsg ("final file hash mismatch for " +:+ display_rel_path (rel_path entry))))
        else Ret (Ok tt).

Fixpoint verify_entries (plan : ReceiverPlan) (resume : ResumeShared) (entries : list ManifestEntry) :
  prog T (ares unit) :=
  match entries with
  | [] => Ret (Ok tt)
  | entry :: entries' =>
      let? _ := verify_entry plan resume entry in
      verify_entries plan resume entries'
  end.

Definition verify_summary (plan : ReceiverPlan) : prog T (ares TransferSummary) :=
  match root_source (plan_begin plan) with
  | Stdin =>
      let? entry := Ret (anyhow_context (head (plan_entries plan))
                           "stdin receiver plan is missing its manifest entry") in
      let? path := Ret (stage_path (stage_root plan) (rel_path entry)) in
      let? metadata := fs_ctx ("failed to stat staged stdin file " +:+ to_string_lossy path)
        (FsMetadata path) in
      let? hash := hash_file_async fuel path in
      Ret (summary_from_materialized_entries [materialized entry (meta_len metadata) hash])
  | Filesystem =>
      let? _ := match plan_resume plan with
                | Some resume => verify_entries plan resume (plan_entries plan)
                | None => Ret (Ok tt)
                end in
      Ret (summary_from_materialized_entries (plan_entries plan))
  end.
End Verify.

(** ** The manifest *)

(** [Uuid::new_v4()], printed. *)
Inductive uuid_op : Type := NewUuid.
Definition uuid_sig : sig := Sig uuid_op (fun _ => string).

(** [size_of::<ManifestEntry>()], which the compiler chooses. *)
Class EntryLayout := entry_size : N.

Definition isize_max : N := 2 ^ 63 - 1.

Definition resume_state_dir `{Blake3} (dest_root transfer_id : string) : string :=
  push dest_root (".bore-transfer-state-" +:+ blake3_hash_hex (String.list_byte_of_string transfer_id)).

Definition temp_stage_dir {T} `{Has uuid_sig T} (dest_root transfer_id : string) : prog T string :=
  let! uuid := call (S := uuid_sig) NewUuid in
  Ret (push dest_root (".bore-transfer-" +:+ transfer_id +:+ "-" +:+ uuid)).

Definition manifest_hash `{Json (string * RootSourceKind * list ManifestEntry)} `{Blake3}
  (root_name : string) (root_source : RootSourceKind) (entries : list ManifestEntry) : ares string :=
  rbind (map_err AnyJson (to_vec (root_name, root_source, entries))) (fun payload =>
  Ok (blake3_hash_hex payload)).

Section Manifest.
Context {T : sig} `{Has fs_sig T} `{Has resume_sig T} `{Has uuid_sig T}.
Context `{Hex} `{Blake3} `{Libc} `{Json ResumeState}.
Context `{Json (string * RootSourceKind * list ManifestEntry)} (fuel : nat).

(** The choice of the final name only asks what exists. *)
Definition exists_on_fs {A} (p : prog exists_sig A) : prog T A :=
  interp (S := exists_sig) (fun o => match o with TryExists path => fs (FsTryExists path) end) p.

(** A transfer from standard input has a stage of its own, which no later run
    finds again. *)
Definition stdin_plan (begin : BeginFrame) (entries : list ManifestEntry) (dest_root : string)
  (collision : CollisionPolicy) : prog T (ares ReceiverPlan) :=
  let requested := decode_component (root_name begin) in
  let? final_name_local := exists_on_fs (resolve_final_name_local dest_root requested collision) in
  let! stage_dir := temp_stage_dir dest_root (transfer_id begin) in
  let? _ := fs_ctx ("failed to create stage dir " +:+ to_string_lossy stage_dir)
    (FsCreateDirAll stage_dir) in
  Ret (Ok {| plan_begin := begin; plan_entries := entries;
    plan_final_name := encode_component_os final_name_local;
    plan_final_path := push dest_root final_name_local; stage_dir := stage_dir;
    stage_root := push stage_dir final_name_local; plan_resume := None; plan_resumed_bytes := 0;
    plan_resume_plan := []; plan_multi_source := false; already_complete := false |}).

(** The state a previous run left, if it is of the same transfer. *)
Definition resumed_state (begin : BeginFrame) (entries : list ManifestEntry)
  (hash stage_dir state_file : string) :
  prog T (ares (string * string * ResumeState * N * list ResumeFilePlan)) :=
  let? state := load_resume_state state_file in
  if negb (state_protocol_version state =? PROTOCOL_VERSION)%N then
    Ret (Err (AnyMsg ("resume state for transfer " +:+ transfer_id begin +:+
      " was created by protocol version " +:+ pretty (state_protocol_version state))))
  else if negb (String.eqb (state_transfer_id state) (transfer_id begin))
          || negb (String.eqb (state_manifest_hash state) hash) then
    Ret (Err (AnyMsg ("resume state for transfer " +:+ transfer_id begin +:+
      " does not match the current manifest; remove " +:+ to_string_lossy stage_dir +:+
      " to start fresh")))
  else
    let? (resumed_bytes, resume_plan) := Ret (build_resume_plan entries state) in
    Ret (Ok (final_name state, decode_component (final_name state), state, resumed_bytes, resume_plan)).

(** A state of its own, persisted before anything is staged. *)
Definition created_state (begin : BeginFrame) (entries : list ManifestEntry) (dest_root : string)
  (collision : CollisionPolicy) (hash stage_dir state_file : string) :
  prog T (ares (string * string * ResumeState * N * list ResumeFilePlan)) :=
  let? _ := fs_ctx ("failed to create state directory " +:+ to_string_lossy stage_dir)
    (FsCreateDirAll stage_dir) in
  let? (final_name, local) :=
    (if multi_source begin then
       Ret (Ok (encode_component_os MULTI_SOURCE_STAGE_ROOT, MULTI_SOURCE_STAGE_ROOT))
     else
       let? local := exists_on_fs
         (resolve_final_name_local dest_root (decode_component (root_name begin)) collision) in
       Ret (Ok (encode_component_os local, local))) in
  let state := fresh_state begin hash final_name entries in
  let? _ := persist_resume_state state_file state in
  Ret (Ok (final_name, local, state, 0%N, [])).

Definition filesystem_plan (begin : BeginFrame) (entries : list ManifestEntry) (hash dest_root : string)
  (collision : CollisionPolicy) : prog T (ares ReceiverPlan) :=
  let stage_dir := resume_state_dir dest_root (transfer_id begin) in
  let state_file := push stage_dir RESUME_STATE_FILE in
  let candidate_local := decode_component (root_name begin) in
  let candidate_final := if multi_source begin then dest_root else push dest_root candidate_local in
  let? in_progress := fs_q (FsTryExists state_file) in
  let? satisfied :=
    (if in_progress : bool then Ret (Ok false)
     else destination_satisfies_manifest fuel candidate_final entries (multi_source begin)) in
  if satisfied : bool then
    Ret (Ok {| plan_begin := begin; plan_entries := entries;
      plan_final_name := encode_component_os candidate_local; plan_final_path := candidate_final;
      stage_dir := stage_dir; stage_root := candidate_local; plan_resume := None;
      plan_resumed_bytes := 0; plan_resume_plan := []; plan_multi_source := multi_source begin;
      already_complete := true |})
  else
    let? there := fs_q (FsTryExists state_file) in
    let? (final_name, final_name_local, state, resumed_bytes, resume_plan) :=
      (if there : bool then resumed_state begin entries hash stage_dir state_file
       else created_state begin entries dest_root collision hash stage_dir state_file) in
    let stage_root := push stage_dir final_name_local in
    let? _ := prepare_stage_entries stage_root entries in
    let! _ := resume (CreateRuntime state) in
    Ret (Ok {| plan_begin := begin; plan_entries := entries; plan_final_name := final_name;
      plan_final_path := if multi_source begin then dest_root else push dest_root final_name_local;
      stage_dir := stage_dir; stage_root := stage_root;
      plan_resume := Some {| resume_transfer_id := transfer_id begin; state_file := state_file;
        resume_stage_root := stage_root; resume_entries := collect_map id (fun e => e) entries |};
      plan_resumed_bytes := resumed_bytes; plan_resume_plan := resume_plan;
      plan_multi_source := multi_source begin; already_complete := false |}).
End Manifest.

Section Receiving.
Context {L : sig} `{Has timer_sig L} `{Has fs_sig L} `{Has resume_sig L} `{Has tracker_sig L}.
Context `{Has join_sig L} `{Has accept_sig L} `{Has term_sig L} `{Has uuid_sig L}.
Context `{Json Frame} `{Json ResumeState} `{Json TransferRecord}.
Context `{Json (string * RootSourceKind * list ManifestEntry)}.
Context `{Blake3} `{Hex} `{Libc} `{FrameText} `{EntryLayout} (fuel : nat).

Abbreviation net := (stream_sig ⊕ L).

(** The manifest's frames; [left] bounds them. *)
Fixpoint manifest_frames (left : nat) (entries : list ManifestEntry) :
  prog net (ares (list ManifestEntry)) :=
  match left with
  | O => Ret (Err Unfinished)
  | S left' =>
      let? frame := expect_frame in
      match frame with
      | ManifestChunk chunk => manifest_frames left' (entries ++ chunk)
      | ManifestDone => Ret (Ok entries)
      | other =>
          Ret (Err (AnyMsg ("unexpected frame while receiving manifest: " +:+ frame_debug other)))
      end
  end.

(** [Vec::with_capacity] panics when the capacity exceeds [isize::MAX] bytes. *)
Definition with_capacity (n : N) : ares unit :=
  if (isize_max <? n * entry_size)%N then Panicked else Ok tt.

Definition receive_manifest (begin : BeginFrame) (dest_root : string) (collision : CollisionPolicy) :
  prog net (ares ReceiverPlan) :=
  let? _ := Ret (with_capacity (total_entries begin)) in
  let? entries := manifest_frames fuel [] in
  if negb (nlen entries =? total_entries begin)%N then
    Ret (Err (AnyMsg "manifest entry count mismatch"))
  else
    let? _ := Ret (validate_manifest begin entries) in
    let? hash := Ret (manifest_hash (root_name begin) (root_source begin) entries) in
    match root_source begin with
    | Stdin => stdin_plan begin entries dest_root collision
    | Filesystem => filesystem_plan fuel begin entries hash dest_root collision
    end.

(** ** The whole transfer *)

(** The first frame, [StrayWorkerConnection] being an error of its own type. *)
Definition receive_begin : prog net (ares BeginFrame) :=
  let? frame := expect_frame in
  Ret (match frame with
       | Begin begin =>
           if negb (protocol_version begin =? PROTOCOL_VERSION)%N then
             Err (AnyMsg ("unsupported transfer protocol version " +:+ pretty (protocol_version begin)))
           else Ok begin
       | WorkerHello transfer_id =>
           Err (AnyTyped "StrayWorkerConnection"
             ("stray data-stream connection from a previous transfer (id " +:+ transfer_id +:+ ")"))
       | other =>
           Err (AnyMsg ("expected a Begin frame to start a transfer, got " +:+ frame_debug other +:+
             " (protocol desync or a connection from an incompatible client)"))
       end).

Definition completed_frame (plan : ReceiverPlan) (summary : TransferSummary) : Frame :=
  Completed {| completed_final_path := encode_native_path (plan_final_path plan);
    completed_total_bytes := total_bytes summary; completed_regular_files := regular_files summary;
    completed_transfer_hash := transfer_hash summary |}.

Definition received (plan : ReceiverPlan) (summary : TransferSummary) : TransferOutcome := {|
  outcome_transfer_id := transfer_id (plan_begin plan);
  outcome_final_path := plan_final_path plan;
  outcome_total_bytes := total_bytes summary;
  outcome_regular_files := regular_files summary;
  outcome_transport := transport_mode (plan_begin plan);
|}.

(** The destination already holds the content. *)
Definition reacknowledge (plan : ReceiverPlan) : prog net (ares TransferOutcome) :=
  let? summary := Ret (summary_from_materialized_entries (plan_entries plan)) in
  let? _ := send_frame (ManifestAccepted (plan_final_name plan) 1 (total_bytes summary)
                          (all_chunks_complete_plan (plan_entries plan))) in
  let? frame := expect_frame in
  let? _ := Ret (match frame with
                 | SummaryFrame sender_summary =>
                     if negb (String.eqb (transfer_hash sender_summary) (transfer_hash summary)) then
                       Err (AnyMsg "re-sent transfer does not match the existing destination content")
                     else Ok tt
                 | other =>
                     Err (AnyMsg ("unexpected frame during idempotent re-completion: " +:+ frame_debug other))
                 end) in
  let? _ := send_frame (completed_frame plan summary) in
  Ret (Ok (received plan summary)).

(** The operator's answer: [None] when none came in time. *)
Definition confirm_manifest (plan : ReceiverPlan) (dest_root : string) (ask_confirm : bool)
  (confirm_timeout : N) : prog net (ares (option bool)) :=
  let confirm := display_and_confirm_manifest_sync (plan_begin plan) (plan_entries plan) dest_root ask_confirm in
  if (0 <? confirm_timeout)%N && ask_confirm then
    let! r := timeout confirm_timeout confirm in
    Ret (match r with
         | InTime r => rbind r (fun accepted => Ok (Some accepted))
         | Elapsed => Ok None
         end)
  else let? accepted := confirm in Ret (Ok (Some accepted)).

(** What follows the acceptance. *)
Definition receive_accepted (plan : ReceiverPlan) (collision : CollisionPolicy) (stall_timeout : N) :
  prog net (ares TransferOutcome) :=
  let begin := plan_begin plan in
  let? _ := send_frame (ManifestAccepted (plan_final_name plan) (accepted_parallel begin)
                          (plan_resumed_bytes plan) (plan_resume_plan plan)) in
  let! _ := track (AddResumedBytes (plan_resumed_bytes plan)) in
  let! _ := track (SetCurrent (display_component (plan_final_name plan))) in
  let? sender_summary := match root_source begin with
    | Stdin => receive_stdin_stream fuel (plan_entries plan) (stage_root plan) stall_timeout
    | Filesystem =>
        receive_filesystem_streams (plan_resume plan) begin (plan_entries plan)
          (plan_resume_plan plan) stall_timeout
    end in
  let? local_summary := verify_summary fuel plan in
  if negb (bool_decide (sender_summary = local_summary)) then
    Ret (Err (AnyMsg "sender summary does not match receiver state"))
  else
    let? _ := commit_stage fuel plan collision in
    let? _ := send_frame (completed_frame plan local_summary) in
    let! _ := track Finish in
    Ret (Ok (received plan local_summary)).

(** Errors with the directory to clean up ([cleanup_stdin_dir]). *)
Definition cleaning {A} (dir : option string) (p : prog net (ares A)) :
  prog net (result (option string * anyhow) A) :=
  let! r := p in Ret (map_err (pair dir) r).

Definition receive_body (dest_root : string) (collision : CollisionPolicy) (ask_confirm : bool)
  (confirm_timeout stall_timeout : N) : prog net (result (option string * anyhow) TransferOutcome) :=
  let? plan := cleaning None (let? begin := receive_begin in receive_manifest begin dest_root collision) in
  if already_complete plan then cleaning None (reacknowledge plan)
  else
    let cleanup := match root_source (plan_begin plan) with
                   | Stdin => Some (stage_dir plan) | Filesystem => None end in
    let? accepted := cleaning cleanup (confirm_manifest plan dest_root ask_confirm confirm_timeout) in
    match accepted with
    | Some true => cleaning cleanup (receive_accepted plan collision stall_timeout)
    | refused =>
        let! _ := fs_ignore (FsRemoveDirAll (stage_dir plan)) in
        Ret (Err (None, AnyMsg (match refused with
          | Some _ => "transfer rejected by receiver"
          | None => "transfer rejected by receiver (confirmation timed out after " +:+
                    pretty confirm_timeout +:+ "s)"
          end)))
    end.

Definition receive_transfer (dest_root : string) (collision : CollisionPolicy) (ask_confirm : bool)
  (confirm_timeout stall_timeout : N) : prog net (ares TransferOutcome) :=
  let! outcome := receive_body dest_root collision ask_confirm confirm_timeout stall_timeout in
  match outcome with
  | Ok o => Ret (Ok o)
  | Err (cleanup, err) =>
      let! _ := send_frame (ErrorFrame (any_display err)) in
      let! _ := match cleanup with
                | Some dir => fs_ignore (FsRemoveDirAll dir)
                | None => Ret tt
                end in
      Ret (Err err)
  | Panicked => Ret Panicked
  end.
End Receiving.

(** ** The sending side *)

Section Sending.
Context {L : sig} `{Has timer_sig L} `{Has tracker_sig L} `{Has join_sig L} `{Has stdin_sig L}.
Context `{Json Frame} `{Json TransferRecord} `{Blake3} `{Hex} `{FrameText} (fuel : nat).

Abbreviation net := (stream_sig ⊕ L).

Definition summary_from_entries (entries : list PlannedEntry) : ares TransferSummary :=
  summary_from_materialized_entries (manifest <$> entries).

(** [plan.entries.chunks(MANIFEST_CHUNK)]; the length of the list is enough fuel. *)
Fixpoint chunks_of {A} (left : nat) (size : nat) (l : list A) : list (list A) :=
  match left, l with
  | S left', _ :: _ => take size l :: chunks_of left' size (drop size l)
  | _, _ => []
  end.

Fixpoint send_manifest (chunks : list (list PlannedEntry)) : prog net (ares unit) :=
  match chunks with
  | [] => Ret (Ok tt)
  | chunk :: chunks' =>
      let? _ := send_frame (ManifestChunk (manifest <$> chunk)) in
      send_manifest chunks'
  end.

(** Files all of whose chunks the receiver has. *)
Definition seed_progress (entries : list PlannedEntry) (resume_plan : list ResumeFilePlan) :
  prog net unit :=
  let completed := collect_map plan_entry_id (fun p => nlen (completed_chunks p)) resume_plan in
  foldr (fun entry rest =>
    let m := manifest entry in
    if negb (is_regular_file (kind m)) then rest
    else if (as_u32 (default 0%N (completed !! id m)) =? chunk_count m)%N
    then let! _ := track AddFile in rest else rest) (Ret tt) entries.

Definition send_data (plan : PlannedTransfer) (parallel : N) (resume_plan : list ResumeFilePlan)
  (stall_timeout : N) : prog net (ares TransferSummary) :=
  match planned_root_source plan with
  | Stdin => send_stdin_stream fuel (planned_entries plan) stall_timeout
  | Filesystem =>
      let? tasks := Ret (build_chunk_tasks (planned_entries plan) resume_plan) in
      let! _ := seed_progress (planned_entries plan) resume_plan in
      let? _ := match tasks with
                | [] => Ret (Ok tt)
                | _ => send_chunked_files parallel
                end in
      Ret (summary_from_entries (planned_entries plan))
  end.

Definition begin_frame (plan : PlannedTransfer) (transport : TransportMode) : BeginFrame := {|
  protocol_version := PROTOCOL_VERSION;
  transfer_id := planned_transfer_id plan;
  root_name := planned_root_name plan;
  root_source := planned_root_source plan;
  total_entries := nlen (planned_entries plan);
  begin_total_bytes := planned_total_bytes plan;
  transport_mode := transport;
  requested_parallel := planned_parallel plan;
  multi_source := planned_multi_source plan;
|}.

Definition send_transfer (plan : PlannedTransfer) (transport : TransportMode) (stall_timeout : N) :
  prog net (ares TransferOutcome) :=
  let! _ := track (SetCurrent (display_component (planned_root_name plan))) in
  let? _ := send_frame (Begin (begin_frame plan transport)) in
  let entries := planned_entries plan in
  let? _ := send_manifest (chunks_of (length entries) (N.to_nat MANIFEST_CHUNK) entries) in
  let? _ := send_frame ManifestDone in
  let? accepted := recv_manifest_accepted (planned_transfer_id plan) in
  match accepted with
  | ManifestAccepted _ parallel resumed_bytes resume_plan =>
      let! _ := track (AddResumedBytes resumed_bytes) in
      let? summary := send_data plan parallel resume_plan stall_timeout in
      let? _ := send_frame (SummaryFrame summary) in
      let? frame := recv_frame in
      match frame with
      | Some (Completed done) =>
          if negb (String.eqb (completed_transfer_hash done) (transfer_hash summary)) then
            Ret (Err (AnyMsg "receiver acknowledged a different transfer hash"))
          else
            let! _ := track Finish in
            Ret (Ok {| outcome_transfer_id := planned_transfer_id plan;
              outcome_final_path := decode_native_path (completed_final_path done);
              outcome_total_bytes := completed_total_bytes done;
              outcome_regular_files := completed_regular_files done;
              outcome_transport := transport |})
      | Some (ErrorFrame message) => Ret (Err (AnyMsg ("peer reported an error: " +:+ message)))
      | Some other =>
          Ret (Err (AnyMsg ("unexpected final frame from receiver: " +:+ frame_debug other)))
      | None =>
          Ret (Err (AnyMsg ("transfer data fully sent, but the listener closed before confirming completion. " +:+
            "The destination may already be complete — re-run the same command to confirm " +:+
            "(it will re-verify idempotently).")))
      end
  | other => Ret (Err (AnyMsg ("unexpected manifest response: " +:+ frame_debug other)))
  end.
End Sending.
