(* ===== verification/TransferDemo.v ===== *)
(** * Concrete parameters for transfers

    Codecs for the messages and documents of a transfer (the digits of the code
    every countable type has), and an in-memory file system, on which the
    theorems on transfers are evaluated. *)

From stdpp Require Import list gmap countable.
From S2P Require Import Prelude Streams Json Wire Demo Proto Text Paths Transfer.
From S2P Require Import Fs Tracker Frames Resume Workers Scan Receive.

(** ** Countable messages *)

Ltac by_fields := intros []; reflexivity.

#[export] Instance RootSourceKind_eq_decision : EqDecision RootSourceKind.
Proof. solve_decision. Defined.
#[export] Instance RootSourceKind_countable : Countable RootSourceKind :=
  inj_countable' (fun k => match k with Filesystem => true | Stdin => false end)
                 (fun b : bool => if b then Filesystem else Stdin) ltac:(by_fields).

#[export] Instance TransportMode_eq_decision : EqDecision TransportMode.
Proof. solve_decision. Defined.
#[export] Instance TransportMode_countable : Countable TransportMode :=
  inj_countable' (fun t => (direct_udp t, relay_tls t))
                 (fun x => {| direct_udp := x.1; relay_tls := x.2 |}) ltac:(by_fields).

#[export] Instance EntryKind_countable : Countable EntryKind :=
  inj_countable' (fun k => match k with RegularFile => 0 | Directory => 1 | Symlink => 2
                           | CharDevice => 3 | BlockDevice => 4 end)
                 (fun n => match n with 0 => RegularFile | 1 => Directory | 2 => Symlink
                           | 3 => CharDevice | _ => BlockDevice end) ltac:(by_fields).

#[export] Instance DeviceDescriptor_eq_decision : EqDecision DeviceDescriptor.
Proof. solve_decision. Defined.
#[export] Instance DeviceDescriptor_countable : Countable DeviceDescriptor :=
  inj_countable' (fun d => (major d, minor d)) (fun x => {| major := x.1; minor := x.2 |}) ltac:(by_fields).

#[export] Instance BeginFrame_eq_decision : EqDecision BeginFrame.
Proof. solve_decision. Defined.
#[export] Instance BeginFrame_countable : Countable BeginFrame :=
  inj_countable'
    (fun b => (((protocol_version b, transfer_id b), (root_name b, root_source b)),
               ((total_entries b, begin_total_bytes b),
                (transport_mode b, (requested_parallel b, multi_source b)))))
    (fun '(((v, t), (r, s)), ((n, by_), (m, (p, mu)))) =>
       {| protocol_version := v; transfer_id := t; root_name := r; root_source := s;
          total_entries := n; begin_total_bytes := by_; transport_mode := m;
          requested_parallel := p; multi_source := mu |}) ltac:(by_fields).

#[export] Instance ManifestEntry_eq_decision : EqDecision ManifestEntry.
Proof. solve_decision. Defined.
#[export] Instance ManifestEntry_countable : Countable ManifestEntry :=
  inj_countable'
    (fun e => (((id e, rel_path e), (kind e, size e)),
               ((full_hash e, chunk_count e), (symlink_target e, (device e, mode e)))))
    (fun '(((i, r), (k, s)), ((h, c), (l, (d, m)))) =>
       {| id := i; rel_path := r; kind := k; size := s; full_hash := h; chunk_count := c;
          symlink_target := l; device := d; mode := m |}) ltac:(by_fields).

#[export] Instance TransferSummary_countable : Countable TransferSummary :=
  inj_countable'
    (fun s => ((regular_files s, directories s), ((symlinks s, devices s), (total_bytes s, transfer_hash s))))
    (fun '((f, d), ((l, v), (b, h))) =>
       {| regular_files := f; directories := d; symlinks := l; devices := v; total_bytes := b;
          transfer_hash := h |}) ltac:(by_fields).

#[export] Instance CompletedFrame_eq_decision : EqDecision CompletedFrame.
Proof. solve_decision. Defined.
#[export] Instance CompletedFrame_countable : Countable CompletedFrame :=
  inj_countable'
    (fun c => ((completed_final_path c, completed_total_bytes c),
               (completed_regular_files c, completed_transfer_hash c)))
    (fun '((p, b), (f, h)) =>
       {| completed_final_path := p; completed_total_bytes := b; completed_regular_files := f;
          completed_transfer_hash := h |}) ltac:(by_fields).

#[export] Instance ResumeFilePlan_eq_decision : EqDecision ResumeFilePlan.
Proof. solve_decision. Defined.
#[export] Instance ResumeFilePlan_countable : Countable ResumeFilePlan :=
  inj_countable' (fun p => (plan_entry_id p, completed_chunks p))
                 (fun x => {| plan_entry_id := x.1; completed_chunks := x.2 |}) ltac:(by_fields).

#[export] Instance FileResumeState_eq_decision : EqDecision FileResumeState.
Proof. solve_decision. Defined.
#[export] Instance FileResumeState_countable : Countable FileResumeState :=
  inj_countable' (fun f => (file_entry_id f, completed f))
                 (fun x => {| file_entry_id := x.1; completed := x.2 |}) ltac:(by_fields).

#[export] Instance ResumeState_eq_decision : EqDecision ResumeState.
Proof. solve_decision. Defined.
#[export] Instance ResumeState_countable : Countable ResumeState :=
  inj_countable'
    (fun s => ((state_protocol_version s, state_transfer_id s),
               (state_manifest_hash s, (final_name s, files s))))
    (fun '((v, t), (h, (n, f))) =>
       {| state_protocol_version := v; state_transfer_id := t; state_manifest_hash := h;
          final_name := n; files := f |}) ltac:(by_fields).

#[export] Instance TransferRecord_eq_decision : EqDecision TransferRecord.
Proof. solve_decision. Defined.
#[export] Instance TransferRecord_countable : Countable TransferRecord :=
  inj_countable'
    (fun r => ((record_rel_path r, record_kind r),
               ((record_size r, record_symlink_target r), (record_device r, content_hash r))))
    (fun '((p, k), ((s, l), (d, h))) =>
       {| record_rel_path := p; record_kind := k; record_size := s; record_symlink_target := l;
          record_device := d; content_hash := h |}) ltac:(by_fields).

#[export] Instance Frame_eq_decision : EqDecision Frame.
Proof. solve_decision. Defined.

(** The frames that carry no data, and one summand for each of the others. *)
Inductive plain_frame : Type := PManifestDone | PWorkerDone | PWorkerComplete.
#[export] Instance plain_frame_eq_decision : EqDecision plain_frame.
Proof. solve_decision. Defined.
#[export] Instance plain_frame_countable : Countable plain_frame :=
  inj_countable' (fun p => match p with PManifestDone => 0 | PWorkerDone => 1 | PWorkerComplete => 2 end)
                 (fun n => match n with 0 => PManifestDone | 1 => PWorkerDone | _ => PWorkerComplete end) ltac:(by_fields).

Definition frame_code : Type :=
  ((plain_frame + BeginFrame) + (list ManifestEntry + ((string * N) * (N * list ResumeFilePlan)))) +
  (((string + ((N * N) * (N * (N * string)))) + (N + (N * string))) +
   (((N * string) + TransferSummary) + (CompletedFrame + string))).

Definition frame_to_code (f : Frame) : frame_code :=
  match f with
  | ManifestDone => inl (inl (inl PManifestDone))
  | WorkerDone => inl (inl (inl PWorkerDone))
  | WorkerComplete => inl (inl (inl PWorkerComplete))
  | Begin b => inl (inl (inr b))
  | ManifestChunk l => inl (inr (inl l))
  | ManifestAccepted n p r l => inl (inr (inr ((n, p), (r, l))))
  | WorkerHello t => inr (inl (inl (inl t)))
  | ChunkStart e c o l h => inr (inl (inl (inr ((e, c), (o, (l, h))))))
  | StreamChunk n => inr (inl (inr (inl n)))
  | StreamEnd n h => inr (inl (inr (inr (n, h))))
  | StreamVerified n h => inr (inr (inl (inl (n, h))))
  | SummaryFrame s => inr (inr (inl (inr s)))
  | Completed c => inr (inr (inr (inl c)))
  | ErrorFrame m => inr (inr (inr (inr m)))
  end.

Definition frame_of_code (x : frame_code) : Frame :=
  match x with
  | inl (inl (inl PManifestDone)) => ManifestDone
  | inl (inl (inl PWorkerDone)) => WorkerDone
  | inl (inl (inl PWorkerComplete)) => WorkerComplete
  | inl (inl (inr b)) => Begin b
  | inl (inr (inl l)) => ManifestChunk l
  | inl (inr (inr ((n, p), (r, l)))) => ManifestAccepted n p r l
  | inr (inl (inl (inl t))) => WorkerHello t
  | inr (inl (inl (inr ((e, c), (o, (l, h)))))) => ChunkStart e c o l h
  | inr (inl (inr (inl n))) => StreamChunk n
  | inr (inl (inr (inr (n, h)))) => StreamEnd n h
  | inr (inr (inl (inl (n, h)))) => StreamVerified n h
  | inr (inr (inl (inr s))) => SummaryFrame s
  | inr (inr (inr (inl c))) => Completed c
  | inr (inr (inr (inr m))) => ErrorFrame m
  end.

#[export] Instance Frame_countable : Countable Frame :=
  inj_countable' frame_to_code frame_of_code ltac:(by_fields).

(** ** Codecs and texts *)

#[export] Instance demo_frame_json : Json Frame := digits_json.
#[export] Instance demo_frame_laws : JsonLaws Frame := digits_json_laws.
#[export] Instance demo_state_json : Json ResumeState := digits_json.
#[export] Instance demo_state_laws : JsonLaws ResumeState := digits_json_laws.
#[export] Instance demo_record_json : Json TransferRecord := digits_json.
#[export] Instance demo_root_json : Json (string * RootSourceKind * list ManifestEntry) := digits_json.
#[export] Instance demo_frame_text : FrameText := fun _ => "frame".
#[export] Instance demo_libc : Libc :=
  {| makedev := fun a b => (256 * a + b)%N; major_of := fun d => (d / 256)%N;
     minor_of := fun d => (d mod 256)%N |}.
#[export] Instance demo_layout : EntryLayout := 200%N.

(** The bytes of a frame. *)
Definition demo_wire (f : Frame) : bytes :=
  match to_vec f with Ok payload => wire_bytes payload | _ => [] end.

Lemma demo_frame_encodes f : (nlen (match to_vec f with Ok p => p | _ => [] end) <= FRAME_LIMIT)%N ->
  encodes f (demo_wire f).
Proof. intros Hl. exists (pos_digits (encode f)). by split_and!. Qed.
