(* ===== verification/Exchange.v ===== *)
(** * A transfer from standard input, end to end

    [send_stdin_stream] against [receive_stdin_stream], joined by two byte queues:
    what standard input gives, in pieces of any size, ends up in the destination
    file, and both sides agree on it. *)

From stdpp Require Import list gmap.
From S2P Require Import Prelude Streams Json Wire Demo Proto Text Paths Transfer.
From S2P Require Import Fs Disk Tracker Frames Resume Workers TransferDemo.

(** ** The environments *)

(** Standard input: what each read returns; at the end, reads return nothing. *)
Definition stdin_handler : handler stdin_sig (list bytes) :=
  fun o pieces => match o with ReadStdin _ => (Ok (hd [] pieces), tl pieces) end.

(** A clock on which no deadline passes. *)
Definition on_time : handler timer_sig unit := fun o st => match o with Expires _ => (false, st) end.

Definition stdin_sender : sig := tracker_sig ⊕ stdin_sig.
Definition stdin_receiver : sig := timer_sig ⊕ (fs_sig ⊕ tracker_sig).

Definition at_source : handler stdin_sender (ProgressShared * list bytes) :=
  hsum tracker_handler stdin_handler.
Definition at_destination : handler stdin_receiver (unit * (disk * ProgressShared)) :=
  hsum on_time (hsum disk_handler tracker_handler).

(** A call that a local handler answers. *)
Lemma behaves_call {S L St A} `{Has S L} m (h : handler L St) (o : op S)
  (k : resp o -> prog (stream_sig ⊕ L) A) st r st1 τ a st' :
  run h (call o) st = (r, st1) -> behaves m h (k r) st1 τ a st' ->
  behaves m h (pbind (call (T := stream_sig ⊕ L) o) k) st τ a st'.
Proof.
  intros E Hb. unfold call at 1, has_there. apply (behaves_local m h (call o)). by rewrite E.
Qed.

(** A call to the file system that succeeds, under [?]. *)
Lemma behaves_fs {L St A} `{Has fs_sig L} m (h : handler L St) (o : fs_op)
  (k : fs_ans o -> prog (stream_sig ⊕ L) (ares A)) st r st1 τ a st' :
  run h (call o) st = (Ok r, st1) -> behaves m h (k r) st1 τ a st' ->
  behaves m h (ptry (fs_q o) k) st τ a st' /\
  forall msg, behaves m h (ptry (fs_ctx msg o) k) st τ a st'.
Proof.
  intros E Hb. split; [|intros msg]; unfold ptry, fs_q, fs_ctx, fs; apply behaves_assoc;
    exact (behaves_call (S := fs_sig) m h o _ _ _ _ _ _ _ E Hb).
Qed.

Lemma behaves_fs_last {L St} `{Has fs_sig L} m (h : handler L St) (o : fs_op) st r st1 :
  run h (call o) st = (Ok r, st1) ->
  behaves m h (fs_q (T := stream_sig ⊕ L) o) st [] (Ok r) st1 /\
  forall msg, behaves m h (fs_ctx (T := stream_sig ⊕ L) msg o) st [] (Ok r) st1.
Proof.
  intros E. split; [|intros msg]; unfold fs_q, fs_ctx, fs;
    refine (behaves_call (S := fs_sig) m h o _ _ _ _ _ _ _ E _); constructor.
Qed.

Lemma behaves_track {L St A} `{Has tracker_sig L} m (h : handler L St) (o : tracker_op)
  (k : unit -> prog (stream_sig ⊕ L) A) st st1 τ a st' :
  run h (call (S := tracker_sig) o) st = (tt, st1) -> behaves m h (k tt) st1 τ a st' ->
  behaves m h (pbind (track o) k) st τ a st'.
Proof. intros E Hb. exact (behaves_call (S := tracker_sig) m h o _ _ _ _ _ _ _ E Hb). Qed.

(** The environment of a sender holds the progress and what standard input still
    gives, that of a receiver the disk and the progress; whatever else they
    hold, these calls leave alone. *)
Record feeds {L St} `{Has tracker_sig L} `{Has stdin_sig L} (h : handler L St)
  (src : ProgressShared -> list bytes -> St) : Prop := {
  feeds_read n t pieces :
    run h (call (S := stdin_sig) (ReadStdin n)) (src t pieces) = (Ok (hd [] pieces), src t (tl pieces));
  feeds_track o t pieces :
    run h (call (S := tracker_sig) o) (src t pieces) = (tt, src (tracker_step o t) pieces);
}.

Record stores {L St} `{Has timer_sig L} `{Has fs_sig L} `{Has tracker_sig L} (h : handler L St)
  (dst : disk -> ProgressShared -> St) : Prop := {
  stores_in_time : in_time h;
  stores_fs o d t :
    run h (call (S := fs_sig) o) (dst d t) = ((disk_handler o d).1, dst (disk_handler o d).2 t);
  stores_track o d t :
    run h (call (S := tracker_sig) o) (dst d t) = (tt, dst d (tracker_step o t));
}.

Lemma source_feeds : feeds at_source pair.
Proof. by split. Qed.

Lemma destination_stores : stores at_destination (fun d t => (tt, (d, t))).
Proof. split; [by intros secs [[] [d t]]|done|done]. Qed.

Section Stdin.
Context `{JsonLaws Frame} `{Json TransferRecord} `{Blake3} `{Hex} `{FrameText}.

Definition frame_bytes (f : Frame) : bytes :=
  match to_vec f with Ok payload => wire_bytes payload | _ => [] end.

Definition fits (f : Frame) : Prop := encodes f (frame_bytes f).

(** What goes over the wire for the data. *)
Definition pieces_wire (pieces : list bytes) : bytes :=
  concat ((fun p => frame_bytes (StreamChunk (nlen p)) ++ p) <$> pieces).

(** A read returns something, and no more than it asked for. *)
Definition piece_ok (p : bytes) : Prop :=
  p <> [] /\ (nlen p <= COPY_BUFFER)%N /\ fits (StreamChunk (nlen p)).

Definition count_pieces (t : ProgressShared) (pieces : list bytes) : ProgressShared :=
  foldl (fun t p => add_bytes t (nlen p)) t pieces.

Lemma piece_u32 p : piece_ok p -> as_u32 (nlen p) = nlen p.
Proof.
  intros (_&Hl&_). unfold as_u32. apply N.mod_small.
  eapply N.le_lt_trans; [exact Hl|]. vm_compute. reflexivity.
Qed.

Section Sender.
Context {L : sig} `{Has tracker_sig L} `{Has stdin_sig L} {St : Type} (h : handler L St).
Context (src : ProgressShared -> list bytes -> St) (Hsrc : feeds h src).

Lemma pump_behaves fuel stall total hasher t pieces :
  Forall piece_ok pieces -> length pieces < fuel ->
  (total + nlen (concat pieces) < 2 ^ 64)%N ->
  behaves Exact h (pump_stdin fuel stall total hasher) (src t pieces)
    (snds (pieces_wire pieces))
    (Ok ((total + nlen (concat pieces))%N, hasher ++ concat pieces)) (src (count_pieces t pieces) []).
Proof.
  revert fuel total hasher t.
  induction pieces as [|p pieces IH]; intros fuel total hasher t Hp Hf Ht;
    (destruct fuel as [|fuel]; [simpl in Hf; lia|]); cbn [pump_stdin].
  - eapply behaves_call; [apply (feeds_read h src Hsrc)|]. simpl. rewrite N.add_0_r, app_nil_r. constructor.
  - apply Forall_cons in Hp as [Hp Hps]. pose proof (piece_u32 p Hp) as Hu.
    destruct Hp as (Hne&Hl&Hw). simpl in Ht, Hf. rewrite nlen_app in Ht.
    eapply behaves_call; [apply (feeds_read h src Hsrc)|]. simpl hd. simpl tl. destruct p as [|b p]; [done|].
    cbv beta iota. rewrite Hu.
    unfold pieces_wire. rewrite fmap_cons. cbn [concat]. rewrite <- app_assoc, !snds_app.
    eapply (behaves_try Exact); [by apply io_send_frame_behaves|].
    eapply (behaves_try Exact); [apply io_write_all_idle_behaves|].
    eapply behaves_track; [apply (feeds_track h src Hsrc)|].
    replace (total + nlen ((b :: p) ++ concat pieces))%N
      with (add_u64 total (nlen (b :: p)) + nlen (concat pieces))%N
      by (unfold add_u64; rewrite nlen_app, N.mod_small by lia; lia).
    rewrite app_assoc. apply IH; [done|lia|]. unfold add_u64. rewrite N.mod_small by lia. lia.
Qed.

Lemma send_behaves fuel planned pieces t stall :
  Forall piece_ok pieces -> length pieces < fuel -> (nlen (concat pieces) < 2 ^ 64)%N ->
  let total := nlen (concat pieces) in
  let digest := blake3_hash_hex (concat pieces) in
  fits (StreamEnd total digest) -> fits (StreamVerified total digest) ->
  behaves Exact h (send_stdin_stream fuel [planned] stall) (src t pieces)
    (snds (pieces_wire pieces) ++ snds (frame_bytes (StreamEnd total digest)) ++
     rcvs (frame_bytes (StreamVerified total digest)))
    (summary_from_materialized_entries [materialized (manifest planned) total digest])
    (src (count_pieces (set_current t "stdin") pieces) []).
Proof.
  intros Hp Hf Ht total digest He Hv. unfold send_stdin_stream.
  rewrite <- (app_nil_l (snds _ ++ _)). eapply (behaves_try Exact); [constructor|].
  eapply behaves_track; [apply (feeds_track h src Hsrc)|].
  eapply (behaves_try Exact); [by apply pump_behaves|]. cbv beta iota. rewrite N.add_0_l, app_nil_l.
  eapply (behaves_try Exact); [by apply io_send_frame_behaves|].
  rewrite <- (app_nil_r (rcvs _)).
  eapply (behaves_try Exact); [by apply expect_frame_behaves|].
  cbv beta iota.
  rewrite N.eqb_refl, String.eqb_refl. cbn [negb orb ptry pbind]. constructor.
Qed.

End Sender.

(** The destination file [q], open as [fh], with its content and the position at
    its end. *)
Definition holding (d : disk) (fh : handle) (q : key) (data : bytes) : disk :=
  Disk (<[q := NFile data]> (d_nodes d)) (<[fh := (q, nlen data)]> (d_open d)) (d_lists d) (d_next d).

Lemma holding_write d fh q data p :
  disk_handler (FsWriteAll fh p) (holding d fh q data) = (Ok tt, holding d fh q (data ++ p)).
Proof.
  unfold disk_handler, holding. cbn [d_nodes d_open]. rewrite !lookup_insert_eq.
  unfold at_position, with_nodes. cbn [d_nodes d_open d_lists d_next].
  rewrite !insert_insert_eq, nlen_app. do 3 f_equal. unfold splice, nlen.
  rewrite Nat2N.id, Nat.sub_diag, drop_ge by lia. simpl. by rewrite !app_nil_r, firstn_all.
Qed.

Section Receiver.
Context {L : sig} `{Has timer_sig L} `{Has fs_sig L} `{Has tracker_sig L} {St : Type} (h : handler L St).
Context (dst : disk -> ProgressShared -> St) (Hdst : stores h dst).

Lemma drain_behaves fuel entry path q fh stall pieces total d data t st :
  Forall piece_ok pieces -> length pieces < fuel ->
  (total + nlen (concat pieces) < 2 ^ 64)%N ->
  (forall fuel', behaves Exact h
     (drain_stdin (S fuel') entry path fh stall (total + nlen (concat pieces)) (data ++ concat pieces))
     (dst (holding d fh q (data ++ concat pieces)) (count_pieces t pieces)) st.1.1 st.1.2 st.2) ->
  behaves Exact h (drain_stdin fuel entry path fh stall total data)
    (dst (holding d fh q data) t) (rcvs (pieces_wire pieces) ++ st.1.1) st.1.2 st.2.
Proof.
  revert fuel total data t.
  induction pieces as [|p pieces IH]; intros fuel total data t Hp Hf Ht Hend;
    (destruct fuel as [|fuel]; [simpl in Hf; lia|]).
  - simpl in *. specialize (Hend fuel). by rewrite N.add_0_r, app_nil_r in Hend.
  - apply Forall_cons in Hp as [(Hne&Hl&Hw) Hps]. simpl in Ht, Hf. rewrite nlen_app in Ht.
    cbn [drain_stdin]. unfold pieces_wire. rewrite fmap_cons. cbn [concat].
    rewrite !rcvs_app, <- !app_assoc.
    eapply (behaves_try Exact).
    { apply with_stall_behaves; [apply (stores_in_time h dst Hdst)|]. by apply expect_frame_behaves. }
    cbv beta iota.
    destruct (N.eqb_spec (nlen p) 0) as [E|_].
    { destruct p; [done|]. rewrite nlen_cons in E. lia. }
    destruct (N.ltb_spec STREAM_CHUNK_MAX (nlen p)) as [E|_].
    { exfalso. unfold STREAM_CHUNK_MAX, CHUNK_SIZE, COPY_BUFFER in *. lia. }
    cbn [orb]. eapply (behaves_try Exact); [by apply io_read_exact_idle_behaves|].
    eapply behaves_fs; [rewrite (stores_fs h dst Hdst), holding_write; reflexivity|].
    eapply behaves_track; [apply (stores_track h dst Hdst)|].
    assert (Hadd : add_u64 total (nlen p) = (total + nlen p)%N)
      by (unfold add_u64; apply N.mod_small; lia).
    rewrite Hadd. apply IH; [done|lia|lia|].
    intros fuel'. specialize (Hend fuel'). simpl in Hend.
    by rewrite nlen_app, N.add_assoc, app_assoc in Hend.
Qed.
(** The disk the receiver needs: the directory can be made, and nothing but a file
    is in the place of the destination. *)
Definition creatable (path : string) (d : disk) (m : gmap key node) : Prop :=
  match path_parent path with
  | Some parent => make_dirs [] (components parent) (d_nodes d) = Some m
  | None => m = d_nodes d
  end /\
  forall n, m !! components path = Some n -> exists data, n = NFile data.

Definition landed (path : string) (d : disk) (m : gmap key node) (data : bytes) : disk :=
  holding (Disk m (d_open d) (d_lists d) (d_next d + 1)) (d_next d) (components path) data.

Lemma finish_behaves entry path fh d data t total :
  d_nodes d !! components path = Some (NFile data) ->
  fits (StreamVerified total (blake3_hash_hex data)) ->
  behaves Exact h
    (finish_stdin entry path fh total total (blake3_hash_hex data) data) (dst d t)
    (snds (frame_bytes (StreamVerified total (blake3_hash_hex data))))
    (summary_from_materialized_entries [materialized entry total (blake3_hash_hex data)])
    (dst d t).
Proof.
  intros Hn Hv. unfold finish_stdin.
  do 2 (eapply behaves_fs; [rewrite (stores_fs h dst Hdst); reflexivity|]).
  rewrite <- (app_nil_l (snds _)).
  eapply (behaves_try Exact _ _ _ _ [] tt).
  { unfold set_file_mode. destruct (mode entry); [|constructor].
    refine (proj2 (behaves_fs_last _ _ (FsSetPermissions path _) _ tt _ _) _).
    rewrite (stores_fs h dst Hdst). cbn [disk_handler fst snd]. by rewrite Hn. }
  rewrite N.eqb_refl, String.eqb_refl. cbn [negb].
  rewrite <- (app_nil_r (snds _)).
  eapply (behaves_try Exact); [by apply io_send_frame_behaves|]. constructor.
Qed.

Lemma receive_behaves fuel entry root path pieces d m t stall :
  stage_path root (rel_path entry) = Ok path -> creatable path d m ->
  Forall piece_ok pieces -> S (length pieces) < fuel ->
  (nlen (concat pieces) < 2 ^ 64)%N ->
  let total := nlen (concat pieces) in
  let digest := blake3_hash_hex (concat pieces) in
  fits (StreamEnd total digest) -> fits (StreamVerified total digest) ->
  behaves Exact h (receive_stdin_stream fuel [entry] root stall) (dst d t)
    (rcvs (pieces_wire pieces) ++ rcvs (frame_bytes (StreamEnd total digest)) ++
     snds (frame_bytes (StreamVerified total digest)))
    (summary_from_materialized_entries [materialized entry total digest])
    (dst (landed path d m (concat pieces)) (count_pieces (set_current t "stdin") pieces)).
Proof.
  intros Hpath [Hm Hfile] Hp Hfuel Ht total digest He Hv. unfold receive_stdin_stream.
  rewrite <- (app_nil_l (rcvs _ ++ _)). eapply (behaves_try Exact); [constructor|].
  eapply behaves_track; [apply (stores_track h dst Hdst)|]. rewrite Hpath.
  rewrite <- (app_nil_l (rcvs _ ++ _)). eapply (behaves_try Exact); [constructor|].
  set (d1 := with_nodes d m).
  rewrite <- (app_nil_l (rcvs _ ++ _)). eapply (behaves_try Exact _ _ _ _ [] tt (dst d1 _)).
  { destruct (path_parent path) as [parent|].
    - refine (proj1 (behaves_fs_last _ _ (FsCreateDirAll parent) _ tt _ _)).
      rewrite (stores_fs h dst Hdst). cbn [disk_handler fst snd]. by rewrite Hm.
    - unfold d1. rewrite Hm. by destruct d; constructor. }
  eapply behaves_fs; [rewrite (stores_fs h dst Hdst)|].
  { cbn [disk_handler fst snd]. unfold d1. cbn [d_nodes with_nodes].
    destruct (m !! components path) as [n|] eqn:En; [destruct (Hfile n eq_refl) as [data ->]|]; reflexivity. }
  change (opened_file _ _ _) with (landed path d m []).
  refine (drain_behaves fuel entry path (components path) (d_next d) stall pieces 0
    (Disk m (d_open d) (d_lists d) (d_next d + 1)) [] (set_current t "stdin") (_, _, _) Hp _ Ht _); [lia|].
  intros fuel'. cbn [drain_stdin fst snd].
  eapply (behaves_try Exact).
  { apply with_stall_behaves; [apply (stores_in_time h dst Hdst)|]. by apply expect_frame_behaves. }
  apply finish_behaves; [|done]. apply lookup_insert_eq.
Qed.

End Receiver.

(** A stream from standard input arrives.  However standard input is read and
    however the transport cuts the bytes, both ends finish, and nowhere else
    than here: the destination file holds exactly what was read, both sides
    computed the same summary of it, and both counters stand at the same bytes. *)
Theorem stdin_stream_arrives fuel fuel' planned root path pieces d m t1 t2 stall stall' summary :
  stage_path root (rel_path (manifest planned)) = Ok path -> creatable path d m ->
  Forall piece_ok pieces -> length pieces < fuel -> S (length pieces) < fuel' ->
  (nlen (concat pieces) < 2 ^ 64)%N ->
  let total := nlen (concat pieces) in
  let digest := blake3_hash_hex (concat pieces) in
  fits (StreamEnd total digest) -> fits (StreamVerified total digest) ->
  summary_from_materialized_entries [materialized (manifest planned) total digest] = Ok summary ->
  ends_in at_source at_destination
    (Net (send_stdin_stream fuel [planned] stall) (t1, pieces)
         (receive_stdin_stream fuel' [manifest planned] root stall') (tt, (d, t2)) [] [])
    (final (Ok summary) (count_pieces (set_current t1 "stdin") pieces, [])
       (Ok summary) (tt, (landed path d m (concat pieces), count_pieces (set_current t2 "stdin") pieces))).
Proof.
  intros Hpath Hc Hp Hf Hf' Ht total digest He Hv <-.
  eapply dual_peers_end; [by apply (send_behaves at_source pair source_feeds)| |].
  { by apply (receive_behaves at_destination (fun d t => (tt, (d, t))) destination_stores). }
  by autorewrite with rb.
Qed.
End Stdin.

Definition demo_pieces : list bytes := [[x68; x65; x6c]; [x6c; x6f]].

Definition demo_stdin : PlannedEntry := {|
  manifest := {| id := 0; rel_path := ""; kind := RegularFile; size := None; full_hash := None;
    chunk_count := 0; symlink_target := None; device := None; mode := Some 420%N |};
  source_path := None |}.

Definition empty_disk : disk := Disk ∅ ∅ ∅ 1.

Lemma demo_fits f : (nlen (frame_bytes f) <=? FRAME_LIMIT)%N = true -> fits f.
Proof.
  intros Hl%N.leb_le. apply demo_frame_encodes. etrans; [|exact Hl]. unfold frame_bytes.
  destruct (to_vec f); [|simpl; lia..]. unfold wire_bytes. rewrite nlen_app. lia.
Qed.

(** Records by their path. *)
#[local] Instance plain_record_json : Json TransferRecord :=
  {| to_vec := fun r => Ok (String.list_byte_of_string (record_rel_path r)); from_slice := fun _ => Err "plain" |}.

Lemma stdin_stream_arrives_witness :
  exists d t1 t2 s,
    ends_in at_source at_destination
      (Net (send_stdin_stream 9 [demo_stdin] 5) (ProgressTracker_new false "sender" None 1, demo_pieces)
           (receive_stdin_stream 9 [manifest demo_stdin] "x" 0)
           (tt, (empty_disk, ProgressTracker_new false "listener" None 1)) [] [])
      (final (Ok s) (t1, []) (Ok s) (tt, (d, t2))) /\
    d_nodes d !! components "x" = Some (NFile (concat demo_pieces)) /\
    bytes_done t1 = 5%N /\ bytes_done t2 = 5%N.
Proof.
  do 4 eexists. split.
  - apply (stdin_stream_arrives 9 9 demo_stdin "x" "x" demo_pieces empty_disk ∅).
    + vm_compute. reflexivity.
    + split; [reflexivity|]. intros n. vm_compute. discriminate.
    + repeat constructor; try discriminate; apply demo_fits; vm_compute; reflexivity.
    + simpl. lia.
    + simpl. lia.
    + vm_compute. reflexivity.
    + apply demo_fits. vm_compute. reflexivity.
    + apply demo_fits. vm_compute. reflexivity.
    + vm_compute. reflexivity.
  - split; [vm_compute; reflexivity|]. split; vm_compute; reflexivity.
Defined.
