(* ===== verification/ScanTheorems.v ===== *)
(** * Theorems about scanning

    What a sender scans, a receiver accepts: the manifest of any tree passes the
    receiver's validation. *)

From stdpp Require Import list gmap sorting.
From S2P Require Import Prelude Streams Json Wire Demo Proto Text Paths Transfer TransferTheorems.
From S2P Require Import Fs Disk Tracker Frames Resume Workers Scan Receive TransferDemo.

(** What holds of the successful results of a program. *)
Definition yields {S E A} (P : A -> Prop) (p : prog S (result E A)) : Prop :=
  always (fun r => forall a, r = Ok a -> P a) p.

Lemma yields_try {S E A B} (P : A -> Prop) (Q : B -> Prop) (p : prog S (result E A))
  (f : A -> prog S (result E B)) :
  yields P p -> (forall a, P a -> yields Q (f a)) -> yields Q (ptry p f).
Proof.
  intros Hp Hf. unfold ptry. eapply always_bind; [exact Hp|].
  intros [a|e|] Ha; simpl; [apply Hf; by apply Ha|done..].
Qed.

Lemma yields_any {S E A} (p : prog S (result E A)) : yields (fun _ => True) p.
Proof. by apply always_true. Qed.

(** ** Manifests of trees *)

Section Tree.
Context `{HexLaws} (begin : BeginFrame).

Record tree (lo hi : N) (es : list ManifestEntry) (ps : list (list component)) : Prop := {
  tree_paths : Forall2 entry_path es ps;
  tree_distinct : NoDup ps;
  tree_order i j e q p : es !! i = Some e -> ps !! i = Some q -> ps !! j = Some p -> i < j ->
    strictly_below p q -> is_directory (kind e) = true;
  tree_ids : NoDup (id <$> es);
  tree_range : Forall (fun e => lo <= id e < hi)%N es;
  tree_le : (lo <= hi)%N;
  tree_regular : Forall (regular_ok begin) es;
}.

Lemma tree_nil lo hi : (lo <= hi)%N -> tree lo hi [] [].
Proof. by split; try constructor. Qed.

Lemma tree_one e p : entry_path e p -> regular_ok begin e -> tree (id e) (id e + 1) [e] [p].
Proof.
  intros Hp Hr. split; [by repeat constructor|apply NoDup_singleton| |apply NoDup_singleton| |lia|by repeat constructor].
  - intros [|i] [|j] e' q p' ? ? ? ?; simplify_eq/=; lia.
  - constructor; [lia|constructor].
Qed.

Lemma tree_app lo mid hi es1 ps1 es2 ps2 :
  tree lo mid es1 ps1 -> tree mid hi es2 ps2 ->
  (forall i e p q, es1 !! i = Some e -> ps1 !! i = Some p -> q ∈ ps2 ->
     p <> q /\ (strictly_below q p -> is_directory (kind e) = true)) ->
  tree lo hi (es1 ++ es2) (ps1 ++ ps2).
Proof.
  intros [P1 D1 O1 I1 R1 L1 G1] [P2 D2 O2 I2 R2 L2 G2] Hx. pose proof (Forall2_length _ _ _ P1) as Hlen.
  split; [by apply Forall2_app| | | | |lia|by apply Forall_app].
  - apply NoDup_app. split_and!; [done| |done]. intros p Hp Hq.
    apply list_elem_of_lookup in Hp as [i Hi].
    destruct (lookup_lt_is_Some_2 es1 i) as [e He]; [rewrite Hlen; by eapply lookup_lt_Some|].
    by destruct (Hx i e p p He Hi Hq).
  - intros i j e q p He Hq Hp Hij Hb.
    apply lookup_app_Some in He as [He|[Hi He]].
    + assert (Hi : i < length ps1) by (rewrite <- Hlen; by eapply lookup_lt_Some).
      rewrite lookup_app_l in Hq by done.
      apply lookup_app_Some in Hp as [Hp|[Hj Hp]]; [by eapply (O1 i j)|].
      by destruct (Hx i e q p He Hq (list_elem_of_lookup_2 _ _ _ Hp)) as [_ Hd]; apply Hd.
    + rewrite lookup_app_r in Hq by lia. rewrite lookup_app_r in Hp by lia. rewrite Hlen in He.
      eapply (O2 (i - length ps1) (j - length ps1)); [done..|lia|done].
  - rewrite fmap_app. apply NoDup_app. split_and!; [done| |done].
    intros k (e1&->&H1)%list_elem_of_fmap (e2&E&H2)%list_elem_of_fmap.
    rewrite Forall_forall in R1, R2. specialize (R1 e1 H1). specialize (R2 e2 H2). lia.
  - apply Forall_app. split; [eapply Forall_impl; [exact R1|]; simpl; lia|].
    eapply Forall_impl; [exact R2|]; simpl; lia.
Qed.

(** All paths lie at or below the names [ns]. *)
Definition rooted (ns : list string) (ps : list (list component)) : Prop :=
  Forall (fun p => (Normal <$> ns) `prefix_of` p) ps.

Lemma rooted_apart ns n1 n2 p q :
  n1 <> n2 -> (Normal <$> ns ++ [n1]) `prefix_of` p -> (Normal <$> ns ++ [n2]) `prefix_of` q ->
  p <> q /\ ~ strictly_below q p.
Proof.
  intros Hn [r1 ->] [r2 ->]. rewrite !fmap_app, <- !app_assoc. split.
  - intros E%app_inv_head. simpl in E. congruence.
  - intros (r&_&E). rewrite <- !app_assoc in E. apply app_inv_head in E. simpl in E. congruence.
Qed.

(** The entry of a directory, before those of what it contains. *)
Lemma tree_dir e ns hi es ps :
  entry_path e (Normal <$> ns) -> kind e = Directory -> tree (id e + 1) hi es ps ->
  Forall (fun p => strictly_below p (Normal <$> ns)) ps ->
  tree (id e) hi (e :: es) ((Normal <$> ns) :: ps) /\ rooted ns ((Normal <$> ns) :: ps).
Proof.
  intros Hp Hk Ht Hb. split.
  - apply (tree_app _ _ _ [e] [Normal <$> ns] _ _ (tree_one e _ Hp ltac:(intros ?; by rewrite Hk in *)) Ht).
    intros [|i] e' p q ? ? Hq; simplify_eq/=. split; [|by rewrite Hk].
    intros <-. rewrite Forall_forall in Hb. by apply (strictly_below_irrefl (Normal <$> ns)), Hb.
  - constructor; [done|]. eapply Forall_impl; [exact Hb|]. simpl. intros p (r&_&->). by exists r.
Qed.

Lemma tree_manifest hi e es p ps :
  rel_path e = "" -> tree 0 hi (e :: es) (p :: ps) -> validate_manifest begin (e :: es) = Ok tt.
Proof.
  intros Hr [P D O I R L G]. unfold validate_manifest. rewrite Hr. cbn [String.eqb negb].
  apply validate_entries_ok. split_and!; [done| |exists (p :: ps)|done].
  - apply Forall_forall. intros x _. simpl. set_solver.
  - split_and!; [done..| |done]. apply Forall_forall. intros x _. simpl. by setoid_rewrite lookup_empty.
Qed.
End Tree.

(** ** What a scan gathers *)

Section Scanned.
Context {T : sig} `{Has fs_sig T} `{HexLaws} `{Blake3} `{Libc} {St : Type} (h : handler T St).
Context (symlinks : SymlinkMode) (devices : DeviceMode) (fuel : nat).
Context (begin : BeginFrame) (Hroot : root_source begin = Filesystem).

(** A leaf adds one entry, or is left out. *)
Definition leaf_added (rel rel_string : string) (i : N) (s s' : scanned) : Prop :=
  scan_next s' = scan_next s /\
  (s' = s /\ rel <> "" \/
   exists e, scan_entries s' = scan_entries s ++ [e] /\ id (manifest e) = i /\
     rel_path (manifest e) = rel_string /\ regular_ok begin (manifest e)).

Lemma scan_leaf_added source rel rel_string i meta s :
  yields (leaf_added rel rel_string i s) (scan_leaf symlinks devices fuel source rel rel_string i meta s).
Proof.
  unfold scan_leaf. destruct (meta_type meta).
  - eapply yields_try; [apply yields_any|]. intros hash _.
    eapply yields_try; [apply yields_any|]. intros total _ s' [= <-]. split; [done|right].
    eexists. split_and!; [done..|]. intros _. simpl. rewrite Hroot. by eexists _, _.
  - by intros s'.
  - case_decide.
    + intros s'. destruct (String.eqb_spec rel ""); [done|]. intros [= <-]. split; [done|by left].
    + eapply yields_try; [apply yields_any|]. intros target _ s' [= <-].
      split; [done|right]. eexists. by split_and!.
  - case_decide.
    + intros s'. destruct (String.eqb_spec rel ""); [done|]. intros [= <-]. split; [done|by left].
    + intros s' [= <-]. split; [done|right]. eexists. split_and!; [done..|]. intros Hk. by simpl in Hk.
  - case_decide.
    + intros s'. destruct (String.eqb_spec rel ""); [done|]. intros [= <-]. split; [done|by left].
    + intros s' [= <-]. split; [done|right]. eexists. split_and!; [done..|]. intros Hk. by simpl in Hk.
  - by intros s'.
Qed.

(** What a scan of the subtree at [ns] adds. *)
Definition subtree (ns : list string) (s s' : scanned) : Prop :=
  exists new ps, scan_entries s' = scan_entries s ++ new /\
    tree begin (scan_next s) (scan_next s') (manifest <$> new) ps /\ rooted ns ps.

Definition starts (rel : string) (s s' : scanned) : Prop :=
  rel = "" -> exists e new, scan_entries s' = scan_entries s ++ e :: new /\ rel_path (manifest e) = "".

(** A directory lists each name once, and names are names. *)
Context (lists : forall dir st names st',
  run h (collect_names fuel dir []) st = (Ok names, st') -> NoDup names /\ Forall name_ok names).

Lemma scan_children_tree depth' source rel ns names st s s' st' :
  (forall source rel ns st s s' st', components rel = Normal <$> ns -> Forall name_ok ns ->
     run h (scan_entry symlinks devices fuel depth' source rel s) st = (Ok s', st') ->
     subtree ns s s') ->
  components rel = Normal <$> ns -> Forall name_ok ns -> NoDup names -> Forall name_ok names ->
  run h ((fix scan_children (names : list string) (st : scanned) : prog T (ares scanned) :=
     match names with
     | [] => Ret (Ok st)
     | name :: names' =>
         let? st := scan_entry symlinks devices fuel depth' (push source name) (child_path rel name) st in
         scan_children names' st
     end) names s) st = (Ok s', st') ->
  exists new ps, scan_entries s' = scan_entries s ++ new /\
    tree begin (scan_next s) (scan_next s') (manifest <$> new) ps /\
    Forall (fun p => exists n, n ∈ names /\ (Normal <$> ns ++ [n]) `prefix_of` p) ps.
Proof.
  intros IH Hrel Hns Hnd Hok. revert s st. induction names as [|n names IHn]; intros s st Hr.
  - injection Hr as <- <-. exists [], []. rewrite app_nil_r. split_and!; [done|by apply tree_nil|constructor].
  - apply NoDup_cons in Hnd as [Hn Hnd]. apply Forall_cons in Hok as [Hnok Hok].
    apply run_try_ok in Hr as (s1&st1&Hrun&Hr).
    assert (Hchild : components (child_path rel n) = Normal <$> ns ++ [n]).
    { rewrite fmap_app, <- Hrel. unfold child_path. destruct (String.eqb_spec rel "") as [->|_];
        [by apply name_components|by apply push_name]. }
    destruct (IH _ _ _ _ _ _ _ Hchild (Forall_app_2 _ _ _ Hns (proj2 (Forall_singleton _ _) Hnok)) Hrun)
      as (new1&ps1&E1&T1&B1).
    destruct (IHn Hnd Hok _ _ Hr) as (new2&ps2&E2&T2&B2).
    exists (new1 ++ new2), (ps1 ++ ps2). split_and!.
    + by rewrite E2, E1, app_assoc.
    + rewrite fmap_app. eapply tree_app; [exact T1|exact T2|]. intros i e p q _ Hp Hq.
      unfold rooted in B1. rewrite Forall_forall in B1, B2.
      pose proof (B1 p (list_elem_of_lookup_2 _ _ _ Hp)) as Hp1. destruct (B2 q Hq) as (n2&Hn2&Hq2).
      destruct (rooted_apart ns n n2 p q) as [Hne Hb]; [by intros ->|done..|]. split; [done|]. by intros ?%Hb.
    + apply Forall_app. split.
      * eapply Forall_impl; [exact B1|]. intros p Hp. exists n. split; [by left|done].
      * eapply Forall_impl; [exact B2|]. intros p (n2&Hn2&Hp). exists n2. split; [by right|done].
Qed.

Lemma yields_run {E A} (P : A -> Prop) (p : prog T (result E A)) st a st' :
  yields P p -> run h p st = (Ok a, st') -> P a.
Proof. intros Hp Hr. pose proof (always_run _ _ h st Hp) as Ha. rewrite Hr in Ha. by apply Ha. Qed.

Lemma scan_entry_tree depth source rel ns st s s' st' :
  components rel = Normal <$> ns -> Forall name_ok ns ->
  run h (scan_entry symlinks devices fuel depth source rel s) st = (Ok s', st') ->
  subtree ns s s' /\ starts rel s s'.
Proof.
  revert source rel ns st s s' st'. induction depth as [|depth IH]; intros source rel ns st s s' st' Hrel Hns Hr; [done|].
  cbn [scan_entry] in Hr. apply run_try_ok in Hr as (meta&st1&_&Hr).
  destruct (encode_names rel ns Hrel Hns) as (text&path'&Etext&Hd&Hc). rewrite Etext in Hr.
  assert (Hempty : rel = "" -> text = "").
  { intros ->. unfold encode_relative_path in Etext. simpl in Etext. congruence. }
  apply run_try_ok in Hr as (text'&st2&[= <- <-]&Hr).
  apply run_try_ok in Hr as (next&st3&Hnext&Hr).
  unfold checked_add in Hnext. destruct (_ <=? u32_max)%N; [|done]. injection Hnext as <- <-.
  assert (Hpath : forall e, rel_path e = text -> entry_path e (Normal <$> ns)).
  { intros e He. exists path'. rewrite He, Hd, <- Hc. split_and!; [done..|]. rewrite Hc.
    clear. induction ns; simpl; auto. }
  destruct (is_dir meta).
  - set (own := blank_entry (scan_next s) text Directory (file_mode meta)) in Hr.
    apply run_try_ok in Hr as (dir&st3&_&Hr).
    rewrite run_bind in Hr. destruct (run h (collect_names fuel dir []) st3) as [names st4] eqn:Hl.
    cbn [fst snd] in Hr. destruct names as [names|e|]; [|done..].
    destruct (lists _ _ _ _ Hl) as [Hnd Hok].
    cbn [map_err ptry pbind] in Hr.
    eapply scan_children_tree in Hr as (new&ps&E&Ht&Hb); [|by intros; eapply IH|exact Hrel|exact Hns|..].
    + cbn [scan_entries push_entry] in E. rewrite <- app_assoc in E.
      destruct (tree_dir begin own ns (scan_next s') (manifest <$> new) ps) as [Ht' Hb'];
        [by apply Hpath|done|exact Ht| |].
      { eapply Forall_impl; [exact Hb|]. intros p (n&_&r&->). exists (Normal n :: r). split; [done|].
        by rewrite fmap_app, <- app_assoc. }
      split; [|intros Hempty'; eexists _, _; split; [exact E|]; by apply Hempty].
      eexists _, _. split_and!; [exact E|exact Ht'|exact Hb'].
    + by rewrite merge_sort_Permutation.
    + by rewrite merge_sort_Permutation.
  - pose proof (yields_run _ _ _ _ _ (scan_leaf_added source rel text (scan_next s) meta _) Hr)
      as (Hn&[[-> Hne]|(e&E&Hi&Ht&Hreg)]).
    + split; [|by intros ?]. exists [], []. rewrite app_nil_r. split_and!; [done| |constructor].
      apply tree_nil. simpl. lia.
    + cbn [scan_next scan_entries] in *. split; [|intros Hempty'; exists e, []; split; [done|by rewrite Ht, Hempty]].
      exists [e], [Normal <$> ns]. split_and!; [done| |by constructor].
      rewrite Hn, <- Hi. apply tree_one; [by apply Hpath|done].
Qed.
End Scanned.

(** C24: what a sender scans a receiver accepts.  If a directory lists names, and
    each of them once, then whatever the tree holds and however it changes while
    it is scanned, the manifest of a scan that succeeds passes the validation of
    the receiver that is sent it. *)
Theorem scanned_manifest_accepted {T} `{Has fs_sig T} `{HexLaws} `{Blake3} `{Libc} {St : Type}
  (h : handler T St) symlinks devices fuel depth tid source parallel transport st plan st' :
  (forall dir st names st',
     run h (collect_names fuel dir []) st = (Ok names, st') -> NoDup names /\ Forall name_ok names) ->
  run h (scan_filesystem_transfer symlinks devices fuel depth tid source parallel) st = (Ok plan, st') ->
  validate_manifest (begin_frame plan transport) (manifest <$> planned_entries plan) = Ok tt.
Proof.
  intros Hl Hr. unfold scan_filesystem_transfer in Hr.
  apply run_try_ok in Hr as (root&st1&_&Hr). apply run_try_ok in Hr as (s&st2&Hs&Hr).
  destruct (scan_entries s) as [|e es] eqn:Ees; [done|]. injection Hr as <- _.
  set (begin := begin_frame _ transport).
  destruct (scan_entry_tree h symlinks devices fuel begin eq_refl Hl depth source "" [] _ _ _ _ eq_refl (Forall_nil_2 _) Hs)
    as [(new&ps&E&Ht&_) Hst].
  destruct (Hst eq_refl) as (e'&new'&E'&He'). cbn [scan_entries scan_next app] in E, E', Ht.
  rewrite Ees in E, E'. injection E' as <- <-. subst new. cbn [planned_entries].
  rewrite fmap_cons in Ht |- *. destruct ps as [|p ps].
  { pose proof (Forall2_length _ _ _ (tree_paths _ _ _ _ _ Ht)) as Hlen. done. }
  by eapply tree_manifest.
Qed.

(** A directory of two empty files; the state counts the names not yet listed. *)
Definition shelf : handler fs_sig nat :=
  fun o st =>
    match o return result io_error (fs_ans o) * nat with
    | FsSymlinkMetadata path =>
        (Ok {| meta_type := if String.eqb path "/src" then FtDir else FtFile; meta_len := 0;
               meta_mode := 420; meta_rdev := 0 |}, st)
    | FsReadDir _ => (Ok 7%N, 2)
    | FsNextEntry _ =>
        match st with
        | S (S _) => (Ok (Some "b.txt"), 1)
        | 1 => (Ok (Some "a.txt"), 0)
        | O => (Ok None, 0)
        end
    | FsOpen _ _ => (Ok 8%N, st)
    | FsReadSome _ _ => (Ok [], st)
    | _ => (Err not_found, st)
    end.

Lemma scanned_manifest_accepted_witness :
  exists plan st',
    run shelf (scan_filesystem_transfer SymlinkInclude DeviceExclude 5 5 "t" "/src" 4) 0 = (Ok plan, st') /\
    length (planned_entries plan) = 3 /\
    validate_manifest (begin_frame plan {| direct_udp := false; relay_tls := true |})
      (manifest <$> planned_entries plan) = Ok tt.
Proof.
  eexists _, _. split; [vm_compute; reflexivity|]. split; [reflexivity|].
  eapply (scanned_manifest_accepted shelf SymlinkInclude DeviceExclude 5 5 "t" "/src" 4 _ 0).
  - intros dir [|[|n]] names st' Hn; vm_compute in Hn; injection Hn as <- _;
      (split; [apply (bool_decide_unpack _); vm_compute; reflexivity|]);
      repeat constructor; discriminate.
  - vm_compute. reflexivity.
Defined.
