(* ===== verification/ReceiveTheorems.v ===== *)
(** * Theorems about the receiver's disk

    On the in-memory file system: what a destination that is taken for complete
    holds, and what committing a transfer does to the tree. *)

From stdpp Require Import list gmap.
From S2P Require Import Prelude Streams Json Wire Demo Proto Text Paths Transfer TransferTheorems.
From S2P Require Import Fs Disk Tracker Frames Resume Workers Scan Receive TransferDemo Exchange.

(** A call is answered by the disk. *)
Lemma run_fs_q o d :
  run disk_handler (fs_q o) d = (map_err AnyIo (disk_handler o d).1, (disk_handler o d).2).
Proof. done. Qed.

Lemma run_fs_ctx msg o d :
  run disk_handler (fs_ctx msg o) d =
    (map_err (fun e => AnyContext msg (AnyIo e)) (disk_handler o d).1, (disk_handler o d).2).
Proof. done. Qed.

Lemma run_fs o d : run disk_handler (fs o) d = disk_handler o d.
Proof. unfold fs, call, has_self, trigger. simpl. by destruct (disk_handler o d). Qed.

#[export] Hint Rewrite run_fs_q run_fs_ctx run_fs : run.

(** ** A destination that is taken for complete *)

Section Satisfied.
Context `{Blake3} `{Hex}.

(** The same tree; handles may have been opened. *)
Definition same_tree (d d' : disk) : Prop := d_nodes d' = d_nodes d.

Lemma copy_buffer_positive : 0 < N.to_nat COPY_BUFFER.
Proof. assert (0 < COPY_BUFFER)%N by done. lia. Qed.

Lemma hash_loop_reads fuel path fh q d data pos hasher :
  d_open d !! fh = Some (q, pos) -> d_nodes d !! q = Some (NFile data) ->
  length data - N.to_nat pos < fuel ->
  exists d', run disk_handler (hash_loop fuel path fh hasher) d =
      (Ok (blake3_hash_hex (hasher ++ drop (N.to_nat pos) data)), d') /\ same_tree d d'.
Proof.
  revert d pos hasher; induction fuel as [|fuel IH]; intros d pos hasher Ho Hn Hf; [lia|].
  cbn [hash_loop]. rewrite run_try, run_fs_ctx. cbn [disk_handler]. rewrite Ho, Hn. cbn [fst snd map_err].
  pose proof copy_buffer_positive as Hb. revert Hb. generalize (N.to_nat COPY_BUFFER) as n. intros n Hb.
  set (rest := drop (N.to_nat pos) data) in *.
  assert (Hlen : length rest = length data - N.to_nat pos) by apply length_drop.
  destruct (take n rest) as [|b bs] eqn:Ebs.
  - assert (Hrest : rest = []) by (destruct n; [lia|]; by destruct rest).
    exists (at_position d fh q (pos + nlen (@nil byte))). split; [|done]. by rewrite Hrest, app_nil_r.
  - set (d1 := at_position d fh q (pos + nlen (b :: bs))).
    assert (Hpos : 0 < length rest) by (destruct rest; [by rewrite take_nil in Ebs|simpl; lia]).
    destruct (IH d1 (pos + nlen (b :: bs))%N (hasher ++ b :: bs)) as (d'&Hr&Hs).
    + unfold d1. simpl. by rewrite lookup_insert_eq.
    + done.
    + rewrite nlen_cons. lia.
    + exists d'. split; [|done]. rewrite Hr, <- app_assoc. do 4 f_equal.
      unfold nlen. rewrite N2Nat.inj_add, Nat2N.id, <- drop_drop. fold rest.
      rewrite <- Ebs, length_take. destruct (le_lt_dec n (length rest)).
      * by rewrite Nat.min_l, firstn_skipn by lia.
      * by rewrite Nat.min_r, take_ge, drop_ge, app_nil_r by lia.
Qed.

Lemma hash_file_reads fuel path d data :
  d_nodes d !! components path = Some (NFile data) -> length data < fuel ->
  exists d', run disk_handler (hash_file_async fuel path) d = (Ok (blake3_hash_hex data), d') /\ same_tree d d'.
Proof.
  intros Hn Hf. unfold hash_file_async, hash_file_sync. rewrite run_try, run_fs_ctx.
  cbn [disk_handler]. rewrite Hn. cbn [fst snd map_err o_truncate read_only].
  destruct (hash_loop_reads fuel path (d_next d) (components path)
    (opened_file d (d_nodes d) (components path)) data 0 []) as (d'&Hr&Hs).
  - simpl. by rewrite lookup_insert_eq.
  - done.
  - simpl. lia.
  - by exists d'.
Qed.

(** What an entry of the manifest says is at a path. *)
Definition present (d : disk) (path : string) (entry : ManifestEntry) : Prop :=
  match kind entry with
  | RegularFile => exists data, d_nodes d !! components path = Some (NFile data) /\
      size entry = Some (nlen data) /\ full_hash entry = Some (blake3_hash_hex data)
  | Directory => d_nodes d !! components path = Some NDir
  | _ => False
  end.

Definition all_present (d : disk) (root : string) (entries : list ManifestEntry) : Prop :=
  forall entry, entry ∈ entries -> exists path, stage_path root (rel_path entry) = Ok path /\ present d path entry.

Lemma entry_satisfied_spec fuel d path entry :
  (forall data, d_nodes d !! components path = Some (NFile data) -> length data < fuel) ->
  exists b d', run disk_handler (entry_satisfied fuel path entry) d = (Ok b, d') /\ same_tree d d' /\
    (b = true <-> present d path entry).
Proof.
  intros Hfuel. unfold entry_satisfied, present. destruct (kind entry).
  - destruct (full_hash entry) as [expected|]; [|exists false, d; naive_solver].
    rewrite run_bind, run_fs. cbn [disk_handler fst snd].
    destruct (d_nodes d !! components path) as [n|] eqn:En; cbn [fmap option_fmap option_map ok_or];
      [|exists false, d; naive_solver].
    destruct n as [data| | |block dev].
    2-4: exists false, d; split_and!; [try destruct block; reflexivity|done|naive_solver].
    destruct (bool_decide_reflect (Some (nlen data) = size entry)) as [Hs|Hs].
    + destruct (hash_file_reads fuel path d data En (Hfuel data eq_refl)) as (d'&Hr&Ht).
      assert (Hb : bool_decide (Some (nlen data) = size entry) = true) by by apply bool_decide_eq_true.
      exists (String.eqb (blake3_hash_hex data) expected), d'. split_and!; [|done|].
      * change (is_file _) with true. cbn [meta_of meta_len]. rewrite Hb. cbn [negb orb].
        rewrite run_try, Hr. done.
      * rewrite String.eqb_eq. naive_solver.
    + assert (Hb : bool_decide (Some (nlen data) = size entry) = false) by by apply bool_decide_eq_false.
      exists false, d. split_and!; [|done|naive_solver].
      change (is_file _) with true. cbn [meta_of meta_len]. by rewrite Hb.
  - eexists _, d. split; [reflexivity|]. split; [done|].
    cbn [disk_handler fst]. destruct (d_nodes d !! components path) as [[| | |block dev]|];
      try destruct block; split; intros Hx; first [done|discriminate Hx|reflexivity].
  - exists false, d. naive_solver.
  - exists false, d. naive_solver.
  - exists false, d. naive_solver.
Qed.

(** Files short enough for the fuel, and paths that decode. *)
Definition readable_tree (fuel : nat) (d : disk) : Prop :=
  forall q data, d_nodes d !! q = Some (NFile data) -> length data < fuel.

Lemma entries_satisfied_spec fuel root entries d :
  readable_tree fuel d ->
  (forall entry, entry ∈ entries -> exists path, stage_path root (rel_path entry) = Ok path) ->
  exists b d', run disk_handler (entries_satisfied fuel root entries) d = (Ok b, d') /\ same_tree d d' /\
    (b = true <-> all_present d root entries).
Proof.
  intros Hf Hpaths. revert d Hf. induction entries as [|entry entries IH]; intros d Hf.
  { exists true, d. split_and!; [done..|]. split; [|done]. by intros _ e ?%elem_of_nil. }
  destruct (Hpaths entry ltac:(by left)) as [path Hp].
  destruct (entry_satisfied_spec fuel d path entry (Hf _)) as (b&d1&Hr&Hs&Hb).
  cbn [entries_satisfied]. rewrite Hp, run_try. cbn [run fst snd]. rewrite run_try, Hr. cbn [fst snd].
  destruct b.
  - destruct (IH ltac:(intros e He; apply Hpaths; by right) d1) as (b'&d2&Hr2&Hs2&Hb2).
    { intros q data. rewrite Hs. apply Hf. }
    exists b', d2. split_and!; [done|unfold same_tree in *; congruence|]. rewrite Hb2. unfold all_present, present. rewrite Hs.
    split.
    + intros Hall e [->|He]%elem_of_cons; [|by apply Hall]. exists path. split; [done|]. by apply Hb.
    + intros Hall e He. apply Hall. by right.
  - exists false, d1. split_and!; [done..|]. split; [done|]. intros Hall.
    destruct (Hall entry ltac:(by left)) as (path'&Hp'&Hpres). rewrite Hp in Hp'. injection Hp' as <-.
    by apply Hb in Hpres.
Qed.

(** C23: a match is proved by content.  A destination is taken for complete exactly
    when it is there and every entry of the manifest is in it: each file with the
    size and the digest the manifest states, each directory a directory, and
    nothing the check does not look into (links, devices).  The tree is not
    touched. *)
Theorem complete_means_present fuel d root entries multi_source :
  readable_tree fuel d ->
  (forall entry, entry ∈ entries -> exists path, stage_path root (rel_path entry) = Ok path) ->
  exists b d', run disk_handler (destination_satisfies_manifest fuel root entries multi_source) d = (Ok b, d') /\
    d_nodes d' = d_nodes d /\
    (b = true <->
     (multi_source = true \/ is_Some (d_nodes d !! components root)) /\ all_present d root entries).
Proof.
  intros Hf Hpaths. destruct (entries_satisfied_spec fuel root entries d Hf Hpaths) as (b&d'&Hr&Hs&Hb).
  unfold destination_satisfies_manifest. rewrite run_try. destruct multi_source.
  - exists b, d'. split_and!; [exact Hr|exact Hs|]. rewrite Hb. naive_solver.
  - rewrite run_try, run_fs_q. cbn [disk_handler fst snd map_err run].
    destruct (bool_decide_reflect (is_Some (d_nodes d !! components root))) as [He|He]; cbn [negb].
    + exists b, d'. split_and!; [exact Hr|exact Hs|]. rewrite Hb. naive_solver.
    + exists false, d. split_and!; [done..|]. naive_solver.
Qed.
End Satisfied.

(** ** Moving trees *)

Definition apart (p q : key) : Prop := ~ p `prefix_of` q /\ ~ q `prefix_of` p.

Lemma under_spec q k : under q k = true <-> q `prefix_of` k.
Proof. apply bool_decide_eq_true. Qed.

Lemma under_app q r : under q (q ++ r) = true.
Proof. apply under_spec. by exists r. Qed.

Lemma not_under q k : ~ q `prefix_of` k -> under q k = false.
Proof. intros Hk. destruct (under q k) eqn:E; [by apply under_spec in E|done]. Qed.

Lemma apart_app p q r s : apart p q -> p ++ r <> q ++ s.
Proof.
  intros [H1 H2] E. destruct (prefix_weak_total p q (p ++ r)) as [Hp|Hp]; [by exists r|by exists s|done..].
Qed.

Lemma apart_under p q r : apart p q -> under p (q ++ r) = false.
Proof.
  intros Ha. apply not_under. intros [s E]. by destruct (apart_app p q s r Ha).
Qed.

Lemma apart_sym p q : apart p q -> apart q p.
Proof. by intros []. Qed.

Lemma apart_below p q r : apart p q -> apart p (q ++ r).
Proof.
  intros Ha. split; intros [s E].
  - symmetry in E. by apply (apart_app p q s r Ha).
  - apply (apart_app p q [] (r ++ s) Ha). by rewrite app_nil_r, app_assoc.
Qed.

Lemma prune_lookup (q k : key) (m : gmap key node) :
  prune q m !! k = if under q k then None else m !! k.
Proof.
  apply option_eq. intros n. unfold prune. rewrite map_lookup_filter_Some. simpl.
  destruct (under q k); naive_solver.
Qed.

Definition moved (a b k : key) : key := if under a k then b ++ drop (length a) k else k.

Lemma moved_inj a b k1 k2 :
  under b k1 = false -> under b k2 = false -> moved a b k1 = moved a b k2 -> k1 = k2.
Proof.
  unfold moved. intros H1 H2. destruct (under a k1) eqn:U1, (under a k2) eqn:U2; [|..].
  - apply under_spec in U1 as [r1 ->], U2 as [r2 ->]. rewrite !drop_app_length. by intros ->%app_inv_head.
  - intros <-. by rewrite under_app in H2.
  - intros ->. by rewrite under_app in H1.
  - done.
Qed.

Lemma graft_lookup (a b k : key) (m : gmap key node) n :
  graft a b m !! k = Some n <->
  exists k0, k = moved a b k0 /\ under b k0 = false /\ m !! k0 = Some n.
Proof.
  unfold graft. rewrite <- elem_of_list_to_map.
  - rewrite list_elem_of_fmap. split.
    + intros ([k0 n0]&E&Hin%elem_of_map_to_list). rewrite prune_lookup in Hin. simpl in E.
      destruct (under b k0) eqn:U; [done|]. exists k0. unfold moved.
      destruct (under a k0); injection E as -> ->; by split_and!.
    + intros (k0&->&U&Hk). exists (k0, n). split; [unfold moved; simpl; by destruct (under a k0)|].
      apply elem_of_map_to_list. by rewrite prune_lookup, U.
  - rewrite <- list_fmap_compose.
    apply NoDup_fmap_2_strong; [|apply NoDup_map_to_list].
    intros [k1 n1] [k2 n2] H1%elem_of_map_to_list H2%elem_of_map_to_list E.
    rewrite prune_lookup in H1, H2.
    destruct (under b k1) eqn:U1, (under b k2) eqn:U2; [done..|].
    assert (k1 = k2) as <-; [|congruence].
    apply (moved_inj a b); [done..|]. unfold moved. simpl in E.
    destruct (under a k1), (under a k2); exact E.
Qed.

(** What has moved is found below the new place, as it was. *)
Lemma graft_moved (a b r : key) (m : gmap key node) :
  apart a b -> graft a b m !! (b ++ r) = m !! (a ++ r).
Proof.
  intros Ha. apply option_eq. intros n. rewrite graft_lookup. split.
  - intros (k0&E&U&Hk). unfold moved in E. destruct (under a k0) eqn:Ua.
    + apply under_spec in Ua as [r0 ->]. rewrite drop_app_length in E. by apply app_inv_head in E as ->.
    + subst k0. by rewrite under_app in U.
  - intros Hk. exists (a ++ r). split_and!; [|by apply apart_under, apart_sym|done].
    unfold moved. by rewrite under_app, drop_app_length.
Qed.

Lemma graft_other (a b k : key) (m : gmap key node) :
  under a k = false -> under b k = false -> graft a b m !! k = m !! k.
Proof.
  intros Ua Ub. apply option_eq. intros n. rewrite graft_lookup. split.
  - intros (k0&E&U&Hk). unfold moved in E. destruct (under a k0) eqn:Ua0; [|by subst].
    subst k. by rewrite under_app in Ub.
  - intros Hk. exists k. unfold moved. by rewrite Ua.
Qed.

Lemma graft_source (a b r : key) (m : gmap key node) :
  apart a b -> graft a b m !! (a ++ r) = None.
Proof.
  intros Ha. apply eq_None_not_Some. intros [n (k0&E&U&Hk)%graft_lookup].
  unfold moved in E. destruct (under a k0) eqn:Ua.
  - by destruct (apart_app a b r (drop (length a) k0) Ha).
  - subst k0. by rewrite under_app in Ua.
Qed.

Lemma graft_moved_root (a b : key) (m : gmap key node) : apart a b -> graft a b m !! b = m !! a.
Proof. intros Ha. pose proof (graft_moved a b [] m Ha) as E. by rewrite !app_nil_r in E. Qed.

Lemma graft_source_root (a b : key) (m : gmap key node) : apart a b -> graft a b m !! a = None.
Proof. intros Ha. pose proof (graft_source a b [] m Ha) as E. by rewrite app_nil_r in E. Qed.

Lemma apart_not_under p q : apart p q -> under p q = false.
Proof. intros [Hp _]. by apply not_under. Qed.

(** ** Committing *)

Lemma rename_free a b d n :
  d_nodes d !! components a = Some n -> d_nodes d !! components b = None ->
  apart (components a) (components b) ->
  disk_handler (FsRename a b) d = (Ok tt, with_nodes d (graft (components a) (components b) (d_nodes d))).
Proof.
  intros Ha Hb Hx. cbn [disk_handler]. unfold replaceable. rewrite Ha, Hb.
  destruct n; (case_decide as E; [|done]); exfalso; destruct Hx as [Hx _]; apply Hx; by rewrite E.
Qed.

Lemma rename_missing a b d :
  d_nodes d !! components a = None -> disk_handler (FsRename a b) d = (Err not_found, d).
Proof. intros Ha. cbn [disk_handler]. unfold replaceable. by rewrite Ha. Qed.

#[local] Instance CollisionPolicy_eq_decision : EqDecision CollisionPolicy.
Proof. solve_decision. Defined.

#[local] Instance node_eq_decision : EqDecision node.
Proof. solve_decision. Defined.

Lemma meta_not_dir n : n <> NDir -> is_dir (meta_of n) = false.
Proof. by destruct n as [| | |[]]. Qed.

(** Removing what is at [p] leaves what is elsewhere. *)
Lemma remove_any_spec p d n :
  d_nodes d !! components p = Some n ->
  exists m, run disk_handler (remove_any p) d = (Ok tt, with_nodes d m) /\
    forall k : key, under (components p) k = false -> m !! k = d_nodes d !! k.
Proof.
  intros Hn. unfold remove_any. rewrite run_bind, run_fs. cbn [disk_handler fst snd]. rewrite Hn.
  cbn [fmap option_fmap option_map ok_or].
  destruct (decide (n = NDir)) as [->|Hd].
  - exists (prune (components p) (d_nodes d)). split; [|intros k Hk; by rewrite prune_lookup, Hk].
    etrans; [apply (run_fs_ctx _ (FsRemoveDirAll p))|]. cbn [disk_handler]. by rewrite Hn.
  - exists (delete (components p) (d_nodes d)). split.
    + rewrite (meta_not_dir n Hd). etrans; [apply (run_fs_ctx _ (FsRemoveFile p))|].
      cbn [disk_handler]. rewrite Hn. by destruct n.
    + intros k Hk. apply lookup_delete_ne. intros <-.
      by rewrite (proj2 (under_spec _ _) (reflexivity _)) in Hk.
Qed.

Section Place.
Context (what src dst backup : string) (d : disk).
Let S := components src.
Let D := components dst.
Let B := components backup.
Context (HSD : apart S D) (HSB : apart S B) (HDB : apart D B).
Context (Hfree : forall r, d_nodes d !! (B ++ r) = None).

Lemma free_backup : d_nodes d !! B = None.
Proof. pose proof (Hfree []) as E. by rewrite app_nil_r in E. Qed.

Lemma place_free collision n :
  d_nodes d !! S = Some n -> d_nodes d !! D = None ->
  run disk_handler (place collision what src dst backup) d = (Ok tt, with_nodes d (graft S D (d_nodes d))).
Proof.
  intros Hs Hd. unfold place. rewrite run_try, run_fs_q. cbn [disk_handler fst snd map_err].
  fold D. rewrite Hd. cbn [run fst snd].
  etrans; [apply (run_fs_ctx _ (FsRename src dst))|]. by rewrite (rename_free src dst d n).
Qed.

Lemma place_missing collision :
  d_nodes d !! S = None -> d_nodes d !! D = None ->
  exists e, run disk_handler (place collision what src dst backup) d = (Err e, d).
Proof.
  intros Hs Hd. eexists. unfold place. rewrite run_try, run_fs_q. cbn [disk_handler fst snd map_err].
  fold D. rewrite Hd. etrans; [apply (run_fs_ctx _ (FsRename src dst))|]. by rewrite rename_missing.
Qed.

Lemma place_taken collision n :
  collision <> Overwrite -> d_nodes d !! D = Some n ->
  run disk_handler (place collision what src dst backup) d =
    (Err (AnyMsg ("destination already exists: " +:+ to_string_lossy dst)), d).
Proof.
  intros Hc Hd. unfold place. rewrite run_try, run_fs_q. cbn [disk_handler fst snd map_err].
  fold D. rewrite Hd. cbn. by destruct collision.
Qed.

Lemma stage_kept : graft D B (d_nodes d) !! S = d_nodes d !! S.
Proof. apply graft_other; by apply apart_not_under, apart_sym. Qed.

Lemma overwritten n x :
  d_nodes d !! S = Some n -> d_nodes d !! D = Some x ->
  exists m, run disk_handler (place Overwrite what src dst backup) d = (Ok tt, with_nodes d m) /\
    forall k : key, under B k = false -> m !! k = graft S D (graft D B (d_nodes d)) !! k.
Proof.
  intros Hs Hd. unfold place. rewrite run_try, run_fs_q. cbn [disk_handler fst snd map_err].
  fold D. rewrite Hd. cbn [bool_decide]. rewrite bool_decide_eq_true_2 by done.
  rewrite run_try, run_fs_ctx, (rename_free dst backup d x) by (done || apply free_backup).
  cbn [fst snd map_err]. fold D B. set (d1 := with_nodes d (graft D B (d_nodes d))).
  assert (Hs1 : d_nodes d1 !! S = Some n) by (by rewrite <- Hs, <- stage_kept).
  assert (Hd1 : d_nodes d1 !! D = None) by (by apply graft_source_root).
  rewrite run_bind, run_fs, (rename_free src dst d1 n) by done. cbn [fst snd]. fold S D.
  destruct (remove_any_spec backup (with_nodes d1 (graft S D (d_nodes d1))) x) as (m&Hr&Hm).
  - fold B. simpl. rewrite graft_other.
    + by rewrite graft_moved_root.
    + by apply apart_not_under.
    + by apply apart_not_under.
  - exists m. split; [exact Hr|]. exact Hm.
Qed.

Lemma rolled_back x :
  d_nodes d !! S = None -> d_nodes d !! D = Some x ->
  exists e, run disk_handler (place Overwrite what src dst backup) d = (Err e, d).
Proof.
  intros Hs Hd. unfold place. rewrite run_try, run_fs_q. cbn [disk_handler fst snd map_err].
  fold D. rewrite Hd. rewrite bool_decide_eq_true_2 by done.
  rewrite run_try, run_fs_ctx, (rename_free dst backup d x) by (done || apply free_backup).
  cbn [fst snd map_err]. fold D B. set (d1 := with_nodes d (graft D B (d_nodes d))).
  assert (Hs1 : d_nodes d1 !! S = None) by (by rewrite <- Hs, <- stage_kept).
  rewrite run_bind, run_fs, (rename_missing src dst d1) by done. cbn [fst snd].
  eexists. unfold fs_ignore. rewrite run_bind, run_bind, run_fs, (rename_free backup dst d1 x).
  - cbn [run fst snd]. fold D B. f_equal. unfold d1. cbn [d_nodes with_nodes].
    enough (E : graft B D (graft D B (d_nodes d)) = d_nodes d) by (unfold with_nodes; simpl; rewrite E; by destruct d).
    apply map_eq. intros k. destruct (under D k) eqn:UD; [apply under_spec in UD as [r ->]|
      destruct (under B k) eqn:UB; [apply under_spec in UB as [r ->]|]].
    + by rewrite graft_moved, graft_moved by (done || by apply apart_sym).
    + by rewrite graft_source, Hfree by by apply apart_sym.
    + by rewrite !graft_other.
  - fold B. simpl. by rewrite graft_moved_root.
  - fold D. by apply graft_source_root.
  - by apply apart_sym.
Qed.
End Place.

(** Where a single transfer is staged, placed and backed up. *)
Record single_layout (plan : ReceiverPlan) (d : disk) : Prop := {
  lay_single : plan_multi_source plan = false;
  lay_dir : is_Some (d_nodes d !! components (stage_dir plan));
  lay_staged : strictly_below (components (stage_root plan)) (components (stage_dir plan));
  lay_apart : apart (components (stage_dir plan)) (components (plan_final_path plan));
  lay_backup : apart (components (stage_root plan))
    (components (push (stage_dir plan) "overwrite-backup"));
  lay_free r : d_nodes d !! (components (push (stage_dir plan) "overwrite-backup") ++ r) = None;
}.

(** The staged tree is at the destination, the working directory is gone, and
    nothing else changed. *)
Definition committed (plan : ReceiverPlan) (d d' : disk) : Prop :=
  (forall r, d_nodes d' !! (components (plan_final_path plan) ++ r) =
             d_nodes d !! (components (stage_root plan) ++ r)) /\
  (forall r, d_nodes d' !! (components (stage_dir plan) ++ r) = None) /\
  (forall k : key, under (components (stage_dir plan)) k = false ->
     under (components (plan_final_path plan)) k = false -> d_nodes d' !! k = d_nodes d !! k).

Lemma backup_name : name_ok "overwrite-backup".
Proof. by split_and!. Qed.

Section Commit.
Context (plan : ReceiverPlan) (d : disk) (Hl : single_layout plan d).
Let dir := components (stage_dir plan).
Let S := components (stage_root plan).
Let D := components (plan_final_path plan).
Let B := components (push (stage_dir plan) "overwrite-backup").

Lemma commit_apart : apart S D /\ apart S B /\ apart D B.
Proof.
  destruct Hl as [_ _ (r&_&Hs) Ha Hb _]. split_and!; [|done|].
  - unfold S. rewrite Hs. by apply apart_sym, apart_below, apart_sym.
  - unfold B. rewrite push_name by apply backup_name. by apply apart_below, apart_sym.
Qed.

(** Removing the working directory once the tree is placed. *)
Lemma commit_end fuel collision m :
  run disk_handler (place collision "transfer" (stage_root plan) (plan_final_path plan)
      (push (stage_dir plan) "overwrite-backup")) d = (Ok tt, with_nodes d m) ->
  (forall k : key, under B k = false -> m !! k = graft S D (d_nodes d) !! k) ->
  exists d', run disk_handler (commit_stage fuel plan collision) d = (Ok tt, d') /\ committed plan d d'.
Proof.
  intros Hp Hm. destruct commit_apart as (HSD&HSB&HDB).
  destruct Hl as [Hsingle [n Hdir] (r0&Hr0&HS) Ha _ _].
  assert (HB : B = dir ++ [Normal "overwrite-backup"]) by (unfold B; by rewrite push_name by apply backup_name).
  assert (Hshort : forall r : key, r <> [] -> under (dir ++ r) dir = false).
  { intros r Hr. apply not_under. intros [r' E]. rewrite <- app_assoc in E.
    rewrite <- (app_nil_r dir) in E at 1. apply app_inv_head in E. by destruct r. }
  assert (Hkeep : m !! components (stage_dir plan) = Some n).
  { fold dir. rewrite Hm by (rewrite HB; by apply Hshort). rewrite graft_other; [done| |].
    - unfold S. rewrite HS. by apply Hshort.
    - by apply apart_not_under, apart_sym. }
  exists (with_nodes d (prune dir m)). split.
  - unfold commit_stage. rewrite Hsingle, run_try, Hp. cbn [fst snd].
    assert (Hrm : run disk_handler (let! _ := fs_ignore (FsRemoveDirAll (stage_dir plan)) in
        Ret (Ok (E := anyhow) tt)) (with_nodes d m) = (Ok tt, with_nodes d (prune dir m))).
    { unfold fs_ignore. rewrite run_bind, run_bind, run_fs. cbn [disk_handler d_nodes with_nodes].
      by rewrite Hkeep. }
    destruct (root_source (plan_begin plan)); [exact Hrm|].
    rewrite run_try, run_fs_q. cbn [disk_handler d_nodes with_nodes fst snd map_err].
    rewrite Hkeep, bool_decide_eq_true_2 by done. exact Hrm.
  - split_and!; fold dir S D; cbn [d_nodes with_nodes].
    + intros r. rewrite prune_lookup, apart_under by done. rewrite Hm.
      * by apply graft_moved.
      * by apply apart_under, apart_sym.
    + intros r. by rewrite prune_lookup, under_app.
    + intros k Hk HD. rewrite prune_lookup, Hk, Hm.
      * apply graft_other; [|done]. apply not_under. intros [r ->]. unfold S in Hk.
        rewrite HS, <- app_assoc in Hk. fold dir in Hk. by rewrite under_app in Hk.
      * apply not_under. intros [r ->]. rewrite HB, <- app_assoc in Hk. by rewrite under_app in Hk.
Qed.

Lemma set_aside (k : key) :
  under B k = false -> graft S D (graft D B (d_nodes d)) !! k = graft S D (d_nodes d) !! k.
Proof.
  intros HB. destruct commit_apart as (HSD&HSB&HDB).
  destruct (under D k) eqn:UD; [apply under_spec in UD as [r ->]|].
  - rewrite !graft_moved by done. apply graft_other; by apply apart_under, apart_sym.
  - destruct (under S k) eqn:US; [apply under_spec in US as [r ->]; by rewrite !graft_source|].
    by rewrite !graft_other.
Qed.
End Commit.

(** A staged tree that may be placed is. *)
Lemma commit_succeeds plan d fuel collision :
  single_layout plan d -> is_Some (d_nodes d !! components (stage_root plan)) ->
  d_nodes d !! components (plan_final_path plan) = None \/ collision = Overwrite ->
  exists d', run disk_handler (commit_stage fuel plan collision) d = (Ok tt, d') /\ committed plan d d'.
Proof.
  intros Hl [n Hs] Hc. destruct (commit_apart plan d Hl) as (HSD&HSB&HDB).
  destruct (d_nodes d !! components (plan_final_path plan)) as [x|] eqn:Hd.
  - destruct Hc as [?| ->]; [done|].
    destruct (overwritten "transfer" _ _ _ d HSD HSB HDB (lay_free _ _ Hl) n x Hs Hd) as (m&Hr&Hm).
    apply (commit_end plan d Hl _ _ m Hr). intros k Hk. rewrite Hm by done. by apply set_aside.
  - by apply (commit_end plan d Hl fuel collision _ (place_free "transfer" _ _ _ d HSD collision n Hs Hd)).
Qed.


(** ** Executions *)

(** What is checked of every node holds of every node. *)
Lemma tree_check (P : key -> node -> bool) (m : gmap key node) k n :
  forallb (fun kn => P kn.1 kn.2) (map_to_list m) = true -> m !! k = Some n -> P k n = true.
Proof.
  intros Hf Hk. rewrite forallb_forall in Hf. apply (Hf (k, n)), list_elem_of_In, elem_of_map_to_list, Hk.
Qed.

Definition demo_data : bytes := [x68; x65; x6c; x6c; x6f].

(** A destination [/in/x] with one file in it, and a transfer of the same name
    staged in [/in/.w/x]. *)
Definition demo_disk : disk := Disk
  (list_to_map [(components "/in", NDir); (components "/in/x", NDir); (components "/in/x/a", NFile [x6f]);
    (components "/in/.w", NDir); (components "/in/.w/state.json", NFile []);
    (components "/in/.w/x", NDir); (components "/in/.w/x/a", NFile demo_data)]) ∅ ∅ 1.

Definition demo_plan : ReceiverPlan := {|
  plan_begin := demo_begin "u:78"; plan_entries := []; plan_final_name := "u:78";
  plan_final_path := "/in/x"; stage_dir := "/in/.w"; stage_root := "/in/.w/x";
  plan_resume := None; plan_resumed_bytes := 0; plan_resume_plan := [];
  plan_multi_source := false; already_complete := false |}.

Lemma demo_layout_ok : single_layout demo_plan demo_disk.
Proof.
  split; [done..|vm_compute; by eexists| | | |].
  - exists [Normal "x"]. split; [done|]. vm_compute. reflexivity.
  - split; apply (bool_decide_unpack _); vm_compute; reflexivity.
  - split; apply (bool_decide_unpack _); vm_compute; reflexivity.
  - intros r. apply eq_None_not_Some. intros [n Hn].
    pose proof (tree_check (fun k _ => negb (under (components (push (stage_dir demo_plan) "overwrite-backup")) k))
      (d_nodes demo_disk) _ _ ltac:(vm_compute; reflexivity) Hn) as Hu. cbv beta in Hu. by rewrite under_app in Hu.
Qed.


(** The name of the backup is taken from the same directory as the stage.  A
    transfer whose root is named [overwrite-backup] and replaces a file of that
    name sets the old file aside over the staged one, moves it back into place and
    reports success: the new content is gone. *)
Definition backup_plan : ReceiverPlan := {|
  plan_begin := demo_begin (encode_component_os "overwrite-backup"); plan_entries := [];
  plan_final_name := encode_component_os "overwrite-backup"; plan_final_path := "/in/overwrite-backup";
  stage_dir := "/in/.w"; stage_root := "/in/.w/overwrite-backup";
  plan_resume := None; plan_resumed_bytes := 0; plan_resume_plan := [];
  plan_multi_source := false; already_complete := false |}.

Lemma backup_over_the_stage old new :
  let d := Disk (list_to_map [(components "/in", NDir); (components "/in/overwrite-backup", NFile old);
    (components "/in/.w", NDir); (components "/in/.w/overwrite-backup", NFile new)]) ∅ ∅ 1 in
  let r := run disk_handler (commit_stage 9 backup_plan Overwrite) d in
  r.1 = Ok tt /\ d_nodes r.2 !! components "/in/overwrite-backup" = Some (NFile old) /\
  d_nodes r.2 !! components "/in/.w/overwrite-backup" = None.
Proof. vm_compute. done. Qed.

Definition demo_file (content : bytes) : ManifestEntry := {|
  id := 1; rel_path := "u:61"; kind := RegularFile; size := Some 5%N;
  full_hash := Some (blake3_hash_hex content); chunk_count := 1; symlink_target := None;
  device := None; mode := None |}.

Lemma complete_means_present_witness :
  (exists b d', run disk_handler (destination_satisfies_manifest 9 "/in/.w/x" [demo_file demo_data] false) demo_disk =
      (Ok b, d') /\ d_nodes d' = d_nodes demo_disk /\
    (b = true <-> (false = true \/ is_Some (d_nodes demo_disk !! components "/in/.w/x")) /\
       all_present demo_disk "/in/.w/x" [demo_file demo_data])) /\
  (run disk_handler (destination_satisfies_manifest 9 "/in/.w/x" [demo_file demo_data] false) demo_disk).1 = Ok true.
Proof.
  split; [|vm_compute; reflexivity].
  apply (complete_means_present 9 demo_disk "/in/.w/x" [demo_file demo_data] false).
  - intros q data Hq.
    pose proof (tree_check (fun _ n => match n with NFile f => (length f <? 9)%nat | _ => true end)
      (d_nodes demo_disk) _ _ ltac:(vm_compute; reflexivity) Hq) as Hl. by apply Nat.ltb_lt in Hl.
  - intros entry [-> | Hn]%elem_of_cons; [|by apply elem_of_nil in Hn].
    exists "/in/.w/x/a". vm_compute. reflexivity.
Defined.

(** ** A root with the name of the state file

    The working directory holds the staged root under the name it will have at
    the destination, next to the files of the resume state. *)

Definition receiver_sig : sig := timer_sig ⊕ (fs_sig ⊕ (resume_sig ⊕ tracker_sig)).

Definition on_disk : handler (stream_sig ⊕ receiver_sig)
  (mem * (unit * (disk * (ResumeRuntime * ProgressShared)))) :=
  hsum mem_stream (hsum on_time (hsum disk_handler (hsum resume_handler tracker_handler))).

(** A codec that keeps of a record its path, and of a state its transfer. *)
#[local] Instance short_record_json : Json TransferRecord :=
  {| to_vec := fun r => Ok (String.list_byte_of_string (record_rel_path r)); from_slice := fun _ => Err "" |}.
#[local] Instance short_state_json : Json ResumeState :=
  {| to_vec := fun s => Ok (String.list_byte_of_string ("{" +:+ state_transfer_id s +:+ "}"));
     from_slice := fun _ => Err "" |}.

(** What [receive_transfer] does with an accepted manifest, when the sender opens
    one data stream. *)
Definition receive_one (begin : BeginFrame) (entries : list ManifestEntry) (dest : string) :
  prog (stream_sig ⊕ receiver_sig) (ares TransferSummary) :=
  let? plan := filesystem_plan 9 begin entries "h" dest Fail_ in
  match plan_resume plan with
  | None => Ret (Err (AnyMsg "already complete"))
  | Some self =>
      let? _ := handle_worker_connection 9 self 0 in
      let? summary := verify_summary 9 plan in
      let? _ := commit_stage 9 plan Fail_ in
      Ret (Ok summary)
  end.

Definition one_file : ManifestEntry := {|
  id := 0; rel_path := ""; kind := RegularFile; size := Some 5%N;
  full_hash := Some (blake3_hash_hex demo_data); chunk_count := 1; symlink_target := None;
  device := None; mode := None |}.

Definition one_file_inbox : bytes :=
  demo_wire (WorkerHello "t") ++ demo_wire (ChunkStart 0 0 0 5 (blake3_hash_hex demo_data)) ++
  demo_data ++ demo_wire WorkerDone.

(** The receipt of that file under a name, in an empty directory. *)
Definition received_as (name : string) :
  ares TransferSummary * (mem * (unit * (disk * (ResumeRuntime * ProgressShared)))) :=
  run on_disk (receive_one (demo_begin (encode_component_os name)) [one_file] "/in")
    (Mem one_file_inbox [] [], (tt, (Disk {[components "/in" := NDir]} ∅ ∅ 1,
      (new_runtime (fresh_state (demo_begin "") "" "" []), ProgressTracker_new false "listener" None 1)))).

Definition landed_as (name : string) : option node :=
  d_nodes (received_as name).2.2.2.1 !! components ("/in/" +:+ name).

Example received_normally :
  landed_as "notes.txt" = Some (NFile demo_data).
Proof. vm_compute. reflexivity. Qed.

(** A file named [state.json] is lost.  A transfer whose root has that name is
    staged at the path of the resume state: persisting the state replaces the
    verified bytes, the final check skips the file because all its chunks are
    fresh, and the receiver reports the summary the sender expects while the
    destination holds the state's JSON. *)
Theorem state_file_name_is_lost :
  (exists summary, summary_from_materialized_entries [one_file] = Ok summary /\
     (received_as RESUME_STATE_FILE).1 = Ok summary) /\
  exists data, landed_as RESUME_STATE_FILE = Some (NFile data) /\ data <> demo_data /\
    to_vec (state (received_as RESUME_STATE_FILE).2.2.2.2.1) = Ok data.
Proof.
  split.
  - eexists. split; vm_compute; reflexivity.
  - eexists. split; [vm_compute; reflexivity|]. split; [vm_compute; discriminate|].
    vm_compute. reflexivity.
Qed.
