(* ===== verification/Conversation.v ===== *)
(** * Whole transfers over the control stream ([vendored-from-bore/transfer.rs])

    [send_transfer] against [receive_transfer], from the first frame to the last,
    where no data stream is needed: a transfer that is run again on a destination
    that holds its content, and a transfer from standard input. *)

From stdpp Require Import list gmap.
From S2P Require Import Prelude Streams Json Wire Demo Proto Text Paths Transfer TransferTheorems.
From S2P Require Import Fs Disk Tracker Frames Resume Workers Scan Receive TransferDemo Exchange.
From S2P Require Import ReceiveTheorems.

(** ** Programs on the disk, inside a program on the network

    The helpers that touch the disk are written once for any signature that has
    the file system.  On a network they are the same programs with each call
    carried over ([on_net]). *)

Section Carry.
Context {L : sig} `{HF : Has fs_sig L}.

Abbreviation net := (stream_sig ⊕ L).

Definition on_net {A} (p : prog fs_sig A) : prog net A :=
  interp (T := net) (fun o => call (S := fs_sig) o) p.

Lemma carry_fs o : fs (T := net) o ≡ on_net (fs o).
Proof. symmetry. apply pbind_ret_r. Qed.

Lemma carry_bind {A B} (p : prog net A) p' (f : A -> prog net B) f' :
  p ≡ on_net p' -> (forall a, f a ≡ on_net (f' a)) -> pbind p f ≡ on_net (pbind p' f').
Proof.
  intros Hp Hf. unfold on_net. rewrite interp_bind. by apply pbind_proper.
Qed.

Lemma carry_ret {A} (a : A) : Ret (S := net) a ≡ on_net (Ret a).
Proof. done. Qed.

Lemma carry_try {E A B} (p : prog net (result E A)) p' (f : A -> prog net (result E B)) f' :
  p ≡ on_net p' -> (forall a, f a ≡ on_net (f' a)) -> ptry p f ≡ on_net (ptry p' f').
Proof. intros Hp Hf. apply carry_bind; [done|]. by intros [a|e|]. Qed.

Lemma carry_fs_q o : fs_q (T := net) o ≡ on_net (fs_q o).
Proof. apply carry_bind; [apply carry_fs|done]. Qed.

Lemma carry_fs_ctx msg o : fs_ctx (T := net) msg o ≡ on_net (fs_ctx msg o).
Proof. apply carry_bind; [apply carry_fs|done]. Qed.
End Carry.

#[export] Hint Resolve carry_fs carry_fs_q carry_fs_ctx carry_ret : rb.

Section CarryHelpers.
Context {L : sig} `{HF : Has fs_sig L} `{Blake3} `{Hex}.

Abbreviation net := (stream_sig ⊕ L).

Lemma carry_hash_loop fuel path fh hasher :
  hash_loop (T := net) fuel path fh hasher ≡ on_net (hash_loop fuel path fh hasher).
Proof.
  revert hasher; induction fuel as [|fuel IH]; intros hasher; [done|].
  apply carry_try; [auto with rb|]. intros [|b buf]; [done|]. apply IH.
Qed.

Lemma carry_hash_file fuel path :
  hash_file_async (T := net) fuel path ≡ on_net (hash_file_async fuel path).
Proof. apply carry_try; [auto with rb|]. intros fh. apply carry_hash_loop. Qed.

Lemma carry_entry_satisfied fuel path entry :
  entry_satisfied (T := net) fuel path entry ≡ on_net (entry_satisfied fuel path entry).
Proof.
  unfold entry_satisfied. destruct (kind entry); [|apply carry_bind; auto with rb|done..].
  destruct (full_hash entry) as [expected|]; [|done].
  apply carry_bind; [auto with rb|]. intros [meta|e|]; [|done..].
  destruct (negb (is_file meta) || _); [done|].
  apply carry_try; [apply carry_hash_file|done].
Qed.

Lemma carry_entries_satisfied fuel root entries :
  entries_satisfied (T := net) fuel root entries ≡ on_net (entries_satisfied fuel root entries).
Proof.
  induction entries as [|entry entries IH]; [done|]. cbn [entries_satisfied].
  apply carry_try; [done|]. intros path. apply carry_try; [apply carry_entry_satisfied|].
  by intros [].
Qed.

Lemma carry_destination_satisfies fuel root entries multi :
  destination_satisfies_manifest (T := net) fuel root entries multi ≡
    on_net (destination_satisfies_manifest fuel root entries multi).
Proof.
  apply carry_try.
  - destruct multi; [done|]. apply carry_try; [auto with rb|done].
  - intros []; [done|]. apply carry_entries_satisfied.
Qed.
End CarryHelpers.

(** A handler that answers the calls to the file system from the disk in its
    state. *)
Definition has_disk {L St} `{Has fs_sig L} (h : handler L St) (at_disk : disk -> St) : Prop :=
  forall o d, run h (call (S := fs_sig) o) (at_disk d) =
    ((disk_handler o d).1, at_disk (disk_handler o d).2).

Lemma on_net_behaves {L St A} `{Has fs_sig L} m (h : handler L St) at_disk (p : prog fs_sig A) d :
  has_disk h at_disk ->
  behaves m h (on_net p) (at_disk d) [] (run disk_handler p d).1 (at_disk (run disk_handler p d).2).
Proof.
  intros Hd. revert d. induction p as [a|o k IH]; intros d; [constructor|].
  unfold on_net. cbn [interp]. unfold call, has_there.
  apply (behaves_local m h (call (S := fs_sig) o)). rewrite Hd. apply IH.
Qed.

Lemma carried_behaves {L St A} `{Has fs_sig L} m (h : handler L St) at_disk
  (q : prog (stream_sig ⊕ L) A) p d a d' :
  has_disk h at_disk -> q ≡ on_net p -> run disk_handler p d = (a, d') ->
  behaves m h q (at_disk d) [] a (at_disk d').
Proof.
  intros Hd Hq Hr. eapply behaves_equiv; [exact Hq|].
  pose proof (on_net_behaves m h at_disk p d Hd) as Hb. by rewrite Hr in Hb.
Qed.

(** ** What a commit leaves *)

Section Delivered.
Context `{Hex} `{Blake3}.

(** A staged manifest is at the destination after the commit. *)
Lemma present_moved begin es plan d d' :
  validate_manifest begin es = Ok tt -> stage_root plan <> "" -> plan_final_path plan <> "" ->
  committed plan d d' -> all_present d (stage_root plan) es ->
  all_present d' (plan_final_path plan) es.
Proof.
  intros Hv Hs Hf (Hmoved&_&_) Hp e He.
  destruct (manifest_names begin es e Hv He) as (names&_&Hpath).
  destruct (Hp e He) as (path&E&Hpre). destruct (Hpath _ Hs) as (path0&E0&Hc).
  destruct (Hpath _ Hf) as (path1&E1&Hc1). exists path1. split; [done|].
  assert (path0 = path) as -> by congruence.
  unfold present in *. by rewrite Hc1, Hmoved, <- Hc.
Qed.

Lemma committed_readable fuel plan d d' :
  committed plan d d' -> readable_tree fuel d -> readable_tree fuel d'.
Proof.
  intros (Hmoved&Hgone&Hk) Hr q data Hq.
  destruct (under (components (plan_final_path plan)) q) eqn:Hu.
  { apply under_spec in Hu as [r ->]. rewrite Hmoved in Hq. by eapply Hr. }
  destruct (under (components (stage_dir plan)) q) eqn:Hd.
  - apply under_spec in Hd as [r ->]. by rewrite Hgone in Hq.
  - rewrite Hk in Hq by done. by eapply Hr.
Qed.
End Delivered.

(** ** The receiver *)

Section Receiver.
Context {L : sig} `{Has timer_sig L} `{HF : Has fs_sig L} `{Has resume_sig L} `{Has tracker_sig L}.
Context `{Has join_sig L} `{Has accept_sig L} `{Has term_sig L} `{Has uuid_sig L}.
Context `{JsonLaws Frame} `{Json ResumeState} `{Json TransferRecord}.
Context `{Json (string * RootSourceKind * list ManifestEntry)}.
Context `{Blake3} `{Hex} `{Libc} `{FrameText} `{EntryLayout} (fuel : nat).
Context {St : Type} (h : handler L St) (at_disk : disk -> St) (Hdisk : has_disk h at_disk).

Definition manifest_wire (chunks : list (list ManifestEntry)) : bytes :=
  concat ((fun c => frame_bytes (ManifestChunk c)) <$> chunks).

Lemma manifest_frames_behaves left chunks entries st :
  Forall (fun c => fits (ManifestChunk c)) chunks -> fits ManifestDone -> length chunks < left ->
  behaves Exact h (manifest_frames left entries) st
    (rcvs (manifest_wire chunks) ++ rcvs (frame_bytes ManifestDone)) (Ok (entries ++ concat chunks)) st.
Proof.
  intros Hc Hd. revert left entries. induction Hc as [|c chunks Hc _ IH]; intros left entries Hl;
    (destruct left as [|left]; [simpl in Hl; lia|]); cbn [manifest_frames].
  - simpl. rewrite app_nil_r, <- (app_nil_r (rcvs (frame_bytes ManifestDone))).
    eapply (behaves_try Exact); [by apply (expect_frame_behaves h ManifestDone)|]. constructor.
  - unfold manifest_wire. rewrite fmap_cons. cbn [concat]. rewrite rcvs_app, <- app_assoc.
    eapply (behaves_try Exact); [by apply (expect_frame_behaves h (ManifestChunk c))|].
    cbv beta iota. rewrite app_assoc. apply IH. simpl in Hl. lia.
Qed.

(** The plan of a receiver that has nothing to do. *)
Definition complete_plan (begin : BeginFrame) (entries : list ManifestEntry) (dest_root : string) :
  ReceiverPlan :=
  let name := decode_component (root_name begin) in
  {| plan_begin := begin; plan_entries := entries; plan_final_name := encode_component_os name;
     plan_final_path := if multi_source begin then dest_root else push dest_root name;
     stage_dir := resume_state_dir dest_root (transfer_id begin); stage_root := name;
     plan_resume := None; plan_resumed_bytes := 0; plan_resume_plan := [];
     plan_multi_source := multi_source begin; already_complete := true |}.

(** The destination holds the manifest's content, and no transfer of this id is
    under way. *)
Record delivered (begin : BeginFrame) (entries : list ManifestEntry) (dest_root : string)
  (d : disk) : Prop := {
  del_readable : readable_tree fuel d;
  del_idle : d_nodes d !! components
    (push (resume_state_dir dest_root (transfer_id begin)) RESUME_STATE_FILE) = None;
  del_root : multi_source begin = true \/
    is_Some (d_nodes d !! components (plan_final_path (complete_plan begin entries dest_root)));
  del_present : all_present d (plan_final_path (complete_plan begin entries dest_root)) entries;
}.

(** A transfer that was committed under the name that the sender asked for is
    delivered: it can be run again. *)
Lemma commit_delivers begin entries dest_root plan d d' :
  validate_manifest begin entries = Ok tt -> readable_tree fuel d ->
  stage_dir plan = resume_state_dir dest_root (transfer_id begin) ->
  plan_final_path plan = plan_final_path (complete_plan begin entries dest_root) ->
  stage_root plan <> "" -> plan_final_path plan <> "" ->
  all_present d (stage_root plan) entries -> committed plan d d' ->
  delivered begin entries dest_root d'.
Proof.
  intros Hv Hr Hstage Hfinal Hs Hf Hp Hc.
  pose proof (present_moved begin entries plan d d' Hv Hs Hf Hc Hp) as Hthere.
  split; [by eapply committed_readable| |right|]; rewrite <- ?Hfinal; [|..|exact Hthere].
  - destruct Hc as (_&Hgone&_). rewrite <- Hstage, push_name by by split_and!. apply Hgone.
  - apply manifest_accepted in Hv as [(root&rest&->&Hroot) _ _ _].
    destruct (Hthere root) as (path&E&Hpre); [left|]. rewrite Hroot in E. injection E as <-.
    unfold present in Hpre. destruct (kind root); [destruct Hpre as (data&E&_)|..]; try done; by rewrite ?E, ?Hpre.
Qed.

Lemma delivered_satisfied begin entries dest_root d :
  delivered begin entries dest_root d ->
  exists d', same_tree d d' /\
    run disk_handler (destination_satisfies_manifest fuel
      (plan_final_path (complete_plan begin entries dest_root)) entries (multi_source begin)) d =
      (Ok true, d').
Proof.
  intros [Hf _ Hr Hp]. set (root := plan_final_path _) in *.
  destruct (entries_satisfied_spec fuel root entries d Hf) as (b&d'&Er&Hs&Hb).
  { intros entry (path&E&_)%Hp. by exists path. }
  apply Hb in Hp as ->. exists d'. split; [done|].
  unfold destination_satisfies_manifest. rewrite run_try. destruct (multi_source begin); [exact Er|].
  destruct Hr as [|Hr]; [done|]. rewrite run_try, run_fs_q. cbn [disk_handler fst snd map_err run].
  by rewrite bool_decide_eq_true_2.
Qed.

Lemma filesystem_plan_behaves begin entries hash dest_root collision d :
  delivered begin entries dest_root d ->
  exists d', same_tree d d' /\
    behaves Exact h (filesystem_plan (T := stream_sig ⊕ L) fuel begin entries hash dest_root collision)
      (at_disk d) [] (Ok (complete_plan begin entries dest_root)) (at_disk d').
Proof.
  intros Hdel. destruct (delivered_satisfied _ _ _ _ Hdel) as (d'&Hs&Hr). exists d'.
  split; [done|]. unfold filesystem_plan. cbv zeta.
  rewrite <- (app_nil_l []).
  eapply (behaves_try Exact _ _ _ _ [] false (at_disk d)).
  { apply (carried_behaves Exact h at_disk _
      (fs_q (FsTryExists (push (resume_state_dir dest_root (transfer_id begin)) RESUME_STATE_FILE))));
      [exact Hdisk|apply carry_fs_q|]. rewrite run_fs_q.
    cbn [disk_handler fst snd map_err]. rewrite bool_decide_eq_false_2; [done|].
    rewrite (del_idle _ _ _ _ Hdel). by intros []. }
  cbv beta iota. rewrite <- (app_nil_l []).
  eapply (behaves_try Exact _ _ _ _ [] true (at_disk d')); [|constructor].
  eapply carried_behaves; [exact Hdisk|apply carry_destination_satisfies|exact Hr].
Qed.

Definition accepted_frame (begin : BeginFrame) (entries : list ManifestEntry) (dest_root : string)
  (summary : TransferSummary) : Frame :=
  ManifestAccepted (plan_final_name (complete_plan begin entries dest_root)) 1 (total_bytes summary)
    (all_chunks_complete_plan entries).

(** The announcement of a transfer, up to the receiver's plan. *)
Lemma announced_behaves begin chunks hash plan dest_root collision st st' :
  protocol_version begin = PROTOCOL_VERSION ->
  with_capacity (total_entries begin) = Ok tt -> nlen (concat chunks) = total_entries begin ->
  validate_manifest begin (concat chunks) = Ok tt ->
  manifest_hash (root_name begin) (root_source begin) (concat chunks) = Ok hash ->
  length chunks < fuel ->
  fits (Begin begin) -> Forall (fun c => fits (ManifestChunk c)) chunks -> fits ManifestDone ->
  behaves Exact h
    (match root_source begin with
     | Stdin => stdin_plan begin (concat chunks) dest_root collision
     | Filesystem => filesystem_plan fuel begin (concat chunks) hash dest_root collision
     end) st [] (Ok plan) st' ->
  behaves Exact h (let? begin := receive_begin in receive_manifest fuel begin dest_root collision) st
    (rcvs (frame_bytes (Begin begin)) ++ rcvs (manifest_wire chunks) ++ rcvs (frame_bytes ManifestDone))
    (Ok plan) st'.
Proof.
  intros Hv Hcap Hn Hval Hhash Hl Fb Fc Fd Hp. eapply (behaves_try Exact _ _ _ _ _ begin st).
  - unfold receive_begin. rewrite <- (app_nil_r (rcvs _)).
    eapply (behaves_try Exact); [by apply (expect_frame_behaves h (Begin begin))|].
    cbv beta iota. rewrite Hv, N.eqb_refl. constructor.
  - unfold receive_manifest. rewrite Hcap. rewrite <- (app_nil_l (rcvs _ ++ _)).
    eapply (behaves_try Exact); [constructor|]. rewrite <- (app_nil_r (rcvs _ ++ _)).
    eapply (behaves_try Exact); [by apply (manifest_frames_behaves fuel chunks [])|].
    cbv beta iota. rewrite app_nil_l, Hn, N.eqb_refl, Hval, Hhash. exact Hp.
Qed.

Lemma receiver_behaves begin chunks hash summary dest_root collision ask confirm_timeout stall d :
  let entries := concat chunks in
  let plan := complete_plan begin entries dest_root in
  protocol_version begin = PROTOCOL_VERSION -> root_source begin = Filesystem ->
  with_capacity (total_entries begin) = Ok tt -> nlen entries = total_entries begin ->
  validate_manifest begin entries = Ok tt ->
  manifest_hash (root_name begin) Filesystem entries = Ok hash ->
  summary_from_materialized_entries entries = Ok summary ->
  delivered begin entries dest_root d -> length chunks < fuel ->
  fits (Begin begin) -> Forall (fun c => fits (ManifestChunk c)) chunks -> fits ManifestDone ->
  fits (accepted_frame begin entries dest_root summary) -> fits (SummaryFrame summary) ->
  fits (completed_frame plan summary) ->
  exists d', same_tree d d' /\
    behaves Exact h (receive_transfer fuel dest_root collision ask confirm_timeout stall) (at_disk d)
      (rcvs (frame_bytes (Begin begin)) ++
       (rcvs (manifest_wire chunks) ++ rcvs (frame_bytes ManifestDone)) ++
       snds (frame_bytes (accepted_frame begin entries dest_root summary)) ++
       rcvs (frame_bytes (SummaryFrame summary)) ++
       snds (frame_bytes (completed_frame plan summary)))
      (Ok (received plan summary)) (at_disk d').
Proof.
  intros entries plan Hv Hsrc Hcap Hn Hval Hhash Hsum Hdel Hl Fb Fc Fd Fa Fs Fk.
  destruct (filesystem_plan_behaves begin entries hash dest_root collision d Hdel) as (d'&Hs&Hp).
  exists d'. split; [done|]. unfold receive_transfer, receive_body.
  rewrite <- (app_nil_r (rcvs _ ++ _ ++ _)).
  eapply (behaves_bind Exact _ _ _ _ _ (Ok (received plan summary))); [|constructor].
  (* what comes before the plan *)
  rewrite (app_assoc (rcvs (frame_bytes (Begin begin)))).
  eapply (behaves_try Exact _ _ _ _ _ plan (at_disk d')).
  { unfold cleaning. apply (behaves_map Exact h (map_err (pair None)) _ _ _ (Ok plan)).
    apply (announced_behaves begin chunks hash); try done; rewrite Hsrc; [exact Hhash|exact Hp]. }
  (* what comes after it *)
  cbv beta iota. unfold plan at 1. cbn [already_complete complete_plan].
  unfold cleaning. apply (behaves_map Exact h (map_err (pair None)) _ _ _ (Ok (received plan summary))).
  unfold reacknowledge. change (plan_entries plan) with entries. rewrite Hsum. cbn [ptry pbind].
  eapply (behaves_try Exact); [by apply (io_send_frame_behaves h (accepted_frame begin entries dest_root summary))|].
  eapply (behaves_try Exact); [by apply (expect_frame_behaves h (SummaryFrame summary))|].
  cbv beta iota. rewrite String.eqb_refl. cbn [negb ptry pbind].
  rewrite <- (app_nil_r (snds _)).
  eapply (behaves_try Exact); [by apply (io_send_frame_behaves h (completed_frame plan summary))|].
  constructor.
Qed.
End Receiver.

(** ** The sender *)

Definition announced (entries : list PlannedEntry) : list ManifestEntry := manifest <$> entries.

Lemma chunks_of_concat {A} size left (l : list A) :
  0 < size -> length l <= left -> concat (chunks_of left size l) = l.
Proof.
  intros Hs. revert l. induction left as [|left IH]; intros [|x l] Hl; try done; [simpl in Hl; lia|].
  cbn [chunks_of concat]. rewrite IH; [by rewrite firstn_skipn|]. rewrite length_drop. simpl in *. lia.
Qed.

Lemma chunks_of_length {A} size left (l : list A) : length (chunks_of left size l) <= left.
Proof.
  revert l. induction left as [|left IH]; intros [|x l]; simpl; try lia. specialize (IH (drop size (x :: l))). lia.
Qed.

(** Nothing is left to send of an entry whose chunks are all there. *)
Lemma entry_tasks_nothing e done indices :
  (forall i, i ∈ indices -> i ∈ done) -> entry_tasks e done indices = Ok [].
Proof.
  induction indices as [|i indices IH]; intros Hd; [done|]. cbn [entry_tasks].
  rewrite bool_decide_eq_true_2 by (apply Hd; left). apply IH. intros j Hj. apply Hd. by right.
Qed.

Lemma tasks_of_nothing done es :
  (forall e, e ∈ es -> is_regular_file (kind (manifest e)) = true ->
     default [] (done !! id (manifest e)) = upto (chunk_count (manifest e))) ->
  tasks_of done es = Ok [].
Proof.
  induction es as [|e es IH]; intros Hd; [done|]. cbn [tasks_of].
  assert (IH' : tasks_of done es = Ok []) by (apply IH; intros e' He'; apply Hd; by right).
  destruct (is_regular_file (kind (manifest e))) eqn:Hr; cbn [negb]; [|exact IH'].
  rewrite Hd, entry_tasks_nothing, IH' by (done || by left). done.
Qed.

Lemma complete_plan_lookup es e :
  NoDup (id <$> es) -> e ∈ es -> is_regular_file (kind e) = true ->
  collect_map plan_entry_id completed_chunks (all_chunks_complete_plan es) !! id e =
    Some (upto (chunk_count e)).
Proof.
  intros Hn He Hr.
  apply (collect_map_in plan_entry_id completed_chunks (all_chunks_complete_plan es)
    {| plan_entry_id := id e; completed_chunks := upto (chunk_count e) |}).
  - unfold all_chunks_complete_plan. rewrite <- list_fmap_compose.
    eapply sublist_NoDup; [exact Hn|]. apply fmap_sublist, sublist_filter.
  - apply list_elem_of_fmap. exists e. split; [done|]. by apply list_elem_of_filter.
Qed.

Lemma no_chunk_tasks es :
  NoDup (id <$> (manifest <$> es)) ->
  build_chunk_tasks es (all_chunks_complete_plan (manifest <$> es)) = Ok [].
Proof.
  intros Hn. apply tasks_of_nothing. intros e He Hr.
  rewrite complete_plan_lookup; [done|done| |done]. by apply list_elem_of_fmap_2.
Qed.

Section Sender.
Context {L : sig} `{Has timer_sig L} `{Has tracker_sig L} `{Has join_sig L} `{Has stdin_sig L}.
Context `{JsonLaws Frame} `{Json TransferRecord} `{Blake3} `{Hex} `{FrameText} (fuel : nat).
Context {St : Type} (h : handler L St).

(** What the program does to the stream, whatever it does to the progress. *)
Definition utters {A} (p : prog (stream_sig ⊕ L) A) (τ : list act) (a : A) : Prop :=
  forall st, exists st', behaves Exact h p st τ a st'.

Lemma utters_ret {A} (a : A) : utters (Ret a) [] a.
Proof. intros st. exists st. constructor. Qed.

Lemma utters_of {A} (p : prog (stream_sig ⊕ L) A) τ a :
  (forall st, behaves Exact h p st τ a st) -> utters p τ a.
Proof. intros Hp st. exists st. apply Hp. Qed.

Lemma utters_track {A} o (k : unit -> prog (stream_sig ⊕ L) A) τ a :
  utters (k tt) τ a -> utters (pbind (track o) k) τ a.
Proof.
  intros Hk st. destruct (run h (call (S := tracker_sig) o) st) as [[] st1] eqn:E.
  destruct (Hk st1) as [st' Hb]. exists st'. by eapply behaves_track.
Qed.

Lemma utters_bind {A B} (p : prog (stream_sig ⊕ L) A) (f : A -> prog (stream_sig ⊕ L) B) τ1 τ2 a b :
  utters p τ1 a -> utters (f a) τ2 b -> utters (pbind p f) (τ1 ++ τ2) b.
Proof.
  intros Hp Hf st. destruct (Hp st) as [st1 Hb1]. destruct (Hf st1) as [st2 Hb2].
  exists st2. by eapply behaves_bind.
Qed.

Lemma utters_try {E A B} (p : prog (stream_sig ⊕ L) (result E A))
  (f : A -> prog (stream_sig ⊕ L) (result E B)) τ1 τ2 a b :
  utters p τ1 (Ok a) -> utters (f a) τ2 b -> utters (ptry p f) (τ1 ++ τ2) b.
Proof. intros Hp Hf. by eapply utters_bind. Qed.

Lemma utters_send f : fits f -> utters (send_frame f) (snds (frame_bytes f)) (Ok tt).
Proof. intros Hf. apply utters_of. intros st. by apply (io_send_frame_behaves h f). Qed.

Lemma utters_recv f : fits f -> utters recv_frame (rcvs (frame_bytes f)) (Ok (Some f)).
Proof. intros Hf. apply utters_of. intros st. by apply (io_recv_frame_behaves h f). Qed.

Lemma manifest_utters chunks :
  Forall (fun c => fits (ManifestChunk (announced c))) chunks ->
  utters (send_manifest chunks) (snds (manifest_wire (announced <$> chunks))) (Ok tt).
Proof.
  induction 1 as [|c chunks Hc _ IH]; [apply utters_ret|]. cbn [send_manifest].
  unfold manifest_wire. rewrite !fmap_cons. cbn [concat]. rewrite snds_app.
  eapply utters_try; [by apply utters_send|]. exact IH.
Qed.

Lemma seed_utters entries plan : utters (seed_progress entries plan) [] tt.
Proof.
  unfold seed_progress. cbv zeta. induction entries as [|e es IH]; [apply utters_ret|]. cbn [foldr].
  destruct (negb _); [exact IH|]. destruct (_ =? _)%N; [|exact IH]. by apply utters_track.
Qed.

(** When the receiver has every chunk, there is no data to send. *)
Lemma data_utters plan parallel stall :
  planned_root_source plan = Filesystem -> NoDup (id <$> (manifest <$> planned_entries plan)) ->
  utters (send_data fuel plan parallel (all_chunks_complete_plan (manifest <$> planned_entries plan)) stall) []
    (summary_from_entries (planned_entries plan)).
Proof.
  intros Hs Hn. unfold send_data. rewrite Hs, no_chunk_tasks by done. cbn [ptry pbind].
  apply (utters_bind _ _ [] [] tt); [apply seed_utters|]. cbn [ptry pbind]. apply utters_ret.
Qed.

Definition acknowledged (plan : PlannedTransfer) (transport : TransportMode) (done : CompletedFrame) :
  TransferOutcome := {|
  outcome_transfer_id := planned_transfer_id plan;
  outcome_final_path := decode_native_path (completed_final_path done);
  outcome_total_bytes := completed_total_bytes done;
  outcome_regular_files := completed_regular_files done;
  outcome_transport := transport |}.

Definition planned_chunks (plan : PlannedTransfer) : list (list PlannedEntry) :=
  chunks_of (length (planned_entries plan)) (N.to_nat MANIFEST_CHUNK) (planned_entries plan).

Lemma sender_utters plan transport stall name resumed summary done :
  let accepted := ManifestAccepted name 1 resumed
    (all_chunks_complete_plan (manifest <$> planned_entries plan)) in
  planned_root_source plan = Filesystem -> NoDup (id <$> (manifest <$> planned_entries plan)) ->
  summary_from_entries (planned_entries plan) = Ok summary ->
  completed_transfer_hash done = transfer_hash summary ->
  fits (Begin (begin_frame plan transport)) ->
  Forall (fun c => fits (ManifestChunk (announced c))) (planned_chunks plan) ->
  fits ManifestDone -> fits accepted -> fits (SummaryFrame summary) -> fits (Completed done) ->
  utters (send_transfer fuel plan transport stall)
    (snds (frame_bytes (Begin (begin_frame plan transport))) ++
     (snds (manifest_wire (announced <$> planned_chunks plan)) ++ snds (frame_bytes ManifestDone)) ++
     rcvs (frame_bytes accepted) ++ snds (frame_bytes (SummaryFrame summary)) ++
     rcvs (frame_bytes (Completed done)))
    (Ok (acknowledged plan transport done)).
Proof.
  intros accepted Hs Hn Hsum Hh Fb Fc Fd Fa Fs Fk. unfold send_transfer. apply utters_track.
  eapply utters_try; [by apply utters_send|]. cbv zeta. rewrite <- (app_assoc (snds (manifest_wire _))).
  eapply utters_try; [by apply manifest_utters|]. eapply utters_try; [by apply utters_send|].
  apply (utters_try _ _ _ _ accepted).
  { unfold recv_manifest_accepted. rewrite <- (app_nil_r (rcvs _)).
    eapply utters_try; [by apply (utters_recv accepted)|]. apply utters_ret. }
  cbn [accepted]. apply utters_track.
  rewrite <- (app_nil_l (snds _ ++ _)). apply (utters_try _ _ _ _ summary).
  { rewrite <- Hsum. by apply data_utters. }
  eapply utters_try; [by apply utters_send|]. rewrite <- (app_nil_r (rcvs _)).
  eapply utters_try; [by apply (utters_recv (Completed done))|]. cbv beta iota.
  rewrite Hh, String.eqb_refl. cbn [negb]. apply utters_track, utters_ret.
Qed.
End Sender.

(** ** Both sides *)

Section Rerun.
Context {LS : sig} `{Has timer_sig LS} `{Has tracker_sig LS} `{Has join_sig LS} `{Has stdin_sig LS}.
Context {LR : sig} `{Has timer_sig LR} `{Has fs_sig LR} `{Has resume_sig LR} `{Has tracker_sig LR}.
Context `{Has join_sig LR} `{Has accept_sig LR} `{Has term_sig LR} `{Has uuid_sig LR}.
Context `{JsonLaws Frame} `{Json ResumeState} `{Json TransferRecord}.
Context `{Json (string * RootSourceKind * list ManifestEntry)}.
Context `{Blake3} `{HexLaws} `{Libc} `{FrameText} `{EntryLayout} (fuelS fuelR : nat).
Context {StS StR : Type} (hS : handler LS StS) (hR : handler LR StR).
Context (at_disk : disk -> StR) (Hdisk : has_disk hR at_disk).

(** A planned transfer of files that a receiver can accept. *)
Record acceptable (plan : PlannedTransfer) (begin : BeginFrame) (hash : string)
  (summary : TransferSummary) : Prop := {
  acc_source : planned_root_source plan = Filesystem;
  acc_capacity : with_capacity (total_entries begin) = Ok tt;
  acc_valid : validate_manifest begin (announced (planned_entries plan)) = Ok tt;
  acc_hash : manifest_hash (root_name begin) Filesystem (announced (planned_entries plan)) = Ok hash;
  acc_summary : summary_from_entries (planned_entries plan) = Ok summary;
}.

(** Every frame of the conversation is within the frame limit. *)
Record conversation_fits (plan : PlannedTransfer) (begin : BeginFrame) (dest_root : string)
  (summary : TransferSummary) : Prop := {
  fit_begin : fits (Begin begin);
  fit_chunks : Forall (fun c => fits (ManifestChunk (announced c))) (planned_chunks plan);
  fit_done : fits ManifestDone;
  fit_accepted : fits (accepted_frame begin (announced (planned_entries plan)) dest_root summary);
  fit_summary : fits (SummaryFrame summary);
  fit_completed : fits (completed_frame
    (complete_plan begin (announced (planned_entries plan)) dest_root) summary);
}.

Lemma planned_chunks_whole plan : concat (announced <$> planned_chunks plan) = announced (planned_entries plan).
Proof.
  assert (Hc : forall l, concat (announced <$> l) = announced (concat l)).
  { induction l as [|c l IH]; [done|]. cbn [fmap list_fmap concat]. rewrite IH. symmetry. apply fmap_app. }
  rewrite Hc. unfold planned_chunks. rewrite chunks_of_concat; [done|vm_compute; lia|done].
Qed.

Lemma native_path_round_trip path : decode_native_path (encode_native_path path) = path.
Proof. exact (decode_encode_component path). Qed.

(** C22: running a transfer again is idempotent.  When the destination already holds
    the content of the manifest, and no transfer of that id is half done there (as
    [commit_delivers] says of a commit), the whole conversation of [send_transfer] and [receive_transfer] ends in
    every execution, however the transport cuts the bytes, and both sides report
    the same completed outcome, with the destination tree as it was.  The hypotheses
    say nothing of the operator, of data streams or of the resume state's lock:
    whatever those would answer, the outcome is this one. *)
Theorem rerun_is_idempotent plan transport hash summary dest_root collision ask
  confirm_timeout stall stall' stS d :
  let begin := begin_frame plan transport in
  let done := received (complete_plan begin (announced (planned_entries plan)) dest_root) summary in
  acceptable plan begin hash summary -> conversation_fits plan begin dest_root summary ->
  delivered fuelR begin (announced (planned_entries plan)) dest_root d ->
  length (planned_entries plan) < fuelR ->
  exists stS' d', same_tree d d' /\
    ends_in hS hR
      (Net (send_transfer fuelS plan transport stall) stS
           (receive_transfer fuelR dest_root collision ask confirm_timeout stall') (at_disk d) [] [])
      (final (Ok done) stS' (Ok done) (at_disk d')).
Proof.
  intros begin done [Hsrc Hcap Hval Hhash Hsum] [Fb Fc Fd Fa Fs Fk] Hdel Hfuel.
  pose proof (planned_chunks_whole plan) as Hw.
  pose proof (ok_ids _ _ (proj1 (manifest_accepted _ _) Hval)) as Hn.
  destruct (sender_utters fuelS hS plan transport stall _ (total_bytes summary) summary
    {| completed_final_path := encode_native_path
         (plan_final_path (complete_plan begin (announced (planned_entries plan)) dest_root));
       completed_total_bytes := total_bytes summary; completed_regular_files := regular_files summary;
       completed_transfer_hash := transfer_hash summary |}
    Hsrc Hn Hsum eq_refl Fb Fc Fd Fa Fs Fk stS) as [stS' HbS].
  destruct (receiver_behaves fuelR hR at_disk Hdisk begin (announced <$> planned_chunks plan) hash summary
    dest_root collision ask confirm_timeout stall' d) as (d'&Hs&HbR); rewrite ?Hw; try done.
  { unfold announced, nlen. by rewrite length_fmap. }
  { rewrite length_fmap. eapply Nat.le_lt_trans; [apply chunks_of_length|done]. }
  { by apply Forall_fmap. }
  exists stS', d'. split; [done|]. rewrite Hw in HbR.
  replace (acknowledged plan transport _) with done in HbS
    by (unfold acknowledged; simpl; by rewrite native_path_round_trip).
  eapply dual_peers_end; [exact HbS|exact HbR|]. by autorewrite with rb.
Qed.
End Rerun.

(** ** A transfer from standard input *)

(** ** The file of a stage *)

Lemma join_split s : join_slash (split_slash s) = s.
Proof.
  induction s as [|a s IH]; [done|]. cbn [split_slash].
  destruct (split_slash s) as [|x xs] eqn:E; [by destruct s as [|b s]; [done|]; simpl in E; destruct (Ascii.eqb b slash); [done|destruct (split_slash s)]|].
  destruct (Ascii.eqb_spec a slash) as [->|_].
  - rewrite <- IH. by destruct xs.
  - rewrite <- IH. by destruct xs.
Qed.

(** The last part of a joined path is the name that was joined. *)
Lemma split_push buf n : name_ok n -> exists ps, split_slash (push buf n) = ps ++ [n].
Proof.
  intros Hn. destruct (name_relative n Hn) as [Hr _]. destruct Hn as (_&_&_&Hf).
  unfold push. rewrite Hr. destruct (String.eqb_spec buf "") as [->|Hb].
  - exists []. by apply split_slash_free.
  - cbn [orb]. destruct (ends_with_slash buf) eqn:Es.
    + apply ends_with_slash_split in Es as [t ->]. exists (split_slash t).
      rewrite string_app_assoc.
      by rewrite split_slash_app, (split_slash_free n).
    + exists (split_slash buf). by rewrite split_slash_app, (split_slash_free n).
Qed.

Lemma drop_named n ps : name_ok n -> drop_blank (n :: ps) = n :: ps.
Proof.
  intros (H1&H2&_). simpl. destruct (String.eqb_spec n ""); [done|]. by destruct (String.eqb_spec n ".").
Qed.

Lemma ends_named buf n : name_ok n -> ends_with_slash (push buf n) = false.
Proof.
  intros Hn. apply not_true_is_false. intros [t E]%ends_with_slash_split.
  destruct (split_push buf n Hn) as [ps Hs]. rewrite E in Hs.
  change (t +:+ "/") with (t +:+ "/" +:+ "") in Hs. rewrite split_slash_app in Hs.
  apply app_inj_tail in Hs as [_ ?]. by destruct Hn.
Qed.

Lemma path_parent_push dest sname name :
  name_ok sname -> name_ok name -> path_parent (push (push dest sname) name) = Some (push dest sname).
Proof.
  intros Hs Hn. set (stage := push dest sname).
  assert (Hne : stage <> "").
  { intros E. destruct (split_push dest sname Hs) as [ps Hp]. fold stage in Hp. rewrite E in Hp.
    simpl in Hp. destruct ps as [|p [|q ps]]; [|done..]. injection Hp as <-. by destruct Hs. }
  unfold path_parent. rewrite (push_name stage name Hn). unfold parent.
  rewrite last_snoc. cbn. rewrite removelast_last. unfold stage at 1. rewrite (push_name dest sname Hs).
  destruct (split_push stage name Hn) as [ps Hps].
  assert (Hst : split_slash (push stage name) = split_slash stage ++ [name]).
  { unfold push at 1. destruct (name_relative name Hn) as [-> _].
    destruct (String.eqb_spec stage ""); [done|]. change (ends_with_slash stage) with (ends_with_slash (push dest sname)). rewrite (ends_named dest sname Hs). cbn [orb].
    rewrite split_slash_app. by destruct Hn as (_&_&_&Hf); rewrite (split_slash_free name). }
  rewrite Hst, reverse_snoc, drop_named by done. cbn [skipn]. rewrite drop_0.
  destruct (split_push dest sname Hs) as [qs Hqs]. fold stage in Hqs.
  assert (Hj : join_slash (reverse (drop_blank (reverse (split_slash stage)))) = stage).
  { rewrite Hqs, reverse_snoc, drop_named, <- reverse_snoc, reverse_involutive by done.
    rewrite <- Hqs. apply join_split. }
  destruct (components dest) as [|c [|c2 cs]]; [|destruct c|destruct c]; simpl; by rewrite Hj.
Qed.

(** ** The disk of a transfer from standard input *)

Lemma make_dirs_app pre a b m :
  make_dirs pre (a ++ b) m = m' ← make_dirs pre a m; make_dirs (pre ++ a) b m'.
Proof.
  revert pre m. induction a as [|c a IH]; intros pre m; [by rewrite app_nil_r|].
  cbn [make_dirs app]. rewrite (app_assoc pre [c] a : pre ++ c :: a = _).
  destruct (m !! (pre ++ [c])) as [[]|]; try done; apply IH.
Qed.

Lemma make_dirs_there pre todo m :
  (forall q, q <> [] -> q `prefix_of` todo -> m !! (pre ++ q) = Some NDir) ->
  make_dirs pre todo m = Some m.
Proof.
  revert pre. induction todo as [|c todo IH]; intros pre Hq; [done|]. cbn [make_dirs].
  rewrite Hq by (done || by apply prefix_cons, prefix_nil). apply IH. intros q Hne Hp.
  rewrite <- (app_assoc pre [c] q). apply Hq; [done|]. by apply prefix_cons.
Qed.

Section Resolved.
Context `{Hex}.

Lemma exists_keeps {A} (p : prog exists_sig A) d : (run disk_handler (exists_on_fs p) d).2 = d.
Proof.
  revert d. induction p as [a|[path] k IH]; intros d; [done|]. unfold exists_on_fs. cbn [interp].
  rewrite run_bind. apply IH.
Qed.

Lemma exists_free path d :
  run disk_handler (exists_on_fs (try_exists path)) d =
    (Ok (bool_decide (is_Some (d_nodes d !! components path))), d).
Proof. done. Qed.

Lemma exists_try {A B} (p : prog exists_sig (ares A)) (f : A -> prog exists_sig (ares B)) d a :
  (run disk_handler (exists_on_fs p) d).1 = Ok a ->
  run disk_handler (exists_on_fs (ptry p f)) d = run disk_handler (exists_on_fs (f a)) d.
Proof.
  intros E. unfold ptry, exists_on_fs. rewrite interp_bind, run_bind.
  pose proof (exists_keeps p d) as Hk. unfold exists_on_fs in *. by rewrite Hk, E.
Qed.

Lemma find_free_free left idx dest requested d name :
  (run disk_handler (exists_on_fs (find_free left idx dest requested)) d).1 = Ok name ->
  d_nodes d !! components (push dest name) = None.
Proof.
  revert idx. induction left as [|left IH]; intros idx; [done|]. cbn [find_free].
  erewrite exists_try by (by rewrite exists_free). cbn [fst].
  destruct (bool_decide_reflect (is_Some (d_nodes d !! components (push dest (rename_component requested idx)))))
    as [Hs|Hs]; cbn [negb]; [apply IH|].
  intros [= <-]. by apply eq_None_not_Some.
Qed.

(** The name that is chosen is free, or may be replaced. *)
Lemma resolved_free dest requested collision d name :
  (run disk_handler (exists_on_fs (resolve_final_name_local dest requested collision)) d).1 = Ok name ->
  d_nodes d !! components (push dest name) = None \/ collision = Overwrite.
Proof.
  unfold resolve_final_name_local. cbv zeta. erewrite exists_try by (by rewrite exists_free). cbn [fst].
  destruct (bool_decide_reflect (is_Some (d_nodes d !! components (push dest requested)))) as [Hs|Hs];
    cbn [negb].
  - destruct collision; [done|by right|]. intros E%find_free_free. by left.
  - intros [= <-]. left. by apply eq_None_not_Some.
Qed.
End Resolved.

(** A step that leaves the stream alone. *)
Lemma behaves_quiet {L St E A B} (h : handler L St) (p : prog (stream_sig ⊕ L) (result E A))
  (f : A -> prog (stream_sig ⊕ L) (result E B)) st a st1 τ b st2 :
  behaves Exact h p st [] (Ok a) st1 -> behaves Exact h (f a) st1 τ b st2 ->
  behaves Exact h (ptry p f) st τ b st2.
Proof. intros Hp Hf. exact (behaves_try Exact h p f st [] a st1 τ b st2 Hp Hf). Qed.

(** Where a transfer from standard input is staged. *)
Definition stage_name (transfer_id uuid : string) : string :=
  ".bore-transfer-" +:+ transfer_id +:+ "-" +:+ uuid.

Section StdinDisk.
Context `{Hex} `{Blake3} (begin : BeginFrame) (dest name uuid : string) (d : disk).

Let sname := stage_name (transfer_id begin) uuid.
Let stage := push dest sname.
Let root := push stage name.

(** The destination root is a directory, in directories; the final name and that of the stage are
    plain names and differ; nothing is where the transfer will be staged. *)
Record stdin_layout : Prop := {
  sl_dest q : q <> [] -> q `prefix_of` components dest -> d_nodes d !! q = Some NDir;
  sl_name : name_ok name;
  sl_stage : name_ok sname;
  sl_other : name <> sname;
  sl_not_backup : name <> "overwrite-backup";
  sl_fresh r : d_nodes d !! (components stage ++ r) = None;
}.

Definition staged_disk : disk := with_nodes d (<[components stage := NDir]> (d_nodes d)).

Context (Hl : stdin_layout).

Lemma stage_key : components stage = components dest ++ [Normal sname].
Proof. apply push_name, (sl_stage Hl). Qed.

Lemma root_key : components root = components stage ++ [Normal name].
Proof. apply push_name, (sl_name Hl). Qed.

Lemma stage_missing : d_nodes d !! components stage = None.
Proof. pose proof (sl_fresh Hl []) as E. by rewrite app_nil_r in E. Qed.

Lemma stage_made : disk_handler (FsCreateDirAll stage) d = (Ok tt, staged_disk).
Proof.
  cbn [disk_handler]. rewrite stage_key, make_dirs_app, make_dirs_there by exact (sl_dest Hl).
  cbn [mbind option_bind make_dirs app].
  rewrite <- stage_key, stage_missing. done.
Qed.

Lemma stage_is_dir :
  make_dirs [] (components stage) (d_nodes staged_disk) = Some (d_nodes staged_disk).
Proof.
  apply make_dirs_there. intros q Hne [r E]. unfold staged_disk. cbn [d_nodes with_nodes app].
  destruct (decide (components stage = q)) as [<-|Hq]; [by apply lookup_insert_eq|].
  rewrite lookup_insert_ne by done. apply (sl_dest Hl); [done|].
  rewrite stage_key in E, Hq. destruct r as [|x r _] using rev_ind; [by rewrite app_nil_r in E|].
  rewrite app_assoc in E. apply app_inj_tail in E as [-> _]. by exists r.
Qed.

Lemma stage_creatable : creatable root staged_disk (d_nodes staged_disk).
Proof.
  split.
  - unfold root, stage. rewrite path_parent_push by apply Hl. apply stage_is_dir.
  - intros n. unfold staged_disk. cbn [d_nodes with_nodes]. rewrite root_key, lookup_insert_ne.
    + by rewrite (sl_fresh Hl).
    + intros E. rewrite <- (app_nil_r (components stage)) in E at 1. by apply app_inv_head in E.
Qed.

(** The plan of such a transfer. *)
Definition stdin_receiver_plan (entries : list ManifestEntry) : ReceiverPlan := {|
  plan_begin := begin; plan_entries := entries; plan_final_name := encode_component_os name;
  plan_final_path := push dest name; stage_dir := stage; stage_root := root;
  plan_resume := None; plan_resumed_bytes := 0; plan_resume_plan := [];
  plan_multi_source := false; already_complete := false |}.

(** The destination holds the data, and the rest of the disk is as it was: the
    stage is gone. *)
Definition arrived (data : bytes) (d' : disk) : Prop :=
  d_nodes d' !! components (push dest name) = Some (NFile data) /\
  (forall r, r <> [] -> d_nodes d' !! (components (push dest name) ++ r) = None) /\
  (forall k : key, under (components (push dest name)) k = false -> d_nodes d' !! k = d_nodes d !! k).

Lemma final_key : components (push dest name) = components dest ++ [Normal name].
Proof. apply push_name, (sl_name Hl). Qed.

Lemma apart_names (p : key) m n : m <> n -> apart (p ++ [Normal m]) (p ++ [Normal n]).
Proof. intros Hne. split; intros [r E]; rewrite <- app_assoc in E; apply app_inv_head in E; simpl in E; congruence. Qed.

Lemma below_stage (r : key) : components stage <> components stage ++ [Normal name] ++ r.
Proof. intros E. rewrite <- (app_nil_r (components stage)) in E at 1. by apply app_inv_head in E. Qed.

(** What is below the stage once the file is in it. *)
Lemma held_below data (d2 : disk) r :
  d_nodes d2 = <[components root := NFile data]> (<[components stage := NDir]> (d_nodes d)) ->
  r <> [] -> r <> [Normal name] -> d_nodes d2 !! (components stage ++ r) = None.
Proof.
  intros -> H1 H2. rewrite root_key, !lookup_insert_ne; [by apply sl_fresh| |].
  - intros E. rewrite <- (app_nil_r (components stage)) in E at 1. by apply app_inv_head in E; subst.
  - intros E%app_inv_head. by subst.
Qed.

Lemma held_layout entries data d2 :
  d_nodes d2 = <[components root := NFile data]> (<[components stage := NDir]> (d_nodes d)) ->
  single_layout (stdin_receiver_plan entries) d2.
Proof.
  intros Hd2. split; cbn [plan_multi_source stdin_receiver_plan stage_dir stage_root plan_final_path].
  - done.
  - rewrite Hd2, root_key, lookup_insert_ne, lookup_insert_eq; [by eexists|].
    intros E. by destruct (below_stage []).
  - exists [Normal name]. split; [done|]. apply root_key.
  - rewrite stage_key, final_key. by apply apart_names, not_eq_sym, (sl_other Hl).
  - rewrite root_key, push_name by apply backup_name. by apply apart_names, (sl_not_backup Hl).
  - intros r. rewrite push_name, <- app_assoc by apply backup_name. apply (held_below data _ _ Hd2); [done|].
    intros [= E _]. by destruct (sl_not_backup Hl).
Qed.

Lemma stdin_commits fuel collision entries data d2 :
  d_nodes d2 = <[components root := NFile data]> (<[components stage := NDir]> (d_nodes d)) ->
  d_nodes d !! components (push dest name) = None \/ collision = Overwrite ->
  exists d', run disk_handler (commit_stage fuel (stdin_receiver_plan entries) collision) d2 = (Ok tt, d') /\
    arrived data d'.
Proof.
  intros Hd2 Hc. pose proof (held_layout entries data d2 Hd2) as Hlay.
  destruct (commit_succeeds (stdin_receiver_plan entries) d2 fuel collision Hlay) as (d'&Hr&Ha&Hb&Hk);
    cbn [stdin_receiver_plan stage_root stage_dir plan_final_path] in *.
  - rewrite Hd2, lookup_insert_eq. by eexists.
  - destruct Hc as [Hc|Hc]; [left|by right]. rewrite Hd2, !lookup_insert_ne; [done| |].
    + rewrite stage_key, final_key. intros E%app_inv_head. injection E as E. by destruct (sl_other Hl).
    + rewrite root_key, stage_key, final_key, <- app_assoc. intros E%app_inv_head. done.
  - exists d'. split; [done|]. split_and!.
    + specialize (Ha []). rewrite !app_nil_r in Ha. by rewrite Ha, Hd2, lookup_insert_eq.
    + intros r Hr0. rewrite Ha, root_key, <- app_assoc. apply (held_below data _ _ Hd2); [done|].
      intros [= E]. done.
    + intros k Hf. destruct (under (components stage) k) eqn:Hu.
      * apply under_spec in Hu as [r ->]. by rewrite Hb, (sl_fresh Hl).
      * rewrite Hk, Hd2, !lookup_insert_ne; [done| | |done|done].
        -- intros <-. by rewrite (proj2 (under_spec _ _) (reflexivity _)) in Hu.
        -- intros <-. by rewrite root_key, under_app in Hu.
Qed.
End StdinDisk.

Section CarryCommit.
Context {L : sig} `{HF : Has fs_sig L}.

Abbreviation net := (stream_sig ⊕ L).

Lemma carry_ignore o : fs_ignore (T := net) o ≡ on_net (fs_ignore o).
Proof. apply carry_bind; [apply carry_fs|done]. Qed.

Lemma carry_exists {A} (p : prog exists_sig A) : exists_on_fs (T := net) p ≡ on_net (exists_on_fs p).
Proof.
  induction p as [a|[path] k IH]; [done|]. unfold exists_on_fs. cbn [interp].
  exact (carry_bind (fs (FsTryExists path)) (fs (FsTryExists path)) _ _ (carry_fs _) IH).
Qed.

Lemma carry_remove_any path : remove_any (T := net) path ≡ on_net (remove_any path).
Proof.
  refine (carry_bind (fs (FsSymlinkMetadata path)) (fs (FsSymlinkMetadata path)) _ _ (carry_fs _) _).
  intros [meta|e|]; [|by destruct (decide _)|done]. destruct (is_dir meta).
  - exact (carry_fs_ctx _ (FsRemoveDirAll path)).
  - exact (carry_fs_ctx _ (FsRemoveFile path)).
Qed.

Lemma carry_place collision what from to backup :
  place (T := net) collision what from to backup ≡ on_net (place collision what from to backup).
Proof.
  refine (carry_try (fs_q (FsTryExists to)) (fs_q (FsTryExists to)) _ _ (carry_fs_q _) _).
  intros []; [|exact (carry_fs_ctx _ (FsRename from to))].
  destruct collision; [done| |done].
  refine (carry_try (fs_ctx _ (FsRename to backup)) (fs_ctx _ (FsRename to backup)) _ _ (carry_fs_ctx _ _) _).
  intros _. refine (carry_bind (fs (FsRename from to)) (fs (FsRename from to)) _ _ (carry_fs _) _).
  intros [u|e|]; [apply carry_remove_any| |done]. apply carry_bind; [apply carry_ignore|done].
Qed.

Lemma carry_commit fuel plan collision :
  plan_multi_source plan = false ->
  commit_stage (T := net) fuel plan collision ≡ on_net (commit_stage fuel plan collision).
Proof.
  intros Hm. unfold commit_stage. rewrite Hm. apply carry_try; [apply carry_place|]. intros _.
  destruct (root_source (plan_begin plan)).
  - apply carry_bind; [apply carry_ignore|done].
  - apply carry_try; [apply carry_fs_q|]. intros there. apply carry_bind; [|done].
    destruct there; [apply carry_ignore|done].
Qed.
End CarryCommit.

(** The plan that [plan_transfer] makes for standard input. *)
Definition stdin_planned (transfer_id root_name : string) : PlannedTransfer := {|
  planned_transfer_id := transfer_id; planned_root_name := root_name; planned_root_source := Stdin;
  planned_entries := [{| manifest := blank_entry 0 "" RegularFile None; source_path := None |}];
  planned_total_bytes := None; planned_parallel := 1; planned_multi_source := false |}.

Definition stdin_entry : ManifestEntry := blank_entry 0 "" RegularFile None.

Lemma stdin_manifest_valid begin :
  root_source begin = Stdin -> validate_manifest begin [stdin_entry] = Ok tt.
Proof. intros E. unfold validate_manifest. cbn. unfold check_regular. cbn. by rewrite E. Qed.

Section StdinReceiver.
Context {L : sig} `{Has timer_sig L} `{HF : Has fs_sig L} `{Has resume_sig L} `{Has tracker_sig L}.
Context `{Has join_sig L} `{Has accept_sig L} `{Has term_sig L} `{Has uuid_sig L}.
Context `{JsonLaws Frame} `{Json ResumeState} `{Json TransferRecord}.
Context `{Json (string * RootSourceKind * list ManifestEntry)}.
Context `{Blake3} `{Hex} `{Libc} `{FrameText} `{EntryLayout} (fuel : nat).
Context {St : Type} (h : handler L St) (dst : disk -> ProgressShared -> St) (Hdst : stores h dst).

(** A terminal on which printing changes nothing, and a generator that gives [uuid]. *)
Context (uuid : string).
Context (Hprint : forall text d t, run h (call (S := term_sig) (Print text)) (dst d t) = (tt, dst d t)).
Context (Huuid : forall d t, run h (call (S := uuid_sig) NewUuid) (dst d t) = (uuid, dst d t)).

Lemma stores_disk t : has_disk h (fun d => dst d t).
Proof. intros o d. apply (stores_fs h dst Hdst). Qed.

Lemma println_behaves {A} text (k : unit -> prog (stream_sig ⊕ L) A) d t τ a st' :
  behaves Exact h (k tt) (dst d t) τ a st' ->
  behaves Exact h (pbind (println text) k) (dst d t) τ a st'.
Proof. intros Hk. exact (behaves_call (S := term_sig) Exact h _ _ _ _ _ _ _ _ (Hprint _ d t) Hk). Qed.

Lemma stdin_confirmed plan dest ask timeout d t :
  root_source (plan_begin plan) = Stdin ->
  behaves Exact h (confirm_manifest plan dest ask timeout) (dst d t) [] (Ok (Some true)) (dst d t).
Proof.
  intros Hs. unfold confirm_manifest. cbv zeta.
  assert (Hd : behaves Exact h (display_and_confirm_manifest_sync (plan_begin plan) (plan_entries plan) dest ask)
    (dst d t) [] (Ok true) (dst d t)).
  { unfold display_and_confirm_manifest_sync. apply println_behaves. rewrite Hs. apply println_behaves.
    destruct ask; [by apply println_behaves; constructor|constructor]. }
  destruct (_ && ask).
  - apply (behaves_map Exact h (fun r => match r with
      | InTime r => rbind r (fun accepted => Ok (Some accepted)) | Elapsed => Ok None end) _ _ _ (InTime (Ok true))).
    apply timeout_behaves; [apply (stores_in_time h dst Hdst)|exact Hd].
  - eapply behaves_quiet; [exact Hd|constructor].
Qed.

Lemma stdin_plan_behaves begin dest name collision d t entries :
  stdin_layout begin dest name uuid d ->
  (run disk_handler (exists_on_fs (resolve_final_name_local dest (decode_component (root_name begin)) collision)) d).1
    = Ok name ->
  behaves Exact h (stdin_plan begin entries dest collision) (dst d t) []
    (Ok (stdin_receiver_plan begin dest name uuid entries)) (dst (staged_disk begin dest uuid d) t).
Proof.
  intros Hl Hname. unfold stdin_plan. cbv zeta.
  apply (behaves_quiet h _ _ _ name (dst d t)).
  { apply (carried_behaves Exact h (fun d => dst d t) _ _ _ _ _ (stores_disk t) (carry_exists _)).
    rewrite (surjective_pairing (run _ _ _)), Hname. by rewrite exists_keeps. }
  unfold temp_stage_dir. apply behaves_assoc.
  refine (behaves_call (S := uuid_sig) Exact h _ _ _ _ _ _ _ _ (Huuid d t) _). cbn [pbind].
  refine (proj2 (behaves_fs Exact h (FsCreateDirAll _) _ _ tt _ _ _ _ _ _) _);
    [|constructor].
  rewrite (stores_fs h dst Hdst). pose proof (stage_made begin dest name uuid d Hl) as Hm.
  unfold stage_name in Hm. by rewrite Hm.
Qed.

(** What both sides say before the end: the announcement, the acceptance, the
    data and its verification. *)
Definition stdin_said (begin : BeginFrame) (name : string) (pieces : list bytes) : list act :=
  let total := nlen (concat pieces) in
  let digest := blake3_hash_hex (concat pieces) in
  snds (frame_bytes (Begin begin)) ++
  (snds (manifest_wire [[stdin_entry]]) ++ snds (frame_bytes ManifestDone)) ++
  rcvs (frame_bytes (ManifestAccepted (encode_component_os name) (accepted_parallel begin) 0 [])) ++
  snds (pieces_wire pieces) ++ snds (frame_bytes (StreamEnd total digest)) ++
  rcvs (frame_bytes (StreamVerified total digest)).

Lemma stdin_verified plan (d : disk) t data summary :
  root_source (plan_begin plan) = Stdin -> plan_entries plan = [stdin_entry] ->
  d_nodes d !! components (stage_root plan) = Some (NFile data) -> length data < fuel ->
  summary_from_materialized_entries [materialized stdin_entry (nlen data) (blake3_hash_hex data)] = Ok summary ->
  exists d', same_tree d d' /\
    behaves Exact h (verify_summary fuel plan) (dst d t) [] (Ok summary) (dst d' t).
Proof.
  intros Hs He Hd Hf Hsum. destruct (hash_file_reads fuel (stage_root plan) d data Hd Hf) as (d'&Hr&Ht).
  exists d'. split; [done|]. unfold verify_summary. rewrite Hs, He. cbn [head anyhow_context ptry pbind].
  change (stage_path (stage_root plan) (rel_path stdin_entry)) with (Ok (E := anyhow) (stage_root plan)).
  cbn [ptry pbind].
  refine (proj2 (behaves_fs Exact h (FsMetadata _) _ _ (meta_of (NFile data)) _ _ _ _ _ _) _).
  { rewrite (stores_fs h dst Hdst). cbn [disk_handler]. by rewrite Hd. }
  apply (behaves_quiet h _ _ _ (blake3_hash_hex data) (dst d' t)).
  - exact (carried_behaves Exact h (fun d => dst d t) _ _ _ _ _ (stores_disk t) (carry_hash_file _ _) Hr).
  - cbn [meta_of meta_len]. rewrite Hsum. constructor.
Qed.

(** The frames of a transfer from standard input are within the limit. *)
Record stdin_fits (begin : BeginFrame) (dest name : string) (pieces : list bytes)
  (summary : TransferSummary) : Prop := {
  sf_begin : fits (Begin begin);
  sf_chunk : fits (ManifestChunk [stdin_entry]);
  sf_done : fits ManifestDone;
  sf_accepted : fits (ManifestAccepted (encode_component_os name) (accepted_parallel begin) 0 []);
  sf_pieces : Forall piece_ok pieces;
  sf_end : fits (StreamEnd (nlen (concat pieces)) (blake3_hash_hex (concat pieces)));
  sf_verified : fits (StreamVerified (nlen (concat pieces)) (blake3_hash_hex (concat pieces)));
  sf_summary : fits (SummaryFrame summary);
  sf_completed : fits (completed_frame
    (stdin_receiver_plan begin dest name uuid [stdin_entry]) summary);
}.

Lemma stdin_accepted_behaves begin dest name d t pieces summary collision stall :
  let plan := stdin_receiver_plan begin dest name uuid [stdin_entry] in
  let data := concat pieces in
  root_source begin = Stdin -> stdin_layout begin dest name uuid d ->
  d_nodes d !! components (push dest name) = None \/ collision = Overwrite ->
  stdin_fits begin dest name pieces summary -> S (length pieces) < fuel -> length data < fuel ->
  (nlen data < 2 ^ 64)%N ->
  summary_from_materialized_entries [materialized stdin_entry (nlen data) (blake3_hash_hex data)] = Ok summary ->
  exists d' t', arrived dest name d data d' /\
    behaves Exact h (receive_accepted fuel plan collision stall) (dst (staged_disk begin dest uuid d) t)
      (snds (frame_bytes (ManifestAccepted (encode_component_os name) (accepted_parallel begin) 0 [])) ++
       (rcvs (pieces_wire pieces) ++ rcvs (frame_bytes (StreamEnd (nlen data) (blake3_hash_hex data))) ++
        snds (frame_bytes (StreamVerified (nlen data) (blake3_hash_hex data)))) ++
       snds (frame_bytes (completed_frame plan summary)))
      (Ok (received plan summary)) (dst d' t').
Proof.
  intros plan data Hs Hl Hc [_ _ _ Fa Fp Fe Fv _ Fk] Hp Hf Hd Hsum.
  set (d1 := staged_disk begin dest uuid d).
  set (d2 := landed (stage_root plan) d1 (d_nodes d1) data).
  assert (Hn : d_nodes d2 !! components (stage_root plan) = Some (NFile data)) by apply lookup_insert_eq.
  set (t1 := count_pieces (set_current (tracker_step (SetCurrent (display_component (plan_final_name plan)))
    (tracker_step (AddResumedBytes 0) t)) "stdin") pieces).
  destruct (stdin_verified plan d2 t1 data summary Hs eq_refl Hn Hf Hsum) as (d3&Hsame&Hv).
  destruct (stdin_commits begin dest name uuid d Hl fuel collision [stdin_entry] data d3) as (d'&Hr&Ha).
  { by rewrite Hsame. }
  { done. }
  exists d', (tracker_step Finish t1). split; [done|]. unfold receive_accepted. cbv zeta.
  eapply (behaves_try Exact); [by apply (io_send_frame_behaves h (ManifestAccepted _ _ _ _))|].
  do 2 (eapply behaves_track; [apply (stores_track h dst Hdst)|]).
  cbn [plan stdin_receiver_plan plan_begin]. rewrite Hs.
  eapply (behaves_try Exact _ _ _ _ _ summary (dst d2 t1)).
  { rewrite <- Hsum. apply (receive_behaves h dst Hdst fuel stdin_entry); try done.
    by apply (stage_creatable begin dest name uuid d). }
  apply (behaves_quiet h _ _ _ summary (dst d3 t1)); [exact Hv|].
  rewrite bool_decide_eq_true_2 by done. cbn [negb].
  apply (behaves_quiet h _ _ _ tt (dst d' t1)).
  { by apply (carried_behaves Exact h (fun d => dst d t1) _ _ _ _ _ (stores_disk t1)
      (carry_commit fuel plan collision eq_refl)). }
  rewrite <- (app_nil_r (snds _)).
  eapply (behaves_try Exact); [by apply (io_send_frame_behaves h (completed_frame plan summary))|].
  eapply behaves_track; [apply (stores_track h dst Hdst)|]. constructor.
Qed.

Lemma stdin_receiver_behaves begin dest name d t pieces hash summary collision ask confirm_timeout stall :
  let plan := stdin_receiver_plan begin dest name uuid [stdin_entry] in
  let data := concat pieces in
  protocol_version begin = PROTOCOL_VERSION -> root_source begin = Stdin -> total_entries begin = 1%N ->
  with_capacity 1 = Ok tt -> manifest_hash (root_name begin) Stdin [stdin_entry] = Ok hash ->
  stdin_layout begin dest name uuid d ->
  (run disk_handler (exists_on_fs (resolve_final_name_local dest (decode_component (root_name begin)) collision)) d).1
    = Ok name ->
  stdin_fits begin dest name pieces summary -> S (length pieces) < fuel -> length data < fuel ->
  (nlen data < 2 ^ 64)%N ->
  summary_from_materialized_entries [materialized stdin_entry (nlen data) (blake3_hash_hex data)] = Ok summary ->
  exists d' t', arrived dest name d data d' /\
    behaves Exact h (receive_transfer fuel dest collision ask confirm_timeout stall) (dst d t)
      (dual (stdin_said begin name pieces) ++ snds (frame_bytes (completed_frame plan summary)))
      (Ok (received plan summary)) (dst d' t').
Proof.
  intros plan data Hv Hs Hone Hcap Hhash Hl Hname Hfit Hp Hf Hd Hsum.
  destruct (stdin_accepted_behaves begin dest name d t pieces summary collision stall) as (d'&t'&Ha&Hb); try done.
  { by eapply resolved_free. }
  exists d', t'. split; [done|]. destruct Hfit as [Fb Fm Fd _ _ _ _ _ _].
  unfold receive_transfer. rewrite <- (app_nil_r (dual _ ++ _)).
  eapply (behaves_bind Exact _ _ _ _ _ (Ok (received plan summary))); [|constructor].
  unfold stdin_said. cbv zeta. rewrite !dual_app, !dual_rcvs, !dual_snds, <- !app_assoc.
  rewrite (app_assoc (rcvs (manifest_wire _))), (app_assoc (rcvs (frame_bytes (Begin begin)))).
  unfold receive_body. eapply (behaves_try Exact _ _ _ _ _ plan (dst (staged_disk begin dest uuid d) t)).
  - unfold cleaning. apply (behaves_map Exact h (map_err (pair None)) _ _ _ (Ok plan)).
    apply (announced_behaves fuel h begin [[stdin_entry]] hash); cbn [concat app]; rewrite ?Hone, ?Hs; try done.
    + by apply stdin_manifest_valid.
    + simpl. lia.
    + by constructor.
    + by apply stdin_plan_behaves.
  - cbv beta iota zeta. cbn [already_complete plan stdin_receiver_plan].
    apply (behaves_quiet h _ _ _ (Some true) (dst (staged_disk begin dest uuid d) t)).
    + unfold cleaning. apply (behaves_map Exact h (map_err _) _ _ _ (Ok (Some true))).
      by apply stdin_confirmed.
    + cbv beta iota. unfold cleaning.
      apply (behaves_map Exact h (map_err _) _ _ _ (Ok (received plan summary))).
      rewrite <- !app_assoc in Hb. exact Hb.
Qed.

End StdinReceiver.

Section StdinSender.
Context {L : sig} `{Has timer_sig L} `{Has tracker_sig L} `{Has join_sig L} `{Has stdin_sig L}.
Context `{JsonLaws Frame} `{Json TransferRecord} `{Blake3} `{Hex} `{FrameText} (fuel : nat).
Context {St : Type} (h : handler L St) (src : ProgressShared -> list bytes -> St) (Hsrc : feeds h src).

Lemma stdin_sender_behaves id root_name transport stall name pieces t summary done :
  let plan := stdin_planned id root_name in
  let begin := begin_frame plan transport in
  let total := nlen (concat pieces) in
  let digest := blake3_hash_hex (concat pieces) in
  let accepted := ManifestAccepted (encode_component_os name) (accepted_parallel begin) 0 [] in
  summary_from_materialized_entries [materialized stdin_entry total digest] = Ok summary ->
  completed_transfer_hash done = transfer_hash summary ->
  fits (Begin begin) -> fits (ManifestChunk [stdin_entry]) -> fits ManifestDone -> fits accepted ->
  Forall piece_ok pieces -> fits (StreamEnd total digest) -> fits (StreamVerified total digest) ->
  fits (SummaryFrame summary) -> fits (Completed done) ->
  length pieces < fuel -> (total < 2 ^ 64)%N ->
  exists t', behaves Exact h (send_transfer fuel plan transport stall) (src t pieces)
    (stdin_said begin name pieces ++ snds (frame_bytes (SummaryFrame summary)) ++
     rcvs (frame_bytes (Completed done)))
    (Ok (acknowledged plan transport done)) (src t' []).
Proof.
  intros plan begin total digest accepted Hsum Hh Fb Fm Fd Fa Fp Fe Fv Fs Fk Hf Ht.
  set (t1 := count_pieces (set_current (tracker_step (AddResumedBytes 0)
    (tracker_step (SetCurrent (display_component root_name)) t)) "stdin") pieces).
  exists (tracker_step Finish t1). unfold send_transfer, stdin_said. cbv zeta. rewrite <- !app_assoc.
  eapply behaves_track; [apply (feeds_track h src Hsrc)|].
  eapply (behaves_try Exact); [by apply (io_send_frame_behaves h (Begin begin))|].
  eapply (behaves_try Exact _ _ _ _ _ tt (src _ pieces)).
  { change (manifest_wire [[stdin_entry]]) with (manifest_wire (announced <$> planned_chunks plan)).
    unfold manifest_wire. cbn. rewrite !app_nil_r.
    rewrite <- (app_nil_r (snds _)).
    eapply (behaves_try Exact); [by apply (io_send_frame_behaves h (ManifestChunk [stdin_entry]))|]. constructor. }
  eapply (behaves_try Exact); [by apply (io_send_frame_behaves h ManifestDone)|].
  eapply (behaves_try Exact _ _ _ _ _ accepted (src _ pieces)).
  { unfold recv_manifest_accepted. rewrite <- (app_nil_r (rcvs _)).
    eapply (behaves_try Exact); [by apply (io_recv_frame_behaves h accepted)|]. constructor. }
  cbn [accepted]. eapply behaves_track; [apply (feeds_track h src Hsrc)|].
  rewrite (app_assoc (snds (frame_bytes (StreamEnd _ _)))), (app_assoc (snds (pieces_wire pieces))).
  eapply (behaves_try Exact _ _ _ _ _ summary (src t1 [])).
  { rewrite <- Hsum. by apply (send_behaves h src Hsrc fuel {| manifest := stdin_entry; source_path := None |}). }
  eapply (behaves_try Exact); [by apply (io_send_frame_behaves h (SummaryFrame summary))|].
  rewrite <- (app_nil_r (rcvs _)).
  eapply (behaves_try Exact); [by apply (io_recv_frame_behaves h (Completed done))|]. cbv beta iota.
  rewrite Hh, String.eqb_refl. cbn [negb]. eapply behaves_track; [apply (feeds_track h src Hsrc)|]. constructor.
Qed.
End StdinSender.

Section StdinTransfer.
Context {LS : sig} `{Has timer_sig LS} `{Has tracker_sig LS} `{Has join_sig LS} `{Has stdin_sig LS}.
Context {LR : sig} `{Has timer_sig LR} `{Has fs_sig LR} `{Has resume_sig LR} `{Has tracker_sig LR}.
Context `{Has join_sig LR} `{Has accept_sig LR} `{Has term_sig LR} `{Has uuid_sig LR}.
Context `{JsonLaws Frame} `{Json ResumeState} `{Json TransferRecord}.
Context `{Json (string * RootSourceKind * list ManifestEntry)}.
Context `{Blake3} `{HexLaws} `{Libc} `{FrameText} `{EntryLayout} (fuelS fuelR : nat).
Context {StS StR : Type} (hS : handler LS StS) (hR : handler LR StR).
Context (src : ProgressShared -> list bytes -> StS) (Hsrc : feeds hS src).
Context (dst : disk -> ProgressShared -> StR) (Hdst : stores hR dst) (uuid : string).
Context (Hprint : forall text d t, run hR (call (S := term_sig) (Print text)) (dst d t) = (tt, dst d t)).
Context (Huuid : forall d t, run hR (call (S := uuid_sig) NewUuid) (dst d t) = (uuid, dst d t)).

End StdinTransfer.

(** ** Two small transfers *)

(** Short texts to hash: a record by its path, a manifest by the name of its root. *)
#[local] Instance path_record_json : Json TransferRecord :=
  {| to_vec := fun r => Ok (String.list_byte_of_string (record_rel_path r)); from_slice := fun _ => Err "path" |}.
#[local] Instance name_root_json : Json (string * RootSourceKind * list ManifestEntry) :=
  {| to_vec := fun x => Ok (String.list_byte_of_string x.1.1); from_slice := fun _ => Err "name" |}.

Definition demo_tree : list PlannedEntry :=
  [ {| manifest := {| id := 0; rel_path := ""; kind := Directory; size := None; full_hash := None;
         chunk_count := 0; symlink_target := None; device := None; mode := None |};
       source_path := None |};
    {| manifest := demo_file demo_data; source_path := Some "/src/x/a" |} ].

Definition demo_transfer : PlannedTransfer := {|
  planned_transfer_id := "t"; planned_root_name := "u:78"; planned_root_source := Filesystem;
  planned_entries := demo_tree; planned_total_bytes := Some 5%N; planned_parallel := 4;
  planned_multi_source := false |}.

Definition demo_transport : TransportMode := {| direct_udp := false; relay_tls := true |}.

(** What the first run left in the inbox. *)
Definition demo_inbox : disk := Disk
  (list_to_map [(components "/in", NDir); (components "/in/x", NDir);
    (components "/in/x/a", NFile demo_data)]) ∅ ∅ 1.

Definition demo_summary : TransferSummary :=
  match summary_from_entries demo_tree with
  | Ok s => s
  | _ => {| regular_files := 0; directories := 0; symlinks := 0; devices := 0; total_bytes := 0;
            transfer_hash := "" |}
  end.

(** Nobody answers: no data stream, no worker, no terminal. *)
Definition no_worker : handler join_sig unit := fun o st =>
  match o with Spawn => (tt, st) | JoinNext => (None, st) end.
Definition no_stream : handler accept_sig unit := fun o st =>
  match o with SelectWorker _ => (Incoming false, st) end.
Definition no_terminal : handler term_sig unit := fun o st =>
  match o with
  | Print _ => (tt, st)
  | FlushStdout | OpenTty => (Ok tt, st)
  | ConfirmResponse => (None, st)
  | ReadTtyLine | ReadStdinLine => (Ok "", st)
  | StdinIsTerminal => (false, st)
  end.
Definition fixed_uuid : handler uuid_sig unit := fun o st => match o with NewUuid => ("uuid", st) end.

Definition demo_sender : handler (timer_sig ⊕ (tracker_sig ⊕ (join_sig ⊕ stdin_sig)))
  (unit * (ProgressShared * (unit * list bytes))) :=
  hsum on_time (hsum tracker_handler (hsum no_worker stdin_handler)).

Definition demo_receiver :
  handler (timer_sig ⊕ (fs_sig ⊕ (resume_sig ⊕ (tracker_sig ⊕ (join_sig ⊕ (accept_sig ⊕ (term_sig ⊕ uuid_sig)))))))
    (unit * (disk * (ResumeRuntime * (ProgressShared * (unit * (unit * (unit * unit))))))) :=
  hsum on_time (hsum disk_handler (hsum resume_handler (hsum tracker_handler
    (hsum no_worker (hsum no_stream (hsum no_terminal fixed_uuid)))))).

Definition demo_state_of (d : disk) :
  unit * (disk * (ResumeRuntime * (ProgressShared * (unit * (unit * (unit * unit)))))) :=
  (tt, (d, (new_runtime (fresh_state (demo_begin "") "" "" []),
    (ProgressTracker_new false "listener" None 1, (tt, (tt, (tt, tt))))))).

Lemma demo_has_disk : has_disk demo_receiver demo_state_of.
Proof. intros o d. reflexivity. Qed.

Lemma rerun_is_idempotent_witness :
  exists done stS' d', outcome_final_path done = "/in/x" /\ outcome_total_bytes done = 5%N /\
    d_nodes d' = d_nodes demo_inbox /\
    ends_in demo_sender demo_receiver
      (Net (send_transfer 9 demo_transfer demo_transport 5)
           (tt, (ProgressTracker_new false "sender" None 1, (tt, [])))
           (receive_transfer 9 "/in" Fail_ true 30 5) (demo_state_of demo_inbox) [] [])
      (final (Ok done) stS' (Ok done) (demo_state_of d')).
Proof.
  destruct (rerun_is_idempotent 9 9 demo_sender demo_receiver demo_state_of demo_has_disk
    demo_transfer demo_transport (blake3_hash_hex [x75; x3a; x37; x38]) demo_summary "/in" Fail_ true 30 5 5
    (tt, (ProgressTracker_new false "sender" None 1, (tt, []))) demo_inbox)
    as (stS'&d'&Hs&He).
  - split; vm_compute; reflexivity.
  - split; try (apply demo_fits; vm_compute; reflexivity).
    repeat constructor. apply demo_fits. vm_compute. reflexivity.
  - split.
    + intros q data Hq.
      pose proof (tree_check (fun _ n => match n with NFile f => (length f <? 9)%nat | _ => true end)
        (d_nodes demo_inbox) _ _ ltac:(vm_compute; reflexivity) Hq) as Hl. by apply Nat.ltb_lt in Hl.
    + vm_compute. reflexivity.
    + right. vm_compute. by eexists.
    + intros entry [->|[->|[]%elem_of_nil]%elem_of_cons]%elem_of_cons.
      * exists "/in/x". vm_compute. done.
      * exists "/in/x/a". split; [vm_compute; reflexivity|]. exists demo_data. vm_compute. done.
  - vm_compute. lia.
  - do 3 eexists. split; [|split; [|split; [exact Hs|exact He]]]; vm_compute; reflexivity.
Defined.

Definition demo_source (t : ProgressShared) (pieces : list bytes) :
  unit * (ProgressShared * (unit * list bytes)) := (tt, (t, (tt, pieces))).

Definition demo_destination (d : disk) (t : ProgressShared) :
  unit * (disk * (ResumeRuntime * (ProgressShared * (unit * (unit * (unit * unit)))))) :=
  (tt, (d, (new_runtime (fresh_state (demo_begin "") "" "" []), (t, (tt, (tt, (tt, tt))))))).

Lemma demo_feeds : feeds demo_sender demo_source.
Proof. by split. Qed.

Lemma demo_stores : stores demo_receiver demo_destination.
Proof. split; [by intros secs [[] st]|by intros|by intros]. Qed.

Lemma demo_prints text d t :
  run demo_receiver (call (S := term_sig) (Print text)) (demo_destination d t) = (tt, demo_destination d t).
Proof. done. Qed.

Lemma demo_uuid d t :
  run demo_receiver (call (S := uuid_sig) NewUuid) (demo_destination d t) = ("uuid", demo_destination d t).
Proof. done. Qed.

Definition empty_inbox : disk := Disk
  (list_to_map [(components "/", NDir); (components "/in", NDir)]) ∅ ∅ 1.

Definition stdin_begin : BeginFrame := begin_frame (stdin_planned "t" "u:78") demo_transport.

Definition stdin_summary : TransferSummary :=
  match summary_from_materialized_entries
    [materialized stdin_entry (nlen (concat demo_pieces)) (blake3_hash_hex (concat demo_pieces))] with
  | Ok s => s
  | _ => demo_summary
  end.

Lemma demo_stdin_layout : stdin_layout stdin_begin "/in" "x" "uuid" empty_inbox.
Proof.
  split; [|by split_and!|by split_and!|done|done|].
  - intros q Hne [r E]. change (components "/in") with [RootDir; Normal "in"] in E.
    destruct q as [|a [|b [|c q]]]; [done| | |done]; injection E; intros; subst; reflexivity.
  - intros r. apply eq_None_not_Some. intros [n Hn].
    pose proof (tree_check (fun k _ => negb (under (components (push "/in" (stage_name "t" "uuid"))) k))
      (d_nodes empty_inbox) _ _ ltac:(vm_compute; reflexivity) Hn) as Hu.
    cbv beta in Hu. change (transfer_id stdin_begin) with "t" in Hu. by rewrite under_app in Hu.
Qed.

