(* ===== verification/ResumeSystem.v ===== *)
(** * The workers of a receiver, running together

    The tasks [handle_worker_connection] of one transfer share the runtime of the
    resume state, its persist lock and the disk.  This file is the transition
    system of all of them: a step is one operation of one worker, answered by its
    peer, the clock, the shared runtime or the disk.  Peers and clocks answer
    anything, and any operation of the disk may fail.

    A crash leaves of each file what was last synced ([w_dur]); the invariant
    says what a later run may rely on. *)

From stdpp Require Import list gmap.
From S2P Require Import Prelude Streams Json Wire Proto Text Paths Transfer.
From S2P Require Import Fs Disk Tracker Frames Resume Workers.

Definition worker_sig : sig := timer_sig ⊕ (fs_sig ⊕ (resume_sig ⊕ tracker_sig)).
Abbreviation worker_op := (op (stream_sig ⊕ worker_sig)).
Abbreviation worker_prog A := (prog (stream_sig ⊕ worker_sig) A).

(** What the workers share; [w_lock] is the holder of [persist_lock]. *)
Record world : Type := World {
  w_rt : ResumeRuntime;
  w_lock : option nat;
  w_vol : gmap key bytes;
  w_dur : gmap key bytes;
}.

(** One worker: what is left of its program, and its open files with their
    positions. *)
Record thread : Type := Thread {
  t_prog : worker_prog (ares unit);
  t_files : gmap handle (key * N);
}.

Definition with_vol (w : world) (v : gmap key bytes) : world :=
  World (w_rt w) (w_lock w) v (w_dur w).
Definition with_dur (w : world) (d : gmap key bytes) : world :=
  World (w_rt w) (w_lock w) (w_vol w) d.
Definition with_rt (w : world) (r : ResumeRuntime) : world :=
  World r (w_lock w) (w_vol w) (w_dur w).
Definition with_lock (w : world) (l : option nat) : world :=
  World (w_rt w) l (w_vol w) (w_dur w).

Abbreviation open_files := (gmap handle (key * N)).

(** What the disk does when it performs an operation. *)
Inductive fs_ok (w : world) (hs : open_files) : forall o : fs_op, fs_ans o -> world -> open_files -> Prop :=
| ok_open opts p h :
    is_Some (w_vol w !! components p) -> hs !! h = None ->
    fs_ok w hs (FsOpen opts p) h w (<[h := (components p, 0%N)]> hs)
| ok_seek h q off off' :
    hs !! h = Some (q, off') -> fs_ok w hs (FsSeek h off) tt w (<[h := (q, off)]> hs)
| ok_write_all h q off d f :
    hs !! h = Some (q, off) -> w_vol w !! q = Some f ->
    fs_ok w hs (FsWriteAll h d) tt (with_vol w (<[q := splice (N.to_nat off) d f]> (w_vol w)))
      (<[h := (q, off + nlen d)%N]> hs)
| ok_sync h q off f :
    hs !! h = Some (q, off) -> w_vol w !! q = Some f ->
    fs_ok w hs (FsSyncData h) tt (with_dur w (<[q := f]> (w_dur w))) hs
| ok_write p d :
    fs_ok w hs (FsWrite p d) tt (with_vol w (<[components p := d]> (w_vol w))) hs
| ok_exists p :
    fs_ok w hs (FsTryExists p) (bool_decide (is_Some (w_vol w !! components p))) w hs
| ok_remove p :
    fs_ok w hs (FsRemoveFile p) tt (with_vol w (delete (components p) (w_vol w))) hs
| ok_rename a b d :
    w_vol w !! components a = Some d ->
    fs_ok w hs (FsRename a b) tt
      (with_vol w (<[components b := d]> (delete (components a) (w_vol w)))) hs.

(** What a failed operation may leave behind: a prefix of the data, or any
    content of a file that was to be replaced. *)
Inductive fs_err (w : world) (hs : open_files) : fs_op -> world -> Prop :=
| err_nothing o : fs_err w hs o w
| err_write_all h q off d f n :
    hs !! h = Some (q, off) -> w_vol w !! q = Some f ->
    fs_err w hs (FsWriteAll h d) (with_vol w (<[q := splice (N.to_nat off) (take n d) f]> (w_vol w)))
| err_write p d f :
    fs_err w hs (FsWrite p d) (with_vol w (<[components p := f]> (w_vol w))).

(** The operations of [sync_staged_files]. *)
Definition syncs (o : fs_op) : bool :=
  match o with
  | FsSyncData _ => true
  | FsOpen opts _ => o_read opts && o_write opts
  | _ => false
  end.

Section System.
Context `{Json Frame} `{Json ResumeState} `{Blake3} `{Hex} `{FrameText}.
Context (self : ResumeShared) (genuine : N -> N -> bytes -> Prop) (sync_fails : bool).

(** Reads fill the buffer they are given, or a part of it.  Peers are free in what
    they send, but for the digests they announce: a payload with the digest of
    the header is a [genuine] content of the chunk. *)
Definition honest (o : stream_op) : stream_resp o -> Prop :=
  match o return stream_resp o -> Prop with
  | ReadT _ n => fun r => forall bs, r = InTime (Ok bs) -> (nlen bs <= n)%N
  | ReadExact n => fun r =>
      (forall buf, r = Ok buf -> nlen buf = n) /\
      (forall buf e c off len h payload,
        r = Ok buf -> from_slice buf = Ok (ChunkStart e c off len h) ->
        blake3_hash_hex payload = h -> genuine e c payload)
  | _ => fun _ => True
  end.

(** The answer to one operation of worker [i]. *)
Definition answer (i : nat) (w : world) (hs : open_files) (o : worker_op) :
  resp (s := stream_sig ⊕ worker_sig) o -> world -> open_files -> Prop :=
  match o return resp (s := stream_sig ⊕ worker_sig) o -> world -> open_files -> Prop with
  | inl s => fun r w' hs' => honest s r /\ w' = w /\ hs' = hs
  | inr (inl _) => fun _ w' hs' => w' = w /\ hs' = hs
  | inr (inr (inl f)) => fun r w' hs' =>
      (exists a, r = Ok a /\ fs_ok w hs f a w' hs') \/
      ((syncs f = true -> sync_fails = true) /\ (exists e, r = Err e) /\ fs_err w hs f w' /\ hs' = hs)
  | inr (inr (inr (inl PersistLock))) => fun _ w' hs' =>
      w_lock w = None /\ w' = with_lock w (Some i) /\ hs' = hs
  | inr (inr (inr (inl PersistUnlock))) => fun _ w' hs' => w' = with_lock w None /\ hs' = hs
  | inr (inr (inr (inl o))) => fun r w' hs' =>
      r = (resume_handler o (w_rt w)).1 /\ w' = with_rt w (resume_handler o (w_rt w)).2 /\ hs' = hs
  | inr (inr (inr (inr _))) => fun _ w' hs' => w' = w /\ hs' = hs
  end.

Record system : Type := System { s_world : world; s_threads : list thread }.

Inductive step : system -> system -> Prop :=
| step_op w ts i o k hs r w' hs' :
    ts !! i = Some (Thread (Op o k) hs) ->
    answer i w hs o r w' hs' ->
    step (System w ts) (System w' (<[i := Thread (k r) hs']> ts)).

(** A transfer with [n] workers, each of at most [fuel] frames. *)
Definition workers_of (n fuel : nat) (stall_timeout : N) : list thread :=
  replicate n (Thread (handle_worker_connection fuel self stall_timeout) ∅).

(** Before any worker runs: the state [st0] is the one persisted, and nothing is
    held or dirty. *)
Definition initial (st0 : ResumeState) (n fuel : nat) (stall_timeout : N) (s : system) : Prop :=
  w_rt (s_world s) = new_runtime st0 /\ w_lock (s_world s) = None /\
  (exists data, to_vec st0 = Ok data /\ w_vol (s_world s) !! components (state_file self) = Some data) /\
  s_threads s = workers_of n fuel stall_timeout.

(** ** What must survive a crash *)

Definition tmp_file : string := with_extension (state_file self) "tmp".

(** The chunk's bytes, at their place in a file. *)
Definition holds (m : gmap key bytes) (e c : N) : Prop :=
  exists entry path s f,
    resume_entries self !! e = Some entry /\ kind entry = RegularFile /\
    stage_path (resume_stage_root self) (rel_path entry) = Ok path /\
    size entry = Some s /\ m !! components path = Some f /\
    forall k, (k < chunk_len s c)%N ->
      exists payload b, genuine e c payload /\ payload !! N.to_nat k = Some b /\
        f !! N.to_nat (c * CHUNK_SIZE + k) = Some b.

Definition marked (st : ResumeState) (e c : N) : Prop :=
  exists f, find_file e (files st) = Some f /\ completed f !! N.to_nat c = Some true.

(** Staged files are distinct, and none is a file of the state. *)
Record staged_apart : Prop := {
  apart_entries e1 e2 entry1 entry2 p1 p2 :
    resume_entries self !! e1 = Some entry1 -> resume_entries self !! e2 = Some entry2 ->
    kind entry1 = RegularFile -> kind entry2 = RegularFile ->
    stage_path (resume_stage_root self) (rel_path entry1) = Ok p1 ->
    stage_path (resume_stage_root self) (rel_path entry2) = Ok p2 ->
    components p1 = components p2 -> e1 = e2;
  apart_state e entry p :
    resume_entries self !! e = Some entry -> kind entry = RegularFile ->
    stage_path (resume_stage_root self) (rel_path entry) = Ok p ->
    components p <> components (state_file self) /\ components p <> components tmp_file;
  apart_tmp : components tmp_file <> components (state_file self);
}.

(** What the state found after a crash promises: each chunk it marks was marked
    from the start, or its bytes are on the disk, before and after the crash. *)
Definition safe (w : world) (e c : N) : Prop := holds (w_vol w) e c /\ holds (w_dur w) e c.

Definition promises (st0 : ResumeState) (w : world) (st : ResumeState) : Prop :=
  forall e c, marked st e c -> marked st0 e c \/ safe w e c.

Definition crash_consistent (st0 : ResumeState) (w : world) : Prop :=
  forall data st, w_vol w !! components (state_file self) = Some data ->
    from_slice data = Ok st -> promises st0 w st.
End System.
