(* ===== verification/ResumeSafety.v ===== *)
(** * Crash safety of the resume state

    Each worker follows a discipline ([wt]): what it may do next to the disk and
    to the shared runtime, given what it has done.  The discipline is checked
    once on the program of a worker, whatever it is answered; the invariant of
    the whole system follows step by step. *)

From stdpp Require Import list gmap.
From S2P Require Import Prelude Streams Json Wire Proto Text Paths Transfer.
From S2P Require Import TransferTheorems Fs Disk Tracker Frames Resume Workers ResumeSystem.

(** What a worker has done last: nothing that matters; stored a chunk; taken the
    persist lock; taken a snapshot of which some paths are left to sync; written
    the snapshot beside the state file. *)
Inductive phase : Type :=
| Quiet
| Wrote (e c : N)
| Holding
| Syncing (st : ResumeState) (rem : list key)
| Saving (st : ResumeState).

Definition locked (ph : phase) : bool :=
  match ph with Quiet | Wrote _ _ => false | _ => true end.

(** Every path of the snapshot has been synced. *)
Definition synced (ph : phase) : Prop :=
  match ph with Holding | Syncing _ [] | Saving _ => True | _ => False end.

Section Discipline.
Context `{Json Frame} `{Json ResumeState} `{Blake3} `{Hex} `{FrameText}.
Context (self : ResumeShared) (genuine : N -> N -> bytes -> Prop).

(** The chunk a write stores. *)
Definition stores (hs : open_files) (h : handle) (d : bytes) (e c : N) : Prop :=
  exists q entry p s,
    hs !! h = Some (q, c * CHUNK_SIZE)%N /\
    resume_entries self !! e = Some entry /\ kind entry = RegularFile /\
    stage_path (resume_stage_root self) (rel_path entry) = Ok p /\ components p = q /\
    size entry = Some s /\ nlen d = chunk_len s c /\ genuine e c d.

Definition staged_at (e : N) (p : string) : Prop :=
  exists entry, resume_entries self !! e = Some entry /\ kind entry = RegularFile /\
    stage_path (resume_stage_root self) (rel_path entry) = Ok p.

Definition fs_allowed (ph : phase) (hs : open_files) (f : fs_op) : Prop :=
  match f with
  | FsOpen _ _ | FsSeek _ _ | FsTryExists _ => True
  | FsWriteAll h d => ph = Quiet /\ exists e c, stores hs h d e c
  | FsSyncData _ => exists st rem, ph = Syncing st rem
  | FsWrite p d => p = tmp_file self /\ exists st, ph = Syncing st [] /\ to_vec st = Ok d
  | FsRemoveFile p => p = state_file self /\ exists st, ph = Saving st
  | FsRename a b => a = tmp_file self /\ b = state_file self /\ exists st, ph = Saving st
  | _ => False
  end.

Definition allowed (ph : phase) (hs : open_files) (o : worker_op) : Prop :=
  match o with
  | inr (inr (inl f)) => fs_allowed ph hs f
  | inr (inr (inr (inl r))) =>
      match r with
      | IsChunkComplete _ _ => True
      | Mark e c p => ph = Wrote e c /\ staged_at e p
      | TakeSnapshot => ph = Holding
      | PersistLock => ph = Quiet
      | PersistUnlock => synced ph
      | _ => False
      end
  | _ => True
  end.

(** What the worker knows after an answer. *)
Definition fs_after (ph : phase) (hs : open_files) (f : fs_op) :
  result io_error (fs_ans f) -> phase -> open_files -> Prop :=
  match f return result io_error (fs_ans f) -> phase -> open_files -> Prop with
  | FsOpen opts p => fun r ph' hs' => ph' = ph /\
      ((exists h, r = Ok h /\ hs !! h = None /\ hs' = <[h := (components p, 0%N)]> hs) \/
       (exists e, r = Err e /\ syncs (FsOpen opts p) = false /\ hs' = hs))
  | FsSeek h off => fun r ph' hs' => ph' = ph /\
      ((exists q off', r = Ok tt /\ hs !! h = Some (q, off') /\ hs' = <[h := (q, off)]> hs) \/
       (exists e, r = Err e /\ hs' = hs))
  | FsWriteAll h d => fun r ph' hs' =>
      (exists e c q off, r = Ok tt /\ stores hs h d e c /\ ph' = Wrote e c /\
         hs !! h = Some (q, off) /\ hs' = <[h := (q, off + nlen d)%N]> hs) \/
      (exists e, r = Err e /\ ph' = ph /\ hs' = hs)
  | FsSyncData h => fun r ph' hs' => hs' = hs /\ exists q off st rem,
      r = Ok tt /\ hs !! h = Some (q, off) /\ ph = Syncing st rem /\
      ph' = Syncing st (filter (fun k => k <> q) rem)
  | FsWrite _ _ => fun r ph' hs' => hs' = hs /\ exists st, ph = Syncing st [] /\
      ((r = Ok tt /\ ph' = Saving st) \/ (exists e, r = Err e /\ ph' = ph))
  | FsRename _ _ => fun r ph' hs' => hs' = hs /\
      ((r = Ok tt /\ ph' = Holding) \/ (exists e, r = Err e /\ ph' = ph))
  | _ => fun r ph' hs' => r <> Panicked /\ ph' = ph /\ hs' = hs
  end.

Definition after (ph : phase) (hs : open_files) (o : worker_op) :
  resp (s := stream_sig ⊕ worker_sig) o -> phase -> open_files -> Prop :=
  match o return resp (s := stream_sig ⊕ worker_sig) o -> phase -> open_files -> Prop with
  | inl s => fun r ph' hs' => honest genuine s r /\ ph' = ph /\ hs' = hs
  | inr (inl _) => fun _ ph' hs' => ph' = ph /\ hs' = hs
  | inr (inr (inl f)) => fun r ph' hs' => fs_after ph hs f r ph' hs'
  | inr (inr (inr (inl o))) =>
      match o return resume_ans o -> phase -> open_files -> Prop with
      | IsChunkComplete _ _ => fun _ ph' hs' => ph' = ph /\ hs' = hs
      | TakeSnapshot => fun r ph' hs' => hs' = hs /\
          match r with
          | None => ph' = ph
          | Some (st, ps) => ph' = Syncing st (components <$> ps)
          end
      | PersistLock => fun _ ph' hs' => ph' = Holding /\ hs' = hs
      | _ => fun _ ph' hs' => ph' = Quiet /\ hs' = hs
      end
  | inr (inr (inr (inr _))) => fun _ ph' hs' => ph' = ph /\ hs' = hs
  end.

Fixpoint wt {A} (ph : phase) (hs : open_files) (p : worker_prog A)
  (Q : A -> phase -> open_files -> Prop) : Prop :=
  match p with
  | Ret a => Q a ph hs
  | Op o k => allowed ph hs o /\
      forall r ph' hs', after ph hs o r ph' hs' -> wt ph' hs' (k r) Q
  end.

(** ** Rules *)

Lemma wt_mono {A} ph hs (p : worker_prog A) (Q R : A -> phase -> open_files -> Prop) :
  wt ph hs p Q -> (forall a ph' hs', Q a ph' hs' -> R a ph' hs') -> wt ph hs p R.
Proof.
  revert ph hs; induction p as [a|o k IH]; intros ph hs; simpl; [auto|].
  intros [Ho Hk] HQR. split; [done|]. eauto.
Qed.

Lemma wt_bind {A B} ph hs (p : worker_prog A) (f : A -> worker_prog B) Q :
  wt ph hs p (fun a ph' hs' => wt ph' hs' (f a) Q) -> wt ph hs (pbind p f) Q.
Proof.
  revert ph hs; induction p as [a|o k IH]; intros ph hs; simpl; [done|].
  intros [Ho Hk]. split; [done|]. eauto.
Qed.

Lemma wt_try {A B} ph hs (p : worker_prog (ares A)) (f : A -> worker_prog (ares B))
  (Q : ares B -> phase -> open_files -> Prop) :
  wt ph hs p (fun r ph' hs' =>
    match r with
    | Ok a => wt ph' hs' (f a) Q
    | Err e => Q (Err e) ph' hs'
    | Panicked => Q Panicked ph' hs'
    end) ->
  wt ph hs (ptry p f) Q.
Proof. intros Hp. apply wt_bind. eapply wt_mono; [exact Hp|]. by intros [] ph' hs'. Qed.

(** Operations that only concern the peer, the clock and the progress. *)
Definition quiet_op (o : worker_op) : Prop :=
  match o with inl _ | inr (inl _) | inr (inr (inr (inr _))) => True | _ => False end.

Lemma quiet_op_after ph hs o r ph' hs' :
  quiet_op o -> after ph hs o r ph' hs' -> ph' = ph /\ hs' = hs.
Proof. destruct o as [s|[t|[f|[q|p]]]]; simpl; naive_solver. Qed.

Lemma wt_quiet {A} ph hs (p : worker_prog A) :
  every quiet_op p -> wt ph hs p (fun _ ph' hs' => ph' = ph /\ hs' = hs).
Proof.
  induction p as [a|o k IH]; simpl; [done|]. intros [Ho Hk]. split.
  - by destruct o as [s|[t|[f|[q|p]]]].
  - intros r ph' hs' Ha. destruct (quiet_op_after _ _ _ _ _ _ Ho Ha) as [-> ->]. auto.
Qed.

Lemma wt_timeout {A} ph hs secs (p : worker_prog A) Q :
  every quiet_op p -> wt ph hs p Q ->
  wt ph hs (timeout secs p) (fun r ph' hs' => ph' = ph /\ hs' = hs /\
    match r with InTime a => Q a ph hs | Elapsed => True end).
Proof.
  induction p as [a|o k IH]; simpl; [done|]. intros [Ho Hk] [Ha Hp]. split; [done|].
  intros late ph' hs' [-> ->]. destruct late; simpl; [done|]. split; [done|].
  intros r ph' hs' Hr. destruct (quiet_op_after _ _ _ _ _ _ Ho Hr) as [-> ->]. eauto.
Qed.

Lemma wt_stall {A} ph hs secs (p : worker_prog (ares A)) (Q : ares A -> Prop) :
  every quiet_op p -> wt ph hs p (fun r ph' hs' => Q r) -> Q (stalled secs) ->
  wt ph hs (with_stall secs p) (fun r ph' hs' => ph' = ph /\ hs' = hs /\ Q r).
Proof.
  intros Hq Hp Hs. unfold with_stall. destruct (secs =? 0)%N.
  - clear Hs. revert Hp. induction p as [a|o k IH]; simpl; [done|].
    intros [Ha Hp]. destruct Hq as [Ho Hk]. split; [done|].
    intros r ph' hs' Hr. pose proof (Hp _ _ _ Hr) as Hp'.
    destruct (quiet_op_after _ _ _ _ _ _ Ho Hr) as [-> ->]. auto.
  - apply wt_bind. eapply wt_mono; [apply (wt_timeout _ _ _ _ _ Hq Hp)|].
    intros [a|] ph' hs' (->&->&Ha); simpl; auto.
Qed.
End Discipline.

(** ** The program of a worker keeps the discipline *)

Section Workers.
Context `{Json Frame} `{Json ResumeState} `{Blake3} `{Hex} `{FrameText}.
Context (self : ResumeShared) (genuine : N -> N -> bytes -> Prop).
Context (Hapart : staged_apart self).

Abbreviation wt := (wt self genuine).

Lemma quiet_stream {A} (p : worker_prog A) : stream_only p -> every quiet_op p.
Proof. apply every_mono. by intros [s|o]. Qed.

(** The digests in the headers a worker reads are those of genuine contents. *)
Definition frame_honest (r : ares (option Frame)) : Prop :=
  forall e c off len h payload,
    r = Ok (Some (ChunkStart e c off len h)) -> blake3_hash_hex payload = h -> genuine e c payload.

Lemma wt_recv_frame ph hs : wt ph hs recv_frame (fun r _ _ => frame_honest r).
Proof.
  unfold recv_frame. simpl. split; [done|]. intros [b|e|] ph' hs' (_&->&->).
  - destruct (FRAME_LIMIT <? from_le_bytes b)%N; [by intros ?|].
    split; [done|]. intros [buf|e|] ph' hs' (Hh&->&->); [|by intros ?|by intros ?].
    simpl in *. destruct (from_slice buf) as [f|e|] eqn:E; [|by intros ?|by intros ?].
    simpl. intros e c off len h payload [= ->] Hp. by eapply (proj2 Hh).
  - by case_decide; intros ?.
  - by intros ?.
Qed.

(** Files stay open on the same path. *)
Definition keeps (hs hs' : open_files) : Prop :=
  forall h q off, hs !! h = Some (q, off) -> exists off', hs' !! h = Some (q, off').

#[export] Instance keeps_preorder : PreOrder keeps.
Proof.
  split; [intros hs h q off ?; eauto|]. intros a b c Hab Hbc h q off Hh.
  destruct (Hab _ _ _ Hh) as [o Ho]. by eapply Hbc.
Qed.

Lemma keeps_fresh hs h q off : hs !! h = None -> keeps hs (<[h := (q, off)]> hs).
Proof.
  intros Hn h' q' off' Hh. exists off'. rewrite lookup_insert_ne; [done|]. naive_solver.
Qed.

Lemma keeps_move hs h q off off' : hs !! h = Some (q, off) -> keeps hs (<[h := (q, off')]> hs).
Proof.
  intros Hn h' q' o Hh. destruct (decide (h = h')) as [->|Hne].
  - rewrite Hn in Hh. injection Hh as <- <-. exists off'. by rewrite lookup_insert_eq.
  - exists o. by rewrite lookup_insert_ne.
Qed.

(** The handles of the cache are open on the staged files of their entries. *)
Definition cache_ok (cache : gmap N handle) (hs : open_files) : Prop :=
  forall e h, cache !! e = Some h ->
    exists p off, staged_at self e p /\ hs !! h = Some (components p, off).

Lemma cache_keeps cache hs hs' : cache_ok cache hs -> keeps hs hs' -> cache_ok cache hs'.
Proof.
  intros Hc Hk e h Hh. destruct (Hc e h Hh) as (p&off&Hp&Ho).
  destruct (Hk _ _ _ Ho) as [off' Ho']. eauto.
Qed.

Lemma wt_sync_paths st ps rem hs :
  wt (Syncing st rem) hs (sync_paths ps) (fun r ph' hs' => r = Ok tt /\ keeps hs hs' /\
    exists rem', ph' = Syncing st rem' /\ forall k, k ∈ rem' -> k ∈ rem /\ k ∉ components <$> ps).
Proof.
  revert rem hs; induction ps as [|p ps IH]; intros rem hs; simpl.
  - split_and!; [done..|]. exists rem. split; [done|]. intros k Hk. split; [done|]. apply not_elem_of_nil.
  - split; [done|]. intros r ph' hs' (->&[(h&->&Hn&->)|(e&->&[=]&_)]). simpl.
    split; [eauto|]. intros r ph' hs' (->&q&off&st'&rem'&->&Hh&[= <- <-]&->). simpl.
    rewrite lookup_insert_eq in Hh. injection Hh as <- <-.
    eapply wt_mono; [apply IH|]. intros r ph' hs' (->&Hk&rem'&->&Hr).
    split_and!; [done| |exists rem'; split; [done|]].
    + etrans; [|exact Hk]. by apply keeps_fresh.
    + intros k Hin. destruct (Hr k Hin) as [Hf Hnot].
      apply list_elem_of_filter in Hf as [Hne Hk'].
      split; [done|]. by apply not_elem_of_cons.
Qed.

Lemma wt_persist st hs :
  wt (Syncing st []) hs (persist_resume_state (state_file self) st)
    (fun r ph' hs' => synced ph' /\ hs' = hs).
Proof.
  unfold persist_resume_state, write_json_atomic.
  destruct (to_vec st) as [data|e|] eqn:E; simpl; [|done..].
  split; [unfold tmp_file; eauto|]. intros r ph' hs' (->&st'&[= <-]&[[-> ->]|(e&->&->)]); simpl; [|done].
  split; [done|]. intros r ph' hs' (Hp&->&->). destruct r as [there|e|]; simpl; [|done..].
  assert (Hrename : wt (Saving st) hs
    (fs_q (FsRename (with_extension (state_file self) "tmp") (state_file self)))
    (fun _ ph' hs' => synced ph' /\ hs' = hs)).
  { simpl. split; [unfold tmp_file; eauto|]. by intros r ph' hs' (->&[[-> ->]|(e&->&->)]). }
  destruct there; simpl.
  - split; [eauto|]. intros r' ph' hs' (_&->&->). exact Hrename.
  - exact Hrename.
Qed.

Lemma wt_flush hs :
  wt Quiet hs (flush_pending self) (fun _ ph' hs' => ph' = Quiet /\ keeps hs hs').
Proof.
  unfold flush_pending, with_persist_lock. simpl. split; [done|]. intros _ ph hs' [-> ->].
  split; [done|]. intros r ph hs' [-> Hr]. apply wt_bind.
  apply (wt_mono _ _ _ _ _ (fun _ ph' hs' => synced ph' /\ keeps hs hs')).
  - destruct r as [[st ps]|]; simpl; subst ph; [|done].
    apply wt_try. unfold sync_staged_files. eapply wt_mono; [apply wt_sync_paths|].
    intros r ph hs' (->&Hk&rem&->&Hr). simpl.
    assert (rem = []) as ->.
    { destruct rem as [|k rem]; [done|]. destruct (Hr k) as [? []]; [by left|]. done. }
    eapply wt_mono; [apply wt_persist|]. by intros r ph hs'' [? ->].
  - intros a ph' hs' [Hs Hk]. simpl. split; [done|]. by intros _ ph'' hs'' [-> ->].
Qed.

#[local] Opaque flush_pending.

(** Ends where the next chunk can be received. *)
Definition ready (r : ares (gmap N handle)) (ph : phase) (hs : open_files) : Prop :=
  ph = Quiet /\ forall cache, r = Ok cache -> cache_ok cache hs.

(** A full buffer has the length asked for. *)
Lemma wt_read_exact len secs ph hs :
  wt ph hs (read_exact_idle len secs)
    (fun r ph' hs' => ph' = ph /\ hs' = hs /\ forall payload, r = Ok payload -> nlen payload = len).
Proof.
  unfold read_exact_idle. destruct (secs =? 0)%N.
  { simpl. split; [done|]. intros r ph' hs' ([Hl _]&->&->). simpl. split_and!; [done..|].
    intros payload Hp. destruct r; simpl in Hp; [|done..]. injection Hp as <-. by apply Hl. }
  assert (Hgen : forall fuel acc, (nlen acc <= len)%N -> (len <= nlen acc + N.of_nat fuel)%N ->
    wt ph hs (read_exact_from fuel len acc secs)
      (fun r ph' hs' => ph' = ph /\ hs' = hs /\ forall payload, r = Ok payload -> nlen payload = len)).
  { induction fuel as [|fuel IH]; intros acc Ha Hf; cbn [read_exact_from];
      destruct (N.ltb_spec (nlen acc) len) as [Hlt|Hge]; try lia;
      try (simpl; split_and!; [done..|]; intros payload [= <-]; lia).
    simpl. split; [done|]. intros r ph' hs' (Hr&->&->).
    destruct r as [[bs|e|]|]; simpl; try (by split_and!).
    destruct (N.eqb_spec (nlen bs) 0); simpl; [by split_and!|].
    specialize (Hr bs eq_refl). apply IH; rewrite nlen_app; lia. }
  apply Hgen; rewrite ?nlen_nil; lia.
Qed.

Ltac ends_ready := split; [done|]; intros ? [=]; subst; assumption.

Lemma wt_mark e c p hs cache :
  staged_at self e p -> cache_ok cache hs ->
  wt (Wrote e c) hs (let? _ := mark_chunk_complete self e c p in Ret (Ok cache)) ready.
Proof.
  intros Hp Hc. apply wt_try. unfold mark_chunk_complete. apply wt_try. simpl.
  split; [done|]. intros r ph hs' [-> ->]. destruct r as [[]|e'|]; simpl; [|ends_ready..].
  eapply wt_mono; [apply wt_flush|]. intros r ph hs' [-> Hk].
  destruct r as [[]|e'|]; simpl; split; try done.
  intros cache' [= <-]. by eapply cache_keeps.
Qed.

Lemma wt_cached e cache hs opts p msg (k : handle * gmap N handle -> worker_prog (ares (gmap N handle))) :
  staged_at self e p -> cache_ok cache hs ->
  (forall h off hs' cache', hs' !! h = Some (components p, off) -> cache_ok cache' hs' ->
     wt Quiet hs' (k (h, cache')) ready) ->
  syncs (FsOpen opts p) = false ->
  (forall p', staged_at self e p' -> p' = p) ->
  wt Quiet hs (ptry (cached cache e (fs_ctx msg (FsOpen opts p))) k) ready.
Proof.
  intros Hp Hc Hk _ Hu. apply wt_try. unfold cached. destruct (cache !! e) as [h|] eqn:E.
  - destruct (Hc e h E) as (p'&off&Hp'&Hh). simpl. rewrite (Hu p' Hp') in Hh. by eapply Hk.
  - simpl. split; [done|]. intros r ph hs' (->&[(h&->&Hn&->)|(e'&->&_&->)]); simpl; [|ends_ready].
    eapply Hk; [by rewrite lookup_insert_eq|]. intros e' h' Hh'.
    destruct (decide (e = e')) as [<-|Hne].
    + rewrite lookup_insert_eq in Hh'. injection Hh' as <-. exists p, 0%N. by rewrite lookup_insert_eq.
    + rewrite lookup_insert_ne in Hh' by done. eapply cache_keeps; [exact Hc| |exact Hh'].
      by apply keeps_fresh.
Qed.

Lemma staged_unique e p p' : staged_at self e p -> staged_at self e p' -> p = p'.
Proof. intros (en&E1&_&E2) (en'&E1'&_&E2'). rewrite E1 in E1'. injection E1' as <-. congruence. Qed.

Lemma wt_store e c entry s off payload cache hs :
  resume_entries self !! e = Some entry -> kind entry = RegularFile ->
  size entry = Some s -> off = (c * CHUNK_SIZE)%N -> nlen payload = chunk_len s c ->
  genuine e c payload -> cache_ok cache hs ->
  wt Quiet hs (store_chunk self entry e c off payload cache) ready.
Proof.
  intros He Hr Hs -> Hl Hg Hc. unfold store_chunk. apply wt_try. simpl. split; [done|].
  intros r ph hs' [-> ->]. destruct r as [[]|e'|]; simpl; [ends_ready| |ends_ready..].
  destruct (stage_path (resume_stage_root self) (rel_path entry)) as [p|e'|] eqn:Ep; simpl; [|ends_ready..].
  assert (Hp : staged_at self e p) by (exists entry; eauto).
  apply (wt_cached e cache hs _ p); [done|done| |done|by intros; eapply staged_unique].
  intros h o hs' cache' Hh Hc'. simpl. split; [done|].
  intros r ph hs2 (->&[(q&o'&->&Hq&->)|(e'&->&->)]); simpl; [|ends_ready].
  rewrite Hh in Hq. injection Hq as <- <-.
  assert (Hst : stores self genuine (<[h:=(components p, (c * CHUNK_SIZE)%N)]> hs') h payload e c).
  { exists (components p), entry, p, s. by rewrite lookup_insert_eq. }
  split; [eauto|].
  intros r ph hs2 [(e2&c2&q&o2&->&Hst2&->&Hq&->)|(e'&->&->&->)]; simpl; [|ends_ready].
  assert (e2 = e /\ c2 = c) as [-> ->].
  { destruct Hst2 as (q2&en2&p2&s2&Hh2&He2&Hr2&Hp2&Hq2&_).
    rewrite lookup_insert_eq in Hh2. injection Hh2 as E1 E2.
    split; [|unfold CHUNK_SIZE in E2; lia].
    eapply (apart_entries self Hapart); [exact He2|exact He|done|done|exact Hp2|exact Ep|congruence]. }
  rewrite lookup_insert_eq in Hq. injection Hq as <- <-.
  rewrite insert_insert_eq. apply wt_mark; [done|].
  eapply cache_keeps; [exact Hc'|]. by eapply keeps_move.
Qed.

Lemma accepted_geometry entry c off len :
  validate_chunk_geometry entry c off len = Ok tt ->
  exists s, size entry = Some s /\ off = (c * CHUNK_SIZE)%N /\ len = chunk_len s c /\
    (c < chunk_count entry)%N.
Proof.
  unfold validate_chunk_geometry, anyhow_context. destruct (size entry) as [s|]; simpl; [|done].
  destruct (N.leb_spec (chunk_count entry) c); [done|].
  destruct (N.eqb_spec off (c * CHUNK_SIZE)), (N.eqb_spec len (chunk_len s c)); simpl; try done.
  eauto.
Qed.

#[local] Opaque validate_chunk_geometry read_exact_idle store_chunk.

Lemma wt_receive_chunk stall e c off len h cache hs :
  (forall payload, blake3_hash_hex payload = h -> genuine e c payload) -> cache_ok cache hs ->
  wt Quiet hs (receive_chunk self stall e c off len h cache) ready.
Proof.
  intros Hg Hc. unfold receive_chunk. apply wt_try. cbn [wt].
  destruct (resume_entries self !! e) as [entry|] eqn:He; cbn [anyhow_context ok_or]; [|ends_ready].
  destruct (is_regular_file (kind entry)) eqn:Hr; cbn [negb]; [|ends_ready].
  assert (Hreg : kind entry = RegularFile) by (by destruct (kind entry)). clear Hr.
  apply wt_try. cbn [wt].
  destruct (validate_chunk_geometry entry c off len) as [[]|e'|] eqn:Ev; [|ends_ready..].
  destruct (accepted_geometry _ _ _ _ Ev) as (s&Hs&->&->&_).
  apply wt_try. eapply wt_mono; [apply wt_read_exact|]. intros r ph hs' (->&->&Hlen).
  destruct r as [payload|e'|]; simpl; [|ends_ready..].
  destruct (String.eqb_spec (blake3_hash_hex payload) h) as [Eh|]; simpl; [|ends_ready].
  apply wt_try. eapply wt_mono; [eapply wt_store; eauto|]. intros r ph hs' [-> Hc'].
  destruct r as [cache'|e'|]; [|ends_ready..].
  destruct (c =? 0)%N, (String.eqb (rel_path entry) ""); simpl in *; repeat (split; [done|]; intros [] ? ? [-> ->]);
    (split; [done|]; intros cache2 [= <-]; by apply Hc').
Qed.

#[local] Opaque receive_chunk recv_frame with_stall send_frame.

Lemma wt_worker_loop fuel stall cache hs :
  cache_ok cache hs ->
  wt Quiet hs (worker_loop fuel self stall cache) (fun _ ph _ => ph = Quiet).
Proof.
  revert cache hs; induction fuel as [|fuel IH]; intros cache hs Hc; [done|].
  cbn [worker_loop]. apply wt_try. eapply wt_mono.
  { apply (wt_stall self genuine _ _ _ _ frame_honest); [apply quiet_stream; auto with rb| |by intros ?].
    apply wt_recv_frame. }
  intros r ph hs' (->&->&Hh). destruct r as [[f|]|e|]; [|done..].
  destruct f as [| | | | | | |e c off len h| | | | | |]; try done.
  - apply wt_try. eapply wt_mono; [apply wt_flush|]. intros r ph hs' [-> Hk].
    destruct r as [[]|e|]; [|done..].
    eapply wt_mono; [apply wt_quiet, quiet_stream; auto with rb|]. by intros r ph hs2 [-> _].
  - apply wt_try. eapply wt_mono; [apply wt_receive_chunk; [|done]|].
    { intros payload. by eapply Hh. }
    intros r ph hs' [-> Hc']. destruct r as [cache'|e'|]; [|done..]. by apply IH, Hc'.
Qed.

Lemma wt_worker_end r hs :
  wt Quiet hs (worker_end self r) (fun _ ph _ => ph = Quiet).
Proof.
  assert (Hend : forall err : option anyhow,
    wt Quiet hs (let! flush_result := flush_pending self in
      let! _ := match err with
                | Some err => let! _ := send_frame (ErrorFrame (any_display err)) in Ret tt
                | None => Ret tt
                end in
      let! _ := track WorkerFinished in
      Ret (rbind flush_result (fun _ => r))) (fun _ ph _ => ph = Quiet)).
  { intros err. apply wt_bind. eapply wt_mono; [apply wt_flush|]. intros fl ph hs' [-> _].
    assert (Hq : every quiet_op (match err with
                | Some err => let! _ := send_frame (ErrorFrame (any_display err)) in Ret tt
                | None => Ret tt
                end : worker_prog unit)).
    { destruct err; [|done]. apply every_bind; [apply quiet_stream; auto with rb|done]. }
    apply wt_bind. eapply wt_mono; [by apply wt_quiet|]. intros [] ph hs2 [-> ->].
    simpl. split; [done|]. by intros _ ph hs3 [-> _]. }
  destruct r as [[]|e|]; [apply (Hend None)|apply (Hend (Some e))|done].
Qed.

Lemma wt_handle_worker fuel stall :
  wt Quiet ∅ (handle_worker_connection fuel self stall) (fun _ ph _ => ph = Quiet).
Proof.
  unfold handle_worker_connection. apply wt_try. eapply wt_mono.
  { apply (wt_stall self genuine _ _ _ _ (fun _ => True)); [apply quiet_stream; auto with rb| |done].
    eapply wt_mono; [apply wt_quiet, quiet_stream; auto with rb|done]. }
  intros r ph hs (->&->&_). destruct r as [f|e|]; [|done..]. destruct f; try done.
  destruct (negb (String.eqb transfer_id (resume_transfer_id self))); [done|].
  apply wt_bind. eapply wt_mono; [by apply wt_quiet|]. intros [] ph hs [-> ->].
  apply wt_bind. eapply wt_mono; [apply wt_worker_loop; by intros ? ?|].
  intros r ph hs ->. apply wt_worker_end.
Qed.
End Workers.

(** ** What stored chunks survive *)

Section Holds.
Context `{Json Frame} `{Json ResumeState} `{Blake3} `{Hex} `{FrameText}.
Context (self : ResumeShared) (genuine : N -> N -> bytes -> Prop).
Context (Hapart : staged_apart self).

Abbreviation holds := (holds self genuine).

(** A chunk is held by the file staged for its entry. *)
Lemma holds_file m e c :
  holds m e c <-> exists p f, staged_at self e p /\ m !! components p = Some f /\
    holds {[components p := f]} e c.
Proof.
  split.
  - intros (en&p&s&f&He&Hr&Hp&Hs&Hf&Hk). exists p, f. split_and!; [by exists en|done|].
    exists en, p, s, f. by rewrite lookup_singleton_eq.
  - intros (p&f&(en&He&Hr&Hp)&Hf&(en'&p'&s&f'&He'&_&Hp'&Hs&Hf'&Hk)).
    rewrite He in He'. injection He' as <-. rewrite Hp in Hp'. injection Hp' as <-.
    rewrite lookup_singleton_eq in Hf'. injection Hf' as <-. by exists en, p, s, f.
Qed.

Lemma holds_same m m' e c :
  (forall p, staged_at self e p -> m' !! components p = m !! components p) ->
  holds m e c -> holds m' e c.
Proof.
  intros Hm (p&f&Hp&Hf&Hh)%holds_file. apply holds_file. exists p, f. by rewrite Hm.
Qed.

(** The chunk is in the place of the file [q]. *)
Lemma holds_sync m d e c q f :
  m !! q = Some f -> holds m e c -> holds d e c \/ (exists p, staged_at self e p /\ components p = q) ->
  holds (<[q := f]> d) e c.
Proof.
  intros Hq (p&f'&Hp&Hf&Hh)%holds_file Hd.
  destruct (decide (components p = q)) as [<-|Hne].
  - rewrite Hf in Hq. injection Hq as ->. apply holds_file. exists p, f. by rewrite lookup_insert_eq.
  - assert (Hu : forall p', staged_at self e p' -> p' = p) by (intros; by eapply staged_unique).
    destruct Hd as [Hd|(p'&Hp'&<-)]; [|by rewrite (Hu p') in Hne].
    eapply holds_same; [|exact Hd]. intros p' Hp'. rewrite (Hu p' Hp'). by rewrite lookup_insert_ne.
Qed.

(** Storing a chunk, or a part of it, keeps what other chunks hold. *)
Lemma holds_splice m hs h d q off f n e c e' c' :
  stores self genuine hs h d e' c' -> hs !! h = Some (q, off) -> m !! q = Some f ->
  holds m e c -> holds (<[q := splice (N.to_nat off) (take n d) f]> m) e c.
Proof.
  intros (q'&en'&p'&s'&Hh&He'&Hr'&Hp'&Hq'&Hs'&Hl&Hg) Hq Hf Hold.
  rewrite Hh in Hq. injection Hq as -> <-.
  destruct Hold as (en&p&s&f2&He&Hr&Hp&Hs&Hf2&Hk).
  exists en, p, s. destruct (decide (components p = q)) as [Ec|Hne].
  - rewrite Ec in Hf2. rewrite Hf in Hf2. injection Hf2 as <-.
    rewrite <- Hq' in Ec. assert (e = e') as <- by (eapply (apart_entries self Hapart); eauto).
    rewrite He in He'. injection He' as <-. rewrite Hs in Hs'. injection Hs' as <-.
    eexists. split_and!; [done..| |].
    { rewrite Ec, Hq'. apply lookup_insert_eq. }
    intros k Hlt. destruct (Hk k Hlt) as (pl&b&Hpl&Hb&Hfb).
    pose proof (chunk_len_bound s c) as Hb1. unfold nlen in Hl.
    assert (Hlen : length (take n d) <= N.to_nat (chunk_len s c')) by (rewrite length_take; lia).
    destruct (decide (c = c')) as [<-|Hc].
    + destruct (decide (N.to_nat k < length (take n d))) as [Hin|Hout].
      * assert (is_Some (d !! N.to_nat k)) as [b' Hb'].
        { apply lookup_lt_is_Some. rewrite length_take in Hin. lia. }
        exists d, b'. split_and!; [done..|]. rewrite splice_lookup_in by lia.
        replace (N.to_nat (c * CHUNK_SIZE + k) - N.to_nat (c * CHUNK_SIZE)) with (N.to_nat k) by lia.
        rewrite length_take in Hin. rewrite lookup_take, decide_True; [done|lia].
      * exists pl, b. split_and!; [done..|]. apply splice_lookup_out; [|done]. right. lia.
    + exists pl, b. split_and!; [done..|]. apply splice_lookup_out; [|done].
      pose proof (chunk_len_bound s c'). unfold CHUNK_SIZE in *.
      destruct (decide (c < c')%N); [left|right]; nia.
  - exists f2. split_and!; [done..| |done]. by rewrite lookup_insert_ne.
Qed.

(** A chunk that was stored whole is held. *)
Lemma holds_stored m hs h d q off f e c :
  stores self genuine hs h d e c -> hs !! h = Some (q, off) -> m !! q = Some f ->
  holds (<[q := splice (N.to_nat off) d f]> m) e c.
Proof.
  intros (q'&en&p&s&Hh&He&Hr&Hp&Hq'&Hs&Hl&Hg) Hq Hf.
  rewrite Hh in Hq. injection Hq as -> <-.
  eexists en, p, s, _. split_and!; [done..| |].
  { rewrite Hq'. apply lookup_insert_eq. }
  intros k Hk. unfold nlen in Hl.
  assert (is_Some (d !! N.to_nat k)) as [b Hb] by (apply lookup_lt_is_Some; lia).
  exists d, b. split_and!; [done..|]. rewrite splice_lookup_in by lia.
  replace (N.to_nat (c * CHUNK_SIZE + k) - N.to_nat (c * CHUNK_SIZE)) with (N.to_nat k) by lia. done.
Qed.
End Holds.

(** ** The invariant of the system *)

Definition rem_of (ph : phase) : list key := match ph with Syncing _ rem => rem | _ => [] end.

Section Invariant.
Context `{Json Frame} `{Json ResumeState} `{Blake3} `{Hex} `{FrameText}.
Context (self : ResumeShared) (genuine : N -> N -> bytes -> Prop).
Context (Hapart : staged_apart self) (st0 : ResumeState).

Abbreviation holds := (holds self genuine).
Abbreviation safe := (safe self genuine).
Abbreviation promises := (promises self genuine st0).

(** The file of the entry is yet to be synced. *)
Definition pending_at (w : world) (phs : list phase) (e : N) : Prop :=
  exists p, staged_at self e p /\
    (components p ∈ components <$> dirty_paths (w_rt w) \/
     exists i ph, phs !! i = Some ph /\ components p ∈ rem_of ph).

(** What a phase promises of the world. *)
Definition phase_ok (w : world) (ph : phase) : Prop :=
  match ph with
  | Wrote e c => holds (w_vol w) e c
  | Syncing st rem => forall e c, marked st e c -> marked st0 e c \/
      (holds (w_vol w) e c /\
       (holds (w_dur w) e c \/ exists p, staged_at self e p /\ components p ∈ rem))
  | Saving st => promises w st /\ exists data,
      to_vec st = Ok data /\ w_vol w !! components (tmp_file self) = Some data
  | _ => True
  end.

Record world_ok (w : world) (phs : list phase) : Prop := {
  ok_lock i ph : phs !! i = Some ph -> locked ph = true -> w_lock w = Some i;
  ok_phases i ph : phs !! i = Some ph -> phase_ok w ph;
  ok_marks e c : marked (state (w_rt w)) e c -> marked st0 e c \/
    (holds (w_vol w) e c /\ (holds (w_dur w) e c \/ pending_at w phs e));
  ok_saved data : w_vol w !! components (state_file self) = Some data ->
    exists st, to_vec st = Ok data /\ promises w st;
}.

(** [w'] keeps what [w] holds. *)
Record grows (w w' : world) : Prop := {
  grows_vol e c : holds (w_vol w) e c -> holds (w_vol w') e c;
  grows_dur e c : holds (w_vol w) e c -> holds (w_dur w) e c -> holds (w_dur w') e c;
}.

Lemma grows_refl w : grows w w.
Proof. split; auto. Qed.

Lemma promises_grows w w' st : grows w w' -> promises w st -> promises w' st.
Proof.
  intros Hg Hp e c Hm. destruct (Hp e c Hm) as [?|[Hv Hd]]; [by left|right].
  split; [by apply Hg|by apply (grows_dur _ _ Hg)].
Qed.

Lemma phase_ok_grows w w' ph :
  grows w w' -> w_vol w' !! components (tmp_file self) = w_vol w !! components (tmp_file self) ->
  phase_ok w ph -> phase_ok w' ph.
Proof.
  intros Hg Ht. destruct ph as [|e c| |st rem|st]; simpl; [done|apply Hg|done| |].
  - intros Hs e c Hm. destruct (Hs e c Hm) as [?|[Hv Hd]]; [by left|right].
    split; [by apply Hg|]. destruct Hd as [Hd|Hd]; [left; by apply (grows_dur _ _ Hg)|by right].
  - intros [Hp (data&Hd&Hv)]. split; [by eapply promises_grows|]. exists data. by rewrite Ht.
Qed.

(** Worker [i] moves from [ph] to [ph']; the others stay. *)
Lemma ok_move w w' phs i ph ph' :
  world_ok w phs -> phs !! i = Some ph -> grows w w' ->
  (* what the other workers rely on *)
  (locked ph = true \/
   w_vol w' !! components (tmp_file self) = w_vol w !! components (tmp_file self)) ->
  (w_lock w' = w_lock w \/ (w_lock w = None /\ w_lock w' = Some i) \/
   (locked ph = true /\ locked ph' = false)) ->
  (locked ph' = true -> w_lock w' = Some i) ->
  phase_ok w' ph' ->
  (* the marks *)
  (forall e c, marked (state (w_rt w')) e c ->
     marked (state (w_rt w)) e c \/ (holds (w_vol w') e c /\ pending_at w' (<[i := ph']> phs) e)) ->
  (forall e, pending_at w phs e ->
     pending_at w' (<[i := ph']> phs) e \/ forall c, holds (w_vol w') e c -> holds (w_dur w') e c) ->
  (forall data, w_vol w' !! components (state_file self) = Some data ->
     w_vol w !! components (state_file self) = Some data \/
     exists st, to_vec st = Ok data /\ promises w' st) ->
  world_ok w' (<[i := ph']> phs).
Proof.
  intros Hok Hi Hg Htmp Hlock Hmine Hph Hmarks Hpend Hsaved. split.
  - intros j phj Hj Hl. destruct (decide (i = j)) as [<-|Hne].
    + rewrite list_lookup_insert_eq in Hj by (by eapply lookup_lt_Some). injection Hj as <-. auto.
    + rewrite list_lookup_insert_ne in Hj by done. pose proof (ok_lock _ _ Hok j phj Hj Hl) as Hwj.
      destruct Hlock as [->|[[Hn _]|[Hli _]]]; [done|congruence|].
      pose proof (ok_lock _ _ Hok i ph Hi Hli). congruence.
  - intros j phj Hj. destruct (decide (i = j)) as [<-|Hne].
    + rewrite list_lookup_insert_eq in Hj by (by eapply lookup_lt_Some). by injection Hj as <-.
    + rewrite list_lookup_insert_ne in Hj by done. pose proof (ok_phases _ _ Hok j phj Hj) as Hpj.
      destruct Htmp as [Hli|Ht]; [|by eapply phase_ok_grows].
      assert (locked phj = false) as Hlj.
      { destruct (locked phj) eqn:El; [|done]. pose proof (ok_lock _ _ Hok j phj Hj El).
        pose proof (ok_lock _ _ Hok i ph Hi Hli). congruence. }
      destruct phj as [|e c| | |]; try done. by apply Hg.
  - intros e c Hm. destruct (Hmarks e c Hm) as [Hold|[? ?]]; [|by auto].
    destruct (ok_marks _ _ Hok e c Hold) as [?|[Hv Hd]]; [by left|right].
    split; [by apply Hg|]. destruct Hd as [Hd|Hp]; [left; by apply (grows_dur _ _ Hg)|].
    destruct (Hpend e Hp) as [?|Hd]; [by right|left]. by apply Hd, Hg.
  - intros data Hd. destruct (Hsaved data Hd) as [Hold|?]; [|done].
    destruct (ok_saved _ _ Hok data Hold) as (st&Hst&Hp). exists st. split; [done|].
    by eapply promises_grows.
Qed.

(** The runtime, the lock and what is to be synced do not change. *)
Lemma pending_same w w' phs i ph ph' e :
  phs !! i = Some ph -> w_rt w' = w_rt w -> (forall k, k ∈ rem_of ph -> k ∈ rem_of ph') ->
  pending_at w phs e -> pending_at w' (<[i := ph']> phs) e.
Proof.
  intros Hi Hrt Hrem (p&Hp&Hd). exists p. split; [done|]. rewrite Hrt.
  destruct Hd as [Hd|(j&phj&Hj&Hin)]; [by left|right].
  destruct (decide (i = j)) as [<-|Hne].
  - rewrite Hi in Hj. injection Hj as <-. exists i, ph'.
    rewrite list_lookup_insert_eq by (by eapply lookup_lt_Some). auto.
  - exists j, phj. by rewrite list_lookup_insert_ne.
Qed.

(** A step that only changes files other than the staged ones, or grows them. *)
Lemma ok_files w w' phs i ph ph' :
  world_ok w phs -> phs !! i = Some ph -> grows w w' ->
  w_rt w' = w_rt w -> w_lock w' = w_lock w ->
  (locked ph = true \/
   w_vol w' !! components (tmp_file self) = w_vol w !! components (tmp_file self)) ->
  (locked ph' = true -> locked ph = true) ->
  phase_ok w' ph' -> (forall k, k ∈ rem_of ph -> k ∈ rem_of ph') ->
  (forall data, w_vol w' !! components (state_file self) = Some data ->
     w_vol w !! components (state_file self) = Some data \/
     exists st, to_vec st = Ok data /\ promises w' st) ->
  world_ok w' (<[i := ph']> phs).
Proof.
  intros Hok Hi Hg Hrt Hlk Htmp Hl Hph Hrem Hsaved.
  eapply (ok_move w w' phs i ph ph'); try done.
  - by left.
  - intros Hl'. rewrite Hlk. eapply ok_lock; eauto.
  - rewrite Hrt. auto.
  - intros e Hp. left. by eapply pending_same.
Qed.

Lemma ok_same w phs i ph : world_ok w phs -> phs !! i = Some ph -> world_ok w (<[i := ph]> phs).
Proof. intros Hok Hi. by rewrite list_insert_id. Qed.

(** ** Files *)

(** A file of the state is no staged file. *)
Lemma grows_file (w : world) (f : gmap key bytes -> gmap key bytes) q :
  (forall m k, k <> q -> f m !! k = m !! k) ->
  (q = components (state_file self) \/ q = components (tmp_file self)) ->
  grows w (with_vol w (f (w_vol w))).
Proof.
  intros Hf Hq. split; simpl; [|done]. intros e c. apply holds_same.
  intros p (en&He&Hr&Hp). apply Hf. destruct (apart_state self Hapart e en p He Hr Hp).
  by destruct Hq as [->| ->].
Qed.

Lemma grows_store w hs h d e c q off f n :
  stores self genuine hs h d e c -> hs !! h = Some (q, off) -> w_vol w !! q = Some f ->
  grows w (with_vol w (<[q := splice (N.to_nat off) (take n d) f]> (w_vol w))).
Proof. intros Hst Hq Hf. split; simpl; [|done]. intros e' c'. by eapply holds_splice. Qed.

Lemma stores_apart hs h d e c q off :
  stores self genuine hs h d e c -> hs !! h = Some (q, off) ->
  q <> components (state_file self) /\ q <> components (tmp_file self).
Proof.
  intros (q'&en&p&s&Hh&He&Hr&Hp&<-&_) Hq. rewrite Hh in Hq. injection Hq as <- _.
  by eapply apart_state.
Qed.

Lemma ok_store w phs i hs h d e c q off f n ph' :
  world_ok w phs -> phs !! i = Some Quiet ->
  stores self genuine hs h d e c -> hs !! h = Some (q, off) -> w_vol w !! q = Some f ->
  let w' := with_vol w (<[q := splice (N.to_nat off) (take n d) f]> (w_vol w)) in
  phase_ok w' ph' -> locked ph' = false -> world_ok w' (<[i := ph']> phs).
Proof.
  intros Hok Hi Hst Hq Hf w' Hph Hl.
  destruct (stores_apart _ _ _ _ _ _ _ Hst Hq) as [Hns Hnt].
  apply (ok_files w w' phs i Quiet ph'); try done.
  - by eapply grows_store.
  - right. simpl. by rewrite lookup_insert_ne.
  - by rewrite Hl.
  - by intros k ?%elem_of_nil.
  - intros data. simpl. rewrite lookup_insert_ne by done. auto.
Qed.

Lemma ok_sync_file w phs i st rem q f :
  world_ok w phs -> phs !! i = Some (Syncing st rem) -> w_vol w !! q = Some f ->
  world_ok (with_dur w (<[q := f]> (w_dur w)))
    (<[i := Syncing st (filter (fun k => k <> q) rem)]> phs).
Proof.
  intros Hok Hi Hf.
  assert (Hg : grows w (with_dur w (<[q := f]> (w_dur w)))).
  { split; simpl; [done|]. intros e c Hv Hd. eapply holds_sync; eauto. }
  assert (Hdone : forall e p, staged_at self e p -> components p = q ->
    forall c, holds (w_vol w) e c -> holds (<[q := f]> (w_dur w)) e c).
  { intros e p Hp Hq c Hv. eapply holds_sync; eauto. }
  assert (Hkeep : forall k, k ∈ rem -> k <> q -> k ∈ filter (fun k => k <> q) rem)
    by (intros; by apply list_elem_of_filter).
  apply (ok_move w _ phs i (Syncing st rem)); try done.
  - by left.
  - by left.
  - intros _. by apply (ok_lock _ _ Hok i (Syncing st rem)).
  - intros e c Hm. destruct (ok_phases _ _ Hok i _ Hi e c Hm) as [?|[Hv [Hd|(p&Hp&Hin)]]]; [by left| |].
    + right. split; [done|]. left. by apply (grows_dur _ _ Hg).
    + right. split; [done|]. destruct (decide (components p = q)) as [Hq|Hne]; [left; by eapply Hdone|].
      right. exists p. split; [done|]. by apply Hkeep.
  - simpl. auto.
  - intros e (p&Hp&Hd). destruct (decide (components p = q)) as [Hq|Hne]; [right; by eapply Hdone|left].
    exists p. split; [done|]. destruct Hd as [Hd|(j&phj&Hj&Hin)]; [by left|right].
    destruct (decide (i = j)) as [<-|Hij].
    + rewrite Hi in Hj. injection Hj as <-. eexists i, _.
      split; [apply list_lookup_insert_eq; by eapply lookup_lt_Some|]. by apply Hkeep.
    + exists j, phj. by rewrite list_lookup_insert_ne.
  - simpl. auto.
Qed.

(** The state file and its replacement, under the lock. *)
Lemma ok_state_file (w : world) (phs : list phase) (i : nat) (ph ph' : phase) (f : gmap key bytes -> gmap key bytes) q :
  world_ok w phs -> phs !! i = Some ph -> locked ph = true -> rem_of ph = [] ->
  (forall m k, k <> q -> f m !! k = m !! k) ->
  (q = components (state_file self) \/ q = components (tmp_file self)) ->
  phase_ok (with_vol w (f (w_vol w))) ph' ->
  (forall data, f (w_vol w) !! components (state_file self) = Some data ->
     w_vol w !! components (state_file self) = Some data \/
     exists st, to_vec st = Ok data /\ promises w st) ->
  world_ok (with_vol w (f (w_vol w))) (<[i := ph']> phs).
Proof.
  intros Hok Hi Hl Hr Hf Hq Hph Hsaved.
  assert (Hg : grows w (with_vol w (f (w_vol w)))) by (by eapply grows_file).
  apply (ok_files w _ phs i ph ph'); try done; [by left|by rewrite Hr; intros k ?%elem_of_nil|].
  intros data Hd. destruct (Hsaved data Hd) as [?|(st&Hst&Hp)]; [by left|right].
  exists st. split; [done|]. by eapply promises_grows.
Qed.

Lemma ok_write_tmp w phs i st data ph' d :
  world_ok w phs -> phs !! i = Some (Syncing st []) ->
  (ph' = Syncing st [] \/ (ph' = Saving st /\ to_vec st = Ok data /\ d = data)) ->
  world_ok (with_vol w (<[components (tmp_file self) := d]> (w_vol w))) (<[i := ph']> phs).
Proof.
  intros Hok Hi Hph'.
  pose proof (ok_phases _ _ Hok i _ Hi) as Hs. simpl in Hs.
  pose proof (apart_tmp self Hapart) as Hne.
  assert (Hg : grows w (with_vol w (<[components (tmp_file self) := d]> (w_vol w)))).
  { apply (grows_file w (fun m => <[components (tmp_file self) := d]> m) (components (tmp_file self)));
      [|by right]. intros m k Hk. by rewrite lookup_insert_ne. }
  apply (ok_state_file w phs i (Syncing st []) ph' (fun m => <[components (tmp_file self) := d]> m)
           (components (tmp_file self))); try done; auto.
  - intros m k Hk. by rewrite lookup_insert_ne.
  - assert (Hp : promises w st).
    { intros e c Hm. destruct (Hs e c Hm) as [?|[Hv [Hd|(p&_&?%elem_of_nil)]]]; [by left| |done].
      right. by split. }
    destruct Hph' as [->|(->&Hst&->)]; simpl.
    + intros e c Hm. destruct (Hs e c Hm) as [?|[Hv Hd]]; [by left|right].
      split; [by apply Hg|]. destruct Hd as [Hd|?]; [left; by apply (grows_dur _ _ Hg)|by right].
    + split; [by eapply promises_grows|]. exists data. by rewrite lookup_insert_eq.
  - intros data'. rewrite lookup_insert_ne by done. auto.
Qed.

Lemma ok_remove_state w phs i st :
  world_ok w phs -> phs !! i = Some (Saving st) ->
  world_ok (with_vol w (delete (components (state_file self)) (w_vol w))) (<[i := Saving st]> phs).
Proof.
  intros Hok Hi. pose proof (apart_tmp self Hapart) as Hne.
  apply (ok_state_file w phs i (Saving st) _ (delete (components (state_file self)))
           (components (state_file self))); try done; auto.
  - intros m k Hk. by rewrite lookup_delete_ne.
  - destruct (ok_phases _ _ Hok i _ Hi) as [Hp (data&Hst&Ht)]. split.
    + eapply promises_grows; [|exact Hp].
      eapply (grows_file w (delete _) (components (state_file self))); [|by left].
      intros m k Hk. by rewrite lookup_delete_ne.
    + exists data. split; [done|]. simpl. by rewrite lookup_delete_ne.
  - intros data. by rewrite lookup_delete_eq.
Qed.

Lemma ok_rename w phs i st data :
  world_ok w phs -> phs !! i = Some (Saving st) ->
  w_vol w !! components (tmp_file self) = Some data ->
  world_ok (with_vol w (<[components (state_file self) := data]>
                          (delete (components (tmp_file self)) (w_vol w)))) (<[i := Holding]> phs).
Proof.
  intros Hok Hi Hdata. pose proof (apart_tmp self Hapart) as Hne.
  destruct (ok_phases _ _ Hok i _ Hi) as [Hp (data'&Hst&Ht)].
  rewrite Hdata in Ht. injection Ht as <-.
  assert (Hg : grows w (with_vol w (<[components (state_file self) := data]>
                          (delete (components (tmp_file self)) (w_vol w))))).
  { split; simpl; [|done]. intros e c. apply holds_same. intros p (en&He&Hr&Hp').
    destruct (apart_state self Hapart e en p He Hr Hp').
    by rewrite lookup_insert_ne, lookup_delete_ne by done. }
  apply (ok_files w _ phs i (Saving st)); try done; [by left|].
  intros data'. simpl. rewrite lookup_insert_eq. intros [= <-]. right. exists st.
  split; [done|]. by eapply promises_grows.
Qed.

(** ** The runtime and its lock *)

Lemma grows_rt w r l : grows w (World r l (w_vol w) (w_dur w)).
Proof. by split. Qed.

Lemma insert_path_old p q ps : q ∈ components <$> ps -> q ∈ components <$> insert_path p ps.
Proof.
  induction ps as [|x ps IH]; [by intros ?%elem_of_nil|]. cbn [insert_path].
  case_decide; [done|].
  destruct (path_ltb _ _); rewrite !fmap_cons, !elem_of_cons; naive_solver.
Qed.

Lemma insert_path_new p ps : components p ∈ components <$> insert_path p ps.
Proof.
  induction ps as [|x ps IH]; [by left|]. cbn [insert_path].
  case_decide as E; [|destruct (path_ltb _ _)]; rewrite !fmap_cons, !elem_of_cons; naive_solver.
Qed.

Lemma find_update e g fs e' :
  find_file e' (update_file e g fs) =
    if (e =? e')%N
    then (fun f => {| file_entry_id := file_entry_id f; completed := g (completed f) |}) <$> find_file e' fs
    else find_file e' fs.
Proof.
  induction fs as [|f fs IH]; cbn [find_file update_file]; [by destruct (e =? e')%N|].
  destruct (N.eqb_spec (file_entry_id f) e) as [<-|N1]; cbn [find_file file_entry_id].
  - by destruct (N.eqb_spec (file_entry_id f) e') as [E|N2].
  - rewrite IH. destruct (N.eqb_spec e e') as [E|N2]; [rewrite <- E|done].
    by rewrite (proj2 (N.eqb_neq _ _) N1).
Qed.

Lemma marked_mark r e c p e' c' :
  marked (state (mark_locked r e c p).2) e' c' ->
  marked (state r) e' c' \/ (e' = e /\ c' = c /\
    dirty_paths (mark_locked r e c p).2 = insert_path p (dirty_paths r)).
Proof.
  unfold mark_locked. destruct (find_file e (files (state r))) as [file|] eqn:Ef; [|by left].
  destruct (completed file !! N.to_nat c) as [b|] eqn:Ec; [|by left]. simpl.
  intros (f&Hf&Hc). simpl in Hf. rewrite find_update in Hf.
  destruct (N.eqb_spec e e') as [<-|Hne]; [|left; by exists f].
  rewrite Ef in Hf. injection Hf as <-. simpl in Hc.
  destruct (decide (c' = c)) as [->|Hc']; [by right|left]. exists file. split; [done|].
  rewrite list_lookup_insert_ne in Hc; [done|]. lia.
Qed.

Lemma dirty_mark r e c p q :
  q ∈ components <$> dirty_paths r -> q ∈ components <$> dirty_paths (mark_locked r e c p).2.
Proof.
  unfold mark_locked. destruct (find_file e (files (state r))) as [file|]; [|done].
  destruct (completed file !! N.to_nat c); [|done]. apply insert_path_old.
Qed.

Lemma ok_mark w phs i e c p :
  world_ok w phs -> phs !! i = Some (Wrote e c) -> staged_at self e p ->
  world_ok (with_rt w (mark_locked (w_rt w) e c p).2) (<[i := Quiet]> phs).
Proof.
  intros Hok Hi Hp. pose proof (ok_phases _ _ Hok i _ Hi) as Hw. simpl in Hw.
  apply (ok_move w _ phs i (Wrote e c)); try done; try (by left); try apply grows_rt.
  - by right.
  - simpl. intros e' c' [?|(->&->&Hd)]%marked_mark; [by left|right]. split; [done|].
    exists p. split; [done|]. left. simpl. rewrite Hd. apply insert_path_new.
  - intros e' (p'&Hp'&Hd). left. exists p'. split; [done|].
    destruct Hd as [Hd|(j&phj&Hj&Hin)]; [left; by apply dirty_mark|right].
    exists j, phj. split; [|done]. rewrite list_lookup_insert_ne; [done|].
    intros <-. rewrite Hi in Hj. injection Hj as <-. by apply elem_of_nil in Hin.
Qed.

Lemma ok_snapshot w phs i st ps r :
  world_ok w phs -> phs !! i = Some Holding -> take_snapshot (w_rt w) = (Some (st, ps), r) ->
  world_ok (with_rt w r) (<[i := Syncing st (components <$> ps)]> phs).
Proof.
  intros Hok Hi Hs.
  assert (st = state (w_rt w) /\ ps = dirty_paths (w_rt w) /\ state r = state (w_rt w))
    as (->&->&Hr).
  { unfold take_snapshot in Hs. destruct (pending_persist (w_rt w)), (dirty_paths (w_rt w));
      simplify_eq/=; done. }
  assert (Hpend : forall e, pending_at w phs e ->
    exists p, staged_at self e p /\ components p ∈ components <$> dirty_paths (w_rt w)).
  { intros e (p&Hp&[Hd|(j&phj&Hj&Hin)]); [eauto|].
    assert (locked phj = true) as Hlj by (destruct phj; simpl in *; try done; by apply elem_of_nil in Hin).
    pose proof (ok_lock _ _ Hok j phj Hj Hlj) as E1.
    pose proof (ok_lock _ _ Hok i Holding Hi eq_refl) as E2. rewrite E1 in E2. injection E2 as ->.
    rewrite Hi in Hj. injection Hj as <-. by apply elem_of_nil in Hin. }
  apply (ok_move w _ phs i Holding); try done; try (by left); try apply grows_rt.
  - intros _. by apply (ok_lock _ _ Hok i Holding).
  - simpl. intros e c Hm. destruct (ok_marks _ _ Hok e c Hm) as [?|[Hv [Hd|Hp]]]; [by left|by right; auto|].
    right. split; [done|]. right. by apply Hpend.
  - simpl. rewrite Hr. auto.
  - intros e He. left. destruct (Hpend e He) as (p&Hp&Hd). exists p. split; [done|]. right.
    eexists i, _. split; [apply list_lookup_insert_eq; by eapply lookup_lt_Some|done].
Qed.

Lemma ok_lock_taken w phs i :
  world_ok w phs -> phs !! i = Some Quiet -> w_lock w = None ->
  world_ok (with_lock w (Some i)) (<[i := Holding]> phs).
Proof.
  intros Hok Hi Hl. apply (ok_move w _ phs i Quiet); try done; auto using grows_rt.
  intros e Hp. left. by eapply pending_same.
Qed.

Lemma ok_unlock w phs i ph :
  world_ok w phs -> phs !! i = Some ph -> synced ph ->
  world_ok (with_lock w None) (<[i := Quiet]> phs).
Proof.
  intros Hok Hi Hs. assert (Hr : rem_of ph = []) by (by destruct ph as [| | |st []|]).
  assert (Hl : locked ph = true) by (by destruct ph).
  apply (ok_move w _ phs i ph); try done; auto using grows_rt.
  intros e Hp. left. eapply pending_same; [done|done| |done]. by rewrite Hr.
Qed.

(** ** Steps *)

Lemma fs_answer_ok w phs i ph hs f r w' hs' :
  world_ok w phs -> phs !! i = Some ph -> fs_allowed self genuine ph hs f ->
  (exists a, r = Ok a /\ fs_ok w hs f a w' hs') \/
  ((syncs f = true -> false = true) /\ (exists e, r = Err e) /\ fs_err w hs f w' /\ hs' = hs) ->
  exists ph', fs_after self genuine ph hs f r ph' hs' /\ world_ok w' (<[i := ph']> phs).
Proof.
  intros Hok Hi Ha [(a&->&Hf)|(Hsy&(err&->)&Hf&->)].
  - destruct Hf as [opts p h Hex Hn|h q off off' Hh|h q off d f Hh Hf|h q off f Hh Hf|p d|p|p|a b d Hd];
      simpl in Ha.
    + exists ph. split; [|by apply ok_same]. split; [done|]. left. by exists h.
    + exists ph. split; [|by apply ok_same]. split; [done|]. left. by exists q, off'.
    + destruct Ha as [-> (e&c&Hst)]. exists (Wrote e c). split.
      { left. by exists e, c, q, off. }
      assert (Hl : length d <= length d) by lia. apply firstn_all2 in Hl.
      rewrite <- Hl. eapply ok_store; eauto. simpl. rewrite firstn_all2 by lia.
      by eapply holds_stored.
    + destruct Ha as (st&rem&->). exists (Syncing st (filter (fun k => k <> q) rem)).
      split; [|by apply ok_sync_file]. split; [done|]. by exists q, off, st, rem.
    + destruct Ha as [-> (st&->&Hst)]. exists (Saving st). split.
      { split; [done|]. exists st. auto. }
      eapply ok_write_tmp; [done|exact Hi|]. right. eauto.
    + exists ph. split; [done|by apply ok_same].
    + destruct Ha as [-> (st&->)]. exists (Saving st). split; [done|]. by apply ok_remove_state.
    + destruct Ha as (->&->&st&->). exists Holding. split; [split; [done|by left]|]. by eapply ok_rename.
  - destruct Hf as [f|h q off d f n Hh Hf|p d f].
    + exists ph. split; [|by apply ok_same].
      destruct f; simpl in Ha |- *; try done.
      * destruct Ha as [-> (st&->&Hst)]. split; [done|]. exists st. eauto.
      * split; [done|]. right. eauto.
      * split; [done|]. right. exists err. split_and!; [done| |done].
        destruct (o_read options && o_write options) eqn:E; [|done]. by specialize (Hsy E).
      * by specialize (Hsy eq_refl).
      * split; [done|]. right. eauto.
      * right. eauto.
    + destruct Ha as [-> (e&c&Hst)]. exists Quiet. split; [right; eauto|]. by eapply ok_store.
    + destruct Ha as [-> (st&->&Hst)]. exists (Syncing st []). split.
      { split; [done|]. exists st. eauto. }
      apply (ok_write_tmp w phs i st d); [done|exact Hi|by left].
Qed.

Lemma answer_ok w phs i ph hs o r w' hs' :
  world_ok w phs -> phs !! i = Some ph -> allowed self genuine ph hs o ->
  answer genuine false i w hs o r w' hs' ->
  exists ph', after self genuine ph hs o r ph' hs' /\ world_ok w' (<[i := ph']> phs).
Proof.
  intros Hok Hi Ha Hr. destruct o as [s|[t|[f|[q|tr]]]].
  - destruct Hr as (Hh&->&->). exists ph. split; [done|by apply ok_same].
  - destruct Hr as [-> ->]. exists ph. split; [done|by apply ok_same].
  - eapply fs_answer_ok; eauto.
  - assert (Hrt : with_rt w (w_rt w) = w) by (by destruct w).
    destruct q; simpl in Ha, Hr; try done.
    + destruct Hr as (_&->&->). rewrite Hrt. exists ph. split; [done|by apply ok_same].
    + destruct Hr as (_&->&->), Ha as [-> Hp]. exists Quiet. split; [done|]. by apply ok_mark.
    + subst ph. destruct Hr as (->&->&->). destruct (take_snapshot (w_rt w)) as [[[st ps]|] rt] eqn:E; simpl.
      * exists (Syncing st (components <$> ps)). split; [done|]. by eapply ok_snapshot.
      * exists Holding. split; [done|].
        assert (rt = w_rt w) as ->.
        { unfold take_snapshot in E. destruct (pending_persist (w_rt w)), (dirty_paths (w_rt w)); simplify_eq/=; done. }
        rewrite Hrt. by apply ok_same.
    + subst ph. destruct Hr as (Hl&->&->). exists Holding. split; [done|]. by apply ok_lock_taken.
    + destruct Hr as [-> ->]. exists Quiet. split; [done|]. by eapply ok_unlock.
  - destruct Hr as [-> ->]. exists ph. split; [done|by apply ok_same].
Qed.

Definition inv (s : system) (phs : list phase) : Prop :=
  Forall2 (fun t ph => wt self genuine ph (t_files t) (t_prog t) (fun _ _ _ => True)) (s_threads s) phs /\
  world_ok (s_world s) phs.

Lemma inv_step s s' phs :
  inv s phs -> step genuine false s s' -> exists phs', inv s' phs'.
Proof.
  intros [Ht Hok] Hs. destruct Hs as [w ts i o k hs r w' hs' Hi Hr]. simpl in *.
  destruct (Forall2_lookup_l _ _ _ _ _ Ht Hi) as (ph&Hph&[Ha Hk]). simpl in Ha, Hk.
  destruct (answer_ok _ _ _ _ _ _ _ _ _ Hok Hph Ha Hr) as (ph'&Hafter&Hok').
  exists (<[i := ph']> phs). split; [|done]. simpl.
  apply Forall2_insert; [done|]. simpl. by apply Hk.
Qed.

Lemma inv_initial n fuel stall s :
  initial self st0 n fuel stall s -> inv s (replicate n Quiet).
Proof.
  intros (Hrt&Hl&(data&Hdata&Hv)&Hth). split.
  - rewrite Hth. unfold workers_of. apply Forall2_replicate. simpl.
    eapply wt_mono; [by apply wt_handle_worker|done].
  - assert (Hq : forall i ph, replicate n Quiet !! i = Some ph -> ph = Quiet)
      by (by intros i ph [-> _]%lookup_replicate).
    split.
    + by intros i ph ->%Hq.
    + by intros i ph ->%Hq.
    + rewrite Hrt. simpl. auto.
    + rewrite Hv. intros data' [= <-]. exists st0. split; [done|]. by left.
Qed.

Lemma reachable_inv n fuel stall s s' :
  initial self st0 n fuel stall s -> rtc (step genuine false) s s' -> exists phs, inv s' phs.
Proof.
  intros Hs Hr. assert (exists phs, inv s phs) as Hi by (eexists; by eapply inv_initial).
  clear Hs. induction Hr as [s|s s1 s2 H12 _ IH]; [done|]. apply IH.
  destruct Hi as [phs Hi]. by eapply inv_step.
Qed.
End Invariant.

(** ** The theorem *)

Section Safety.
Context `{Json Frame} `{JsonLaws ResumeState} `{Blake3} `{Hex} `{FrameText}.
Context (self : ResumeShared) (genuine : N -> N -> bytes -> Prop).

End Safety.
