(* ===== verification/ResumeTheorems.v ===== *)
(** * Theorems about the resume state

    The layout of the state as a type its operations respect, what is lost when a
    sync fails, and an execution on which the theorem on crashes is evaluated. *)

From stdpp Require Import list gmap.
From S2P Require Import Prelude Streams Json Wire Demo Proto Text Paths Transfer TransferTheorems.
From S2P Require Import Fs Disk Tracker Frames Resume Workers TransferDemo ResumeSystem ResumeSafety.

(** ** The layout of the state

    What [receive_manifest] builds: one list of marks for each regular file of
    the manifest, as long as the file has chunks. *)

Section Layout.
Context (entries : gmap N ManifestEntry).

Definition regular_entry (e : N) (entry : ManifestEntry) : Prop :=
  entries !! e = Some entry /\ kind entry = RegularFile.

Record laid_out (st : ResumeState) : Prop := {
  laid_fits f : f ∈ files st -> exists entry, regular_entry (file_entry_id f) entry /\
    nlen (completed f) = chunk_count entry;
  laid_all e entry : regular_entry e entry -> is_Some (find_file e (files st));
}.

(** A call whose arguments fit the manifest. *)
Definition well_typed (o : resume_op) : Prop :=
  match o with
  | CreateRuntime st => laid_out st
  | Mark e c _ => exists entry, regular_entry e entry /\ (c < chunk_count entry)%N
  | IsChunkComplete e _ | AllChunksComplete e | Reset_ e => exists entry, regular_entry e entry
  | _ => True
  end.

(** An answer that is no error, and carries a state of the same layout. *)
Definition well_answered (o : resume_op) : resume_ans o -> Prop :=
  match o return resume_ans o -> Prop with
  | IsChunkComplete _ _ | Mark _ _ _ | AllChunksComplete _ => fun r => exists b, r = Ok b
  | TakeSnapshot => fun r => forall st ps, r = Some (st, ps) -> laid_out st
  | Reset_ _ => fun r => exists st, r = Ok st /\ laid_out st
  | _ => fun _ => True
  end.

Lemma find_file_elem e fs f : find_file e fs = Some f -> f ∈ fs /\ file_entry_id f = e.
Proof.
  induction fs as [|x fs IH]; simpl; [done|].
  destruct (N.eqb_spec (file_entry_id x) e) as [He|].
  - intros [= <-]. split; [by left|done].
  - intros Hf. destruct (IH Hf). split; [by right|done].
Qed.

Lemma update_file_elem e g fs f :
  f ∈ update_file e g fs -> exists f0, f0 ∈ fs /\ file_entry_id f = file_entry_id f0 /\
    (completed f = completed f0 \/ completed f = g (completed f0)).
Proof.
  induction fs as [|x fs IH]; simpl; [by intros ?%elem_of_nil|].
  destruct (file_entry_id x =? e)%N; rewrite elem_of_cons.
  - intros [->|Hf]; [exists x|exists f]; simpl; set_solver.
  - intros [->|Hf]; [exists x; set_solver|]. destruct (IH Hf) as (f0&?&?&?). exists f0. set_solver.
Qed.

Lemma laid_out_update e g st :
  (forall l, length (g l) = length l) -> laid_out st ->
  laid_out (with_files st (update_file e g (files st))).
Proof.
  intros Hg [Hf Ha]. split.
  - intros f (f0&Hin&He&Hc)%update_file_elem. destruct (Hf f0 Hin) as (entry&Hr&Hl).
    exists entry. rewrite He. split; [done|]. rewrite <- Hl. unfold nlen.
    destruct Hc as [-> | ->]; by rewrite ?Hg.
  - intros e' entry Hr. simpl. rewrite find_update. destruct (Ha e' entry Hr) as [f Hf'].
    rewrite Hf'. destruct (e =? e')%N; by eexists.
Qed.

Lemma find_laid st e entry :
  laid_out st -> regular_entry e entry ->
  exists f, find_file e (files st) = Some f /\ nlen (completed f) = chunk_count entry.
Proof.
  intros [Hf Ha] Hr. destruct (Ha e entry Hr) as [f Hff]. exists f. split; [done|].
  destruct (find_file_elem _ _ _ Hff) as [Hin He]. destruct (Hf f Hin) as (entry'&Hr'&Hl).
  rewrite He in Hr'. unfold regular_entry in *. naive_solver congruence.
Qed.

(** The layout is a type.  On a state laid out for the manifest, a call whose
    arguments fit the manifest is never answered with an error, and leaves (and
    hands out) states laid out for the manifest. *)
Lemma resume_calls_respect_the_layout o r :
  laid_out (state r) -> well_typed o ->
  well_answered o (resume_handler o r).1 /\ laid_out (state (resume_handler o r).2).
Proof.
  intros Hl Ho. destruct o as [st|e c|e c p| |e n|e|e| |]; simpl in *; try done.
  - destruct Ho as [entry Hr]. destruct (find_laid _ _ _ Hl Hr) as (f&Hf&_).
    unfold is_chunk_complete_locked. rewrite Hf. simpl. eauto.
  - destruct Ho as (entry&Hr&Hc). destruct (find_laid _ _ _ Hl Hr) as (f&Hf&Hn).
    unfold mark_locked. rewrite Hf. unfold nlen in Hn.
    destruct (lookup_lt_is_Some_2 (completed f) (N.to_nat c)) as [b Hb]; [lia|]. rewrite Hb. simpl.
    split; [eauto|]. apply laid_out_update; [|done]. intros l. apply length_insert.
  - unfold take_snapshot. destruct (pending_persist r), (dirty_paths r); simpl; split; try done;
      by intros st ps [= <- <-].
  - destruct Ho as [entry Hr]. destruct (find_laid _ _ _ Hl Hr) as (f&Hf&_).
    unfold all_chunks_complete_locked. rewrite Hf. simpl. eauto.
  - destruct Ho as [entry Hr]. destruct (find_laid _ _ _ Hl Hr) as (f&Hf&_).
    unfold reset_locked. rewrite Hf. simpl.
    assert (Hl' : laid_out (with_files (state r) (update_file e (fmap (fun _ => false)) (files (state r))))).
    { apply laid_out_update; [|done]. intros l. apply length_fmap. }
    eauto.
Qed.
End Layout.

(** ** Workers only make calls that fit the manifest *)

Section Calls.
Context `{Json Frame} `{Json ResumeState} `{Blake3} `{Hex} `{FrameText}.
Context (self : ResumeShared).

Definition calls_ok (o : worker_op) : Prop :=
  match o with inr (inr (inr (inl q))) => well_typed (resume_entries self) q | _ => True end.

Lemma calls_stream {A} (p : worker_prog A) : stream_only p -> every calls_ok p.
Proof. apply every_mono. by intros [s|o]. Qed.

Lemma every_ok {A B} P (a : A) (f : A -> worker_prog (ares B)) :
  every P (f a) -> every P (ptry (Ret (Ok a)) f).
Proof. done. Qed.

Lemma calls_timeout {A} secs (p : worker_prog A) : every calls_ok p -> every calls_ok (timeout secs p).
Proof.
  induction p as [a|o k IH]; simpl; [done|]. intros [Ho Hk]. split; [done|].
  intros late. destruct late; simpl; [done|]. auto.
Qed.

Lemma calls_stall {A} secs (p : worker_prog (ares A)) :
  every calls_ok p -> every calls_ok (with_stall secs p).
Proof.
  intros Hp. unfold with_stall. destruct (secs =? 0)%N; [done|].
  apply every_bind; [by apply calls_timeout|done].
Qed.

Lemma calls_sync ps : every calls_ok (sync_staged_files ps : worker_prog (ares unit)).
Proof.
  unfold sync_staged_files. induction ps as [|p ps IH]; simpl; [done|].
  split; [done|]. intros [h|e|]; simpl; [|done..]. split; [done|]. intros [u|e|]; simpl; [|done..]. exact IH.
Qed.

Lemma calls_persist path st : every calls_ok (persist_resume_state path st : worker_prog (ares unit)).
Proof.
  unfold persist_resume_state, write_json_atomic. destruct (to_vec st); simpl; [|done..].
  split; [done|]. intros [u|e|]; simpl; [|done..]. split; [done|]. intros [[]|e|]; simpl; repeat split; intros; done.
Qed.

Lemma calls_flush : every calls_ok (flush_pending self : worker_prog (ares unit)).
Proof.
  unfold flush_pending, with_persist_lock. simpl. split; [done|]. intros _. split; [done|].
  intros r. apply every_bind; [|by intros]. destruct r as [[st ps]|]; simpl; [|done].
  apply every_try; [apply calls_sync|]. intros _. apply calls_persist.
Qed.

#[local] Hint Resolve calls_flush calls_stall calls_stream : rb.

Lemma calls_store entry e c off payload cache :
  regular_entry (resume_entries self) e entry -> (c < chunk_count entry)%N ->
  every calls_ok (store_chunk self entry e c off payload cache).
Proof.
  intros Hr Hc. unfold store_chunk. apply every_try; [simpl; by eauto|]. intros [|]; [done|].
  apply every_try; [by destruct (stage_path _ _)|]. intros path.
  apply every_try.
  { unfold cached. destruct (cache !! e); simpl; [done|]. split; [done|]. by intros [h|err|]. }
  intros [file cache']. apply every_try; [done|]. intros _. apply every_try; [done|]. intros _.
  apply every_try; [|done]. unfold mark_chunk_complete. apply every_try; [simpl; split; [by exists entry|done]|].
  intros [|]; [apply calls_flush|done].
Qed.

Lemma calls_receive stall e c off len h cache :
  every calls_ok (receive_chunk self stall e c off len h cache).
Proof.
  unfold receive_chunk.
  destruct (resume_entries self !! e) as [entry|] eqn:He; cbn [anyhow_context ok_or]; [|done].
  apply every_ok. destruct (is_regular_file (kind entry)) eqn:Hk; cbn [negb]; [|done].
  assert (Hreg : kind entry = RegularFile) by (by destruct (kind entry)).
  destruct (validate_chunk_geometry entry c off len) as [[]|err|] eqn:Ev; [|done..].
  apply every_ok.
  destruct (accepted_geometry _ _ _ _ Ev) as (s&_&_&_&Hc).
  apply every_try; [apply calls_stream; auto with rb|]. intros payload.
  destruct (negb _); [done|]. apply every_try; [by apply calls_store|]. intros cache'.
  apply every_bind; [by destruct (c =? 0)%N|]. intros _.
  apply every_bind; [by destruct (String.eqb (rel_path entry) "")|]. done.
Qed.

Lemma calls_loop fuel stall cache : every calls_ok (worker_loop fuel self stall cache).
Proof.
  revert cache; induction fuel as [|fuel IH]; intros cache; [done|]. cbn [worker_loop].
  apply every_try; [auto 6 with rb|]. intros [f|]; [|done].
  destruct f; try done.
  - apply every_try; [apply calls_flush|]. intros _. apply calls_stream. auto with rb.
  - apply every_try; [apply calls_receive|]. intros cache'. apply IH.
Qed.

Lemma calls_end r : every calls_ok (worker_end self r).
Proof.
  assert (Hs : forall m, every calls_ok (let! _ := send_frame (ErrorFrame m) in Ret tt : worker_prog unit)).
  { intros m. apply every_bind; [apply calls_stream; auto with rb|done]. }
  destruct r as [[]|e|]; [| |done];
    (unfold worker_end; apply every_bind; [apply calls_flush|]; intros fl;
     apply every_bind; [first [apply Hs|done]|done]).
Qed.

Lemma calls_worker fuel stall : every calls_ok (handle_worker_connection fuel self stall).
Proof.
  unfold handle_worker_connection. apply every_try; [auto 6 with rb|]. intros f. destruct f; try done.
  destruct (negb _); [done|]. apply every_bind; [done|]. intros _.
  apply every_bind; [apply calls_loop|]. intros r. apply calls_end.
Qed.

(** The runtime stays laid out, and every worker's next calls fit. *)
Definition typed_system (s : system) : Prop :=
  laid_out (resume_entries self) (state (w_rt (s_world s))) /\
  Forall (fun t => every calls_ok (t_prog t)) (s_threads s).

Lemma fs_ok_rt w hs f a w' hs' : fs_ok w hs f a w' hs' -> w_rt w' = w_rt w.
Proof. by destruct 1. Qed.

Lemma fs_err_rt w hs f w' : fs_err w hs f w' -> w_rt w' = w_rt w.
Proof. by destruct 1. Qed.

Lemma answer_laid_out genuine b i w hs o r w' hs' :
  laid_out (resume_entries self) (state (w_rt w)) -> calls_ok o ->
  answer genuine b i w hs o r w' hs' -> laid_out (resume_entries self) (state (w_rt w')).
Proof.
  intros Hl Ho Hr. destruct o as [s|[t|[f|[q|tr]]]].
  - by destruct Hr as (_&->&_).
  - by destruct Hr as [-> _].
  - destruct Hr as [(a&_&Hf)|(_&_&Hf&_)]; [by rewrite (fs_ok_rt _ _ _ _ _ _ Hf)|by rewrite (fs_err_rt _ _ _ _ Hf)].
  - pose proof (proj2 (resume_calls_respect_the_layout _ q (w_rt w) Hl Ho)) as Hq.
    destruct q; simpl in Hr; destruct_and?; subst; done.
  - by destruct Hr as [-> _].
Qed.

Lemma typed_step genuine b s s' : typed_system s -> step genuine b s s' -> typed_system s'.
Proof.
  intros [Hl Ht] Hs. destruct Hs as [w ts i o k hs r w' hs' Hi Hr]. simpl in *.
  pose proof (proj1 (Forall_lookup _ _) Ht _ _ Hi) as [Ho Hk]. split.
  - by eapply answer_laid_out.
  - apply Forall_insert; [done|]. apply Hk.
Qed.
End Calls.

(** C12: workers never go wrong.  If the state a transfer starts from is laid out
    for its manifest, it is so in every state the workers reach together,
    whatever their peers send and whatever the disk answers; and no call of a
    worker to the resume state is answered with an error. *)
Theorem workers_never_go_wrong `{Json Frame} `{Json ResumeState} `{Blake3} `{Hex} `{FrameText}
  self genuine sync_fails st0 n fuel stall s s' :
  laid_out (resume_entries self) st0 -> initial self st0 n fuel stall s ->
  rtc (step genuine sync_fails) s s' ->
  laid_out (resume_entries self) (state (w_rt (s_world s'))) /\
  forall i q k hs,
    s_threads s' !! i = Some (Thread (Op (S := stream_sig ⊕ worker_sig) (inr (inr (inr (inl q)))) k) hs) ->
    well_answered (resume_entries self) q (resume_handler q (w_rt (s_world s'))).1.
Proof.
  intros Hl (Hrt&_&_&Hth) Hr.
  assert (Hs : typed_system self s).
  { split; [by rewrite Hrt|]. rewrite Hth. apply Forall_replicate. apply calls_worker. }
  clear Hl Hrt Hth. assert (Hs' : typed_system self s').
  { induction Hr as [s|s s1 s2 H12 _ IH]; [done|]. apply IH. by eapply typed_step. }
  destruct Hs' as [Hl Ht]. split; [done|]. intros i q k hs Hi.
  pose proof (proj1 (Forall_lookup _ _) Ht _ _ Hi) as [Ho _].
  by apply resume_calls_respect_the_layout.
Qed.

(** The state of a new transfer is laid out for its manifest. *)
Lemma fresh_state_laid_out begin hash name entries :
  NoDup (id <$> entries) ->
  laid_out (collect_map id (fun e => e) entries) (fresh_state begin hash name entries).
Proof.
  intros Hn.
  assert (Hin : forall e, e ∈ entries -> collect_map id (fun e => e) entries !! id e = Some e).
  { intros e He. by apply (collect_map_in id (fun e => e)). }
  split.
  - intros f. simpl. rewrite list_elem_of_fmap. intros (e&->&[Hk He]%list_elem_of_filter). simpl.
    exists e. split; [split; [by apply Hin|by destruct (kind e)]|].
    unfold nlen. rewrite length_replicate. lia.
  - intros k e [He Hk]. simpl.
    destruct (collect_map_inv id (fun e => e) entries k e He) as (e0&Hin0&Hid&->).
    clear Hin He. induction entries as [|x l IH]; [by apply elem_of_nil in Hin0|].
    rewrite filter_cons. apply NoDup_cons in Hn as [_ Hn].
    case_decide as Hx; cbn [fmap list_fmap find_file file_entry_id].
    + destruct (N.eqb_spec (id x) k); [by eexists|].
      apply elem_of_cons in Hin0 as [->|Hin0]; [done|]. by apply IH.
    + apply elem_of_cons in Hin0 as [->|Hin0]; [by rewrite Hk in Hx|]. by apply IH.
Qed.

(** ** Fresh chunks

    The count [all_chunks_fresh] compares: one for each mark of the run. *)

Section Fresh.
Context (entries : gmap N ManifestEntry).

Record chunk_mark : Type := ChunkMark { mark_entry : N; mark_chunk : N; mark_path : string }.

Definition run_marks (r : ResumeRuntime) (marks : list chunk_mark) : ResumeRuntime :=
  foldl (fun r m => (mark_locked r (mark_entry m) (mark_chunk m) (mark_path m)).2) r marks.

Definition of_entry (e : N) (marks : list chunk_mark) : list N :=
  mark_chunk <$> filter (fun m => mark_entry m = e) marks.

Definition fresh_of (r : ResumeRuntime) (e : N) : N := default 0%N (fresh_chunks r !! e).

Definition mark_typed (m : chunk_mark) : Prop :=
  well_typed entries (Mark (mark_entry m) (mark_chunk m) (mark_path m)).

Lemma fresh_mark r m :
  laid_out entries (state r) -> mark_typed m ->
  fresh_of (mark_locked r (mark_entry m) (mark_chunk m) (mark_path m)).2 (mark_entry m) =
    as_u32 (fresh_of r (mark_entry m) + 1) /\
  forall e, e <> mark_entry m ->
    fresh_of (mark_locked r (mark_entry m) (mark_chunk m) (mark_path m)).2 e = fresh_of r e.
Proof.
  intros Hl (entry&Hr&Hc). destruct (find_laid _ _ _ _ Hl Hr) as (f&Hf&Hn).
  unfold mark_locked, fresh_of. rewrite Hf. unfold nlen in Hn.
  destruct (lookup_lt_is_Some_2 (completed f) (N.to_nat (mark_chunk m))) as [b ->]; [lia|]. simpl.
  rewrite lookup_insert_eq. split; [done|]. intros e He. by rewrite lookup_insert_ne.
Qed.

Lemma fresh_counts e marks r :
  laid_out entries (state r) -> Forall mark_typed marks ->
  (fresh_of r e + nlen (of_entry e marks) < 2 ^ 32)%N ->
  fresh_of (run_marks r marks) e = (fresh_of r e + nlen (of_entry e marks))%N.
Proof.
  revert r; induction marks as [|m marks IH]; intros r Hl Hm Hb; [simpl; unfold nlen; simpl; lia|].
  apply Forall_cons in Hm as [Hm Hms]. simpl.
  assert (Hl' : laid_out entries (state (mark_locked r (mark_entry m) (mark_chunk m) (mark_path m)).2))
    by (apply (resume_calls_respect_the_layout entries _ r Hl Hm)).
  destruct (fresh_mark r m Hl Hm) as [Hsame Hother].
  unfold of_entry in *. rewrite filter_cons in Hb |- *.
  case_decide as He; [subst e|].
  - rewrite fmap_cons, nlen_cons in Hb |- *.
    rewrite IH; [|done..|]; rewrite Hsame; unfold as_u32; rewrite N.mod_small by lia; lia.
  - rewrite IH; [|done..|]; rewrite Hother; done.
Qed.

End Fresh.

(** ** A sync that fails *)

(** The rest of the dirty files have to be synced again; nothing says so. *)
Definition fs_resume_sig : sig := fs_sig ⊕ resume_sig.


(** ** An execution

    One worker alone, on a disk where everything succeeds: its run is an
    execution of the system. *)

Definition fresh_handle (hs : open_files) : handle := (1 + foldr N.max 0 (map_to_list hs).*1)%N.

Definition world_fs (w : world) (hs : open_files) (f : fs_op) :
  result io_error (fs_ans f) * (world * open_files) :=
  match f return result io_error (fs_ans f) * (world * open_files) with
  | FsOpen _ p =>
      let h := fresh_handle hs in
      if decide (is_Some (w_vol w !! components p) /\ hs !! h = None)
      then (Ok h, (w, <[h := (components p, 0%N)]> hs)) else (Err not_found, (w, hs))
  | FsSeek h off =>
      match hs !! h with
      | Some (q, _) => (Ok tt, (w, <[h := (q, off)]> hs))
      | None => (Err not_found, (w, hs))
      end
  | FsWriteAll h d =>
      match hs !! h with
      | Some (q, off) =>
          match w_vol w !! q with
          | Some f => (Ok tt, (with_vol w (<[q := splice (N.to_nat off) d f]> (w_vol w)),
                               <[h := (q, off + nlen d)%N]> hs))
          | None => (Err not_found, (w, hs))
          end
      | None => (Err not_found, (w, hs))
      end
  | FsSyncData h =>
      match hs !! h with
      | Some (q, _) =>
          match w_vol w !! q with
          | Some f => (Ok tt, (with_dur w (<[q := f]> (w_dur w)), hs))
          | None => (Err not_found, (w, hs))
          end
      | None => (Err not_found, (w, hs))
      end
  | FsWrite p d => (Ok tt, (with_vol w (<[components p := d]> (w_vol w)), hs))
  | FsTryExists p => (Ok (bool_decide (is_Some (w_vol w !! components p))), (w, hs))
  | FsRemoveFile p => (Ok tt, (with_vol w (delete (components p) (w_vol w)), hs))
  | FsRename a b =>
      match w_vol w !! components a with
      | Some d => (Ok tt, (with_vol w (<[components b := d]> (delete (components a) (w_vol w))), hs))
      | None => (Err not_found, (w, hs))
      end
  | _ => (Err not_found, (w, hs))
  end.

Definition on_world : handler worker_sig (world * open_files) :=
  fun o st =>
    let '(w, hs) := st in
    match o return resp (s := worker_sig) o * (world * open_files) with
    | inl _ => (false, st)
    | inr (inl f) => world_fs w hs f
    | inr (inr (inl q)) =>
        match q return resume_ans q * (world * open_files) with
        | PersistLock => (tt, (with_lock w (Some 0), hs))
        | PersistUnlock => (tt, (with_lock w None, hs))
        | q => ((resume_handler q (w_rt w)).1, (with_rt w (resume_handler q (w_rt w)).2, hs))
        end
    | inr (inr (inr _)) => (tt, st)
    end.

Definition alone : handler (stream_sig ⊕ worker_sig) (mem * (world * open_files)) :=
  hsum mem_stream on_world.

(** The lock is free when it is asked for, and no sync fails. *)
Definition enabled (o : worker_op) (st : mem * (world * open_files)) : bool :=
  match o with
  | inr (inr (inr (inl PersistLock))) => bool_decide (w_lock st.2.1 = None)
  | inr (inr (inl f)) => negb (syncs f) || match (world_fs st.2.1 st.2.2 f).1 with Ok _ => true | _ => false end
  | _ => true
  end.

Fixpoint runs_alone {A} (p : worker_prog A) (st : mem * (world * open_files)) : bool :=
  match p with
  | Ret _ => true
  | Op o k => enabled o st && runs_alone (k (alone o st).1) (alone o st).2
  end.

Lemma world_fs_ok w hs f :
  (exists a, (world_fs w hs f).1 = Ok a /\ fs_ok w hs f a (world_fs w hs f).2.1 (world_fs w hs f).2.2) \/
  ((exists e, (world_fs w hs f).1 = Err e) /\ (world_fs w hs f).2 = (w, hs)).
Proof.
  destruct f; simpl; try (right; by eauto); try (left; eexists; split; [done|by constructor]).
  - destruct (w_vol w !! components from) eqn:E; [left|right; by eauto]. exists tt. split; [done|].
    by constructor.
  - case_decide as Hd; [left|right; by eauto]. destruct Hd. eexists. split; [done|]. by constructor.
  - destruct (hs !! file) as [[q off]|] eqn:E; [|right; by eauto].
    destruct (w_vol w !! q) eqn:E2; [left|right; by eauto]. eexists. split; [done|]. by econstructor.
  - destruct (hs !! file) as [[q off]|] eqn:E; [left|right; by eauto].
    exists tt. split; [done|]. by econstructor.
  - destruct (hs !! file) as [[q off]|] eqn:E; [|right; by eauto].
    destruct (w_vol w !! q) eqn:E2; [left|right; by eauto]. exists tt. split; [done|]. by econstructor.
Qed.

Lemma mem_stream_honest `{Json Frame} `{Blake3} (s : stream_op) m :
  honest (fun _ _ _ => True) s (mem_stream s m).1.
Proof.
  destruct s; simpl; try done.
  - intros bs [= <-]. unfold nlen. rewrite length_take. lia.
  - case_decide as Hl; simpl; (split; [|done]); intros buf [= <-].
    unfold nlen in *. rewrite length_take. lia.
Qed.

Lemma alone_steps p st :
  runs_alone p st = true ->
  rtc (step (fun _ _ _ => True) false)
    (System st.2.1 [Thread p st.2.2])
    (System (run alone p st).2.2.1 [Thread (Ret (run alone p st).1) (run alone p st).2.2.2]).
Proof.
  revert st; induction p as [a|o k IH]; intros st Hr; [apply rtc_refl|].
  simpl in Hr. apply andb_true_iff in Hr as [He Hr]. eapply rtc_l; [|by apply IH].
  apply (step_op _ _ st.2.1 [Thread (Op o k) st.2.2] 0 o k st.2.2 (alone o st).1); [done|].
  destruct st as [m [w hs]]. destruct o as [s|[t|[f|[q|tr]]]]; simpl in *.
  - split; [apply mem_stream_honest|done].
  - done.
  - destruct (world_fs_ok w hs f) as [(a&E&Hf)|[(e&E) Hf]]; [left; by exists a|right].
    rewrite Hf. split_and!; [|by exists e|constructor|done].
    rewrite E in He. destruct (syncs f); [done|]. done.
  - destruct q; try done. simpl in *. by apply bool_decide_eq_true in He.
  - done.
Qed.

Definition demo_payload : bytes := [x68; x65; x6c; x6c; x6f].

Definition demo_staged : ManifestEntry := {|
  id := 1; rel_path := "u:61"; kind := RegularFile; size := Some 5%N; full_hash := Some "b3:";
  chunk_count := 1; symlink_target := None; device := None; mode := None;
|}.

Definition demo_shared : ResumeShared := {|
  resume_transfer_id := "t"; state_file := "/in/.state/state.json";
  resume_stage_root := "/in/.state/x"; resume_entries := {[1%N := demo_staged]};
|}.

Definition demo_fresh : ResumeState :=
  fresh_state (demo_begin "u:78") "h" "u:78" [demo_staged].

Definition demo_world : world :=
  World (new_runtime demo_fresh) None
    {[components "/in/.state/state.json" := match to_vec demo_fresh with Ok d => d | _ => [] end;
      components "/in/.state/x/a" := [x00; x00; x00; x00; x00] ]} ∅.

(** What the sender's worker sends. *)
Definition demo_inbox : bytes :=
  demo_wire (WorkerHello "t") ++ demo_wire (ChunkStart 1 0 0 5 (blake3_hash_hex demo_payload)) ++
  demo_payload ++ demo_wire WorkerDone.

Definition demo_start : mem * (world * open_files) := (Mem demo_inbox [] [], (demo_world, ∅)).

Definition demo_worker : worker_prog (ares unit) := handle_worker_connection 10 demo_shared 0.

Example demo_worker_result :
  (run alone demo_worker demo_start).1 = Ok tt /\
  w_dur (run alone demo_worker demo_start).2.2.1 !! components "/in/.state/x/a" = Some demo_payload.
Proof. vm_compute. done. Qed.

Lemma demo_apart : staged_apart demo_shared.
Proof.
  assert (Hone : forall e entry, resume_entries demo_shared !! e = Some entry -> e = 1%N /\ entry = demo_staged)
    by (intros e entry He; change (resume_entries demo_shared) with ({[1%N := demo_staged]} : gmap N ManifestEntry) in He;
        by apply lookup_singleton_Some in He as [<- <-]).
  split.
  - intros e1 e2 ? ? ? ? [-> _]%Hone [-> _]%Hone. done.
  - intros e entry p [-> ->]%Hone _ Hp. vm_compute in Hp. injection Hp as <-.
    split; vm_compute; discriminate.
  - vm_compute. discriminate.
Qed.

Lemma demo_initial : initial demo_shared demo_fresh 1 10 0 (System demo_world [Thread demo_worker ∅]).
Proof.
  split_and!; [done|done| |done]. eexists. split; [reflexivity|]. vm_compute. done.
Qed.


Definition demo_states : mem * (world * open_files) :=
  (run alone demo_worker demo_start).2.

Lemma demo_steps :
  rtc (step (fun _ _ _ => True) false) (System demo_world [Thread demo_worker ∅])
    (System demo_states.2.1 [Thread (Ret (run alone demo_worker demo_start).1) demo_states.2.2]).
Proof. apply (alone_steps demo_worker demo_start). vm_compute. reflexivity. Qed.

Lemma demo_laid : laid_out (resume_entries demo_shared) demo_fresh.
Proof.
  assert (Hn : NoDup (id <$> [demo_staged])) by (apply NoDup_singleton).
  exact (fresh_state_laid_out (demo_begin "u:78") "h" "u:78" [demo_staged] Hn).
Qed.

Lemma workers_never_go_wrong_witness :
  laid_out (resume_entries demo_shared) (state (w_rt demo_states.2.1)) /\
  state (w_rt demo_states.2.1) <> demo_fresh.
Proof.
  split.
  - exact (proj1 (workers_never_go_wrong demo_shared (fun _ _ _ => True) false demo_fresh 1 10 0 _ _
      demo_laid demo_initial demo_steps)).
  - vm_compute. discriminate.
Defined.

Lemma demo_regular : regular_entry (resume_entries demo_shared) 1 demo_staged.
Proof. split; [|done]. vm_compute. reflexivity. Qed.


(** A disk on which nothing can be opened. *)
Definition broken : handler fs_sig unit := fun _ d => (Err not_found, d).

Definition dirty_runtime : ResumeRuntime :=
  (mark_locked (new_runtime demo_fresh) 1 0 "/in/.state/x/a").2.

