(* ===== verification/DataStream.v ===== *)
(** * A data stream, end to end

    A sender's worker with a queue of tasks against a receiver's worker: every
    chunk arrives at its place, is synced, and is marked in the state on disk. *)

From stdpp Require Import list gmap.
From S2P Require Import Prelude Streams Json Wire Demo Proto Text Paths Transfer TransferTheorems.
From S2P Require Import Fs Disk Tracker Frames Resume Workers TransferDemo Exchange.
From S2P Require Import ResumeSystem ResumeSafety ResumeTheorems.

(** ** The receiver's side *)

Section Receiver.
Context `{JsonLaws Frame} `{Json ResumeState} `{Blake3} `{Hex} `{FrameText}.
Context (self : ResumeShared) (genuine : N -> N -> bytes -> Prop) (Hapart : staged_apart self).
(** The state is a tree of strings, numbers and booleans, which serde_json prints. *)
Context (Hprints : forall st : ResumeState, exists data, to_vec st = Ok data).

Abbreviation does p w hs a w' hs' := (behaves Exact on_world p (w, hs) [] a (w', hs')).

Lemma does_fs {A} (o : fs_op) (k : fs_ans o -> worker_prog (ares A)) w hs r w1 hs1 τ a st' :
  world_fs w hs o = (Ok r, (w1, hs1)) -> behaves Exact on_world (k r) (w1, hs1) τ a st' ->
  behaves Exact on_world (ptry (fs_q o) k) (w, hs) τ a st' /\
  forall msg, behaves Exact on_world (ptry (fs_ctx msg o) k) (w, hs) τ a st'.
Proof. intros E. apply behaves_fs. simpl. by rewrite E. Qed.

Lemma does_resume {A} (o : resume_op) (k : resume_ans o -> worker_prog A) w hs r st1 τ a st' :
  run on_world (call (S := resume_sig) o) (w, hs) = (r, st1) ->
  behaves Exact on_world (k r) st1 τ a st' ->
  behaves Exact on_world (pbind (resume o) k) (w, hs) τ a st'.
Proof. intros E Hb. exact (behaves_call (S := resume_sig) Exact on_world o _ _ _ _ _ _ _ E Hb). Qed.

Lemma world_in_time : in_time on_world.
Proof. by intros secs [w hs]. Qed.

Lemma world_track {A} (o : tracker_op) (k : unit -> worker_prog A) st τ a st' :
  behaves Exact on_world (k tt) st τ a st' ->
  behaves Exact on_world (pbind (track o) k) st τ a st'.
Proof. apply behaves_track. by destruct st. Qed.

(** A handle not in use. *)
Lemma fresh_handle_new (hs : open_files) : hs !! fresh_handle hs = None.
Proof.
  apply eq_None_not_Some. intros [x Hx]. unfold fresh_handle in Hx.
  assert (Hm : forall l h, h ∈ l -> (h <= foldr N.max 0 l)%N).
  { induction l as [|y l IH]; intros h; [by intros ?%elem_of_nil|]. simpl.
    intros [->|Hh]%elem_of_cons; [lia|]. specialize (IH h Hh). lia. }
  apply elem_of_map_to_list in Hx.
  assert (Hin : (1 + foldr N.max 0 (map_to_list hs).*1)%N ∈ (map_to_list hs).*1)
    by (apply list_elem_of_fmap; by eexists (_, _)).
  apply Hm in Hin. lia.
Qed.

Lemma open_world opts p w hs :
  is_Some (w_vol w !! components p) ->
  world_fs w hs (FsOpen opts p) =
    (Ok (fresh_handle hs), (w, <[fresh_handle hs := (components p, 0%N)]> hs)).
Proof.
  intros Hv. cbn [world_fs]. rewrite decide_True; [done|]. split; [done|apply fresh_handle_new].
Qed.

(** *** Flushing *)

(** Syncing puts on the disk what the files hold. *)
Lemma sync_does ps w hs :
  Forall (fun p => is_Some (w_vol w !! components p)) ps ->
  exists d hs', does (sync_staged_files ps) w hs (Ok tt) (with_dur w d) hs' /\ keeps hs hs' /\
    (forall k : key, k ∈ components <$> ps -> d !! k = w_vol w !! k) /\
    (forall k : key, k ∉ components <$> ps -> d !! k = w_dur w !! k).
Proof.
  unfold sync_staged_files. revert w hs; induction ps as [|p ps IH]; intros w hs Hp.
  - exists (w_dur w), hs. split_and!; [by destruct w; apply bh_ret|reflexivity| |done]. by intros k ?%elem_of_nil.
  - apply Forall_cons in Hp as [[f Hf] Hp]. cbn [sync_paths].
    set (hs1 := <[fresh_handle hs := (components p, 0%N)]> hs).
    set (w1 := with_dur w (<[components p := f]> (w_dur w))).
    destruct (IH w1 hs1) as (d&hs'&Hd&Hk&Hin&Hout); [exact Hp|].
    exists d, hs'. split_and!.
    + apply (does_fs _ _ _ _ _ _ _ _ _ _ (open_world read_write p w hs ltac:(by exists f))).
      eapply does_fs; [|exact Hd]. cbn [world_fs]. unfold hs1. rewrite lookup_insert_eq, Hf. reflexivity.
    + etrans; [|exact Hk]. apply (keeps_fresh genuine), fresh_handle_new.
    + intros k Hk'. destruct (decide (k ∈ components <$> ps)) as [Hin'|Hnot]; [by rewrite Hin|].
      rewrite fmap_cons in Hk'. apply elem_of_cons in Hk' as [->|?]; [|done].
      rewrite Hout by done. unfold w1. simpl. by rewrite lookup_insert_eq.
    + rewrite fmap_cons. intros k [Hne Hnot]%not_elem_of_cons. rewrite Hout by done.
      unfold w1. simpl. by rewrite lookup_insert_ne.
Qed.

Abbreviation state_key := (components (state_file self)).
Abbreviation tmp_key := (components (tmp_file self)).

(** The state is written beside its file and renamed over it. *)
Lemma persist_does st data w hs :
  to_vec st = Ok data ->
  exists v, does (persist_resume_state (state_file self) st) w hs (Ok tt) (with_vol w v) hs /\
    v !! state_key = Some data /\
    forall k : key, k <> state_key -> k <> tmp_key -> v !! k = w_vol w !! k.
Proof.
  intros Hd. unfold persist_resume_state, write_json_atomic. rewrite Hd. cbn [map_err].
  fold (tmp_file self). pose proof (apart_tmp _ Hapart) as Htmp.
  set (v1 := <[tmp_key := data]> (w_vol w)).
  set (there := bool_decide (is_Some (v1 !! state_key))).
  set (v2 := if there then delete state_key v1 else v1).
  assert (Hv2 : v2 !! tmp_key = Some data).
  { unfold v2, v1. destruct there; [rewrite lookup_delete_ne by done|]; apply lookup_insert_eq. }
  exists (<[state_key := data]> (delete tmp_key v2)). split_and!.
  - rewrite <- (app_nil_l []). eapply (behaves_try Exact); [constructor|].
    apply (does_fs (FsWrite _ _) _ _ _ tt (with_vol w v1) hs); [done|].
    apply (does_fs (FsTryExists _) _ _ _ there (with_vol w v1) hs); [done|].
    rewrite <- (app_nil_l []). eapply (behaves_bind Exact _ _ _ _ [] tt (with_vol w v2, hs)).
    + unfold v2. destruct there; [|constructor]. unfold fs_ignore, fs.
      refine (behaves_call (S := fs_sig) Exact on_world (FsRemoveFile _) _ _ _ _ _ _ _ eq_refl _). constructor.
    + refine (proj1 (behaves_fs_last Exact on_world (FsRename _ _) _ tt _ _)).
      cbn [call has_there has_here lift_r run on_world]. unfold world_fs. cbn [w_vol with_vol].
      by rewrite Hv2.
  - apply lookup_insert_eq.
  - intros k Hs Ht. rewrite lookup_insert_ne, lookup_delete_ne by done. unfold v2, v1.
    destruct there; [rewrite lookup_delete_ne by done|]; by rewrite lookup_insert_ne.
Qed.

(** *** What holds between two frames *)

Abbreviation marks w := (marked (state (w_rt w))).

(** The path of a dirty file. *)
Definition dirty_of (w : world) (e : N) : Prop :=
  exists p, staged_at self e p /\ components p ∈ components <$> dirty_paths (w_rt w).

Record standing (st0 : ResumeState) (w : world) (hs : open_files) (cache : gmap N handle) : Prop := {
  st_laid : laid_out (resume_entries self) (state (w_rt w));
  st_staged e entry : regular_entry (resume_entries self) e entry ->
    exists p, stage_path (resume_stage_root self) (rel_path entry) = Ok p /\
      is_Some (w_vol w !! components p);
  st_dirty p : p ∈ dirty_paths (w_rt w) -> exists e, staged_at self e p;
  st_cache : cache_ok self cache hs;
  st_marks e c : marks w e c -> marked st0 e c \/
    (holds self genuine (w_vol w) e c /\ (holds self genuine (w_dur w) e c \/ dirty_of w e));
}.

(** Nothing is left to persist: the state file holds the state. *)
Definition saved (w : world) : Prop :=
  exists data, to_vec (state (w_rt w)) = Ok data /\ w_vol w !! state_key = Some data.

Record settled (w : world) : Prop := {
  set_pending : pending_persist (w_rt w) = 0%N;
  set_dirty : dirty_paths (w_rt w) = [];
  set_saved : saved w;
}.

Lemma staged_there w hs cache st0 e p :
  standing st0 w hs cache -> staged_at self e p -> is_Some (w_vol w !! components p).
Proof.
  intros Hs (entry&He&Hr&Hp). destruct (st_staged _ _ _ _ Hs e entry (conj He Hr)) as (p'&Hp'&Hv).
  rewrite Hp in Hp'. by injection Hp' as <-.
Qed.

Lemma staged_not_state e p : staged_at self e p -> components p <> state_key /\ components p <> tmp_key.
Proof. intros (entry&He&Hr&Hp). by eapply (apart_state _ Hapart). Qed.

(** What flushing a snapshot of dirty files leaves. *)
Definition flushed (w : world) (d v : gmap key bytes) : world :=
  World {| state := state (w_rt w); dirty_paths := []; pending_persist := 0;
           fresh_chunks := fresh_chunks (w_rt w) |} None v d.

Lemma flushed_standing st0 w hs hs' cache d v :
  standing st0 w hs cache -> keeps hs hs' ->
  (forall k : key, k ∈ components <$> dirty_paths (w_rt w) -> d !! k = w_vol w !! k) ->
  (forall k : key, k ∉ components <$> dirty_paths (w_rt w) -> d !! k = w_dur w !! k) ->
  (forall k : key, k <> state_key -> k <> tmp_key -> v !! k = w_vol w !! k) ->
  standing st0 (flushed w d v) hs' cache.
Proof.
  intros Hs Hk Hin Hout Hv. destruct Hs as [Hlaid Hstaged Hdirty Hcache Hmarks].
  assert (Hvol : forall e p, staged_at self e p -> v !! components p = w_vol w !! components p).
  { intros e p [??]%staged_not_state. by apply Hv. }
  split; cbn [w_rt w_vol w_dur flushed state dirty_paths].
  - done.
  - intros e entry Hr. destruct (Hstaged e entry Hr) as (p&Hp&Hv'). exists p. split; [done|].
    rewrite (Hvol e); [done|]. destruct Hr. by exists entry.
  - by intros p ?%elem_of_nil.
  - by eapply cache_keeps.
  - intros e c Hm. destruct (Hmarks e c Hm) as [?|[Hh Hd]]; [by left|right].
    split; [by eapply holds_same; [|exact Hh]; intros; eapply Hvol|left].
    destruct (proj1 (holds_file _ _ _ _ _) Hh) as (p&f&Hp&Hf&Hhf).
    destruct (decide (components p ∈ components <$> dirty_paths (w_rt w))) as [Hi|Hi].
    + apply holds_file. exists p, f. by rewrite (Hin _ Hi).
    + destruct Hd as [Hd|(p'&Hp'&Hi')].
      * eapply holds_same; [|exact Hd]. intros p' Hp'.
        rewrite (staged_unique _ _ _ _ Hp' Hp). by apply Hout.
      * by rewrite (staged_unique _ _ _ _ Hp' Hp) in Hi'.
Qed.

Lemma flush_does st0 w hs cache :
  standing st0 w hs cache -> (pending_persist (w_rt w) = 0%N -> saved w) ->
  exists w' hs', does (flush_pending self) w hs (Ok tt) w' hs' /\ standing st0 w' hs' cache /\
    settled w' /\ state (w_rt w') = state (w_rt w).
Proof.
  intros Hs Hsaved. unfold flush_pending, with_persist_lock.
  destruct (decide (pending_persist (w_rt w) = 0%N /\ dirty_paths (w_rt w) = [])) as [[Hp Hd]|Hne].
  { exists (with_lock w None), hs. split_and!.
    - apply (does_resume PersistLock _ _ _ tt (with_lock w (Some 0), hs)); [done|].
      apply behaves_assoc.
      apply (does_resume TakeSnapshot _ _ _ None (with_lock w (Some 0), hs)).
      { cbn. unfold take_snapshot. rewrite Hp, Hd. by destruct w. }
      apply (does_resume PersistUnlock _ _ _ tt (with_lock w None, hs)); [by destruct w|]. apply bh_ret.
    - by destruct Hs; split.
    - split; [done..|]. by apply Hsaved.
    - done. }
  destruct (Hprints (state (w_rt w))) as [data Hdata].
  set (w1 := World {| state := state (w_rt w); dirty_paths := []; pending_persist := 0;
                      fresh_chunks := fresh_chunks (w_rt w) |} (Some 0) (w_vol w) (w_dur w)).
  destruct (sync_does (dirty_paths (w_rt w)) w1 hs) as (d&hs'&Hsync&Hk&Hin&Hout).
  { apply Forall_forall. intros p (e&He)%(st_dirty _ _ _ _ Hs). exact (staged_there _ _ _ _ _ _ Hs He). }
  destruct (persist_does (state (w_rt w)) data (with_dur w1 d) hs' Hdata) as (v&Hpersist&Hst&Hv).
  exists (flushed w d v), hs'. split_and!.
  - apply (does_resume PersistLock _ _ _ tt (with_lock w (Some 0), hs)); [done|].
    apply behaves_assoc.
    apply (does_resume TakeSnapshot _ _ _ (Some (state (w_rt w), dirty_paths (w_rt w))) (w1, hs)).
    { cbn. unfold take_snapshot. destruct (pending_persist (w_rt w)), (dirty_paths (w_rt w)); try done.
      by destruct Hne. }
    rewrite <- (app_nil_l []). eapply (behaves_bind Exact _ _ _ _ [] (Ok tt)).
    { cbn [flush_snapshot]. rewrite <- (app_nil_l []). eapply (behaves_try Exact); [exact Hsync|exact Hpersist]. }
    apply (does_resume PersistUnlock _ _ _ tt (flushed w d v, hs')); [done|]. apply bh_ret.
  - by eapply flushed_standing.
  - split; [done..|]. by exists data.
  - done.
Qed.

(** *** Storing a chunk *)

(** What a mark leaves, in the range of the file. *)
Definition mark_leaves (r : ResumeRuntime) (e c : N) (path : string) (r' : ResumeRuntime) : Prop :=
  dirty_paths r' = insert_path path (dirty_paths r) /\
  pending_persist r' = add_u64 (pending_persist r) 1 /\
  laid_out (resume_entries self) (state r') /\
  forall e' c', marked (state r') e' c' <-> marked (state r) e' c' \/ (e' = e /\ c' = c).

Lemma mark_does r e entry c path :
  laid_out (resume_entries self) (state r) -> regular_entry (resume_entries self) e entry ->
  (c < chunk_count entry)%N ->
  exists r', mark_locked r e c path =
    (Ok (RESUME_FLUSH_EVERY_CHUNKS <=? add_u64 (pending_persist r) 1)%N, r') /\
    mark_leaves r e c path r'.
Proof.
  intros Hl Hr Hc. destruct (find_laid _ _ _ _ Hl Hr) as (f&Hf&Hn). unfold mark_locked. rewrite Hf.
  unfold nlen in Hn. assert (Hlt : N.to_nat c < length (completed f)) by lia.
  destruct (lookup_lt_is_Some_2 _ _ Hlt) as [b Hb]. rewrite Hb. eexists. split; [done|].
  split_and!; [done|done| |].
  - cbn [state]. apply laid_out_update; [|done]. intros l. apply length_insert.
  - intros e' c'. unfold marked. cbn [state files with_files]. rewrite find_update.
    destruct (N.eqb_spec e e') as [<-|Hne]; [|naive_solver].
    rewrite Hf. simpl. split.
    + intros (f'&[= <-]&Hc'). simpl in Hc'.
      destruct (decide (c' = c)) as [->|]; [by right|left].
      exists f. split; [done|]. rewrite list_lookup_insert_ne in Hc'; [done|lia].
    + intros Hm. eexists. split; [done|]. simpl.
      destruct (decide (c' = c)) as [->|Hne]; [by apply list_lookup_insert_eq|].
      rewrite list_lookup_insert_ne by lia. destruct Hm as [(f'&[= <-]&?)|[_ ->]]; done.
Qed.

(** Between two frames fewer than eight marks wait to be persisted. *)
Record going (st0 : ResumeState) (w : world) (hs : open_files) (cache : gmap N handle) : Prop := {
  go_standing : standing st0 w hs cache;
  go_pending : (pending_persist (w_rt w) < RESUME_FLUSH_EVERY_CHUNKS)%N;
  go_saved : pending_persist (w_rt w) = 0%N -> saved w;
}.

Lemma insert_path_elem p x ps : x ∈ insert_path p ps -> x = p \/ x ∈ ps.
Proof.
  induction ps as [|y ps IH]; cbn [insert_path]; [by intros ?%list_elem_of_singleton; left|].
  case_decide; [by right|]. destruct (path_ltb _ _); rewrite !elem_of_cons; naive_solver.
Qed.

(** A chunk that was written at its place is marked. *)
Lemma marked_standing st0 w hs hs' cache cache' h e entry c path payload f r' :
  standing st0 w hs cache -> cache_ok self cache' hs' ->
  regular_entry (resume_entries self) e entry ->
  stage_path (resume_stage_root self) (rel_path entry) = Ok path ->
  stores self genuine hs' h payload e c ->
  hs' !! h = Some (components path, c * CHUNK_SIZE)%N ->
  w_vol w !! components path = Some f ->
  mark_leaves (w_rt w) e c path r' ->
  standing st0
    (World r' (w_lock w)
       (<[components path := splice (N.to_nat (c * CHUNK_SIZE)) payload f]> (w_vol w)) (w_dur w))
    hs' cache'.
Proof.
  intros Hs Hc Hr Hp Hst Hh Hf (Hdirty&_&Hlaid&Hmarks).
  assert (Hat : staged_at self e path) by (destruct Hr; by exists entry).
  split; cbn [w_rt w_vol w_dur].
  - done.
  - intros e' entry' Hr'. destruct (st_staged _ _ _ _ Hs e' entry' Hr') as (p&Hp'&Hv).
    exists p. split; [done|]. apply lookup_insert_is_Some'. by right.
  - intros p. rewrite Hdirty. intros [->|Hin]%insert_path_elem; [by exists e|by apply (st_dirty _ _ _ _ Hs)].
  - done.
  - intros e' c' [Hm|[-> ->]]%Hmarks.
    + destruct (st_marks _ _ _ _ Hs e' c' Hm) as [?|[Hv Hd]]; [by left|right]. split.
      * rewrite <- (firstn_all payload). by eapply (holds_splice self genuine Hapart).
      * destruct Hd as [Hd|(p&Hp'&Hin)]; [by left|right]. exists p. split; [done|].
        cbn [w_rt]. rewrite Hdirty. by apply insert_path_old.
    + right. split; [by eapply (holds_stored self genuine)|right]. exists path. split; [done|].
      cbn [w_rt]. rewrite Hdirty. apply insert_path_new.
Qed.

Lemma mark_chunk_does st0 w hs cache e entry c path r' :
  regular_entry (resume_entries self) e entry -> (c < chunk_count entry)%N ->
  laid_out (resume_entries self) (state (w_rt w)) ->
  (pending_persist (w_rt w) < RESUME_FLUSH_EVERY_CHUNKS)%N ->
  mark_locked (w_rt w) e c path =
    (Ok (RESUME_FLUSH_EVERY_CHUNKS <=? add_u64 (pending_persist (w_rt w)) 1)%N, r') ->
  mark_leaves (w_rt w) e c path r' ->
  standing st0 (with_rt w r') hs cache ->
  exists w' hs', does (mark_chunk_complete self e c path) w hs (Ok tt) w' hs' /\
    going st0 w' hs' cache /\ state (w_rt w') = state r'.
Proof.
  intros Hr Hc Hl Hp Em (_&Hpend&_&_) Hs. unfold mark_chunk_complete.
  unfold add_u64 in *. rewrite N.mod_small in Em, Hpend by (unfold RESUME_FLUSH_EVERY_CHUNKS in Hp; lia).
  assert (E : run on_world (call (S := resume_sig) (Mark e c path)) (w, hs) =
    (Ok (RESUME_FLUSH_EVERY_CHUNKS <=? pending_persist (w_rt w) + 1)%N, (with_rt w r', hs)))
    by (cbn; by rewrite Em).
  destruct (N.leb_spec RESUME_FLUSH_EVERY_CHUNKS (pending_persist (w_rt w) + 1)) as [Hle|Hlt].
  - destruct (flush_does st0 (with_rt w r') hs cache Hs) as (w'&hs'&Hd&Hs'&Hset&Hst).
    { cbn [w_rt with_rt]. rewrite Hpend. lia. }
    exists w', hs'. split_and!; [|split; [done| |]|done].
    + eapply does_resume; [exact E|]. exact Hd.
    + by rewrite (set_pending _ Hset).
    + intros _. apply Hset.
  - exists (with_rt w r'), hs. split_and!; [|split; [done| |]|done].
    + eapply does_resume; [exact E|]. apply bh_ret.
    + cbn [w_rt with_rt]. by rewrite Hpend.
    + cbn [w_rt with_rt]. rewrite Hpend. lia.
Qed.

Lemma cached_does w hs cache e path msg :
  cache_ok self cache hs -> staged_at self e path -> is_Some (w_vol w !! components path) ->
  exists h cache' hs' off,
    does (cached cache e (fs_ctx msg (FsOpen write_only path))) w hs (Ok (h, cache')) w hs' /\
    hs' !! h = Some (components path, off) /\ cache_ok self cache' hs'.
Proof.
  intros Hc Hp Hv. unfold cached. destruct (cache !! e) as [h|] eqn:E.
  - destruct (Hc e h E) as (p&off&Hp'&Hh). rewrite (staged_unique _ _ _ _ Hp' Hp) in Hh.
    exists h, cache, hs, off. split_and!; [apply bh_ret|done|done].
  - set (hs1 := <[fresh_handle hs := (components path, 0%N)]> hs).
    exists (fresh_handle hs), (<[e := fresh_handle hs]> cache), hs1, 0%N. split_and!.
    + apply (does_fs _ _ _ _ _ _ _ _ _ _ (open_world write_only path w hs Hv)). apply bh_ret.
    + apply lookup_insert_eq.
    + intros e' h'. destruct (decide (e = e')) as [<-|Hne].
      * rewrite lookup_insert_eq. intros [= <-]. exists path, 0%N. split; [done|]. apply lookup_insert_eq.
      * rewrite lookup_insert_ne by done. apply (cache_keeps self cache hs hs1); [done|].
        apply (keeps_fresh genuine), fresh_handle_new.
Qed.

(** A chunk is stored and marked, unless it is complete already. *)
Lemma store_does st0 w hs cache e entry s c payload :
  going st0 w hs cache -> regular_entry (resume_entries self) e entry -> size entry = Some s ->
  (c < chunk_count entry)%N -> nlen payload = chunk_len s c -> genuine e c payload ->
  exists cache' w' hs',
    does (store_chunk self entry e c (c * CHUNK_SIZE) payload cache) w hs (Ok cache') w' hs' /\
    going st0 w' hs' cache' /\
    forall e' c', marks w' e' c' <-> marks w e' c' \/ (e' = e /\ c' = c).
Proof.
  intros [Hs Hpend Hsaved] Hr Hsz Hc Hlen Hg. unfold store_chunk.
  pose proof (st_laid _ _ _ _ Hs) as Hlaid.
  destruct (find_laid _ _ _ _ Hlaid Hr) as (file&Hf&Hn).
  assert (E : run on_world (call (S := resume_sig) (IsChunkComplete e c)) (w, hs) =
    (Ok (default false (completed file !! N.to_nat c)), (w, hs))).
  { cbn. unfold is_chunk_complete_locked. rewrite Hf. by destruct w. }
  destruct (completed file !! N.to_nat c) as [[|]|] eqn:Ec.
  1: { exists cache, w, hs. split_and!; [|by split|].
    - eapply does_resume; [exact E|]. apply bh_ret.
    - intros e' c'. split; [by left|]. intros [?|[-> ->]]; [done|]. by exists file. }
  2: { apply lookup_ge_None in Ec. unfold nlen in Hn. lia. }
  destruct (st_staged _ _ _ _ Hs e entry Hr) as (path&Hp&[f Hv]).
  assert (Hat : staged_at self e path) by (destruct Hr; by exists entry).
  destruct (cached_does w hs cache e path
    ("failed to open staged file " +:+ to_string_lossy path) (st_cache _ _ _ _ Hs) Hat ltac:(by exists f))
    as (h&cache'&hs1&off&Hopen&Hh&Hcache').
  destruct (mark_does (w_rt w) e entry c path Hlaid Hr Hc) as (r'&Em&Hleaves).
  set (q := components path) in *.
  set (hs2 := <[h := (q, c * CHUNK_SIZE)%N]> hs1).
  set (v := <[q := splice (N.to_nat (c * CHUNK_SIZE)) payload f]> (w_vol w)).
  set (hs3 := <[h := (q, c * CHUNK_SIZE + nlen payload)%N]> hs2).
  assert (Hk2 : keeps hs1 hs2) by (by eapply keeps_move).
  assert (Hh2 : hs2 !! h = Some (q, c * CHUNK_SIZE)%N) by apply lookup_insert_eq.
  assert (Hst : standing st0 (with_rt (with_vol w v) r') hs3 cache').
  { destruct (marked_standing st0 w hs hs2 cache cache' h e entry c path payload f r') as [? ? ? Hc2 ?]; try done.
    - by eapply cache_keeps.
    - exists q, entry, path, s. by destruct Hr.
    - split; try done. eapply cache_keeps; [exact Hc2|]. by eapply keeps_move. }
  destruct (mark_chunk_does st0 (with_vol w v) hs3 cache' e entry c path r') as (w'&hs'&Hd&Hgo&Hst'); try done.
  exists cache', w', hs'. split_and!; [|done|].
  - eapply does_resume; [exact E|]. simpl default. cbv match.
    rewrite Hp. rewrite <- (app_nil_l []). eapply (behaves_try Exact); [apply bh_ret|].
    rewrite <- (app_nil_l []). eapply (behaves_try Exact); [exact Hopen|]. cbv beta match.
    eapply does_fs; [cbn [world_fs]; rewrite Hh; reflexivity|].
    eapply does_fs; [cbn [world_fs]; fold hs2; rewrite Hh2; rewrite Hv; reflexivity|].
    rewrite <- (app_nil_l []). eapply (behaves_try Exact); [exact Hd|]. apply bh_ret.
  - intros e' c'. rewrite Hst'. by apply Hleaves.
Qed.

(** *** The frames *)

(** A task with the bytes the sender reads for it. *)
Abbreviation chunk := (ChunkTask * bytes)%type.

Definition chunk_frame (t : chunk) : Frame :=
  ChunkStart (task_entry_id t.1) (task_chunk_index t.1) (task_offset t.1) (task_len t.1)
    (blake3_hash_hex t.2).

Definition chunks_wire (ts : list chunk) : bytes :=
  concat ((fun t => frame_bytes (chunk_frame t) ++ t.2) <$> ts).

(** The task is a chunk of a regular file of the manifest. *)
Definition of_manifest (t : chunk) : Prop :=
  exists entry s, regular_entry (resume_entries self) (task_entry_id t.1) entry /\
    size entry = Some s /\ (task_chunk_index t.1 < chunk_count entry)%N /\
    task_offset t.1 = (task_chunk_index t.1 * CHUNK_SIZE)%N /\
    task_len t.1 = chunk_len s (task_chunk_index t.1) /\ nlen t.2 = task_len t.1 /\
    genuine (task_entry_id t.1) (task_chunk_index t.1) t.2 /\ fits (chunk_frame t).

Definition is_chunk_of (ts : list chunk) (e c : N) : Prop :=
  exists t, t ∈ ts /\ e = task_entry_id t.1 /\ c = task_chunk_index t.1.

Lemma geometry_fits entry s c :
  size entry = Some s -> (c < chunk_count entry)%N ->
  validate_chunk_geometry entry c (c * CHUNK_SIZE) (chunk_len s c) = Ok tt.
Proof.
  intros Hs Hc. unfold validate_chunk_geometry, anyhow_context. rewrite Hs. cbn [ok_or rbind].
  destruct (N.leb_spec (chunk_count entry) c); [lia|]. by rewrite !N.eqb_refl.
Qed.

Lemma receive_does st0 w hs cache t stall :
  going st0 w hs cache -> of_manifest t ->
  exists cache' w' hs',
    behaves Exact on_world
      (receive_chunk self stall (task_entry_id t.1) (task_chunk_index t.1) (task_offset t.1)
         (task_len t.1) (blake3_hash_hex t.2) cache) (w, hs) (rcvs t.2) (Ok cache') (w', hs') /\
    going st0 w' hs' cache' /\
    forall e c, marks w' e c <-> marks w e c \/ is_chunk_of [t] e c.
Proof.
  intros Hgo (entry&s&Hr&Hs&Hc&Hoff&Hlen&Hpay&Hg&_).
  rewrite Hlen in Hpay. rewrite Hoff, Hlen.
  destruct (store_does st0 w hs cache _ entry s _ t.2 Hgo Hr Hs Hc Hpay Hg)
    as (cache'&w'&hs'&Hstore&Hgo'&Hmarks).
  exists cache', w', hs'. split_and!; [|done|].
  - unfold receive_chunk. destruct Hr as [He Hk]. rewrite He.
    rewrite <- (app_nil_l (rcvs _)). eapply (behaves_try Exact); [apply bh_ret|].
    rewrite Hk. cbn [is_regular_file negb]. rewrite (geometry_fits _ _ _ Hs Hc).
    rewrite <- (app_nil_l (rcvs _)). eapply (behaves_try Exact); [apply bh_ret|].
    rewrite <- (app_nil_r (rcvs _)).
    eapply (behaves_try Exact); [by apply io_read_exact_idle_behaves|].
    rewrite String.eqb_refl. cbn [negb].
    rewrite <- (app_nil_l []). eapply (behaves_try Exact); [exact Hstore|].
    rewrite <- (app_nil_l []). eapply (behaves_bind Exact _ _ _ _ [] tt (w', hs')).
    { destruct (_ =? 0)%N; [|apply bh_ret]. apply (world_track AddFile Ret), bh_ret. }
    rewrite <- (app_nil_l []). eapply (behaves_bind Exact _ _ _ _ [] tt (w', hs')).
    { destruct (String.eqb _ _); [apply bh_ret|]. apply (world_track (SetCurrent _) Ret), bh_ret. }
    apply world_track, bh_ret.
  - intros e c. rewrite Hmarks. unfold is_chunk_of. split; (intros [?|Hx]; [by left|right]).
    + destruct Hx. exists t. split; [by left|done].
    + by destruct Hx as (t'&->%list_elem_of_singleton&?&?).
Qed.

(** *** A worker *)

Lemma loop_does ts : forall st0 w hs cache fuel stall,
  going st0 w hs cache -> Forall of_manifest ts -> length ts < fuel ->
  fits WorkerDone -> fits WorkerComplete ->
  exists w' hs' cache',
    behaves Exact on_world (worker_loop fuel self stall cache) (w, hs)
      (rcvs (chunks_wire ts) ++ rcvs (frame_bytes WorkerDone) ++ snds (frame_bytes WorkerComplete))
      (Ok tt) (w', hs') /\
    standing st0 w' hs' cache' /\ settled w' /\
    forall e c, marks w' e c <-> marks w e c \/ is_chunk_of ts e c.
Proof.
  induction ts as [|t ts IH]; intros st0 w hs cache fuel stall Hgo Hts Hfuel Hdone Hcomplete;
    (destruct fuel as [|fuel]; [simpl in Hfuel; lia|]); cbn [worker_loop].
  - destruct (flush_does st0 w hs cache (go_standing _ _ _ _ Hgo) (go_saved _ _ _ _ Hgo))
      as (w'&hs'&Hflush&Hs&Hset&Hst).
    exists w', hs', cache. split_and!; [|done..|].
    + change (rcvs (chunks_wire [])) with ([] : list act). rewrite app_nil_l. eapply (behaves_try Exact).
      { apply with_stall_behaves; [apply world_in_time|]. exact (io_recv_frame_behaves on_world _ _ _ Hdone). }
      cbv match. rewrite <- (app_nil_l (snds _)). eapply (behaves_try Exact); [exact Hflush|].
      apply io_send_frame_behaves, Hcomplete.
    + intros e c. rewrite Hst. split; [by left|]. intros [?|(t&?%elem_of_nil&_)]; done.
  - apply Forall_cons in Hts as [Ht Hts]. simpl in Hfuel.
    destruct (receive_does st0 w hs cache t stall Hgo Ht) as (cache1&w1&hs1&Hrec&Hgo1&Hm1).
    destruct (IH st0 w1 hs1 cache1 fuel stall Hgo1 Hts ltac:(lia) Hdone Hcomplete)
      as (w'&hs'&cache'&Hloop&Hs&Hset&Hm).
    exists w', hs', cache'. split_and!; [|done..|].
    + unfold chunks_wire. rewrite fmap_cons. cbn [concat]. rewrite !rcvs_app, <- !app_assoc.
      destruct Ht as (?&?&_&_&_&_&_&_&_&Hfit).
      eapply (behaves_try Exact).
      { apply with_stall_behaves; [apply world_in_time|]. exact (io_recv_frame_behaves on_world _ _ _ Hfit). }
      cbv match. unfold chunk_frame. cbv match. eapply (behaves_try Exact); [exact Hrec|]. exact Hloop.
    + intros e c. rewrite Hm, Hm1. unfold is_chunk_of. split.
      * intros [[?|(t'&->%list_elem_of_singleton&?)]|(t'&?&?)]; [by left|right..].
        -- exists t. split; [by left|done].
        -- exists t'. split; [by right|done].
      * intros [?|(t'&[->|?]%elem_of_cons&?)]; [by left; left| |].
        -- left; right. exists t. split; [by apply list_elem_of_singleton|done].
        -- right. by exists t'.
Qed.

Lemma worker_does st0 w hs ts fuel stall :
  going st0 w hs ∅ -> Forall of_manifest ts -> length ts < fuel ->
  fits (WorkerHello (resume_transfer_id self)) -> fits WorkerDone -> fits WorkerComplete ->
  exists w' hs' cache',
    behaves Exact on_world (handle_worker_connection fuel self stall) (w, hs)
      (rcvs (frame_bytes (WorkerHello (resume_transfer_id self))) ++ rcvs (chunks_wire ts) ++
       rcvs (frame_bytes WorkerDone) ++ snds (frame_bytes WorkerComplete))
      (Ok tt) (w', hs') /\
    standing st0 w' hs' cache' /\ settled w' /\
    forall e c, marks w' e c <-> marks w e c \/ is_chunk_of ts e c.
Proof.
  intros Hgo Hts Hfuel Hhello Hdone Hcomplete.
  destruct (loop_does ts st0 w hs ∅ fuel stall Hgo Hts Hfuel Hdone Hcomplete)
    as (w1&hs1&cache1&Hloop&Hs1&Hset1&Hm1).
  destruct (flush_does st0 w1 hs1 cache1 Hs1 (fun _ => set_saved _ Hset1))
    as (w'&hs'&Hflush&Hs&Hset&Hst).
  exists w', hs', cache1. split_and!; [|done..|].
  - unfold handle_worker_connection.
    eapply (behaves_try Exact).
    { apply with_stall_behaves; [apply world_in_time|]. by apply (expect_frame_behaves on_world _ _ _ Hhello). }
    cbv match. rewrite String.eqb_refl. cbn [negb]. apply world_track.
    rewrite <- (app_nil_r (_ ++ _)). eapply (behaves_bind Exact); [exact Hloop|].
    cbn [worker_end]. rewrite <- (app_nil_l []). eapply (behaves_bind Exact); [exact Hflush|].
    cbn [pbind]. apply world_track, bh_ret.
  - intros e c. by rewrite Hst, Hm1.
Qed.
End Receiver.

(** ** The sender's side *)

(** One worker has the queue to itself. *)
Definition queue_handler : handler queue_sig (list ChunkTask * N) :=
  fun o st =>
    match o return resp (s := queue_sig) o * (list ChunkTask * N) with
    | PopTask => (head st.1, (tl st.1, st.2))
    | CountSent => ((st.2 + 1)%N, (st.1, (st.2 + 1)%N))
    end.

(** The listener is there. *)
Definition dial_handler : handler dial_sig unit :=
  fun o st =>
    match o return resp (s := dial_sig) o * unit with
    | TcpConnect => (Ok tt, st)
    | SleepDelay => (tt, st)
    end.

Definition sender_sig : sig := timer_sig ⊕ (fs_sig ⊕ (queue_sig ⊕ (tracker_sig ⊕ dial_sig))).
Abbreviation sender_state := (unit * (disk * ((list ChunkTask * N) * (ProgressShared * unit))))%type.

Definition at_sender : handler sender_sig sender_state :=
  hsum on_time (hsum disk_handler (hsum queue_handler (hsum tracker_handler dial_handler))).

Section Sender.
Context `{JsonLaws Frame} `{Blake3} `{Hex} `{FrameText}.

Definition sending (d : disk) (tasks : list ChunkTask) (n : N) (t : ProgressShared) : sender_state :=
  (tt, (d, ((tasks, n), (t, tt)))).

Lemma sender_in_time : in_time at_sender.
Proof. by intros secs [[] [d [[q n] [t []]]]]. Qed.

Lemma sender_fs o d q n t :
  run at_sender (call (S := fs_sig) o) (sending d q n t) =
    ((disk_handler o d).1, sending (disk_handler o d).2 q n t).
Proof. done. Qed.

Lemma sender_track o d q n t :
  run at_sender (call (S := tracker_sig) o) (sending d q n t) = (tt, sending d q n (tracker_step o t)).
Proof. done. Qed.

(** The file of the task holds its bytes at its offset. *)
Definition sourced (nodes : gmap key node) (t : ChunkTask * bytes) : Prop :=
  exists data, nodes !! components (task_path t.1) = Some (NFile data) /\
    take (N.to_nat (task_len t.1)) (drop (N.to_nat (task_offset t.1)) data) = t.2 /\
    nlen t.2 = task_len t.1.

(** The handles of the cache are open on its paths, and new ones are new. *)
Definition opens (d : disk) (cache : gmap key handle) : Prop :=
  forall (k : key) h, cache !! k = Some h -> (h < d_next d)%N /\ exists pos, d_open d !! h = Some (k, pos).

Lemma read_does d cache q n tr t :
  opens d cache -> sourced (d_nodes d) t ->
  exists cache' d',
    behaves Exact at_sender (read_chunk t.1 cache) (sending d q n tr) [] (Ok (t.2, cache'))
      (sending d' q n tr) /\
    opens d' cache' /\ d_nodes d' = d_nodes d.
Proof.
  intros Hc (data&Hn&Hd&Hl). unfold read_chunk. set (k := components (task_path t.1)) in *.
  assert (Hopen : exists h cache1 d1 pos,
    behaves Exact at_sender (cached cache k
      (fs_ctx ("failed to open source file " +:+ to_string_lossy (task_path t.1))
        (FsOpen read_only (task_path t.1)))) (sending d q n tr) [] (Ok (h, cache1)) (sending d1 q n tr) /\
    opens d1 cache1 /\ d_nodes d1 = d_nodes d /\ d_open d1 !! h = Some (k, pos)).
  { unfold cached. destruct (cache !! k) as [h|] eqn:E.
    - destruct (Hc k h E) as [Hlt [pos Hp]]. exists h, cache, d, pos. split_and!; [apply bh_ret|done..].
    - exists (d_next d), (<[k := d_next d]> cache), (opened_file d (d_nodes d) k), 0%N. split_and!.
      + eapply (behaves_fs Exact at_sender (FsOpen read_only _) (fun f => Ret (Ok (f, <[k := f]> cache))));
          [|apply bh_ret].
        rewrite sender_fs. cbn [disk_handler]. fold k. rewrite Hn. reflexivity.
      + intros k' h'. destruct (decide (k = k')) as [<-|Hne].
        * rewrite lookup_insert_eq. intros [= <-]. simpl. split; [lia|]. rewrite lookup_insert_eq. eauto.
        * rewrite lookup_insert_ne by done. intros Hh. destruct (Hc k' h' Hh) as [Hlt [pos Hp]].
          simpl. split; [lia|]. rewrite lookup_insert_ne by lia. eauto.
      + done.
      + simpl. by rewrite lookup_insert_eq. }
  destruct Hopen as (h&cache1&d1&pos&Hb&Hc1&Hn1&Hh).
  set (d2 := at_position d1 h k (task_offset t.1)).
  exists cache1, (at_position d2 h k (task_offset t.1 + task_len t.1)%N). split_and!.
  - rewrite <- (app_nil_l []). eapply (behaves_try Exact); [exact Hb|]. cbv beta match.
    eapply (behaves_fs Exact at_sender (FsSeek h _)); [rewrite sender_fs; cbn [disk_handler]; rewrite Hh; reflexivity|]. fold d2.
    rewrite <- (app_nil_l []). eapply (behaves_try Exact).
    { refine (proj1 (behaves_fs_last Exact at_sender (FsReadExact h (task_len t.1)) _ t.2 _ _)).
      change (Ok tt, d2).2 with d2. rewrite sender_fs.
      assert (E : disk_handler (FsReadExact h (task_len t.1)) d2 =
        (Ok t.2, at_position d2 h k (task_offset t.1 + task_len t.1)%N)).
      { cbn [disk_handler]. unfold d2 at 1 2. cbn [d_open at_position d_nodes].
        by rewrite lookup_insert_eq, Hn1, Hn, Hd, Hl, N.eqb_refl. }
      by rewrite E. }
    apply bh_ret.
  - intros k' h' Hk. destruct (Hc1 k' h' Hk) as [Hlt [pos' Hp]]. simpl. split; [done|].
    destruct (decide (h = h')) as [<-|Hne].
    + rewrite lookup_insert_eq. rewrite Hh in Hp. injection Hp as <- <-. eauto.
    + rewrite !lookup_insert_ne by done. eauto.
  - done.
Qed.

Lemma send_chunk_does d cache q n tr t stall :
  opens d cache -> sourced (d_nodes d) t -> fits (chunk_frame t) ->
  exists cache' d' tr',
    behaves Exact at_sender (send_chunk t.1 None stall cache) (sending d q n tr)
      (snds (frame_bytes (chunk_frame t)) ++ snds t.2) (Ok cache') (sending d' q (n + 1) tr') /\
    opens d' cache' /\ d_nodes d' = d_nodes d.
Proof.
  intros Hc Hs Hf. unfold send_chunk.
  set (tr1 := if (task_chunk_index t.1 =? 0)%N then add_file tr else tr).
  set (tr2 := if negb (String.eqb (task_rel_path t.1) "")
              then set_current tr1 (display_rel_path (task_rel_path t.1)) else tr1).
  destruct (read_does d cache q n tr2 t Hc Hs) as (cache'&d'&Hread&Hc'&Hn').
  exists cache', d', (add_bytes tr2 (task_len t.1)). split_and!; [|done..].
  rewrite <- (app_nil_l (snds _ ++ _)).
  eapply (behaves_bind Exact _ _ _ _ [] tt (sending d q n tr1)).
  { unfold tr1. destruct (_ =? 0)%N; [|apply bh_ret].
    exact (behaves_track Exact at_sender AddFile Ret _ _ _ _ _ (sender_track _ _ _ _ _) (bh_ret _ _ _ _)). }
  rewrite <- (app_nil_l (snds _ ++ _)).
  eapply (behaves_bind Exact _ _ _ _ [] tt (sending d q n tr2)).
  { unfold tr2. destruct (negb _); [|apply bh_ret].
    exact (behaves_track Exact at_sender (SetCurrent _) Ret _ _ _ _ _ (sender_track _ _ _ _ _) (bh_ret _ _ _ _)). }
  rewrite <- (app_nil_l (snds _ ++ _)). eapply (behaves_try Exact); [exact Hread|]. cbv beta match.
  eapply (behaves_try Exact); [exact (io_send_frame_behaves at_sender _ _ _ Hf)|].
  rewrite <- (app_nil_r (snds _)). eapply (behaves_try Exact); [apply io_write_all_idle_behaves|].
  eapply behaves_track; [apply sender_track|].
  refine (behaves_call (S := queue_sig) Exact at_sender CountSent _ _ _ _ _ _ _ eq_refl _). apply bh_ret.
Qed.

Lemma send_loop_does ts : forall d cache n tr fuel stall,
  opens d cache -> Forall (sourced (d_nodes d)) ts -> Forall (fun t => fits (chunk_frame t)) ts ->
  length ts < fuel -> fits WorkerDone ->
  exists st',
    behaves Exact at_sender (send_loop fuel None stall cache) (sending d ts.*1 n tr)
      (snds (chunks_wire ts) ++ snds (frame_bytes WorkerDone)) (Ok tt) st' /\
    exists d' tr', st' = sending d' [] (n + nlen ts) tr'.
Proof.
  induction ts as [|t ts IH]; intros d cache n tr fuel stall Hc Hs Hf Hfuel Hdone;
    (destruct fuel as [|fuel]; [simpl in Hfuel; lia|]); cbn [send_loop].
  - exists (sending d [] n tr). split; [|exists d, tr; by rewrite nlen_nil, N.add_0_r].
    refine (behaves_call (S := queue_sig) Exact at_sender PopTask _ _ _ _ _ _ _ eq_refl _).
    change (snds (chunks_wire [])) with ([] : list act). rewrite app_nil_l.
    exact (io_send_frame_behaves at_sender _ _ _ Hdone).
  - apply Forall_cons in Hs as [Ht Hs]. apply Forall_cons in Hf as [Hft Hf]. simpl in Hfuel.
    destruct (send_chunk_does d cache ts.*1 n tr t stall Hc Ht Hft) as (cache1&d1&tr1&Hsend&Hc1&Hn1).
    destruct (IH d1 cache1 (n + 1)%N tr1 fuel stall) as (st'&Hloop&d'&tr'&->);
      [done|by rewrite Hn1|done|lia|done|].
    exists (sending d' [] (n + 1 + nlen ts) tr'). split.
    + refine (behaves_call (S := queue_sig) Exact at_sender PopTask _ _ _ _ _ _ _ eq_refl _).
      cbv beta iota. change (chunks_wire (t :: ts)) with ((frame_bytes (chunk_frame t) ++ t.2) ++ chunks_wire ts).
      rewrite !snds_app, <- !app_assoc, app_assoc.
      eapply (behaves_try Exact); [exact Hsend|exact Hloop].
    + exists d', tr'. rewrite nlen_cons. by rewrite N.add_assoc.
Qed.

Lemma sender_does ts d n tr fuel id stall :
  opens d ∅ -> Forall (sourced (d_nodes d)) ts -> Forall (fun t => fits (chunk_frame t)) ts ->
  length ts < fuel -> fits (WorkerHello id) -> fits WorkerDone -> fits WorkerComplete ->
  exists st',
    behaves Exact at_sender (sender_worker fuel id None stall) (sending d ts.*1 n tr)
      (snds (frame_bytes (WorkerHello id)) ++ snds (chunks_wire ts) ++
       snds (frame_bytes WorkerDone) ++ rcvs (frame_bytes WorkerComplete)) (Ok tt) st' /\
    exists d' tr', st' = sending d' [] (n + nlen ts) tr'.
Proof.
  intros Hc Hs Hf Hfuel Hhello Hdone Hcomplete.
  destruct (send_loop_does ts d ∅ n (worker_started tr) fuel stall Hc Hs Hf Hfuel Hdone)
    as (st1&Hloop&d'&tr'&->).
  exists (sending d' [] (n + nlen ts) (worker_finished tr')). split; [|eauto].
  unfold sender_worker. rewrite <- (app_nil_l (snds _ ++ _)).
  eapply (behaves_try Exact _ _ _ _ [] tt).
  { unfold connect_local. cbn [connect_retry LOCAL_CONNECT_RETRIES].
    refine (behaves_call (S := dial_sig) Exact at_sender TcpConnect _ _ _ _ _ _ _ eq_refl _). apply bh_ret. }
  eapply (behaves_try Exact); [exact (io_send_frame_behaves at_sender _ _ _ Hhello)|].
  eapply behaves_track; [apply sender_track|]. rewrite app_assoc.
  eapply (behaves_bind Exact); [exact Hloop|]. cbv match.
  rewrite <- (app_nil_r (rcvs _)).
  eapply (behaves_bind Exact _ _ _ _ _ (Ok tt)).
  { unfold terminal_frame. rewrite <- (app_nil_r (rcvs _)). eapply (behaves_try Exact).
    { apply with_stall_behaves; [apply sender_in_time|].
      by apply (expect_frame_behaves at_sender _ _ _ Hcomplete). }
    apply bh_ret. }
  eapply behaves_track; [apply sender_track|]. apply bh_ret.
Qed.
End Sender.

(** ** Both sides *)

Section Delivery.
Context `{JsonLaws Frame} `{Json ResumeState} `{Blake3} `{Hex} `{FrameText}.
Context (self : ResumeShared).

(** The bytes of the task, at its place in the file staged for its entry. *)
Definition placed (m : gmap key bytes) (t : ChunkTask * bytes) : Prop :=
  exists path f, staged_at self (task_entry_id t.1) path /\ m !! components path = Some f /\
    forall k b, t.2 !! k = Some b -> f !! (N.to_nat (task_offset t.1) + k) = Some b.

(** Every chunk is queued once. *)
Definition queued_once (ts : list (ChunkTask * bytes)) : Prop :=
  forall t1 t2, t1 ∈ ts -> t2 ∈ ts -> task_entry_id t1.1 = task_entry_id t2.1 ->
    task_chunk_index t1.1 = task_chunk_index t2.1 -> t1 = t2.

Definition read_for (ts : list (ChunkTask * bytes)) (e c : N) (payload : bytes) : Prop :=
  exists t, t ∈ ts /\ e = task_entry_id t.1 /\ c = task_chunk_index t.1 /\ payload = t.2.

Lemma holds_placed ts m t :
  queued_once ts -> t ∈ ts -> of_manifest self (read_for ts) t ->
  holds self (read_for ts) m (task_entry_id t.1) (task_chunk_index t.1) -> placed m t.
Proof.
  intros Hq Ht (entry&s&[He Hk]&Hs&_&Hoff&Hlen&Hpay&_&_) (entry'&path&s'&f&He'&Hk'&Hp&Hs'&Hf&Hb).
  rewrite He in He'. injection He' as <-. rewrite Hs in Hs'. injection Hs' as <-.
  exists path, f. split_and!; [by exists entry|done|]. intros k b Hkb.
  pose proof (lookup_lt_Some _ _ _ Hkb) as Hlt. unfold nlen in Hpay.
  destruct (Hb (N.of_nat k)) as (payload&b'&(t'&Ht'&E1&E2&->)&Hp'&Hf'); [lia|].
  rewrite (Hq t' t) in Hp' by done. rewrite Nat2N.id, Hkb in Hp'. injection Hp' as <-.
  rewrite <- Hf'. f_equal. lia.
Qed.

(** A receiver that has made its plan: the state is laid out for the manifest and
    persisted, the staged files are there, and nothing has been received. *)
Record prepared (st0 : ResumeState) (w : world) : Prop := {
  prep_runtime : w_rt w = new_runtime st0;
  prep_laid : laid_out (resume_entries self) st0;
  prep_staged e entry : regular_entry (resume_entries self) e entry ->
    exists p, stage_path (resume_stage_root self) (rel_path entry) = Ok p /\
      is_Some (w_vol w !! components p);
  prep_saved : exists data, to_vec st0 = Ok data /\ w_vol w !! components (state_file self) = Some data;
}.

Lemma prepared_going genuine st0 w : prepared st0 w -> going self genuine st0 w ∅ ∅.
Proof.
  intros [Hrt Hl Hst Hsaved]. split; [split|..]; unfold saved; try rewrite Hrt; try done.
  - by intros p ?%elem_of_nil.
  - by left.
Qed.
End Delivery.


Definition demo_task : ChunkTask := {|
  task_entry_id := 1; task_path := "/src/a"; task_rel_path := "u:61"; task_offset := 0;
  task_len := 5; task_chunk_index := 0;
|}.

Definition demo_source : disk :=
  Disk {[components "/src/a" := NFile demo_payload]} ∅ ∅ 1.

Lemma demo_prepared : prepared demo_shared demo_fresh demo_world.
Proof.
  split.
  - reflexivity.
  - apply demo_laid.
  - intros e entry [He _]. change (resume_entries demo_shared) with ({[1%N := demo_staged]} : gmap N ManifestEntry) in He.
    apply lookup_singleton_Some in He as [<- <-]. exists "/in/.state/x/a".
    split; [vm_compute; reflexivity|]. eexists. vm_compute. reflexivity.
  - eexists. split; [reflexivity|]. vm_compute. reflexivity.
Qed.

Lemma demo_of_manifest : of_manifest demo_shared (read_for [(demo_task, demo_payload)]) (demo_task, demo_payload).
Proof.
  exists demo_staged, 5%N. split_and!; try reflexivity; [apply demo_regular| |].
  - exists (demo_task, demo_payload). split; [by left|done].
  - apply demo_fits. vm_compute. reflexivity.
Qed.

