(* ===== verification/Addresses.v ===== *)
(** * Addresses and networks ([vendored-from-bore/shared.rs])

    IPv4 and IPv6 addresses and sockets of the standard library, the CIDRs of the
    overlay network ([Ipv4Net]), and the subnets a gateway advertises
    ([AdvertiseEntry]): their parsers and printers, and what two networks share. *)

From Stdlib Require Import Strings.Ascii.
From stdpp Require Import list.
From S2P Require Import Prelude Proto Text.

(** ** The standard library's addresses *)

Abbreviation Ipv4Addr := N.        (* its 32 bits *)
Abbreviation Ipv6Addr := bytes.    (* its sixteen octets *)

Inductive IpAddr : Type := V4 (a : Ipv4Addr) | V6 (a : Ipv6Addr).

#[export] Instance IpAddr_eq_decision : EqDecision IpAddr.
Proof. solve_decision. Defined.

(** Flow information and scope are zero throughout. *)
Record SocketAddr : Type := Sock { ip : IpAddr; port : N }.

#[export] Instance SocketAddr_eq_decision : EqDecision SocketAddr.
Proof. solve_decision. Defined.

(** [Ipv4Addr::octets], the most significant first. *)
Definition octet (a : Ipv4Addr) (i : N) : N := (N.shiftr a (8 * (3 - i)) mod 256)%N.
Definition from_octets (a b c d : N) : Ipv4Addr := (((a * 256 + b) * 256 + c) * 256 + d)%N.

Definition ipv4_display (a : Ipv4Addr) : string :=
  pretty (octet a 0) +:+ "." +:+ pretty (octet a 1) +:+ "." +:+ pretty (octet a 2) +:+ "." +:+
  pretty (octet a 3).

(** One to three digits, without a leading zero, at most 255. *)
Definition parse_octet (s : string) : option N :=
  match s with
  | String "0"%char (String _ _) => None
  | _ => if String.length s <=? 3 then parse_digits 255 s else None
  end.

Definition parse_ipv4 (s : string) : option Ipv4Addr :=
  match split_once "."%char s with
  | Some (a, s) =>
      match split_once "."%char s with
      | Some (b, s) =>
          match split_once "."%char s with
          | Some (c, d) =>
              match parse_octet a, parse_octet b, parse_octet c, parse_octet d with
              | Some a, Some b, Some c, Some d => Some (from_octets a b c d)
              | _, _, _, _ => None
              end
          | None => None
          end
      | None => None
      end
  | None => None
  end.

(** What [ParseIntError] displays: the first of the digits that is wrong. *)
Fixpoint digits_error (max acc : N) (s : string) : string :=
  match s with
  | EmptyString => ""
  | String a s' =>
      match digit a with
      | None => "invalid digit found in string"
      | Some d =>
          if (max <? acc * 10 + d)%N then "number too large to fit in target type"
          else digits_error max (acc * 10 + d) s'
      end
  end.

Definition parse_int_error (max : N) (s : string) : string :=
  match s with
  | EmptyString => "cannot parse integer from empty string"
  | String "+"%char EmptyString => "invalid digit found in string"
  | String "+"%char s' => digits_error max 0 s'
  | _ => digits_error max 0 s
  end.

(** ** [Ipv4Net] *)

Record Ipv4Net : Type := { addr : Ipv4Addr; net_prefix : N (* u8 *) }.

#[export] Instance Ipv4Net_eq_decision : EqDecision Ipv4Net.
Proof. solve_decision. Defined.

Definition ipv4net_from_str (s : string) : ares Ipv4Net :=
  rbind (ok_or (split_once "/"%char s) (AnyMsg ("missing '/' in CIDR: " +:+ s)))
    (fun '(addr_str, prefix_str) =>
  rbind (ok_or (parse_ipv4 addr_str)
           (AnyMsg ("invalid addr in " +:+ s +:+ ": invalid IPv4 address syntax"))) (fun addr =>
  rbind (ok_or (parse_unsigned 255 prefix_str)
           (AnyMsg ("invalid prefix in " +:+ s +:+ ": " +:+ parse_int_error 255 prefix_str)))
    (fun prefix =>
  if (prefix <=? 32)%N then Ok {| addr := addr; net_prefix := prefix |}
  else Err (AnyMsg ("prefix " +:+ pretty prefix +:+ " > 32 in " +:+ s))))).

Definition ipv4net_display (n : Ipv4Net) : string :=
  ipv4_display (addr n) +:+ "/" +:+ pretty (net_prefix n).

(** [!0u32 << (32 - prefix)]: in a release build the [u8] subtraction wraps and
    the shift takes its amount modulo 32. *)
Definition prefix_to_mask (prefix : N) : N :=
  if (prefix =? 0)%N then 0%N
  else (N.shiftl u32_max (((32 + 256 - prefix) mod 256) mod 32) mod 2 ^ 32)%N.

Definition network (n : Ipv4Net) : Ipv4Addr := N.land (addr n) (prefix_to_mask (net_prefix n)).

Definition contains (n : Ipv4Net) (a : Ipv4Addr) : bool :=
  let mask := prefix_to_mask (net_prefix n) in (N.land (addr n) mask =? N.land a mask)%N.

Definition overlaps (self other : Ipv4Net) : bool :=
  let mask :=
    if (net_prefix self <=? net_prefix other)%N then prefix_to_mask (net_prefix self)
    else prefix_to_mask (net_prefix other) in
  (N.land (addr self) mask =? N.land (addr other) mask)%N.

(** ** [AdvertiseEntry] *)

Record AdvertiseEntry : Type := { real : Ipv4Net; exposed : Ipv4Net }.

Definition is_nat (e : AdvertiseEntry) : bool := negb (bool_decide (real e = exposed e)).

(** [with_context(|| msg)]. *)
Definition in_context {A} (msg : string) (r : ares A) : ares A := map_err (AnyContext msg) r.

Definition advertise_from_str (s : string) : ares AdvertiseEntry :=
  match split_once "@"%char s with
  | None => rbind (ipv4net_from_str s) (fun n => Ok {| real := n; exposed := n |})
  | Some (r, v) =>
      if negb (free "@"%char v) then Err (AnyMsg ("advertise '" +:+ s +:+ "': at most one '@'"))
      else
        rbind (in_context ("advertise real '" +:+ r +:+ "'") (ipv4net_from_str r)) (fun real =>
        rbind (in_context ("advertise virtual '" +:+ v +:+ "'") (ipv4net_from_str v)) (fun exposed =>
        if (net_prefix real =? net_prefix exposed)%N then Ok {| real := real; exposed := exposed |}
        else Err (AnyMsg ("advertise '" +:+ s +:+ "': real /" +:+ pretty (net_prefix real) +:+
               " and virtual /" +:+ pretty (net_prefix exposed) +:+
               " must have equal prefix length (1:1 netmap)"))))
  end.

Definition advertise_display (e : AdvertiseEntry) : string :=
  if is_nat e then ipv4net_display (real e) +:+ "@" +:+ ipv4net_display (exposed e)
  else ipv4net_display (real e).

(** ** Facts about masks *)

Definition valid_net (n : Ipv4Net) : Prop := (addr n < 2 ^ 32)%N /\ (net_prefix n <= 32)%N.

(** The addresses of a network are those with the same quotient by its size. *)
Definition host_bits (n : Ipv4Net) : N := (2 ^ (32 - net_prefix n))%N.

Lemma land_mask a p :
  (a < 2 ^ 32)%N -> (p <= 32)%N ->
  N.land a (prefix_to_mask p) = (a / 2 ^ (32 - p) * 2 ^ (32 - p))%N.
Proof.
  intros Ha Hp. unfold prefix_to_mask. destruct (N.eqb_spec p 0) as [->|Hp0].
  - rewrite N.land_0_r, N.sub_0_r, N.div_small by done. done.
  - replace (((32 + 256 - p) mod 256) mod 32)%N with (32 - p)%N.
    2:{ replace (32 + 256 - p)%N with ((32 - p) + 1 * 256)%N by lia.
        rewrite N.Div0.mod_add, (N.mod_small _ 256) by lia. rewrite N.mod_small by lia. lia. }
    replace (N.shiftl u32_max (32 - p)) with (u32_max * 2 ^ (32 - p))%N by (by rewrite N.shiftl_mul_pow2).
    set (k := (32 - p)%N). assert (Hk : (k < 32)%N) by (unfold k; lia).
    assert (Em : ((u32_max * 2 ^ k) mod 2 ^ 32 = (2 ^ (32 - k) - 1) * 2 ^ k)%N).
    { replace (2 ^ 32)%N with (2 ^ (32 - k) * 2 ^ k)%N by (rewrite <- N.pow_add_r; f_equal; lia).
      rewrite N.Div0.mul_mod_distr_r. f_equal. unfold u32_max.
      replace (2 ^ 32 - 1)%N with ((2 ^ (32 - k) - 1) + (2 ^ k - 1) * 2 ^ (32 - k))%N.
      - rewrite N.Div0.mod_add, N.mod_small; [done|].
        pose proof (N.pow_nonzero 2 (32 - k)). lia.
      - rewrite N.mul_sub_distr_r, <- N.pow_add_r.
        replace (k + (32 - k))%N with 32%N by lia.
        pose proof (N.pow_nonzero 2 (32 - k)).
        assert (2 ^ (32 - k) <= 2 ^ 32)%N by (apply N.pow_le_mono_r; lia). lia. }
    rewrite Em. rewrite <- N.shiftl_mul_pow2, <- (N.shiftl_mul_pow2 (a / _)), <- N.shiftr_div_pow2.
    apply N.bits_inj. intros i. rewrite N.land_spec.
    destruct (N.lt_ge_cases i k) as [Hi|Hi].
    + rewrite !N.shiftl_spec_low by done. by rewrite andb_false_r.
    + rewrite !N.shiftl_spec_high', N.shiftr_spec' by done.
      replace (i - k + k)%N with i by lia.
      replace (2 ^ (32 - k) - 1)%N with (N.ones (32 - k)) by (rewrite N.ones_equiv; lia).
      destruct (N.lt_ge_cases (i - k) (32 - k)) as [Hl|Hl].
      * by rewrite N.ones_spec_low, andb_true_r.
      * rewrite N.ones_spec_high, andb_false_r by done. symmetry.
        destruct (decide (a = 0%N)) as [->|Ha0]; [by rewrite N.bits_0|].
        apply N.bits_above_log2. apply N.log2_lt_pow2; [lia|].
        eapply N.lt_le_trans; [exact Ha|]. apply N.pow_le_mono_r; lia.
Qed.

Lemma contains_iff n a :
  valid_net n -> (a < 2 ^ 32)%N ->
  contains n a = true <-> (addr n / host_bits n = a / host_bits n)%N.
Proof.
  intros [Ha Hp] Hx. unfold contains, host_bits. rewrite !land_mask by done. rewrite N.eqb_eq.
  split; [|by intros ->]. apply N.mul_cancel_r, N.pow_nonzero. lia.
Qed.

Lemma overlaps_iff m n :
  valid_net m -> valid_net n ->
  overlaps m n = true <->
    (addr m / 2 ^ (32 - N.min (net_prefix m) (net_prefix n)) =
     addr n / 2 ^ (32 - N.min (net_prefix m) (net_prefix n)))%N.
Proof.
  intros [Ham Hpm] [Han Hpn]. unfold overlaps.
  destruct (N.leb_spec (net_prefix m) (net_prefix n)) as [Hle|Hlt];
    [rewrite N.min_l by done|rewrite N.min_r by lia];
    (rewrite !land_mask by done; rewrite N.eqb_eq; split; [|by intros ->];
     apply N.mul_cancel_r, N.pow_nonzero; lia).
Qed.

(** Blocks of a larger size are made of blocks of a smaller size. *)
Lemma div_coarser a p q :
  (p <= q)%N -> (q <= 32)%N -> (a / 2 ^ (32 - p) = a / 2 ^ (32 - q) / 2 ^ (q - p))%N.
Proof.
  intros Hpq Hq. rewrite N.Div0.div_div, <- N.pow_add_r. do 2 f_equal. lia.
Qed.

(** ** Round trips *)

Lemma octet_bound a i : (octet a i <= 255)%N.
Proof. unfold octet. pose proof (N.mod_upper_bound (N.shiftr a (8 * (3 - i))) 256). lia. Qed.

Lemma parse_octet_pretty n : (n <= 255)%N -> parse_octet (pretty n) = Some n.
Proof.
  intros Hn.
  assert (Hall : forallb (fun n => bool_decide (parse_octet (pretty (N.of_nat n)) = Some (N.of_nat n)))
    (seq 0 256) = true) by (vm_compute; reflexivity).
  rewrite forallb_forall in Hall. specialize (Hall (N.to_nat n)).
  rewrite N2Nat.id in Hall. apply (bool_decide_eq_true_1 _), Hall, in_seq. lia.
Qed.

Lemma octets_ipv4 a : (a < 2 ^ 32)%N -> from_octets (octet a 0) (octet a 1) (octet a 2) (octet a 3) = a.
Proof.
  intros Ha. unfold from_octets, octet. rewrite !N.shiftr_div_pow2.
  change (2 ^ (8 * (3 - 0)))%N with (2 ^ 24)%N. change (2 ^ (8 * (3 - 1)))%N with (2 ^ 16)%N.
  change (2 ^ (8 * (3 - 2)))%N with (2 ^ 8)%N. change (2 ^ (8 * (3 - 3)))%N with 1%N.
  rewrite N.div_1_r. zify. Z.to_euclidean_division_equations. lia.
Qed.

Lemma free_pretty c (n : N) : digit c = None -> free c (pretty n) = true.
Proof. intros Hc. by apply all_digits_free, all_digits_pretty. Qed.

Lemma string_app_char c s : String c EmptyString +:+ s = String c s.
Proof. reflexivity. Qed.

Lemma parse_ipv4_display a : (a < 2 ^ 32)%N -> parse_ipv4 (ipv4_display a) = Some a.
Proof.
  intros Ha. unfold parse_ipv4, ipv4_display.
  rewrite !string_app_char. do 3 (rewrite split_once_free by by apply free_pretty). cbv match.
  rewrite !parse_octet_pretty by apply octet_bound. by rewrite octets_ipv4.
Qed.

Lemma ipv4_display_free c a : digit c = None -> Ascii.eqb "."%char c = false -> free c (ipv4_display a) = true.
Proof.
  intros Hc Hd. unfold ipv4_display. rewrite !free_app, !free_pretty by done. cbn [free].
  by rewrite Hd.
Qed.

Lemma ipv4net_round_trip n : valid_net n -> ipv4net_from_str (ipv4net_display n) = Ok n.
Proof.
  intros [Ha Hp]. unfold ipv4net_from_str, ipv4net_display.
  change (ipv4_display (addr n) +:+ "/" +:+ pretty (net_prefix n))
    with (ipv4_display (addr n) +:+ String "/"%char (pretty (net_prefix n))).
  rewrite split_once_free by by apply ipv4_display_free. cbn [ok_or rbind].
  rewrite parse_ipv4_display by done. cbn [ok_or rbind].
  rewrite parse_unsigned_pretty by lia. cbn [ok_or rbind].
  destruct (N.leb_spec (net_prefix n) 32); [by destruct n|lia].
Qed.

Lemma ipv4net_display_free n : free "@"%char (ipv4net_display n) = true.
Proof.
  unfold ipv4net_display. rewrite !free_app, ipv4_display_free, free_pretty by done. done.
Qed.

Lemma parsed_net_valid s n : ipv4net_from_str s = Ok n -> valid_net n.
Proof.
  unfold ipv4net_from_str. destruct (split_once "/"%char s) as [[l r]|]; [|done]. cbn [ok_or rbind].
  destruct (parse_ipv4 l) as [a|] eqn:Ea; [|done]. cbn [ok_or rbind].
  destruct (parse_unsigned 255 r) as [p|]; [|done]. cbn [ok_or rbind].
  destruct (N.leb_spec p 32) as [Hp|]; [|done]. intros [= <-]. split; [|done]. simpl.
  unfold parse_ipv4 in Ea. repeat case_match; try done. injection Ea as <-.
  assert (Hb : forall s x, parse_octet s = Some x -> (x <= 255)%N).
  { intros t x Hx. unfold parse_octet in Hx. repeat case_match; try done; by eapply parse_digits_bound. }
  repeat match goal with E : parse_octet _ = Some _ |- _ => apply Hb in E end.
  unfold from_octets. lia.
Qed.

(** ** The contract *)

(** Overlap is a shared address.  Two networks are said to overlap exactly when
    some address belongs to both, whichever has the longer prefix. *)
Theorem overlap_is_a_shared_address m n :
  valid_net m -> valid_net n ->
  overlaps m n = true <-> exists x, (x < 2 ^ 32)%N /\ contains m x = true /\ contains n x = true.
Proof.
  intros Hm Hn. rewrite overlaps_iff by done.
  assert (Hself : forall k, valid_net k -> contains k (addr k) = true)
    by (intros k Hk; by apply contains_iff; [|apply Hk|]).
  destruct (N.le_ge_cases (net_prefix m) (net_prefix n)) as [Hle|Hle];
    [rewrite N.min_l by done|rewrite N.min_r by done].
  - split.
    + intros E. exists (addr n). split_and!; [apply Hn| |by apply Hself].
      apply contains_iff; [done|apply Hn|done].
    + intros (x&Hx&Em&En). apply contains_iff in Em, En; try done. unfold host_bits in *. rewrite Em.
      rewrite (div_coarser x _ (net_prefix n)), (div_coarser (addr n) _ (net_prefix n)) by (done || apply Hn).
      by rewrite En.
  - split.
    + intros E. exists (addr m). split_and!; [apply Hm|by apply Hself|].
      apply contains_iff; [done|apply Hm|done].
    + intros (x&Hx&Em&En). apply contains_iff in Em, En; try done. unfold host_bits in *. rewrite En.
      rewrite (div_coarser x _ (net_prefix m)), (div_coarser (addr m) _ (net_prefix m)) by (done || apply Hm).
      by rewrite Em.
Qed.

(** Advertised subnets survive printing.  What the printer writes of an entry
    with equal prefix lengths, mapped or not, the parser reads back; and every
    entry the parser accepts is such an entry. *)
Theorem advertised_subnets_round_trip e :
  valid_net (real e) -> valid_net (exposed e) -> net_prefix (real e) = net_prefix (exposed e) ->
  advertise_from_str (advertise_display e) = Ok e /\
  forall s e', advertise_from_str s = Ok e' ->
    valid_net (real e') /\ valid_net (exposed e') /\ net_prefix (real e') = net_prefix (exposed e').
Proof.
  intros Hr Hv Hp. split.
  - unfold advertise_from_str, advertise_display, is_nat. case_bool_decide as E; cbn [negb].
    + rewrite split_once_none by apply ipv4net_display_free.
      rewrite ipv4net_round_trip by done. simpl. destruct e; simpl in *. by subst.
    + change (ipv4net_display (real e) +:+ "@" +:+ ipv4net_display (exposed e))
        with (ipv4net_display (real e) +:+ String "@"%char (ipv4net_display (exposed e))).
      rewrite split_once_free by apply ipv4net_display_free. rewrite ipv4net_display_free. cbn [negb].
      rewrite !ipv4net_round_trip by done. simpl. rewrite Hp, N.eqb_refl. by destruct e.
  - intros s e'. unfold advertise_from_str.
    destruct (split_once "@"%char s) as [[r v]|].
    + destruct (negb _); [done|].
      destruct (ipv4net_from_str r) as [nr| |] eqn:Er; [|done..]. simpl.
      destruct (ipv4net_from_str v) as [nv| |] eqn:Ev; [|done..]. simpl.
      destruct (N.eqb_spec (net_prefix nr) (net_prefix nv)); [|done]. intros [= <-]. simpl.
      by split_and!; [eapply parsed_net_valid..|].
    + destruct (ipv4net_from_str s) as [n| |] eqn:En; [|done..]. intros [= <-]. simpl.
      by split_and!; [eapply parsed_net_valid..|].
Qed.

Definition demo_net (a b c d p : N) : Ipv4Net := {| addr := from_octets a b c d; net_prefix := p |}.

Lemma overlap_is_a_shared_address_witness :
  overlaps (demo_net 10 0 0 0 8) (demo_net 10 1 2 0 24) = true /\
  overlaps (demo_net 10 1 2 0 24) (demo_net 10 1 3 0 24) = false /\
  exists x, (x < 2 ^ 32)%N /\ contains (demo_net 10 0 0 0 8) x = true /\ contains (demo_net 10 1 2 0 24) x = true.
Proof.
  split_and!; [reflexivity..|].
  apply (overlap_is_a_shared_address (demo_net 10 0 0 0 8) (demo_net 10 1 2 0 24)).
  - split; vm_compute; [reflexivity|discriminate].
  - split; vm_compute; [reflexivity|discriminate].
  - reflexivity.
Defined.

Lemma advertised_subnets_round_trip_witness :
  let e := {| real := demo_net 192 168 1 0 24; exposed := demo_net 10 7 0 0 24 |} in
  advertise_display e = "192.168.1.0/24@10.7.0.0/24" /\ advertise_from_str (advertise_display e) = Ok e.
Proof.
  cbv zeta. split; [vm_compute; reflexivity|].
  refine (proj1 (advertised_subnets_round_trip _ _ _ _)).
  - split; vm_compute; [reflexivity|discriminate].
  - split; vm_compute; [reflexivity|discriminate].
  - reflexivity.
Defined.
