(* ===== verification/Stun.v ===== *)
(** * STUN ([vendored-from-bore/holepunch.rs], [mod stun])

    The binding request of a client, the responder a server runs, the parser of
    its answers, and the exchange of datagrams that discovers a reflexive address.
    An index or a slice out of range is a panic, as in the code. *)

From stdpp Require Import list.
From S2P Require Import Prelude Streams Proto Fs Addresses.

(** [Err tt] marks a run of the parser cut at its fuel. *)
Abbreviation checked := (result unit).

Definition index (buf : bytes) (i : nat) : checked byte :=
  match buf !! i with Some b => Ok b | None => Panicked end.

(** [&buf[a..b]]. *)
Definition slice (buf : bytes) (a b : nat) : checked bytes :=
  if (a <=? b) && (b <=? length buf) then Ok (take (b - a) (drop a buf)) else Panicked.

Definition be_u16 (a b : byte) : N := (Byte.to_N a * 256 + Byte.to_N b)%N.
Definition be_u32 (a b c d : byte) : N := (be_u16 a b * 65536 + be_u16 c d)%N.
Definition to_be_u16 (n : N) : bytes := [byte_of (n / 256); byte_of n].
Definition to_be_u32 (n : N) : bytes := to_be_u16 (n / 65536) ++ to_be_u16 n.

Definition index_u16 (buf : bytes) (i : nat) : checked N :=
  rbind (index buf i) (fun a => rbind (index buf (i + 1)) (fun b => Ok (be_u16 a b))).

Definition index_u32 (buf : bytes) (i : nat) : checked N :=
  rbind (index_u16 buf i) (fun a => rbind (index_u16 buf (i + 2)) (fun b => Ok (a * 65536 + b)%N)).

Definition MAGIC_COOKIE : N := 554869826.        (* 0x2112_A442 *)
Definition BINDING_REQUEST : N := 1.
Definition BINDING_SUCCESS : N := 257.           (* 0x0101 *)
Definition ATTR_XOR_MAPPED_ADDRESS : N := 32.    (* 0x0020 *)

(** [(MAGIC_COOKIE >> 16) as u16]. *)
Definition port_key : N := N.shiftr MAGIC_COOKIE 16.

(** The transaction id is drawn at random by the caller. *)
Definition binding_request (txid : bytes) : bytes :=
  to_be_u16 BINDING_REQUEST ++ to_be_u16 0 ++ to_be_u32 MAGIC_COOKIE ++ txid.

Definition xor_byte (a b : byte) : byte := byte_of (N.lxor (Byte.to_N a) (Byte.to_N b)).

(** [for i in 0..16 { addr[i] = value[4 + i] ^ key[i] }], from the [i]th. *)
Fixpoint xor_octets (value key : bytes) (i left : nat) : checked bytes :=
  match left with
  | O => Ok []
  | S left' =>
      rbind (index value (4 + i)) (fun v =>
      rbind (index key i) (fun k =>
      rbind (xor_octets value key (i + 1) left') (fun rest => Ok (xor_byte v k :: rest))))
  end.

Definition parse_xor_mapped (value txid : bytes) : checked (option SocketAddr) :=
  if length value <? 4 then Ok None
  else
    rbind (index value 1) (fun family =>
    rbind (index_u16 value 2) (fun xport =>
    let port := N.lxor xport port_key in
    if (Byte.to_N family =? 1)%N && (8 <=? length value) then
      rbind (index_u32 value 4) (fun xaddr =>
      Ok (Some (Sock (V4 (N.lxor xaddr MAGIC_COOKIE)) port)))
    else if (Byte.to_N family =? 2)%N && (20 <=? length value) then
      rbind (xor_octets value (to_be_u32 MAGIC_COOKIE ++ txid) 0 16) (fun addr =>
      Ok (Some (Sock (V6 addr) port)))
    else Ok None)).

(** [attr_len.div_ceil(4) * 4]. *)
Definition padded (n : nat) : nat := (n + 3) / 4 * 4.

(** The attributes from [pos]; every turn moves at least four bytes on. *)
Fixpoint find_mapped (fuel : nat) (buf txid : bytes) (pos : nat) : checked (option SocketAddr) :=
  match fuel with
  | O => Err tt
  | S fuel' =>
      if pos + 4 <=? length buf then
        rbind (index_u16 buf pos) (fun attr_type =>
        rbind (index_u16 buf (pos + 2)) (fun len =>
        let attr_len := N.to_nat len in
        let value_start := pos + 4 in
        if length buf <? value_start + attr_len then Ok None
        else if (attr_type =? ATTR_XOR_MAPPED_ADDRESS)%N then
          rbind (slice buf value_start (value_start + attr_len)) (fun value =>
          parse_xor_mapped value txid)
        else find_mapped fuel' buf txid (value_start + padded attr_len)))
      else Ok None
  end.

Definition parse_response (buf txid : bytes) : checked (option SocketAddr) :=
  if length buf <? 20 then Ok None
  else
    rbind (index_u16 buf 0) (fun msg_type =>
    if negb (msg_type =? BINDING_SUCCESS)%N then Ok None
    else
      rbind (index_u32 buf 4) (fun cookie =>
      if negb (cookie =? MAGIC_COOKIE)%N then Ok None
      else
        rbind (slice buf 8 20) (fun id =>
        if negb (bool_decide (id = txid)) then Ok None
        else find_mapped (length buf) buf txid 20))).

(** The responder echoes IPv4 sources only. *)
Definition binding_response (request : bytes) (source : SocketAddr) : checked (option bytes) :=
  if length request <? 20 then Ok None
  else
    rbind (index_u16 request 0) (fun msg_type =>
    if negb (msg_type =? BINDING_REQUEST)%N then Ok None
    else
      rbind (index_u32 request 4) (fun cookie =>
      if negb (cookie =? MAGIC_COOKIE)%N then Ok None
      else
        match ip source with
        | V6 _ => Ok None
        | V4 a =>
            let xport := N.lxor (port source) port_key in
            let xaddr := N.lxor a MAGIC_COOKIE in
            rbind (slice request 8 20) (fun id =>
            Ok (Some (to_be_u16 BINDING_SUCCESS ++ to_be_u16 12 ++ to_be_u32 MAGIC_COOKIE ++ id ++
                      to_be_u16 ATTR_XOR_MAPPED_ADDRESS ++ to_be_u16 8 ++ [x00; x01] ++
                      to_be_u16 xport ++ to_be_u32 xaddr)))
        end)).

(** ** The exchange of datagrams *)

(** A UDP socket, the system's random numbers and the clock. *)
Inductive udp_op : Type :=
| RandomTxid
| SendTo (data : bytes) (to : SocketAddr)
| RecvFrom (max : N)
| RecvFromT (max secs : N)               (* under a [timeout] *)
| SleepMs (ms : N).

Definition udp_sig : sig :=
  Sig udp_op (fun o =>
    match o with
    | RandomTxid => bytes
    | SendTo _ _ => result io_error N
    | RecvFrom _ => result io_error (bytes * SocketAddr)
    | RecvFromT _ _ => timed (result io_error (bytes * SocketAddr))
    | SleepMs _ => unit
    end).

Definition STUN_TIMEOUT : N := 1.

(** What [std::net] prints for an IPv6 address. *)
Class Ipv6Text := ipv6_display : Ipv6Addr -> string.

Definition sock_display `{Ipv6Text} (s : SocketAddr) : string :=
  match ip s with
  | V4 a => ipv4_display a +:+ ":" +:+ pretty (port s)
  | V6 a => "[" +:+ ipv6_display a +:+ "]:" +:+ pretty (port s)
  end.

Section Udp.
Context {T : sig} `{Has udp_sig T} `{Ipv6Text}.

Definition udp (o : udp_op) : prog T (resp (s := udp_sig) o) := call (S := udp_sig) o.

(** [for attempt in 0..3], with [left] attempts to go. *)
Fixpoint discover_attempts (left attempt : nat) (request txid : bytes) (stun : SocketAddr) :
  prog T (ares SocketAddr) :=
  match left with
  | O => Ret (Err (AnyMsg ("no STUN response from " +:+ sock_display stun)))
  | S left' =>
      let! sent := udp (SendTo request stun) in
      match sent with
      | Err e => Ret (Err (AnyIo e))
      | Panicked => Ret Panicked
      | Ok _ =>
          let! received := udp (RecvFromT 512 STUN_TIMEOUT) in
          match received with
          | InTime (Ok (buf, from)) =>
              if decide (ip from = ip stun) then
                match parse_response buf txid with
                | Ok (Some addr) => Ret (Ok addr)
                | Ok None => discover_attempts left' (S attempt) request txid stun
                | _ => Ret Panicked
                end
              else discover_attempts left' (S attempt) request txid stun
          | InTime (Err err) =>
              Ret (Err (AnyContext ("STUN recv failed (attempt " +:+ pretty (N.of_nat attempt) +:+ ")")
                          (AnyIo err)))
          | InTime Panicked => Ret Panicked
          | Elapsed => discover_attempts left' (S attempt) request txid stun
          end
      end
  end.

Definition discover_reflexive (stun : SocketAddr) : prog T (ares SocketAddr) :=
  let! txid := udp RandomTxid in
  discover_attempts 3 0 (binding_request txid) txid stun.

(** One turn of [run_stun_responder], which never returns. *)
Definition responder_turn : prog T (ares unit) :=
  let! received := udp (RecvFrom 512) in
  match received with
  | Ok (buf, from) =>
      match binding_response buf from with
      | Ok (Some reply) => let! _ := udp (SendTo reply from) in Ret (Ok tt)
      | Ok None => Ret (Ok tt)
      | _ => Ret Panicked
      end
  | Err _ => let! _ := udp (SleepMs 100) in Ret (Ok tt)
  | Panicked => Ret Panicked
  end.

(** [turns] turns of it. *)
Fixpoint run_stun_responder (turns : nat) : prog T (ares unit) :=
  match turns with
  | O => Ret (Ok tt)
  | S turns' => let? _ := responder_turn in run_stun_responder turns'
  end.
End Udp.

(** ** Nothing panics *)

Lemma index_ok buf i : i < length buf -> exists b, index buf i = Ok b.
Proof. intros Hi. unfold index. destruct (lookup_lt_is_Some_2 buf i Hi) as [b ->]. by exists b. Qed.

Lemma index_u16_ok buf i : i + 1 < length buf -> exists n, index_u16 buf i = Ok n.
Proof.
  intros Hi. unfold index_u16. destruct (index_ok buf i) as [a ->]; [lia|].
  destruct (index_ok buf (i + 1)) as [b ->]; [lia|]. by eexists.
Qed.

Lemma index_u32_ok buf i : i + 3 < length buf -> exists n, index_u32 buf i = Ok n.
Proof.
  intros Hi. unfold index_u32. destruct (index_u16_ok buf i) as [a ->]; [lia|].
  destruct (index_u16_ok buf (i + 2)) as [b ->]; [lia|]. by eexists.
Qed.

Lemma slice_ok buf a b : a <= b <= length buf -> slice buf a b = Ok (take (b - a) (drop a buf)).
Proof.
  intros [Hab Hb]. unfold slice. by rewrite (proj2 (Nat.leb_le _ _) Hab), (proj2 (Nat.leb_le _ _) Hb).
Qed.

Lemma xor_octets_ok value key i left :
  4 + i + left <= length value -> i + left <= length key -> exists l, xor_octets value key i left = Ok l.
Proof.
  revert i; induction left as [|left IH]; intros i Hv Hk; [by exists []|]. cbn [xor_octets].
  destruct (index_ok value (4 + i)) as [v ->]; [lia|]. destruct (index_ok key i) as [k ->]; [lia|].
  destruct (IH (i + 1)) as [l Hl]; [lia..|]. cbn [rbind]. rewrite Hl. by eexists.
Qed.

Lemma parse_xor_mapped_ok value txid :
  length txid = 12 -> exists r, parse_xor_mapped value txid = Ok r.
Proof.
  intros Ht. unfold parse_xor_mapped. destruct (Nat.ltb_spec (length value) 4) as [|Hl]; [by eexists|].
  destruct (index_ok value 1) as [f ->]; [lia|]. destruct (index_u16_ok value 2) as [x ->]; [lia|].
  cbn [rbind]. destruct (_ =? 1)%N; cbn [andb].
  - destruct (Nat.leb_spec 8 (length value)) as [H8|H8].
    + destruct (index_u32_ok value 4) as [y ->]; [lia|]. by eexists.
    + destruct (_ =? 2)%N; cbn [andb]; [|by eexists].
      destruct (Nat.leb_spec 20 (length value)); [lia|]. by eexists.
  - destruct (_ =? 2)%N; cbn [andb]; [|by eexists].
    destruct (Nat.leb_spec 20 (length value)) as [H20|]; [|by eexists].
    destruct (xor_octets_ok value (to_be_u32 MAGIC_COOKIE ++ txid) 0 16) as [l ->]; [lia| |by eexists].
    rewrite length_app, Ht. simpl. lia.
Qed.

Lemma find_mapped_ok fuel buf txid pos :
  length txid = 12 -> 0 < fuel -> length buf < pos + 4 * fuel ->
  exists r, find_mapped fuel buf txid pos = Ok r.
Proof.
  intros Ht. revert pos; induction fuel as [|fuel IH]; intros pos Hf0 Hf; [lia|]. cbn [find_mapped].
  destruct (Nat.leb_spec (pos + 4) (length buf)) as [Hp|]; [|by eexists].
  destruct (index_u16_ok buf pos) as [ty ->]; [lia|].
  destruct (index_u16_ok buf (pos + 2)) as [len ->]; [lia|]. cbn [rbind].
  destruct (Nat.ltb_spec (length buf) (pos + 4 + N.to_nat len)); [by eexists|].
  destruct (ty =? ATTR_XOR_MAPPED_ADDRESS)%N.
  - rewrite slice_ok by lia. cbn [rbind]. by apply parse_xor_mapped_ok.
  - apply IH; lia.
Qed.

(** C25: no datagram makes STUN panic.  Whatever a datagram holds, the parser of
    answers and the responder return: every index and slice is in range, and the
    walk over the attributes ends. *)
Theorem stun_never_panics buf txid source :
  length txid = 12 ->
  (exists r, parse_response buf txid = Ok r) /\ exists r, binding_response buf source = Ok r.
Proof.
  intros Ht. unfold parse_response, binding_response.
  destruct (Nat.ltb_spec (length buf) 20) as [|Hl]; [split; by eexists|].
  destruct (index_u16_ok buf 0) as [ty ->]; [lia|]. destruct (index_u32_ok buf 4) as [c ->]; [lia|].
  rewrite slice_ok by lia. cbn [rbind]. split.
  - destruct (negb _); [by eexists|]. destruct (negb _); [by eexists|]. destruct (negb _); [by eexists|].
    apply find_mapped_ok; [done|lia..].
  - destruct (negb _); [by eexists|]. destruct (negb _); [by eexists|].
    destruct (ip source); by eexists.
Qed.

(** ** Round trip *)

Lemma lxor_lt k a b : (a < 2 ^ k)%N -> (b < 2 ^ k)%N -> (N.lxor a b < 2 ^ k)%N.
Proof.
  intros Ha Hb. rewrite <- (N.mod_small a (2 ^ k)), <- (N.mod_small b (2 ^ k)) by done.
  rewrite <- !N.land_ones.
  replace (N.lxor (N.land a (N.ones k)) (N.land b (N.ones k))) with (N.land (N.lxor a b) (N.ones k)).
  - rewrite N.land_ones. apply N.mod_upper_bound, N.pow_nonzero. lia.
  - apply N.bits_inj. intros i. rewrite !N.land_spec, !N.lxor_spec, !N.land_spec.
    by destruct (N.testbit a i), (N.testbit b i), (N.testbit (N.ones k) i).
Qed.

Lemma lxor_key x k : N.lxor (N.lxor x k) k = x.
Proof. by rewrite N.lxor_assoc, N.lxor_nilpotent, N.lxor_0_r. Qed.

Lemma be_u16_bytes n : (n < 2 ^ 16)%N -> be_u16 (byte_of (n / 256)) (byte_of n) = n.
Proof.
  intros Hn. unfold be_u16. rewrite !to_N_byte_of.
  rewrite (N.mod_small (n / 256)) by (apply N.Div0.div_lt_upper_bound; lia).
  rewrite N.mul_comm. symmetry. apply N.div_mod. lia.
Qed.

Lemma be_u32_bytes n :
  (n < 2 ^ 32)%N ->
  (be_u16 (byte_of (n / 65536 / 256)) (byte_of (n / 65536)) * 65536 +
   be_u16 (byte_of (n / 256)) (byte_of n) = n)%N.
Proof.
  intros Hn. rewrite be_u16_bytes by (apply N.Div0.div_lt_upper_bound; lia).
  replace (be_u16 (byte_of (n / 256)) (byte_of n)) with (n mod 65536)%N.
  - rewrite N.mul_comm. symmetry. apply N.div_mod. lia.
  - unfold be_u16. rewrite !to_N_byte_of. zify. Z.to_euclidean_division_equations. lia.
Qed.

(** The 32 bytes of an answer, and what the parser makes of them. *)
Definition reply_bytes (id : bytes) (p1 p2 a1 a2 a3 a4 : byte) : bytes :=
  [x01; x01; x00; x0c; x21; x12; xa4; x42] ++ id ++
  [x00; x20; x00; x08; x00; x01; p1; p2; a1; a2; a3; a4].

Lemma parse_reply id p1 p2 a1 a2 a3 a4 txid :
  length id = 12 ->
  parse_response (reply_bytes id p1 p2 a1 a2 a3 a4) txid =
    if bool_decide (id = txid)
    then Ok (Some (Sock (V4 (N.lxor (be_u16 a1 a2 * 65536 + be_u16 a3 a4) MAGIC_COOKIE))
                        (N.lxor (be_u16 p1 p2) port_key)))
    else Ok None.
Proof.
  intros Hl. do 12 (destruct id as [|? id]; [done|]). destruct id; [|done].
  match goal with |- parse_response ?reply txid = if bool_decide (?id = _) then _ else _ =>
    change (parse_response reply txid)
      with (if negb (bool_decide (id = txid)) then Ok None else find_mapped 32 reply txid 20) end.
  by destruct (bool_decide _).
Qed.

(** A STUN exchange round-trips.  The responder answers a client's request from
    an IPv4 source with 32 bytes that the client parses to that very source, and
    any other client, whose transaction id differs, to nothing. *)
Theorem stun_round_trip txid a p :
  length txid = 12 -> (a < 2 ^ 32)%N -> (p < 2 ^ 16)%N ->
  exists reply,
    binding_response (binding_request txid) (Sock (V4 a) p) = Ok (Some reply) /\
    length reply = 32 /\ parse_response reply txid = Ok (Some (Sock (V4 a) p)) /\
    forall txid', txid' <> txid -> parse_response reply txid' = Ok None.
Proof.
  intros Ht Ha Hp. set (x := N.lxor p port_key). set (y := N.lxor a MAGIC_COOKIE).
  exists (reply_bytes txid (byte_of (x / 256)) (byte_of x) (byte_of (y / 65536 / 256))
    (byte_of (y / 65536)) (byte_of (y / 256)) (byte_of y)).
  assert (Hx : (x < 2 ^ 16)%N) by (by apply lxor_lt).
  assert (Hy : (y < 2 ^ 32)%N) by (by apply lxor_lt). split_and!.
  - do 12 (destruct txid as [|? txid]; [done|]). destruct txid; [|done]. reflexivity.
  - unfold reply_bytes. rewrite !length_app, Ht. reflexivity.
  - rewrite parse_reply, bool_decide_true by done. rewrite be_u32_bytes, be_u16_bytes by done.
    unfold x, y. by rewrite !lxor_key.
  - intros txid' Hne. by rewrite parse_reply, bool_decide_false by done.
Qed.

(** ** Discovery *)

(** What the socket receives in turn; a datagram is cut to the buffer, and with
    nothing left every wait runs out. *)
Definition udp_script : handler udp_sig (bytes * list (timed (result io_error (bytes * SocketAddr)))) :=
  fun o st =>
    match o return resp (s := udp_sig) o * _ with
    | RandomTxid => (st.1, st)
    | SendTo data _ => (Ok (nlen data), st)
    | RecvFrom _ => (Err (IoError (OtherKind "script") "no datagram"), st)
    | RecvFromT n _ =>
        match st.2 with
        | InTime (Ok (buf, from)) :: rest => (InTime (Ok (take (N.to_nat n) buf, from)), (st.1, rest))
        | r :: rest => (r, (st.1, rest))
        | [] => (Elapsed, st)
        end
    | SleepMs _ => (tt, st)
    end.

(** An answer of the server to this client. *)
Definition answers (txid : bytes) (stun : SocketAddr)
  (r : timed (result io_error (bytes * SocketAddr))) (addr : SocketAddr) : Prop :=
  exists buf from, r = InTime (Ok (buf, from)) /\ ip from = ip stun /\
    parse_response (take 512 buf) txid = Ok (Some addr).

(** Nothing that concerns this client: silence, a datagram from elsewhere, or one
    that is no answer to it. *)
Definition noise (txid : bytes) (stun : SocketAddr)
  (r : timed (result io_error (bytes * SocketAddr))) : Prop :=
  r = Elapsed \/ exists buf from, r = InTime (Ok (buf, from)) /\
    (ip from <> ip stun \/ parse_response (take 512 buf) txid = Ok None).

Lemma attempts_noise `{Ipv6Text} left attempt txid stun r rs :
  noise txid stun r ->
  run udp_script (discover_attempts (T := udp_sig) (S left) attempt (binding_request txid) txid stun) (txid, r :: rs) =
  run udp_script (discover_attempts (T := udp_sig) left (S attempt) (binding_request txid) txid stun) (txid, rs).
Proof.
  intros [->|(buf&from&->&Hn)]; [done|]. cbn [discover_attempts run pbind udp call has_self trigger udp_script fst snd].
  destruct (decide (ip from = ip stun)); [|done]. destruct Hn as [?|Hn]; [done|].
  change (N.to_nat 512) with 512. by rewrite Hn.
Qed.

(** Discovery finds the server's answer among the noise.  Up to two datagrams
    lost, foreign or stale, then an answer: the client returns the address it
    carries; after three without an answer it gives up. *)
Theorem discovery_tries_three_times `{Ipv6Text} txid stun lost rs :
  Forall (noise txid stun) lost ->
  (forall r addr, length lost < 3 -> answers txid stun r addr ->
    (run udp_script (discover_reflexive (T := udp_sig) stun) (txid, lost ++ r :: rs)).1 = Ok addr) /\
  (3 <= length lost ->
    (run udp_script (discover_reflexive (T := udp_sig) stun) (txid, lost ++ rs)).1 =
      Err (AnyMsg ("no STUN response from " +:+ sock_display stun))).
Proof.
  intros Hl. unfold discover_reflexive.
  assert (Hgo : forall left attempt,
    (forall r addr, length lost < left -> answers txid stun r addr ->
      (run udp_script (discover_attempts (T := udp_sig) left attempt (binding_request txid) txid stun)
         (txid, lost ++ r :: rs)).1 = Ok addr) /\
    (left <= length lost ->
      (run udp_script (discover_attempts (T := udp_sig) left attempt (binding_request txid) txid stun)
         (txid, lost ++ rs)).1 = Err (AnyMsg ("no STUN response from " +:+ sock_display stun)))).
  { clear -Hl. induction Hl as [|r0 lost H0 Hl IH]; intros left attempt.
    - split.
      + intros r addr Hlt (buf&from&->&Hip&Hp). destruct left as [|left]; [simpl in Hlt; lia|].
        cbn [discover_attempts run pbind udp call has_self trigger udp_script fst snd app].
        rewrite decide_True by done. change (N.to_nat 512) with 512. by rewrite Hp.
      + intros Hle. destruct left; [done|simpl in Hle; lia].
    - simpl length. destruct left as [|left]; [split; [intros; lia|done]|].
      destruct (IH left (S attempt)) as [IH1 IH2]. cbn [app].
      split; intros; (rewrite attempts_noise by done); [apply IH1; [lia|done]|apply IH2; lia]. }
  apply (Hgo 3 0).
Qed.

Definition demo_txid : bytes := [x01; x02; x03; x04; x05; x06; x07; x08; x09; x0a; x0b; x0c].
Definition demo_reflexive : SocketAddr := Sock (V4 (from_octets 198 51 100 7)) 40000.

#[local] Instance demo_ipv6 : Ipv6Text := fun _ => "::".

Lemma stun_never_panics_witness :
  (exists r, parse_response [] demo_txid = Ok r) /\ exists r, binding_response [] demo_reflexive = Ok r.
Proof. apply (stun_never_panics [] demo_txid demo_reflexive). reflexivity. Defined.

Lemma stun_round_trip_witness :
  exists reply,
    binding_response (binding_request demo_txid) demo_reflexive = Ok (Some reply) /\
    length reply = 32 /\ parse_response reply demo_txid = Ok (Some demo_reflexive) /\
    forall txid', txid' <> demo_txid -> parse_response reply txid' = Ok None.
Proof. by apply (stun_round_trip demo_txid (from_octets 198 51 100 7) 40000). Defined.

Definition demo_answer : timed (result io_error (bytes * SocketAddr)) :=
  InTime (Ok (reply_bytes demo_txid xbd x52 xe7 x21 xc0 x45, Sock (V4 1) 3478)).

Lemma discovery_tries_three_times_witness :
  (run udp_script (discover_reflexive (T := udp_sig) (Sock (V4 1) 3478)) (demo_txid, [Elapsed; demo_answer])).1 =
    Ok demo_reflexive.
Proof.
  apply (discovery_tries_three_times demo_txid (Sock (V4 1) 3478) [Elapsed] []).
  - apply Forall_singleton. by left.
  - simpl. lia.
  - eexists _, _. split; [reflexivity|]. split; reflexivity.
Defined.
