(* ===== verification/Candidates.v ===== *)
(** * Hole-punching candidates ([vendored-from-bore/holepunch.rs])

    The chain of STUN servers a client tries, their resolution, the candidates it
    gathers, and the class of the NAT in front of it. *)

From stdpp Require Import list.
From S2P Require Import Prelude Streams Proto Transport Fs Addresses Stun.

(** ** STUN targets *)

Inductive StunSource : Type := Override | PublicDefault | BoreFallback | PeerHint | Single.

#[export] Instance StunSource_eq_decision : EqDecision StunSource.
Proof. solve_decision. Defined.

Definition stun_source_as_str (s : StunSource) : string :=
  match s with
  | Override => "override"
  | PublicDefault => "public-default"
  | BoreFallback => "bore-fallback"
  | PeerHint => "peer-hint"
  | Single => "single"
  end.

Record StunTarget : Type := { requested : string; target_addr : SocketAddr; source : StunSource }.

Record SelectedStun : Type := {
  selected_requested : string;
  selected_addr : SocketAddr;
  selected_source : StunSource;
  reflexive : SocketAddr;
}.

Inductive UdpCandidateKind : Type := Reflexive | RouterMapped | Predicted | Local.

#[export] Instance UdpCandidateKind_eq_decision : EqDecision UdpCandidateKind.
Proof. solve_decision. Defined.

Definition candidate_kind_as_str (k : UdpCandidateKind) : string :=
  match k with
  | Reflexive => "reflexive"
  | RouterMapped => "router-mapped"
  | Predicted => "predicted"
  | Local => "local"
  end.

Record CandidateDiscovery : Type := {
  candidates : list SocketAddr;
  candidate_kinds : list UdpCandidateKind;
  local_addr : option SocketAddr;
  selected_stun : option SelectedStun;
  attempted_stun : N;
}.

Definition PUBLIC_STUN : list string :=
  ["stun.cloudflare.com:3478"; "stun.l.google.com:19302"; "stun1.l.google.com:19302"].

(** [CONTROL_PORT] of the reference is that of the port. *)
Definition bore_stun_target (host : string) (port : N) : string :=
  let stun_port := if (port =? 443)%N || (port =? 80)%N then CONTROL_PORT else port in
  host +:+ ":" +:+ pretty stun_port.

Definition push_unique_stun_target (targets : list (string * StunSource)) (target : string)
  (source : StunSource) : list (string * StunSource) :=
  if negb (existsb (fun t => String.eqb t.1 target) targets) then targets ++ [(target, source)]
  else targets.

Definition live_stun_target_specs_with_hint (host : string) (port : N)
  (override_server peer_hint : option string) : list (string * StunSource) :=
  match override_server with
  | Some server => [(server, Override)]
  | None =>
      let targets :=
        match peer_hint with
        | Some hint => if String.eqb hint "" then [] else push_unique_stun_target [] hint PeerHint
        | None => []
        end in
      let targets :=
        foldl (fun targets server => push_unique_stun_target targets server PublicDefault)
          targets PUBLIC_STUN in
      push_unique_stun_target targets (bore_stun_target host port) BoreFallback
  end.

Definition live_stun_target_specs (host : string) (port : N) (override_server : option string) :
  list (string * StunSource) :=
  live_stun_target_specs_with_hint host port override_server None.

Definition live_stun_target_names (host : string) (port : N) (override_server : option string) :
  list string :=
  fst <$> live_stun_target_specs host port override_server.

Definition live_stun_target_names_with_hint (host : string) (port : N)
  (override_server peer_hint : option string) : list string :=
  fst <$> live_stun_target_specs_with_hint host port override_server peer_hint.

(** ** What the host answers *)

(** DNS, the sockets of this host, and the [igd_next] crate. *)
Inductive host_op : Type :=
| LookupHost (target : string)
| LocalAddr                              (* of the socket of the session *)
| ProbeBind                              (* 0.0.0.0:0 *)
| ProbeConnect                           (* to 8.8.8.8:53 *)
| ProbeAddr
| SearchGateway
| AddAnyPort (local : SocketAddr)
| GetExternalIp.

Definition host_sig : sig :=
  Sig host_op (fun o =>
    match o with
    | LookupHost _ => result io_error (list SocketAddr)
    | LocalAddr | ProbeAddr => result io_error SocketAddr
    | ProbeBind | ProbeConnect => result io_error unit
    | SearchGateway => result string unit
    | AddAnyPort _ => result string N
    | GetExternalIp => result string IpAddr
    end).

Definition is_ipv4 (s : SocketAddr) : bool := match ip s with V4 _ => true | V6 _ => false end.

Definition PREDICT_RANGE : nat := 4.

Section Gather.
Context {T : sig} `{Has udp_sig T} `{Has host_sig T} `{Ipv6Text}.

Definition host (o : host_op) : prog T (resp (s := host_sig) o) := call (S := host_sig) o.

(** The first IPv4 address, or else the last one. *)
Definition resolve_stun_target (target : string) : prog T (ares SocketAddr) :=
  let! r := host (LookupHost target) in
  Ret (rbind (map_err (fun e => AnyContext ("failed to resolve STUN server " +:+ target) (AnyIo e)) r)
        (fun addrs =>
         ok_or (match List.find is_ipv4 addrs with Some a => Some a | None => last addrs end)
           (AnyMsg ("no addresses for STUN server " +:+ target)))).

(** [for (requested, source) in ..]. *)
Fixpoint resolve_specs (specs : list (string * StunSource)) (targets : list StunTarget) :
  prog T (ares (list StunTarget)) :=
  match specs with
  | [] => Ret (Ok targets)
  | (requested, source) :: specs' =>
      let! r := resolve_stun_target requested in
      match r with
      | Ok addr =>
          resolve_specs specs'
            (targets ++ [{| requested := requested; target_addr := addr; source := source |}])
      | Err _ => resolve_specs specs' targets
      | Panicked => Ret Panicked
      end
  end.

Definition resolve_live_stun_targets_with_hint (host : string) (port : N)
  (override_server peer_hint : option string) : prog T (ares (list StunTarget)) :=
  let? targets := resolve_specs (live_stun_target_specs_with_hint host port override_server peer_hint) [] in
  Ret (match targets with
       | [] => Err (AnyMsg "no STUN servers could be resolved")
       | _ => Ok targets
       end).

Definition resolve_live_stun_targets (host : string) (port : N) (override_server : option string) :
  prog T (ares (list StunTarget)) :=
  resolve_live_stun_targets_with_hint host port override_server None.

Definition resolve_stun (host : string) (port : N) (override_server : option string) :
  prog T (ares SocketAddr) :=
  resolve_stun_target (default (bore_stun_target host port) override_server).

Definition primary_local_ip : prog T (option IpAddr) :=
  let! bound := host ProbeBind in
  match bound with
  | Ok _ =>
      let! connected := host ProbeConnect in
      match connected with
      | Ok _ =>
          let! local := host ProbeAddr in
          Ret (match local with
               | Ok (Sock (V4 a) _) => if (a =? 0)%N then None else Some (V4 a)
               | _ => None
               end)
      | _ => Ret None
      end
  | _ => Ret None
  end.

Definition upnp_candidate (local_port : N) : prog T (ares SocketAddr) :=
  let! local_ip := primary_local_ip in
  let? local_ip := Ret (ok_or local_ip (AnyMsg "no local IPv4 for UPnP mapping")) in
  let? _ := (let! r := host SearchGateway in
             Ret (map_err (fun e => AnyContext "no UPnP-IGD gateway found" (AnyMsg e)) r)) in
  let? external_port := (let! r := host (AddAnyPort (Sock local_ip local_port)) in
             Ret (map_err (fun e => AnyContext "UPnP-IGD port mapping request failed" (AnyMsg e)) r)) in
  let? wan := (let! r := host GetExternalIp in
             Ret (map_err (fun e => AnyContext "UPnP-IGD external IP query failed" (AnyMsg e)) r)) in
  Ret (Ok (Sock wan external_port)).

(** [for delta in 1..=PREDICT_RANGE { if let Some(port) = base.checked_add(delta) .. }]. *)
Definition predicted (addr : SocketAddr) : list SocketAddr :=
  omap (fun delta =>
    let p := (port addr + N.of_nat delta)%N in
    if (p <=? u16_max)%N then Some (Sock (ip addr) p) else None) (seq 1 PREDICT_RANGE).

(** The loop over the targets ends at the first that answers. *)
Fixpoint probe_targets (stun_targets : list StunTarget) (port_prediction : bool) :
  prog T (ares (list SocketAddr * list UdpCandidateKind * option SelectedStun)) :=
  match stun_targets with
  | [] => Ret (Ok ([], [], None))
  | target :: rest =>
      let! r := discover_reflexive (target_addr target) in
      match r with
      | Ok addr =>
          let selected := {| selected_requested := requested target;
                             selected_addr := target_addr target;
                             selected_source := source target; reflexive := addr |} in
          let extra := if port_prediction then predicted addr else [] in
          Ret (Ok (addr :: extra, Reflexive :: ((fun _ => Predicted) <$> extra), Some selected))
      | Err _ => probe_targets rest port_prediction
      | Panicked => Ret Panicked
      end
  end.

(** [if !candidates.contains(&addr) { .. }], on both lists. *)
Definition push_new (addr : SocketAddr) (kind : UdpCandidateKind)
  (found : list SocketAddr * list UdpCandidateKind) : list SocketAddr * list UdpCandidateKind :=
  if bool_decide (addr ∈ found.1) then found else (found.1 ++ [addr], found.2 ++ [kind]).

Definition gather_candidates_from_stun_targets (stun_targets : list StunTarget)
  (port_map port_prediction : bool) : prog T (ares CandidateDiscovery) :=
  let! local := host LocalAddr in
  let? local_addr := Ret (match local with Ok a => Ok (Some a) | Err _ => Ok None | Panicked => Panicked end) in
  let local_port := match local_addr with Some a => port a | None => 0%N end in
  let? found := probe_targets stun_targets port_prediction in
  let '(cands, kinds, selected) := found in
  let? mapped :=
    (if port_map then
       let! r := upnp_candidate local_port in
       Ret (match r with
            | Ok addr => Ok (push_new addr RouterMapped (cands, kinds))
            | Err _ => Ok (cands, kinds)
            | Panicked => Panicked
            end)
     else Ret (Ok (cands, kinds))) in
  let! primary := primary_local_ip in
  let all := match primary with
             | Some i => push_new (Sock i local_port) Local mapped
             | None => mapped
             end in
  Ret (Ok {| candidates := all.1; candidate_kinds := all.2; local_addr := local_addr;
             selected_stun := selected; attempted_stun := nlen stun_targets |}).

Definition gather_candidates (stun : SocketAddr) (port_map port_prediction : bool) :
  prog T (ares (list SocketAddr)) :=
  let target := {| requested := sock_display stun; target_addr := stun; source := Single |} in
  let? d := gather_candidates_from_stun_targets [target] port_map port_prediction in
  Ret (Ok (candidates d)).
End Gather.

(** ** NAT classes *)

Record StunObservation : Type := { obs_server : string; obs_reflexive : SocketAddr }.

Inductive NatClass : Type :=
| Blocked
| Open
| Inconclusive
| Cone
| Symmetric (sequential : bool).

#[export] Instance NatClass_eq_decision : EqDecision NatClass.
Proof. solve_decision. Defined.

Definition is_cgnat (i : IpAddr) : bool :=
  match i with
  | V4 a => (octet a 0 =? 100)%N && (N.land (octet a 1) 192 =? 64)%N
  | V6 _ => false
  end.

(** [Ipv4Addr::is_private], [is_loopback], [is_link_local]. *)
Definition is_private (a : Ipv4Addr) : bool :=
  (octet a 0 =? 10)%N ||
  ((octet a 0 =? 172)%N && (16 <=? octet a 1)%N && (octet a 1 <=? 31)%N) ||
  ((octet a 0 =? 192)%N && (octet a 1 =? 168)%N).
Definition is_loopback (a : Ipv4Addr) : bool := (octet a 0 =? 127)%N.
Definition is_link_local (a : Ipv4Addr) : bool := (octet a 0 =? 169)%N && (octet a 1 =? 254)%N.

Definition v6_of (n : byte) : Ipv6Addr := replicate 15 x00 ++ [n].

Definition is_non_routable (i : IpAddr) : bool :=
  match i with
  | V4 a => is_private a || is_loopback a || is_link_local a || is_cgnat i
  | V6 a => bool_decide (a = v6_of x01) || bool_decide (a = v6_of x00)
  end.

Definition routability_note (i : IpAddr) : string :=
  if is_cgnat i then " (CGNAT 100.64/10)"
  else if is_non_routable i then " (private)"
  else "".

(** The elements of a [BTreeSet<u16>], in order. *)
Fixpoint insert_port (p : N) (ps : list N) : list N :=
  match ps with
  | [] => [p]
  | q :: ps' =>
      if (p =? q)%N then ps else if (p <? q)%N then p :: ps else q :: insert_port p ps'
  end.

Definition port_set (l : list N) : list N := foldr insert_port [] l.

(** [windows(2).all(|w| (1..=8).contains(&w[1].saturating_sub(w[0])))]. *)
Fixpoint sequential_ports (l : list N) : bool :=
  match l with
  | a :: (b :: _) as l' => (1 <=? b - a)%N && (b - a <=? 8)%N && sequential_ports l'
  | _ => true
  end.

Definition classify_nat (local_ips : list IpAddr) (obs : list StunObservation) : NatClass :=
  match obs with
  | [] => Blocked
  | _ =>
      if existsb (fun o => bool_decide (ip (obs_reflexive o) ∈ local_ips)) obs then Open
      else if length obs =? 1 then Inconclusive
      else
        let ports := port_set ((fun o => port (obs_reflexive o)) <$> obs) in
        let ips := remove_dups ((fun o => ip (obs_reflexive o)) <$> obs) in
        if (length ports =? 1) && (length ips =? 1) then Cone
        else Symmetric (sequential_ports ports)
  end.

(** * Theorems about hole-punching candidates

    The chain of STUN servers, what a gathering of candidates answers whatever the
    network does, and what the NAT classes mean. *)

(** ** The chain *)

Lemma push_unique_names targets target source :
  fst <$> push_unique_stun_target targets target source =
    if bool_decide (target ∈ fst <$> targets) then fst <$> targets else (fst <$> targets) ++ [target].
Proof.
  unfold push_unique_stun_target.
  replace (existsb (fun t => String.eqb t.1 target) targets) with (bool_decide (target ∈ fst <$> targets)).
  - case_bool_decide; cbn [negb]; [done|]. by rewrite fmap_app.
  - induction targets as [|[t s] targets IH]; [by apply bool_decide_eq_false; intros ?%elem_of_nil|].
    cbn [existsb fst]. rewrite <- IH. rewrite fmap_cons. simpl fst.
    destruct (String.eqb_spec t target) as [->|Hne].
    + apply bool_decide_eq_true. by left.
    + cbn [orb]. apply bool_decide_ext. rewrite elem_of_cons. naive_solver.
Qed.

(** Adding a list of names to a list of distinct names, each once. *)
Definition add_name (names : list string) (n : string) : list string :=
  if bool_decide (n ∈ names) then names else names ++ [n].

Lemma add_name_spec names n :
  NoDup names -> NoDup (add_name names n) /\ names `prefix_of` add_name names n /\ n ∈ add_name names n.
Proof.
  intros Hn. unfold add_name. case_bool_decide as E; [by split_and!|]. split_and!.
  - apply NoDup_app. split_and!; [done| |apply NoDup_singleton].
    intros x Hx ->%list_elem_of_singleton. done.
  - by eexists.
  - apply elem_of_app. right. by left.
Qed.

Lemma add_names_spec ns names :
  NoDup names ->
  let all := foldl add_name names ns in
  NoDup all /\ names `prefix_of` all /\ forall n, n ∈ ns -> n ∈ all.
Proof.
  revert names; induction ns as [|n ns IH]; intros names Hn; simpl.
  - split_and!; [done..|]. by intros n ?%elem_of_nil.
  - destruct (add_name_spec names n Hn) as (H1&H2&H3).
    destruct (IH _ H1) as (I1&I2&I3). split_and!; [done|by etrans|].
    intros x [->|Hx]%elem_of_cons; [|by apply I3].
    destruct I2 as [rest ->]. apply elem_of_app. by left.
Qed.

Lemma push_public targets l :
  fst <$> foldl (fun targets server => push_unique_stun_target targets server PublicDefault) targets l =
    foldl add_name (fst <$> targets) l.
Proof.
  revert targets; induction l as [|s l IH]; intros targets; [done|]. simpl.
  by rewrite IH, push_unique_names.
Qed.

(** The chain of STUN servers.  An override is the whole chain.  Without one no
    server is tried twice, the peer's hint comes first, and the public servers
    and the server's own responder are all in it. *)
Theorem stun_chain_is_complete host port hint :
  (forall server, live_stun_target_names_with_hint host port (Some server) hint = [server]) /\
  let names := live_stun_target_names_with_hint host port None hint in
  NoDup names /\
  (forall h, hint = Some h -> h <> "" -> head names = Some h) /\
  (forall s, s ∈ PUBLIC_STUN -> s ∈ names) /\ bore_stun_target host port ∈ names.
Proof.
  split; [done|]. unfold live_stun_target_names_with_hint, live_stun_target_specs_with_hint. cbv zeta.
  set (start := match hint with
                | Some h => if String.eqb h "" then [] else push_unique_stun_target [] h PeerHint
                | None => [] end).
  rewrite push_unique_names, push_public. fold (add_name (foldl add_name (fst <$> start) PUBLIC_STUN)
    (bore_stun_target host port)).
  assert (Hs : NoDup (fst <$> start) /\ forall h, hint = Some h -> h <> "" -> fst <$> start = [h]).
  { unfold start. destruct hint as [h|]; [|split; [apply NoDup_nil_2|done]].
    destruct (String.eqb_spec h "") as [E|]; [split; [apply NoDup_nil_2|by intros h' [= <-]]|].
    split; [apply NoDup_singleton|]. by intros h' [= <-]. }
  destruct Hs as [Hs Hhint]. destruct (add_names_spec PUBLIC_STUN _ Hs) as (H1&H2&H3).
  destruct (add_name_spec _ (bore_stun_target host port) H1) as (I1&I2&I3).
  split_and!; [done| | |done].
  - intros h E Hne. destruct H2 as [r1 E1], I2 as [r2 E2]. rewrite E2, E1, (Hhint h E Hne). done.
  - intros s Hin. destruct I2 as [rest ->]. apply elem_of_app. left. by apply H3.
Qed.

(** ** Gathering *)

(** The addresses of a list and their labels correspond. *)
Definition labelled (cands : list SocketAddr) (kinds : list UdpCandidateKind)
  (selected : option SelectedStun) : Prop :=
  NoDup cands /\ length cands = length kinds /\
  match selected with
  | Some s => head cands = Some (reflexive s) /\ head kinds = Some Reflexive
  | None => Reflexive ∉ kinds
  end /\
  forall i a, cands !! i = Some a -> kinds !! i = Some Predicted ->
    exists s, selected = Some s /\ ip a = ip (reflexive s) /\
      (port (reflexive s) < port a <= u16_max)%N /\ (port a <= port (reflexive s) + 4)%N.

Lemma predicted_spec addr a :
  a ∈ predicted addr ->
  ip a = ip addr /\ (port addr < port a <= u16_max)%N /\ (port a <= port addr + 4)%N.
Proof.
  unfold predicted. intros (d&Hd&E)%list_elem_of_omap. simpl in E.
  destruct (N.leb_spec (port addr + N.of_nat d) u16_max) as [Hl|]; [|done]. injection E as <-.
  apply elem_of_seq in Hd. unfold PREDICT_RANGE in Hd. simpl. split; [done|lia].
Qed.

Lemma predicted_NoDup addr : NoDup (predicted addr).
Proof.
  unfold predicted. generalize (NoDup_seq 1 PREDICT_RANGE). generalize (seq 1 PREDICT_RANGE).
  intros l Hl. induction Hl as [|d l Hd Hl IH]; [apply NoDup_nil_2|]. cbn [omap list_omap].
  destruct (_ <=? u16_max)%N; [|done]. apply NoDup_cons. split; [|done].
  intros (d'&Hd'&E)%list_elem_of_omap. destruct (_ <=? u16_max)%N; [|done].
  injection E as E. assert (d' = d) by lia. by subst.
Qed.

Section Gathering.
Context {T : sig} `{Has udp_sig T} `{Has host_sig T} `{Ipv6Text}.

Lemma probe_targets_labelled targets prediction :
  always (fun r => forall c k s, r = Ok (c, k, s) -> labelled c k s)
    (probe_targets (T := T) targets prediction).
Proof.
  induction targets as [|t targets IH]; cbn [probe_targets].
  - intros c k s [= <- <- <-]. split_and!; [apply NoDup_nil_2|done|by intros ?%elem_of_nil|done].
  - apply (always_bind (fun _ => True)); [by apply always_true|]. intros r _.
    destruct r as [addr|e|]; [|exact IH|done].
    intros c k s [= <- <- <-]. cbn [reflexive].
    assert (Hp : forall a, a ∈ (if prediction then predicted addr else []) -> a ∈ predicted addr).
    { destruct prediction; [done|by intros a ?%elem_of_nil]. }
    split_and!; try done.
    + apply NoDup_cons. split.
      * intros Hin%Hp%predicted_spec. lia.
      * destruct prediction; [apply predicted_NoDup|apply NoDup_nil_2].
    + simpl. by rewrite length_fmap.
    + intros [|i] a Ha Hk; [done|]. simpl in Ha. eexists. split; [done|]. cbn [reflexive].
      by eapply predicted_spec, Hp, list_elem_of_lookup_2.
Qed.

Lemma push_new_labelled addr kind c k s :
  kind <> Reflexive -> kind <> Predicted -> labelled c k s ->
  labelled (push_new addr kind (c, k)).1 (push_new addr kind (c, k)).2 s.
Proof.
  intros Hr Hp (Hn&Hl&Hs&Hpred). unfold push_new. case_bool_decide as Ha; [by split_and!|]. simpl in *.
  split_and!.
  - apply NoDup_app. split_and!; [done| |apply NoDup_singleton]. by intros x Hx ->%list_elem_of_singleton.
  - rewrite !length_app. simpl. lia.
  - destruct s as [s|].
    + destruct Hs as [Hc Hk]. by destruct c, k.
    + rewrite elem_of_app, list_elem_of_singleton. naive_solver.
  - intros i a Hi Hk. apply lookup_app_Some in Hk as [Hk|[Hge Hk]].
    + apply (Hpred i); [|done]. rewrite lookup_app_l in Hi; [done|].
      apply lookup_lt_Some in Hk. lia.
    + apply list_lookup_singleton_Some in Hk as [_ ?]. congruence.
Qed.

(** Gathered candidates are distinct and labelled right.  Whatever the STUN
    servers, the router and the kernel answer, no address is offered twice, each
    has its label, the selected server's answer comes first, and a predicted port
    is one to four past it and still a port. *)
Theorem candidates_are_labelled targets port_map prediction :
  always (fun r => forall d, r = Ok d ->
      labelled (candidates d) (candidate_kinds d) (selected_stun d) /\ attempted_stun d = nlen targets)
    (gather_candidates_from_stun_targets (T := T) targets port_map prediction).
Proof.
  unfold gather_candidates_from_stun_targets.
  apply (always_bind (fun _ => True)); [by apply always_true|]. intros local _. unfold ptry.
  apply (always_bind (fun _ => True)); [by apply always_true|]. intros [local_addr|e|] _; [|done..].
  eapply always_bind; [apply probe_targets_labelled|]. intros [[[c k] s]|e|] Hl; [|done..].
  specialize (Hl c k s eq_refl).
  apply (always_bind (fun r => forall m, r = Ok m -> labelled m.1 m.2 s)).
  { destruct port_map; [|by intros m [= <-]].
    apply (always_bind (fun _ => True)); [by apply always_true|].
    intros [addr|e|] _; intros m [= <-]; [|done]. by apply push_new_labelled. }
  intros [[c2 k2]|e|] Hm; [|done..]. specialize (Hm _ eq_refl).
  apply (always_bind (fun _ => True)); [by apply always_true|]. intros primary _.
  intros d [= <-]. split; [|done]. destruct primary as [i|]; [|done]. by apply push_new_labelled.
Qed.
End Gathering.

(** ** NAT classes *)

Lemma elem_of_insert_port p q l : p ∈ insert_port q l <-> p = q \/ p ∈ l.
Proof.
  induction l as [|x l IH]; cbn [insert_port]; [by rewrite list_elem_of_singleton, elem_of_nil; intuition|].
  destruct (N.eqb_spec q x) as [->|]; [rewrite elem_of_cons; intuition|].
  destruct (q <? x)%N; rewrite !elem_of_cons; [done|]. rewrite IH. intuition.
Qed.

Lemma elem_of_port_set p l : p ∈ port_set l <-> p ∈ l.
Proof.
  induction l as [|x l IH]; [done|]. simpl. by rewrite elem_of_insert_port, IH, elem_of_cons.
Qed.

(** The set is sorted, so that its windows are the gaps between its ports. *)
Lemma insert_port_sorted q l : StronglySorted N.lt l -> StronglySorted N.lt (insert_port q l).
Proof.
  induction 1 as [|x l Hl IH Hx]; cbn [insert_port]; [repeat constructor|].
  destruct (N.eqb_spec q x) as [->|]; [by constructor|].
  destruct (N.ltb_spec q x) as [Hlt|Hge].
  - constructor; [by constructor|]. constructor; [done|].
    eapply Forall_impl; [exact Hx|]. simpl. intros y Hy. lia.
  - constructor; [done|]. apply Forall_forall. intros y [->|Hy]%elem_of_insert_port; [lia|].
    by apply (proj1 (Forall_forall _ _) Hx).
Qed.

Lemma port_set_sorted l : StronglySorted N.lt (port_set l).
Proof. induction l as [|x l IH]; [constructor|]. by apply insert_port_sorted. Qed.

Lemma sorted_NoDup l : StronglySorted N.lt l -> NoDup l.
Proof.
  induction 1 as [|x l Hl IH Hx]; constructor; [|done].
  intros Hin. pose proof (proj1 (Forall_forall _ _) Hx x Hin). lia.
Qed.

(** A list without duplicates has one element iff what it lists is all one. *)
Lemma one_element {A} (d l : list A) :
  NoDup d -> (forall x, x ∈ d <-> x ∈ l) ->
  length d = 1 <-> exists x, l <> [] /\ Forall (fun y => y = x) l.
Proof.
  intros Hn Hd. split.
  - intros Hl. destruct d as [|x [|y d]]; [done| |done]. exists x. split.
    + intros ->. apply (not_elem_of_nil x), Hd. by left.
    + apply Forall_forall. intros y Hy%Hd. by apply list_elem_of_singleton.
  - intros (x&Hne&Hall). destruct l as [|z l]; [done|].
    assert (Hx : forall y, y ∈ d -> y = x) by (intros y Hy%Hd; by apply (proj1 (Forall_forall _ _) Hall)).
    destruct d as [|y [|y' d]]; [|done|].
    + exfalso. apply (not_elem_of_nil z), Hd. by left.
    + exfalso. apply NoDup_cons in Hn as [Hy _]. apply Hy.
      rewrite (Hx y), (Hx y') by set_solver. by left.
Qed.

Definition reflexives (obs : list StunObservation) : list SocketAddr := obs_reflexive <$> obs.

Definition small_gaps (ps : list N) : Prop :=
  forall i p q, ps !! i = Some p -> ps !! S i = Some q -> (p + 1 <= q <= p + 8)%N.

Lemma sequential_gaps ps : StronglySorted N.lt ps -> sequential_ports ps = true <-> small_gaps ps.
Proof.
  unfold small_gaps. induction 1 as [|p l Hl IH Hp]; [by split|].
  destruct l as [|q l]; [split; [intros _ [|i] ? ?; done|done]|].
  cbn [sequential_ports]. rewrite !andb_true_iff, !N.leb_le, IH.
  apply Forall_cons in Hp as [Hpq _]. split.
  - intros [[H1 H8] Hall] [|i] x y Hx Hy; [|by apply (Hall i)].
    simpl in Hx, Hy. injection Hx as <-. injection Hy as <-. lia.
  - intros Hall. pose proof (Hall 0 p q eq_refl eq_refl). split; [lia|].
    intros i x y Hx Hy. by apply (Hall (S i)).
Qed.

(** One element among the values of [f]. *)
Lemma one_value {A} (f : StunObservation -> A) d obs :
  NoDup d -> (forall x, x ∈ d <-> x ∈ f <$> obs) ->
  length d = 1 <-> exists x, obs <> [] /\ Forall (fun o => f o = x) obs.
Proof.
  intros Hn Hd. rewrite (one_element _ (f <$> obs)) by done.
  split; intros (x&Hne&Hall); exists x; rewrite Forall_fmap in *; (split; [|done]); by destruct obs.
Qed.

(** The class of a NAT is what its mappings say.  [Cone] means that two or more
    servers saw the same address, which is none of the host's; [Symmetric] with
    sequential ports that each gap between the sorted ports is one to eight. *)
Theorem cone_means_one_mapping local_ips obs :
  (classify_nat local_ips obs = Cone <->
    2 <= length obs /\ exists a, ip a ∉ local_ips /\ Forall (fun o => obs_reflexive o = a) obs) /\
  (forall b, classify_nat local_ips obs = Symmetric b ->
    exists ps, StronglySorted N.lt ps /\ (forall p, p ∈ ps <-> p ∈ port <$> reflexives obs) /\
      (b = true <-> small_gaps ps)).
Proof.
  set (ports := port_set ((fun o => port (obs_reflexive o)) <$> obs)).
  set (ips := remove_dups ((fun o => ip (obs_reflexive o)) <$> obs)).
  assert (Hp : length ports = 1 <-> exists x, obs <> [] /\ Forall (fun o => port (obs_reflexive o) = x) obs).
  { apply one_value; [apply sorted_NoDup, port_set_sorted|]. intros x. apply elem_of_port_set. }
  assert (Hi : length ips = 1 <-> exists x, obs <> [] /\ Forall (fun o => ip (obs_reflexive o) = x) obs).
  { apply one_value; [apply NoDup_remove_dups|]. intros x. apply elem_of_remove_dups. }
  unfold classify_nat. fold ports ips.
  destruct obs as [|o obs']; [split; [split; [done|intros [? _]; simpl in *; lia]|done]|].
  set (obs := o :: obs') in *.
  destruct (existsb _ obs) eqn:Eo.
  { split; [|done]. split; [done|]. intros (_&a&Ha&Hall).
    apply existsb_exists in Eo as (x&Hx&E). apply bool_decide_eq_true in E.
    rewrite (proj1 (Forall_forall _ _) Hall x) in E; [done|]. by apply list_elem_of_In. }
  destruct (Nat.eqb_spec (length obs) 1) as [El|El].
  { split; [|done]. split; [done|]. intros [? _]. lia. }
  destruct ((length ports =? 1) && (length ips =? 1)) eqn:Eb.
  - split; [|done]. split; [|done]. intros _. apply andb_true_iff in Eb as [Eb1 Eb2].
    apply Nat.eqb_eq, Hp in Eb1 as (p&_&Hport). apply Nat.eqb_eq, Hi in Eb2 as (i&_&Hip).
    split; [unfold obs in *; simpl in *; lia|]. exists (Sock i p). split.
    + intros Hin. rewrite <- not_true_iff_false in Eo. apply Eo, existsb_exists.
      exists o. split; [by left|]. apply bool_decide_eq_true.
      by rewrite (proj1 (Forall_forall _ _) Hip o) by by left.
    + apply Forall_forall. intros x Hx.
      rewrite <- (proj1 (Forall_forall _ _) Hport x Hx), <- (proj1 (Forall_forall _ _) Hip x Hx).
      by destruct (obs_reflexive x).
  - split.
    + split; [done|]. intros (Hl&a&Ha&Hall). exfalso. apply andb_false_iff in Eb as [Eb|Eb];
        apply Nat.eqb_neq in Eb; apply Eb; [apply Hp; exists (port a)|apply Hi; exists (ip a)];
        (split; [done|]); (eapply Forall_impl; [exact Hall|]); by intros x ->.
    + intros b [= <-]. exists ports. split; [apply port_set_sorted|]. split.
      { intros p. unfold ports, reflexives. rewrite elem_of_port_set, <- list_fmap_compose. done. }
      apply sequential_gaps, port_set_sorted.
Qed.

(** One port seen under two addresses has no gaps, so it counts as sequential. *)
Lemma one_port_counts_as_sequential p :
  classify_nat [] [{| obs_server := "a"; obs_reflexive := Sock (V4 1) p |};
                   {| obs_server := "b"; obs_reflexive := Sock (V4 2) p |}] = Symmetric true.
Proof. unfold classify_nat, port_set. cbn. by rewrite N.eqb_refl. Qed.

(** ** A host behind a NAT *)

(** The first STUN server does not answer, the second one does. *)
Definition demo_host : handler host_sig unit :=
  fun o st =>
    match o return resp (s := host_sig) o * unit with
    | LookupHost _ => (Ok [Sock (V4 1) 3478], st)
    | LocalAddr => (Ok (Sock (V4 0) 40000), st)
    | ProbeBind | ProbeConnect => (Ok tt, st)
    | ProbeAddr => (Ok (Sock (V4 (from_octets 192 168 1 5)) 9), st)
    | SearchGateway => (Err "none", st)
    | AddAnyPort _ => (Err "none", st)
    | GetExternalIp => (Err "none", st)
    end.

#[local] Instance candidate_demo_ipv6 : Ipv6Text := fun _ => "::".

Definition demo_targets : list StunTarget :=
  [{| requested := "a"; target_addr := Sock (V4 2) 3478; source := PublicDefault |};
   {| requested := "b"; target_addr := Sock (V4 1) 3478; source := PublicDefault |}].

Definition demo_gathered : ares CandidateDiscovery :=
  (run (hsum udp_script demo_host)
     (gather_candidates_from_stun_targets (T := udp_sig ⊕ host_sig) demo_targets true true)
     ((demo_txid, [Elapsed; Elapsed; Elapsed; demo_answer]), tt)).1.

Lemma candidates_are_labelled_witness :
  exists d, demo_gathered = Ok d /\ length (candidates d) = 6 /\
    labelled (candidates d) (candidate_kinds d) (selected_stun d).
Proof.
  eexists. split; [vm_compute; reflexivity|]. split; [reflexivity|].
  refine (proj1 (always_run _ _ (hsum udp_script demo_host)
    ((demo_txid, [Elapsed; Elapsed; Elapsed; demo_answer]), tt)
    (candidates_are_labelled (T := udp_sig ⊕ host_sig) demo_targets true true) _ _)).
  vm_compute. reflexivity.
Defined.
