(* ===== verification/Direct.v ===== *)
(** * The direct path ([vendored-from-bore/holepunch.rs], [mux.rs])

    Tokens, the punching of NAT mappings, the authentication of the two ends of a
    QUIC connection on a stream of it, the one for a virtual host, and the marker
    that opens a forwarded stream. *)

From stdpp Require Import list.
From S2P Require Import Prelude Streams Proto Transport Auth Paths Fs Frames Addresses Stun Candidates.

(** ** Tokens *)

Definition TOKEN_LEN : N := 32.

(** An absent secret is the empty key. *)
Definition derive_token `{Crypto} (secret : option string) (nonce : bytes) : bytes :=
  hmac_sha256 (match secret with Some s => String.list_byte_of_string s | None => [] end) nonce.

(** [for i in 0..TOKEN_LEN { diff |= a[i] ^ b[i] }], on two arrays. *)
Definition tokens_match (a b : bytes) : bool :=
  (foldl (fun diff '(x, y) => N.lor diff (N.lxor (Byte.to_N x) (Byte.to_N y))) 0 (zip a b) =? 0)%N.

(** ** The QUIC connection

    The [quinn] crate: endpoints, handshakes, streams.  [NextAttempt] is the next
    of the concurrent attempts of [select_ok] to finish, under its time budget; each
    is a [direct_candidate] with the token. *)

Inductive quic_op : Type :=
| ConfigureBuffers                       (* best effort *)
| ClientEndpoint
| ServerEndpoint
| AcceptConnection                       (* [endpoint.accept().await] *)
| Handshake                              (* [incoming.await], [connecting.await] *)
| StartConnect
| OpenBi
| AcceptBi
| FinishStream
| NextAttempt (budget : N) (token : bytes).

Definition quic_sig : sig :=
  Sig quic_op (fun o =>
    match o with
    | ClientEndpoint | ServerEndpoint => ares unit
    | AcceptConnection => option unit
    | Handshake | StartConnect | OpenBi | AcceptBi => result string unit
    | NextAttempt _ _ => timed (ares unit)
    | ConfigureBuffers | FinishStream => unit
    end).

Section Quic.
Context {L : sig} `{Has quic_sig L}.

Abbreviation net := (stream_sig ⊕ L).

Definition quic (o : quic_op) : prog net (resp (s := quic_sig) o) := call (S := quic_sig) o.

(** [.context(msg)] on an error of the crate. *)
Definition quic_ctx (msg : string) (r : result string unit) : ares unit :=
  map_err (fun e => AnyContext msg (AnyMsg e)) r.

(** What one end does once the connection is there: the consumer speaks first. *)
Definition consumer_auth (token : bytes) : prog net (ares unit) :=
  let? _ := (let! r := quic OpenBi in Ret (quic_ctx "auth open_bi failed" r)) in
  let? _ := io_try (stream (WriteAll token)) in
  let? _ := io_try (stream Flush) in
  let? peer_token := io_try (stream (ReadExact TOKEN_LEN)) in
  if negb (tokens_match token peer_token) then Ret (Err (AnyMsg "direct path token mismatch"))
  else let! _ := quic FinishStream in Ret (Ok tt).

(** One candidate of [connect_direct]. *)
Definition direct_candidate (token : bytes) : prog net (ares unit) :=
  let? _ := (let! r := quic StartConnect in Ret (map_err AnyMsg r)) in
  let? _ := (let! r := quic Handshake in Ret (map_err AnyMsg r)) in
  consumer_auth token.

Definition provider_auth (token : bytes) : prog net (ares unit) :=
  let? _ := (let! r := quic AcceptBi in Ret (quic_ctx "auth accept_bi failed" r)) in
  let? peer_token := io_try (stream (ReadExact TOKEN_LEN)) in
  if negb (tokens_match token peer_token) then Ret (Err (AnyMsg "direct path token mismatch"))
  else
    let? _ := io_try (stream (WriteAll token)) in
    let? _ := io_try (stream Flush) in
    let! _ := quic FinishStream in Ret (Ok tt).

(** [DirectListener::accept]. *)
Definition listener_accept (token : bytes) : prog net (ares unit) :=
  let! incoming := quic AcceptConnection in
  let? _ := Ret (ok_or incoming (AnyMsg "QUIC endpoint closed")) in
  let? _ := (let! r := quic Handshake in Ret (quic_ctx "QUIC handshake failed" r)) in
  provider_auth token.

(** [select_ok]: the first attempt that succeeds, or the error of the last. *)
Fixpoint select_ok (token : bytes) (left : nat) (last_err : ares unit) : prog net (ares unit) :=
  match left with
  | O => Ret (map_err (AnyContext "all direct candidates failed") last_err)
  | S left' =>
      let! r := quic (NextAttempt NETWORK_TIMEOUT token) in
      match r with
      | InTime (Ok _) => Ret (Ok tt)
      | InTime (Err e) => select_ok token left' (Err e)
      | InTime Panicked => Ret Panicked
      | Elapsed => Ret (Err (AnyMsg "direct connect exhausted the 3s budget"))
      end
  end.

Context `{Has udp_sig L}.

Definition punch_peers : list SocketAddr -> prog net unit :=
  foldr (fun peer rest =>
    let! _ := call (S := udp_sig) (SendTo (String.list_byte_of_string "bore-punch") peer) in rest)
    (Ret tt).

(** [for _ in 0..5]: fifty milliseconds apart. *)
Fixpoint punch_rounds (left : nat) (peers : list SocketAddr) : prog net unit :=
  match left with
  | O => Ret tt
  | S left' =>
      let! _ := punch_peers peers in
      let! _ := call (S := udp_sig) (SleepMs 50) in
      punch_rounds left' peers
  end.

Definition punch (peers : list SocketAddr) : prog net unit := punch_rounds 5 peers.

Definition connect_direct (peers : list SocketAddr) (token : bytes) : prog net (ares unit) :=
  match peers with
  | [] => Ret (Err (AnyMsg "no peer candidates to connect to"))
  | _ =>
      let! _ := quic ConfigureBuffers in
      let! _ := punch peers in
      let? _ := quic ClientEndpoint in
      select_ok token (length peers) (Ok tt)
  end.

(** [DirectListener::new]. *)
Definition listener_new (peers : list SocketAddr) : prog net (ares unit) :=
  let! _ := quic ConfigureBuffers in
  let! _ := punch peers in
  quic ServerEndpoint.

(** ** Virtual hosts *)

Context `{Has timer_sig L}.

Definition in_budget {A} (msg : string) (p : prog net (ares A)) : prog net (ares A) :=
  let! r := timeout NETWORK_TIMEOUT p in
  Ret (match r with InTime r => r | Elapsed => Err (AnyContext msg (AnyMsg "deadline has elapsed")) end).

Definition vhost_auth (subdomain : string) (token : bytes) : prog net (ares unit) :=
  let bs := String.list_byte_of_string subdomain in
  let? _ := (let! r := quic OpenBi in Ret (quic_ctx "auth open_bi failed" r)) in
  let? _ := io_try (stream (WriteAll (to_be_u16 (nlen bs)))) in
  let? _ := io_try (stream (WriteAll bs)) in
  let? _ := io_try (stream (WriteAll token)) in
  let? _ := io_try (stream Flush) in
  let? peer_token := io_try (stream (ReadExact TOKEN_LEN)) in
  if negb (tokens_match token peer_token) then
    Ret (Err (AnyMsg "vhost direct path token mismatch"))
  else let! _ := quic FinishStream in Ret (Ok tt).

Definition vhost_connect (subdomain : string) (token : bytes) : prog net (ares unit) :=
  if (u16_max <? nlen (String.list_byte_of_string subdomain))%N then
    Ret (Err (AnyContext "vhost subdomain too long for QUIC auth frame"
                (AnyMsg "out of range integral type conversion attempted")))
  else
    let! _ := quic ConfigureBuffers in
    let? _ := quic ClientEndpoint in
    let? _ := (let! r := quic StartConnect in Ret (quic_ctx "failed to start vhost QUIC connect" r)) in
    let? _ := in_budget "vhost QUIC connect timed out"
      (let! r := quic Handshake in Ret (quic_ctx "vhost QUIC handshake failed" r)) in
    in_budget "vhost QUIC auth timed out" (vhost_auth subdomain token).

(** [utf8_error] is what [FromUtf8Error] displays. *)
Definition vhost_check (utf8_error : bytes -> string) (lookup : string -> option bytes) :
  prog net (ares string) :=
  let? _ := (let! r := quic AcceptBi in Ret (quic_ctx "auth accept_bi failed" r)) in
  let? sub_len := io_try (stream (ReadExact 2)) in
  let? len := Ret (match sub_len with [a; b] => Ok (be_u16 a b) | _ => Panicked end) in
  let? bs := io_try (stream (ReadExact len)) in
  let subdomain := String.string_of_list_byte bs in
  let? _ := Ret (if valid_utf8 subdomain then Ok tt
                 else Err (AnyContext "vhost auth subdomain is not UTF-8" (AnyMsg (utf8_error bs)))) in
  let? received := io_try (stream (ReadExact TOKEN_LEN)) in
  let? expected := Ret (ok_or (lookup subdomain) (AnyMsg "unknown vhost direct-path subdomain")) in
  if negb (tokens_match expected received) then
    Ret (Err (AnyMsg "vhost direct path token mismatch"))
  else
    let? _ := io_try (stream (WriteAll expected)) in
    let? _ := io_try (stream Flush) in
    let! _ := quic FinishStream in
    Ret (Ok subdomain).

Definition vhost_server_handshake (utf8_error : bytes -> string) (lookup : string -> option bytes) :
  prog net (ares string) :=
  in_budget "vhost QUIC auth timed out" (vhost_check utf8_error lookup).
End Quic.

(** ** The marker of a forwarded stream ([mux.rs]) *)

Definition STREAM_READY : byte := x00.

Section Ready.
Context {L : sig}.

Abbreviation net := (stream_sig ⊕ L).
Abbreviation iores := (result io_error).

Definition write_stream_ready (forward_ip : option string) : prog net (iores unit) :=
  match forward_ip with
  | None => let? _ := stream (WriteAll [STREAM_READY]) in Ret (Ok tt)
  | Some ip =>
      let ip_bytes := String.list_byte_of_string ip in
      let ip_len := N.min (nlen ip_bytes) 255 in
      let? _ := stream (WriteAll [STREAM_READY]) in
      let? _ := stream (WriteAll [byte_of ip_len]) in
      let? _ := stream (WriteAll (take (N.to_nat ip_len) ip_bytes)) in
      Ret (Ok tt)
  end.

Definition invalid_data (msg : string) : io_error := IoError (OtherKind "InvalidData") msg.

(** [utf8_error] is what [FromUtf8Error] displays. *)
Definition read_stream_ready (utf8_error : bytes -> string) (expect_ip : bool) :
  prog net (iores (option string)) :=
  let? marker := stream (ReadExact 1) in
  if negb (bool_decide (marker = [STREAM_READY])) then
    Ret (Err (invalid_data "invalid STREAM_READY marker"))
  else if negb expect_ip then Ret (Ok None)
  else
    let? ip_len := stream (ReadExact 1) in
    let len := from_le_bytes ip_len in
    if (len =? 0)%N then Ret (Ok (Some ""))
    else
      let? ip_bytes := stream (ReadExact len) in
      let ip_string := String.string_of_list_byte ip_bytes in
      Ret (if valid_utf8 ip_string then Ok (Some ip_string)
           else Err (invalid_data ("invalid UTF-8 in IP: " +:+ utf8_error ip_bytes))).
End Ready.
