(* ===== verification/DirectTheorems.v ===== *)
(** * Theorems about the direct path

    Comparing tokens, authenticating the two ends of a connection against each
    other, and the marker of a stream. *)

From stdpp Require Import list.
From S2P Require Import Prelude Streams Proto Transport Auth Paths Fs Frames Addresses Stun Candidates Direct.
From S2P Require Import Tracker Resume Workers Exchange.

(** ** Comparing tokens *)

Lemma lor_zero x y : N.lor x y = 0%N <-> x = 0%N /\ y = 0%N.
Proof. apply N.lor_eq_0_iff. Qed.

Lemma lxor_bytes a b : N.lxor (Byte.to_N a) (Byte.to_N b) = 0%N <-> a = b.
Proof.
  rewrite N.lxor_eq_0_iff. split; [|by intros ->]. intros E.
  by rewrite <- (byte_of_to_N a), <- (byte_of_to_N b), E.
Qed.

Lemma match_fold a b d :
  length a = length b ->
  foldl (fun diff '(x, y) => N.lor diff (N.lxor (Byte.to_N x) (Byte.to_N y))) d (zip a b) = 0%N <->
  d = 0%N /\ a = b.
Proof.
  revert b d; induction a as [|x a IH]; intros [|y b] d Hl; try done; [simpl; naive_solver|].
  simpl. rewrite IH by (simpl in Hl; lia). rewrite lor_zero, lxor_bytes. naive_solver.
Qed.

Lemma tokens_match_eq a b : length a = length b -> tokens_match a b = bool_decide (a = b).
Proof.
  intros Hl. unfold tokens_match. apply eq_true_iff_eq.
  rewrite N.eqb_eq, match_fold, bool_decide_eq_true by done. naive_solver.
Qed.

(** ** Authentication *)

(** A network on which the QUIC handshakes succeed. *)
Definition quic_works {L St} (h : handler L St) `{Has quic_sig L} : Prop :=
  forall o st, run h (call (S := quic_sig) o) st =
    (match o return resp (s := quic_sig) o with
     | ClientEndpoint | ServerEndpoint => Ok tt
     | AcceptConnection => Some tt
     | Handshake | StartConnect | OpenBi | AcceptBi => Ok tt
     | NextAttempt _ _ => Elapsed
     | ConfigureBuffers | FinishStream => tt
     end, st).

Section Authentication.
Context {L : sig} {St : Type} (h : handler L St) `{Has quic_sig L}.
Context (Hq : quic_works h).

Lemma behaves_quic {A} m o (k : resp (s := quic_sig) o -> prog (stream_sig ⊕ L) A) st τ a st' :
  behaves m h (k (run h (call (S := quic_sig) o) st).1) st τ a st' ->
  behaves m h (pbind (quic o) k) st τ a st'.
Proof.
  intros Hb. rewrite (Hq o) in Hb.
  exact (behaves_call (S := quic_sig) m h o _ _ _ _ _ _ _ (Hq o st) Hb).
Qed.

(** A call under [?]. *)
Lemma behaves_quic_try {A} m o (f : resp (s := quic_sig) o -> ares unit)
  (k : unit -> prog (stream_sig ⊕ L) (ares A)) st τ a st' :
  f (run h (call (S := quic_sig) o) st).1 = Ok tt ->
  behaves m h (k tt) st τ a st' ->
  behaves m h (ptry (let! r := quic o in Ret (f r)) k) st τ a st'.
Proof.
  intros Hf Hb. unfold ptry. apply behaves_assoc. apply behaves_quic. cbn [pbind]. by rewrite Hf.
Qed.

Lemma behaves_flush {A} m (k : unit -> prog (stream_sig ⊕ L) (ares A)) st τ a st' :
  behaves m h (k tt) st τ a st' -> behaves m h (ptry (io_try (stream Flush)) k) st τ a st'.
Proof. intros Hb. apply bh_flush. exact Hb. Qed.

Lemma consumer_behaves token peer st :
  nlen token = TOKEN_LEN -> nlen peer = TOKEN_LEN ->
  behaves Exact h (consumer_auth token) st (snds token ++ rcvs peer)
    (if bool_decide (token = peer) then Ok tt else Err (AnyMsg "direct path token mismatch")) st.
Proof.
  intros Ht Hp. unfold consumer_auth.
  apply behaves_quic_try; [by rewrite (Hq OpenBi)|].
  eapply (behaves_try Exact); [apply io_write_behaves|]. apply behaves_flush.
  rewrite <- (app_nil_r (rcvs peer)).
  eapply (behaves_try Exact); [by apply io_read_behaves|].
  rewrite tokens_match_eq by (unfold nlen in *; lia).
  case_bool_decide; cbn [negb]; [apply behaves_quic|]; constructor.
Qed.

Lemma provider_behaves token peer st :
  nlen token = TOKEN_LEN -> nlen peer = TOKEN_LEN ->
  behaves Exact h (provider_auth token) st (rcvs peer ++ if bool_decide (token = peer) then snds token else [])
    (if bool_decide (token = peer) then Ok tt else Err (AnyMsg "direct path token mismatch")) st.
Proof.
  intros Ht Hp. unfold provider_auth.
  apply behaves_quic_try; [by rewrite (Hq AcceptBi)|].
  eapply (behaves_try Exact); [by apply io_read_behaves|].
  rewrite tokens_match_eq by (unfold nlen in *; lia).
  case_bool_decide; cbn [negb]; [|constructor].
  rewrite <- (app_nil_r (snds token)).
  eapply (behaves_try Exact); [apply io_write_behaves|]. apply behaves_flush. apply behaves_quic. constructor.
Qed.

Lemma candidate_behaves token peer st :
  nlen token = TOKEN_LEN -> nlen peer = TOKEN_LEN ->
  behaves Exact h (direct_candidate token) st (snds token ++ rcvs peer)
    (if bool_decide (token = peer) then Ok tt else Err (AnyMsg "direct path token mismatch")) st.
Proof.
  intros Ht Hp. unfold direct_candidate.
  apply behaves_quic_try; [by rewrite (Hq StartConnect)|].
  apply behaves_quic_try; [by rewrite (Hq Handshake)|]. by apply consumer_behaves.
Qed.

Lemma listener_behaves token peer st :
  nlen token = TOKEN_LEN -> nlen peer = TOKEN_LEN ->
  behaves Exact h (listener_accept token) st (rcvs peer ++ if bool_decide (token = peer) then snds token else [])
    (if bool_decide (token = peer) then Ok tt else Err (AnyMsg "direct path token mismatch")) st.
Proof.
  intros Ht Hp. unfold listener_accept. apply behaves_quic. rewrite (Hq AcceptConnection).
  apply behaves_quic_try; [by rewrite (Hq Handshake)|]. by apply provider_behaves.
Qed.
End Authentication.

(** C18: the direct path authenticates both ends.  With the same token the two ends
    of a connection both accept it, in every execution and at no other point.  A
    provider that is shown another token refuses and sends nothing, so that it
    never gives its own away; a consumer that is shown another token refuses. *)
Theorem direct_path_authenticates {L1 L2 St1 St2} (h1 : handler L1 St1) (h2 : handler L2 St2)
  `{Has quic_sig L1} `{Has quic_sig L2} token st1 st2 :
  quic_works h1 -> quic_works h2 -> nlen token = TOKEN_LEN ->
  ends_in h1 h2 (Net (direct_candidate token) st1 (listener_accept token) st2 [] [])
    (final (Ok tt) st1 (Ok tt) st2) /\
  forall other, nlen other = TOKEN_LEN -> other <> token ->
    behaves Exact h2 (listener_accept token) st2 (rcvs other)
      (Err (AnyMsg "direct path token mismatch")) st2 /\
    behaves Exact h1 (direct_candidate token) st1 (snds token ++ rcvs other)
      (Err (AnyMsg "direct path token mismatch")) st1.
Proof.
  intros Hq1 Hq2 Ht. split.
  - pose proof (candidate_behaves h1 Hq1 token token st1 Ht Ht) as H1.
    pose proof (listener_behaves h2 Hq2 token token st2 Ht Ht) as H2.
    rewrite bool_decide_true in H1, H2 by done.
    eapply dual_peers_end; [exact H1|exact H2|]. by autorewrite with rb.
  - intros other Ho Hne.
    pose proof (candidate_behaves h1 Hq1 token other st1 Ht Ho) as H1.
    pose proof (listener_behaves h2 Hq2 token other st2 Ht Ho) as H2.
    rewrite bool_decide_false in H1, H2 by done. rewrite app_nil_r in H2. done.
Qed.

(** ** A peer that only echoes *)

(** A server end that has no token: it sends back what it reads. *)
Definition echo_peer {L} `{Has quic_sig L} : prog (stream_sig ⊕ L) (ares bytes) :=
  let! _ := quic AcceptConnection in
  let? _ := (let! r := quic Handshake in Ret (quic_ctx "QUIC handshake failed" r)) in
  let? _ := (let! r := quic AcceptBi in Ret (quic_ctx "auth accept_bi failed" r)) in
  let? token := io_try (stream (ReadExact TOKEN_LEN)) in
  let? _ := io_try (stream (WriteAll token)) in
  let? _ := io_try (stream Flush) in
  Ret (Ok token).

Lemma echo_behaves {L St} (h : handler L St) `{Has quic_sig L} token st :
  quic_works h -> nlen token = TOKEN_LEN ->
  behaves Exact h echo_peer st (rcvs token ++ snds token) (Ok token) st.
Proof.
  intros Hq Ht. unfold echo_peer. apply (behaves_quic h Hq).
  apply (behaves_quic_try h Hq); [by rewrite (Hq Handshake)|].
  apply (behaves_quic_try h Hq); [by rewrite (Hq AcceptBi)|].
  eapply (behaves_try Exact); [by apply io_read_behaves|].
  rewrite <- (app_nil_r (snds token)).
  eapply (behaves_try Exact); [apply io_write_behaves|]. apply behaves_flush. constructor.
Qed.

(** C32: the token does not authenticate the provider to the consumer.  The
    consumer accepts any certificate and writes its token before it reads one: a
    server end that knows nothing and sends back the bytes it receives is always
    accepted, whatever the secret and the nonce, and it has learned the token, with
    which it is accepted by the provider the consumer meant. *)
Theorem echo_is_accepted {L1 L2 L3 St1 St2 St3} (h1 : handler L1 St1) (h2 : handler L2 St2) (h3 : handler L3 St3)
  `{Has quic_sig L1} `{Has quic_sig L2} `{Has quic_sig L3} `{Crypto} secret nonce st1 st2 st3 :
  quic_works h1 -> quic_works h2 -> quic_works h3 -> nlen (derive_token secret nonce) = TOKEN_LEN ->
  exists learned,
    ends_in h1 h2 (Net (direct_candidate (derive_token secret nonce)) st1 echo_peer st2 [] [])
      (final (Ok tt) st1 (Ok learned) st2) /\
    ends_in h2 h3 (Net (direct_candidate learned) st2 (listener_accept (derive_token secret nonce)) st3 [] [])
      (final (Ok tt) st2 (Ok tt) st3).
Proof.
  intros Hq1 Hq2 Hq3 Ht. exists (derive_token secret nonce).
  pose proof (candidate_behaves h1 Hq1 _ _ st1 Ht Ht) as H1x.
  pose proof (candidate_behaves h2 Hq2 _ _ st2 Ht Ht) as H2x.
  pose proof (listener_behaves h3 Hq3 _ _ st3 Ht Ht) as H3x.
  rewrite bool_decide_true in H1x, H2x, H3x by done. split.
  - eapply dual_peers_end; [exact H1x|by apply echo_behaves|]. by autorewrite with rb.
  - eapply dual_peers_end; [exact H2x|exact H3x|]. by autorewrite with rb.
Qed.

(** ** Virtual hosts *)

Section Vhost.
Context {L : sig} {St : Type} (h : handler L St) `{Has quic_sig L} `{Has timer_sig L}.
Context (Hq : quic_works h) (Ht : in_time h).

Lemma in_budget_behaves {A} m msg (p : prog (stream_sig ⊕ L) (ares A)) st τ r st' :
  behaves m h p st τ r st' -> behaves m h (in_budget msg p) st τ r st'.
Proof.
  intros Hb. unfold in_budget.
  apply (behaves_map m h (fun r => match r with InTime r => r
    | Elapsed => Err (AnyContext msg (AnyMsg "deadline has elapsed")) end) _ _ _ (InTime r)).
  by apply timeout_behaves.
Qed.

Definition vhost_wire (subdomain : string) (token : bytes) : bytes :=
  to_be_u16 (nlen (String.list_byte_of_string subdomain)) ++
  String.list_byte_of_string subdomain ++ token.

Lemma vhost_connect_behaves subdomain token peer st :
  (nlen (String.list_byte_of_string subdomain) <= u16_max)%N ->
  nlen token = TOKEN_LEN -> nlen peer = TOKEN_LEN ->
  behaves Exact h (vhost_connect subdomain token) st (snds (vhost_wire subdomain token) ++ rcvs peer)
    (if bool_decide (token = peer) then Ok tt
     else Err (AnyMsg "vhost direct path token mismatch")) st.
Proof.
  intros Hs Hn Hp. unfold vhost_connect.
  destruct (N.ltb_spec u16_max (nlen (String.list_byte_of_string subdomain))); [lia|].
  apply (behaves_quic h Hq). rewrite <- (app_nil_l (snds _ ++ _)).
  eapply (behaves_try Exact _ _ _ _ [] tt).
  { eapply behaves_equiv; [symmetry; apply pbind_ret_r|].
    refine (behaves_quic h Hq _ ClientEndpoint Ret _ _ _ _ _). rewrite (Hq ClientEndpoint). constructor. }
  apply (behaves_quic_try h Hq); [by rewrite (Hq StartConnect)|].
  rewrite <- (app_nil_l (snds _ ++ _)). eapply (behaves_try Exact _ _ _ _ [] tt).
  { apply in_budget_behaves. apply (behaves_quic h Hq). rewrite (Hq Handshake). constructor. }
  apply in_budget_behaves. unfold vhost_auth, vhost_wire. rewrite !snds_app, <- !app_assoc.
  apply (behaves_quic_try h Hq); [by rewrite (Hq OpenBi)|].
  do 3 (eapply (behaves_try Exact); [apply io_write_behaves|]). apply behaves_flush.
  rewrite <- (app_nil_r (rcvs peer)).
  eapply (behaves_try Exact); [by apply io_read_behaves|].
  rewrite tokens_match_eq by (unfold nlen in *; lia).
  case_bool_decide; cbn [negb]; [apply (behaves_quic h Hq)|]; constructor.
Qed.

(** What the server makes of a subdomain and a token. *)
Definition vhost_verdict (lookup : string -> option bytes) (subdomain : string) (token : bytes) : ares string :=
  match lookup subdomain with
  | None => Err (AnyMsg "unknown vhost direct-path subdomain")
  | Some expected =>
      if bool_decide (expected = token) then Ok subdomain
      else Err (AnyMsg "vhost direct path token mismatch")
  end.

Lemma vhost_server_behaves utf8_error lookup subdomain token st :
  valid_utf8 subdomain = true -> (nlen (String.list_byte_of_string subdomain) <= u16_max)%N ->
  nlen token = TOKEN_LEN -> (forall s t, lookup s = Some t -> nlen t = TOKEN_LEN) ->
  behaves Exact h (vhost_server_handshake utf8_error lookup) st
    (rcvs (vhost_wire subdomain token) ++
     match vhost_verdict lookup subdomain token with Ok _ => snds token | _ => [] end)
    (vhost_verdict lookup subdomain token) st.
Proof.
  intros Hu Hs Hn Hl. unfold vhost_server_handshake. apply in_budget_behaves. unfold vhost_check, vhost_wire.
  set (bs := String.list_byte_of_string subdomain) in *. rewrite !rcvs_app, <- !app_assoc.
  apply (behaves_quic_try h Hq); [by rewrite (Hq AcceptBi)|].
  eapply (behaves_try Exact); [by apply io_read_behaves|].
  unfold to_be_u16. cbv match. rewrite be_u16_bytes by (unfold u16_max in Hs; lia).
  rewrite <- (app_nil_l (rcvs bs ++ _)). eapply (behaves_try Exact); [constructor|].
  eapply (behaves_try Exact); [by apply io_read_behaves|].
  unfold bs. rewrite String.string_of_list_byte_of_string, Hu.
  rewrite <- (app_nil_l (rcvs token ++ _)). eapply (behaves_try Exact); [constructor|].
  eapply (behaves_try Exact); [by apply io_read_behaves|].
  unfold vhost_verdict. destruct (lookup subdomain) as [expected|] eqn:El; cbn [ok_or];
    [|constructor].
  rewrite <- (app_nil_l (match _ with Ok _ => _ | _ => _ end)).
  eapply (behaves_try Exact); [constructor|].
  rewrite tokens_match_eq by (apply Hl in El; unfold nlen in *; lia).
  case_bool_decide as E; cbn [negb]; [subst expected|constructor].
  rewrite <- (app_nil_r (snds token)).
  eapply (behaves_try Exact); [apply io_write_behaves|]. apply behaves_flush.
  apply (behaves_quic h Hq). constructor.
Qed.
End Vhost.

(** A virtual host is served only to who holds its token.  A provider whose token
    is the one looked up for its subdomain and the server end in agreement on
    that subdomain; for another token, or a subdomain nobody registered, the
    server refuses, and sends nothing. *)
Theorem vhost_served_to_its_provider {L1 L2 St1 St2} (h1 : handler L1 St1) (h2 : handler L2 St2)
  `{Has quic_sig L1} `{Has timer_sig L1} `{Has quic_sig L2} `{Has timer_sig L2}
  utf8_error lookup subdomain token st1 st2 :
  quic_works h1 -> in_time h1 -> quic_works h2 -> in_time h2 ->
  valid_utf8 subdomain = true -> (nlen (String.list_byte_of_string subdomain) <= u16_max)%N ->
  nlen token = TOKEN_LEN -> (forall s t, lookup s = Some t -> nlen t = TOKEN_LEN) ->
  (lookup subdomain = Some token ->
    ends_in h1 h2
      (Net (vhost_connect subdomain token) st1 (vhost_server_handshake utf8_error lookup) st2 [] [])
      (final (Ok tt) st1 (Ok subdomain) st2)) /\
  (lookup subdomain <> Some token -> exists e,
    behaves Exact h2 (vhost_server_handshake utf8_error lookup) st2
      (rcvs (vhost_wire subdomain token)) (Err (AnyMsg e)) st2).
Proof.
  intros Hq1 Ht1 Hq2 Ht2 Hu Hs Hn Hl.
  pose proof (vhost_server_behaves h2 Hq2 Ht2 utf8_error lookup subdomain token st2 Hu Hs Hn Hl) as H2x.
  unfold vhost_verdict in H2x. split.
  - intros El. rewrite El, bool_decide_true in H2x by done.
    pose proof (vhost_connect_behaves h1 Hq1 Ht1 subdomain token token st1 Hs Hn Hn) as H1x.
    rewrite bool_decide_true in H1x by done.
    eapply dual_peers_end; [exact H1x|exact H2x|]. by autorewrite with rb.
  - intros Hne. destruct (lookup subdomain) as [t|].
    + rewrite bool_decide_false in H2x by congruence. rewrite app_nil_r in H2x. by eexists.
    + rewrite app_nil_r in H2x. by eexists.
Qed.

(** ** The marker of a stream *)

Section Ready.
Context {L1 L2 : sig} {St1 St2 : Type} (h1 : handler L1 St1) (h2 : handler L2 St2).

Lemma write_all_behaves {L St A} (h : handler L St) buf (k : unit -> prog (stream_sig ⊕ L) (result io_error A)) st τ a st' :
  behaves Exact h (k tt) st τ a st' -> behaves Exact h (ptry (stream (WriteAll buf)) k) st (snds buf ++ τ) a st'.
Proof. intros Hb. by apply bh_write_all. Qed.

Lemma read_all_behaves {L St A} (h : handler L St) n bs (k : bytes -> prog (stream_sig ⊕ L) (result io_error A)) st τ a st' :
  nlen bs = n -> behaves Exact h (k bs) st τ a st' ->
  behaves Exact h (ptry (stream (ReadExact n)) k) st (rcvs bs ++ τ) a st'.
Proof. intros Hn Hb. by apply bh_read_exact. Qed.

(** The address as it is sent: at most 255 bytes of it. *)
Definition cut_ip (s : string) : string :=
  String.string_of_list_byte (take 255 (String.list_byte_of_string s)).

Definition ready_wire (forward_ip : option string) : bytes :=
  match forward_ip with
  | None => [STREAM_READY]
  | Some ip =>
      let bs := take 255 (String.list_byte_of_string ip) in STREAM_READY :: byte_of (nlen bs) :: bs
  end.

Lemma write_ready_behaves forward_ip st :
  behaves Exact h1 (write_stream_ready forward_ip) st (snds (ready_wire forward_ip)) (Ok tt) st.
Proof.
  unfold write_stream_ready, ready_wire. destruct forward_ip as [ip|].
  - set (bs := String.list_byte_of_string ip).
    assert (El : nlen (take 255 bs) = N.min (nlen bs) 255) by (unfold nlen; rewrite length_take; lia).
    rewrite El. replace (take 255 bs) with (take (N.to_nat (N.min (nlen bs) 255)) bs).
    2:{ unfold nlen. destruct (Nat.le_ge_cases (length bs) 255) as [Hle|Hge].
        - rewrite N.min_l, Nat2N.id by lia. by rewrite firstn_all, take_ge.
        - rewrite N.min_r by lia. done. }
    change (snds (STREAM_READY :: ?b :: ?l)) with (snds [STREAM_READY] ++ snds [b] ++ snds l).
    rewrite <- (app_nil_r (snds (take _ _))).
    do 3 apply write_all_behaves. constructor.
  - rewrite <- (app_nil_r (snds _)). apply write_all_behaves. constructor.
Qed.

Lemma read_ready_behaves utf8_error forward_ip st :
  (forall ip, forward_ip = Some ip -> valid_utf8 (cut_ip ip) = true) ->
  behaves Exact h2 (read_stream_ready utf8_error (bool_decide (is_Some forward_ip))) st
    (rcvs (ready_wire forward_ip)) (Ok (cut_ip <$> forward_ip)) st.
Proof.
  intros Hu. unfold read_stream_ready, ready_wire. destruct forward_ip as [ip|].
  - specialize (Hu ip eq_refl). unfold cut_ip in *. simpl fmap. unfold cut_ip.
    set (bs := take 255 (String.list_byte_of_string ip)) in *.
    assert (Hl : (nlen bs <= 255)%N) by (unfold bs, nlen; rewrite length_take; lia).
    change (rcvs (STREAM_READY :: ?b :: ?l)) with (rcvs [STREAM_READY] ++ rcvs [b] ++ rcvs l).
    apply read_all_behaves; [done|]. cbn [bool_decide negb].
    rewrite bool_decide_true by done. rewrite bool_decide_true by by eexists. cbn [negb].
    apply read_all_behaves; [done|].
    assert (El : from_le_bytes [byte_of (nlen bs)] = nlen bs).
    { unfold from_le_bytes. simpl. rewrite to_N_byte_of, N.mod_small by lia. lia. }
    rewrite El. destruct (N.eqb_spec (nlen bs) 0) as [E0|Hne].
    + assert (bs = []) as -> by (unfold nlen in E0; destruct bs; [done|simpl in E0; lia]). constructor.
    + rewrite <- (app_nil_r (rcvs bs)). apply read_all_behaves; [done|]. rewrite Hu. constructor.
  - rewrite <- (app_nil_r (rcvs _)). apply read_all_behaves; [done|].
    rewrite bool_decide_true by done. rewrite bool_decide_false by by intros [? ?]. constructor.
Qed.
End Ready.

(** The marker of a stream agrees.  A writer and a reader that agree on whether
    an address is forwarded both finish: the reader has the first 255 bytes of the
    address, or none, and the stream stands at the first byte of the payload. *)
Theorem ready_marker_agrees {L1 L2 St1 St2} (h1 : handler L1 St1) (h2 : handler L2 St2)
  utf8_error forward_ip st1 st2 :
  (forall ip, forward_ip = Some ip -> valid_utf8 (cut_ip ip) = true) ->
  ends_in h1 h2
    (Net (write_stream_ready forward_ip) st1
         (read_stream_ready utf8_error (bool_decide (is_Some forward_ip))) st2 [] [])
    (final (Ok tt) st1 (Ok (cut_ip <$> forward_ip)) st2).
Proof.
  intros Hu. eapply dual_peers_end; [apply write_ready_behaves|by apply read_ready_behaves|].
  by autorewrite with rb.
Qed.

(** ** A network where handshakes succeed *)

Definition demo_quic : handler quic_sig unit :=
  fun o st =>
    (match o return resp (s := quic_sig) o with
     | ClientEndpoint | ServerEndpoint => Ok tt
     | AcceptConnection => Some tt
     | Handshake | StartConnect | OpenBi | AcceptBi => Ok tt
     | NextAttempt _ _ => Elapsed
     | ConfigureBuffers | FinishStream => tt
     end, st).

Definition demo_direct : handler (timer_sig ⊕ quic_sig) (unit * unit) := hsum on_time demo_quic.

Lemma demo_quic_works : quic_works demo_direct.
Proof. by intros o [[] []]; destruct o. Qed.

Lemma demo_direct_in_time : in_time demo_direct.
Proof. by intros secs [[] []]. Qed.

Definition demo_token : bytes := replicate 32 x2a.

Lemma direct_path_authenticates_witness :
  ends_in demo_direct demo_direct
    (Net (direct_candidate demo_token) (tt, tt) (listener_accept demo_token) (tt, tt) [] [])
    (final (Ok tt) (tt, tt) (Ok tt) (tt, tt)).
Proof.
  apply (direct_path_authenticates demo_direct demo_direct demo_token (tt, tt) (tt, tt)).
  - apply demo_quic_works.
  - apply demo_quic_works.
  - reflexivity.
Defined.

Definition echo_crypto : Crypto :=
  {| sha256 := fun _ => demo_token; hmac_sha256 := fun _ _ => demo_token;
     Auth.hex_encode := fun _ => ""; Auth.hex_decode := fun _ => None |}.

Lemma echo_is_accepted_witness :
  exists learned,
    ends_in demo_direct demo_direct
      (Net (direct_candidate (derive_token (H := echo_crypto) (Some "s") [x07])) (tt, tt) echo_peer (tt, tt) [] [])
      (final (Ok tt) (tt, tt) (Ok learned) (tt, tt)).
Proof.
  destruct (echo_is_accepted (H2 := echo_crypto) demo_direct demo_direct demo_direct (Some "s") [x07]
    (tt, tt) (tt, tt) (tt, tt)) as (learned & H & _).
  - apply demo_quic_works.
  - apply demo_quic_works.
  - apply demo_quic_works.
  - reflexivity.
  - exists learned. exact H.
Defined.

Lemma vhost_served_to_its_provider_witness :
  ends_in demo_direct demo_direct
    (Net (vhost_connect "app" demo_token) (tt, tt)
       (vhost_server_handshake (fun _ => "") (fun s => if String.eqb s "app" then Some demo_token else None))
       (tt, tt) [] [])
    (final (Ok tt) (tt, tt) (Ok "app") (tt, tt)).
Proof.
  refine (proj1 (vhost_served_to_its_provider demo_direct demo_direct (fun _ => "")
    (fun s => if String.eqb s "app" then Some demo_token else None) "app" demo_token (tt, tt) (tt, tt)
    _ _ _ _ _ _ _ _) _).
  - apply demo_quic_works.
  - apply demo_direct_in_time.
  - apply demo_quic_works.
  - apply demo_direct_in_time.
  - reflexivity.
  - vm_compute. discriminate.
  - reflexivity.
  - intros s t. destruct (String.eqb s "app"); [intros [= <-]; reflexivity|discriminate].
  - reflexivity.
Defined.

Lemma ready_marker_agrees_witness :
  ends_in demo_direct demo_direct
    (Net (write_stream_ready (Some "203.0.113.7:54321")) (tt, tt)
       (read_stream_ready (fun _ => "") (bool_decide (is_Some (Some "203.0.113.7:54321")))) (tt, tt) [] [])
    (final (Ok tt) (tt, tt) (Ok (Some "203.0.113.7:54321")) (tt, tt)).
Proof.
  apply (ready_marker_agrees demo_direct demo_direct (fun _ => "") (Some "203.0.113.7:54321")).
  intros ip [= <-]. vm_compute. reflexivity.
Defined.
