(* ===== verification/Control.v ===== *)
(** * Control messages of the reference ([vendored-from-bore/shared.rs])

    The messages of the reference's control protocol, the framed stream they
    travel on, and the one-line summaries that are logged instead of them. *)

From stdpp Require Import list.
From S2P Require Import Prelude Streams Json Proto Transport Fs Frames Addresses Stun Candidates.

(** What [{:?}] prints of a string: quoted, with its escapes. *)
Class StrDebug := str_debug : string -> string.

(** The [hex] crate. *)
Class HexText := hex_text : bytes -> string.

Fixpoint joined (sep : string) (l : list string) : string :=
  match l with
  | [] => ""
  | [s] => s
  | s :: l' => s +:+ sep +:+ joined sep l'
  end.

(** [{:?}] of a vector. *)
Definition debug_list (l : list string) : string := "[" +:+ joined ", " l +:+ "]".

Definition on_off (b : bool) : string := if b then "on" else "off".
Definition present {A} (o : option A) : string := match o with Some _ => "present" | None => "none" end.
Definition or_none (o : option string) : string := default "<none>" o.
Definition yes_no (o : option bool) : string :=
  match o with Some true => "yes" | Some false => "no" | None => "unknown" end.
Definition bool_display (b : bool) : string := if b then "true" else "false".

(** ** Options and reports *)

Record TunnelOptions : Type := {
  https : bool;
  force_https : bool;
  basic_auth : option string;
  notes : option string;
  carriers : N;
  udp : bool;
  auto_reconnect : bool;
  webserver_log : bool;
}.

Definition tunnel_summary (o : TunnelOptions) : string :=
  "https=" +:+ on_off (https o) +:+ ", force_https=" +:+ on_off (force_https o) +:+
  ", basic_auth=" +:+ (match basic_auth o with Some _ => "on" | None => "off" end) +:+
  ", notes=" +:+ present (notes o) +:+ ", carriers=" +:+ pretty (carriers o) +:+
  ", udp=" +:+ on_off (udp o).

Record UdpTestOptions : Type := { bandwidth : bool; transfer_quota : N; udp_only : bool }.

Definition test_options_summary (o : UdpTestOptions) : string :=
  "bandwidth=" +:+ on_off (bandwidth o) +:+ ", transfer_quota=" +:+ pretty (transfer_quota o) +:+
  ", udp_only=" +:+ on_off (udp_only o).

Inductive UdpTestRole : Type := Listener | Dialer.
Definition role_debug (r : UdpTestRole) : string :=
  match r with Listener => "Listener" | Dialer => "Dialer" end.

Record UdpTestPeerSummary : Type := {
  nat_class : string;
  local_udp : string;
  peer_primary_local_ip : option string;
  peer_reflexive : list string;
  peer_candidate_kinds : list UdpCandidateKind;
  peer_stun : option string;
  bore_stun : option bool;
  candidate_count : N;
  port_preserved : option bool;
}.

Definition peer_report `{StrDebug} (s : UdpTestPeerSummary) : string :=
  let kinds := match peer_candidate_kinds s with
               | [] => "none"
               | ks => joined ", " (candidate_kind_as_str <$> ks)
               end in
  "nat_class=" +:+ nat_class s +:+ ", local_udp=" +:+ local_udp s +:+
  ", primary_local_ip=" +:+ or_none (peer_primary_local_ip s) +:+
  ", selected_stun=" +:+ or_none (peer_stun s) +:+ ", bore_stun=" +:+ yes_no (bore_stun s) +:+
  ", candidate_count=" +:+ pretty (candidate_count s) +:+
  ", port_preserved=" +:+ yes_no (port_preserved s) +:+ ", candidate_kinds=[" +:+ kinds +:+
  "], reflexive=" +:+ debug_list (str_debug <$> peer_reflexive s).

Inductive UdpAdaptiveMode : Type := DirectFirst | DirectWithRetry | RelayFirst | RelayOnly.

Definition mode_as_str (m : UdpAdaptiveMode) : string :=
  match m with
  | DirectFirst => "direct-first"
  | DirectWithRetry => "direct-with-retry"
  | RelayFirst => "relay-first"
  | RelayOnly => "relay-only"
  end.

Inductive UdpAdaptiveCandidateKind : Type :=
  AReflexive | ALocal | ARouterMapped | APredicted | RelayFallback.

Definition adaptive_kind_as_str (k : UdpAdaptiveCandidateKind) : string :=
  match k with
  | AReflexive => "reflexive"
  | ALocal => "local"
  | ARouterMapped => "router-mapped"
  | APredicted => "predicted"
  | RelayFallback => "relay"
  end.

Record UdpAdaptivePlan : Type := {
  adaptive_mode : UdpAdaptiveMode;
  candidate_order : list UdpAdaptiveCandidateKind;
  retry_budget : N;
  read_timeout_ms : N;
  send_delay_ms : N;
}.

Definition plan_summary (p : UdpAdaptivePlan) : string :=
  mode_as_str (adaptive_mode p) +:+ " (retry " +:+ pretty (retry_budget p) +:+ ", read " +:+
  pretty (read_timeout_ms p) +:+ "ms, delay " +:+ pretty (send_delay_ms p) +:+ "ms, order " +:+
  joined " -> " (adaptive_kind_as_str <$> candidate_order p) +:+ ")".

Record UdpOfferMsg : Type := {        (* [UdpCandidateOffer] *)
  offered : list SocketAddr;
  offered_stun : option string;
  peer_id : N;
}.

Definition debug_addrs `{Ipv6Text} (l : list SocketAddr) : string := debug_list (sock_display <$> l).

Definition offer_summary `{Ipv6Text} (o : UdpOfferMsg) : string :=
  "selected_stun=" +:+ or_none (offered_stun o) +:+ ", candidate_count=" +:+ pretty (nlen (offered o)) +:+
  ", candidates=" +:+ debug_addrs (offered o) +:+ ", peer_id=" +:+ pretty (peer_id o).

Record UdpDirectTuning : Type := {
  stream_receive_window : N;
  connection_receive_window : N;
  send_window : N;
  udp_socket_recv_buffer : N;
  udp_socket_send_buffer : N;
  max_direct_streams : N;
}.

Definition UdpDirectTuning_default : UdpDirectTuning := {|
  stream_receive_window := 16 * 1024 * 1024;
  connection_receive_window := 64 * 1024 * 1024;
  send_window := 64 * 1024 * 1024;
  udp_socket_recv_buffer := 16 * 1024 * 1024;
  udp_socket_send_buffer := 16 * 1024 * 1024;
  max_direct_streams := 4096;
|}.

Definition tuning_summary (t : UdpDirectTuning) : string :=
  "stream_recv=" +:+ pretty (stream_receive_window t) +:+ ", conn_recv=" +:+
  pretty (connection_receive_window t) +:+ ", send=" +:+ pretty (send_window t) +:+
  ", sock_recv=" +:+ pretty (udp_socket_recv_buffer t) +:+ ", sock_send=" +:+
  pretty (udp_socket_send_buffer t) +:+ ", max_streams=" +:+ pretty (max_direct_streams t).

Inductive VpnAddrRequest : Type := VpnPool | VpnStatic (addr : Ipv4Addr) (prefix : N) (peer : Ipv4Addr).

Definition addr_request_debug (r : VpnAddrRequest) : string :=
  match r with
  | VpnPool => "Pool"
  | VpnStatic a p q =>
      "Static { addr: " +:+ ipv4_display a +:+ ", prefix: " +:+ pretty p +:+ ", peer: " +:+
      ipv4_display q +:+ " }"
  end.

Definition net_debug (n : Ipv4Net) : string :=
  "Ipv4Net { addr: " +:+ ipv4_display (addr n) +:+ ", prefix: " +:+ pretty (net_prefix n) +:+ " }".

Definition debug_nets (l : list Ipv4Net) : string := debug_list (net_debug <$> l).

(** What both sides of a VPN link send for display only. *)
Record VpnDisplay : Type := {
  relay_only : bool;
  pin_mtu : bool;
  mtu : option N;
  forward_accept : bool;
  nat_masquerade : bool;
  route_policy : option string;
  nat_udp_preferred_port : N;
}.

(** ** Messages *)

Module ClientMessage.
Inductive ClientMessage : Type :=
| Authenticate (tag : string)
| Hello (port : N) (options : TunnelOptions)
| HelloSecret (id : string) (notes : option string) (basic_auth : bool) (carriers : N)
| ConnectSecret (id : string) (notes : option string)
| UdpCandidates (candidates : list SocketAddr)
| UdpCandidateOffer (offer : UdpOfferMsg)
| UdpStunHintRequest
| JoinCarrier (token : string)
| TestUdpJoin (id : string) (candidates : list SocketAddr) (summary : UdpTestPeerSummary)
    (options : UdpTestOptions)
| HelloVhost (subdomain client_id : string) (notes : option string) (basic_auth : bool)
    (carriers : N) (udp webserver_log auto_reconnect : bool)
| VhostUdpRenew (subdomain : string)
| PublicUdpRenew (port : N)
| HelloVpn (id : string) (advertised : list Ipv4Net) (addr : VpnAddrRequest)
    (notes : option string) (carriers max_clients : N) (shown : VpnDisplay)
| ConnectVpn (id : string) (advertised : list Ipv4Net) (addr : VpnAddrRequest)
    (notes : option string) (carriers : N) (shown : VpnDisplay)
| VpnPathReport (path : string).
End ClientMessage.

Module ServerMessage.
Inductive ServerMessage : Type :=
| Challenge (challenge : Uuid)
| Hello (port : N)
| CarrierToken (token : string) (extra : N)
| Ok
| Heartbeat
| Error (message : string)
| UdpPunch (nonce : bytes) (peer : list SocketAddr) (peer_selected_stun : option string)
    (tuning : UdpDirectTuning) (peer_id : N)
| UdpStunHint (stun_server : option string)
| UdpUnavailable
| VhostReady (http_url https_url : option string)
| VhostUdp (port : N) (nonce : bytes) (tuning : UdpDirectTuning)
| PublicUdp (port : N) (nonce : bytes) (tuning : UdpDirectTuning)
| TestUdpWaiting
| TestUdpStart (role : UdpTestRole) (nonce : bytes) (peer_candidates : list SocketAddr)
    (peer_summary : UdpTestPeerSummary) (options : UdpTestOptions) (tuning : UdpDirectTuning)
    (adaptive_plan : option UdpAdaptivePlan)
| VpnReady (assigned : Ipv4Addr) (prefix : N) (peer_overlay : Ipv4Addr)
    (peer_advertised : list Ipv4Net) (session_nonce : bytes) (tuning : UdpDirectTuning)
    (admin_v2 : bool) (carriers : N)
| VpnError (message : string)
| VpnPeerJoin (peer_id : N) (peer_overlay : Ipv4Addr) (peer_advertised : list Ipv4Net)
    (session_nonce : bytes) (carriers : N)
| VpnPeerLeave (peer_id : N).
End ServerMessage.

Import ClientMessage(ClientMessage) ServerMessage(ServerMessage).

(** ** Summaries *)

Section Summaries.
Context `{StrDebug} `{HexText} `{Ipv6Text}.
(** What [{}] prints of a UUID. *)
Context (uuid_text : Uuid -> string).

Definition client_summary (m : ClientMessage) : string :=
  match m with
  | ClientMessage.Authenticate _ => "Authenticate { tag=<redacted> }"
  | ClientMessage.Hello port options =>
      "Hello { port=" +:+ pretty port +:+ ", options={ " +:+ tunnel_summary options +:+ " } }"
  | ClientMessage.HelloSecret id notes basic_auth carriers =>
      "HelloSecret { id=" +:+ id +:+ ", notes=" +:+ present notes +:+ ", basic_auth=" +:+
      on_off basic_auth +:+ ", carriers=" +:+ pretty carriers +:+ " }"
  | ClientMessage.ConnectSecret id notes =>
      "ConnectSecret { id=" +:+ id +:+ ", notes=" +:+ present notes +:+ " }"
  | ClientMessage.UdpCandidates candidates =>
      "UdpCandidates { candidates=" +:+ debug_addrs candidates +:+ " }"
  | ClientMessage.UdpCandidateOffer offer => "UdpCandidateOffer { " +:+ offer_summary offer +:+ " }"
  | ClientMessage.UdpStunHintRequest => "UdpStunHintRequest"
  | ClientMessage.JoinCarrier _ => "JoinCarrier { token=<redacted> }"
  | ClientMessage.TestUdpJoin id candidates summary options =>
      "TestUdpJoin { id=" +:+ id +:+ ", candidates=" +:+ debug_addrs candidates +:+
      ", summary={ " +:+ peer_report summary +:+ " }, options={ " +:+
      test_options_summary options +:+ " } }"
  | ClientMessage.HelloVhost subdomain client_id notes basic_auth carriers udp webserver_log auto_reconnect =>
      "HelloVhost { subdomain=" +:+ subdomain +:+ ", client_id=" +:+ client_id +:+ ", notes=" +:+
      present notes +:+ ", basic_auth=" +:+ on_off basic_auth +:+ ", carriers=" +:+ pretty carriers +:+
      ", udp=" +:+ on_off udp +:+ ", webserver_log=" +:+ on_off webserver_log +:+
      ", auto_reconnect=" +:+ on_off auto_reconnect +:+ " }"
  | ClientMessage.VhostUdpRenew subdomain => "VhostUdpRenew { subdomain=" +:+ subdomain +:+ " }"
  | ClientMessage.PublicUdpRenew port => "PublicUdpRenew { port=" +:+ pretty port +:+ " }"
  | ClientMessage.HelloVpn id advertised addr notes carriers max_clients _ =>
      "HelloVpn { id=" +:+ id +:+ ", advertised=" +:+ debug_nets advertised +:+ ", addr=" +:+
      addr_request_debug addr +:+ ", notes=" +:+ present notes +:+ ", carriers=" +:+
      pretty carriers +:+ ", max_clients=" +:+ pretty max_clients +:+ " }"
  | ClientMessage.ConnectVpn id advertised addr notes carriers _ =>
      "ConnectVpn { id=" +:+ id +:+ ", advertised=" +:+ debug_nets advertised +:+ ", addr=" +:+
      addr_request_debug addr +:+ ", notes=" +:+ present notes +:+ ", carriers=" +:+
      pretty carriers +:+ " }"
  | ClientMessage.VpnPathReport path => "VpnPathReport { path=" +:+ path +:+ " }"
  end.

Definition server_summary (m : ServerMessage) : string :=
  match m with
  | ServerMessage.Challenge c => "Challenge { challenge=" +:+ uuid_text c +:+ " }"
  | ServerMessage.Hello port => "Hello { port=" +:+ pretty port +:+ " }"
  | ServerMessage.CarrierToken _ extra =>
      "CarrierToken { token=<redacted>, extra=" +:+ pretty extra +:+ " }"
  | ServerMessage.Ok => "Ok"
  | ServerMessage.Heartbeat => "Heartbeat"
  | ServerMessage.Error err => "Error { message=" +:+ err +:+ " }"
  | ServerMessage.UdpPunch nonce peer stun tuning peer_id =>
      "UdpPunch { nonce=" +:+ hex_text nonce +:+ ", peer=" +:+ debug_addrs peer +:+
      ", peer_selected_stun=" +:+ or_none stun +:+ ", tuning={ " +:+ tuning_summary tuning +:+
      " }, peer_id=" +:+ pretty peer_id +:+ " }"
  | ServerMessage.UdpStunHint stun => "UdpStunHint { stun_server=" +:+ or_none stun +:+ " }"
  | ServerMessage.UdpUnavailable => "UdpUnavailable"
  | ServerMessage.VhostReady http_url https_url =>
      "VhostReady { http_url=" +:+ or_none http_url +:+ ", https_url=" +:+ or_none https_url +:+ " }"
  | ServerMessage.VhostUdp port nonce tuning =>
      "VhostUdp { port=" +:+ pretty port +:+ ", nonce=" +:+ hex_text nonce +:+ ", tuning={ " +:+
      tuning_summary tuning +:+ " } }"
  | ServerMessage.PublicUdp port nonce tuning =>
      "PublicUdp { port=" +:+ pretty port +:+ ", nonce=" +:+ hex_text nonce +:+ ", tuning={ " +:+
      tuning_summary tuning +:+ " } }"
  | ServerMessage.TestUdpWaiting => "TestUdpWaiting"
  | ServerMessage.TestUdpStart role nonce candidates summary options tuning plan =>
      "TestUdpStart { role=" +:+ role_debug role +:+ ", nonce=" +:+ hex_text nonce +:+
      ", peer_candidates=" +:+ debug_addrs candidates +:+ ", peer_summary={ " +:+
      peer_report summary +:+ " }, options={ " +:+ test_options_summary options +:+
      " }, tuning={ " +:+ tuning_summary tuning +:+ " }, adaptive_plan=" +:+
      or_none (plan_summary <$> plan) +:+ " }"
  | ServerMessage.VpnReady assigned prefix overlay advertised nonce tuning admin_v2 carriers =>
      "VpnReady { assigned=" +:+ ipv4_display assigned +:+ ", prefix=" +:+ pretty prefix +:+
      ", peer_overlay=" +:+ ipv4_display overlay +:+ ", peer_advertised=" +:+ debug_nets advertised +:+
      ", session_nonce=" +:+ hex_text nonce +:+ ", tuning={ " +:+ tuning_summary tuning +:+
      " }, admin_v2=" +:+ bool_display admin_v2 +:+ ", carriers=" +:+ pretty carriers +:+ " }"
  | ServerMessage.VpnError msg => "VpnError { message=" +:+ msg +:+ " }"
  | ServerMessage.VpnPeerJoin peer_id overlay advertised nonce carriers =>
      "VpnPeerJoin { peer_id=" +:+ pretty peer_id +:+ ", peer_overlay=" +:+ ipv4_display overlay +:+
      ", peer_advertised=" +:+ debug_nets advertised +:+ ", session_nonce=" +:+ hex_text nonce +:+
      ", carriers=" +:+ pretty carriers +:+ " }"
  | ServerMessage.VpnPeerLeave peer_id => "VpnPeerLeave { peer_id=" +:+ pretty peer_id +:+ " }"
  end.
End Summaries.

(** ** The framed stream

    The codec of [tokio_util]: [FramedNext] is the next item of the stream, [None]
    at its end, [FramedSend] writes a delimited frame.  Both carry the log entry
    that is traced with them. *)

Inductive framed_op : Type :=
| FramedNext
| FramedSend (frame : bytes)
| Traced (direction summary : string).

Definition framed_sig : sig :=
  Sig framed_op (fun o =>
    match o with
    | FramedNext => option (result string bytes)
    | FramedSend _ => result string unit
    | Traced _ _ => unit
    end).

Section Delimited.
Context {T : sig} `{Has framed_sig T} `{Has timer_sig T}.

Definition framed (o : framed_op) : prog T (resp (s := framed_sig) o) := call (S := framed_sig) o.

Definition delimited_recv {M} `{Json M} (summary : M -> string) : prog T (ares (option M)) :=
  let! _ := framed (Traced "rx" "waiting for control frame") in
  let! next_message := framed FramedNext in
  match next_message with
  | Some r =>
      let? byte_message := Ret (map_err (fun e => AnyContext "frame error, invalid byte length" (AnyMsg e)) r) in
      let? obj := Ret (map_err (fun e => AnyContext "unable to parse message" (AnyJson e))
                         (from_slice byte_message)) in
      let! _ := framed (Traced "rx" (summary obj)) in
      Ret (Ok (Some obj))
  | None =>
      let! _ := framed (Traced "rx" "<eof>") in
      Ret (Ok None)
  end.

Definition recv_timeout {M} `{Json M} (summary : M -> string) : prog T (ares (option M)) :=
  let! r := timeout NETWORK_TIMEOUT (delimited_recv summary) in
  Ret (match r with
       | InTime r => r
       | Elapsed => Err (AnyContext "timed out waiting for initial message" (AnyMsg "deadline has elapsed"))
       end).

Definition delimited_send {M} `{Json M} (summary : M -> string) (msg : M) : prog T (ares unit) :=
  let! _ := framed (Traced "tx" (summary msg)) in
  let? json := Ret (map_err AnyJson (to_vec msg)) in
  let! r := framed (FramedSend json) in
  Ret (map_err AnyMsg r).
End Delimited.
