(* ===== verification/ControlTheorems.v ===== *)
(** * Theorems about control messages

    What the log of the control protocol gives away, and what it does not. *)

From stdpp Require Import list.
From S2P Require Import Prelude Streams Json Proto Transport Auth Fs Frames Addresses Stun Candidates Control Direct.
Import ClientMessage(ClientMessage) ServerMessage(ServerMessage).

(** ** Secrets

    A message without what is secret in it: the tag of an authentication, the
    token of a carrier, credentials and notes. *)

Definition hide {A} (a : A) (o : option A) : option A := (fun _ => a) <$> o.

Definition public_options (o : TunnelOptions) : TunnelOptions := {|
  https := https o; force_https := force_https o; basic_auth := hide "" (basic_auth o);
  notes := hide "" (notes o); carriers := carriers o; udp := udp o;
  auto_reconnect := auto_reconnect o; webserver_log := webserver_log o;
|}.

Definition client_public (m : ClientMessage) : ClientMessage :=
  match m with
  | ClientMessage.Authenticate _ => ClientMessage.Authenticate ""
  | ClientMessage.Hello port options => ClientMessage.Hello port (public_options options)
  | ClientMessage.HelloSecret id notes b c => ClientMessage.HelloSecret id (hide "" notes) b c
  | ClientMessage.ConnectSecret id notes => ClientMessage.ConnectSecret id (hide "" notes)
  | ClientMessage.JoinCarrier _ => ClientMessage.JoinCarrier ""
  | ClientMessage.HelloVhost s i notes b c u w a => ClientMessage.HelloVhost s i (hide "" notes) b c u w a
  | ClientMessage.HelloVpn i ad a notes c x v => ClientMessage.HelloVpn i ad a (hide "" notes) c x v
  | ClientMessage.ConnectVpn i ad a notes c v => ClientMessage.ConnectVpn i ad a (hide "" notes) c v
  | m => m
  end.

Definition server_public (m : ServerMessage) : ServerMessage :=
  match m with
  | ServerMessage.CarrierToken _ extra => ServerMessage.CarrierToken "" extra
  | m => m
  end.

Lemma present_hide {A} (a : A) o : present (hide a o) = present o.
Proof. by destruct o. Qed.

Section Hiding.
Context `{StrDebug} `{HexText} `{Ipv6Text} (uuid_text : Uuid -> string).

Lemma client_summary_public m : client_summary (client_public m) = client_summary m.
Proof.
  destruct m; try done; cbn [client_public client_summary]; rewrite ?present_hide; try done.
  unfold tunnel_summary, public_options. simpl. rewrite present_hide. by destruct (basic_auth options).
Qed.

Lemma server_summary_public m : server_summary uuid_text (server_public m) = server_summary uuid_text m.
Proof. by destruct m. Qed.

End Hiding.

(** ** Nonces *)

Lemma string_length_app (s t : string) : String.length (s +:+ t) = String.length s + String.length t.
Proof. induction s as [|a s IH]; [done|]. change (String.length (String a s +:+ t)) with (S (String.length (s +:+ t))). by rewrite IH. Qed.

Lemma string_app_inj_r (s t u : string) : s +:+ u = t +:+ u -> s = t.
Proof.
  intros E. assert (El : String.length s = String.length t).
  { apply (f_equal String.length) in E. rewrite !string_length_app in E. lia. }
  revert t E El. induction s as [|a s IH]; intros [|b t] E El; try done.
  injection E as -> E. f_equal. apply IH; [done|]. simpl in El. lia.
Qed.

(** The session nonce is not hidden: the summary of a [UdpPunch] shows it, and with
    it, when there is no secret, the token of the direct path. *)
Lemma punch_log_shows_the_nonce `{StrDebug} `{HexText} `{Ipv6Text} `{Crypto} uuid_text
  n1 n2 peer stun tuning id :
  (forall a b : bytes, hex_text a = hex_text b -> a = b) ->
  server_summary uuid_text (ServerMessage.UdpPunch n1 peer stun tuning id) =
    server_summary uuid_text (ServerMessage.UdpPunch n2 peer stun tuning id) ->
  n1 = n2 /\ derive_token None n1 = derive_token None n2.
Proof.
  intros Hhex E. cbn [server_summary] in E. apply (inj (String.append _)) in E.
  apply string_app_inj_r, Hhex in E. by subst.
Qed.

#[local] Instance plain_str_debug : StrDebug := fun s => s.
#[local] Instance plain_hex : HexText := fun b => String.string_of_list_byte b.
#[local] Instance plain_ipv6 : Ipv6Text := fun _ => "::".

