(* ===== verification/Rendezvous.v ===== *)
(** * The rendezvous of secret tunnels ([vendored-from-bore/secret.rs], [pool.rs])

    The server side of the reference's secret tunnels: providers register an id
    and their UDP candidates, extra connections join a provider's carrier pool,
    consumers are relayed to the provider or brokered a direct path to it.  The
    tasks share four registries; every arm of a task's [select!] is a step of the
    whole, and the places where an arm waits are its ends (the registration of a
    provider, which waits for its sends only, is one step, whether they succeed or
    not). *)

From stdpp Require Import list gmap.
From S2P Require Import Prelude Streams Proto Transport Pool Shared Addresses Stun Candidates Control.
Import ClientMessage(ClientMessage) ServerMessage(ServerMessage).

(** ** The carrier pool of the reference *)

Definition pool_push {O} (self : @CarrierPool O) (c : @Carrier O) (max : N) :
  bool * @CarrierPool O :=
  if (max <=? nlen (pool_carriers self))%N then (false, self)
  else (true, {| pool_carriers := pool_carriers self ++ [c]; pool_next := pool_next self |}).

Definition pool_len {O} (self : @CarrierPool O) : N := nlen (pool_carriers self).

(** ** Registrations *)

(** Connections, tasks and channels by number; a channel whose receiver is gone is
    no longer in [channels]. *)
Abbreviation conn := nat.
Abbreviation chan := nat.
Abbreviation pool := (@CarrierPool conn).

Record UdpReg : Type := {
  reg_candidates : list SocketAddr;
  reg_stun : option string;
  reg_nonce : bytes;
  to_provider : chan;
}.

Record UdpOffer : Type := {
  offer_nonce : bytes;
  offer_candidates : list SocketAddr;
  offer_stun : option string;
}.

Record registries : Type := {
  registry : gmap string pool;
  udp_registry : gmap string UdpReg;
  pending_carriers : gmap string chan;
  channels : gmap chan (list UdpOffer);
  joins : gmap chan (list (@Carrier conn));             (* unbounded channels of carriers *)
  next_chan : chan;                          (* channels are never reused *)
}.

(** What a provider's task holds: its guard, the receiver of offers once there is
    one, and the receiver of carriers with the guard of its token. *)
Record provider : Type := {
  p_id : string;
  p_offers : option chan;
  p_effective : N;
  p_carriers : option (chan * string);
}.

Definition with_registry (s : registries) (m : gmap string pool) : registries :=
  {| registry := m; udp_registry := udp_registry s; pending_carriers := pending_carriers s;
     channels := channels s; joins := joins s; next_chan := next_chan s |}.
Definition with_udp (s : registries) (m : gmap string UdpReg) : registries :=
  {| registry := registry s; udp_registry := m; pending_carriers := pending_carriers s;
     channels := channels s; joins := joins s; next_chan := next_chan s |}.
Definition with_pending (s : registries) (m : gmap string chan) : registries :=
  {| registry := registry s; udp_registry := udp_registry s; pending_carriers := m;
     channels := channels s; joins := joins s; next_chan := next_chan s |}.
Definition with_channels (s : registries) (m : gmap chan (list UdpOffer)) : registries :=
  {| registry := registry s; udp_registry := udp_registry s; pending_carriers := pending_carriers s;
     channels := m; joins := joins s; next_chan := next_chan s |}.
Definition with_joins (s : registries) (m : gmap chan (list (@Carrier conn))) : registries :=
  {| registry := registry s; udp_registry := udp_registry s; pending_carriers := pending_carriers s;
     channels := channels s; joins := m; next_chan := next_chan s |}.

Definition used_chan (s : registries) : registries :=
  {| registry := registry s; udp_registry := udp_registry s; pending_carriers := pending_carriers s;
     channels := channels s; joins := joins s; next_chan := S (next_chan s) |}.

(** ** Providers *)

Definition udp_offer_from_legacy (candidates : list SocketAddr) : UdpOfferMsg :=
  {| offered := candidates; offered_stun := None; peer_id := 0 |}.

Definition register_provider_udp_offer (s : registries) (p : provider) (new_nonce : bytes)
  (offer : UdpOfferMsg) : registries * provider :=
  let existing := udp_registry s !! p_id p in
  let '(c, rx) :=
    match existing with
    | Some e => (to_provider e, None)
    | None => (next_chan s, Some (next_chan s))
    end in
  let nonce := default new_nonce (reg_nonce <$> existing) in
  let reg := {| reg_candidates := offered offer; reg_stun := offered_stun offer;
                reg_nonce := nonce; to_provider := c |} in
  let s := with_udp s (<[p_id p := reg]> (udp_registry s)) in
  match rx with
  | Some c =>
      (with_channels (used_chan s) (<[c := []]> (match p_offers p with
                                     | Some old => delete old (channels s)
                                     | None => channels s
                                     end)),
       {| p_id := p_id p; p_offers := Some c; p_effective := p_effective p; p_carriers := p_carriers p |})
  | None => (s, p)
  end.

Definition provider_stun_hint (s : registries) (id : string) : option string :=
  udp_registry s !! id ≫= reg_stun.

(** [serve_provider], up to its loop: the entry is taken, or the id refused; a pool
    of carriers is offered when the provider asks for more than one. *)
Definition serve_provider (s : registries) (opener : conn) (id token : string)
  (max_carriers carriers : N) : list ServerMessage * registries * option provider :=
  match registry s !! id with
  | Some _ => ([ServerMessage.Error ("tcp-secret-id '" +:+ id +:+ "' already in use")], s, None)
  | None =>
      let s := with_registry s (<[id := CarrierPool_new opener]> (registry s)) in
      let effective := clamp carriers 1 (N.max max_carriers 1) in
      if (1 <? carriers)%N then
        let extra := (effective - 1)%N in
        let c := next_chan s in
        ([ServerMessage.Ok; ServerMessage.CarrierToken token extra],
         with_joins (with_pending (used_chan s) (<[token := c]> (pending_carriers s))) (<[c := []]> (joins s)),
         Some {| p_id := id; p_offers := None; p_effective := effective; p_carriers := Some (c, token) |})
      else
        ([ServerMessage.Ok], s,
         Some {| p_id := id; p_offers := None; p_effective := effective; p_carriers := None |})
  end.

(** A message of the provider: [None] ends the task. *)
Definition provider_message (s : registries) (p : provider) (new_nonce : bytes)
  (message : option ClientMessage) : registries * option provider :=
  match message with
  | Some (ClientMessage.UdpCandidates candidates) =>
      let '(s, p) := register_provider_udp_offer s p new_nonce (udp_offer_from_legacy candidates) in
      (s, Some p)
  | Some (ClientMessage.UdpCandidateOffer offer) =>
      let '(s, p) := register_provider_udp_offer s p new_nonce offer in (s, Some p)
  | Some _ => (s, Some p)
  | None => (s, None)
  end.

(** [recv_offer], [None] while there is nothing, and what the loop sends then. *)
Definition provider_offer (s : registries) (p : provider) : option (chan * UdpOffer * registries) :=
  c ← p_offers p;
  q ← channels s !! c;
  match q with
  | [] => None
  | o :: q' => Some (c, o, with_channels s (<[c := q']> (channels s)))
  end.

Definition offer_punch (o : UdpOffer) (tuning : UdpDirectTuning) : ServerMessage :=
  ServerMessage.UdpPunch (offer_nonce o) (offer_candidates o) (offer_stun o) tuning 0.

(** [recv_carrier], then [pool.push(carrier, effective)]. *)
Definition provider_joined (s : registries) (p : provider) : option registries :=
  '(c, _) ← p_carriers p;
  q ← joins s !! c;
  match q with
  | [] => None
  | o :: q' =>
      let s := with_joins s (<[c := q']> (joins s)) in
      Some (match registry s !! p_id p with
            | Some pl => with_registry s
                (<[p_id p := (pool_push pl o (p_effective p)).2]> (registry s))
            | None => s
            end)
  end.

(** The task ends: its receivers and the guard of its token are dropped, then the
    guard of its id ([Deregister]) removes one entry after the other. *)
Definition drop_receivers (s : registries) (p : provider) : registries :=
  let s := match p_offers p with Some c => with_channels s (delete c (channels s)) | None => s end in
  match p_carriers p with
  | Some (c, token) =>
      with_joins (with_pending s (delete token (pending_carriers s))) (delete c (joins s))
  | None => s
  end.

Definition deregister_id (s : registries) (id : string) : registries :=
  with_registry s (delete id (registry s)).
Definition deregister_udp (s : registries) (id : string) : registries :=
  with_udp s (delete id (udp_registry s)).

(** [serve_carrier] ([server.rs]), up to its wait. *)
Definition join_carrier (s : registries) (opener : conn) (token : string) : bool * registries :=
  match pending_carriers s !! token with
  | None => (false, s)
  | Some c =>
      match joins s !! c with
      | None => (false, s)
      | Some q => (true, with_joins s (<[c := q ++ [Carrier_new opener]]> (joins s)))
      end
  end.

(** Its end: the flag the pool and the queue share is cleared. *)
Definition marked_dead (opener : conn) (c : @Carrier conn) : @Carrier conn :=
  if Nat.eqb (Pool.opener c) opener then {| Pool.opener := Pool.opener c; alive := false |} else c.

Definition carrier_lost (s : registries) (opener : conn) : registries :=
  let dead := fmap (marked_dead opener) in
  with_joins
    (with_registry s ((fun pl => {| pool_carriers := dead (pool_carriers pl); pool_next := pool_next pl |})
                      <$> registry s))
    (dead <$> joins s).

(** ** Consumers *)

(** [broker_udp] finds the registration, waits to hand over the offer, then tells
    the consumer: the provider may have read the offer by then. *)
Inductive brokering : Type :=
| Unavailable
| Handing (reg : UdpReg) (offer : UdpOffer).

Definition broker_lookup (s : registries) (id : string) (consumer : UdpOfferMsg) : brokering :=
  match udp_registry s !! id with
  | None => Unavailable
  | Some reg =>
      Handing reg {| offer_nonce := reg_nonce reg; offer_candidates := offered consumer;
                     offer_stun := offered_stun consumer |}
  end.

Definition OFFER_QUEUE : nat := 4.

(** The send of an offer, whether it is delivered: it waits while the queue is full
    ([None]). *)
Definition broker_hand (s : registries) (reg : UdpReg) (offer : UdpOffer) : option (bool * registries) :=
  match channels s !! to_provider reg with
  | None => Some (false, s)
  | Some q =>
      if length q <? OFFER_QUEUE then
        Some (true, with_channels s (<[to_provider reg := q ++ [offer]]> (channels s)))
      else None
  end.

(** What the consumer is told then. *)
Definition broker_reply (reg : UdpReg) (tuning : UdpDirectTuning) (delivered : bool) : ServerMessage :=
  if delivered then ServerMessage.UdpPunch (reg_nonce reg) (reg_candidates reg) (reg_stun reg) tuning 0
  else ServerMessage.UdpUnavailable.

(** [relay], up to the splice: the next live carrier of the provider. *)
Definition relay_pick (s : registries) (id : string) : result string conn * registries :=
  match registry s !! id with
  | None => (Err ("no provider registered for '" +:+ id +:+ "'"), s)
  | Some pl =>
      let '(o, pl') := pick pl in
      (ok_or o "no live provider carrier", with_registry s (<[id := pl']> (registry s)))
  end.

(** ** The whole *)

Inductive provider_task : Type :=
| Registered (p : provider)
| Dropping (id : string).          (* between the two removals of [Deregister] *)

Inductive consumer_task : Type :=
| Waiting (id : string)
| Brokering (id : string) (reg : UdpReg) (offer : UdpOffer)
| Telling (id : string) (message : ServerMessage).

Record system : Type := {
  sh : registries;
  provs : gmap nat provider_task;
  cons : gmap nat consumer_task;
}.

Section Steps.
Context (max_carriers : N) (tuning : UdpDirectTuning).

(** What happens in a step, for those who watch: a provider ([inl]) or a consumer
    ([inr]) is told something; a consumer hands an offer to a channel, and a
    provider takes it from there. *)
Inductive event : Type :=
| Told (peer : nat + nat) (message : ServerMessage)
| Handed (j : nat) (c : chan) (offer : UdpOffer)
| Taken (i : nat) (c : chan) (offer : UdpOffer).

Inductive step : system -> list event -> system -> Prop :=
| step_refused s ps cs i opener id token carriers msgs :
    ps !! i = None ->
    serve_provider s opener id token max_carriers carriers = (msgs, s, None) ->
    step {| sh := s; provs := ps; cons := cs |} (Told (inl i) <$> msgs)
         {| sh := s; provs := ps; cons := cs |}
| step_registered s s' ps cs i opener id token carriers msgs p :
    ps !! i = None ->
    serve_provider s opener id token max_carriers carriers = (msgs, s', Some p) ->
    step {| sh := s; provs := ps; cons := cs |} (Told (inl i) <$> msgs)
         {| sh := s'; provs := <[i := Registered p]> ps; cons := cs |}
| step_unanswered s s' ps cs i opener id token carriers msgs p :   (* the first send fails *)
    ps !! i = None ->
    serve_provider s opener id token max_carriers carriers = (msgs, s', Some p) ->
    step {| sh := s; provs := ps; cons := cs |} []
         {| sh := s; provs := <[i := Dropping id]> ps; cons := cs |}
| step_token_unsent s s' ps cs i opener id token carriers msgs p c t :
    (* the second fails: the token is inserted before it is sent, and guarded after *)
    ps !! i = None ->
    serve_provider s opener id token max_carriers carriers = (msgs, s', Some p) ->
    p_carriers p = Some (c, t) ->
    step {| sh := s; provs := ps; cons := cs |} [Told (inl i) ServerMessage.Ok]
         {| sh := with_pending (used_chan s) (<[t := c]> (pending_carriers s));
            provs := <[i := Dropping id]> ps; cons := cs |}
| step_message s s' ps cs i p p' nonce m :
    ps !! i = Some (Registered p) -> provider_message s p nonce (Some m) = (s', Some p') ->
    step {| sh := s; provs := ps; cons := cs |} []
         {| sh := s'; provs := <[i := Registered p']> ps; cons := cs |}
| step_offer s s' ps cs i p c o :
    ps !! i = Some (Registered p) -> provider_offer s p = Some (c, o, s') ->
    step {| sh := s; provs := ps; cons := cs |} [Taken i c o; Told (inl i) (offer_punch o tuning)]
         {| sh := s'; provs := ps; cons := cs |}
| step_joined s s' ps cs i p :
    ps !! i = Some (Registered p) -> provider_joined s p = Some s' ->
    step {| sh := s; provs := ps; cons := cs |} [] {| sh := s'; provs := ps; cons := cs |}
| step_gone s ps cs i p :            (* the peer left, or a send to it failed *)
    ps !! i = Some (Registered p) ->
    step {| sh := s; provs := ps; cons := cs |} []
         {| sh := deregister_id (drop_receivers s p) (p_id p); provs := <[i := Dropping (p_id p)]> ps;
            cons := cs |}
| step_dropped s ps cs i id :
    ps !! i = Some (Dropping id) ->
    step {| sh := s; provs := ps; cons := cs |} []
         {| sh := deregister_udp s id; provs := delete i ps; cons := cs |}
| step_carrier s ps cs opener token :
    step {| sh := s; provs := ps; cons := cs |} []
         {| sh := (join_carrier s opener token).2; provs := ps; cons := cs |}
| step_carrier_lost s ps cs opener :
    step {| sh := s; provs := ps; cons := cs |} []
         {| sh := carrier_lost s opener; provs := ps; cons := cs |}
| step_consumer s ps cs j id :
    cs !! j = None ->
    step {| sh := s; provs := ps; cons := cs |} [Told (inr j) ServerMessage.Ok]
         {| sh := s; provs := ps; cons := <[j := Waiting id]> cs |}
| step_hint s ps cs j id :
    cs !! j = Some (Waiting id) ->
    step {| sh := s; provs := ps; cons := cs |} [Told (inr j) (ServerMessage.UdpStunHint (provider_stun_hint s id))]
         {| sh := s; provs := ps; cons := cs |}
| step_unavailable s ps cs j id offer :
    cs !! j = Some (Waiting id) -> broker_lookup s id offer = Unavailable ->
    step {| sh := s; provs := ps; cons := cs |} [Told (inr j) ServerMessage.UdpUnavailable]
         {| sh := s; provs := ps; cons := cs |}
| step_brokering s ps cs j id reg o offer :
    cs !! j = Some (Waiting id) -> broker_lookup s id offer = Handing reg o ->
    step {| sh := s; provs := ps; cons := cs |} []
         {| sh := s; provs := ps; cons := <[j := Brokering id reg o]> cs |}
| step_handed s s' ps cs j id reg o :
    cs !! j = Some (Brokering id reg o) -> broker_hand s reg o = Some (true, s') ->
    step {| sh := s; provs := ps; cons := cs |} [Handed j (to_provider reg) o]
         {| sh := s'; provs := ps; cons := <[j := Telling id (broker_reply reg tuning true)]> cs |}
| step_vanished s s' ps cs j id reg o :
    cs !! j = Some (Brokering id reg o) -> broker_hand s reg o = Some (false, s') ->
    step {| sh := s; provs := ps; cons := cs |} []
         {| sh := s'; provs := ps; cons := <[j := Telling id (broker_reply reg tuning false)]> cs |}
| step_told s ps cs j id message :
    cs !! j = Some (Telling id message) ->
    step {| sh := s; provs := ps; cons := cs |} [Told (inr j) message]
         {| sh := s; provs := ps; cons := <[j := Waiting id]> cs |}
| step_relay s ps cs j id :
    cs !! j = Some (Waiting id) ->
    step {| sh := s; provs := ps; cons := cs |} []
         {| sh := (relay_pick s id).2; provs := ps; cons := cs |}
| step_consumer_gone s ps cs j c :
    cs !! j = Some c ->
    step {| sh := s; provs := ps; cons := cs |} [] {| sh := s; provs := ps; cons := delete j cs |}.

Definition empty_system : system :=
  {| sh := {| registry := ∅; udp_registry := ∅; pending_carriers := ∅; channels := ∅; joins := ∅; next_chan := 0 |};
     provs := ∅; cons := ∅ |}.

(** What happened along the way, in order. *)
Inductive reached : list event -> system -> Prop :=
| reached_start : reached [] empty_system
| reached_step l x m y : reached l x -> step x m y -> reached (l ++ m) y.
End Steps.
