(* ===== verification/RendezvousTheorems.v ===== *)
(** * Brokered pairs ([vendored-from-bore/secret.rs])

    What holds in every state the tasks of [Rendezvous] can reach: a registration
    for direct paths belongs to the provider that holds the other end of its
    channel, the two ends of a brokered pair are told one nonce, and a pool never
    outgrows the limit of the server. *)

From stdpp Require Import list gmap.
From Stdlib Require Import Lia.
From S2P Require Import Prelude Streams Proto Transport Pool Shared Addresses Stun Candidates Control Rendezvous.
Import ClientMessage(ClientMessage) ServerMessage(ServerMessage).

(** ** Registrations and their owners *)

Record owned (x : system) : Prop := {
  ow_listed i p : provs x !! i = Some (Registered p) -> is_Some (registry (sh x) !! p_id p);
  ow_unique i j p q : provs x !! i = Some (Registered p) -> provs x !! j = Some (Registered q) ->
    p_id p = p_id q -> i = j;
  ow_open i p c : provs x !! i = Some (Registered p) -> p_offers p = Some c ->
    is_Some (channels (sh x) !! c) /\ c < next_chan (sh x);
  ow_apart i j p q c : provs x !! i = Some (Registered p) -> provs x !! j = Some (Registered q) ->
    p_offers p = Some c -> p_offers q = Some c -> i = j;
  ow_udp id reg : udp_registry (sh x) !! id = Some reg ->
    (exists i p, provs x !! i = Some (Registered p) /\ p_id p = id /\ p_offers p = Some (to_provider reg)) \/
    (exists i, provs x !! i = Some (Dropping id))
}.

(** The registries a step may touch without any provider noticing. *)
Record same_shape (s s' : registries) : Prop := {
  ss_registry id : is_Some (registry s !! id) -> is_Some (registry s' !! id);
  ss_channels c : is_Some (channels s !! c) -> is_Some (channels s' !! c);
  ss_next : next_chan s <= next_chan s';
  ss_udp : udp_registry s' = udp_registry s
}.

Lemma same_shape_refl s : same_shape s s.
Proof. by split. Qed.

Lemma owned_same_shape s s' ps cs cs' :
  same_shape s s' -> owned {| sh := s; provs := ps; cons := cs |} ->
  owned {| sh := s'; provs := ps; cons := cs' |}.
Proof.
  intros [Hr Hc Hn Hu] [O1 O2 O3 O4 O5]; simpl in *; split; simpl.
  - intros i p Hi. apply Hr, (O1 i p Hi).
  - exact O2.
  - intros i p c Hi Hp. destruct (O3 i p c Hi Hp). split; [by apply Hc | lia].
  - exact O4.
  - rewrite Hu. exact O5.
Qed.
#[local] Hint Resolve same_shape_refl : core.

Lemma insert_keeps {K A} `{Countable K} (m : gmap K A) k v k' :
  is_Some (m !! k') -> is_Some (<[k := v]> m !! k').
Proof. rewrite lookup_insert_is_Some'. auto. Qed.
#[local] Hint Resolve insert_keeps : core.

Lemma provider_offer_shape s p c o s' :
  provider_offer s p = Some (c, o, s') -> same_shape s s'.
Proof.
  unfold provider_offer. intros E. simplify_option_eq. repeat case_match; simplify_eq.
  split; simpl; auto.
Qed.

Lemma provider_joined_shape s p s' : provider_joined s p = Some s' -> same_shape s s'.
Proof.
  unfold provider_joined. intros E.
  destruct (p_carriers p) as [[c t]|]; simplify_option_eq.
  repeat case_match; simplify_option_eq; split; simpl; auto.
Qed.

Lemma join_carrier_shape s opener token : same_shape s (join_carrier s opener token).2.
Proof. unfold join_carrier. repeat case_match; split; simpl; auto. Qed.

Lemma broker_hand_shape s reg o told s' :
  broker_hand s reg o = Some (told, s') -> same_shape s s'.
Proof.
  unfold broker_hand. intros E. repeat case_match; simplify_eq; [|done].
  split; simpl; auto.
Qed.

Lemma relay_pick_shape s id : same_shape s (relay_pick s id).2.
Proof. unfold relay_pick. repeat case_match; split; simpl; auto. Qed.

Lemma carrier_lost_shape s opener : same_shape s (carrier_lost s opener).
Proof. split; simpl; auto. intros id. rewrite lookup_fmap, fmap_is_Some. done. Qed.

#[local] Hint Resolve carrier_lost_shape provider_offer_shape provider_joined_shape join_carrier_shape
  broker_hand_shape relay_pick_shape : core.

(** A provider that registers was not listed. *)
Lemma owned_registered s s' ps cs i opener id token mx carriers msgs p :
  ps !! i = None ->
  serve_provider s opener id token mx carriers = (msgs, s', Some p) ->
  owned {| sh := s; provs := ps; cons := cs |} ->
  owned {| sh := s'; provs := <[i := Registered p]> ps; cons := cs |}.
Proof.
  intros Hi E [O1 O2 O3 O4 O5]; simpl in *.
  assert (p_id p = id /\ p_offers p = None /\ registry s !! id = None /\ is_Some (registry s' !! id) /\
          same_shape s s') as (Hid & Hoff & Hfree & Hnow & [Hr Hc Hn Hu]).
  { unfold serve_provider in E. repeat case_match; simplify_eq; simpl;
      repeat split; simpl; auto; rewrite lookup_insert_eq; eauto. }
  assert (Hother : forall j q, <[i := Registered p]> ps !! j = Some (Registered q) ->
    (j = i /\ q = p) \/ ps !! j = Some (Registered q) /\ p_id q <> id).
  { intros j q [[-> [= ->]]|[_ Hq]]%lookup_insert_Some; [by left | right].
    split; [done|]. intros <-. destruct (O1 j q Hq). simplify_eq. }
  split; simpl.
  - intros j q [[-> ->]|[Hq _]]%Hother; [by rewrite Hid | by eapply Hr, O1].
  - intros j k q r [[-> ->]|[Hq ?]]%Hother [[-> ->]|[Hr' ?]]%Hother E'; try congruence. by eapply O2.
  - intros j q c [[-> ->]|[Hq _]]%Hother Hc'; [congruence|].
    destruct (O3 j q c Hq Hc'). split; [by apply Hc | lia].
  - intros j k q r c [[-> ->]|[Hq ?]]%Hother [[-> ->]|[Hr' ?]]%Hother E1 E2; try congruence. by eapply O4.
  - rewrite Hu. intros id' reg [(j & q & Hq & ?)|[j Hj]]%O5.
    + left. exists j, q. rewrite lookup_insert_ne by congruence. done.
    + right. exists j. rewrite lookup_insert_ne by congruence. done.
Qed.

Lemma owned_offered s ps cs i p new_nonce offer s' p' :
  ps !! i = Some (Registered p) ->
  register_provider_udp_offer s p new_nonce offer = (s', p') ->
  owned {| sh := s; provs := ps; cons := cs |} ->
  owned {| sh := s'; provs := <[i := Registered p']> ps; cons := cs |}.
Proof.
  intros Hi E [O1 O2 O3 O4 O5]; simpl in *.
  unfold register_provider_udp_offer in E.
  destruct (udp_registry s !! p_id p) as [e|] eqn:He; simplify_eq; simpl.
  - rewrite (insert_id ps i (Registered p')) by done.
    split; simpl; [done..|].
    intros id reg [[<- <-]|[Hne Hr]]%lookup_insert_Some; [|by apply O5].
    destruct (O5 _ _ He) as [(j & q & ? & Hq & ?)|?]; [left; exists j, q; auto | by right].
  - assert (Hother : forall j q, <[i := Registered {| p_id := p_id p; p_offers := Some (next_chan s);
        p_effective := p_effective p; p_carriers := p_carriers p |}]> ps !! j = Some (Registered q) ->
      (j = i /\ p_id q = p_id p /\ p_offers q = Some (next_chan s)) \/ (j <> i /\ ps !! j = Some (Registered q))).
    { intros j q [[-> [= <-]]|[? ?]]%lookup_insert_Some; auto. }
    assert (Hfresh : forall j q, ps !! j = Some (Registered q) -> p_offers q <> Some (next_chan s)).
    { intros j q Hj Hq. destruct (O3 j q _ Hj Hq). lia. }
    split; simpl.
    + intros j q [(-> & -> & _)|[_ Hq]]%Hother; [by eapply O1 | by eapply O1].
    + intros j k q r [(-> & Eq & _)|[? Hq]]%Hother [(-> & Er & _)|[? Hr]]%Hother E; try done;
        [exfalso; rewrite Eq in E | exfalso; rewrite Er in E |]; naive_solver.
    + intros j q c [(-> & _ & Hq)|[? Hq]]%Hother Hc.
      * simplify_eq. rewrite lookup_insert_eq. split; [eauto | lia].
      * destruct (O3 j q c Hq Hc) as [Ho ?]. split; [|lia]. apply insert_keeps.
        destruct (p_offers p) as [old|] eqn:Hold; [|done].
        rewrite lookup_delete_ne; [done|]. intros ->. by eapply (O4 i j) in Hq; eauto.
    + intros j k q r c [(-> & _ & Eq)|[? Hq]]%Hother [(-> & _ & Er)|[? Hr]]%Hother E1 E2; try done;
        [exfalso; naive_solver | exfalso; naive_solver | by eapply O4].
    + intros id reg [[<- <-]|[Hne Hr]]%lookup_insert_Some.
      * left. eexists i, _. rewrite lookup_insert_eq. auto.
      * destruct (O5 _ _ Hr) as [(j & q & ? & Hq & ?)|[j Hj]].
        { left. exists j, q. rewrite lookup_insert_ne; [auto | congruence]. }
        right. exists j. by rewrite lookup_insert_ne by congruence.
Qed.

Lemma owned_gone s ps cs i p :
  ps !! i = Some (Registered p) ->
  owned {| sh := s; provs := ps; cons := cs |} ->
  owned {| sh := deregister_id (drop_receivers s p) (p_id p);
           provs := <[i := Dropping (p_id p)]> ps; cons := cs |}.
Proof.
  intros Hi [O1 O2 O3 O4 O5]; simpl in *.
  assert (Hother : forall j q, <[i := Dropping (p_id p)]> ps !! j = Some (Registered q) ->
    j <> i /\ ps !! j = Some (Registered q)).
  { intros j q [[-> ?]|[? ?]]%lookup_insert_Some; done. }
  assert (Hrest : registry (drop_receivers s p) = registry s /\
    udp_registry (drop_receivers s p) = udp_registry s /\ next_chan (drop_receivers s p) = next_chan s /\
    forall c, p_offers p <> Some c -> channels (drop_receivers s p) !! c = channels s !! c).
  { unfold drop_receivers. repeat case_match; repeat split; intros; simpl;
      rewrite ?lookup_delete_ne by congruence; done. }
  destruct Hrest as (R1 & R2 & R3 & R4).
  split; simpl; rewrite ?R1, ?R2, ?R3.
  - intros j q [Hne Hq]%Hother. rewrite lookup_delete_ne; [by eapply O1|].
    intros E. by eapply Hne, O2.
  - intros j k q r [? ?]%Hother [? ?]%Hother ?. by eapply O2.
  - intros j q c [Hne Hq]%Hother Hc. rewrite R4; [by eapply O3|].
    intros E. by eapply Hne, O4.
  - intros j k q r c [? ?]%Hother [? ?]%Hother ??. by eapply O4.
  - intros id reg [(j & q & Hq & Hid & ?)|[j Hj]]%O5.
    + destruct (decide (j = i)) as [->|Hne].
      * right. exists i. rewrite lookup_insert_eq. congruence.
      * left. exists j, q. by rewrite lookup_insert_ne.
    + right. exists j. by rewrite lookup_insert_ne by congruence.
Qed.

Lemma owned_dropped s ps cs i id :
  ps !! i = Some (Dropping id) ->
  owned {| sh := s; provs := ps; cons := cs |} ->
  owned {| sh := deregister_udp s id; provs := delete i ps; cons := cs |}.
Proof.
  intros Hi [O1 O2 O3 O4 O5]; simpl in *.
  split; simpl.
  - intros j q [? ?]%lookup_delete_Some. by eapply O1.
  - intros j k q r [? ?]%lookup_delete_Some [? ?]%lookup_delete_Some ?. by eapply O2.
  - intros j q c [? ?]%lookup_delete_Some ?. by eapply O3.
  - intros j k q r c [? ?]%lookup_delete_Some [? ?]%lookup_delete_Some ??. by eapply O4.
  - intros id' reg [Hne Hr]%lookup_delete_Some.
    destruct (O5 _ _ Hr) as [(j & q & ? & ?)|[j Hj]].
    + left. exists j, q. by rewrite lookup_delete_ne by congruence.
    + right. exists j. by rewrite lookup_delete_ne by congruence.
Qed.

(** A registration that fails half-way. *)
Lemma owned_failed s s' ps cs i id :
  ps !! i = None -> same_shape s s' ->
  owned {| sh := s; provs := ps; cons := cs |} ->
  owned {| sh := s'; provs := <[i := Dropping id]> ps; cons := cs |}.
Proof.
  intros Hi Hs Ho. apply (owned_same_shape s s' ps cs cs Hs) in Ho as [O1 O2 O3 O4 O5]; simpl in *.
  assert (Hother : forall j q, <[i := Dropping id]> ps !! j = Some (Registered q) -> ps !! j = Some (Registered q)).
  { intros j q [[_ ?]|[_ ?]]%lookup_insert_Some; done. }
  split; simpl; eauto.
  intros id' reg [(j & q & ? & ?)|[j Hj]]%O5.
  - left. exists j, q. rewrite lookup_insert_ne by congruence. done.
  - right. exists j. rewrite lookup_insert_ne by congruence. done.
Qed.

Lemma token_inserted_shape s t c : same_shape s (with_pending (used_chan s) (<[t := c]> (pending_carriers s))).
Proof. split; simpl; auto. Qed.
#[local] Hint Resolve token_inserted_shape : core.

Lemma owned_moves mx tuning x m y : step mx tuning x m y -> owned x -> owned y.
Proof.
  destruct 1; try (apply owned_same_shape; eauto; fail);
    eauto using owned_registered, owned_failed, owned_gone, owned_dropped.
  rename H into Hi, H0 into E. unfold provider_message in E.
  destruct m; simplify_eq; try (rewrite insert_id by done; by auto);
    match type of E with (let '(_, _) := ?t in _) = _ => destruct t eqn:Ht end; simplify_eq;
    by eapply owned_offered.
Qed.

Lemma owned_reached mx tuning l x : reached mx tuning l x -> owned x.
Proof.
  induction 1; [|by eapply owned_moves].
  split; simpl; intros *; rewrite ?lookup_empty; done.
Qed.


(** ** Pairs and their nonce *)

Definition handed_on (c : chan) (l : list event) : list UdpOffer :=
  omap (fun e => match e with Handed _ c' o => if Nat.eqb c c' then Some o else None | _ => None end) l.
Definition taken_from (c : chan) (l : list event) : list UdpOffer :=
  omap (fun e => match e with Taken _ c' o => if Nat.eqb c c' then Some o else None | _ => None end) l.

Lemma handed_on_app c l m : handed_on c (l ++ m) = handed_on c l ++ handed_on c m.
Proof. apply omap_app. Qed.
Lemma taken_from_app c l m : taken_from c (l ++ m) = taken_from c l ++ taken_from c m.
Proof. apply omap_app. Qed.

Lemma handed_on_elem c l o : o ∈ handed_on c l -> exists j, Handed j c o ∈ l.
Proof.
  intros [[|j c' o'|] [Hl E]]%list_elem_of_omap; try done.
  case_match eqn:Hc; [|done]. apply Nat.eqb_eq in Hc as ->. simplify_eq. eauto.
Qed.
Lemma taken_from_elem i c l o : Taken i c o ∈ l -> o ∈ taken_from c l.
Proof. intros Hl. apply list_elem_of_omap. eexists. split; [exact Hl|]. simpl. by rewrite Nat.eqb_refl. Qed.

Definition is_punch (m : ServerMessage) : bool :=
  match m with ServerMessage.UdpPunch _ _ _ _ _ => true | _ => false end.

(** Messages that introduce nobody. *)
Definition plain (e : event) : bool :=
  match e with Told _ m => negb (is_punch m) | _ => false end.

Lemma plain_silent c m : Forall plain m -> handed_on c m = [] /\ taken_from c m = [].
Proof. induction 1 as [|[] m He Hm IH]; done. Qed.

Section Pairs.
Context (tuning : UdpDirectTuning).

Record paired (l : list event) (x : system) : Prop := {
  pr_fifo c q : channels (sh x) !! c = Some q -> handed_on c l = taken_from c l ++ q;
  pr_prefix c : taken_from c l `prefix_of` handed_on c l;
  pr_fresh c : next_chan (sh x) <= c -> handed_on c l = [] /\ channels (sh x) !! c = None;
  pr_provider i m : Told (inl i) m ∈ l -> is_punch m ->
    exists c o, Taken i c o ∈ l /\ m = offer_punch o tuning;
  pr_handing j id reg o : cons x !! j = Some (Brokering id reg o) -> offer_nonce o = reg_nonce reg;
  pr_telling j id m : cons x !! j = Some (Telling id m) -> is_punch m ->
    exists reg c o, Handed j c o ∈ l /\ m = broker_reply reg tuning true /\ offer_nonce o = reg_nonce reg;
  pr_consumer j m : Told (inr j) m ∈ l -> is_punch m ->
    exists reg c o, Handed j c o ∈ l /\ m = broker_reply reg tuning true /\ offer_nonce o = reg_nonce reg
}.

(** Steps that close channels, or open new ones, and brokering aside. *)
Record calm (s s' : registries) (cs cs' : gmap nat consumer_task) : Prop := {
  cm_channels c q : channels s' !! c = Some q ->
    channels s !! c = Some q \/ (q = [] /\ next_chan s <= c < next_chan s');
  cm_next : next_chan s <= next_chan s';
  cm_consumers j t : cs' !! j = Some t -> cs !! j = Some t \/ exists id, t = Waiting id
}.

Lemma paired_calm l s s' ps ps' cs cs' m :
  calm s s' cs cs' -> Forall plain m ->
  paired l {| sh := s; provs := ps; cons := cs |} ->
  paired (l ++ m) {| sh := s'; provs := ps'; cons := cs' |}.
Proof.
  intros [C1 C2 C3] Hm [P1 P2 P3 P4 P5 P6 P7]; simpl in *.
  assert (Hplain : forall p t, Told p t ∈ l ++ m -> is_punch t -> Told p t ∈ l).
  { intros p t [?|Hin]%elem_of_app Ht; [done|].
    rewrite Forall_forall in Hm. apply Hm in Hin. simpl in Hin. by destruct (is_punch t). }
  split; simpl.
  - intros c q Hq. rewrite handed_on_app, taken_from_app.
    destruct (plain_silent c m Hm) as [-> ->]. rewrite !app_nil_r.
    destruct (C1 c q Hq) as [?|[-> [? _]]]; [by apply P1|].
    destruct (P3 c) as [Hh _]; [done|]. specialize (P2 c). rewrite Hh in *.
    apply prefix_nil_inv in P2 as ->. done.
  - intros c. rewrite handed_on_app, taken_from_app.
    destruct (plain_silent c m Hm) as [-> ->]. rewrite !app_nil_r. done.
  - intros c Hc. rewrite handed_on_app. destruct (plain_silent c m Hm) as [-> _].
    destruct (P3 c) as [-> Hn]; [lia|]. split; [done|].
    apply eq_None_not_Some. intros [q Hq]. destruct (C1 c q Hq) as [?|[_ ?]]; [congruence | lia].
  - intros i t Hin Ht. destruct (P4 i t) as (c & o & ? & ?); [by apply Hplain | done |].
    exists c, o. rewrite elem_of_app. auto.
  - intros j id reg o [?|[? ?]]%C3; [by eapply P5 | done].
  - intros j id t [Hj|[? ?]]%C3 Ht; [|done].
    destruct (P6 _ _ _ Hj Ht) as (reg & c & o & ? & ?). exists reg, c, o. rewrite elem_of_app. auto.
  - intros j t Hin Ht. destruct (P7 j t) as (reg & c & o & ? & ?); [by apply Hplain | done |].
    exists reg, c, o. rewrite elem_of_app. auto.
Qed.

Lemma calm_same s s' cs : channels s' = channels s -> next_chan s' = next_chan s -> calm s s' cs cs.
Proof. intros Ec En. split; [rewrite Ec | rewrite En |]; eauto. Qed.

Lemma calm_consumers s cs cs' :
  (forall j t, cs' !! j = Some t -> cs !! j = Some t \/ exists id, t = Waiting id) -> calm s s cs cs'.
Proof. intros. split; eauto. Qed.

Lemma calm_waiting s cs j id : calm s s cs (<[j := Waiting id]> cs).
Proof. apply calm_consumers. intros j' t [[_ <-]|[_ ?]]%lookup_insert_Some; eauto. Qed.

Lemma calm_refl s cs : calm s s cs cs.
Proof. by apply calm_same. Qed.

Lemma calm_offer s p nonce offer s' p' cs :
  register_provider_udp_offer s p nonce offer = (s', p') -> calm s s' cs cs.
Proof.
  unfold register_provider_udp_offer. destruct (udp_registry s !! p_id p); intros; simplify_eq.
  - by apply calm_same.
  - split; simpl; [|lia | eauto].
    intros c q [[<- <-]|[_ Hq]]%lookup_insert_Some; [right; split; [done | lia]|].
    left. case_match; [by apply lookup_delete_Some in Hq as [_ ?] | done].
Qed.

Lemma calm_message s p nonce m s' p' cs : provider_message s p nonce m = (s', p') -> calm s s' cs cs.
Proof. unfold provider_message. intros E. repeat case_match; simplify_eq; eauto using calm_offer, calm_refl. Qed.

Lemma calm_drop s p cs : calm s (deregister_id (drop_receivers s p) (p_id p)) cs cs.
Proof.
  unfold drop_receivers. split; [|by repeat case_match | eauto].
  intros c q. repeat case_match; simpl; try (by left); intros [_ ?]%lookup_delete_Some; by left.
Qed.

Lemma serve_provider_plain s opener id token mx carriers msgs s' p i cs :
  serve_provider s opener id token mx carriers = (msgs, s', p) ->
  calm s s' cs cs /\ Forall plain (Told (inl i) <$> msgs).
Proof.
  unfold serve_provider. intros E. repeat case_match; simplify_eq; simpl;
    (split; [|repeat constructor]); try apply calm_refl; try (by apply calm_same).
  split; simpl; eauto.
Qed.

Lemma calm_joined s p s' cs : provider_joined s p = Some s' -> calm s s' cs cs.
Proof.
  unfold provider_joined. intros E. destruct (p_carriers p) as [[c t]|]; simplify_option_eq.
  apply calm_same; repeat case_match; simplify_option_eq; done.
Qed.

#[local] Hint Resolve calm_refl calm_waiting calm_message calm_drop calm_joined : core.

(** A provider reads the offer at the head of its queue. *)
Lemma paired_taken l s s' ps ps' cs i p c o :
  provider_offer s p = Some (c, o, s') ->
  paired l {| sh := s; provs := ps; cons := cs |} ->
  paired (l ++ [Taken i c o; Told (inl i) (offer_punch o tuning)]) {| sh := s'; provs := ps'; cons := cs |}.
Proof.
  unfold provider_offer. intros E [P1 P2 P3 P4 P5 P6 P7]; simpl in *. simplify_option_eq.
  repeat case_match; simplify_eq.
  match goal with H : channels _ !! c = Some (_ :: ?r) |- _ => rename H into Hc, r into q' end.
  pose proof (P1 _ _ Hc) as Hf.
  split; simpl.
  - intros c' q. rewrite handed_on_app, taken_from_app. simpl.
    intros [[<- <-]|[Hne Hq]]%lookup_insert_Some.
    + rewrite Nat.eqb_refl, Hf, app_nil_r. simpl. by rewrite <- app_assoc.
    + assert (Nat.eqb c' c = false) as -> by (apply Nat.eqb_neq; congruence).
      simpl. rewrite !app_nil_r. by apply P1.
  - intros c'. rewrite handed_on_app, taken_from_app. simpl.
    destruct (Nat.eqb c' c) eqn:Ec; rewrite ?app_nil_r; [|done].
    apply Nat.eqb_eq in Ec as ->. rewrite Hf. exists q'. simpl. by rewrite <- app_assoc.
  - intros c' Hn. rewrite handed_on_app. simpl. rewrite app_nil_r.
    destruct (P3 c' Hn) as [? Hnone]. split; [done|]. rewrite lookup_insert_ne by congruence. done.
  - intros k m [Hin|Hin]%elem_of_app Hm.
    + destruct (P4 k m Hin Hm) as (c1 & o1 & ? & ?). exists c1, o1. rewrite elem_of_app. auto.
    + apply elem_of_cons in Hin as [?|Hin]; [done|]. apply list_elem_of_singleton in Hin. simplify_eq.
      exists c, o. rewrite elem_of_app. split; [right; left | done].
  - done.
  - intros j id m Hj Hm. destruct (P6 _ _ _ Hj Hm) as (reg & c1 & o1 & ? & ?).
    exists reg, c1, o1. rewrite elem_of_app. auto.
  - intros j m [Hin|Hin]%elem_of_app Hm.
    + destruct (P7 _ _ Hin Hm) as (reg & c1 & o1 & ? & ?). exists reg, c1, o1. rewrite elem_of_app. auto.
    + apply elem_of_cons in Hin as [?|Hin]; [done|]. apply list_elem_of_singleton in Hin. done.
Qed.

(** An offer is handed over: only an open queue takes it. *)
Lemma paired_handed l s s' ps cs j id reg o :
  cs !! j = Some (Brokering id reg o) -> broker_hand s reg o = Some (true, s') ->
  paired l {| sh := s; provs := ps; cons := cs |} ->
  paired (l ++ [Handed j (to_provider reg) o])
    {| sh := s'; provs := ps; cons := <[j := Telling id (broker_reply reg tuning true)]> cs |}.
Proof.
  unfold broker_hand. intros Hj E [P1 P2 P3 P4 P5 P6 P7]; simpl in *.
  repeat case_match; simplify_eq.
  match goal with H : channels _ !! _ = Some ?r |- _ => rename H into Hc, r into q end.
  split; simpl.
  - intros c' q'. rewrite handed_on_app, taken_from_app. simpl.
    intros [[<- <-]|[Hne Hq]]%lookup_insert_Some.
    + rewrite Nat.eqb_refl, (P1 _ _ Hc), app_nil_r. simpl. by rewrite <- app_assoc.
    + assert (Nat.eqb c' (to_provider reg) = false) as -> by (apply Nat.eqb_neq; congruence).
      simpl. rewrite !app_nil_r. by apply P1.
  - intros c'. rewrite handed_on_app, taken_from_app. simpl. rewrite app_nil_r.
    by apply prefix_app_r.
  - intros c' Hn. rewrite handed_on_app. simpl. destruct (P3 c' Hn) as [-> Hnone].
    destruct (Nat.eqb c' (to_provider reg)) eqn:Ec.
    { apply Nat.eqb_eq in Ec as ->. congruence. }
    split; [done|]. rewrite lookup_insert_ne; [done|]. intros <-. by rewrite Nat.eqb_refl in Ec.
  - intros k m [Hin|Hin]%elem_of_app Hm.
    + destruct (P4 k m Hin Hm) as (c1 & o1 & ? & ?). exists c1, o1. rewrite elem_of_app. auto.
    + by apply list_elem_of_singleton in Hin.
  - intros j' id' reg' o' [[? ?]|[? ?]]%lookup_insert_Some; [done | by eapply P5].
  - intros j' id' m [[<- [= <- <-]]|[_ Hj']]%lookup_insert_Some Hm.
    + exists reg, (to_provider reg), o. rewrite elem_of_app, list_elem_of_singleton.
      repeat split; eauto.
    + destruct (P6 _ _ _ Hj' Hm) as (reg1 & c1 & o1 & ? & ?).
      exists reg1, c1, o1. rewrite elem_of_app. auto.
  - intros j' m [Hin|Hin]%elem_of_app Hm.
    + destruct (P7 _ _ Hin Hm) as (reg1 & c1 & o1 & ? & ?). exists reg1, c1, o1. rewrite elem_of_app. auto.
    + by apply list_elem_of_singleton in Hin.
Qed.

(** The rest of a brokering touches no channel: a look-up, or a channel found
    closed. *)
Lemma paired_consumer l s ps cs j t :
  (forall id reg o, t = Brokering id reg o -> offer_nonce o = reg_nonce reg) ->
  (forall id m, t = Telling id m -> is_punch m = false) ->
  paired l {| sh := s; provs := ps; cons := cs |} ->
  paired l {| sh := s; provs := ps; cons := <[j := t]> cs |}.
Proof.
  intros Hb Ht [P1 P2 P3 P4 P5 P6 P7]; simpl in *. split; simpl; try done.
  - intros j' id reg o [[_ ->]|[_ ?]]%lookup_insert_Some; [by eapply Hb | by eapply P5].
  - intros j' id m [[_ ->]|[_ ?]]%lookup_insert_Some Hm; [|by eapply P6].
    by rewrite (Ht _ _ eq_refl) in Hm.
Qed.

(** The consumer is told. *)
Lemma paired_told l s ps cs j id m :
  cs !! j = Some (Telling id m) ->
  paired l {| sh := s; provs := ps; cons := cs |} ->
  paired (l ++ [Told (inr j) m]) {| sh := s; provs := ps; cons := <[j := Waiting id]> cs |}.
Proof.
  intros Hj P. destruct (is_punch m) eqn:Hm.
  2: { eapply paired_calm; eauto. constructor; [|constructor]. simpl. by rewrite Hm. }
  assert (exists reg c o, Handed j c o ∈ l /\ m = broker_reply reg tuning true /\ offer_nonce o = reg_nonce reg)
    as (reg & c & o & Hin & E & Hn) by (by eapply (pr_telling _ _ P); [|rewrite Hm]).
  destruct P as [P1 P2 P3 P4 P5 P6 P7]; simpl in *. split; simpl.
  - intros c' q. rewrite handed_on_app, taken_from_app. simpl. rewrite !app_nil_r. apply P1.
  - intros c'. rewrite handed_on_app, taken_from_app. simpl. rewrite !app_nil_r. apply P2.
  - intros c'. rewrite handed_on_app. simpl. rewrite app_nil_r. apply P3.
  - intros k t [Hk|Hk]%elem_of_app Ht; [|by apply list_elem_of_singleton in Hk].
    destruct (P4 k t Hk Ht) as (c1 & o1 & ? & ?). exists c1, o1. rewrite elem_of_app. auto.
  - intros j' id' reg' o' [[? ?]|[? ?]]%lookup_insert_Some; [done | by eapply P5].
  - intros j' id' t [[? ?]|[_ Hj']]%lookup_insert_Some Ht; [done|].
    destruct (P6 _ _ _ Hj' Ht) as (reg1 & c1 & o1 & ? & ?). exists reg1, c1, o1. rewrite elem_of_app. auto.
  - intros j' t [Hk|Hk]%elem_of_app Ht.
    + destruct (P7 _ _ Hk Ht) as (reg1 & c1 & o1 & ? & ?). exists reg1, c1, o1. rewrite elem_of_app. auto.
    + apply list_elem_of_singleton in Hk. simplify_eq. exists reg, c, o. rewrite elem_of_app. auto.
Qed.

Ltac calmly := eapply paired_calm; [.. | eassumption]; [eauto | by repeat constructor].

Lemma paired_step mx l x m y : step mx tuning x m y -> paired l x -> paired (l ++ m) y.
Proof.
  destruct 1; intros P; try (calmly; fail);
    try match goal with H : serve_provider _ _ _ _ _ _ = _ |- _ =>
      by eapply serve_provider_plain in H as [? ?]; eapply paired_calm end.
  - eapply paired_calm; [| |done]; [|by repeat constructor]. split; simpl; eauto.
  - by eapply paired_taken.
  - eapply paired_calm; [| |done]; [|constructor]. by apply calm_same.
  - eapply paired_calm; [| |done]; [|constructor].
    unfold join_carrier. apply calm_same; by repeat case_match.
  - eapply paired_calm; [| |done]; [|constructor]. by apply calm_same.
  - match goal with H : broker_lookup _ _ _ = _ |- _ => unfold broker_lookup in H end.
    case_match; simplify_eq. rewrite app_nil_r. by apply paired_consumer; [intros ? ? ? [= -> <- <-]|..].
  - by eapply paired_handed.
  - match goal with H : broker_hand _ _ _ = _ |- _ => unfold broker_hand in H end.
    repeat case_match; simplify_eq. rewrite app_nil_r.
    by apply paired_consumer; [|intros ? ? [= <- <-]|].
  - by eapply paired_told.
  - eapply paired_calm; [| |done]; [|constructor].
    unfold relay_pick. apply calm_same; by repeat case_match.
  - eapply paired_calm; [| |done]; [|constructor].
    apply calm_consumers. intros j' t [_ ?]%lookup_delete_Some. by left.
Qed.

Lemma paired_reached mx l x : reached mx tuning l x -> paired l x.
Proof.
  induction 1; [|by eapply paired_step].
  split; simpl; intros *; rewrite ?lookup_empty; try done; by intros ?%elem_of_nil.
Qed.

(** C17: Both ends of a direct path are introduced by one offer and told one nonce.
    Whatever the order in which providers register, renew their candidates and
    vanish, carriers join and consumers are brokered: what the provider of a
    channel has taken from it is, in order, a prefix of what consumers handed to
    it, and while the channel is open the rest is waiting; every punch told to a
    provider is an offer a consumer handed over, with that consumer's candidates;
    and a consumer is told to punch only after its own offer was handed over with
    the nonce it is told. *)
Theorem punches_come_from_one_offer (mx : N) l (x : system) (Hreach : reached mx tuning l x) :
  (forall c, taken_from c l `prefix_of` handed_on c l) /\
  (forall c q, channels (sh x) !! c = Some q -> handed_on c l = taken_from c l ++ q) /\
  (forall i n peer stun t id, Told (inl i) (ServerMessage.UdpPunch n peer stun t id) ∈ l ->
     exists j c o, Handed j c o ∈ l /\ offer_nonce o = n /\ offer_candidates o = peer /\ offer_stun o = stun) /\
  (forall j n peer stun t id, Told (inr j) (ServerMessage.UdpPunch n peer stun t id) ∈ l ->
     exists c o, Handed j c o ∈ l /\ offer_nonce o = n).
Proof.
  destruct (paired_reached _ _ _ Hreach) as [P1 P2 _ P4 _ _ P7].
  split; [done|]. split; [done|]. split.
  - intros i n peer stun t id Hin. destruct (P4 i _ Hin I) as (c & o & Ht & E).
    apply taken_from_elem in Ht. destruct (P2 c) as [rest Hrest].
    destruct (handed_on_elem c l o) as [j Hj]; [rewrite Hrest; apply elem_of_app; by left|].
    injection E as -> -> -> ->. eauto 7.
  - intros j n peer stun t id Hin. destruct (P7 j _ Hin I) as (reg & c & o & Ho & E & Hn).
    injection E as -> -> -> ->. eauto.
Qed.
End Pairs.

(** ** Pools *)

Definition pools_within (mx : N) (x : system) : Prop :=
  (forall id pl, registry (sh x) !! id = Some pl -> (pool_len pl <= N.max mx 1)%N) /\
  (forall i p, provs x !! i = Some (Registered p) -> (p_effective p <= N.max mx 1)%N).

Lemma pool_push_len {O} (pl : @CarrierPool O) c max :
  pool_len (pool_push pl c max).2 = (if (max <=? pool_len pl)%N then pool_len pl else pool_len pl + 1)%N.
Proof.
  unfold pool_push, pool_len. case_match; [done|]. simpl.
  unfold nlen. rewrite length_app. simpl. lia.
Qed.

Lemma pick_len {O} (pl : @CarrierPool O) : (pool_len (pick pl).2 <= pool_len pl)%N.
Proof.
  unfold pick, pool_len, nlen. case_match; simpl;
    pose proof (length_filter (fun c => alive c = true) (pool_carriers pl)); lia.
Qed.

Lemma pools_listed mx s s' ps cs :
  (forall id pl, registry s' !! id = Some pl ->
     exists pl', registry s !! id = Some pl' /\ (pool_len pl <= pool_len pl')%N) ->
  pools_within mx {| sh := s; provs := ps; cons := cs |} ->
  forall id pl, registry s' !! id = Some pl -> (pool_len pl <= N.max mx 1)%N.
Proof.
  intros Hs [W1 _] id pl Hpl. destruct (Hs _ _ Hpl) as (pl' & Hpl' & ?).
  specialize (W1 _ _ Hpl'). simpl in W1. lia.
Qed.

Lemma pools_registries mx tuning s ps cs m s' ps' cs' :
  step mx tuning {| sh := s; provs := ps; cons := cs |} m {| sh := s'; provs := ps'; cons := cs' |} ->
  pools_within mx {| sh := s; provs := ps; cons := cs |} ->
  forall id pl, registry s' !! id = Some pl -> (pool_len pl <= N.max mx 1)%N.
Proof.
  intros Hs W. pose proof W as [W1 W2]. simpl in *.
  assert (Hone : forall o : conn, (pool_len (CarrierPool_new o) <= N.max mx 1)%N)
    by (intros; unfold pool_len, nlen; simpl; lia).
  inversion Hs; subst; try exact W1.
  - match goal with H : serve_provider _ _ _ _ _ _ = _ |- _ => unfold serve_provider in H end.
    repeat case_match; simplify_eq; simpl;
      intros id' pl [[_ <-]|[_ ?]]%lookup_insert_Some; solve [apply Hone | by eapply W1].
  - unfold provider_message, register_provider_udp_offer in *. repeat case_match; simplify_eq; exact W1.
  - unfold provider_offer in *. simplify_option_eq. repeat case_match; simplify_eq. exact W1.
  - match goal with H : provider_joined _ _ = _, Hi : ps' !! _ = _ |- _ =>
      rename H into E; pose proof (W2 _ _ Hi) as Heff end.
    unfold provider_joined in E. destruct (p_carriers p) as [[c t]|]; simplify_option_eq.
    repeat case_match; simplify_option_eq; try exact W1.
    intros id' pl [[_ <-]|[_ ?]]%lookup_insert_Some; [|by eapply W1].
    match goal with E : registry s !! _ = Some ?q |- _ => pose proof (W1 _ _ E) end.
    rewrite pool_push_len. case_match eqn:Hfull; [done|]. apply N.leb_gt in Hfull. lia.
  - apply (pools_listed _ _ _ _ _) with (2 := W). intros id pl.
    unfold drop_receivers, deregister_id; simpl. intros [_ Hr]%lookup_delete_Some.
    exists pl. split; [|lia]. by repeat case_match.
  - unfold join_carrier. repeat case_match; exact W1.
  - apply (pools_listed _ _ _ _ _) with (2 := W). intros id pl. simpl. rewrite lookup_fmap.
    intros (pl' & -> & Hpl')%fmap_Some. exists pl'. split; [done|].
    subst pl. unfold pool_len, nlen. simpl. rewrite length_fmap. lia.
  - unfold broker_hand in *. repeat case_match; simplify_eq; exact W1.
  - unfold broker_hand in *. repeat case_match; simplify_eq; exact W1.
  - unfold relay_pick. destruct (registry s !! id) as [q|] eqn:E; [|exact W1].
    pose proof (pick_len q) as Hl. destruct (pick q) as [o q'] eqn:Eq. simpl in *.
    intros id' pl [[<- <-]|[_ ?]]%lookup_insert_Some; [|by eapply W1].
    specialize (W1 _ _ E). lia.
Qed.

Lemma pools_within_step mx tuning x m y : step mx tuning x m y -> pools_within mx x -> pools_within mx y.
Proof.
  intros Hs W. destruct x as [s ps cs], y as [s' ps' cs'].
  split; [by eapply pools_registries|].
  destruct W as [_ W2]. intros i p. inversion Hs; subst; simpl in *; try by apply W2.
  - intros [[_ [= <-]]|[_ ?]]%lookup_insert_Some; [|by eapply W2].
    unfold serve_provider, clamp in *. repeat case_match; simplify_eq; simpl; lia.
  - intros [[_ ?]|[_ ?]]%lookup_insert_Some; [done | by eapply W2].
  - intros [[_ ?]|[_ ?]]%lookup_insert_Some; [done | by eapply W2].
  - intros [[_ [= <-]]|[_ ?]]%lookup_insert_Some; [|by eapply W2].
    unfold provider_message, register_provider_udp_offer in *.
    repeat case_match; simplify_eq; simpl; by eapply W2.
  - intros [[_ ?]|[_ ?]]%lookup_insert_Some; [done | by eapply W2].
  - intros [_ ?]%lookup_delete_Some. by eapply W2.
Qed.

(** No pool of a provider ever holds more carriers than the server allows, however
    many connections present the token. *)
Theorem pools_stay_within_the_limit mx tuning l x id pl :
  reached mx tuning l x -> registry (sh x) !! id = Some pl -> (pool_len pl <= N.max mx 1)%N.
Proof.
  intros Hreach. revert id pl. enough (pools_within mx x) as [W _] by exact W.
  induction Hreach; [|by eapply pools_within_step].
  split; intros *; simpl; by rewrite lookup_empty.
Qed.

(** ** A run *)

Definition demo_registries (nonce : bytes) (candidates : list SocketAddr) (q : list UdpOffer) : registries :=
  {| registry := {["db" := CarrierPool_new 5]};
     udp_registry := {["db" := {| reg_candidates := candidates; reg_stun := None; reg_nonce := nonce;
                                  to_provider := 0 |}]};
     pending_carriers := ∅; channels := {[0 := q]}; joins := ∅; next_chan := 1 |}.
Definition fresh_provider : provider :=
  {| p_id := "db"; p_offers := None; p_effective := 1; p_carriers := None |}.
Definition offering_provider : provider :=
  {| p_id := "db"; p_offers := Some 0; p_effective := 1; p_carriers := None |}.
Definition demo_offered (nonce : bytes) (candidates : list SocketAddr) : system :=
  {| sh := demo_registries nonce candidates []; provs := {[0 := Registered offering_provider]}; cons := ∅ |}.

Lemma step_to mx tuning x m y m' x' y' :
  step mx tuning x' m' y' -> x' = x -> m' = m -> y' = y -> step mx tuning x m y.
Proof. by intros ? -> -> ->. Qed.

(** A step whose ends are computed. *)
Ltac computed rule := eapply step_to; [eapply rule|..]; by vm_compute.

(** A provider registers and offers its candidates. *)
Lemma demo_offered_reached tuning nonce candidates :
  reached 4 tuning [Told (inl 0) ServerMessage.Ok] (demo_offered nonce candidates).
Proof.
  set (s1 := {| registry := {["db" := CarrierPool_new 5]}; udp_registry := ∅; pending_carriers := ∅;
                channels := ∅; joins := ∅; next_chan := 0 |}).
  change [Told (inl 0) ServerMessage.Ok] with (([] ++ (Told (inl 0) <$> [ServerMessage.Ok])) ++ []).
  eapply reached_step; [eapply reached_step; [apply reached_start|]|].
  - computed (step_registered 4 tuning (sh empty_system) s1 ∅ ∅ 0 5 "db" "t" 1 [ServerMessage.Ok] fresh_provider).
  - computed (step_message 4 tuning s1 (demo_registries nonce candidates []) {[0 := Registered fresh_provider]} ∅ 0
             fresh_provider offering_provider nonce (ClientMessage.UdpCandidates candidates)).
Qed.

(** A consumer is brokered to it, and both are told. *)
Lemma demo_introduced tuning nonce candidates offer :
  let o := {| offer_nonce := nonce; offer_candidates := offer; offer_stun := None |} in
  let reg := {| reg_candidates := candidates; reg_stun := None; reg_nonce := nonce; to_provider := 0 |} in
  reached 4 tuning
    [Told (inl 0) ServerMessage.Ok; Told (inr 0) ServerMessage.Ok; Handed 0 0 o;
     Taken 0 0 o; Told (inl 0) (offer_punch o tuning); Told (inr 0) (broker_reply reg tuning true)]
    {| sh := demo_registries nonce candidates []; provs := {[0 := Registered offering_provider]};
       cons := {[0 := Waiting "db"]} |}.
Proof.
  intros o reg. set (s := demo_registries nonce candidates).
  set (ps := {[0 := Registered offering_provider]} : gmap nat provider_task).
  change (reached 4 tuning ((((([Told (inl 0) ServerMessage.Ok] ++ [Told (inr 0) ServerMessage.Ok]) ++ []) ++
    [Handed 0 0 o]) ++ [Taken 0 0 o; Told (inl 0) (offer_punch o tuning)]) ++
    [Told (inr 0) (broker_reply reg tuning true)])
    {| sh := s []; provs := ps; cons := <[0 := Waiting "db"]> {[0 := Telling "db" (broker_reply reg tuning true)]} |}).
  eapply reached_step; [eapply reached_step; [eapply reached_step; [eapply reached_step; [eapply reached_step;
    [apply (demo_offered_reached tuning nonce candidates)|]|]|]|]|].
  - computed (step_consumer 4 tuning (s []) ps ∅ 0 "db").
  - computed (step_brokering 4 tuning (s []) ps {[0 := Waiting "db"]} 0 "db" reg o (udp_offer_from_legacy offer)).
  - computed (step_handed 4 tuning (s []) (s [o]) ps {[0 := Brokering "db" reg o]} 0 "db" reg o).
  - computed (step_offer 4 tuning (s [o]) (s []) ps {[0 := Telling "db" (broker_reply reg tuning true)]} 0
             offering_provider 0 o).
  - computed (step_told 4 tuning (s []) ps {[0 := Telling "db" (broker_reply reg tuning true)]} 0 "db"
      (broker_reply reg tuning true)).
Qed.

(** ** A provider restarted *)

Definition restart_registries (udp : gmap string UdpReg) : registries :=
  {| registry := {["db" := CarrierPool_new 7]}; udp_registry := udp; pending_carriers := ∅;
     channels := ∅; joins := ∅; next_chan := 1 |}.
Definition restart_reg (candidates : list SocketAddr) (nonce : bytes) : UdpReg :=
  {| reg_candidates := candidates; reg_stun := None; reg_nonce := nonce; to_provider := 0 |}.

(** [Deregister] removes an id from the two registries one after the other.  A
    provider that registers the id again in between, and offers its candidates, is
    given the channel of the provider that left, and then loses even that: it stays
    registered, it offered, and every consumer is told there is no direct path. *)
Lemma restart_loses_the_direct_path tuning (old new : list SocketAddr) (nonce nonce' : bytes) :
  exists l x y z,
    reached 4 tuning l x /\ provs x !! 1 = Some (Registered fresh_provider) /\
    provider_message (sh x) fresh_provider nonce' (Some (ClientMessage.UdpCandidates new)) =
      (sh y, Some fresh_provider) /\
    step 4 tuning x [] y /\ step 4 tuning y [] z /\
    provs z = {[1 := Registered fresh_provider]} /\ is_Some (registry (sh z) !! "db") /\
    forall offer, broker_lookup (sh z) "db" offer = Unavailable.
Proof.
  set (ps := {[0 := Dropping "db"; 1 := Registered fresh_provider]} : gmap nat provider_task).
  set (x := {| sh := restart_registries {["db" := restart_reg old nonce]}; provs := ps; cons := ∅ |}).
  set (y := {| sh := restart_registries {["db" := restart_reg new nonce]}; provs := ps; cons := ∅ |}).
  set (z := {| sh := restart_registries ∅; provs := {[1 := Registered fresh_provider]}; cons := ∅ |}).
  set (gone := deregister_id (drop_receivers (demo_registries nonce old []) offering_provider) "db").
  eexists _, x, y, z.
  split; [|split; [by vm_compute|split; [by vm_compute|split; [|split; [|split; [by vm_compute|]]]]]].
  - eapply reached_step; [eapply reached_step; [apply (demo_offered_reached tuning nonce old)|]|].
    + computed (step_gone 4 tuning (demo_registries nonce old []) {[0 := Registered offering_provider]} ∅ 0
                  offering_provider).
    + computed (step_registered 4 tuning gone (restart_registries {["db" := restart_reg old nonce]})
               {[0 := Dropping "db"]} ∅ 1 7 "db" "t" 1 [ServerMessage.Ok] fresh_provider).
  - computed (step_message 4 tuning (sh x) (sh y) ps ∅ 1 fresh_provider fresh_provider nonce'
             (ClientMessage.UdpCandidates new)).
  - computed (step_dropped 4 tuning (sh y) ps ∅ 0 "db").
  - split; [by eexists | by vm_compute].
Qed.

(** ** Witnesses *)


Lemma punches_come_from_one_offer_witness :
  let o := {| offer_nonce := [Byte.x07]; offer_candidates := []; offer_stun := None |} in
  let reg := {| reg_candidates := []; reg_stun := None; reg_nonce := [Byte.x07]; to_provider := 0 |} in
  let t := UdpDirectTuning_default in
  let l := [Told (inl 0) ServerMessage.Ok; Told (inr 0) ServerMessage.Ok; Handed 0 0 o;
     Taken 0 0 o; Told (inl 0) (offer_punch o t); Told (inr 0) (broker_reply reg t true)] in
  exists c o, Handed 0 c o ∈ l /\ offer_nonce o = [Byte.x07].
Proof.
  intros o reg t l.
  destruct (punches_come_from_one_offer t 4 l _ (demo_introduced t [Byte.x07] [] [])) as (_ & _ & _ & H).
  apply (H 0 [Byte.x07] [] None t 0%N). do 5 right. left.
Defined.
