(* ===== verification/Front.v ===== *)
(** * The front door of the reference server ([vendored-from-bore/server.rs], [auth.rs])

    What a connection to the control port goes through: the first byte decides
    between HTTP and the protocol of the tunnels, the request is read and acted on
    once the client has proved its secret, and a public tunnel binds its port and
    forwards connections.  The handlers of roles that other files or crates hold
    are operations ([Serve]). *)

From stdpp Require Import list gmap.
From S2P Require Import Prelude Streams Json Proto Auth Prefixed Pool Shared Fs Frames Addresses Stun Control Rendezvous.
Import ClientMessage(ClientMessage) ServerMessage(ServerMessage).

(** ** Operations *)

Inductive bind_error : Type := AddrInUse | PermissionDenied_ | BindOther.

(** What wakes the [select!] of a tunnel. *)
Inductive tunnel_event : Type :=
| HeartbeatTick
| Joined (joined : option (Carrier conn))
| Accepted (r : result io_error (conn * IpAddr)).

Inductive front_op : Type :=
| AcceptControl                              (* the first substream of the peer *)
| NewUuid
| CountAuthFailure
| Serve (request : ClientMessage)            (* the handler of a role *)
| TryBind (port : N)
| RandomPort (lo hi : N)                     (* [fastrand::u16(lo..=hi)] *)
| LocalPort                                  (* of the listener *)
| NewToken
| PendingInsert (token : string)             (* [pending_carriers] *)
| PendingRemove (token : string)
| NewNonce
| PublicInsert (key : string)                (* [public_udp_registry] *)
| PublicGet (key : string)
| PublicRemove (key : string)
| NonceInsert (key : string) (nonce : bytes) (* [pending_public_udp] *)
| NonceRemove (key : string)
| Select (carriers : bool)
| LoadAlive (carrier : conn)                 (* the flag its connection clears *)
| SleepMs (ms : N)
| TryPermit                                  (* [conn_permits] *)
| ReleasePermit
| CountRejection
| SpawnConn (c : conn) (ip : IpAddr) (carrier : conn) (direct : bool).

Definition front_sig : sig :=
  Sig front_op (fun o =>
    match o with
    | AcceptControl | PublicGet _ | TryPermit | LoadAlive _ => bool
    | NewUuid => Uuid
    | Serve _ => ares unit
    | TryBind _ => result bind_error unit
    | RandomPort _ _ => N
    | LocalPort => result io_error N
    | NewToken => string
    | NewNonce => bytes
    | Select _ => tunnel_event
    | _ => unit
    end).

Definition front : sig := framed_sig ⊕ (timer_sig ⊕ front_sig).

Definition at_front (o : front_op) : prog front (resp (s := front_sig) o) :=
  Op (S := front) (inr (inr o)) Ret.

(** ** Configuration *)

Record Server : Type := {
  port_lo : N;                     (* [port_range] *)
  port_hi : N;
  max_carriers : N;
  auth : option Authenticator;
  tls : bool;
  server_udp : bool;
  vhost_quic_port : N;
  udp_tuning : UdpDirectTuning;
  vhost_config : bool;             (* whether there is one *)
  vpn_enabled : bool;
  admin_token : bool;
}.

Section Front.
Context `{Json ClientMessage} `{Json ServerMessage} `{Crypto}.
Context `{StrDebug} `{HexText} `{Ipv6Text} (uuid_text : Uuid -> string).

Definition send (m : ServerMessage) : prog front (ares unit) := delimited_send (server_summary uuid_text) m.
Definition recv_request : prog front (ares (option ClientMessage)) := recv_timeout client_summary.

(** ** Authentication *)

Definition server_handshake (self : Authenticator) : prog front (ares unit) :=
  let! challenge := at_front NewUuid in
  let? _ := send (ServerMessage.Challenge challenge) in
  let? msg := recv_request in
  Ret (match msg with
       | Some (ClientMessage.Authenticate tag) =>
           if validate self challenge tag then Ok tt else Err (AnyMsg "invalid secret")
       | _ => Err (AnyMsg "server requires secret, but no secret was provided")
       end).

(** ** Public tunnels *)

Definition try_bind (port : N) : prog front (result string unit) :=
  let! r := at_front (TryBind port) in
  Ret (map_err (fun e =>
         match e with
         | AddrInUse => "port already in use"
         | PermissionDenied_ => "permission denied"
         | BindOther => "failed to bind to port"
         end) r).

(** [for _ in 0..150]. *)
Fixpoint random_ports (left : nat) (lo hi : N) : prog front (result string unit) :=
  match left with
  | O => Ret (Err "failed to find an available port")
  | S left' =>
      let! port := at_front (RandomPort lo hi) in
      let! r := try_bind port in
      match r with
      | Ok _ => Ret (Ok tt)
      | Err _ => random_ports left' lo hi
      | Panicked => Ret Panicked
      end
  end.

Definition create_listener (self : Server) (port : N) : prog front (result string unit) :=
  if (0 <? port)%N then
    if (port_lo self <=? port)%N && (port <=? port_hi self)%N then try_bind port
    else Ret (Err "client port number not in allowed range")
  else random_ports 150 (port_lo self) (port_hi self).

Definition outcome : Type := option (ares unit).   (* [None]: still serving *)

(** Guards act when their task returns. *)
Definition dropping (cleanup : prog front unit) (body : prog front outcome) : prog front outcome :=
  let! r := body in
  match r with
  | None => Ret None
  | Some r => let! _ := cleanup in Ret (Some r)
  end.

Fixpoint load_alive (carriers : list (Carrier conn)) : prog front (list (Carrier conn)) :=
  match carriers with
  | [] => Ret []
  | c :: carriers' =>
      let! a := at_front (LoadAlive (Pool.opener c)) in
      let! rest := load_alive carriers' in
      Ret ({| Pool.opener := Pool.opener c; alive := a |} :: rest)
  end.

(** [pool.pick()], which reads the flags as they are then. *)
Definition pick_now (pool : CarrierPool conn) : prog front (option conn * CarrierPool conn) :=
  let! carriers := load_alive (pool_carriers pool) in
  Ret (pick {| pool_carriers := carriers; pool_next := pool_next pool |}).

(** A connection to the public port: it needs a permit and a live carrier. *)
Definition tunnel_accept (opts : TunnelOptions) (key : string) (pool : CarrierPool conn)
  (c : conn) (addr : IpAddr) : prog front (CarrierPool conn) :=
  let! permit := at_front TryPermit in
  if negb permit then let! _ := at_front CountRejection in Ret pool
  else
    let! picked := pick_now pool in
    let '(opener, pool) := picked in
    match opener with
    | None => let! _ := at_front ReleasePermit in Ret pool
    | Some opener =>
        let! entry := (if udp opts then at_front (PublicGet key) else Ret false) in
        let! _ := at_front (SpawnConn c addr opener entry) in
        Ret pool
    end.

Fixpoint tunnel_loop (turns : nat) (opts : TunnelOptions) (key : string) (effective : N)
  (carrier_rx : bool) (pool : CarrierPool conn) : prog front outcome :=
  match turns with
  | O => Ret None
  | S turns' =>
      let! e := at_front (Select carrier_rx) in
      match e with
      | HeartbeatTick =>
          let! r := send ServerMessage.Heartbeat in
          match r with
          | Ok _ => tunnel_loop turns' opts key effective carrier_rx pool
          | Err _ => Ret (Some (Ok tt))
          | Panicked => Ret (Some Panicked)
          end
      | Joined joined =>
          let pool := match joined with Some c => (pool_push pool c effective).2 | None => pool end in
          tunnel_loop turns' opts key effective carrier_rx pool
      | Accepted (Ok (c, addr)) =>
          let! pool := tunnel_accept opts key pool c addr in
          tunnel_loop turns' opts key effective carrier_rx pool
      | Accepted (Err _) =>
          let! _ := at_front (SleepMs 100) in
          tunnel_loop turns' opts key effective carrier_rx pool
      | Accepted Panicked => Ret (Some Panicked)
      end
  end.

(** The offer of a direct path; a send that fails is only logged. *)
Definition offer_public_udp (self : Server) (opts : TunnelOptions) (key : string)
  (body : prog front outcome) : prog front outcome :=
  if udp opts && server_udp self then
    let! _ := at_front (PublicInsert key) in
    let! nonce := at_front NewNonce in
    let! _ := at_front (NonceInsert key nonce) in
    let! r := send (ServerMessage.PublicUdp (vhost_quic_port self) nonce (udp_tuning self)) in
    match r with
    | Panicked => Ret (Some Panicked)
    | _ =>
        dropping (let! _ := at_front (PublicRemove key) in at_front (NonceRemove key)) body
    end
  else body.

(** [?] where the result may also be that the task is still serving. *)
Definition otry {A} (p : prog front (ares A)) (f : A -> prog front outcome) : prog front outcome :=
  let! r := p in
  match r with
  | Ok a => f a
  | Err e => Ret (Some (Err e))
  | Panicked => Ret (Some Panicked)
  end.

(** The offer of a carrier pool: the token is inserted before it is sent, and
    guarded after. *)
Definition offer_carriers (opts : TunnelOptions) (effective : N)
  (body : bool -> prog front outcome) : prog front outcome :=
  if (1 <? carriers opts)%N then
    let extra := (effective - 1)%N in
    let! token := at_front NewToken in
    let! _ := at_front (PendingInsert token) in
    otry (send (ServerMessage.CarrierToken token extra)) (fun _ =>
    dropping (at_front (PendingRemove token)) (body true))
  else body false.

Definition public_key (port : N) : string := "port:" +:+ pretty port.

Definition serve_tunnel (turns : nat) (self : Server) (opener : conn) (port : N) (opts : TunnelOptions) :
  prog front outcome :=
  if https opts && negb (tls self) then
    otry (send (ServerMessage.Error "server has no TLS certificate configured")) (fun _ => Ret (Some (Ok tt)))
  else
    let! listener := create_listener self port in
    match listener with
    | Err err => otry (send (ServerMessage.Error err)) (fun _ => Ret (Some (Ok tt)))
    | Panicked => Ret (Some Panicked)
    | Ok _ =>
        otry (let! r := at_front LocalPort in Ret (map_err AnyIo r)) (fun port =>
        otry (send (ServerMessage.Hello port)) (fun _ =>
        let effective := clamp (carriers opts) 1 (N.max (max_carriers self) 1) in
        let pool := CarrierPool_new opener in
        offer_carriers opts effective (fun carrier_rx =>
        offer_public_udp self opts (public_key port)
          (tunnel_loop turns opts (public_key port) effective carrier_rx pool))))
    end.

(** ** Dispatch *)

Definition served (p : prog front (ares unit)) : prog front outcome := let! r := p in Ret (Some r).

Definition reject (m : ServerMessage) : prog front outcome :=
  let! r := send m in
  Ret (Some (match r with Panicked => Panicked | _ => Ok tt end)).

Definition dispatch (turns : nat) (self : Server) (opener : conn) (request : option ClientMessage) :
  prog front outcome :=
  match request with
  | Some (ClientMessage.Hello port opts) => serve_tunnel turns self opener port opts
  | Some (ClientMessage.JoinCarrier _ | ClientMessage.HelloSecret _ _ _ _
         | ClientMessage.ConnectSecret _ _ | ClientMessage.TestUdpJoin _ _ _ _) as r =>
      match r with Some m => served (at_front (Serve m)) | None => Ret (Some (Ok tt)) end
  | Some (ClientMessage.HelloVhost _ _ _ _ _ _ _ _ as m) =>
      if vhost_config self then served (at_front (Serve m))
      else reject (ServerMessage.Error "vhost not configured")
  | Some (ClientMessage.HelloVpn _ _ _ _ _ _ _ as m) | Some (ClientMessage.ConnectVpn _ _ _ _ _ _ as m) =>
      if vpn_enabled self then served (at_front (Serve m))
      else reject (ServerMessage.VpnError "vpn not supported/enabled on this server")
  | Some _ | None => Ret (Some (Ok tt))
  end.

(** [opener] is the connection's own. *)
Definition handle_connection (turns : nat) (self : Server) (opener : conn) : prog front outcome :=
  let! accepted := at_front AcceptControl in
  if negb accepted then Ret (Some (Ok tt))
  else
    otry recv_request (fun request =>
    match auth self with
    | Some a =>
        let! r := server_handshake a in
        match r with
        | Ok _ => dispatch turns self opener request
        | Err err =>
            let! _ := at_front CountAuthFailure in
            otry (send (ServerMessage.Error (any_display err))) (fun _ => Ret (Some (Ok tt)))
        | Panicked => Ret (Some Panicked)
        end
    | None => dispatch turns self opener request
    end).
End Front.

(** ** The task of a connection *)

(** A connection is accepted at the edge (TLS, redirects), announced on a stream to
    the client, direct or relayed, and spliced to it. *)
Inductive conn_op : Type :=
| EdgeAccept
| DirectPick                                 (* [entry.direct.pick()] *)
| OpenDirect
| OpenRelay (carrier : conn)
| Announce (direct : bool) (forward_ip : option string)   (* [write_stream_ready] *)
| CountDirectOpen
| CountFallback
| Splice (direct : bool)
| DropPermit.

Definition conn_sig : sig :=
  Sig conn_op (fun o =>
    match o with
    | EdgeAccept => result string (option unit)
    | DirectPick => bool
    | OpenDirect | OpenRelay _ => result string unit
    | Announce _ _ => result io_error unit
    | _ => unit
    end).

Definition at_conn (o : conn_op) : prog conn_sig (resp (s := conn_sig) o) := trigger (S := conn_sig) o.

(** Whether the direct path took the connection. *)
Definition try_direct (forward_ip : option string) : prog conn_sig bool :=
  let! picked := at_conn DirectPick in
  if negb picked then Ret false
  else
    let! opened := at_conn OpenDirect in
    match opened with
    | Ok _ =>
        let! announced := at_conn (Announce true forward_ip) in
        match announced with
        | Ok _ =>
            let! _ := at_conn CountDirectOpen in
            let! _ := at_conn (Splice true) in
            Ret true
        | _ => Ret false
        end
    | _ => Ret false
    end.

Definition relay_conn (forward_ip : option string) (carrier : conn) : prog conn_sig unit :=
  let! opened := at_conn (OpenRelay carrier) in
  match opened with
  | Ok _ =>
      let! announced := at_conn (Announce false forward_ip) in
      match announced with
      | Ok _ => at_conn (Splice false)
      | _ => Ret tt
      end
  | _ => Ret tt
  end.

(** The spawned task; the permit is dropped when it ends. *)
Definition tunnel_conn (opts : TunnelOptions) (ip_text : string) (carrier : conn) (entry : bool) :
  prog conn_sig unit :=
  let forward_ip := if webserver_log opts then Some ip_text else None in
  let! edge := at_conn EdgeAccept in
  let! _ :=
    match edge with
    | Ok (Some _) =>
        let! taken := (if entry then try_direct forward_ip else Ret false) in
        if taken : bool then Ret tt
        else
          let! _ := (if entry then at_conn CountFallback else Ret tt) in
          relay_conn forward_ip carrier
    | _ => Ret tt
    end in
  at_conn DropPermit.

(** ** The first byte *)

(** Where a connection goes. *)
Inductive route (S : Type) : Type :=
| Dropped
| ToHttp (stream : Prefixed S)
| ToProtocol (stream : Prefixed S)
| ToProtocolBare (socket : S).
Arguments Dropped {S}.
Arguments ToHttp {S} stream.
Arguments ToProtocol {S} stream.
Arguments ToProtocolBare {S} socket.

(** [read] is the answer of the timed read of one byte, and [socket] the stream
    after it; [is_http_first_byte] is [admin_http]'s. *)
Definition route_connection {S} (is_http_first_byte : byte -> bool) (self : Server)
  (read : timed (result io_error bytes)) (socket : S) : route S :=
  if negb (admin_token self) && negb (vhost_config self) then ToProtocolBare socket
  else
    match read with
    | InTime (Ok ((b :: _) as first)) =>
        let stream := Prefixed_new first socket in
        if is_http_first_byte b then ToHttp stream else ToProtocol stream
    | InTime _ => Dropped
    | Elapsed => ToProtocolBare socket
    end.
