(* ===== verification/FrontTheorems.v ===== *)
(** * The front door is guarded ([vendored-from-bore/server.rs])

    Nothing is done for a client before it proved its secret, a tunnel cleans up
    after itself unless the offer of its token fails, it binds ports of the range
    only, and it never reads the renewals its client sends. *)

From stdpp Require Import list gmap.
From Stdlib Require Import Lia.
From S2P Require Import Prelude Streams Json Proto Auth Prefixed Pool Shared Fs Frames Addresses Stun Control Rendezvous Front TransportDemo.
Import ClientMessage(ClientMessage) ServerMessage(ServerMessage).

(** ** Operations of a connection that nothing was proved on *)

(** Reading and writing control messages, the clock, and the handshake. *)
Definition harmless (o : op front) : Prop :=
  match o with
  | inl _ | inr (inl _) => True
  | inr (inr (AcceptControl | NewUuid | CountAuthFailure)) => True
  | _ => False
  end.

Definition talk (o : op front) : Prop := match o with inl _ | inr (inl _) => True | _ => False end.

Lemma talk_harmless o : talk o -> harmless o.
Proof. by destruct o as [|[]]. Qed.

Lemma every_timeout {A} (P : op front -> Prop) secs (p : prog front A) :
  (forall o : timer_op, P (inr (inl o))) -> every P p -> every P (timeout secs p).
Proof.
  intros Ht Hp. induction p as [a|o k IH]; simpl; [done|].
  destruct Hp as [Ho Hk]. split; [apply Ht|]. intros [|]; simpl; auto.
Qed.

Section Front.
Context `{Json ClientMessage} `{Json ServerMessage} `{Crypto}.
Context `{StrDebug} `{HexText} `{Ipv6Text} (uuid_text : Uuid -> string).

Lemma send_talks m : every talk (send uuid_text m).
Proof. unfold send, delimited_send. simpl. split; [done|]. intros _. by destruct (to_vec m). Qed.

Lemma recv_talks : every talk recv_request.
Proof.
  unfold recv_request, recv_timeout. apply every_bind; [|done].
  apply every_timeout; [done|]. unfold delimited_recv. simpl.
  split; [done|]. intros _. split; [done|]. intros [[b|e|]|]; simpl; try done.
  unfold ptry. simpl. by destruct (from_slice b).
Qed.

Lemma send_harmless m : every harmless (send uuid_text m).
Proof. eapply every_mono; [|apply send_talks]. exact talk_harmless. Qed.
Lemma recv_harmless : every harmless recv_request.
Proof. eapply every_mono; [|apply recv_talks]. exact talk_harmless. Qed.

Lemma handshake_harmless a : every harmless (server_handshake uuid_text a).
Proof.
  unfold server_handshake. cbn [pbind at_front every]. split; [done|]. intros c.
  apply every_try; [apply send_harmless|]. intros _.
  apply every_try; [apply recv_harmless | done].
Qed.

Context {St : Type} (h : handler front St).

(** The handshake succeeds only on a valid tag for the challenge it drew. *)
Lemma handshake_ok a s s' :
  run h (server_handshake uuid_text a) s = (Ok tt, s') ->
  exists c tag s0 s1 s2,
    (h (inr (inr NewUuid)) s0).1 = c /\
    run h recv_request s1 = (Ok (Some (ClientMessage.Authenticate tag)), s2) /\
    hex_decode tag = Some (hmac_sha256 (hmac_key a) (uuid_bytes c)).
Proof.
  unfold server_handshake. cbn [pbind at_front run]. set (c := (h (inr (inr NewUuid)) s).1).
  intros E. apply run_try_ok in E as (u & s1 & _ & E). apply run_try_ok in E as (m & s2 & Er & E).
  cbn [run] in E. destruct m as [[]|]; try done.
  destruct (validate a c tag) eqn:Hv; [|done].
  exists c, tag, s, s1, s2. split; [done|]. split; [done|].
  unfold validate in Hv. destruct (hex_decode tag) as [b|]; [|done].
  by apply bool_decide_eq_true in Hv as ->.
Qed.

Lemma harmful_elem (o : op front) (l : list (op front)) :
  o ∈ l -> ~ harmless o -> Forall harmless l -> False.
Proof. intros Ho Hn Hl. rewrite Forall_forall in Hl. by apply Hn, Hl. Qed.

(** C27: On a server with a secret, whatever a connection makes the server do (a
    role served, a port bound, a token or a direct path registered, a connection
    forwarded) it does after the client answered a challenge drawn for that
    connection with a tag that decodes to its HMAC under the hashed secret. *)
Theorem front_door_needs_proof turns (self : Server) opener a s r s' log o
  (Hauth : auth self = Some a)
  (Hrun : run (traced h) (handle_connection uuid_text turns self opener) (s, []) = (r, (s', log)))
  (Ho : o ∈ log) (Hserving : ~ harmless o) :
  exists c tag s0 s1 s2,
    (h (inr (inr NewUuid)) s0).1 = c /\
    run h recv_request s1 = (Ok (Some (ClientMessage.Authenticate tag)), s2) /\
    hex_decode tag = Some (hmac_sha256 (hmac_key a) (uuid_bytes c)).
Proof.
  unfold handle_connection in Hrun. cbn [pbind at_front run traced fst snd app] in Hrun.
  destruct (h (inr (inr AcceptControl)) s) as [acc s1]. cbn [fst snd] in Hrun.
  destruct acc; cbn [negb] in Hrun.
  2:{ injection Hrun as _ _ <-. exfalso. eapply harmful_elem; [done..|]. by repeat constructor. }
  unfold otry in Hrun. rewrite run_bind in Hrun.
  destruct (traced_every harmless h recv_request s1 [inr (inr AcceptControl)]) as (l1 & E1 & Hl1);
    [apply recv_harmless|].
  setoid_rewrite E1 in Hrun. cbn [fst snd] in Hrun.
  assert (Hf1 : Forall harmless ([inr (inr AcceptControl)] ++ l1)) by (apply Forall_app; by repeat constructor).
  destruct (run h recv_request s1) as [[request|e|] s2]; cbn [fst snd] in Hrun;
    [|by injection Hrun as _ _ <-; exfalso; eapply harmful_elem..].
  rewrite Hauth, run_bind in Hrun.
  destruct (traced_every harmless h (server_handshake uuid_text a) s2 ([inr (inr AcceptControl)] ++ l1))
    as (l2 & E2 & Hl2); [apply handshake_harmless|].
  setoid_rewrite E2 in Hrun. cbn [fst snd] in Hrun.
  assert (Hf2 : Forall harmless (([inr (inr AcceptControl)] ++ l1) ++ l2)) by (by apply Forall_app).
  destruct (run h (server_handshake uuid_text a) s2) as [[[]|e|] s3] eqn:Ea; cbn [fst snd] in Hrun;
    [by eapply handshake_ok| |by injection Hrun as _ _ <-; exfalso; eapply harmful_elem].
  exfalso. match type of Hrun with run _ ?q _ = _ => set (p := q) in Hrun end.
  assert (Hp : every harmless p).
  { unfold p. cbn [every]. split; [done|]. intros _.
    apply every_bind; [apply send_harmless|]. by intros []. }
  destruct (traced_every harmless h p s3 (([inr (inr AcceptControl)] ++ l1) ++ l2) Hp) as (l3 & E3 & Hl3).
  pose proof (eq_trans (eq_sym E3) Hrun) as Hlog. injection Hlog as _ _ <-.
  exact (harmful_elem o _ Ho Hserving (Forall_app_2 _ _ _ Hf2 Hl3)).
Qed.
End Front.

(** ** What a tunnel leaves behind *)

(** The shared registries a tunnel writes to. *)
Record books : Type := { pending : gset string; public : gset string; nonces : gset string }.

Definition book (o : front_op) (b : books) : books :=
  match o with
  | PendingInsert t => {| pending := {[t]} ∪ pending b; public := public b; nonces := nonces b |}
  | PendingRemove t => {| pending := pending b ∖ {[t]}; public := public b; nonces := nonces b |}
  | PublicInsert k => {| pending := pending b; public := {[k]} ∪ public b; nonces := nonces b |}
  | PublicRemove k => {| pending := pending b; public := public b ∖ {[k]}; nonces := nonces b |}
  | NonceInsert k _ => {| pending := pending b; public := public b; nonces := {[k]} ∪ nonces b |}
  | NonceRemove k => {| pending := pending b; public := public b; nonces := nonces b ∖ {[k]} |}
  | _ => b
  end.

(** Any environment, with its registries. *)
Definition booked {St} (h : handler front St) : handler front (St * books) :=
  fun o st => ((h o st.1).1, ((h o st.1).2, match o with inr (inr o) => book o st.2 | _ => st.2 end)).

Definition unbooked (o : op front) : Prop :=
  match o with inr (inr o) => forall b, book o b = b | _ => True end.

Lemma booked_unbooked {St} (h : handler front St) o s b :
  unbooked o -> booked h o (s, b) = ((h o s).1, ((h o s).2, b)).
Proof. unfold booked. destruct o as [o|[o|o]]; simpl; [done..|]. by intros ->. Qed.

Lemma booked_every {St A} (h : handler front St) (p : prog front A) s b :
  every unbooked p -> run (booked h) p (s, b) = ((run h p s).1, ((run h p s).2, b)).
Proof.
  revert s; induction p as [a|o k IH]; intros s; [done|].
  intros [Ho Hk]. cbn [run]. rewrite (booked_unbooked h o s b Ho). apply IH, Hk.
Qed.

Lemma talk_unbooked o : talk o -> unbooked o.
Proof. by destruct o as [|[]]. Qed.

Section Tunnel.
Context `{Json ClientMessage} `{Json ServerMessage} `{Crypto}.
Context `{StrDebug} `{HexText} `{Ipv6Text} (uuid_text : Uuid -> string).

Lemma send_unbooked m : every unbooked (send uuid_text m).
Proof. eapply every_mono; [|apply send_talks]. exact talk_unbooked. Qed.

(** What a tunnel does while it serves: it writes to no registry, and it reads no
    message. *)
Definition serving_op (o : op front) : Prop := unbooked o /\ o <> inl FramedNext.

Lemma send_serving m : every serving_op (send uuid_text m).
Proof.
  unfold send, delimited_send. simpl. split; [done|]. intros _.
  destruct (to_vec m); simpl; repeat split; done.
Qed.

Lemma load_alive_serving l : every serving_op (load_alive l).
Proof.
  induction l as [|c l IH]; simpl; [done|]. split; [done|]. intros a.
  by apply every_bind.
Qed.

Lemma accept_serving opts key pool c addr : every serving_op (tunnel_accept opts key pool c addr).
Proof.
  unfold tunnel_accept. cbn [pbind at_front every]. split; [done|].
  intros [|]; cbn [negb]; [|by repeat split].
  apply every_bind.
  - unfold pick_now. apply every_bind; [apply load_alive_serving | done].
  - intros [[o|] pool']; [|by repeat split].
    apply every_bind; [by destruct (udp opts)|]. intros [|]; by repeat split.
Qed.

Lemma loop_serving turns opts key effective rx pool :
  every serving_op (tunnel_loop uuid_text turns opts key effective rx pool).
Proof.
  revert pool; induction turns as [|turns IH]; intros pool; [done|].
  cbn [tunnel_loop pbind at_front every]. split; [done|].
  intros [|j|[[c addr]|e|]]; [|apply IH| |cbn [pbind at_front every]; split; [done|]; intros _; apply IH|done].
  - apply every_bind; [apply send_serving|]. intros [[]|e|]; [apply IH|done..].
  - apply every_bind; [apply accept_serving|]. intros pool'. apply IH.
Qed.

Lemma serving_unbooked {A} (p : prog front A) : every serving_op p -> every unbooked p.
Proof. apply every_mono. by intros o []. Qed.

Lemma listener_serving self port : every serving_op (create_listener self port).
Proof.
  assert (Hb : forall p, every serving_op (try_bind p)) by (intros p; by repeat split).
  unfold create_listener. repeat case_match; [apply Hb | done|].
  generalize 150. intros n. induction n as [|n IH]; [done|].
  cbn [random_ports pbind at_front every]. split; [done|]. intros q.
  apply every_bind; [apply Hb|]. by intros [].
Qed.

Context {St : Type} (h : handler front St).

(** A body that serves, between the two registrations of the direct path. *)
Lemma offer_public_settles self opts key body s b r s' b' :
  every unbooked body ->
  run (booked h) (offer_public_udp uuid_text self opts key body) (s, b) = (Some r, (s', b')) ->
  pending b' = pending b /\ (r <> Panicked -> public b' ⊆ public b /\ nonces b' ⊆ nonces b).
Proof.
  intros Hbody. unfold offer_public_udp. case_match.
  2: { rewrite booked_every by done. intros [= _ _ <-]. done. }
  cbn [pbind at_front run booked book fst snd]. rewrite run_bind.
  rewrite booked_every by apply send_unbooked. cbn [fst snd].
  match goal with |- context [run h (send uuid_text ?m) ?s0] =>
    destruct (run h (send uuid_text m) s0) as [[u|e|] s1] end; cbn [fst snd];
    [| |intros [= <- _ <-]; by split]; unfold dropping; rewrite run_bind, booked_every by done; cbn [fst snd];
    destruct (run h body s1) as [[q|] s2]; cbn [fst snd pbind at_front run booked book]; try done;
    intros [= <- _ <-]; simpl; (split; [done|]); intros _; set_solver.
Qed.

Lemma offer_carriers_settles opts effective body s b r s' b' :
  (forall rx s b r s' b', run (booked h) (body rx) (s, b) = (Some r, (s', b')) ->
     pending b' = pending b /\ (r <> Panicked -> public b' ⊆ public b /\ nonces b' ⊆ nonces b)) ->
  run (booked h) (offer_carriers uuid_text opts effective body) (s, b) = (Some r, (s', b')) ->
  r <> Panicked ->
  public b' ⊆ public b /\ nonces b' ⊆ nonces b /\ (pending b' ⊆ pending b \/ exists e, r = Err e).
Proof.
  intros Hbody. unfold offer_carriers. case_match.
  2: { intros Hr Hp. apply Hbody in Hr as [-> Hr]. destruct (Hr Hp). auto. }
  cbn [pbind at_front run booked book fst snd]. unfold otry. rewrite run_bind.
  rewrite booked_every by apply send_unbooked. cbn [fst snd].
  match goal with |- context [run h (send uuid_text ?m) ?s0] =>
    destruct (run h (send uuid_text m) s0) as [[u|e|] s1] end; cbn [fst snd];
    [|intros [= <- _ <-] _; eauto |by intros [= <-]].
  unfold dropping. rewrite run_bind. intros Hr Hp.
  match type of Hr with context [run (booked h) (body true) ?st] =>
    destruct (run (booked h) (body true) st) as [[q|] [s2 b2]] eqn:Eb end;
    setoid_rewrite Eb in Hr; cbn [fst snd run] in Hr; [|done].
  apply Hbody in Eb as [Epend Hrest].
  cbn [pbind at_front run booked book fst snd] in Hr. injection Hr as <- _ <-.
  destruct (Hrest Hp) as [Hpub Hnon]. cbn [pending public nonces] in *.
  rewrite Epend. set_solver.
Qed.

(** A public tunnel cleans up after itself: whatever happens, when it returns no
    direct path and no nonce of it is registered any more, and its token is gone
    unless it returned an error. *)
Theorem tunnel_cleans_up turns self opener port opts s b r s' b' :
  run (booked h) (serve_tunnel uuid_text turns self opener port opts) (s, b) = (Some r, (s', b')) ->
  r <> Panicked ->
  public b' ⊆ public b /\ nonces b' ⊆ nonces b /\ (pending b' ⊆ pending b \/ exists e, r = Err e).
Proof.
  assert (Hsay : forall m s r s' b', run (booked h) (otry (send uuid_text m) (fun _ => Ret (Some (Ok tt)))) (s, b) =
    (r, (s', b')) -> b' = b).
  { intros m s0 r0 s0' b0. rewrite booked_every; [by intros [= _ _ <-]|].
    apply every_bind; [apply send_unbooked|]. by intros []. }
  unfold serve_tunnel. case_match.
  { intros Hr _. apply Hsay in Hr as ->. auto. }
  rewrite run_bind, booked_every by apply serving_unbooked, listener_serving. cbn [fst snd].
  destruct (run h (create_listener self port) s) as [[u|err|] s1]; cbn [fst snd];
    [|intros Hr _; apply Hsay in Hr as ->; auto|by intros [= <-]].
  unfold otry at 1. cbn [pbind at_front]. cbn [run booked book fst snd].
  destruct (h (inr (inr LocalPort)) s1) as [[p|e|] s2]; cbn [map_err run fst snd];
    [|intros [= <- _ <-] _; auto|by intros [= <-]].
  unfold otry at 1. rewrite run_bind, booked_every by apply send_unbooked. cbn [fst snd].
  match goal with |- context [run h (send uuid_text ?m) ?s0] =>
    destruct (run h (send uuid_text m) s0) as [[u'|e|] s3] end; cbn [fst snd];
    [|intros [= <- _ <-] _; auto|by intros [= <-]].
  apply offer_carriers_settles. intros rx s4 b4 r4 s4' b4'. apply offer_public_settles.
  apply serving_unbooked, loop_serving.
Qed.

Definition unread (o : op front) : Prop := o <> inl FramedNext.

(** A public tunnel never reads what its client sends: the renewals of the direct
    path that clients ask for ([PublicUdpRenew]) are answered by nobody. *)
Theorem renewals_are_never_read turns self opener port opts :
  every unread (serve_tunnel uuid_text turns self opener port opts).
Proof.
  assert (Hs : forall m, every unread (send uuid_text m)).
  { intros m. eapply every_mono; [|apply send_serving]. by intros o []. }
  assert (Ho : forall m, every unread
    (otry (send uuid_text m) (fun _ => Ret (Some (Ok tt))))).
  { intros m. apply every_bind; [apply Hs|]. by intros []. }
  unfold serve_tunnel. case_match; [apply Ho|].
  apply every_bind; [eapply every_mono; [|apply listener_serving]; by intros o []|].
  intros [u|e|]; [|apply Ho|done].
  apply every_bind; [done|]. intros [p|e|]; [|done..].
  apply every_bind; [apply Hs|]. intros [u'|e|]; [|done..].
  assert (Hin : forall rx, every unread
    (offer_public_udp uuid_text self opts (public_key p)
       (tunnel_loop uuid_text turns opts (public_key p) (clamp (carriers opts) 1 (N.max (max_carriers self) 1)) rx
          (CarrierPool_new opener)))).
  { intros rx. assert (Hl : every unread
      (tunnel_loop uuid_text turns opts (public_key p) (clamp (carriers opts) 1 (N.max (max_carriers self) 1)) rx
         (CarrierPool_new opener))) by (eapply every_mono; [|apply loop_serving]; by intros o []).
    unfold offer_public_udp. case_match; [|done].
    cbn [pbind at_front every]. split; [done|]. intros _. split; [done|]. intros n. split; [done|]. intros _.
    apply every_bind; [apply Hs|].
    intros [x|e|]; [| |done]; (apply every_bind; [done|]); intros [q|]; by repeat split. }
  unfold offer_carriers. case_match; [|apply Hin].
  cbn [pbind at_front every]. split; [done|]. intros t. split; [done|]. intros _.
  apply every_bind; [apply Hs|]. intros [x|e|]; [|done..].
  apply every_bind; [apply Hin|]. intros [q|]; by repeat split.
Qed.
End Tunnel.

(** ** Ports *)

Definition binds_within (self : Server) (o : op front) : Prop :=
  match o with inr (inr (TryBind p)) => (port_lo self <= p <= port_hi self)%N | _ => True end.

Definition draws_within {St} (h : handler front St) : Prop :=
  forall lo hi s, (lo <= (h (inr (inr (RandomPort lo hi))) s).1 <= hi)%N.

(** A port was bound: the environment granted it. *)
Definition granted {St} (h : handler front St) (p : N) : Prop :=
  exists s, (h (inr (inr (TryBind p))) s).1 = Ok tt.

Lemma try_bind_traced {St} (h : handler front St) p s l :
  exists e, run (traced h) (try_bind p) (s, l) =
    (map_err e (h (inr (inr (TryBind p))) s).1,
     ((h (inr (inr (TryBind p))) s).2, l ++ [inr (inr (TryBind p))])).
Proof. by eexists. Qed.

Lemma random_ports_within {St} (h : handler front St) self n s l :
  draws_within h ->
  exists r s' l', run (traced h) (random_ports n (port_lo self) (port_hi self)) (s, l) = (r, (s', l ++ l')) /\
    Forall (binds_within self) l' /\ length l' <= 2 * n /\
    (r = Ok tt -> exists p, inr (inr (TryBind p)) ∈ l' /\ granted h p).
Proof.
  intros Hd. revert s l; induction n as [|n IH]; intros s l.
  - eexists _, s, []. cbn [random_ports run]. rewrite app_nil_r. split; [done|].
    split; [constructor|]. split; [simpl; lia | done].
  - cbn [random_ports pbind at_front run traced fst snd].
    set (p := (h (inr (inr (RandomPort (port_lo self) (port_hi self)))) s).1).
    set (s1 := (h (inr (inr (RandomPort (port_lo self) (port_hi self)))) s).2).
    set (o1 := inr (inr (RandomPort (port_lo self) (port_hi self))) : op front).
    set (o2 := inr (inr (TryBind p)) : op front).
    rewrite run_bind. destruct (try_bind_traced h p s1 (l ++ [o1])) as [e E].
    setoid_rewrite E. cbn [fst snd].
    assert (Ho : Forall (binds_within self) [o1; o2]) by (repeat constructor; apply Hd).
    destruct (h (inr (inr (TryBind p))) s1) as [[[]|err|] s2] eqn:Eb; cbn [map_err fst snd run].
    + eexists _, s2, [o1; o2]. rewrite <- app_assoc. split; [done|].
      split; [done|]. split; [cbn [length]; lia|]. intros _. exists p.
      split; [right; left|]. exists s1. by rewrite Eb.
    + destruct (IH s2 ((l ++ [o1]) ++ [o2])) as (r & s' & l' & Er & Hl & Hn & Hok).
      eexists r, s', ([o1; o2] ++ l'). split; [etrans; [exact Er|]; by rewrite <- !app_assoc|].
      split; [by apply Forall_app|]. split; [rewrite length_app; cbn [length]; lia|].
      intros Hr. destruct (Hok Hr) as (q & Hq & ?). exists q. split; [by do 2 right | done].
    + eexists _, s2, [o1; o2]. rewrite <- app_assoc. split; [done|].
      split; [done|]. split; [cbn [length]; lia | done].
Qed.

(** A tunnel tries to bind ports of the range only, at most 150 of them, and gets a
    listener only on one it was granted, the requested one if there was a request. *)
Theorem ports_stay_in_range {St} (h : handler front St) (self : Server) port s :
  draws_within h ->
  exists r s' log, run (traced h) (create_listener self port) (s, []) = (r, (s', log)) /\
    Forall (binds_within self) log /\ length log <= 300 /\
    (r = Ok tt -> exists p, inr (inr (TryBind p)) ∈ log /\ granted h p /\ (port <> 0%N -> p = port)).
Proof.
  intros Hd. unfold create_listener. case_match eqn:Hport.
  - apply N.ltb_lt in Hport. case_match eqn:Hin.
    + apply andb_true_iff in Hin as [?%N.leb_le ?%N.leb_le].
      destruct (try_bind_traced h port s []) as [e E]. eexists _, _, _. split; [exact E|].
      split; [by repeat constructor|]. split; [simpl; lia|]. intros Hr. exists port.
      split; [by left|]. split; [|done]. exists s.
      by destruct (h (inr (inr (TryBind port))) s) as [[[]|err|] s2].
    + eexists _, s, []. split; [done|]. split; [constructor|]. split; [simpl; lia | done].
  - apply N.ltb_ge in Hport. destruct (random_ports_within h self 150 s [] Hd) as (r & s' & l & E & Hl & Hn & Hok).
    exists r, s', l. split; [exact E|]. split; [done|]. split; [lia|].
    intros Hr. destruct (Hok Hr) as (p & ? & ?). exists p. split; [done|]. split; [done|]. lia.
Qed.

(** ** The task of a connection *)

Definition is_splice (o : conn_op) : bool := match o with Splice _ => true | _ => false end.

(** What every path through a program does, after [done]. *)
Fixpoint paths {S A} (P : list (op S) -> Prop) (past : list (op S)) (p : prog S A) : Prop :=
  match p with
  | Ret _ => P past
  | Op o k => forall r, paths P (past ++ [o]) (k r)
  end.

Lemma paths_run {S St A} (P : list (op S) -> Prop) (h : handler S St) (p : prog S A) s l :
  paths P l p -> exists a s' l', run (traced h) p (s, l) = (a, (s', l')) /\ P l'.
Proof.
  revert s l; induction p as [a|o k IH]; intros s l Hp; [by exists a, s, l|].
  apply (IH (h o s).1 (h o s).2), Hp.
Qed.

Definition served_well (l : list (op conn_sig)) : Prop :=
  exists l', l = l' ++ [DropPermit] /\ DropPermit ∉ l' /\
    length (List.filter is_splice l') <= 1 /\
    forall d, Splice d ∈ l' -> exists f, Announce d f ∈ l'.

Lemma served_well_app l :
  (DropPermit ∉ l) -> length (List.filter is_splice l) <= 1 ->
  (forall d, Splice d ∈ l -> exists f, Announce d f ∈ l) -> served_well (l ++ [DropPermit]).
Proof. intros. by exists l. Qed.

(** Every path of a program whose answers are few. *)
Ltac every_path :=
  repeat (cbn -[elem_of]; match goal with
    | |- forall _, _ => intro
    | |- paths _ _ ?p => match p with context [match ?r with _ => _ end] => is_var r; destruct r end
    | |- paths _ _ ?p => match p with context [negb ?r] => is_var r; destruct r end
    end).

Ltac check_path :=
  match goal with |- served_well ?l =>
    let l' := eval cbv in (removelast l) in change l with (l' ++ [DropPermit]) end;
  apply served_well_app;
  [ rewrite ?not_elem_of_cons; repeat split; try done; apply not_elem_of_nil
  | cbn; lia
  | intros d Hd; repeat (apply elem_of_cons in Hd as [[=]|Hd]); subst; try by apply elem_of_nil in Hd ];
  eexists; repeat (left || right).

(** Whatever the edge, the direct path and the carrier answer, the permit of a
    connection is dropped exactly once, at the end, and the connection is spliced at
    most once, to a stream that was announced. *)
Theorem connection_served_once {St} (h : handler conn_sig St) opts ip carrier entry s :
  exists s' l, run (traced h) (tunnel_conn opts ip carrier entry) (s, []) = (tt, (s', l)) /\ served_well l.
Proof.
  destruct (paths_run served_well h (tunnel_conn opts ip carrier entry) s []) as ([] & s' & l & E & Hl);
    [|by exists s', l].
  unfold tunnel_conn. set (f := if webserver_log opts then Some ip else None).
  destruct entry; every_path; check_path.
Qed.

(** ** The first byte *)

(** Looking at the first byte costs the next stage nothing: whatever sizes it reads
    by, it obtains that byte and then the rest of the stream, as it would have
    without the look. *)
Theorem inspection_loses_nothing {S} (A : AsyncStream S) is_http self read (socket : S) first ns stream :
  read = InTime (Ok first) ->
  route_connection is_http self read socket = ToHttp stream \/
  route_connection is_http self read socket = ToProtocol stream ->
  (reads (prefixed_stream A) ns stream).1 =
    take (N.to_nat (foldr N.add 0%N ns)) first ++ (reads A (sizes_left (length first) ns) socket).1.
Proof.
  intros ->. unfold route_connection. case_match; [by intros [|]|].
  destruct first as [|b first]; [by intros [|]|]. intros Hr.
  assert (stream = Prefixed_new (b :: first) socket) as -> by (cbv zeta in Hr; destruct (is_http b), Hr; congruence).
  destruct (reads_prefixed A ns (Prefixed_new (b :: first) socket)) as [E _]; [simpl; lia|].
  rewrite E. cbn [pos prefix inner Prefixed_new drop]. by rewrite Nat.sub_0_r.
Qed.

(** ** Runs *)

(** A codec of the few messages these runs need. *)
Definition plain_options : TunnelOptions :=
  {| https := false; force_https := false; basic_auth := None; Control.notes := None; carriers := 2; udp := true;
     auto_reconnect := false; webserver_log := false |}.

#[local] Instance door_client_json : Json ClientMessage :=
  {| to_vec := fun _ => Ok [];
     from_slice := fun b => match b with
       | x01 :: _ => Ok (ClientMessage.Hello 0 plain_options)
       | x02 :: tag => Ok (ClientMessage.Authenticate (String.string_of_list_byte tag))
       | _ => Err "bad"
       end |}.
#[local] Instance door_server_json : Json ServerMessage :=
  {| to_vec := fun _ => Ok []; from_slice := fun _ => Err "bad" |}.
#[local] Instance door_str_debug : StrDebug := fun s => s.
#[local] Instance door_hex : HexText := fun b => String.string_of_list_byte b.
#[local] Instance door_ipv6 : Ipv6Text := fun _ => "::".

Definition door_answer (o : front_op) : resp (s := front_sig) o :=
  match o with
  | AcceptControl | PublicGet _ | TryPermit | LoadAlive _ => true
  | NewUuid => 77%N
  | Serve _ => Ok tt
  | TryBind _ => Ok tt
  | RandomPort lo _ => lo
  | LocalPort => Ok 7000%N
  | NewToken => "t"
  | NewNonce => []
  | Select _ => HeartbeatTick
  | _ => tt
  end.

(** Frames to receive, and how many can still be sent. *)
Definition door : handler front (list bytes * nat) :=
  fun o st =>
    match o with
    | inl FramedNext => match st.1 with f :: fs => (Some (Ok f), (fs, st.2)) | [] => (None, st) end
    | inl (FramedSend _) => match st.2 with O => (Err "gone", st) | S n => (Ok tt, (st.1, n)) end
    | inl (Traced _ _) => (tt, st)
    | inr (inl _) => (false, st)
    | inr (inr o) => (door_answer o, st)
    end.

Definition door_server (a : option Authenticator) : Server :=
  {| port_lo := 7000; port_hi := 7010; max_carriers := 4; auth := a; tls := false; server_udp := true;
     vhost_quic_port := 443; udp_tuning := UdpDirectTuning_default; vhost_config := false; vpn_enabled := false;
     admin_token := false |}.

(** The token of a carrier pool is inserted before it is sent and guarded after: a
    client that is gone by then leaves its token registered for good. *)
Lemma unsent_token_stays :
  exists e s' b',
    run (booked door) (serve_tunnel (fun _ => "") 3 (door_server None) 0 0 plain_options)
      (([], 1), {| pending := ∅; public := ∅; nonces := ∅ |}) = (Some (Err e), (s', b')) /\
    "t" ∈ pending b'.
Proof. eexists _, _, _. split; [by vm_compute|]. by vm_compute. Qed.

Definition unlucky : handler conn_sig unit :=
  fun o st => (match o return resp (s := conn_sig) o with
     | EdgeAccept => Ok (Some tt) | DirectPick => false | OpenDirect | OpenRelay _ => Err "down"
     | Announce _ _ => Ok tt | _ => tt end, st).

(** A registered direct path without a connection counts as a fallback although
    nothing was attempted. *)
Lemma fallback_counted_unattempted :
  run (traced unlucky) (tunnel_conn plain_options "" 7 true) (tt, []) =
    (tt, (tt, [EdgeAccept; DirectPick; CountFallback; OpenRelay 7; DropPermit])).
Proof. by vm_compute. Qed.

Definition door_secret : Authenticator := authenticator_new "s3cret".

Lemma front_door_needs_proof_witness :
  exists c tag s0 s1 s2,
    (door (inr (inr NewUuid)) s0).1 = c /\
    run door recv_request s1 = (Ok (Some (ClientMessage.Authenticate tag)), s2) /\
    hex_decode tag = Some (hmac_sha256 (hmac_key door_secret) (uuid_bytes c)).
Proof.
  pose (s := ([[x01]; x02 :: String.list_byte_of_string (answer door_secret 77)], 9)).
  pose (x := run (traced door) (handle_connection (fun _ => "") 2 (door_server (Some door_secret)) 0) (s, [])).
  apply (front_door_needs_proof (fun _ => "") door 2 (door_server (Some door_secret)) 0 door_secret
           s x.1 x.2.1 x.2.2 (inr (inr (PendingInsert "t")))).
  - done.
  - vm_compute. reflexivity.
  - vm_compute. repeat first [apply list_elem_of_here | apply list_elem_of_further].
  - intros [].
Defined.
