(* ===== verification/RefTransport.v ===== *)
(** * Connections of the reference ([vendored-from-bore/transport.rs], [shared.rs])

    Dialling a server with or without TLS, the server's own TLS settings, and the
    wrapper that counts the bytes of a relayed stream.  Endpoints are parsed as in
    [Transport.v], by the same code. *)

From S2P Require Import Prelude Streams Prefixed Proto Text Transport Fs.

(** ** Dialling *)

(** The awaits of a client that dials: sockets, TLS, and the [open] of the
    multiplexer's control substream. *)
Inductive dial_op : Type :=
| TcpConnectT (secs : N) (host : string) (port : N)
| TlsVersions                                  (* [with_safe_default_protocol_versions] *)
| TlsConnectT (secs : N) (cfg : ClientConfig) (server_name : string)
| OpenStream.

Definition dial_sig : sig :=
  Sig dial_op (fun o =>
    match o with
    | TcpConnectT _ _ _ | TlsConnectT _ _ _ => timed (result io_error unit)
    | TlsVersions => result string unit
    | OpenStream => result io_error unit
    end).

Section Dial.
Context {T : sig} `{Has dial_sig T} `{ServerNames}.

Definition dial (o : dial_op) : prog T (resp (s := dial_sig) o) := call (S := dial_sig) o.

(** [Elapsed], as the [io::Error] it converts to. *)
Definition deadline : io_error := IoError (OtherKind "TimedOut") "deadline has elapsed".

(** Of [client.rs]. *)
Definition connect_with_timeout (to : string) (port : N) : prog T (ares unit) :=
  let! r := dial (TcpConnectT NETWORK_TIMEOUT to port) in
  Ret (context ("could not connect to " +:+ to +:+ ":" +:+ pretty port)
         (map_err AnyIo (match r with InTime res => res | Elapsed => Err deadline end))).

Definition client_config (insecure : bool) : prog T (ares ClientConfig) :=
  let! builder := dial TlsVersions in
  Ret (rbind (context "failed to configure TLS protocol versions" (map_err AnyMsg builder)) (fun _ =>
       Ok (if insecure then {| verifier := InsecureVerifier; client_auth := false |}
           else {| verifier := WebPkiRoots; client_auth := false |}))).

Definition connect (endpoint : Endpoint) (insecure : bool) : prog T (ares (ControlStream unit unit)) :=
  let? tcp := connect_with_timeout (host endpoint) (port endpoint) in
  if negb (tls endpoint) then Ret (Ok (Plain tcp))
  else
    let? connector := client_config insecure in
    let? server_name := Ret (context ("invalid TLS server name: " +:+ host endpoint)
                               (map_err AnyMsg (server_name_try_from (host endpoint)))) in
    let! r := dial (TlsConnectT NETWORK_TIMEOUT connector server_name) in
    match r with
    | Elapsed => Ret (Err (AnyContext "timed out during TLS handshake" (AnyIo deadline)))
    | InTime r =>
        let? tls := Ret (context "TLS handshake failed" (map_err AnyIo r)) in
        Ret (Ok (Tls tls))
    end.
End Dial.

(** ** The server's certificate *)

(** The PEM reader of [rustls_pki_types] and the builder of [rustls]. *)
Class Pem := {
  pem_certs : bytes -> result string (list bytes);
  pem_key : bytes -> result string bytes;
  server_versions : result string unit;
  single_cert : list bytes -> bytes -> result string unit;
}.

(** What the acceptor presents. *)
Record TlsAcceptor : Type := { certs : list bytes; key : bytes }.

Section ServerTls.
Context `{Pem}.

Definition server_tls_from_pem (cert_pem key_pem : bytes) : ares TlsAcceptor :=
  rbind (context "failed to parse certificate PEM" (map_err AnyMsg (pem_certs cert_pem))) (fun certs =>
  if (nlen certs =? 0)%N then Err (AnyMsg "no certificates found in cert file")
  else
    rbind (context "failed to parse private key PEM" (map_err AnyMsg (pem_key key_pem))) (fun key =>
    rbind (context "failed to configure TLS protocol versions" (map_err AnyMsg server_versions)) (fun _ =>
    rbind (context "invalid certificate or key" (map_err AnyMsg (single_cert certs key))) (fun _ =>
    Ok {| certs := certs; key := key |})))).

(** [read] is [std::fs::read]. *)
Definition load_server_tls (read : string -> result io_error bytes) (cert_file key_file : string) :
  ares TlsAcceptor :=
  rbind (context ("failed to read " +:+ cert_file) (map_err AnyIo (read cert_file))) (fun cert_pem =>
  rbind (context ("failed to read " +:+ key_file) (map_err AnyIo (read key_file))) (fun key_pem =>
  server_tls_from_pem cert_pem key_pem)).
End ServerTls.

(** ** Counting ([CountingStream] of [shared.rs])

    The counters of a tunnel and of the whole server, which other streams share. *)

Record counters : Type := { rx : N; tx : N; grx : N; gtx : N }.

Definition count_read (n : N) (c : counters) : counters :=
  {| rx := (rx c + n) mod 2 ^ 64; tx := tx c; grx := (grx c + n) mod 2 ^ 64; gtx := gtx c |}.
Definition count_written (n : N) (c : counters) : counters :=
  {| rx := rx c; tx := (tx c + n) mod 2 ^ 64; grx := grx c; gtx := (gtx c + n) mod 2 ^ 64 |}.

Section Counting.
Context {S : Type} (A : AsyncStream S).

Definition counting_read (s : S * counters) (n : N) : Poll (result io_error bytes) * (S * counters) :=
  let '(r, inner) := poll_read A s.1 n in
  (r, (inner, match r with Ready (Ok bs) => count_read (nlen bs) s.2 | _ => s.2 end)).

Definition counting_write (s : S * counters) (buf : bytes) : Poll (result io_error N) * (S * counters) :=
  let '(r, inner) := poll_write A s.1 buf in
  (r, (inner, match r with Ready (Ok n) => count_written n s.2 | _ => s.2 end)).

Definition counting_flush (s : S * counters) : Poll (result io_error unit) * (S * counters) :=
  let '(r, inner) := poll_flush A s.1 in (r, (inner, s.2)).

Definition counting_shutdown (s : S * counters) : Poll (result io_error unit) * (S * counters) :=
  let '(r, inner) := poll_shutdown A s.1 in (r, (inner, s.2)).

(** The vectored methods are those [AsyncWrite] provides: the first buffer that is
    not empty is written. *)
Definition counting_stream : AsyncStream (S * counters) := {|
  poll_read := counting_read;
  poll_write := counting_write;
  poll_flush := counting_flush;
  poll_shutdown := counting_shutdown;
  poll_write_vectored := fun s bufs =>
    counting_write s (default [] (List.find (fun b => negb (bool_decide (b = []))) bufs));
  is_write_vectored := fun _ => false;
|}.
End Counting.

(** ** Facts *)

(** The wrapper is transparent, and it counts: any reads obtain the bytes that they
    obtain from the stream inside and leave it as they do; the counters of the
    tunnel and of the server have advanced by their number, modulo the width. *)
Lemma counting_transparent {S} (A : AsyncStream S) ns s c :
  (rx c < 2 ^ 64 -> grx c < 2 ^ 64 ->
  (reads (counting_stream A) ns (s, c)).1 = (reads A ns s).1 /\
  (reads (counting_stream A) ns (s, c)).2 =
    ((reads A ns s).2, count_read (nlen (reads A ns s).1) c))%N.
Proof.
  revert s c. induction ns as [|n ns IH]; intros s c Hr Hg; simpl.
  { split; [done|]. unfold count_read, nlen. simpl. rewrite !N.add_0_r, !N.mod_small by done. by destruct c. }
  unfold counting_read. simpl. destruct (poll_read A s n) as [r s1].
  destruct (match r with Ready (Ok bs) => true | _ => false end) eqn:Eok.
  - destruct r as [[bs|e|]|]; try done. clear Eok.
    destruct (IH s1 (count_read (nlen bs) c)) as [E1 E2]; [apply N.mod_lt; done..|].
    destruct (reads (counting_stream A) ns (s1, count_read (nlen bs) c)) as [out st].
    destruct (reads A ns s1) as [out' st']. simpl in *. subst. split; [done|]. f_equal.
    unfold count_read, nlen. simpl. rewrite length_app, Nat2N.inj_add.
    f_equal; rewrite N.Div0.add_mod_idemp_l; f_equal; lia.
  - assert (E : match r with Ready (Ok bs) => count_read (nlen bs) c | _ => c end = c) by (by destruct r as [[]|]).
    rewrite E. destruct (IH s1 c Hr Hg) as [E1 E2].
    destruct (reads (counting_stream A) ns (s1, c)) as [out st].
    destruct (reads A ns s1) as [out' st']. simpl in *. subst. by destruct r as [[]|].
Qed.

(** A certificate is checked against the bundled roots unless the flag says not to. *)
Lemma client_config_verifies {T} `{Has dial_sig T} insecure :
  always (fun r => match r with
                   | Ok cfg => verifier cfg = InsecureVerifier <-> insecure = true
                   | _ => True
                   end) (client_config (T := T) insecure).
Proof.
  apply (always_bind (fun _ => True)); [by apply always_true|].
  intros [|e|] _; simpl; [by destruct insecure|done..].
Qed.
