(* ===== verification/Dial.v ===== *)
(** * The reference clients' connections ([vendored-from-bore/client.rs])

    The three constructors of [Client] (a public tunnel, a secret provider, a
    virtual host), the carriers of a pool, the offer of UDP candidates and the
    task of a forwarded connection. *)

From stdpp Require Import list.
From S2P Require Import Prelude Streams Json Proto Auth Transport Fs Frames Addresses Stun Candidates Control Direct RefTransport.
Import ClientMessage(ClientMessage) ServerMessage(ServerMessage).

(** ** Operations *)

(** What one connection to the server awaits. *)
Definition link : sig := framed_sig ⊕ (timer_sig ⊕ dial_sig).

(** The same on the extra connections of a carrier pool, by number. *)
Definition extra_sig : sig := Sig (nat * op link) (fun o => resp (s := link) o.2).

(** The creation of a UDP socket. *)
Inductive bind_op : Type :=
| NewUdpSocket
| SetReuse
| SetNonblocking
| BindPort (port : N)                   (* on 0.0.0.0 *)
| RegisterSocket.                       (* [UdpSocket::from_std] *)

Definition bind_sig : sig :=
  Sig bind_op (fun o =>
    match o with
    | NewUdpSocket => result io_error nat
    | SetReuse => unit
    | _ => result io_error unit
    end).

(** [{:?}] of a message. *)
Class MessageDebug := message_debug : option ServerMessage -> string.

(** The [basicauth] module, which is not in the repository. *)
Class BasicAuths := { BasicAuth : Type; basic_auth_parse : string -> option BasicAuth }.

(** ** State *)

Record CarrierDialer : Type := {
  dialer_endpoint : Endpoint;
  dialer_insecure : bool;
  dialer_secret : option string;
  dialer_token : string;
  target_extra : N;
}.

Record UdpProviderCfg : Type := {
  cfg_endpoint : Endpoint;
  cfg_stun_server : option string;
  cfg_port_map : bool;
  cfg_port_prediction : bool;
  cfg_udp_port : N;
  permits : N;                          (* of a fresh semaphore *)
  nat_udp_release_timeout : N;          (* seconds *)
}.

Record ProviderMeta : Type := {
  meta_notes : option string;
  meta_basic_auth : option string;
  meta_auto_reconnect : bool;
}.

(** The control stream and the acceptor are those of the program's own connection;
    [carrier_acceptors] are extra connections. *)
Record Client `{BasicAuths} : Type := {
  local_host : string;
  local_port : N;
  remote_port : N;
  udp_socket : option nat;
  secret : option string;
  udp_cfg : option UdpProviderCfg;
  vhost_udp : bool;
  direct_endpoint : option Endpoint;
  direct_key : option string;
  direct_udp_carriers : N;
  client_basic_auth : option BasicAuth;
  carrier_acceptors : list nat;
  carrier_dialer : option CarrierDialer;
  expects_ip : bool;                    (* [webserver_log] *)
  access_logger : bool;
  vhost_subdomain : option string;
}.

Section Dial.
Context `{Json ClientMessage} `{Json ServerMessage} `{Crypto}.
Context `{StrDebug} `{HexText} `{Ipv6Text} (uuid_text : Uuid -> string).
Context `{ServerNames} `{MessageDebug} `{BasicAuths}.

(** ** The handshake ([auth.rs]) *)

Section Link.
Context {T : sig} `{Has framed_sig T} `{Has timer_sig T} `{Has dial_sig T}.

Definition client_send (m : ClientMessage) : prog T (ares unit) := delimited_send client_summary m.
Definition recv_reply : prog T (ares (option ServerMessage)) := recv_timeout (server_summary uuid_text).

Definition client_handshake (self : Authenticator) : prog T (ares unit) :=
  let? msg := recv_reply in
  match msg with
  | Some (ServerMessage.Challenge challenge) => client_send (ClientMessage.Authenticate (answer self challenge))
  | Some _ => Ret (Err (AnyMsg "expected authentication challenge, but no secret was required"))
  | None =>
      Ret (Err (AnyMsg ("connection closed before authentication — wrong --to scheme? " +:+
        "a TLS control server needs an https:// address (plain host:port won't work)")))
  end.

(** What every constructor and carrier does first: the opening message goes out
    before the handshake, which is the server's to start. *)
Definition introduce (open_error : string) (endpoint : Endpoint) (insecure : bool)
  (secret : option string) (hello : ClientMessage) : prog T (ares unit) :=
  let? _ := connect endpoint insecure in
  let? _ := (let! r := dial OpenStream in Ret (context open_error (map_err AnyIo r))) in
  let? _ := client_send hello in
  match secret with
  | Some secret => client_handshake (authenticator_new secret)
  | None => Ret (Ok tt)
  end.

Definition open_carrier (endpoint : Endpoint) (insecure : bool) (secret : option string)
  (token : string) : prog T (ares unit) :=
  introduce "failed to open carrier control stream" endpoint insecure secret
    (ClientMessage.JoinCarrier token).

(** The answer to the opening message: [accept] reads the one that is expected. *)
Definition expect_reply {A} (accept : ServerMessage -> option A) (otherwise : string) :
  prog T (ares A) :=
  let? reply := recv_reply in
  Ret (match reply with
       | Some m =>
           match accept m with
           | Some a => Ok a
           | None =>
               match m with
               | ServerMessage.Error message => Err (AnyMsg ("server error: " +:+ message))
               | ServerMessage.Challenge _ =>
                   Err (AnyMsg "server requires authentication, but no client secret was provided")
               | _ => Err (AnyMsg otherwise)
               end
           end
       | None => Err (AnyMsg "unexpected EOF")
       end).
End Link.

(** ** Carriers *)

Section Pool.
Context {T : sig} `{Has framed_sig T} `{Has timer_sig T} `{Has dial_sig T} `{Has extra_sig T}.

(** A program of connection [i]. *)
Definition on_extra {A} (i : nat) (p : prog link A) : prog T A :=
  interp (fun o => call (S := extra_sig) (i, o)) p.

(** [for _ in 0..extra]; the failures are only logged. *)
Fixpoint open_carriers (left : nat) (i : nat) (endpoint : Endpoint) (insecure : bool)
  (secret : option string) (token : string) : prog T (ares (list nat)) :=
  match left with
  | O => Ret (Ok [])
  | S left' =>
      let! r := on_extra i (open_carrier endpoint insecure secret token) in
      match r with
      | Panicked => Ret Panicked
      | _ =>
          let? rest := open_carriers left' (S i) endpoint insecure secret token in
          Ret (Ok (match r with Ok _ => i :: rest | _ => rest end))
      end
  end.

(** If more than one carrier was asked for, the server says how many to open. *)
Definition join_pool (endpoint : Endpoint) (insecure : bool) (secret : option string) (carriers : N) :
  prog T (ares (list nat * option CarrierDialer)) :=
  if (1 <? carriers)%N then
    let? reply := recv_reply in
    match reply with
    | Some (ServerMessage.CarrierToken token extra) =>
        let? acceptors := open_carriers (N.to_nat extra) 0 endpoint insecure secret token in
        Ret (Ok (acceptors,
          if (0 <? extra)%N then
            Some {| dialer_endpoint := endpoint; dialer_insecure := insecure; dialer_secret := secret;
                    dialer_token := token; target_extra := extra |}
          else None))
    | Some (ServerMessage.Error message) => Ret (Err (AnyMsg ("server error: " +:+ message)))
    | other => Ret (Err (AnyMsg ("expected carrier token, got " +:+ message_debug other)))
    end
  else Ret (Ok ([], None)).

(** ** Constructors *)

(** [clamp_direct_carriers] is the [vhost] module's, which is not in the repository. *)
Context (clamp_direct_carriers : N -> N).

(** [Client::new]. *)
Definition Client_new (local_host : string) (local_port : N) (to : string) (port : N)
  (secret : option string) (insecure : bool) (options : TunnelOptions) (access_logger : bool) :
  prog T (ares Client) :=
  let endpoint := parse to in
  let? _ := introduce "failed to open control stream" endpoint insecure secret
              (ClientMessage.Hello port options) in
  let? remote_port := expect_reply
    (fun m => match m with ServerMessage.Hello remote_port => Some remote_port | _ => None end)
    "unexpected initial non-hello message" in
  let? pool := join_pool endpoint insecure secret (carriers options) in
  Ret (Ok {| local_host := local_host; local_port := local_port; remote_port := remote_port;
             udp_socket := None; secret := secret; udp_cfg := None; vhost_udp := false;
             direct_endpoint := if udp options then Some endpoint else None;
             direct_key := if udp options then Some ("port:" +:+ pretty remote_port) else None;
             direct_udp_carriers := if udp options then clamp_direct_carriers (carriers options) else 0;
             client_basic_auth := None; carrier_acceptors := pool.1; carrier_dialer := pool.2;
             expects_ip := webserver_log options; access_logger := access_logger;
             vhost_subdomain := None |}).

(** [Client::new_vhost_provider_with_udp]. *)
Definition new_vhost_provider_with_udp (local_host : string) (local_port : N) (to subdomain client_id : string)
  (secret : option string) (insecure : bool) (carriers : N) (udp : bool) (meta : ProviderMeta)
  (access_logger : bool) : prog T (ares Client) :=
  let endpoint := parse to in
  let? _ := introduce "failed to open control stream" endpoint insecure secret
              (ClientMessage.HelloVhost subdomain client_id (meta_notes meta)
                 (bool_decide (is_Some (meta_basic_auth meta))) carriers udp access_logger
                 (meta_auto_reconnect meta)) in
  let? _ := expect_reply
    (fun m => match m with ServerMessage.VhostReady _ _ => Some tt | _ => None end)
    "unexpected response to vhost registration" in
  let? pool := join_pool endpoint insecure secret carriers in
  Ret (Ok {| local_host := local_host; local_port := local_port; remote_port := 0;
             udp_socket := None; secret := secret; udp_cfg := None; vhost_udp := udp;
             direct_endpoint := if udp then Some endpoint else None;
             direct_key := if udp then Some subdomain else None;
             direct_udp_carriers := if udp then clamp_direct_carriers carriers else 0;
             client_basic_auth := meta_basic_auth meta ≫= basic_auth_parse;
             carrier_acceptors := pool.1; carrier_dialer := pool.2;
             expects_ip := access_logger; access_logger := access_logger;
             vhost_subdomain := Some subdomain |}).

Definition new_vhost_provider (local_host : string) (local_port : N) (to subdomain client_id : string)
  (secret : option string) (insecure : bool) (carriers : N) (meta : ProviderMeta) (access_logger : bool) :
  prog T (ares Client) :=
  new_vhost_provider_with_udp local_host local_port to subdomain client_id secret insecure carriers false
    meta access_logger.

(** ** Candidates of a provider *)

Context `{Has udp_sig T} `{Has host_sig T} `{Has bind_sig T}.

Definition bind (o : bind_op) : prog T (resp (s := bind_sig) o) := call (S := bind_sig) o.

(** [holepunch::bind_socket], without the sizes of the buffers. *)
Definition bind_socket (port : N) : prog T (ares nat) :=
  let? socket := (let! r := bind NewUdpSocket in
                  Ret (context "failed to create UDP socket" (map_err AnyIo r))) in
  let! _ := (if (port =? 0)%N then Ret tt else bind SetReuse) in
  let? _ := (let! r := bind SetNonblocking in
             Ret (context "failed to set UDP socket non-blocking" (map_err AnyIo r))) in
  let? _ := (let! r := bind (BindPort port) in
             Ret (context (if (port =? 0)%N then "failed to bind UDP socket"
                           else "failed to bind fixed UDP port " +:+ pretty port +:+ " (free? allowed?)")
                    (map_err AnyIo r))) in
  let? _ := (let! r := bind RegisterSocket in
             Ret (context "failed to register UDP socket with tokio" (map_err AnyIo r))) in
  Ret (Ok socket).

(** [unwrap_or_else(|err| { warn!(..); Vec::new() })]. *)
Definition or_empty {A} (r : ares (list A)) : ares (list A) :=
  match r with Err _ => Ok [] | _ => r end.

Definition no_candidates (who none suffix : string) (d : CandidateDiscovery)
  (port_map port_prediction : bool) : anyhow :=
  let stun_info :=
    if (attempted_stun d =? 0)%N then "no STUN targets resolved"
    else match selected_stun d with
         | None => "all " +:+ pretty (attempted_stun d) +:+ " STUN probes failed"
         | Some _ => none
         end in
  AnyMsg ("no UDP candidates for " +:+ who +:+ ": " +:+ stun_info +:+ " (port_map=" +:+
    bool_display port_map +:+ ", port_prediction=" +:+ bool_display port_prediction +:+ ", local_addr=" +:+
    default "" (sock_display <$> local_addr d) +:+ "); direct path unavailable" +:+ suffix).

Definition offer_provider_candidates (endpoint : Endpoint) (stun_server : option string)
  (port_map port_prediction : bool) (udp_port : N) : prog T (ares nat) :=
  let? socket := bind_socket udp_port in
  let? stun_targets :=
    (let! r := resolve_live_stun_targets (Transport.host endpoint) (Transport.port endpoint) stun_server in
     Ret (or_empty r)) in
  let? discovery := gather_candidates_from_stun_targets stun_targets port_map port_prediction in
  match candidates discovery with
  | [] =>
      Ret (Err (no_candidates "provider" "STUN returned no candidate addresses" ", using relay"
                  discovery port_map port_prediction))
  | candidates =>
      let? _ := client_send (ClientMessage.UdpCandidateOffer
        {| offered := candidates; offered_stun := selected_requested <$> selected_stun discovery;
           peer_id := 0 |}) in
      Ret (Ok socket)
  end.

(** [Client::new_secret_provider]. *)
Definition new_secret_provider (local_host : string) (local_port : N) (to tcp_secret_id : string)
  (secret : option string) (insecure udp : bool) (stun_server : option string)
  (port_map port_prediction : bool) (udp_port nat_udp_release_timeout max_conns carriers : N)
  (meta : ProviderMeta) (access_logger : bool) : prog T (ares Client) :=
  let endpoint := parse to in
  let? _ := introduce "failed to open control stream" endpoint insecure secret
              (ClientMessage.HelloSecret tcp_secret_id (meta_notes meta)
                 (bool_decide (is_Some (meta_basic_auth meta))) carriers) in
  let? _ := expect_reply
    (fun m => match m with ServerMessage.Ok => Some tt | _ => None end)
    "unexpected response to secret registration" in
  let? pool := join_pool endpoint insecure secret carriers in
  let? udp_socket :=
    (if udp then
       let! r := offer_provider_candidates endpoint stun_server port_map port_prediction udp_port in
       Ret (match r with Ok socket => Ok (Some socket) | Err _ => Ok None | Panicked => Panicked end)
     else Ret (Ok None)) in
  Ret (Ok {| local_host := local_host; local_port := local_port; remote_port := 0;
             udp_socket := udp_socket; secret := secret;
             udp_cfg := if udp then
               Some {| cfg_endpoint := endpoint; cfg_stun_server := stun_server; cfg_port_map := port_map;
                       cfg_port_prediction := port_prediction; cfg_udp_port := udp_port;
                       permits := max_conns; Dial.nat_udp_release_timeout := nat_udp_release_timeout |}
               else None;
             vhost_udp := false; direct_endpoint := None; direct_key := None; direct_udp_carriers := 0;
             client_basic_auth := meta_basic_auth meta ≫= basic_auth_parse;
             carrier_acceptors := pool.1; carrier_dialer := pool.2;
             expects_ip := access_logger; access_logger := access_logger;
             vhost_subdomain := None |}).

(** ** Whether a port is kept by the NAT *)

(** [holepunch::check_reflexive_port]; a panic is not caught. *)
Definition check_reflexive_port (port : N) (stun_addr : SocketAddr) : prog T (ares (option bool)) :=
  let! bound := bind_socket port in
  match bound with
  | Ok _ =>
      let! r := discover_reflexive stun_addr in
      Ret (match r with
           | Ok addr => Ok (Some (Addresses.port addr =? port)%N)
           | Err _ => Ok None
           | Panicked => Panicked
           end)
  | Err _ => Ret (Ok None)
  | Panicked => Ret Panicked
  end.

(** [resolve_stun_and_check]: whether the port was remapped, and the flag. *)
Definition resolve_stun_and_check (endpoint : Endpoint) (stun_server : option string)
  (preferred_port : N) (preferred_port_remapped : bool) : prog T (ares (bool * bool)) :=
  match live_stun_target_names (Transport.host endpoint) (Transport.port endpoint) stun_server with
  | [] => Ret (Ok (false, preferred_port_remapped))
  | first :: _ =>
      let! addrs := Candidates.host (LookupHost first) in
      match addrs with
      | Ok addrs =>
          match List.find is_ipv4 addrs with
          | None => Ret (Ok (false, preferred_port_remapped))
          | Some addr =>
              let? check := check_reflexive_port preferred_port addr in
              Ret (Ok (match check with
                       | Some true => (false, false)
                       | Some false => (true, true)
                       | None => (preferred_port_remapped, preferred_port_remapped)
                       end))
          end
      | Err _ => Ret (Ok (false, preferred_port_remapped))
      | Panicked => Ret Panicked
      end
  end.
End Pool.
End Dial.

(** * What the parts of a client do ([vendored-from-bore/client.rs], [holepunch.rs])

    Each program of [Dial.v] performs only what its base operations are: a property
    of those that every operation of the base has, every operation of the program
    has, in any signature. *)

Lemma every_interp {S T A} (P : op T -> Prop) (f : forall o : op S, prog T (resp o)) (p : prog S A) :
  (forall o, every P (f o)) -> every P (interp f p).
Proof. intros Hf. induction p as [a|o k IH]; simpl; [done|]. apply every_bind; auto. Qed.

Lemma every_timeout_of {T A} `{Has timer_sig T} (P : op T -> Prop) secs (p : prog T A) :
  (forall o, every P (call (S := timer_sig) (T := T) o)) -> every P p -> every P (timeout secs p).
Proof.
  intros Ht. induction p as [a|o k IH]; simpl; [done|]. intros [Ho Hk].
  apply every_bind; [apply Ht|]. intros [|]; simpl; auto.
Qed.

(** A goal about a composed program becomes goals about its parts. *)
Ltac each := repeat first
  [ done
  | match goal with
    | |- every _ (pbind _ _) => apply every_bind; [|intros ?]
    | |- every _ (ptry _ _) => apply every_try; [|intros ?]
    | |- every _ (Ret _) => exact I
    | |- every _ (match ?x with _ => _ end) => destruct x
    end ].

(** A base operation has the property by [H]. *)
Ltac base H := match goal with |- every _ (call ?o) => first [exact (H o) | refine (H o _)] end.

Section Facts.
Context `{Json ClientMessage} `{Json ServerMessage} `{Crypto}.
Context `{StrDebug} `{HexText} `{Ipv6Text} (uuid_text : Uuid -> string).
Context `{ServerNames} `{MessageDebug} `{BasicAuths}.
Context {T : sig} `{Has framed_sig T} `{Has timer_sig T} `{Has extra_sig T}
  `{Has udp_sig T} `{Has host_sig T} `{Has bind_sig T}.
Context (P : op T -> Prop).
Context (Hframed : forall o, every P (call (S := framed_sig) o)).
Context (Hextra : forall o, every P (call (S := extra_sig) o)).
Context (Hudp : forall o, every P (call (S := udp_sig) o)).
Context (Hhost : forall o, every P (call (S := host_sig) o)).

Lemma client_send_each m : every P (client_send m).
Proof. unfold client_send, delimited_send, framed. each; base Hframed. Qed.

Lemma delimited_recv_each {M} `{Json M} (summary : M -> string) : every P (delimited_recv summary).
Proof. unfold delimited_recv, framed. each; base Hframed. Qed.

Lemma on_extra_each {A} i (p : prog link A) : every P (on_extra i p).
Proof. apply every_interp. intros o. exact (Hextra (i, o)). Qed.

(** A socket is bound to the port that was asked for. *)
Definition bound_to (port : N) (o : bind_op) : Prop :=
  match o with BindPort q => q = port | _ => True end.

Context (port : N) (Hbind : forall o, bound_to port o -> every P (call (S := bind_sig) o)).

Lemma bind_socket_each : every P (bind_socket port).
Proof. unfold bind_socket, bind. each; by base Hbind. Qed.

Lemma discover_reflexive_each stun : every P (discover_reflexive stun).
Proof.
  assert (Ha : forall left attempt request txid, every P (discover_attempts left attempt request txid stun)).
  { induction left as [|left IH]; intros attempt request txid; cbn [discover_attempts]; unfold udp;
      each; apply IH || base Hudp. }
  unfold discover_reflexive, udp. each; apply Ha || base Hudp.
Qed.

Lemma resolve_live_each host port' override : every P (resolve_live_stun_targets host port' override).
Proof.
  assert (Hs : forall specs ts, every P (resolve_specs specs ts)).
  { induction specs as [|[r s] specs IH]; intros ts; cbn [resolve_specs];
      unfold resolve_stun_target, Candidates.host; each; apply IH || base Hhost. }
  unfold resolve_live_stun_targets, resolve_live_stun_targets_with_hint. each; apply Hs.
Qed.

Lemma primary_local_ip_each : every P primary_local_ip.
Proof. unfold primary_local_ip, Candidates.host. each; base Hhost. Qed.

Lemma gather_each targets port_map prediction :
  every P (gather_candidates_from_stun_targets targets port_map prediction).
Proof.
  assert (Hp : forall ts, every P (probe_targets ts prediction)).
  { induction ts as [|t ts IH]; cbn [probe_targets]; each; apply IH || apply discover_reflexive_each. }
  unfold gather_candidates_from_stun_targets, upnp_candidate, Candidates.host.
  each; apply Hp || apply primary_local_ip_each || base Hhost.
Qed.

Lemma offer_each endpoint stun port_map prediction :
  every P (offer_provider_candidates endpoint stun port_map prediction port).
Proof.
  unfold offer_provider_candidates.
  each; apply bind_socket_each || apply resolve_live_each || apply gather_each || apply client_send_each.
Qed.

Lemma check_each endpoint stun remapped : every P (resolve_stun_and_check endpoint stun port remapped).
Proof.
  unfold resolve_stun_and_check, check_reflexive_port, Candidates.host.
  each; apply bind_socket_each || apply discover_reflexive_each || base Hhost.
Qed.
End Facts.
