(* ===== verification/Forwarding.v ===== *)
(** * Forwarded connections ([vendored-from-bore/client.rs], [secret.rs])

    The task of a forwarded connection at both its ends: who opens the stream
    announces it, and the provider reads the announcement before it splices the
    stream to the local service. *)

From stdpp Require Import list.
From S2P Require Import Prelude Streams Json Proto Auth Text Paths Transport Fs Frames Stun Candidates Control Direct DirectTheorems RefTransport Dial.

(** What the [basicauth] module answers. *)
Inductive Gate : Type := Forward (prefix : bytes) | Reject.

(** [BasicGate] reads the head of a request off the stream, [CopyBidirectional] is
    [tokio]'s, with the tap of the access log: its key and the caller's address.
    [OpenSub] opens a substream on a carrier, [OpenQuic] a stream of a direct
    connection; both are handles, by number. *)
Inductive serve_op `{BasicAuths} : Type :=
| BasicGate (auth : BasicAuth)
| LocalWriteAll (buf : bytes)
| CopyBidirectional (buf : N) (tap : option (string * option string))
| OpenSub (carrier : nat)
| OpenQuic (conn : nat).

Definition serve_sig `{BasicAuths} : sig :=
  Sig serve_op (fun o =>
    match o with
    | BasicGate _ => ares Gate
    | LocalWriteAll _ | CopyBidirectional _ _ => result io_error unit
    | OpenSub _ => result io_error unit
    | OpenQuic _ => ares unit
    end).

(** [StreamOpener] of [secret.rs]. *)
Inductive StreamOpener : Type := MuxOpener (carrier : nat) | DirectOpener (conn : nat).

#[export] Instance StreamOpener_eq : EqDecision StreamOpener.
Proof. solve_decision. Defined.

Section Forwarding.
Context `{BasicAuths} (utf8_error : bytes -> string) (proxy_buffer : N).

Abbreviation L := (serve_sig ⊕ dial_sig).
Abbreviation net := (stream_sig ⊕ L).

Definition at_serve (o : serve_op) : prog net (resp (s := serve_sig) o) := local (L := L) (inl o).

(** What [Client::handle_connection] does once the marker is read. *)
Definition serve_locally (self : Client) (real_ip : option string) : prog net (ares unit) :=
  let? gate :=
    match client_basic_auth self with
    | Some auth => at_serve (BasicGate auth)
    | None => Ret (Ok (Forward []))
    end in
  match gate with
  | Reject => Ret (Ok tt)
  | Forward prefix =>
      let? _ := connect_with_timeout (local_host self) (local_port self) in
      let? _ := (if nlen prefix =? 0 then Ret (Ok tt)
                 else io_try (at_serve (LocalWriteAll prefix)))%N in
      let tap :=
        if access_logger self then
          Some (default (pretty (remote_port self)) (vhost_subdomain self),
                match real_ip with Some "" | None => None | Some ip => Some ip end)
        else None in
      io_try (at_serve (CopyBidirectional proxy_buffer tap))
  end.

Definition handle_connection (self : Client) : prog net (ares unit) :=
  let? real_ip := io_try (read_stream_ready utf8_error (expects_ip self)) in
  serve_locally self real_ip.

(** [StreamOpener::open]. *)
Definition open_data (opener : StreamOpener) : prog net (ares unit) :=
  match opener with
  | MuxOpener carrier =>
      let! r := at_serve (OpenSub carrier) in
      Ret (context "failed to open stream to server" (map_err AnyIo r))
  | DirectOpener conn => at_serve (OpenQuic conn)
  end.

(** [forward] of [secret.rs], where a consumer's connection is opened. *)
Definition forward (opener : StreamOpener) : prog net (ares unit) :=
  let? _ := open_data opener in
  let? _ := io_try (stream (WriteAll [STREAM_READY])) in
  let? _ := io_try (stream Flush) in
  io_try (at_serve (CopyBidirectional proxy_buffer None)).

(** [relay] of [secret.rs] once a carrier was picked, towards the provider. *)
Definition relay_to_provider (carrier : nat) : prog net (ares unit) :=
  let? _ := (let! r := at_serve (OpenSub carrier) in
             Ret (context "provider unavailable" (map_err AnyIo r))) in
  let? _ := io_try (stream (WriteAll [STREAM_READY])) in
  io_try (at_serve (CopyBidirectional proxy_buffer None)).

(** ** What a program does locally *)

Definition off_stream (o : op net) : Prop := match o with inl _ => False | inr _ => True end.

Lemma behaves_off_stream {St A} m (h : handler L St) (p : prog net A) st :
  every off_stream p -> exists a st', behaves m h p st [] a st'.
Proof.
  revert st; induction p as [a|[o|o] k IH]; intros st; simpl.
  - intros _. exists a, st. constructor.
  - by intros [[] _].
  - intros [_ Hk]. destruct (IH (h o st).1 (h o st).2 (Hk _)) as (a & st' & Hb).
    exists a, st'. by apply (bh_local m h o).
Qed.

Lemma serve_locally_off_stream self real_ip : every off_stream (serve_locally self real_ip).
Proof.
  unfold serve_locally, connect_with_timeout, io_try.
  apply every_try; [by destruct (client_basic_auth self)|]. intros [prefix|]; [|done].
  apply every_try; [done|]. intros _.
  apply every_try; [by destruct (_ =? _)%N|]. done.
Qed.
End Forwarding.

(** ** Both ends of a forwarded stream *)

(** Forwarded streams arrive whole.  When the opener of a stream and the client
    agree on whether the caller's address is sent, the client reads the marker and
    nothing else before it serves the stream: both programs end in every
    execution, and what is spliced to the local service starts at the payload. *)
Theorem forwarded_stream_arrives_whole `{BasicAuths} {L1 St1 St2} (h1 : handler L1 St1)
  (h2 : handler (serve_sig ⊕ dial_sig) St2) utf8_error buf (self : Client) forward_ip st1 st2 :
  expects_ip self = bool_decide (is_Some forward_ip) ->
  (forall ip, forward_ip = Some ip -> valid_utf8 (cut_ip ip) = true) ->
  exists r st2',
    ends_in h1 h2
      (Net (write_stream_ready forward_ip) st1 (handle_connection utf8_error buf self) st2 [] [])
      (final (Ok tt) st1 r st2') /\
    forall payload out sch, exists sch',
      run (hsum mem_stream h2) (handle_connection utf8_error buf self)
        (Mem (ready_wire forward_ip ++ payload) out sch, st2) =
      (r, (Mem payload out sch', st2')).
Proof.
  intros Hs Hu.
  destruct (behaves_off_stream Exact h2 (serve_locally buf self (cut_ip <$> forward_ip)) st2)
    as (r & st2' & Hb); [apply serve_locally_off_stream|].
  assert (Hr : behaves Exact h2 (handle_connection utf8_error buf self) st2
                 (rcvs (ready_wire forward_ip)) r st2').
  { unfold handle_connection, io_try. rewrite Hs. rewrite <- (app_nil_r (rcvs _)).
    eapply behaves_try; [|exact Hb]. rewrite <- (app_nil_r (rcvs _)).
    eapply behaves_bind; [by apply read_ready_behaves|]. constructor. }
  exists r, st2'. split.
  - eapply dual_peers_end; [apply write_ready_behaves|exact Hr|]. by autorewrite with rb.
  - intros payload out sch. destruct (behaves_mem h2 _ _ _ _ _ Hr payload out sch) as [sch' E].
    exists sch'. revert E. rewrite received_rcvs, sent_rcvs, app_nil_r. done.
Qed.

(** The marker a relay writes, and what the client makes of it. *)
Lemma relay_announces `{BasicAuths} {St} (h : handler (serve_sig ⊕ dial_sig) St) buf carrier i o sch st :
  (h (inl (OpenSub carrier)) st).1 = Ok tt ->
  outbox (run (hsum mem_stream h) (relay_to_provider buf carrier) (Mem i o sch, st)).2.1 = o ++ ready_wire None.
Proof.
  intros E. unfold relay_to_provider, io_try, ptry. cbn.
  match goal with |- context [map_err AnyIo ?x] => replace x with (@Ok io_error unit tt) by (symmetry; exact E) end.
  done.
Qed.

Lemma marker_without_address `{BasicAuths} {St} (h : handler (serve_sig ⊕ dial_sig) St) utf8_error buf
  (self : Client) n rest out sch st :
  expects_ip self = true ->
  0 < N.to_nat (Byte.to_N n) <= length rest ->
  valid_utf8 (String.string_of_list_byte (take (N.to_nat (Byte.to_N n)) rest)) = true ->
  exists r st' sch',
    run (hsum mem_stream h) (handle_connection utf8_error buf self)
      (Mem (ready_wire None ++ n :: rest) out sch, st) =
    (r, (Mem (drop (N.to_nat (Byte.to_N n)) rest) out sch', st')).
Proof.
  intros Hs Hn Hu. set (len := N.to_nat (Byte.to_N n)) in *.
  set (ip := String.string_of_list_byte (take len rest)).
  destruct (behaves_off_stream Exact h (serve_locally buf self (Some ip)) st) as (r & st' & Hb);
    [apply serve_locally_off_stream|].
  assert (Hr : behaves Exact h (handle_connection utf8_error buf self) st
                 (rcvs [STREAM_READY] ++ rcvs [n] ++ rcvs (take len rest) ++ []) r st').
  { unfold handle_connection, io_try. rewrite Hs. rewrite <- (app_nil_r (_ ++ _)).
    eapply behaves_try; [|exact Hb]. rewrite <- (app_nil_r (_ ++ _)).
    eapply behaves_bind with (a := Ok (Some ip)); [|constructor]. cbn [opened].
    unfold read_stream_ready. apply read_all_behaves; [done|]. cbn [negb bool_decide].
    rewrite bool_decide_true by done. cbn [negb]. apply read_all_behaves; [done|].
    assert (El : from_le_bytes [n] = Byte.to_N n) by (unfold from_le_bytes; simpl; lia).
    rewrite El. destruct (N.eqb_spec (Byte.to_N n) 0) as [E0|_]; [unfold len in Hn; lia|].
    apply read_all_behaves; [unfold nlen; rewrite length_take; unfold len in *; lia|].
    fold ip. fold ip in Hu. rewrite Hu. constructor. }
  destruct (behaves_mem h _ _ _ _ _ Hr (drop len rest) out sch) as [sch' E].
  exists r, st', sch'. revert E. autorewrite with rb. rewrite <- !app_assoc, take_drop. done.
Qed.

(** A provider that logs loses payload.  Every secret provider that is constructed
    with an access logger, whatever the server and the network answer, expects the
    caller's address on each stream; a relay sends only the marker.  The client
    then takes the first byte of the payload for a length and that many bytes of
    it for the address, and serves what is left. *)
Theorem logged_provider_swallows_payload `{Json ClientMessage.ClientMessage} `{Json ServerMessage.ServerMessage}
  `{Crypto} `{StrDebug} `{HexText} `{Ipv6Text} `{ServerNames} `{MessageDebug} `{BasicAuths} {T : sig}
  `{Has framed_sig T} `{Has timer_sig T} `{Has dial_sig T} `{Has extra_sig T} `{Has udp_sig T}
  `{Has host_sig T} `{Has bind_sig T} {St}
  uuid_text local_host local_port to id secret insecure udp stun_server port_map port_prediction udp_port
  timeout max_conns carriers meta (h : handler (serve_sig ⊕ dial_sig) St) utf8_error buf :
  always (fun r => forall self, r = Ok self ->
      expects_ip self = true /\
      forall n rest out sch st,
        0 < N.to_nat (Byte.to_N n) <= length rest ->
        valid_utf8 (String.string_of_list_byte (take (N.to_nat (Byte.to_N n)) rest)) = true ->
        exists r st' sch',
          run (hsum mem_stream h) (handle_connection utf8_error buf self)
            (Mem (ready_wire None ++ n :: rest) out sch, st) =
          (r, (Mem (drop (N.to_nat (Byte.to_N n)) rest) out sch', st')))
    (new_secret_provider (T := T) uuid_text local_host local_port to id secret insecure udp stun_server
       port_map port_prediction udp_port timeout max_conns carriers meta true).
Proof.
  unfold new_secret_provider.
  repeat (apply always_then; [done..|intros ?]).
  simpl. intros self [= <-]. split; [done|]. intros. by apply marker_without_address.
Qed.
