(* ===== verification/FrameNet.v ===== *)
(** * Two peers on a framed stream

    The frames two programs exchange over the delimited control stream, and the
    network that joins them: each direction is a queue of whole frames, so that a
    receive takes the oldest one.  As for bytes in [Streams.v], peers whose traces
    are dual end in every execution; frames the left one never reads may stay in
    flight. *)

From stdpp Require Import list.
From S2P Require Import Prelude Streams Control.

(** A frame sent or received. *)
Inductive fact : Type := FSnd (f : bytes) | FRcv (f : bytes).

Definition fdual (τ : list fact) : list fact :=
  (fun a => match a with FSnd f => FRcv f | FRcv f => FSnd f end) <$> τ.

Definition frcvs (fs : list bytes) : list fact := FRcv <$> fs.
Definition fsnds (fs : list bytes) : list fact := FSnd <$> fs.

Lemma fdual_fdual τ : fdual (fdual τ) = τ.
Proof. unfold fdual. induction τ as [|[f|f] τ IH]; simpl; by f_equal. Qed.

Lemma fdual_app τ1 τ2 : fdual (τ1 ++ τ2) = fdual τ1 ++ fdual τ2.
Proof. apply fmap_app. Qed.

Lemma fdual_frcvs fs : fdual (frcvs fs) = fsnds fs.
Proof. unfold fdual, frcvs, fsnds. by rewrite <- list_fmap_compose. Qed.

Lemma fdual_fsnds fs : fdual (fsnds fs) = frcvs fs.
Proof. unfold fdual, frcvs, fsnds. by rewrite <- list_fmap_compose. Qed.

(** ** Behaviour *)

Section Talks.
Context {L : sig} {St : Type} (h : handler L St).

Abbreviation prg := (prog (framed_sig ⊕ L)).

(** [talks p st τ a st']: from local state [st], on a stream that delivers, [p]
    sends and receives the frames of [τ], in that order, and returns [a]. *)
Inductive talks {A} : prg A -> St -> list fact -> A -> St -> Prop :=
| tk_ret a st : talks (Ret a) st [] a st
| tk_local o k st τ a st' :
    talks (k (h o st).1) (h o st).2 τ a st' ->
    talks (Op (S := framed_sig ⊕ L) (inr o) k) st τ a st'
| tk_traced d s k st τ a st' :
    talks (k tt) st τ a st' ->
    talks (Op (S := framed_sig ⊕ L) (inl (Traced d s)) k) st τ a st'
| tk_send f k st τ a st' :
    talks (k (Ok tt)) st τ a st' ->
    talks (Op (S := framed_sig ⊕ L) (inl (FramedSend f)) k) st (FSnd f :: τ) a st'
| tk_next f k st τ a st' :
    talks (k (Some (Ok f))) st τ a st' ->
    talks (Op (S := framed_sig ⊕ L) (inl FramedNext) k) st (FRcv f :: τ) a st'.

Lemma talks_eq {A} (p : prg A) st τ τ' a st' : talks p st τ a st' -> τ = τ' -> talks p st τ' a st'.
Proof. by intros ? <-. Qed.

Lemma talks_bind {A B} (p : prg A) (f : A -> prg B) st τ1 a st1 τ2 b st2 :
  talks p st τ1 a st1 -> talks (f a) st1 τ2 b st2 -> talks (pbind p f) st (τ1 ++ τ2) b st2.
Proof. intros H Hf. induction H; simpl; [done|econstructor; eauto..]. Qed.

Lemma talks_then {E A B} (p : prg (result E A)) (f : A -> prg (result E B)) st τ1 a st1 τ2 b st2 :
  talks p st τ1 (Ok a) st1 -> talks (f a) st1 τ2 b st2 -> talks (ptry p f) st (τ1 ++ τ2) b st2.
Proof. intros H1 H2. unfold ptry. eapply talks_bind; [exact H1|]. exact H2. Qed.

Lemma talks_stops {E A B} (p : prg (result E A)) (f : A -> prg (result E B)) st τ e st1 :
  talks p st τ (Err e) st1 -> talks (ptry p f) st τ (Err e) st1.
Proof.
  intros H1. rewrite <- (app_nil_r τ). unfold ptry. eapply talks_bind; [exact H1|]. constructor.
Qed.

(** A program that only works locally. *)
Definition off_frames (o : op (framed_sig ⊕ L)) : Prop :=
  match o with inl _ => False | inr _ => True end.

Lemma talks_off_frames {A} (p : prg A) st :
  every off_frames p -> exists a st', talks p st [] a st'.
Proof.
  revert st; induction p as [a|[o|o] k IH]; intros st; simpl.
  - intros _. exists a, st. constructor.
  - by intros [[] _].
  - intros [_ Hk]. destruct (IH (h o st).1 (h o st).2 (Hk _)) as (a & st' & Hb).
    exists a, st'. by apply tk_local.
Qed.
End Talks.

(** ** The network *)

Record fnet {L1 L2 : sig} {St1 St2 A1 A2 : Type} : Type := FNet {
  fn_left : prog (framed_sig ⊕ L1) A1;
  fn_lst : St1;
  fn_right : prog (framed_sig ⊕ L2) A2;
  fn_rst : St2;
  fn_l2r : list bytes;
  fn_r2l : list bytes;
}.
Arguments fnet : clear implicits.
Arguments FNet {L1 L2 St1 St2 A1 A2}.

(** One step of a peer: what it puts into the outgoing queue and takes from the
    incoming one. *)
Definition fstep {L St A} (h : handler L St) (p : prog (framed_sig ⊕ L) A) (st : St)
  (out inn : list bytes) (p' : prog (framed_sig ⊕ L) A) (st' : St) : Prop :=
  match p with
  | Ret _ => False
  | Op o k =>
      match o return (resp (s := framed_sig ⊕ L) o -> prog _ A) -> Prop with
      | inr o => fun k => out = [] /\ inn = [] /\ p' = k (h o st).1 /\ st' = (h o st).2
      | inl (Traced _ _) => fun k => out = [] /\ inn = [] /\ p' = k tt /\ st' = st
      | inl (FramedSend f) => fun k => out = [f] /\ inn = [] /\ p' = k (Ok tt) /\ st' = st
      | inl FramedNext => fun k => exists f, out = [] /\ inn = [f] /\ p' = k (Some (Ok f)) /\ st' = st
      end k
  end.

Section TwoPeers.
Context {L1 L2 : sig} {St1 St2 A1 A2 : Type}.
Context (h1 : handler L1 St1) (h2 : handler L2 St2).

Abbreviation fnet := (fnet L1 L2 St1 St2 A1 A2).

Inductive fnet_step : fnet -> fnet -> Prop :=
| fns_left p st out inn p' st' r rst q1 q2 :
    fstep h1 p st out inn p' st' ->
    fnet_step (FNet p st r rst q1 (inn ++ q2)) (FNet p' st' r rst (q1 ++ out) q2)
| fns_right p st out inn p' st' l lst q1 q2 :
    fstep h2 p st out inn p' st' ->
    fnet_step (FNet l lst p st (inn ++ q1) q2) (FNet l lst p' st' q1 (q2 ++ out)).

(** What is left of two traces, given what is in flight. *)
Definition fin_flight (τ1 τ2 : list fact) (l2r r2l : list bytes) : Prop :=
  (exists σ, τ1 = frcvs r2l ++ σ /\ τ2 = fdual σ /\ l2r = []) \/
  (exists σ, τ2 = frcvs l2r ++ σ /\ τ1 = fdual σ /\ r2l = []).

Lemma fin_flight_sym τ1 τ2 q1 q2 : fin_flight τ1 τ2 q1 q2 -> fin_flight τ2 τ1 q2 q1.
Proof. intros [H|H]; [right|left]; exact H. Qed.

Lemma fin_flight_send f τ1 τ2 q1 q2 :
  fin_flight (FSnd f :: τ1) τ2 q1 q2 -> fin_flight τ1 τ2 (q1 ++ [f]) q2.
Proof.
  intros [(σ & E & -> & ->)|(σ & -> & E & ->)]; right.
  - destruct q2 as [|g q2]; [|done]. simpl in E. subst σ. exists (fdual τ1).
    by rewrite fdual_fdual.
  - destruct σ as [|[g|g] σ]; simplify_eq/=. exists σ. split_and!; [|done..].
    unfold frcvs. rewrite fmap_app, <- app_assoc. done.
Qed.

Lemma fin_flight_recv f τ1 τ2 q1 q2 :
  fin_flight (FRcv f :: τ1) τ2 q1 q2 ->
  (exists q, q2 = f :: q /\ q1 = [] /\ fin_flight τ1 τ2 [] q) \/
  (q2 = [] /\ exists σ, τ2 = frcvs q1 ++ FSnd f :: σ).
Proof.
  intros [(σ & E & -> & ->)|(σ & -> & E & ->)].
  - destruct q2 as [|g q2]; simplify_eq/=; [right; by eauto|].
    left. exists q2. split_and!; [done..|]. left. eauto.
  - right. split; [done|]. destruct σ as [|[g|g] σ]; simplify_eq/=. eauto.
Qed.
End TwoPeers.

Section Coupled.
Context {L1 L2 : sig} {St1 St2 A1 A2 : Type}.
Context (h1 : handler L1 St1) (h2 : handler L2 St2).

Abbreviation fnet := (fnet L1 L2 St1 St2 A1 A2).

(** A step of a peer follows its trace. *)
Lemma talks_step {L St A} (h : handler L St) (p : prog (framed_sig ⊕ L) A) st τ a st' out inn p1 st1 :
  talks h p st τ a st' -> fstep h p st out inn p1 st1 ->
  (out = [] /\ inn = [] /\ talks h p1 st1 τ a st') \/
  (exists f τ', out = [f] /\ inn = [] /\ τ = FSnd f :: τ' /\ talks h p1 st1 τ' a st') \/
  (exists f g τ', out = [] /\ inn = [f] /\ τ = FRcv g :: τ' /\ (f = g -> talks h p1 st1 τ' a st')).
Proof.
  intros H Hs. destruct H; simpl in Hs; [done|..]; destruct_and?; subst; eauto 10.
  destruct Hs as (g & -> & -> & -> & ->). right; right. eexists _, _, _.
  split_and!; [done..|]. by intros ->.
Qed.

(** A peer is finished, or can step without receiving, or waits for a frame. *)
Lemma talks_progress {L St A} (h : handler L St) (p : prog (framed_sig ⊕ L) A) st τ a st' :
  talks h p st τ a st' ->
  (p = Ret a /\ st = st' /\ τ = []) \/
  (exists out p1 st1, fstep h p st out [] p1 st1) \/
  (exists f τ' p1, τ = FRcv f :: τ' /\ fstep h p st [] [f] p1 st).
Proof.
  intros H. destruct H; [by left|right..]; [left|left|left|right]; simpl; eauto 10.
Qed.

(** Both peers have their traces to go; [rest] is what the left one leaves. *)
Definition fcoupled (n : fnet) (a1 : A1) (s1 : St1) (a2 : A2) (s2 : St2) (rest : list bytes) : Prop :=
  exists τ1 τ2,
    talks h1 (fn_left n) (fn_lst n) τ1 a1 s1 /\
    talks h2 (fn_right n) (fn_rst n) τ2 a2 s2 /\
    fin_flight (τ1 ++ frcvs rest) τ2 (fn_l2r n) (fn_r2l n).

Lemma fcoupled_step n n' a1 s1 a2 s2 rest :
  fcoupled n a1 s1 a2 s2 rest -> fnet_step h1 h2 n n' -> fcoupled n' a1 s1 a2 s2 rest.
Proof.
  intros (τ1 & τ2 & H1 & H2 & Hf) Hs. destruct Hs as [p st out inn p' st' r rst q1 q2 Hs
    |p st out inn p' st' l lst q1 q2 Hs]; simpl in *.
  - destruct (talks_step _ _ _ _ _ _ _ _ _ _ H1 Hs)
      as [(-> & -> & H)|[(f & τ & -> & -> & -> & H)|(f & g & τ & -> & -> & -> & H)]].
    + exists τ1, τ2. by rewrite app_nil_r.
    + exists τ, τ2. split_and!; [done..|]. by apply fin_flight_send.
    + apply fin_flight_recv in Hf as [(q & [= -> <-] & -> & Hf)|([=] & _)].
      exists τ, τ2. split_and!; auto.
  - destruct (talks_step _ _ _ _ _ _ _ _ _ _ H2 Hs)
      as [(-> & -> & H)|[(f & τ & -> & -> & -> & H)|(f & g & τ & -> & -> & -> & H)]].
    + exists τ1, τ2. by rewrite app_nil_r.
    + exists τ1, τ. split_and!; [done..|]. by apply fin_flight_sym, fin_flight_send, fin_flight_sym.
    + apply fin_flight_sym, fin_flight_recv in Hf as [(q & [= -> <-] & -> & Hf)|([=] & _)].
      exists τ1, τ. split_and!; auto. by apply fin_flight_sym.
Qed.

Definition ffinal (a1 : A1) (s1 : St1) (a2 : A2) (s2 : St2) (rest : list bytes) : fnet :=
  FNet (Ret a1) s1 (Ret a2) s2 [] rest.

Lemma fcoupled_progress n a1 s1 a2 s2 rest :
  fcoupled n a1 s1 a2 s2 rest -> n = ffinal a1 s1 a2 s2 rest \/ exists n', fnet_step h1 h2 n n'.
Proof.
  destruct n as [p st r rst q1 q2]. intros (τ1 & τ2 & H1 & H2 & Hf). simpl in *.
  destruct (talks_progress _ _ _ _ _ _ H1) as [(-> & -> & ->)|[(out & p1 & st1 & Hs)|(f & τ & p1 & -> & Hs)]];
    [|right; eexists; by eapply (fns_left _ _ _ _ _ [])|].
  - destruct (talks_progress _ _ _ _ _ _ H2) as [(-> & -> & ->)|[(out & p1 & st1 & Hs)|(f & τ & p1 & -> & Hs)]];
      [|right; eexists; by eapply (fns_right _ _ _ _ _ [])|].
    + left. simpl in Hf. unfold ffinal.
      destruct Hf as [(σ & E & E2 & ->)|(σ & E & E2 & ->)].
      * symmetry in E2. apply fmap_nil_inv in E2 as ->. rewrite app_nil_r in E.
        apply list_fmap_eq_inj in E as ->; [done|]. by intros ? ? [=].
      * symmetry in E. apply app_eq_nil in E as [->%fmap_nil_inv ->].
        by apply fmap_nil_inv in E2 as ->.
    + right. apply fin_flight_sym, fin_flight_recv in Hf as [(q & -> & -> & Hf)|(-> & σ & E)].
      * eexists. by eapply (fns_right _ _ _ _ _ [f]).
      * exfalso. assert (Hin : FSnd f ∈ frcvs rest) by (simpl in E; rewrite E; set_solver).
        by apply list_elem_of_fmap in Hin as (? & [=] & _).
  - simpl in Hf. apply fin_flight_recv in Hf as [(q & -> & -> & Hf)|(-> & σ & ->)].
    + right. eexists. by eapply (fns_left _ _ _ _ _ [f]).
    + destruct (talks_progress _ _ _ _ _ _ H2) as [(_ & _ & E)|[(out & p2 & st2 & Hs2)|(g & τ' & p2 & E & Hs2)]].
      * by destruct q1.
      * right; eexists; by eapply (fns_right _ _ _ _ _ []).
      * destruct q1 as [|g' q1]; simplify_eq/=. right. eexists. by eapply (fns_right _ _ _ _ _ [g]).
Qed.

Lemma fstep_smaller {L St A} (h : handler L St) o
  (k : resp (s := framed_sig ⊕ L) o -> prog (framed_sig ⊕ L) A) st out inn p' st' :
  fstep h (Op o k) st out inn p' st' -> exists r, p' = k r.
Proof. destruct o as [[]|]; simpl; naive_solver. Qed.

Lemma fnet_terminates (n : fnet) : Acc (fun n' n => fnet_step h1 h2 n n') n.
Proof.
  destruct n as [p st r rst q1 q2]. revert st r rst q1 q2.
  induction p as [a|o k IHp]; intros st r; revert st;
    induction r as [b|o' k' IHr]; intros st rst q1 q2;
    constructor; intros n' Hs; inversion Hs; subst;
    match goal with
    | H : fstep _ (Ret _) _ _ _ _ _ |- _ => by destruct H
    | H : fstep _ (Op _ _) _ _ _ _ _ |- _ => apply fstep_smaller in H as [x ->]; eauto
    end.
Qed.

(** Every execution from [start] is finite, [stop] is reached, and no execution
    stops anywhere else. *)
Definition fends_in (start stop : fnet) : Prop :=
  Acc (fun n' n => fnet_step h1 h2 n n') start /\
  rtc (fnet_step h1 h2) start stop /\
  forall n, rtc (fnet_step h1 h2) start n -> n = stop \/ exists n', fnet_step h1 h2 n n'.

Lemma dual_talkers_end p1 p2 st1 st2 τ a1 s1 a2 s2 rest :
  talks h1 p1 st1 τ a1 s1 -> talks h2 p2 st2 (fdual τ ++ fsnds rest) a2 s2 ->
  fends_in (FNet p1 st1 p2 st2 [] []) (ffinal a1 s1 a2 s2 rest).
Proof.
  intros H1 H2.
  assert (Hc : fcoupled (FNet p1 st1 p2 st2 [] []) a1 s1 a2 s2 rest).
  { exists τ, (fdual τ ++ fsnds rest). split_and!; [done..|]. left. exists (τ ++ frcvs rest).
    split_and!; [done| |done]. by rewrite fdual_app, fdual_frcvs. }
  assert (Hend : forall n, rtc (fnet_step h1 h2) (FNet p1 st1 p2 st2 [] []) n ->
    n = ffinal a1 s1 a2 s2 rest \/ exists n', fnet_step h1 h2 n n').
  { intros n Hn. eapply fcoupled_progress.
    revert Hc. clear H1 H2. induction Hn; eauto using fcoupled_step. }
  split_and!; [apply fnet_terminates| |done].
  revert Hend. generalize (FNet p1 st1 p2 st2 [] []) as n. clear Hc H1 H2.
  intros n. induction (fnet_terminates n) as [n _ IH]. intros Hend.
  destruct (Hend n) as [->|[n' Hn]]; [constructor..|].
  eapply rtc_l; [exact Hn|]. apply IH; [done|]. intros n'' Hr. apply Hend. by eapply rtc_l.
Qed.
End Coupled.
