(* ===== verification/DialTheorems.v ===== *)
(** * Clients at the front door ([vendored-from-bore/client.rs], [server.rs])

    A client of a public tunnel and the server's front door over one framed
    stream: they agree on the port and on the carriers, or on the refusal. *)

From stdpp Require Import list.
From S2P Require Import Prelude Streams Json Proto Auth Pool Shared Transport Fs Frames Addresses Stun Candidates Control Rendezvous Front FrontTheorems TransportDemo RefTransport Dial FrameNet.
Import ClientMessage(ClientMessage) ServerMessage(ServerMessage).

(** ** Conversations *)

(** The codec turns [m] into [b] and back. *)
Definition codes {M} `{Json M} (m : M) (b : bytes) : Prop := to_vec m = Ok b /\ from_slice b = Ok m.

(** Whatever its state, the environment answers [o] with [a]. *)
Definition answers {S : sig} {St : Type} (h : handler S St) (o : op S) (a : resp o) : Prop :=
  forall st, (h o st).1 = a.

(** From any local state, [p] has the trace [τ] and returns [a]. *)
Definition does {L St A} (h : handler L St) (p : prog (framed_sig ⊕ L) A) (τ : list fact) (a : A) : Prop :=
  forall st, exists st', talks h p st τ a st'.

Section Does.
Context {R : sig} {St : Type} (h : handler (timer_sig ⊕ R) St).

Abbreviation L := (timer_sig ⊕ R).
Abbreviation prg := (prog (framed_sig ⊕ L)).

Lemma does_ret {A} (a : A) : does h (Ret a) [] a.
Proof. intros st. exists st. constructor. Qed.

Lemma does_bind {A B} (p : prg A) (f : A -> prg B) τ1 a τ2 b :
  does h p τ1 a -> does h (f a) τ2 b -> does h (pbind p f) (τ1 ++ τ2) b.
Proof.
  intros H1 H2 st. destruct (H1 st) as [st1 T1]. destruct (H2 st1) as [st2 T2].
  exists st2. by eapply talks_bind.
Qed.

Lemma does_then {E A B} (p : prg (result E A)) (f : A -> prg (result E B)) τ1 a τ2 b :
  does h p τ1 (Ok a) -> does h (f a) τ2 b -> does h (ptry p f) (τ1 ++ τ2) b.
Proof. intros H1 H2. unfold ptry. eapply does_bind; [exact H1|]. exact H2. Qed.

Lemma does_stops {E A B} (p : prg (result E A)) (f : A -> prg (result E B)) τ e :
  does h p τ (Err e) -> does h (ptry p f) τ (Err e).
Proof. intros H1 st. destruct (H1 st) as [st1 T1]. exists st1. by apply talks_stops. Qed.

Lemma does_call {A} (o : op L) a (k : resp o -> prg A) τ b :
  answers h o a -> does h (k a) τ b -> does h (Op (S := framed_sig ⊕ L) (inr o) k) τ b.
Proof.
  intros Ha Hk st. destruct (Hk (h o st).2) as [st' Ht]. exists st'. apply tk_local. by rewrite Ha.
Qed.

End Does.

(** The next local operation is answered as [H] says. *)
Ltac answered H := refine (does_call _ _ _ _ _ _ H _); cbn.

Section Messages.
Context {R : sig} {St : Type} (h : handler (timer_sig ⊕ R) St).

Abbreviation L := (timer_sig ⊕ R).
Abbreviation prg := (prog (framed_sig ⊕ L)).

Lemma does_traced {A} d s (k : unit -> prg A) τ b :
  does h (k tt) τ b -> does h (Op (S := framed_sig ⊕ L) (inl (Traced d s)) k) τ b.
Proof. intros Hk st. destruct (Hk st) as [st' Ht]. exists st'. by apply tk_traced. Qed.

Lemma does_next {A} f (k : option (result string bytes) -> prg A) τ b :
  does h (k (Some (Ok f))) τ b -> does h (Op (S := framed_sig ⊕ L) (inl FramedNext) k) (FRcv f :: τ) b.
Proof. intros Hk st. destruct (Hk st) as [st' Ht]. exists st'. by apply tk_next. Qed.

Lemma does_send {A} f (k : result string unit -> prg A) τ b :
  does h (k (Ok tt)) τ b -> does h (Op (S := framed_sig ⊕ L) (inl (FramedSend f)) k) (FSnd f :: τ) b.
Proof. intros Hk st. destruct (Hk st) as [st' Ht]. exists st'. by apply tk_send. Qed.

(** No deadline passes. *)
Definition punctual : Prop := forall secs, answers h (inl (Expires secs)) false.

Lemma recv_does {M} `{Json M} (summary : M -> string) m b :
  punctual -> codes m b -> does h (recv_timeout summary) [FRcv b] (Ok (Some m)).
Proof.
  intros Hp [_ Hm]. unfold recv_timeout, delimited_recv, ptry. cbn.
  answered (Hp NETWORK_TIMEOUT). apply does_traced.
  answered (Hp NETWORK_TIMEOUT). apply does_next. cbn. rewrite Hm. cbn.
  answered (Hp NETWORK_TIMEOUT). apply does_traced. apply does_ret.
Qed.

Lemma send_does {M} `{Json M} (summary : M -> string) m b :
  codes m b -> does h (delimited_send summary m) [FSnd b] (Ok tt).
Proof.
  intros [Hm _]. unfold delimited_send, ptry. cbn. apply does_traced. rewrite Hm. cbn.
  apply does_send. apply does_ret.
Qed.
End Messages.

(** ** The client *)

Definition dialing : sig := framed_sig ⊕ (timer_sig ⊕ (dial_sig ⊕ extra_sig)).

Section ClientSide.
Context `{Json ClientMessage} `{Json ServerMessage} `{Crypto}.
Context `{StrDebug} `{HexText} `{Ipv6Text} (uuid_text : Uuid -> string).
Context `{ServerNames} `{MessageDebug} `{BasicAuths} (clamp_direct : N -> N).
Context {St : Type} (h : handler (timer_sig ⊕ (dial_sig ⊕ extra_sig)) St) (Ht : punctual h).

(** The network lets a client through. *)
Definition connects (endpoint : Endpoint) : Prop :=
  answers h (inr (inl (TcpConnectT NETWORK_TIMEOUT (Transport.host endpoint) (Transport.port endpoint))))
    (InTime (Ok tt)) /\
  answers h (inr (inl OpenStream)) (Ok tt) /\
  (Transport.tls endpoint = true ->
   answers h (inr (inl TlsVersions)) (Ok tt) /\
   exists name, server_name_try_from (Transport.host endpoint) = Ok name /\
     forall cfg, answers h (inr (inl (TlsConnectT NETWORK_TIMEOUT cfg name))) (InTime (Ok tt))).

Lemma connect_does endpoint insecure :
  connects endpoint -> exists s, does h (connect (T := dialing) endpoint insecure) [] (Ok s).
Proof.
  intros (Htcp & _ & Htls). unfold connect, connect_with_timeout, client_config, dial, ptry. cbn.
  destruct (Transport.tls endpoint) eqn:E; cbn.
  - destruct (Htls eq_refl) as (Hv & name & Hn & Hc). rewrite Hn.
    exists (Tls tt). answered Htcp. answered Hv.
    match goal with |- does _ (Op (inr (inr (inl (TlsConnectT _ ?cfg _)))) _) _ _ => answered (Hc cfg) end.
    apply does_ret.
  - exists (Plain tt). answered Htcp. apply does_ret.
Qed.

(** What the handshake looks like from the client. *)
Definition proving (secret : option string) (c : Uuid) (wc : ClientMessage -> bytes)
  (ws : ServerMessage -> bytes) : list fact :=
  match secret with
  | Some s => [FRcv (ws (ServerMessage.Challenge c));
               FSnd (wc (ClientMessage.Authenticate (answer (authenticator_new s) c)))]
  | None => []
  end.

Definition proof_codes (secret : option string) (c : Uuid) (wc : ClientMessage -> bytes)
  (ws : ServerMessage -> bytes) : Prop :=
  forall s, secret = Some s ->
    let proof := ClientMessage.Authenticate (answer (authenticator_new s) c) in
    codes (ServerMessage.Challenge c) (ws (ServerMessage.Challenge c)) /\ codes proof (wc proof).

Lemma introduce_does open_error endpoint insecure secret hello c wc ws :
  connects endpoint -> codes hello (wc hello) -> proof_codes secret c wc ws ->
  does h (introduce (T := dialing) uuid_text open_error endpoint insecure secret hello)
    (FSnd (wc hello) :: proving secret c wc ws) (Ok tt).
Proof.
  intros Hc Hh Hp. unfold introduce. destruct (connect_does endpoint insecure Hc) as [s Hs].
  change (?x :: ?l) with ([] ++ [] ++ [x] ++ l).
  apply does_then with (a := s); [done|].
  apply does_then with (a := tt).
  { destruct Hc as (_ & Ho & _). cbn. answered Ho. apply does_ret. }
  apply does_then with (a := tt); [by apply send_does|].
  destruct secret as [sec|]; [|apply does_ret].
  destruct (Hp sec eq_refl) as [Hch Hpr]. unfold client_handshake. simpl proving.
  change [?x; ?y] with ([x] ++ [y]).
  apply does_then with (a := Some (ServerMessage.Challenge c)); [by apply recv_does|].
  by apply send_does.
Qed.

Lemma expect_reply_does {A} accept otherwise m b (r : ares A) :
  codes m b ->
  r = match accept m with
      | Some a => Ok a
      | None => match m with
                | ServerMessage.Error message => Err (AnyMsg ("server error: " +:+ message))
                | ServerMessage.Challenge _ =>
                    Err (AnyMsg "server requires authentication, but no client secret was provided")
                | _ => Err (AnyMsg otherwise)
                end
      end ->
  does h (expect_reply (T := dialing) uuid_text accept otherwise) [FRcv b] r.
Proof.
  intros Hm ->. unfold expect_reply. rewrite <- (app_nil_r [_]).
  apply does_then with (a := Some m); [by apply recv_does|].
  destruct (accept m); [|destruct m]; apply does_ret.
Qed.

(** Extra connection [i] is established exactly if [opens i]; none panics. *)
Definition carriers_settle (opens : nat -> bool) (endpoint : Endpoint) (insecure : bool)
  (secret : option string) (token : string) : Prop :=
  forall i, exists e,
    does h (on_extra (T := dialing) i (open_carrier uuid_text endpoint insecure secret token)) []
      (if opens i then Ok tt else Err e).

Lemma open_carriers_does opens endpoint insecure secret token left i :
  carriers_settle opens endpoint insecure secret token ->
  does h (open_carriers (T := dialing) uuid_text left i endpoint insecure secret token) []
    (Ok (List.filter opens (seq i left))).
Proof.
  intros Ho. revert i; induction left as [|left IH]; intros i; [apply does_ret|].
  cbn [open_carriers seq List.filter]. destruct (Ho i) as [e He].
  change (@nil fact) with (@nil fact ++ []). eapply does_bind; [exact He|].
  destruct (opens i); change (@nil fact) with (@nil fact ++ []);
    (eapply does_then; [apply IH|apply does_ret]).
Qed.

(** The pool the client ends with. *)
Definition dialer_of (endpoint : Endpoint) (insecure : bool) (secret : option string) (token : string)
  (extra : N) : option CarrierDialer :=
  if (0 <? extra)%N then
    Some {| dialer_endpoint := endpoint; dialer_insecure := insecure; dialer_secret := secret;
            dialer_token := token; target_extra := extra |}
  else None.

Lemma join_pool_does opens endpoint insecure secret carriers token extra ws :
  codes (ServerMessage.CarrierToken token extra) (ws (ServerMessage.CarrierToken token extra)) ->
  carriers_settle opens endpoint insecure secret token ->
  does h (join_pool (T := dialing) uuid_text endpoint insecure secret carriers)
    (if (1 <? carriers)%N then [FRcv (ws (ServerMessage.CarrierToken token extra))] else [])
    (Ok (if (1 <? carriers)%N
         then (List.filter opens (seq 0 (N.to_nat extra)), dialer_of endpoint insecure secret token extra)
         else ([], None))).
Proof.
  intros Hc Ho. unfold join_pool. destruct (1 <? carriers)%N; [|apply does_ret].
  change [?x] with ([x] ++ [] ++ []).
  apply does_then with (a := Some (ServerMessage.CarrierToken token extra)); [by apply recv_does|].
  eapply does_then; [by apply open_carriers_does|]. apply does_ret.
Qed.

Section Registering.
Context (local_host to : string) (local_port wanted port : N) (secret : option string) (insecure logger : bool)
  (opts : TunnelOptions) (c : Uuid) (wc : ClientMessage -> bytes) (ws : ServerMessage -> bytes).
Context (Hc : connects (parse to)) (Hh : codes (ClientMessage.Hello wanted opts) (wc (ClientMessage.Hello wanted opts))).

Abbreviation new :=
  (Client_new (T := dialing) uuid_text clamp_direct local_host local_port to wanted secret insecure opts logger).
Abbreviation hello := (FSnd (wc (ClientMessage.Hello wanted opts))).

Lemma client_registers opens token extra :
  proof_codes secret c wc ws ->
  codes (ServerMessage.Hello port) (ws (ServerMessage.Hello port)) ->
  codes (ServerMessage.CarrierToken token extra) (ws (ServerMessage.CarrierToken token extra)) ->
  carriers_settle opens (parse to) insecure secret token ->
  exists client,
    does h new (hello :: proving secret c wc ws ++ FRcv (ws (ServerMessage.Hello port)) ::
                (if (1 <? carriers opts)%N then [FRcv (ws (ServerMessage.CarrierToken token extra))] else []))
      (Ok client) /\
    remote_port client = port /\
    carrier_acceptors client =
      (if (1 <? carriers opts)%N then List.filter opens (seq 0 (N.to_nat extra)) else []) /\
    carrier_dialer client =
      (if (1 <? carriers opts)%N then dialer_of (parse to) insecure secret token extra else None).
Proof.
  intros Hp Hport Htok Ho. eexists. split.
  - unfold Client_new. rewrite app_comm_cons. eapply does_then; [by apply introduce_does|].
    change (?x :: ?l) with ([x] ++ l). eapply does_then; [by eapply expect_reply_does|].
    match goal with |- does _ _ ?l _ => rewrite <- (app_nil_r l) end.
    eapply does_then; [by apply join_pool_does|]. apply does_ret.
  - cbn [remote_port carrier_acceptors carrier_dialer]. by destruct (1 <? carriers opts)%N.
Qed.

Lemma client_is_refused m :
  proof_codes secret c wc ws -> codes (ServerMessage.Error m) (ws (ServerMessage.Error m)) ->
  does h new (hello :: proving secret c wc ws ++ [FRcv (ws (ServerMessage.Error m))])
    (Err (AnyMsg ("server error: " +:+ m))).
Proof.
  intros Hp Hm. unfold Client_new. rewrite app_comm_cons. eapply does_then; [by apply introduce_does|].
  apply does_stops. by eapply expect_reply_does.
Qed.

Lemma client_is_unasked s :
  secret = Some s -> codes (ServerMessage.Hello port) (ws (ServerMessage.Hello port)) ->
  does h new [hello; FRcv (ws (ServerMessage.Hello port))]
    (Err (AnyMsg "expected authentication challenge, but no secret was required")).
Proof.
  intros -> Hm. unfold Client_new. apply does_stops. unfold introduce.
  destruct (connect_does (parse to) insecure Hc) as [x Hx].
  change [?a; ?b] with ([] ++ [] ++ [a] ++ [b] ++ []).
  eapply does_then; [exact Hx|].
  eapply does_then; [destruct Hc as (_ & Ho & _); cbn; answered Ho; apply does_ret|].
  eapply does_then; [by apply send_does|].
  eapply does_then; [by apply recv_does|]. apply does_ret.
Qed.
End Registering.
End ClientSide.

(** ** The front door *)

Section ServerSide.
Context `{Json ClientMessage} `{Json ServerMessage} `{Crypto}.
Context `{StrDebug} `{HexText} `{Ipv6Text} (uuid_text : Uuid -> string).
Context {St : Type} (h : handler (timer_sig ⊕ front_sig) St) (Ht : punctual h).

(** [o] may be answered in any way. *)
Lemma does_any {A} (o : op (timer_sig ⊕ front_sig)) (k : resp o -> prog front A) τ b :
  (forall a, does h (k a) τ b) -> does h (Op (S := front) (inr o) k) τ b.
Proof. intros Hk st. destruct (Hk (h o st).1 (h o st).2) as [st' T']. exists st'. by apply tk_local. Qed.

(** Ports can be bound, and the server draws this challenge, token and nonce. *)
Record accepts (port : N) (c : Uuid) (token : string) (nonce : bytes) : Prop := {
  acc_control : answers h (inr AcceptControl) true;
  acc_bind p : answers h (inr (TryBind p)) (Ok tt);
  acc_port : answers h (inr LocalPort) (Ok port);
  acc_uuid : answers h (inr NewUuid) c;
  acc_token : answers h (inr NewToken) token;
  acc_nonce : answers h (inr NewNonce) nonce
}.

Lemma server_handshake_does a c tag wc ws :
  answers h (inr NewUuid) c ->
  codes (ServerMessage.Challenge c) (ws (ServerMessage.Challenge c)) ->
  codes (ClientMessage.Authenticate tag) (wc (ClientMessage.Authenticate tag)) ->
  does h (server_handshake uuid_text a)
    [FSnd (ws (ServerMessage.Challenge c)); FRcv (wc (ClientMessage.Authenticate tag))]
    (if validate a c tag then Ok tt else Err (AnyMsg "invalid secret")).
Proof.
  intros Hc Hch Htag. unfold server_handshake. change [?x; ?y] with ([] ++ [x] ++ [y] ++ []).
  eapply does_bind; [answered Hc; apply does_ret|].
  apply does_then with (a := tt); [by apply send_does|].
  apply does_then with (a := Some (ClientMessage.Authenticate tag)); [by apply recv_does|].
  apply does_ret.
Qed.

Context (port : N) (c : Uuid) (token : string) (nonce : bytes) (Ha : accepts port c token nonce).

Lemma create_listener_does (self : Server) (wanted : N) :
  wanted = 0%N \/ (port_lo self <= wanted <= port_hi self)%N ->
  does h (create_listener self wanted) [] (Ok tt).
Proof.
  intros Hw. unfold create_listener.
  assert (Hb : forall p, does h (try_bind p) [] (Ok tt)).
  { intros p. unfold try_bind. cbn. answered (acc_bind _ _ _ _ Ha p). apply does_ret. }
  destruct (N.ltb_spec 0 wanted).
  - destruct Hw as [->|[Hlo Hhi]]; [done|].
    apply N.leb_le in Hlo as ->. apply N.leb_le in Hhi as ->. apply Hb.
  - assert (Hr : forall n, does h (random_ports (S n) (port_lo self) (port_hi self)) [] (Ok tt)).
    { intros n. cbn. apply does_any. intros p. answered (acc_bind _ _ _ _ Ha p). apply does_ret. }
    apply (Hr 149).
Qed.

(** The frames that open a tunnel. *)
Definition extras (self : Server) (opts : TunnelOptions) : N :=
  (clamp (carriers opts) 1 (N.max (max_carriers self) 1) - 1)%N.

Definition offer (self : Server) : ServerMessage :=
  ServerMessage.PublicUdp (vhost_quic_port self) nonce (udp_tuning self).

Definition offers (self : Server) (opts : TunnelOptions) (ws : ServerMessage -> bytes) : list bytes :=
  if udp opts && server_udp self then [ws (offer self)] else [].

Definition token_of (self : Server) (opts : TunnelOptions) : ServerMessage :=
  ServerMessage.CarrierToken token (extras self opts).

Lemma offer_public_udp_does self opts key ws (body : prog front outcome) :
  codes (offer self) (ws (offer self)) -> does h body [] None ->
  does h (offer_public_udp uuid_text self opts key body) (fsnds (offers self opts ws)) None.
Proof.
  intros Hc Hb. unfold offer_public_udp, offers. destruct (udp opts && server_udp self); [|done].
  cbn [pbind]. change (fsnds [?x]) with (@nil fact ++ [] ++ [] ++ [FSnd x] ++ [] ++ []).
  eapply does_bind; [cbn; apply does_any; intros []; apply does_ret|].
  eapply does_bind; [cbn; answered (acc_nonce _ _ _ _ Ha); apply does_ret|].
  eapply does_bind; [cbn; apply does_any; intros []; apply does_ret|].
  eapply does_bind; [by apply send_does|].
  unfold dropping. eapply does_bind; [done|]. apply does_ret.
Qed.

Lemma offer_carriers_does self opts ws τ (body : bool -> prog front outcome) :
  codes (token_of self opts) (ws (token_of self opts)) -> (forall b, does h (body b) τ None) ->
  does h (offer_carriers uuid_text opts (clamp (carriers opts) 1 (N.max (max_carriers self) 1)) body)
    ((if (1 <? carriers opts)%N then [FSnd (ws (token_of self opts))] else []) ++ τ) None.
Proof.
  intros Hc Hb. unfold offer_carriers. destruct (1 <? carriers opts)%N; [|apply Hb].
  change ([?x] ++ τ) with (@nil fact ++ [] ++ [x] ++ τ).
  eapply does_bind; [cbn; answered (acc_token _ _ _ _ Ha); apply does_ret|].
  eapply does_bind; [cbn; apply does_any; intros []; apply does_ret|].
  unfold otry. eapply does_bind; [apply send_does, Hc|]. cbn.
  unfold dropping. rewrite <- (app_nil_r τ). eapply does_bind; [apply Hb|]. apply does_ret.
Qed.

(** A tunnel up to its loop. *)
Lemma serve_tunnel_does (self : Server) opener wanted opts ws :
  (https opts = true -> Front.tls self = true) ->
  wanted = 0%N \/ (port_lo self <= wanted <= port_hi self)%N ->
  codes (ServerMessage.Hello port) (ws (ServerMessage.Hello port)) ->
  codes (token_of self opts) (ws (token_of self opts)) ->
  codes (offer self) (ws (offer self)) ->
  does h (serve_tunnel uuid_text 0 self opener wanted opts)
    (FSnd (ws (ServerMessage.Hello port)) ::
     (if (1 <? carriers opts)%N then [FSnd (ws (token_of self opts))] else []) ++
     fsnds (offers self opts ws)) None.
Proof.
  intros Htls Hw Hh Hk Ho. unfold serve_tunnel.
  assert (E : https opts && negb (Front.tls self) = false)
    by (destruct (https opts); [rewrite Htls|]; done).
  rewrite E. change (?x :: ?l) with ([] ++ [] ++ [x] ++ l).
  eapply does_bind; [by apply create_listener_does|]. unfold otry.
  eapply does_bind; [cbn; answered (acc_port _ _ _ _ Ha); apply does_ret|]. cbn -[offer_carriers send].
  change (FSnd ?x :: ?l) with ([FSnd x] ++ l).
  eapply does_bind; [by apply send_does|].
  apply offer_carriers_does; [done|]. intros b.
  apply offer_public_udp_does; [done|]. apply does_ret.
Qed.
End ServerSide.

(** ** Both *)

(** What comes of a client's secret at a server's door. *)
Inductive verdict : Type := Accepted_ | Refused_ | Unasked.

Section Both.
Context `{Json ClientMessage} `{Json ServerMessage} `{Crypto}.
Context `{StrDebug} `{HexText} `{Ipv6Text} (uuid_text : Uuid -> string).
Context `{ServerNames} `{MessageDebug} `{BasicAuths} (clamp_direct : N -> N).

Definition judge (client_secret server_secret : option string) (c : Uuid) : verdict :=
  match client_secret, server_secret with
  | Some s, Some s' =>
      if validate (authenticator_new s') c (answer (authenticator_new s) c) then Accepted_ else Refused_
  | Some _, None => Unasked
  | None, _ => Accepted_
  end.

Definition invalid_secret : ServerMessage := ServerMessage.Error "invalid secret".

Context {St1 St2 : Type} (h1 : handler (timer_sig ⊕ (dial_sig ⊕ extra_sig)) St1)
  (h2 : handler (timer_sig ⊕ front_sig) St2).
Context (wc : ClientMessage -> bytes) (ws : ServerMessage -> bytes).

(** What the server does before it dispatches, and after. *)
Lemma handle_connection_does (self : Server) opener request c sc ss v :
  punctual h2 -> answers h2 (inr AcceptControl) true -> answers h2 (inr NewUuid) c ->
  Front.auth self = authenticator_new <$> ss -> (sc = None -> ss = None) -> v = judge sc ss c ->
  codes request (wc request) -> proof_codes sc c wc ws -> codes invalid_secret (ws invalid_secret) ->
  forall τ, does h2 (dispatch uuid_text 0 self opener (Some request)) τ None ->
  does h2 (handle_connection uuid_text 0 self opener)
    (FRcv (wc request) ::
     match v with
     | Accepted_ => fdual (proving sc c wc ws) ++ τ
     | Refused_ => fdual (proving sc c wc ws) ++ [FSnd (ws invalid_secret)]
     | Unasked => τ
     end)
    (match v with Refused_ => Some (Ok tt) | _ => None end).
Proof.
  intros Ht Hacc Hc Ha Hs -> Hr Hp He τ Hd. unfold handle_connection.
  change (?x :: ?l) with ([] ++ [x] ++ l). eapply does_bind; [cbn; answered Hacc; apply does_ret|].
  cbn [negb]. unfold otry. eapply does_bind; [by apply recv_does|]. rewrite Ha.
  destruct sc as [s|].
  - destruct (Hp s eq_refl) as [Hch Htag].
    destruct ss as [s'|]; cbn [fmap option_fmap option_map judge]; [|exact Hd].
    pose proof (server_handshake_does uuid_text h2 Ht (authenticator_new s') c
      (answer (authenticator_new s) c) wc ws Hc Hch Htag) as Hsh.
    destruct (validate _ _ _) eqn:E.
    + eapply does_bind; [exact Hsh|]. exact Hd.
    + eapply does_bind; [exact Hsh|].
      change [FSnd ?x] with ([] ++ [FSnd x] ++ []).
      eapply does_bind; [cbn; apply does_any; intros []; apply does_ret|].
      eapply does_bind; [by apply send_does|]. apply does_ret.
  - rewrite Hs by done. exact Hd.
Qed.

End Both.

(** ** A client at a door *)

#[local] Instance visit_client_json : Json ClientMessage :=
  {| to_vec := fun m => match m with
       | ClientMessage.Hello _ _ => Ok [x01]
       | ClientMessage.Authenticate tag => Ok (x02 :: String.list_byte_of_string tag)
       | _ => Err "unknown"
       end;
     from_slice := fun b => match b with
       | x01 :: _ => Ok (ClientMessage.Hello 0 plain_options)
       | x02 :: tag => Ok (ClientMessage.Authenticate (String.string_of_list_byte tag))
       | _ => Err "bad"
       end |}.
#[local] Instance visit_server_json : Json ServerMessage :=
  {| to_vec := fun m => match m with
       | ServerMessage.Challenge _ => Ok [x01]
       | ServerMessage.Hello _ => Ok [x02]
       | ServerMessage.CarrierToken _ _ => Ok [x03]
       | ServerMessage.PublicUdp _ _ _ => Ok [x04]
       | ServerMessage.Error _ => Ok [x05]
       | _ => Err "unknown"
       end;
     from_slice := fun b => match b with
       | [x01] => Ok (ServerMessage.Challenge 77)
       | [x02] => Ok (ServerMessage.Hello 7000)
       | [x03] => Ok (ServerMessage.CarrierToken "t" 1)
       | [x04] => Ok (ServerMessage.PublicUdp 443 [] UdpDirectTuning_default)
       | [x05] => Ok (ServerMessage.Error "invalid secret")
       | _ => Err "bad"
       end |}.
#[local] Instance visit_str_debug : StrDebug := fun s => s.
#[local] Instance visit_hex : HexText := fun b => String.string_of_list_byte b.
#[local] Instance visit_ipv6 : Ipv6Text := fun _ => "::".
#[local] Instance visit_debug : MessageDebug := fun _ => "".
#[local] Instance visit_basic : BasicAuths := {| BasicAuth := unit; basic_auth_parse := fun _ => None |}.

Definition encoded {M} `{Json M} (m : M) : bytes := match to_vec m with Ok b => b | _ => [] end.

(** The extra connections are refused. *)
Definition visiting : handler (timer_sig ⊕ (dial_sig ⊕ extra_sig)) unit :=
  fun o st =>
    (match o return resp (s := timer_sig ⊕ (dial_sig ⊕ extra_sig)) o with
     | inl _ => false
     | inr (inl (TcpConnectT _ _ _)) | inr (inl (TlsConnectT _ _ _)) => InTime (Ok tt)
     | inr (inl TlsVersions) | inr (inl OpenStream) => Ok tt
     | inr (inr (_, inl FramedNext)) => None
     | inr (inr (_, inl (FramedSend _))) => Err "closed"
     | inr (inr (_, inl (Traced _ _))) => tt
     | inr (inr (_, inr (inl _))) => false
     | inr (inr (_, inr (inr (TcpConnectT _ _ _)))) | inr (inr (_, inr (inr (TlsConnectT _ _ _)))) => Elapsed
     | inr (inr (_, inr (inr TlsVersions))) => Err ""
     | inr (inr (_, inr (inr OpenStream))) => Err deadline
     end, st).

Definition doorman : handler (timer_sig ⊕ front_sig) unit :=
  fun o st => (match o return resp (s := timer_sig ⊕ front_sig) o with
               | inl _ => false | inr o => door_answer o end, st).

Definition visitor : option string := Some "s3cret".

