(* ===== verification/Listen.v ===== *)
(** * The clients at work ([vendored-from-bore/client.rs])

    [Client::listen]: the [select!] loop of a client and the tasks it spawns (the
    direct carriers, the pumps of a carrier pool, the batches that dial dropped
    carriers again, the direct path of a secret provider), which share two
    counters, a flag and four channels with it. *)

From stdpp Require Import list.
From S2P Require Import Prelude Streams Json Proto Auth Text Reconnect Transport Fs Frames Addresses Stun Candidates Control Direct RefTransport Dial.
Import ClientMessage(ClientMessage) ServerMessage(ServerMessage).

(** ** Operations *)

(** A forwarded stream, by number. *)
Abbreviation sid := nat.

(** What wakes the loop.  The loop holds a sender of each of its channels, so that
    they never end. *)
Inductive listen_event : Type :=
| ControlReady                           (* [control.recv()] can proceed *)
| RenewalDue                             (* [direct_renew_sleep] *)
| RenewalAsked                           (* [direct_renew_rx] *)
| DirectUp                               (* [direct_up_rx] *)
| UdpRetryTick
| CarrierStream (s : sid)                (* [carrier_rx] *)
| CarrierRedialTick
| StreamAccepted (s : option sid).

#[export] Instance listen_event_eq : EqDecision listen_event.
Proof. solve_decision. Defined.

(** What a spawned direct carrier captures. *)
Record direct_args : Type := {
  server_addr : SocketAddr;
  carrier_key : string;
  carrier_token : bytes;
  carrier_tuning : UdpDirectTuning;
}.

Inductive client_op : Type :=
| SelectEvent (renewal_pending : bool)
| LoadDirect                             (* [direct_live] *)
| AddDirect
| SubDirect
| SendUp
| SendRenew
| TryRecvRenew                           (* whether there was one *)
| LoadCarriers                           (* [carrier_live] *)
| AddCarrier
| SubCarrier
| SwapInflight                           (* [inflight.swap(true)] *)
| ClearInflight
| SendCarrierStream (s : sid)            (* whether the loop is still there *)
| SpawnDirect (args : direct_args)
| SpawnPump (carrier : nat)
| SpawnRedial (need : N)
| SpawnHandle (s : sid)
| SpawnProviderDirect (socket : nat) (peers : list SocketAddr) (token : bytes) (tuning : UdpDirectTuning)
| SendPunch (peers : list SocketAddr)    (* to the direct path, if it is still there *)
| LookupIp (host : string) (port : N)
| NowMs
| AcceptDirectStream                     (* of the task's own connection *)
| AcceptCarrierStream (carrier : nat).

Definition client_sig : sig :=
  Sig client_op (fun o =>
    match o with
    | SelectEvent _ => listen_event
    | LoadDirect | LoadCarriers | NowMs => N
    | TryRecvRenew | SwapInflight | SendCarrierStream _ => bool
    | LookupIp _ _ => result io_error (list SocketAddr)
    | AcceptDirectStream => result string sid
    | AcceptCarrierStream _ => option sid
    | _ => unit
    end).

(** The QUIC connection of a task and the stream it authenticates on. *)
Definition direct_env : sig := stream_sig ⊕ (timer_sig ⊕ (quic_sig ⊕ udp_sig)).

(** ** State *)

Record loop_state : Type := {
  direct_renew_backoff : Backoff;
  direct_renew_sleep : option N;         (* seconds *)
  ls_udp_socket : option nat;
  punch_tx : bool;
  udp_reoffer_failures : N;              (* u32 *)
  preferred_port_remapped : bool;
  next_preferred_port_check : N;         (* milliseconds *)
}.

Definition with_renewal (s : loop_state) (b : Backoff) (sleep : option N) : loop_state :=
  {| direct_renew_backoff := b; direct_renew_sleep := sleep; ls_udp_socket := ls_udp_socket s;
     punch_tx := punch_tx s; udp_reoffer_failures := udp_reoffer_failures s;
     preferred_port_remapped := preferred_port_remapped s;
     next_preferred_port_check := next_preferred_port_check s |}.
Definition with_punching (s : loop_state) : loop_state :=
  {| direct_renew_backoff := direct_renew_backoff s; direct_renew_sleep := direct_renew_sleep s;
     ls_udp_socket := None; punch_tx := true; udp_reoffer_failures := udp_reoffer_failures s;
     preferred_port_remapped := preferred_port_remapped s;
     next_preferred_port_check := next_preferred_port_check s |}.
Definition with_offer (s : loop_state) (socket : option nat) (failures : N) (remapped : bool) (check : N) :
  loop_state :=
  {| direct_renew_backoff := direct_renew_backoff s; direct_renew_sleep := direct_renew_sleep s;
     ls_udp_socket := socket; punch_tx := punch_tx s; udp_reoffer_failures := failures;
     preferred_port_remapped := remapped; next_preferred_port_check := check |}.

(** How a turn of the loop ends: [Cut] is no end of the code, but of the bound on
    the renewals that are drained. *)
Inductive turn : Type :=
| Next (s : loop_state)
| Return (r : ares unit)
| Cut.

Section Listen.
Context `{Json ClientMessage} `{Json ServerMessage} `{Crypto}.
Context `{StrDebug} `{HexText} `{Ipv6Text} (uuid_text : Uuid -> string).
Context `{ServerNames} `{MessageDebug} `{BasicAuths}.
Context {T : sig} `{Has client_sig T} `{Has framed_sig T} `{Has timer_sig T} `{Has extra_sig T}
  `{Has udp_sig T} `{Has host_sig T} `{Has bind_sig T} `{Has direct_env T}.

Definition client (o : client_op) : prog T (resp (s := client_sig) o) := call (S := client_sig) o.

(** A program on the task's own QUIC connection. *)
Definition on_direct {A} (p : prog direct_env A) : prog T A := interp (fun o => call (S := direct_env) o) p.

(** ** Tasks *)

(** [spawn_direct]. *)
Definition release : prog T unit :=
  let! _ := client SubDirect in
  client SendRenew.

Fixpoint serve_direct (streams : nat) : prog T bool :=
  match streams with
  | O => Ret false
  | S streams' =>
      let! stream := client AcceptDirectStream in
      match stream with
      | Ok s => let! _ := client (SpawnHandle s) in serve_direct streams'
      | Err _ => Ret true
      | Panicked => Ret false
      end
  end.

(** The task: [streams] bounds the streams it accepts; a task that is still
    serving them, or that panics, has released nothing. *)
Definition spawn_direct (streams : nat) (args : direct_args) : prog T unit :=
  let! socket := bind_socket 0 in
  match socket with
  | Err _ => release
  | Panicked => Ret tt
  | Ok _ =>
      let! direct := on_direct (vhost_connect (carrier_key args) (carrier_token args)) in
      match direct with
      | Err _ => release
      | Panicked => Ret tt
      | Ok _ =>
          let! _ := client SendUp in
          let! closed := serve_direct streams in
          if closed then release else Ret tt
      end
  end.

(** [spawn_carrier_pump], and its task. *)
Definition spawn_carrier_pump (carrier : nat) : prog T unit :=
  let! _ := client AddCarrier in
  client (SpawnPump carrier).

Fixpoint carrier_pump (streams : nat) (carrier : nat) : prog T unit :=
  match streams with
  | O => Ret tt
  | S streams' =>
      let! stream := client (AcceptCarrierStream carrier) in
      match stream with
      | Some s =>
          let! sent := client (SendCarrierStream s) in
          if sent : bool then carrier_pump streams' carrier else client SubCarrier
      | None => client SubCarrier
      end
  end.

(** [maybe_redial_carriers], and its task, whose carriers are numbered from [i]. *)
Definition maybe_redial_carriers (dialer : CarrierDialer) : prog T unit :=
  let! current := client LoadCarriers in
  if (target_extra dialer <=? current)%N then Ret tt
  else
    let! inflight := client SwapInflight in
    if inflight : bool then Ret tt
    else client (SpawnRedial (target_extra dialer - current)).

Fixpoint redial (dialer : CarrierDialer) (left i : nat) : prog T unit :=
  match left with
  | O => client ClearInflight
  | S left' =>
      let! r := on_extra i (open_carrier uuid_text (dialer_endpoint dialer) (dialer_insecure dialer)
                              (dialer_secret dialer) (dialer_token dialer)) in
      match r with
      | Ok _ => let! _ := spawn_carrier_pump i in redial dialer left' (S i)
      | Err _ => client ClearInflight
      | Panicked => Ret tt
      end
  end.

(** ** Offers of a direct path *)

Definition resolve_direct_server_addr (endpoint : Endpoint) (port : N) : prog T (ares SocketAddr) :=
  let! r := client (LookupIp (Transport.host endpoint) port) in
  Ret (rbind (context ("failed to resolve direct udp endpoint " +:+ Transport.host endpoint +:+ ":" +:+ pretty port)
                (map_err AnyIo r)) (fun addrs =>
       ok_or (List.find is_ipv4 addrs) (AnyMsg "resolved no IPv4 address for the direct udp endpoint"))).

(** [for _ in 0..need]: the slot is taken before the task is spawned. *)
Fixpoint spawn_directs (need : nat) (args : direct_args) : prog T unit :=
  match need with
  | O => Ret tt
  | S need' =>
      let! _ := client AddDirect in
      let! _ := client (SpawnDirect args) in
      spawn_directs need' args
  end.

Definition direct_udp_target (self : Client) : N := N.max (direct_udp_carriers self) 1.

(** The arm of an offer, for a virtual host and for a public tunnel alike. *)
Definition on_offer (self : Client) (endpoint : Endpoint) (key : string) (port : N) (nonce : bytes)
  (tuning : UdpDirectTuning) (s : loop_state) : prog T turn :=
  let! addr := resolve_direct_server_addr endpoint port in
  match addr with
  | Err _ => let! _ := client SendRenew in Ret (Next s)
  | Panicked => Ret (Return Panicked)
  | Ok server_addr =>
      let token := derive_token (secret self) nonce in
      let! current := client LoadDirect in
      let need := (direct_udp_target self - current)%N in
      let! _ := spawn_directs (N.to_nat need)
        {| server_addr := server_addr; carrier_key := key; carrier_token := token;
           carrier_tuning := tuning |} in
      Ret (Next s)
  end.

(** ** The loop *)

Definition on_message (self : Client) (s : loop_state) (message : ServerMessage) : prog T turn :=
  match message with
  | ServerMessage.UdpPunch nonce peer _ tuning _ =>
      if punch_tx s then let! _ := client (SendPunch peer) in Ret (Next s)
      else
        match ls_udp_socket s, udp_cfg self with
        | Some socket, Some _ =>
            let! _ := client (SpawnProviderDirect socket peer (derive_token (secret self) nonce) tuning) in
            Ret (Next (with_punching s))
        | Some _, None => Ret (Return Panicked)      (* [expect] *)
        | None, _ => Ret (Next s)
        end
  | ServerMessage.VhostUdp port nonce tuning =>
      if vhost_udp self then
        match direct_endpoint self, direct_key self with
        | Some endpoint, Some key => on_offer self endpoint key port nonce tuning s
        | _, _ => Ret (Next s)
        end
      else Ret (Next s)
  | ServerMessage.PublicUdp port nonce tuning =>
      match direct_key self, direct_endpoint self with
      | Some key, Some endpoint => on_offer self endpoint key port nonce tuning s
      | _, _ => Ret (Next s)
      end
  | _ => Ret (Next s)
  end.

Definition send_renewal (m : ClientMessage) (s : loop_state) : prog T turn :=
  let! r := client_send m in
  Ret (match r with Ok _ => Next s | Err _ => Return (Ok tt) | Panicked => Return Panicked end).

(** The sleep before a renewal is over. *)
Definition on_renewal_due (self : Client) (s : loop_state) : prog T turn :=
  let s := with_renewal s (direct_renew_backoff s) None in
  match direct_key self with
  | None => Ret (Next s)
  | Some key =>
      if vhost_udp self then send_renewal (ClientMessage.VhostUdpRenew key) s
      else
        match strip_prefix "port:" key ≫= parse_unsigned u16_max with
        | Some port => send_renewal (ClientMessage.PublicUdpRenew port) s
        | None => Ret (Next s)
        end
  end.

Definition on_renewal_asked (self : Client) (s : loop_state) : loop_state :=
  match direct_key self, direct_renew_sleep s with
  | Some _, None =>
      let '(delay, backoff) := next_delay (direct_renew_backoff s) in with_renewal s backoff (Some delay)
  | _, _ => s
  end.

(** [while direct_renew_rx.try_recv().is_ok() {}]. *)
Fixpoint drain (fuel : nat) : prog T bool :=
  match fuel with
  | O => Ret false
  | S fuel' =>
      let! more := client TryRecvRenew in
      if more : bool then drain fuel' else Ret true
  end.

Definition on_direct_up (fuel : nat) (s : loop_state) : prog T turn :=
  let! drained := drain fuel in
  Ret (if drained then Next (with_renewal s (reset (direct_renew_backoff s)) None) else Cut).

(** The candidates are offered again while there is neither a socket nor a path. *)
Definition on_udp_retry (self : Client) (s : loop_state) : prog T turn :=
  match punch_tx s, ls_udp_socket s, udp_cfg self with
  | false, None, Some cfg =>
      let! now := client NowMs in
      let use_preferred :=
        negb (preferred_port_remapped s) || (next_preferred_port_check s <=? now)%N in
      let effective_port := if use_preferred then cfg_udp_port cfg else 0%N in
      let check :=
        if use_preferred && preferred_port_remapped s
        then (now + nat_udp_release_timeout cfg * 1000)%N else next_preferred_port_check s in
      let was_checking_preferred :=
        use_preferred && negb (cfg_udp_port cfg =? 0)%N && preferred_port_remapped s in
      let! offered := offer_provider_candidates (cfg_endpoint cfg) (cfg_stun_server cfg) (cfg_port_map cfg)
        (cfg_port_prediction cfg) effective_port in
      match offered with
      | Ok socket =>
          if was_checking_preferred || (negb (effective_port =? 0)%N && negb (preferred_port_remapped s)) then
            let! checked := resolve_stun_and_check (cfg_endpoint cfg) (cfg_stun_server cfg) (cfg_udp_port cfg)
              (preferred_port_remapped s) in
            Ret (match checked with
                 | Ok (_, remapped) => Next (with_offer s (Some socket) 0 remapped check)
                 | Err e => Return (Err e)
                 | Panicked => Return Panicked
                 end)
          else Ret (Next (with_offer s (Some socket) 0 (preferred_port_remapped s) check))
      | Err _ =>
          Ret (Next (with_offer s None ((udp_reoffer_failures s + 1) mod 2 ^ 32)
                       (preferred_port_remapped s) check))
      | Panicked => Ret (Return Panicked)
      end
  | _, _, _ => Ret (Next s)
  end.

Definition on_event (fuel : nat) (self : Client) (s : loop_state) (e : listen_event) : prog T turn :=
  match e with
  | ControlReady =>
      let! message := delimited_recv (server_summary uuid_text) in
      match message with
      | Ok (Some m) => on_message self s m
      | Ok None => Ret (Return (Ok tt))
      | Err err => Ret (Return (Err err))
      | Panicked => Ret (Return Panicked)
      end
  | RenewalDue => on_renewal_due self s
  | RenewalAsked => Ret (Next (on_renewal_asked self s))
  | DirectUp => on_direct_up fuel s
  | UdpRetryTick => on_udp_retry self s
  | CarrierStream stream => let! _ := client (SpawnHandle stream) in Ret (Next s)
  | CarrierRedialTick =>
      match carrier_dialer self with
      | Some dialer => let! _ := maybe_redial_carriers dialer in Ret (Next s)
      | None => Ret (Next s)
      end
  | StreamAccepted (Some stream) => let! _ := client (SpawnHandle stream) in Ret (Next s)
  | StreamAccepted None => Ret (Return (Ok tt))
  end.

(** [None]: the loop was cut after its bound of turns, each draining at most as
    many renewals. *)
Fixpoint listen_loop (turns fuel : nat) (self : Client) (s : loop_state) : prog T (option (ares unit)) :=
  match turns with
  | O => Ret None
  | S turns' =>
      let! e := client (SelectEvent (bool_decide (is_Some (direct_renew_sleep s)))) in
      let! t := on_event fuel self s e in
      match t with
      | Next s => listen_loop turns' fuel self s
      | Return r => Ret (Some r)
      | Cut => Ret None
      end
  end.

Fixpoint start_pumps (carriers : list nat) : prog T unit :=
  match carriers with
  | [] => Ret tt
  | c :: carriers' => let! _ := spawn_carrier_pump c in start_pumps carriers'
  end.

Definition listen (turns fuel : nat) (self : Client) : prog T (option (ares unit)) :=
  let! now := client NowMs in
  let! _ := start_pumps (carrier_acceptors self) in
  listen_loop turns fuel self
    {| direct_renew_backoff := new_with 2 32; direct_renew_sleep := None; ls_udp_socket := udp_socket self;
       punch_tx := false; udp_reoffer_failures := 0; preferred_port_remapped := false;
       next_preferred_port_check := now |}.
End Listen.

(** ** The direct path of a secret provider *)

Inductive provider_op : Type :=
| PunchReady                             (* a message of [punch_rx], if it comes first *)
| SpawnServe                             (* the task of an accepted connection *)
| PunchEndpoint (peers : list SocketAddr)     (* [punch_via_endpoint] *)
| CloseEndpoint
| SleepMsP (ms : N)
| AcceptStreamP
| TryAcquire                             (* of the permits of the provider *)
| SpawnServeStream (s : sid).            (* with its permit *)

Definition provider_sig : sig :=
  Sig provider_op (fun o =>
    match o with
    | PunchReady => option (option (list SocketAddr))
    | TryAcquire => bool
    | AcceptStreamP => result string sid
    | _ => unit
    end).

Section Provider.
Context {L : sig} `{Has provider_sig L} `{Has quic_sig L} `{Has udp_sig L}.

Abbreviation net := (stream_sig ⊕ L).

Definition provider (o : provider_op) : prog net (resp (s := provider_sig) o) := call (S := provider_sig) o.

(** One side of [select!] against [punch_rx.recv()]: when a message comes first,
    the other future is dropped where it waits. *)
Fixpoint unless_punched {A} (fut : prog net A) : prog net (A + option (list SocketAddr)) :=
  match fut with
  | Ret a => Ret (inl a)
  | Op o k =>
      let! punched := provider PunchReady in
      match punched with
      | Some message => Ret (inr message)
      | None => Op o (fun r => unless_punched (k r))
      end
  end.

Fixpoint provider_loop (turns : nat) (token : bytes) : prog net (option (ares unit)) :=
  match turns with
  | O => Ret None
  | S turns' =>
      let! e := unless_punched (listener_accept token) in
      match e with
      | inl (Ok _) => let! _ := provider SpawnServe in provider_loop turns' token
      | inl (Err _) => let! _ := provider (SleepMsP 100) in provider_loop turns' token
      | inl Panicked => Ret (Some Panicked)
      | inr (Some peers) => let! _ := provider (PunchEndpoint peers) in provider_loop turns' token
      | inr None => let! _ := provider CloseEndpoint in Ret (Some (Ok tt))
      end
  end.

Definition provider_direct (turns : nat) (peers : list SocketAddr) (token : bytes) :
  prog net (option (ares unit)) :=
  let! listener := listener_new peers in
  match listener with
  | Ok _ => provider_loop turns token
  | Err e => Ret (Some (Err e))
  | Panicked => Ret (Some Panicked)
  end.

(** The task of a connection: every stream it serves holds a permit. *)
Fixpoint serve_streams (turns : nat) : prog net unit :=
  match turns with
  | O => Ret tt
  | S turns' =>
      let! stream := provider AcceptStreamP in
      match stream with
      | Ok s =>
          let! permit := provider TryAcquire in
          if permit : bool then
            let! _ := provider (SpawnServeStream s) in serve_streams turns'
          else serve_streams turns'
      | _ => Ret tt
      end
  end.
End Provider.
