(* ===== verification/ListenSystem.v ===== *)
(** * A client and its tasks ([vendored-from-bore/client.rs])

    The loop of [Listen.v] and the tasks it spawned as one transition system: a
    step is one operation of the loop or of one task, in any order.  Operations on
    the shared counters and channels act on [hub]; whatever else is awaited may be
    answered in any way. *)

From stdpp Require Import list.
From S2P Require Import Prelude Streams Json Proto Auth Text Reconnect Transport Fs Frames Addresses Stun Candidates Control Direct RefTransport Dial Listen.
Import ClientMessage(ClientMessage) ServerMessage(ServerMessage).

(** ** States *)

Definition sys : sig :=
  client_sig ⊕ (framed_sig ⊕ (timer_sig ⊕ (extra_sig ⊕ (udp_sig ⊕ (host_sig ⊕ (bind_sig ⊕ direct_env)))))).

(** Two atomic counters, a flag, and how many messages wait in two channels. *)
Record hub : Type := {
  direct_live : N;
  ups : nat;
  renews : nat;
  carrier_live : N;
  inflight : bool;
}.

Definition with_direct (g : hub) (n : N) : hub :=
  {| direct_live := n; ups := ups g; renews := renews g; carrier_live := carrier_live g; inflight := inflight g |}.
Definition with_signals (g : hub) (u r : nat) : hub :=
  {| direct_live := direct_live g; ups := u; renews := r; carrier_live := carrier_live g; inflight := inflight g |}.
Definition with_carriers (g : hub) (n : N) (b : bool) : hub :=
  {| direct_live := direct_live g; ups := ups g; renews := renews g; carrier_live := n; inflight := b |}.

(** [fetch_sub] wraps around. *)
Definition fetch_sub (n : N) : N := if (n =? 0)%N then u64_max else (n - 1)%N.
Definition fetch_add (n : N) : N := ((n + 1) mod 2 ^ 64)%N.

Record system : Type := {
  main : prog sys (option (ares unit));
  tasks : list (prog sys unit);
  hub_of : hub;
}.

Section System.
Context `{Json ClientMessage} `{Json ServerMessage} `{Crypto}.
Context `{StrDebug} `{HexText} `{Ipv6Text} (uuid_text : Uuid -> string).
Context `{ServerNames} `{MessageDebug} `{BasicAuths}.
Context (self : Client) (streams : nat).

(** A batch dials for the pool of this client. *)
Definition batch (need : N) : list (prog sys unit) :=
  match carrier_dialer self with
  | Some dialer => [redial uuid_text dialer (N.to_nat need) 0]
  | None => []
  end.

(** What an operation does to the hub, and the tasks it spawns; [a] is what the
    world would answer, where the answer is not the hub's. *)
Definition act (o : client_op) (a : resp (s := client_sig) o) (g : hub) :
  option (resp (s := client_sig) o * hub * list (prog sys unit)) :=
  match o return resp (s := client_sig) o -> option (resp (s := client_sig) o * hub * list (prog sys unit)) with
  | SelectEvent pending => fun e =>
      match e with
      | RenewalDue => if pending then Some (e, g, []) else None
      | RenewalAsked => match renews g with O => None | S n => Some (e, with_signals g (ups g) n, []) end
      | DirectUp => match ups g with O => None | S n => Some (e, with_signals g n (renews g), []) end
      | _ => Some (e, g, [])
      end
  | LoadDirect => fun _ => Some (direct_live g, g, [])
  | AddDirect => fun _ => Some (tt, with_direct g (fetch_add (direct_live g)), [])
  | SubDirect => fun _ => Some (tt, with_direct g (fetch_sub (direct_live g)), [])
  | SendUp => fun _ => Some (tt, with_signals g (S (ups g)) (renews g), [])
  | SendRenew => fun _ => Some (tt, with_signals g (ups g) (S (renews g)), [])
  | TryRecvRenew => fun _ =>
      match renews g with
      | O => Some (false, g, [])
      | S n => Some (true, with_signals g (ups g) n, [])
      end
  | LoadCarriers => fun _ => Some (carrier_live g, g, [])
  | AddCarrier => fun _ => Some (tt, with_carriers g (fetch_add (carrier_live g)) (inflight g), [])
  | SubCarrier => fun _ => Some (tt, with_carriers g (fetch_sub (carrier_live g)) (inflight g), [])
  | SwapInflight => fun _ => Some (inflight g, with_carriers g (carrier_live g) true, [])
  | ClearInflight => fun _ => Some (tt, with_carriers g (carrier_live g) false, [])
  | SpawnDirect args => fun _ => Some (tt, g, [spawn_direct streams args])
  | SpawnPump carrier => fun _ => Some (tt, g, [carrier_pump streams carrier])
  | SpawnRedial need => fun _ => Some (tt, g, batch need)
  | o => fun a => Some (a, g, [])
  end a.

Inductive step : system -> system -> Prop :=
| step_main_env o k a ts g :
    step {| main := Op (S := sys) (inr o) k; tasks := ts; hub_of := g |}
         {| main := k a; tasks := ts; hub_of := g |}
| step_main o k a r ts g g' new :
    act o a g = Some (r, g', new) ->
    step {| main := Op (S := sys) (inl o) k; tasks := ts; hub_of := g |}
         {| main := k r; tasks := ts ++ new; hub_of := g' |}
| step_task_env m l1 l2 o k a g :
    step {| main := m; tasks := l1 ++ Op (S := sys) (inr o) k :: l2; hub_of := g |}
         {| main := m; tasks := l1 ++ k a :: l2; hub_of := g |}
| step_task m l1 l2 o k a r g g' new :
    act o a g = Some (r, g', new) ->
    step {| main := m; tasks := l1 ++ Op (S := sys) (inl o) k :: l2; hub_of := g |}
         {| main := m; tasks := (l1 ++ k r :: l2) ++ new; hub_of := g' |}.

Definition start (turns fuel : nat) : system :=
  {| main := listen uuid_text turns fuel self; tasks := [];
     hub_of := {| direct_live := 0; ups := 0; renews := 0; carrier_live := 0; inflight := false |} |}.

Definition reached (turns fuel : nat) (x : system) : Prop := rtc step (start turns fuel) x.

(** ** One execution, played from a script

    The next operation of the loop ([None]) or of a task, and an answer for it. *)

Definition world : Type := forall o : op sys, resp o.

Definition answer_one {A} (w : world) (p : prog sys A) (g : hub) :
  option (prog sys A * hub * list (prog sys unit)) :=
  match p with
  | Ret _ => None
  | Op o k =>
      match o return (resp (s := sys) o -> prog sys A) -> option (prog sys A * hub * list (prog sys unit)) with
      | inr o => fun k => Some (k (w (inr o)), g, [])
      | inl o => fun k =>
          match act o (w (inl o)) g with
          | Some (r, g', new) => Some (k r, g', new)
          | None => None
          end
      end k
  end.

Definition play_one (x : system) (who : option nat) (w : world) : option system :=
  match who with
  | None =>
      '(m, g, new) ← answer_one w (main x) (hub_of x);
      Some {| main := m; tasks := tasks x ++ new; hub_of := g |}
  | Some i =>
      p ← tasks x !! i;
      '(p', g, new) ← answer_one w p (hub_of x);
      Some {| main := main x; tasks := take i (tasks x) ++ p' :: drop (S i) (tasks x) ++ new; hub_of := g |}
  end.

Fixpoint play (x : system) (script : list (option nat * world)) : option system :=
  match script with
  | [] => Some x
  | (who, w) :: script' => y ← play_one x who w; play y script'
  end.

Lemma answer_one_inv {A} w (p p' : prog sys A) g g' new :
  answer_one w p g = Some (p', g', new) ->
  (exists o k, p = Op (S := sys) (inr o) k /\ p' = k (w (inr o)) /\ g' = g /\ new = []) \/
  (exists o k r, p = Op (S := sys) (inl o) k /\ act o (w (inl o)) g = Some (r, g', new) /\ p' = k r).
Proof.
  destruct p as [a|[o|o] k]; cbn [answer_one]; [done| |].
  - case_match eqn:Ea; [|done]. repeat case_match. intros [= <- <- <-]. subst.
    right. exists o, k, r. done.
  - intros [= <- <- <-]. left. by exists o, k.
Qed.

Lemma play_one_step x who w y : play_one x who w = Some y -> step x y.
Proof.
  destruct x as [m ts g], who as [i|]; simpl.
  - destruct (ts !! i) as [p|] eqn:Ei; simpl; [|done].
    pose proof (take_drop_middle ts i p Ei) as Et.
    destruct (answer_one w p g) as [[[p' g'] new]|] eqn:Ea; simpl; [|done]. intros [= <-].
    apply answer_one_inv in Ea as [(o & k & -> & -> & -> & ->)|(o & k & r & -> & Ha & ->)].
    + rewrite app_nil_r. rewrite <- Et at 1. by apply step_task_env.
    + rewrite app_comm_cons, app_assoc. rewrite <- Et at 1. by eapply step_task.
  - destruct (answer_one w m g) as [[[p' g'] new]|] eqn:Ea; simpl; [|done]. intros [= <-].
    apply answer_one_inv in Ea as [(o & k & -> & -> & -> & ->)|(o & k & r & -> & Ha & ->)].
    + rewrite app_nil_r. apply step_main_env.
    + by eapply step_main.
Qed.

Lemma play_steps x script y : play x script = Some y -> rtc step x y.
Proof.
  revert x; induction script as [|[who w] script IH]; intros x; simpl; [by intros [= <-]|].
  destruct (play_one x who w) as [z|] eqn:Ez; simpl; [|done]. intros Hp.
  eapply rtc_l; [by eapply play_one_step|]. by apply IH.
Qed.
End System.
