(* ===== verification/ListenTheorems.v ===== *)
(** * The slots of a client's direct carriers ([vendored-from-bore/client.rs])

    What holds of a client and its tasks in every state they reach: each direct
    carrier that is counted has a task that holds its slot, and there are never
    more than were asked for.  And what a client can lose: a renewal. *)

From stdpp Require Import list.
From S2P Require Import Prelude Streams Json Proto Auth Text Reconnect Transport Fs Frames Addresses Stun Candidates Control Direct RefTransport Dial Listen ListenSystem.
Import ClientMessage(ClientMessage) ServerMessage(ServerMessage).

(** ** Slots

    [owns P d p]: a program that holds [d] slots takes, hands over and releases
    them one by one, never more than it holds, and ends in [P]. *)

Fixpoint owns {A} (P : A -> nat -> Prop) (d : nat) (p : prog sys A) : Prop :=
  match p with
  | Ret a => P a d
  | Op o k =>
      match o return (resp (s := sys) o -> prog sys A) -> Prop with
      | inl AddDirect => fun k => owns P (S d) (k tt)
      | inl SubDirect => fun k => match d with O => False | S d => owns P d (k tt) end
      | inl (SpawnDirect _) => fun k => match d with O => False | S d => owns P d (k tt) end
      | o => fun k => forall r, owns P d (k r)
      end k
  end.

(** [reserves t P room p]: the program knows of [room] slots below the target [t],
    and takes no other. *)
Fixpoint reserves {A} (t : N) (P : A -> N -> Prop) (room : N) (p : prog sys A) : Prop :=
  match p with
  | Ret a => P a room
  | Op o k =>
      match o return (resp (s := sys) o -> prog sys A) -> Prop with
      | inl LoadDirect => fun k => forall r : N, reserves t P (t - r)%N (k r)
      | inl AddDirect => fun k => (0 < room)%N /\ reserves t P (room - 1)%N (k tt)
      | inl SubDirect => fun _ => False
      | o => fun k => forall r, reserves t P room (k r)
      end k
  end.

(** A program that has nothing to do with slots. *)
Definition calm (o : op sys) : Prop :=
  match o with
  | inl (LoadDirect | AddDirect | SubDirect | SpawnDirect _) => False
  | _ => True
  end.

Definition never_adds (o : op sys) : Prop := match o with inl AddDirect => False | _ => True end.

Lemma owns_mono {A} (P Q : A -> nat -> Prop) d (p : prog sys A) :
  (forall a n, P a n -> Q a n) -> owns P d p -> owns Q d p.
Proof.
  intros HPQ. revert d; induction p as [a|[[]|o] k IH]; intros d; simpl; auto;
    destruct d; auto.
Qed.

Lemma owns_bind {A B} (Q : B -> nat -> Prop) d (p : prog sys A) (f : A -> prog sys B) :
  owns (fun a n => owns Q n (f a)) d p -> owns Q d (pbind p f).
Proof. revert d; induction p as [a|[[]|o] k IH]; intros d; simpl; auto; destruct d; auto. Qed.

Lemma owns_calm {A} (P : A -> nat -> Prop) d (p : prog sys A) :
  every calm p -> (forall a, P a d) -> owns P d p.
Proof.
  intros Hp Hd. induction p as [a|[[]|o] k IH]; simpl in *; auto; destruct Hp as [[] Hk]; auto.
Qed.

Lemma reserves_bind {A B} t (Q : B -> N -> Prop) room (p : prog sys A) (f : A -> prog sys B) :
  reserves t (fun a n => reserves t Q n (f a)) room p -> reserves t Q room (pbind p f).
Proof. revert room; induction p as [a|[[]|o] k IH]; intros room; simpl; auto; naive_solver. Qed.

Lemma reserves_calm {A} t (P : A -> N -> Prop) room (p : prog sys A) :
  every calm p -> (forall a, P a room) -> reserves t P room p.
Proof.
  intros Hp Hd. induction p as [a|[[]|o] k IH]; simpl in *; auto; destruct Hp as [[] Hk]; auto.
Qed.

Lemma calm_never_adds {A} (p : prog sys A) : every calm p -> every never_adds p.
Proof. apply every_mono. intros [[]|o]; done. Qed.

(** ** The programs of a client *)

Section Programs.
Context `{Json ClientMessage} `{Json ServerMessage} `{Crypto}.
Context `{StrDebug} `{HexText} `{Ipv6Text} (uuid_text : Uuid -> string).
Context `{ServerNames} `{MessageDebug} `{BasicAuths}.

Lemma direct_is_calm {A} (p : prog direct_env A) : every calm (on_direct (T := sys) p).
Proof. apply every_interp. intros o. split; [exact I|done]. Qed.

Lemma extra_is_calm {A} i (p : prog link A) : every calm (on_extra (T := sys) i p).
Proof. apply every_interp. intros o. split; [exact I|done]. Qed.

Ltac calm_base := intros; simpl; split; [exact I|done].

Lemma bind_is_calm port : every calm (bind_socket (T := sys) port).
Proof. apply bind_socket_each. calm_base. Qed.

Lemma recv_is_calm {M} `{Json M} (summary : M -> string) : every calm (delimited_recv (T := sys) summary).
Proof. apply delimited_recv_each. calm_base. Qed.

Lemma send_is_calm m : every calm (client_send (T := sys) m).
Proof. apply client_send_each. calm_base. Qed.

Lemma offer_is_calm endpoint stun pm pp port :
  every calm (offer_provider_candidates (T := sys) endpoint stun pm pp port).
Proof. apply offer_each; calm_base. Qed.

Lemma check_is_calm endpoint stun port b :
  every calm (resolve_stun_and_check (T := sys) endpoint stun port b).
Proof. apply check_each; calm_base. Qed.

(** A direct carrier's task starts with its slot, and gives back no other. *)
Lemma serve_direct_calm n : every calm (serve_direct (T := sys) n).
Proof. induction n as [|n IH]; simpl; [done|]. split; [done|]. intros [s| |]; simpl; auto. Qed.

Lemma spawn_direct_owns n args : owns (fun _ _ => True) 1 (spawn_direct (T := sys) n args).
Proof.
  unfold spawn_direct. apply owns_bind, owns_calm; [apply bind_is_calm|].
  intros [socket|e|]; [|simpl; auto..].
  apply owns_bind, owns_calm; [apply direct_is_calm|]. intros [[]|e|]; [|simpl; auto..].
  cbn. intros _. apply owns_bind, owns_calm; [apply serve_direct_calm|]. by intros [|]; simpl.
Qed.

Lemma spawn_direct_never_adds n args : every never_adds (spawn_direct (T := sys) n args).
Proof.
  assert (Hr : every never_adds (release (T := sys))) by done.
  unfold spawn_direct. apply every_bind; [apply calm_never_adds, bind_is_calm|].
  intros [socket|e|]; [|done..].
  apply every_bind; [apply calm_never_adds, direct_is_calm|]. intros [[]|e|]; [|done..].
  apply every_bind; [done|]. intros _.
  apply every_bind; [apply calm_never_adds, serve_direct_calm|]. by intros [|].
Qed.

Lemma carrier_pump_calm n c : every calm (carrier_pump (T := sys) n c).
Proof.
  induction n as [|n IH]; simpl; [done|]. split; [done|]. intros [s|]; simpl; [|done].
  split; [done|]. by intros [|].
Qed.

Lemma redial_calm dialer n i : every calm (redial (T := sys) uuid_text dialer n i).
Proof.
  revert i; induction n as [|n IH]; intros i; cbn [redial]; [done|].
  apply every_bind; [apply extra_is_calm|]. intros [[]|e|]; [|done..].
  apply every_bind; [done|]. intros _. apply IH.
Qed.

(** ** The loop *)

Lemma spawn_directs_owns n args : owns (fun _ d => d = 0) 0 (spawn_directs (T := sys) n args).
Proof. induction n as [|n IH]; simpl; auto. Qed.

Lemma spawn_directs_reserves t (P : unit -> N -> Prop) n args room :
  (N.of_nat n <= room)%N -> (forall r, P tt r) -> reserves t P room (spawn_directs (T := sys) n args).
Proof.
  revert room; induction n as [|n IH]; intros room Hn HP; simpl; [apply HP|].
  split; [lia|]. intros _. apply IH; [lia|done].
Qed.

Context (self : Client).

(** A program that holds no slot at its ends, and takes none it does not know to
    be free. *)
Definition settled {A} (p : prog sys A) : Prop :=
  owns (fun _ d => d = 0) 0 p /\
  forall room, reserves (direct_udp_target self) (fun _ _ => True) room p.

Lemma settled_calm {A} (p : prog sys A) : every calm p -> settled p.
Proof. intros Hp. split; [by apply owns_calm|]. intros room. by apply reserves_calm. Qed.

Lemma reserves_weaken {A} t (P Q : A -> N -> Prop) room (p : prog sys A) :
  (forall a r, P a r -> Q a r) -> reserves t P room p -> reserves t Q room p.
Proof. intros HPQ. revert room; induction p as [a|[[]|o] k IH]; intros room; simpl; auto; naive_solver. Qed.

Lemma settled_bind {A B} (p : prog sys A) (f : A -> prog sys B) :
  settled p -> (forall a, settled (f a)) -> settled (pbind p f).
Proof.
  intros [Ho Hr] Hf. split.
  - apply owns_bind. eapply owns_mono; [|exact Ho]. intros a n ->. apply Hf.
  - intros room. apply reserves_bind. eapply reserves_weaken; [|apply Hr]. intros a r _. apply Hf.
Qed.

Lemma on_offer_settled endpoint key port nonce tuning s :
  settled (on_offer (T := sys) self endpoint key port nonce tuning s).
Proof.
  unfold on_offer. apply settled_bind; [by apply settled_calm|].
  intros [addr|e|]; [|by apply settled_calm..]. split.
  - cbn. intros current. apply owns_bind. eapply owns_mono; [|apply spawn_directs_owns].
    by intros [] n ->.
  - intros room. cbn. intros current. apply reserves_bind. apply spawn_directs_reserves; [lia|done].
Qed.

Lemma drain_is_calm fuel : every calm (drain (T := sys) fuel).
Proof. induction fuel as [|fuel IH]; simpl; [done|]. split; [done|]. by intros [|]. Qed.

Lemma on_message_settled s m : settled (on_message (T := sys) self s m).
Proof.
  destruct m; cbn [on_message]; repeat case_match; try (by apply settled_calm); apply on_offer_settled.
Qed.

Lemma on_event_settled fuel s e : settled (on_event (T := sys) uuid_text fuel self s e).
Proof.
  destruct e as [| | | | |stream| |[stream|]]; cbn [on_event]; try (by apply settled_calm).
  - apply settled_bind; [apply settled_calm, recv_is_calm|].
    intros [[m|]|e|]; [apply on_message_settled|by apply settled_calm..].
  - apply settled_calm. unfold on_renewal_due, send_renewal.
    repeat case_match; each; apply send_is_calm.
  - apply settled_calm. apply every_bind; [apply drain_is_calm|done].
  - apply settled_calm. unfold on_udp_retry. repeat case_match; try done.
    apply every_bind; [done|]. intros now.
    apply every_bind; [apply offer_is_calm|]. intros [socket|e|]; [|done..].
    case_match; [|done]. apply every_bind; [apply check_is_calm|done].
  - apply settled_calm. unfold maybe_redial_carriers. case_match; [|done].
    apply every_bind; [|done]. apply every_bind; [done|]. intros n. case_match; [done|].
    apply every_bind; [done|]. by intros [|].
Qed.

Lemma listen_loop_settled turns fuel s : settled (listen_loop (T := sys) uuid_text turns fuel self s).
Proof.
  revert s; induction turns as [|turns IH]; intros s; cbn [listen_loop]; [by apply settled_calm|].
  apply settled_bind; [by apply settled_calm|]. intros e.
  apply settled_bind; [apply on_event_settled|]. intros [s'|r|]; [apply IH|by apply settled_calm..].
Qed.

Lemma start_pumps_calm cs : every calm (start_pumps (T := sys) cs).
Proof. induction cs as [|c cs IH]; simpl; [done|]. split; [done|]. by split. Qed.

Lemma listen_settled turns fuel : settled (listen (T := sys) uuid_text turns fuel self).
Proof.
  unfold listen. apply settled_bind; [by apply settled_calm|]. intros now.
  apply settled_bind; [apply settled_calm, start_pumps_calm|]. intros _. apply listen_loop_settled.
Qed.

(** ** The whole *)

Context (streams : nat) (Htarget : (direct_udp_target self < 2 ^ 64)%N).

Definition slot (d : nat) (p : prog sys unit) : Prop :=
  owns (fun _ _ => True) d p /\ every never_adds p.

(** [held]: how many slots each task holds. *)
Record accounted (x : system) (mine : nat) (room : N) (held : list nat) : Prop := {
  acc_main : owns (fun _ _ => True) mine (main x);
  acc_room : reserves (direct_udp_target self) (fun _ _ => True) room (main x);
  acc_tasks : Forall2 slot held (tasks x);
  acc_live : direct_live (hub_of x) = N.of_nat (mine + sum_list held);
  acc_bound : (direct_live (hub_of x) + room <= direct_udp_target self)%N
}.

Lemma fetch_sub_S n : fetch_sub (N.of_nat (S n)) = N.of_nat n.
Proof. unfold fetch_sub. destruct (N.eqb_spec (N.of_nat (S n)) 0); lia. Qed.

Lemma slot_calm d p : every calm p -> slot d p.
Proof. intros Hp. split; [by apply owns_calm|by apply calm_never_adds]. Qed.

Lemma batch_slots need : Forall (slot 0) (batch uuid_text self need).
Proof.
  unfold batch. destruct (carrier_dialer self); constructor; [|constructor].
  apply slot_calm, redial_calm.
Qed.

(** What an operation does to the slots of the program that performs it. *)
Lemma act_owns {A} (P : A -> nat -> Prop) d o k a r g g' new rest :
  owns P d (Op (S := sys) (inl o) k) -> act uuid_text self streams o a g = Some (r, g', new) ->
  (o = AddDirect -> (direct_live g < direct_udp_target self)%N) ->
  direct_live g = N.of_nat (d + rest) ->
  exists d' ds,
    owns P d' (k r) /\ Forall2 slot ds new /\ direct_live g' = N.of_nat (d' + sum_list ds + rest).
Proof.
  intros Ho Ha Hadd Hg.
  assert (Hsame : forall d' : nat, owns P d' (k r) -> new = [] -> direct_live g' = N.of_nat (d' + rest) ->
    exists d' ds, owns P d' (k r) /\ Forall2 slot ds new /\ direct_live g' = N.of_nat (d' + sum_list ds + rest)).
  { intros d' Hd' -> Hl. exists d', []. split_and!; [done|constructor|]. rewrite Hl. simpl. lia. }
  destruct o; simpl in Ho, Ha;
    try (repeat case_match; simplify_eq/=; by apply (Hsame d)).
  - (* AddDirect *) simplify_eq. apply (Hsame (S d)); [done..|]. simpl. unfold fetch_add.
    specialize (Hadd eq_refl). rewrite N.mod_small by lia. lia.
  - (* SubDirect *) destruct d as [|d]; [done|]. simplify_eq. apply (Hsame d); [done..|].
    simpl. rewrite Hg. apply (fetch_sub_S (d + rest)).
  - (* SpawnDirect *) destruct d as [|d]; [done|]. simplify_eq.
    exists d, [1]. split_and!; [done| |simpl; lia]. constructor; [|constructor].
    split; [apply spawn_direct_owns|apply spawn_direct_never_adds].
  - (* SpawnPump *) simplify_eq. exists d, [0]. split_and!; [apply Ho| |simpl; lia].
    constructor; [|constructor]. apply slot_calm, carrier_pump_calm.
  - (* SpawnRedial *) simplify_eq. exists d, (replicate (length (batch uuid_text self need)) 0).
    split_and!; [apply Ho| |].
    + apply Forall2_replicate_l; [done|apply batch_slots].
    + assert (E : forall n, sum_list (replicate n 0) = 0) by (induction n; done). rewrite E. lia.
Qed.

Lemma act_room {A} t (P : A -> N -> Prop) room o k a r g g' new :
  (t < 2 ^ 64)%N ->
  reserves t P room (Op (S := sys) (inl o) k) -> act uuid_text self streams o a g = Some (r, g', new) ->
  (direct_live g + room <= t)%N ->
  exists room', reserves t P room' (k r) /\ (direct_live g' + room' <= t)%N.
Proof.
  intros Ht Ho Ha Hg.
  destruct o; simpl in Ho, Ha;
    try (repeat case_match; simplify_eq/=; by exists room).
  - simplify_eq. exists (t - direct_live g')%N. split; [apply Ho|lia].
  - simplify_eq. destruct Ho as [Hroom Hk]. exists (room - 1)%N. split; [done|]. simpl.
    unfold fetch_add. rewrite N.mod_small by lia. lia.
Qed.

(** Only the loop takes slots. *)
Lemma act_takes_none o a r g g' new :
  o <> AddDirect -> (o = SubDirect -> (0 < direct_live g)%N) ->
  act uuid_text self streams o a g = Some (r, g', new) -> (direct_live g' <= direct_live g)%N.
Proof.
  intros Hadd Hsub Ha. destruct o; simpl in Ha; try done;
    try (repeat case_match; simplify_eq/=; lia).
  simplify_eq/=. specialize (Hsub eq_refl). unfold fetch_sub.
  destruct (N.eqb_spec (direct_live g) 0); lia.
Qed.

Lemma accounted_step x y mine room held :
  accounted x mine room held -> step uuid_text self streams x y ->
  exists mine' room' held', accounted y mine' room' held'.
Proof.
  intros [Hm Hr Ht Hl Hb] Hs. destruct Hs as [o k a ts g|o k a r ts g g' new Ha|m l1 l2 o k a g
    |m l1 l2 o k a r g g' new Ha]; simpl in *.
  - exists mine, room, held. by split; simpl.
  - destruct (act_owns (fun _ _ => True) mine o k a r g g' new (sum_list held) Hm Ha) as (d' & ds & Hk & Hds & Hg).
    { intros ->. destruct Hr as [Hroom _]. lia. }
    { lia. }
    destruct (act_room _ _ room o k a r g g' new Htarget Hr Ha Hb) as (room' & Hr' & Hb').
    exists d', room', (held ++ ds). split; simpl; [done..| | |done].
    + by apply Forall2_app.
    + rewrite Hg, sum_list_with_app. lia.
  - apply Forall2_app_inv_r in Ht as (h1 & h2 & Ht1 & Ht2 & ->).
    apply Forall2_cons_inv_r in Ht2 as (d & h2' & [Ho Hn] & Ht2 & ->).
    exists mine, room, (h1 ++ d :: h2'). split; simpl; [done..| |done|done].
    apply Forall2_app; [done|]. constructor; [|done]. split; [apply Ho|apply Hn].
  - apply Forall2_app_inv_r in Ht as (h1 & h2 & Ht1 & Ht2 & ->).
    apply Forall2_cons_inv_r in Ht2 as (d & h2' & [Ho Hn] & Ht2 & ->).
    rewrite sum_list_with_app in Hl. simpl in Hl. destruct Hn as [Hadd Hn].
    destruct (act_owns (fun _ _ => True) d o k a r g g' new (mine + sum_list h1 + sum_list h2') Ho Ha)
      as (d' & ds & Hk & Hds & Hg).
    { by intros ->. }
    { lia. }
    assert (Hle : (direct_live g' <= direct_live g)%N).
    { eapply act_takes_none; [| |exact Ha]; intros E; subst o; [done|]. destruct d; [done|lia]. }
    exists mine, room, ((h1 ++ d' :: h2') ++ ds). split; simpl; [done..| | |lia].
    + apply Forall2_app; [|done]. apply Forall2_app; [done|]. constructor; [|done].
      split; [done|apply Hn].
    + rewrite Hg, !sum_list_with_app. simpl. lia.
Qed.

Lemma accounted_reached turns fuel x :
  reached uuid_text self streams turns fuel x -> exists mine room held, accounted x mine room held.
Proof.
  intros Hx. unfold reached in Hx.
  assert (Hs : exists mine room held, accounted (start uuid_text self turns fuel) mine room held).
  { exists 0, 0%N, []. destruct (listen_settled turns fuel) as [Ho Hr].
    split; cbn [start main tasks hub_of direct_live]; [|apply Hr|constructor|done|lia].
    eapply owns_mono; [|exact Ho]. done. }
  induction Hx as [|x y z Hxy _ IH]; [done|]. apply IH.
  destruct Hs as (mine & room & held & Hs). by eapply accounted_step.
Qed.
End Programs.


(** ** A lost renewal *)

(** The loop waits, with no renewal due, and every task has returned. *)
Definition waits {A} (p : prog sys A) : bool :=
  match p with Op (inl (SelectEvent false)) _ => true | _ => false end.
Definition returned {A} (p : prog sys A) : bool := match p with Ret _ => true | _ => false end.

#[local] Instance lone_client_json : Json ClientMessage :=
  {| to_vec := fun _ => Ok []; from_slice := fun _ => Err "bad" |}.
#[local] Instance lone_server_json : Json ServerMessage :=
  {| to_vec := fun _ => Ok [];
     from_slice := fun _ => Ok (ServerMessage.PublicUdp 443 [] UdpDirectTuning_default) |}.
#[local] Instance lone_str_debug : StrDebug := fun s => s.
#[local] Instance lone_hex : HexText := fun b => String.string_of_list_byte b.
#[local] Instance lone_ipv6 : Ipv6Text := fun _ => "::".
#[local] Instance lone_debug : MessageDebug := fun _ => "".
#[local] Instance lone_names : ServerNames := fun h => Ok h.
#[local] Instance lone_basic : BasicAuths := {| BasicAuth := unit; basic_auth_parse := fun _ => None |}.
#[local] Instance lone_crypto : Crypto :=
  {| sha256 := fun b => b; hmac_sha256 := fun _ _ => replicate 32 x07;
     hex_encode := String.string_of_list_byte; hex_decode := fun s => Some (String.list_byte_of_string s) |}.

(** A public tunnel with one direct carrier. *)
Definition lone_client : Client :=
  {| local_host := "localhost"; local_port := 80; remote_port := 7000; udp_socket := None;
     secret := Some "s"; udp_cfg := None; vhost_udp := false; direct_endpoint := Some (parse "bore.tld");
     direct_key := Some "port:7000"; direct_udp_carriers := 1; client_basic_auth := None;
     carrier_acceptors := []; carrier_dialer := None; expects_ip := false; access_logger := false;
     vhost_subdomain := None |}.

(** Everything succeeds, except that the direct connection is closed once it is
    established. *)
Definition lone_world (e : listen_event) : world :=
  fun o =>
    match o return resp (s := sys) o with
    | inl (SelectEvent _) => e
    | inl LoadDirect | inl LoadCarriers | inl NowMs => 0%N
    | inl TryRecvRenew | inl SwapInflight => false
    | inl (SendCarrierStream _) => true
    | inl (LookupIp _ _) => Ok [Sock (V4 1) 443]
    | inl AcceptDirectStream => Err "closed"
    | inl (AcceptCarrierStream _) => None
    | inl _ => tt
    | inr (inl FramedNext) => Some (Ok [])
    | inr (inl (FramedSend _)) => Ok tt
    | inr (inl (Traced _ _)) => tt
    | inr (inr (inl _)) => false
    | inr (inr (inr (inl (_, inl FramedNext)))) => None
    | inr (inr (inr (inl (_, inl (FramedSend _))))) => Ok tt
    | inr (inr (inr (inl (_, inl (Traced _ _))))) => tt
    | inr (inr (inr (inl (_, inr (inl _))))) => false
    | inr (inr (inr (inl (_, inr (inr (TcpConnectT _ _ _)))))) | inr (inr (inr (inl (_, inr (inr (TlsConnectT _ _ _)))))) => Elapsed
    | inr (inr (inr (inl (_, inr (inr TlsVersions))))) | inr (inr (inr (inl (_, inr (inr OpenStream))))) => Ok tt
    | inr (inr (inr (inr (inl RandomTxid)))) => []
    | inr (inr (inr (inr (inl (Stun.SendTo _ _))))) => Ok 0%N
    | inr (inr (inr (inr (inl (RecvFrom _))))) => Ok ([], Sock (V4 1) 1)
    | inr (inr (inr (inr (inl (RecvFromT _ _))))) => Elapsed
    | inr (inr (inr (inr (inl (SleepMs _))))) => tt
    | inr (inr (inr (inr (inr (inl (LookupHost _)))))) => Ok []
    | inr (inr (inr (inr (inr (inl LocalAddr))))) | inr (inr (inr (inr (inr (inl ProbeAddr))))) => Ok (Sock (V4 1) 1)
    | inr (inr (inr (inr (inr (inl ProbeBind))))) | inr (inr (inr (inr (inr (inl ProbeConnect))))) => Ok tt
    | inr (inr (inr (inr (inr (inl SearchGateway))))) => Ok tt
    | inr (inr (inr (inr (inr (inl (AddAnyPort _)))))) => Ok 1%N
    | inr (inr (inr (inr (inr (inl GetExternalIp))))) => Ok (V4 1)
    | inr (inr (inr (inr (inr (inr (inl NewUdpSocket)))))) => Ok 0
    | inr (inr (inr (inr (inr (inr (inl SetReuse)))))) => tt
    | inr (inr (inr (inr (inr (inr (inl _)))))) => Ok tt
    | inr (inr (inr (inr (inr (inr (inr (inl (WriteT _ b)))))))) => InTime (Ok 0%N)
    | inr (inr (inr (inr (inr (inr (inr (inl (ReadT _ _)))))))) => Elapsed
    | inr (inr (inr (inr (inr (inr (inr (inl (Read _)))))))) => Ok []
    | inr (inr (inr (inr (inr (inr (inr (inl (ReadExact n)))))))) => Ok (replicate (N.to_nat n) x07)
    | inr (inr (inr (inr (inr (inr (inr (inl _))))))) => Ok tt
    | inr (inr (inr (inr (inr (inr (inr (inr (inl _)))))))) => false
    | inr (inr (inr (inr (inr (inr (inr (inr (inr (inl ClientEndpoint))))))))) => Ok tt
    | inr (inr (inr (inr (inr (inr (inr (inr (inr (inl ServerEndpoint))))))))) => Ok tt
    | inr (inr (inr (inr (inr (inr (inr (inr (inr (inl AcceptConnection))))))))) => None
    | inr (inr (inr (inr (inr (inr (inr (inr (inr (inl (NextAttempt _ _)))))))))) => Elapsed
    | inr (inr (inr (inr (inr (inr (inr (inr (inr (inl ConfigureBuffers))))))))) => tt
    | inr (inr (inr (inr (inr (inr (inr (inr (inr (inl FinishStream))))))))) => tt
    | inr (inr (inr (inr (inr (inr (inr (inr (inr (inl _))))))))) => Ok tt
    | inr (inr (inr (inr (inr (inr (inr (inr (inr (inr RandomTxid))))))))) => []
    | inr (inr (inr (inr (inr (inr (inr (inr (inr (inr (Stun.SendTo _ _)))))))))) => Ok 0%N
    | inr (inr (inr (inr (inr (inr (inr (inr (inr (inr (RecvFrom _)))))))))) => Ok ([], Sock (V4 1) 1)
    | inr (inr (inr (inr (inr (inr (inr (inr (inr (inr (RecvFromT _ _)))))))))) => Elapsed
    | inr (inr (inr (inr (inr (inr (inr (inr (inr (inr (SleepMs _)))))))))) => tt
    end.

(** The loop takes the offer and spawns the carrier; the carrier is established,
    signals so, is closed, and asks for a renewal; the loop then hears that it is
    up. *)
Definition lost_script : list (option nat * world) :=
  replicate 9 (None, lone_world ControlReady) ++ replicate 27 (Some 0, lone_world ControlReady) ++
  replicate 3 (None, lone_world DirectUp).

Definition quiet (x : system) : bool :=
  waits (main x) && forallb returned (tasks x) && (direct_live (hub_of x) =? 0)%N &&
  (ups (hub_of x) =? 0)%nat && (renews (hub_of x) =? 0)%nat.

(** A renewal can be lost.  A tunnel that wants one direct carrier can reach a state
    with none, where every task has returned and the loop waits with no renewal
    queued and none due: the carrier came up and was closed before the loop heard
    either, and hearing that it came up drains the renewal its end had asked for.
    From there on only a message of the server can bring a carrier back. *)
Theorem renewal_can_be_lost :
  exists x, reached (fun _ => "") lone_client 9 4 9 x /\ quiet x = true /\
    direct_udp_target lone_client = 1%N /\
    forall e, e = RenewalDue \/ e = RenewalAsked \/ e = DirectUp ->
      act (fun _ => "") lone_client 9 (SelectEvent false) e (hub_of x) = None.
Proof.
  assert (Hq : quiet <$> play (fun _ => "") lone_client 9 (start (fun _ => "") lone_client 4 9) lost_script
               = Some true) by by vm_compute.
  apply fmap_Some in Hq as (x & Hx & Hq). symmetry in Hq. exists x.
  split; [by eapply play_steps|]. split; [done|]. split; [done|].
  unfold quiet in Hq. rewrite !andb_true_iff in Hq. destruct Hq as [[_ Hu] Hr].
  apply Nat.eqb_eq in Hu, Hr. intros e [-> | [-> | ->]]; simpl; by rewrite ?Hu, ?Hr.
Qed.


(** ** Offers of a secret provider *)

Lemma every_bind_always {S A B} (P : op S -> Prop) (Q : A -> Prop) (p : prog S A) (f : A -> prog S B) :
  every P p -> always Q p -> (forall a, Q a -> every P (f a)) -> every P (pbind p f).
Proof. intros Hp Hq Hf. induction p as [a|o k IH]; simpl in *; [auto|]. destruct Hp. split; auto. Qed.

(** The port a socket is bound to. *)
Definition binds (o : op sys) : option N :=
  match o with
  | inr (inr (inr (inr (inr (inr (inl (BindPort p))))))) => Some p
  | _ => None
  end.

Definition spawns_path (o : op sys) : bool :=
  match o with inl (SpawnProviderDirect _ _ _ _) => true | _ => false end.

(** Neither another socket nor another direct path. *)
Definition no_more (o : op sys) : Prop := binds o = None /\ spawns_path o = false.

(** Of a trace: a direct path is spawned at most once, and nothing is bound after. *)
Fixpoint spawned_once (l : list (op sys)) : Prop :=
  match l with
  | [] => True
  | o :: l' => if spawns_path o then Forall no_more l' else spawned_once l'
  end.

(** Of a program, whose value satisfies [Q] once it spawned one. *)
Fixpoint once {A} (Q : A -> Prop) (p : prog sys A) : Prop :=
  match p with
  | Ret _ => True
  | Op o k => forall r, if spawns_path o then every no_more (k r) /\ always Q (k r) else once Q (k r)
  end.

Lemma once_none {A} (Q : A -> Prop) (p : prog sys A) : every (fun o => spawns_path o = false) p -> once Q p.
Proof. induction p as [a|o k IH]; simpl; [done|]. intros [-> Hk] r. by apply IH. Qed.

Lemma once_bind {A B} (Q : A -> Prop) (R : B -> Prop) (p : prog sys A) (f : A -> prog sys B) :
  once Q p -> (forall a, once R (f a)) -> (forall a, Q a -> every no_more (f a) /\ always R (f a)) ->
  once R (pbind p f).
Proof.
  intros Hp Hf HQ. induction p as [a|o k IH]; simpl in *; [done|]. intros r. specialize (Hp r).
  destruct (spawns_path o); [|auto]. destruct Hp as [He Ha]. split.
  - eapply every_bind_always; [exact He|exact Ha|]. intros a Hq. by apply HQ.
  - eapply always_bind; [exact Ha|]. intros a Hq. by apply HQ.
Qed.

Lemma once_trace {A St} (Q : A -> Prop) (h : handler sys St) (p : prog sys A) st l0 :
  once Q p -> exists l, (run (traced h) p (st, l0)).2.2 = l0 ++ l /\ spawned_once l.
Proof.
  revert st l0. induction p as [a|o k IH]; intros st l0; simpl; [exists []; by rewrite app_nil_r|].
  intros Hk. specialize (Hk (h o st).1). destruct (spawns_path o) eqn:Ho.
  - destruct Hk as [He _].
    destruct (traced_every no_more h (k (h o st).1) (h o st).2 (l0 ++ [o]) He) as (l & E & Hl).
    exists (o :: l). simpl. rewrite Ho. split; [|done].
    etrans; [exact (f_equal (fun x => x.2.2) E)|]. simpl. by rewrite <- app_assoc.
  - destruct (IH _ (h o st).2 (l0 ++ [o]) Hk) as (l & E & Hl). exists (o :: l). simpl. rewrite Ho.
    split; [|done]. etrans; [exact E|]. by rewrite <- app_assoc.
Qed.

Section Offers.
Context `{Json ClientMessage} `{Json ServerMessage} `{Crypto}.
Context `{StrDebug} `{HexText} `{Ipv6Text} (uuid_text : Uuid -> string).
Context `{ServerNames} `{MessageDebug} `{BasicAuths}.
Context (self : Client).

Definition own_port (o : op sys) : Prop :=
  forall p, binds o = Some p -> exists cfg, udp_cfg self = Some cfg /\ p = cfg_udp_port cfg.

(** A remapped port was found by a socket that is still there, or in use. *)
Definition settled_port (s : loop_state) : Prop :=
  preferred_port_remapped s = true -> punch_tx s = true \/ is_Some (ls_udp_socket s).

Definition next_is (Q : loop_state -> Prop) (t : turn) : Prop := match t with Next s => Q s | _ => True end.

(** A turn that leaves the offers alone. *)
Definition same_offers (s s' : loop_state) : Prop :=
  punch_tx s' = punch_tx s /\ ls_udp_socket s' = ls_udp_socket s /\
  preferred_port_remapped s' = preferred_port_remapped s.
Definition keeps (s : loop_state) (p : prog sys turn) : Prop :=
  every no_more p /\ always (next_is (same_offers s)) p.

(** A turn that makes no offer, though it may take a punch. *)
Definition turns_to (s : loop_state) (p : prog sys turn) : Prop :=
  every (fun o => binds o = None) p /\ (punch_tx s = true -> every no_more p) /\
  always (next_is (fun s' => same_offers s s' \/ punch_tx s' = true)) p.

Lemma keeps_turns s p : keeps s p -> turns_to s p.
Proof.
  intros [He Ha]. split; [by eapply every_mono; [|exact He]; intros ? []|]. split; [done|].
  eapply always_mono; [exact Ha|]. intros []; simpl; auto.
Qed.

Lemma keeps_after {A} s (p : prog sys A) (f : A -> prog sys turn) :
  every no_more p -> (forall a, keeps s (f a)) -> keeps s (pbind p f).
Proof.
  intros Hp Hf. split; [apply every_bind; [done|apply Hf]|].
  apply (always_bind (fun _ => True)); [by apply always_true|]. intros a _. apply Hf.
Qed.

Lemma keeps_next s s' : same_offers s s' -> keeps s (Ret (Next s')).
Proof. by split. Qed.

Lemma spawn_directs_no_more n args : every no_more (spawn_directs (T := sys) n args).
Proof.
  induction n as [|n IH]; simpl; [done|]. split; [done|]. intros _. split; [done|]. intros _. apply IH.
Qed.

Lemma drain_no_more fuel : every no_more (drain (T := sys) fuel).
Proof. induction fuel as [|fuel IH]; simpl; [done|]. split; [done|]. by intros [|]. Qed.

Lemma send_no_more m : every no_more (client_send (T := sys) m).
Proof. apply client_send_each. by intros [|m' |]. Qed.

Lemma recv_no_more {M} `{Json M} (summary : M -> string) : every no_more (delimited_recv (T := sys) summary).
Proof. apply delimited_recv_each. by intros [|m' |]. Qed.

Lemma redial_no_more dialer : every no_more (maybe_redial_carriers (T := sys) dialer).
Proof.
  unfold maybe_redial_carriers. apply every_bind; [done|]. intros n. case_match; [done|].
  apply every_bind; [done|]. by intros [|].
Qed.

Lemma on_offer_keeps endpoint key port nonce tuning s :
  keeps s (on_offer (T := sys) self endpoint key port nonce tuning s).
Proof.
  unfold on_offer. apply keeps_after; [by repeat split|]. intros [addr|e|].
  - apply keeps_after; [by repeat split|]. intros current.
    apply keeps_after; [apply spawn_directs_no_more|]. intros _. by apply keeps_next.
  - apply keeps_after; [by repeat split|]. intros _. by apply keeps_next.
  - by repeat split.
Qed.

Lemma send_renewal_keeps m s s' : same_offers s s' -> keeps s (send_renewal (T := sys) m s').
Proof.
  intros Hs. unfold send_renewal. apply keeps_after; [apply send_no_more|]. by intros [|e|].
Qed.

Lemma on_message_turns s m : turns_to s (on_message (T := sys) self s m).
Proof.
  destruct m; cbn [on_message];
    try (repeat case_match; apply keeps_turns; apply on_offer_keeps || by apply keeps_next).
  destruct (punch_tx s) eqn:Hs.
  - apply keeps_turns, keeps_after; [by repeat split|]. intros _. by apply keeps_next.
  - destruct (ls_udp_socket s), (udp_cfg self); try by apply keeps_turns.
    split; [done|]. split; [by rewrite Hs|]. intros r. by right.
Qed.

Lemma on_event_keeps fuel s e :
  e <> ControlReady -> e <> UdpRetryTick -> keeps s (on_event (T := sys) uuid_text fuel self s e).
Proof.
  intros Hc He. destruct e as [| | | | |stream| |[stream|]]; cbn [on_event]; [done| | | |done| | | |].
  - unfold on_renewal_due. repeat case_match; apply send_renewal_keeps || apply keeps_next; done.
  - apply keeps_next. unfold on_renewal_asked. by repeat case_match.
  - unfold on_direct_up. apply keeps_after; [apply drain_no_more|]. by intros [|].
  - apply keeps_after; [by repeat split|]. intros _. by apply keeps_next.
  - destruct (carrier_dialer self); [|by apply keeps_next].
    apply keeps_after; [apply redial_no_more|]. intros _. by apply keeps_next.
  - apply keeps_after; [by repeat split|]. intros _. by apply keeps_next.
  - by repeat split.
Qed.

(** Every event but the retry. *)
Lemma on_event_turns fuel s e :
  e <> UdpRetryTick -> turns_to s (on_event (T := sys) uuid_text fuel self s e).
Proof.
  intros He. destruct (decide (e = ControlReady)) as [->|Hc]; [|by apply keeps_turns, on_event_keeps].
  cbn [on_event]. split; [|split].
  - apply every_bind; [apply (every_mono no_more); [by intros o []|apply recv_no_more]|].
    intros [[m|]|err|]; [apply on_message_turns|done..].
  - intros Hs. apply every_bind; [apply recv_no_more|].
    intros [[m|]|err|]; [by apply on_message_turns|done..].
  - apply (always_bind (fun _ => True)); [by apply always_true|].
    intros [[m|]|err|] _; [apply on_message_turns|done..].
Qed.

(** A base operation that binds at most the port of the client. *)
Ltac own_base := match goal with
  | |- every own_port (call (S := framed_sig) ?o) => destruct o
  | |- every own_port (call (S := extra_sig) ?o) => idtac
  | |- every own_port (call ?o) => destruct o
  end; split; try done; intros p [=].

(** The retry offers the port of the client, and keeps it settled. *)
Lemma on_udp_retry_settles s :
  settled_port s ->
  every own_port (on_udp_retry (T := sys) self s) /\
  always (next_is settled_port) (on_udp_retry (T := sys) self s).
Proof.
  intros Hs. unfold on_udp_retry.
  destruct (punch_tx s) eqn:Hp; [by split|]. destruct (ls_udp_socket s) as [n|] eqn:Hu; [by split|].
  destruct (udp_cfg self) as [cfg|] eqn:Hc; [|by split].
  assert (preferred_port_remapped s = false) as ->.
  { destruct (preferred_port_remapped s) eqn:Hr; [|done]. destruct (Hs Hr) as [Ht|[? Ht]]; congruence. }
  cbn [negb orb andb].
  assert (Hbind : forall o, bound_to (cfg_udp_port cfg) o -> every own_port (call (S := bind_sig) (T := sys) o)).
  { intros [| | |q|] Ho; (split; [|done]); intros p [=]. exists cfg. split; [done|]. simpl in Ho. congruence. }
  split.
  - apply every_bind; [by repeat split|]. intros now. rewrite ?andb_false_r. cbn [orb].
    apply every_bind; [apply offer_each; [intros o; own_base..|exact Hbind]|].
    intros [n|e|]; [|done..]. case_match; [|done].
    apply every_bind; [|done]. apply check_each; [intros o; own_base..|exact Hbind].
  - apply (always_bind (fun _ => True)); [by apply always_true|]. intros now _.
    apply (always_bind (fun _ => True)); [by apply always_true|].
    intros [n|e|] _; [|by intros ?|done]. case_match.
    + eapply (always_bind (fun _ => True)); [by apply always_true|].
      intros [[? remapped]|e|] _; [|done..]. intros _. right. by eexists.
    + by intros ?.
Qed.

(** Once there is a direct path, or was one, the loop makes no other. *)
Lemma punching_loop turns fuel s :
  punch_tx s = true -> every no_more (listen_loop (T := sys) uuid_text turns fuel self s).
Proof.
  revert s. induction turns as [|turns IH]; intros s Hs; cbn [listen_loop]; [done|].
  apply every_bind; [by repeat split|]. intros e.
  assert (Ht : turns_to s (on_event (T := sys) uuid_text fuel self s e)).
  { destruct (decide (e = UdpRetryTick)) as [->|He]; [|by apply on_event_turns].
    cbn [on_event]. unfold on_udp_retry. rewrite Hs. by apply keeps_turns. }
  destruct Ht as (_ & Ht & Ha). eapply every_bind_always; [by apply Ht|exact Ha|].
  intros [s'|r|]; simpl; [|done..]. intros [[Hp _]|Hp]; apply IH; congruence.
Qed.

Lemma settled_loop turns fuel s :
  settled_port s -> every own_port (listen_loop (T := sys) uuid_text turns fuel self s).
Proof.
  revert s. induction turns as [|turns IH]; intros s Hs; cbn [listen_loop]; [done|].
  apply every_bind; [by repeat split|]. intros e.
  destruct (decide (e = UdpRetryTick)) as [->|He].
  - cbn [on_event]. destruct (on_udp_retry_settles s Hs) as [Hr Ha].
    eapply every_bind_always; [exact Hr|exact Ha|]. intros [s'|r|]; simpl; auto.
  - destruct (on_event_turns fuel s e He) as (Hb & _ & Ha).
    eapply every_bind_always; [|exact Ha|].
    + eapply every_mono; [|exact Hb]. intros o Ho p. by rewrite Ho.
    + intros [s'|r|]; simpl; [|done..]. intros [(Hp & Hu & Hr)|Hp]; apply IH; intros Hm; [|auto].
      rewrite Hp, Hu. apply Hs. congruence.
Qed.
(** A punch is answered by a direct path last of all. *)
Definition punching (t : turn) : Prop := match t with Next s => punch_tx s = true | _ => True end.

Lemma keeps_once s p : keeps s p -> once punching p.
Proof. intros [Hp _]. apply once_none. by apply (every_mono no_more); [intros o []|]. Qed.

Lemma on_message_once s m : once punching (on_message (T := sys) self s m).
Proof.
  destruct m; cbn [on_message];
    try (repeat case_match; apply (keeps_once s); apply on_offer_keeps || by apply keeps_next).
  destruct (punch_tx s); [done|]. destruct (ls_udp_socket s), (udp_cfg self); done.
Qed.

Lemma on_udp_retry_spawns_nothing s : every (fun o => spawns_path o = false) (on_udp_retry (T := sys) self s).
Proof.
  unfold on_udp_retry.
  assert (Hb : forall p o, bound_to p o ->
    every (fun o => spawns_path o = false) (call (S := bind_sig) (T := sys) o)) by by intros p [| | |q|] _.
  repeat (case_match; try done). apply every_bind; [by repeat split|]. intros now.
  apply every_bind; [eapply offer_each; [by intros []..|apply Hb]|].
  intros [n'|err|]; [|done..]. case_match; [|done]. apply every_bind; [|done].
  eapply check_each; [by intros []..|apply Hb].
Qed.

Lemma on_event_once fuel s e : once punching (on_event (T := sys) uuid_text fuel self s e).
Proof.
  destruct (decide (e = UdpRetryTick)) as [->|He]; [apply once_none, on_udp_retry_spawns_nothing|].
  destruct (decide (e = ControlReady)) as [->|Hc]; [|by apply (keeps_once s), on_event_keeps].
  cbn [on_event]. apply (once_bind (fun _ => False)); [| |done].
  - apply once_none. apply (every_mono no_more); [by intros o []|apply recv_no_more].
  - intros [[m|]|err|]; [apply on_message_once|done..].
Qed.

Lemma listen_loop_once turns fuel s :
  once (fun _ => True) (listen_loop (T := sys) uuid_text turns fuel self s).
Proof.
  revert s. induction turns as [|turns IH]; intros s; cbn [listen_loop]; [done|].
  apply (once_bind (fun _ => False)); [by apply once_none; repeat split| |done]. intros e.
  apply (once_bind punching); [apply on_event_once| |].
  - intros [s'|r|]; [apply IH|done..].
  - intros [s'|r|] Hs; [|done..]. split; [by apply punching_loop|by apply always_true].
Qed.

(** C31: A client offers its candidates for one direct path only, and always from the
    port it was configured with: whatever happens while it listens, every socket it
    binds has that port, it spawns the task of a direct path at most once, and it
    binds nothing afterwards, even when that path has ended. *)
Theorem direct_path_is_tried_once {St} (h : handler sys St) turns fuel st :
  let trace := (run (traced h) (listen (T := sys) uuid_text turns fuel self) (st, [])).2.2 in
  Forall own_port trace /\ spawned_once trace.
Proof.
  intros trace.
  assert (Hn : forall cs, every no_more (start_pumps (T := sys) cs)).
  { induction cs as [|c cs IH]; simpl; [done|]. split; [done|]. intros _. split; [done|]. intros _. apply IH. }
  assert (Ho : every own_port (listen (T := sys) uuid_text turns fuel self)).
  { apply every_bind; [by repeat split|]. intros now. apply every_bind; [|intros _; by apply settled_loop].
    apply (every_mono no_more); [|apply Hn]. intros o [Ho _] p. by rewrite Ho. }
  assert (Hone : once (fun _ => True) (listen (T := sys) uuid_text turns fuel self)).
  { apply (once_bind (fun _ => False)); [by apply once_none; repeat split| |done]. intros now.
    apply (once_bind (fun _ => False)); [|intros _; apply listen_loop_once|done].
    apply once_none. apply (every_mono no_more); [by intros o []|apply Hn]. }
  subst trace. split.
  - destruct (traced_every own_port h _ st [] Ho) as (l & E & Hl). by rewrite E.
  - destruct (once_trace _ h _ st [] Hone) as (l & E & Hl). by rewrite E.
Qed.
End Offers.
