(* ===== verification/Consumer.v ===== *)
(** * The consumer of a secret tunnel ([vendored-from-bore/secret.rs])

    [Proxy]: the registration of a consumer, the negotiation of a direct path when
    it starts, its [select!] loop, and the background task that upgrades the relay
    to a direct path while the loop goes on forwarding. *)

From stdpp Require Import list.
From S2P Require Import Prelude Streams Json Proto Auth Text Reconnect Transport Fs Frames Addresses Stun Candidates Control Direct RefTransport Dial Forwarding Listen.
Import ClientMessage(ClientMessage) ServerMessage(ServerMessage).

Definition UDP_NEGOTIATE_TIMEOUT : N := 5.       (* seconds *)
Definition UDP_UPGRADE_INITIAL_SECS : N := 2.
Definition UDP_UPGRADE_MAX_SECS : N := 256.

(** ** Operations *)

(** What the server's [UdpPunch] carries to an upgrade task. *)
Record punch_msg : Type := {
  punch_nonce : bytes;
  punch_peer : list SocketAddr;
  punch_stun : option string;
  punch_tuning : UdpDirectTuning;
}.

Record upgrade_args : Type := {
  up_endpoint : Endpoint;
  up_secret : option string;
  up_stun_server : option string;
  up_hint : option string;
  up_port_map : bool;
  up_port_prediction : bool;
  up_udp_port : N;
}.

(** One end of a [oneshot] channel, by the number of the attempt or connection. *)
Inductive channel_end : Type :=
| CandRx (attempt : nat)
| PunchTx (attempt : nat)
| DoneRx (attempt : nat)
| ClosedRx (conn : nat).

(** What wakes the loop. *)
Inductive proxy_event : Type :=
| ProxyControl                            (* [control.recv()] can proceed *)
| CandReady (offer : option UdpOfferMsg)
| UpgradeDone (conn : option nat)
| DirectClosed
| ReleaseTick
| LocalAccepted (r : result io_error nat).

Inductive consumer_op : Type :=
| SelectProxy (cand done closed : option nat)
| InstantNow                              (* milliseconds *)
| SpawnUpgrade (args : upgrade_args)      (* the number of the attempt *)
| SendPunchTo (attempt : nat) (punch : option punch_msg)
| DropEnd (e : channel_end)
| SpawnMonitor (conn : nat)
| SpawnForward (local : nat) (opener : StreamOpener)
| PoolPush (carrier : nat) (max : N)      (* of a carrier that is alive *)
| PoolPick
| SpawnDrain (carrier : nat)
| MarkDead (carrier : nat)
| BindListener (addr : SocketAddr)
| SendCand (attempt : nat) (offer : UdpOfferMsg)       (* whether the loop is still there *)
| AwaitPunch (attempt : nat)
| SendDone (attempt conn : nat)
| WaitClosed (conn : nat)
| SendClosed (conn : nat).

Definition consumer_sig : sig :=
  Sig consumer_op (fun o =>
    match o with
    | SelectProxy _ _ _ => proxy_event
    | InstantNow => Z
    | SpawnUpgrade _ => nat
    | PoolPush _ _ | SendCand _ _ => bool
    | PoolPick => option nat
    | BindListener _ => result io_error unit
    | AwaitPunch _ => option (option punch_msg)
    | _ => unit
    end).

(** ** State *)

(** The pool of a relay is shared with the tasks that drain its carriers. *)
Inductive DataPath : Type := Relay | DirectPath (conn : nat).

Record Proxy : Type := {
  data_path : DataPath;
  direct : bool;
  direct_closed_rx : option nat;
  proxy_udp : bool;
  proxy_endpoint : Endpoint;
  proxy_secret : option string;
  proxy_stun_server : option string;
  proxy_port_map : bool;
  proxy_port_prediction : bool;
  proxy_udp_port : N;
  proxy_release_timeout : N;              (* seconds *)
  upgrade_backoff : Backoff;
  upgrade_attempt : N;                    (* u64 *)
}.

(** The locals of [Proxy::listen] that change; instants are in milliseconds. *)
Record proxy_state : Type := {
  path : DataPath;
  is_direct : bool;
  closed_rx : option nat;
  backoff : Backoff;
  attempt : N;
  last_upgrade : Z;
  port_remapped : bool;
  effective_udp_port : N;
  waiting_for_stun_hint : bool;
  nego_cand_rx : option nat;
  nego_punch_tx : option nat;
  nego_done_rx : option nat;
}.

Definition with_path (s : proxy_state) (p : DataPath) (d : bool) (c : option nat) : proxy_state :=
  {| path := p; is_direct := d; closed_rx := c; backoff := backoff s; attempt := attempt s;
     last_upgrade := last_upgrade s; port_remapped := port_remapped s;
     effective_udp_port := effective_udp_port s; waiting_for_stun_hint := waiting_for_stun_hint s;
     nego_cand_rx := nego_cand_rx s; nego_punch_tx := nego_punch_tx s; nego_done_rx := nego_done_rx s |}.
Definition with_schedule (s : proxy_state) (b : Backoff) (a : N) (l : Z) : proxy_state :=
  {| path := path s; is_direct := is_direct s; closed_rx := closed_rx s; backoff := b; attempt := a;
     last_upgrade := l; port_remapped := port_remapped s;
     effective_udp_port := effective_udp_port s; waiting_for_stun_hint := waiting_for_stun_hint s;
     nego_cand_rx := nego_cand_rx s; nego_punch_tx := nego_punch_tx s; nego_done_rx := nego_done_rx s |}.
Definition with_ports (s : proxy_state) (remapped : bool) (port : N) : proxy_state :=
  {| path := path s; is_direct := is_direct s; closed_rx := closed_rx s; backoff := backoff s;
     attempt := attempt s; last_upgrade := last_upgrade s; port_remapped := remapped;
     effective_udp_port := port; waiting_for_stun_hint := waiting_for_stun_hint s;
     nego_cand_rx := nego_cand_rx s; nego_punch_tx := nego_punch_tx s; nego_done_rx := nego_done_rx s |}.
Definition with_waiting (s : proxy_state) (w : bool) : proxy_state :=
  {| path := path s; is_direct := is_direct s; closed_rx := closed_rx s; backoff := backoff s;
     attempt := attempt s; last_upgrade := last_upgrade s; port_remapped := port_remapped s;
     effective_udp_port := effective_udp_port s; waiting_for_stun_hint := w;
     nego_cand_rx := nego_cand_rx s; nego_punch_tx := nego_punch_tx s; nego_done_rx := nego_done_rx s |}.
Definition with_nego (s : proxy_state) (cand punch done : option nat) : proxy_state :=
  {| path := path s; is_direct := is_direct s; closed_rx := closed_rx s; backoff := backoff s;
     attempt := attempt s; last_upgrade := last_upgrade s; port_remapped := port_remapped s;
     effective_udp_port := effective_udp_port s; waiting_for_stun_hint := waiting_for_stun_hint s;
     nego_cand_rx := cand; nego_punch_tx := punch; nego_done_rx := done |}.

(** How a turn of the loop ends. *)
Inductive proxy_turn : Type := Continue (s : proxy_state) | Leave (r : ares unit).

(** [Instant::checked_sub], whose seconds are an [i64]. *)
Definition instant_sub (now : Z) (ms : N) : option Z :=
  let t := (now - Z.of_N ms)%Z in if (t <? - 2 ^ 63 * 1000)%Z then None else Some t.

(** [Instant::elapsed] saturates. *)
Definition elapsed (now since : Z) : Z := Z.max 0 (now - since).

(** Programs that may be cut at a bound of turns, or fail. *)
Abbreviation cut A := (option (ares A)).

Definition cbind {S A B} (p : prog S (cut A)) (f : A -> prog S (cut B)) : prog S (cut B) :=
  pbind p (fun r =>
    match r with
    | Some (Ok a) => f a
    | Some (Err e) => Ret (Some (Err e))
    | Some Panicked => Ret (Some Panicked)
    | None => Ret None
    end).
#[local] Notation "'let^' x := p 'in' q" := (cbind p (fun x => q)) (at level 200, x pattern, q at level 200).

Definition uncut {S A} (p : prog S (ares A)) : prog S (cut A) := let! r := p in Ret (Some r).

Section Consumer.
Context `{Json ClientMessage} `{Json ServerMessage} `{Crypto}.
Context `{StrDebug} `{HexText} `{Ipv6Text} (uuid_text : Uuid -> string).
Context `{ServerNames}.
Context {T : sig} `{Has consumer_sig T} `{Has framed_sig T} `{Has timer_sig T} `{Has dial_sig T}
  `{Has extra_sig T} `{Has udp_sig T} `{Has host_sig T} `{Has bind_sig T} `{Has direct_env T}.

Definition consumer (o : consumer_op) : prog T (resp (s := consumer_sig) o) := call (S := consumer_sig) o.

(** [control.recv()]. *)
Definition recv_server : prog T (ares (option ServerMessage)) := delimited_recv (server_summary uuid_text).

(** ** Tasks *)

(** [spawn_closed_monitor]'s. *)
Definition closed_monitor (conn : nat) : prog T unit :=
  let! _ := consumer (WaitClosed conn) in
  consumer (SendClosed conn).

Definition spawn_closed_monitor (conn : nat) : prog T nat :=
  let! _ := consumer (SpawnMonitor conn) in Ret conn.

(** [open_consumer_carrier]: the connection, which the pool may have no room for,
    and the task that reads its heartbeats. *)
Definition consumer_carrier (endpoint : Endpoint) (insecure : bool) (secret : option string) (id : string) :
  prog link (ares unit) :=
  let? _ := introduce uuid_text "failed to open carrier control stream" endpoint insecure secret
              (ClientMessage.ConnectSecret id None) in
  let? reply := recv_reply uuid_text in
  Ret (match reply with
       | Some ServerMessage.Ok => Ok tt
       | Some (ServerMessage.Error message) => Err (AnyMsg ("server error: " +:+ message))
       | _ => Err (AnyMsg "unexpected response to carrier connect")
       end).

Definition open_consumer_carrier (carrier : nat) (endpoint : Endpoint) (insecure : bool)
  (secret : option string) (id : string) (max : N) : prog T (ares unit) :=
  let? _ := on_extra carrier (consumer_carrier endpoint insecure secret id) in
  let! pushed := consumer (PoolPush carrier max) in
  if pushed : bool then let! _ := consumer (SpawnDrain carrier) in Ret (Ok tt) else Ret (Ok tt).

(** [for _ in 1..carriers]. *)
Fixpoint open_consumer_carriers (left carrier : nat) (endpoint : Endpoint) (insecure : bool)
  (secret : option string) (id : string) (max : N) : prog T (ares unit) :=
  match left with
  | O => Ret (Ok tt)
  | S left' =>
      let! r := open_consumer_carrier carrier endpoint insecure secret id max in
      match r with
      | Panicked => Ret Panicked
      | _ => open_consumer_carriers left' (S carrier) endpoint insecure secret id max
      end
  end.

Fixpoint drain_carrier (turns carrier : nat) : prog T unit :=
  match turns with
  | O => Ret tt
  | S turns' =>
      let! r := on_extra carrier (delimited_recv (server_summary uuid_text)) in
      match r with
      | Ok (Some _) => drain_carrier turns' carrier
      | Ok None | Err _ => consumer (MarkDead carrier)
      | Panicked => Ret tt
      end
  end.

(** ** The direct path *)

Definition gather_consumer_candidates (endpoint : Endpoint) (stun_server hint : option string)
  (port_map port_prediction : bool) (udp_port : N) : prog T (ares (nat * UdpOfferMsg)) :=
  let? socket := bind_socket udp_port in
  let? stun_targets :=
    (let! r := resolve_live_stun_targets_with_hint (Transport.host endpoint) (Transport.port endpoint)
                 stun_server hint in
     Ret (or_empty r)) in
  let? discovery := gather_candidates_from_stun_targets stun_targets port_map port_prediction in
  match candidates discovery with
  | [] =>
      Ret (Err (no_candidates "consumer" "STUN returned no addresses" "" discovery port_map port_prediction))
  | candidates =>
      Ret (Ok (socket, {| offered := candidates;
                          offered_stun := selected_requested <$> selected_stun discovery; peer_id := 0 |}))
  end.

(** The loops under [UDP_NEGOTIATE_TIMEOUT] are cut at a bound of messages. *)
Fixpoint hint_loop (turns : nat) : prog T (cut (option string)) :=
  match turns with
  | O => Ret None
  | S turns' =>
      let^ m := uncut recv_server in
      match m with
      | Some (ServerMessage.UdpStunHint stun_server) => Ret (Some (Ok stun_server))
      | Some (ServerMessage.Error err) => Ret (Some (Err (AnyMsg ("server error: " +:+ err))))
      | Some _ => hint_loop turns'
      | None => Ret (Some (Err (AnyMsg "server closed during udp stun hint request")))
      end
  end.

Definition request_provider_stun_hint (turns : nat) : prog T (cut (option string)) :=
  let^ _ := uncut (client_send ClientMessage.UdpStunHintRequest) in
  let! hint := timeout UDP_NEGOTIATE_TIMEOUT (hint_loop turns) in
  Ret (match hint with
       | InTime r => r
       | Elapsed => Some (Err (AnyContext "timed out waiting for provider STUN hint"
                                 (AnyMsg "deadline has elapsed")))
       end).

Fixpoint brokering_loop (turns : nat) : prog T (cut (option punch_msg)) :=
  match turns with
  | O => Ret None
  | S turns' =>
      let^ m := uncut recv_server in
      match m with
      | Some (ServerMessage.UdpPunch nonce peer stun tuning _) =>
          Ret (Some (Ok (Some {| punch_nonce := nonce; punch_peer := peer; punch_stun := stun;
                                 punch_tuning := tuning |})))
      | Some ServerMessage.UdpUnavailable => Ret (Some (Ok None))
      | Some (ServerMessage.Error err) => Ret (Some (Err (AnyMsg ("server error: " +:+ err))))
      | Some _ => brokering_loop turns'
      | None => Ret (Some (Err (AnyMsg "unexpected EOF during udp negotiation")))
      end
  end.

Definition finish_direct_consumer (secret : option string) (punch : punch_msg) : prog T (ares unit) :=
  let token := derive_token secret (punch_nonce punch) in
  on_direct (connect_direct (punch_peer punch) token).

(** The connection, if there is one. *)
Definition negotiate_direct_consumer (turns : nat) (endpoint : Endpoint) (secret stun_server : option string)
  (port_map port_prediction : bool) (udp_port : N) : prog T (cut bool) :=
  let^ hint := request_provider_stun_hint turns in
  let^ gathered := uncut (gather_consumer_candidates endpoint stun_server hint port_map port_prediction udp_port) in
  let^ _ := uncut (client_send (ClientMessage.UdpCandidateOffer gathered.2)) in
  let! outcome := timeout UDP_NEGOTIATE_TIMEOUT (brokering_loop turns) in
  match outcome with
  | InTime (Some (Ok (Some punch))) =>
      let^ _ := uncut (finish_direct_consumer secret punch) in Ret (Some (Ok true))
  | InTime (Some (Ok None)) | Elapsed => Ret (Some (Ok false))
  | InTime (Some (Err err)) => Ret (Some (Err err))
  | InTime (Some Panicked) => Ret (Some Panicked)
  | InTime None => Ret None
  end.

(** The number of the connection of an attempt; the one made at the start is 0. *)
Definition upgraded (attempt : nat) : nat := S attempt.

Definition upgrade_task (attempt : nat) (args : upgrade_args) : prog T unit :=
  let! gathered := gather_consumer_candidates (up_endpoint args) (up_stun_server args) (up_hint args)
                     (up_port_map args) (up_port_prediction args) (up_udp_port args) in
  match gathered with
  | Ok (_, candidates) =>
      let! sent := consumer (SendCand attempt candidates) in
      if sent : bool then
        let! punch := consumer (AwaitPunch attempt) in
        match punch with
        | Some (Some v) =>
            let! r := finish_direct_consumer (up_secret args) v in
            match r with
            | Ok _ => consumer (SendDone attempt (upgraded attempt))
            | _ => Ret tt
            end
        | _ => Ret tt
        end
      else Ret tt
  | _ => Ret tt
  end.

(** ** The start *)

(** [turns] bounds the messages read while negotiating. *)
Definition Proxy_new (turns : nat) (to : string) (bind_addr : SocketAddr) (tcp_secret_id : string)
  (secret : option string) (insecure udp : bool) (stun_server : option string)
  (port_map port_prediction : bool) (udp_port nat_udp_release_timeout carriers : N)
  (notes : option string) : prog T (cut Proxy) :=
  let endpoint := parse to in
  let^ _ := uncut (introduce uuid_text "failed to open control stream" endpoint insecure secret
                     (ClientMessage.ConnectSecret tcp_secret_id notes)) in
  let^ _ := uncut (expect_reply uuid_text
                     (fun m => match m with ServerMessage.Ok => Some tt | _ => None end)
                     "unexpected response to secret connect") in
  let^ direct :=
    (if udp then
       let! r := negotiate_direct_consumer turns endpoint secret stun_server port_map port_prediction udp_port in
       match r with
       | Some (Err _) => Ret (Some (Ok false))
       | r => Ret r
       end
     else Ret (Some (Ok false))) in
  let^ closed :=
    (if direct : bool then let! rx := spawn_closed_monitor 0 in Ret (Some (Ok (Some rx)))
     else Ret (Some (Ok None))) in
  let^ _ :=
    (if negb direct && (1 <? carriers)%N then
       uncut (open_consumer_carriers (N.to_nat (carriers - 1)) 1 endpoint insecure secret tcp_secret_id carriers)
     else Ret (Some (Ok tt))) in
  let! bound := consumer (BindListener bind_addr) in
  let^ _ := Ret (Some (context ("failed to bind " +:+ sock_display bind_addr) (map_err AnyIo bound))) in
  Ret (Some (Ok
    {| data_path := if direct then DirectPath 0 else Relay; direct := direct; direct_closed_rx := closed;
       proxy_udp := udp; proxy_endpoint := endpoint; proxy_secret := secret;
       proxy_stun_server := stun_server; proxy_port_map := port_map;
       proxy_port_prediction := port_prediction; proxy_udp_port := udp_port;
       proxy_release_timeout := nat_udp_release_timeout;
       upgrade_backoff := new_with UDP_UPGRADE_INITIAL_SECS UDP_UPGRADE_MAX_SECS; upgrade_attempt := 0 |})).

(** ** The loop *)

Definition drop_end (e : option channel_end) : prog T unit :=
  match e with Some e => consumer (DropEnd e) | None => Ret tt end.

(** An error of a send ends the loop, and not as an error. *)
Definition send_or_leave (m : ClientMessage) (s : proxy_state) : prog T proxy_turn :=
  let! r := client_send m in
  Ret (match r with Ok _ => Continue s | Err _ => Leave (Ok tt) | Panicked => Leave Panicked end).

(** An attempt starts when there is none and the backoff is over. *)
Definition kick_off (self : Proxy) (s : proxy_state) : prog T proxy_turn :=
  if proxy_udp self && negb (is_direct s) && negb (bool_decide (is_Some (nego_done_rx s)))
     && negb (waiting_for_stun_hint s) then
    let! now := consumer InstantNow in
    if (Z.of_N (peek (backoff s)) * 1000 <=? elapsed now (last_upgrade s))%Z then
      let! now := consumer InstantNow in
      let '(_, b) := next_delay (backoff s) in
      let s := with_schedule s b ((attempt s + 1) mod 2 ^ 64) now in
      let s := with_ports s (port_remapped s) (if port_remapped s then 0 else proxy_udp_port self) in
      send_or_leave ClientMessage.UdpStunHintRequest (with_waiting s true)
    else Ret (Continue s)
  else Ret (Continue s).

(** [nego_punch_tx.take()]. *)
Definition forward_punch (punch : option punch_msg) (s : proxy_state) : prog T proxy_turn :=
  match nego_punch_tx s with
  | Some a =>
      let! _ := consumer (SendPunchTo a punch) in
      Ret (Continue (with_nego s (nego_cand_rx s) None (nego_done_rx s)))
  | None => Ret (Continue s)
  end.

Definition on_server_message (self : Proxy) (s : proxy_state) (m : ServerMessage) : prog T proxy_turn :=
  match m with
  | ServerMessage.UdpPunch nonce peer stun tuning _ =>
      forward_punch (Some {| punch_nonce := nonce; punch_peer := peer; punch_stun := stun;
                             punch_tuning := tuning |}) s
  | ServerMessage.UdpStunHint hint =>
      if waiting_for_stun_hint s then
        let! a := consumer (SpawnUpgrade
          {| up_endpoint := proxy_endpoint self; up_secret := proxy_secret self;
             up_stun_server := proxy_stun_server self; up_hint := hint; up_port_map := proxy_port_map self;
             up_port_prediction := proxy_port_prediction self; up_udp_port := effective_udp_port s |}) in
        Ret (Continue (with_nego (with_waiting s false) (Some a) (Some a) (Some a)))
      else Ret (Continue s)
  | ServerMessage.UdpUnavailable => forward_punch None s
  | _ => Ret (Continue s)
  end.

(** Whether an offer shows that the preferred port was remapped. *)
Definition shows_remap (self : Proxy) (s : proxy_state) (offer : UdpOfferMsg) : bool :=
  negb (port_remapped s) && negb (proxy_udp_port self =? 0)%N && (0 <? proxy_release_timeout self)%N &&
  match offered offer with
  | first :: _ => negb (Addresses.port first =? proxy_udp_port self)%N
  | [] => false
  end.

Definition on_candidates (self : Proxy) (s : proxy_state) (offer : option UdpOfferMsg) : prog T proxy_turn :=
  let s := with_nego s None (nego_punch_tx s) (nego_done_rx s) in
  match offer with
  | Some offer =>
      let s := if shows_remap self s offer then with_ports s true (effective_udp_port s) else s in
      send_or_leave (ClientMessage.UdpCandidateOffer offer) s
  | None =>
      let! _ := drop_end (PunchTx <$> nego_punch_tx s) in
      let! _ := drop_end (DoneRx <$> nego_done_rx s) in
      Ret (Continue (with_nego s None None None))
  end.

Definition on_upgrade_done (s : proxy_state) (conn : option nat) : prog T proxy_turn :=
  let! _ := drop_end (CandRx <$> nego_cand_rx s) in
  let! _ := drop_end (PunchTx <$> nego_punch_tx s) in
  let s := with_nego s None None None in
  match conn with
  | Some c =>
      let s := with_schedule s (reset (backoff s)) 0 (last_upgrade s) in
      let! rx := spawn_closed_monitor c in
      let! _ := drop_end (ClosedRx <$> closed_rx s) in
      Ret (Continue (with_path s (DirectPath c) true (Some rx)))
  | None => Ret (Continue s)
  end.

Definition on_release_tick (self : Proxy) (check_stun_addr : option SocketAddr) (s : proxy_state) :
  prog T proxy_turn :=
  if port_remapped s && negb (proxy_udp_port self =? 0)%N && (0 <? proxy_release_timeout self)%N then
    match check_stun_addr with
    | Some stun_addr =>
        let! check := check_reflexive_port (proxy_udp_port self) stun_addr in
        match check with
        | Ok (Some true) =>
            let b := reset (backoff s) in
            let! now := consumer InstantNow in
            let! later := consumer InstantNow in
            let s := with_ports s false (proxy_udp_port self) in
            Ret (Continue (with_schedule s b (attempt s)
                             (default later (instant_sub now (peek b * 1000 + 100)))))
        | Ok _ | Err _ => Ret (Continue s)
        | Panicked => Ret (Leave Panicked)
        end
    | None => Ret (Continue s)
    end
  else Ret (Continue s).

(** [DataPath::opener]. *)
Definition opener (p : DataPath) : prog T (option StreamOpener) :=
  match p with
  | Relay => let! o := consumer PoolPick in Ret (MuxOpener <$> o)
  | DirectPath conn => Ret (Some (DirectOpener conn))
  end.

Definition on_accepted (s : proxy_state) (accepted : result io_error nat) : prog T proxy_turn :=
  match accepted with
  | Ok local =>
      let! o := opener (path s) in
      match o with
      | Some o => let! _ := consumer (SpawnForward local o) in Ret (Continue s)
      | None => Ret (Continue s)
      end
  | Err _ => Ret (Continue s)
  | Panicked => Ret (Leave Panicked)
  end.

Definition on_proxy_event (self : Proxy) (check_stun_addr : option SocketAddr) (s : proxy_state)
  (e : proxy_event) : prog T proxy_turn :=
  match e with
  | ProxyControl =>
      let! message := recv_server in
      match message with
      | Ok (Some m) => on_server_message self s m
      | Ok None => Ret (Leave (Ok tt))
      | Err err => Ret (Leave (Err err))
      | Panicked => Ret (Leave Panicked)
      end
  | CandReady offer => on_candidates self s offer
  | UpgradeDone conn => on_upgrade_done s conn
  | DirectClosed => Ret (Leave (Ok tt))
  | ReleaseTick => on_release_tick self check_stun_addr s
  | LocalAccepted r => on_accepted s r
  end.

(** [None]: the loop was cut after its bound of turns. *)
Fixpoint proxy_loop (turns : nat) (self : Proxy) (check_stun_addr : option SocketAddr) (s : proxy_state) :
  prog T (option (ares unit)) :=
  match turns with
  | O => Ret None
  | S turns' =>
      let! t := kick_off self s in
      match t with
      | Continue s =>
          let! e := consumer (SelectProxy (nego_cand_rx s) (nego_done_rx s) (closed_rx s)) in
          let! t := on_proxy_event self check_stun_addr s e in
          match t with
          | Continue s => proxy_loop turns' self check_stun_addr s
          | Leave r => Ret (Some r)
          end
      | Leave r => Ret (Some r)
      end
  end.

Definition proxy_start (self : Proxy) (now : Z) : proxy_state :=
  {| path := data_path self; is_direct := direct self; closed_rx := direct_closed_rx self;
     backoff := upgrade_backoff self; attempt := upgrade_attempt self; last_upgrade := now;
     port_remapped := false; effective_udp_port := proxy_udp_port self; waiting_for_stun_hint := false;
     nego_cand_rx := None; nego_punch_tx := None; nego_done_rx := None |}.

Definition proxy_listen (turns : nat) (self : Proxy) : prog T (option (ares unit)) :=
  let! now := consumer InstantNow in
  let! targets := resolve_live_stun_targets (Transport.host (proxy_endpoint self))
                    (Transport.port (proxy_endpoint self)) (proxy_stun_server self) in
  match targets with
  | Panicked => Ret (Some Panicked)
  | _ =>
      let check_stun_addr := match targets with Ok (t :: _) => Some (target_addr t) | _ => None end in
      proxy_loop turns self check_stun_addr (proxy_start self now)
  end.
End Consumer.
