(* ===== verification/ConsumerSystem.v ===== *)
(** * A consumer and its tasks ([vendored-from-bore/secret.rs])

    The loop of [Consumer.v] and its tasks (attempts to upgrade, monitors of a
    direct connection, drains of carriers) as one transition system: a step is one
    operation of the loop or of one task, in any order.  [hub] holds what they
    share: the channels of each attempt, the pool, the connections that are
    closed; whatever else is awaited may be answered in any way. *)

From stdpp Require Import list.
From S2P Require Import Prelude Streams Json Proto Auth Text Reconnect Pool Transport Fs Frames Addresses Stun Candidates Control Direct Rendezvous RefTransport Dial Forwarding Listen Consumer.
Import ClientMessage(ClientMessage) ServerMessage(ServerMessage).

(** ** States *)

Definition csys : sig :=
  consumer_sig ⊕ (framed_sig ⊕ (timer_sig ⊕ (extra_sig ⊕ (udp_sig ⊕ (host_sig ⊕ (bind_sig ⊕ direct_env)))))).

(** The three [oneshot] channels of an attempt: what waits in them, and which of
    the loop's ends are gone. *)
Record channels : Type := {
  cand : option UdpOfferMsg;
  cand_gone : bool;
  punch : option (option punch_msg);
  punch_gone : bool;
  done : option nat;
}.

Definition fresh_channels : channels :=
  {| cand := None; cand_gone := false; punch := None; punch_gone := false; done := None |}.

Definition with_cand (c : channels) (o : option UdpOfferMsg) : channels :=
  {| cand := o; cand_gone := cand_gone c; punch := punch c; punch_gone := punch_gone c; done := done c |}.
Definition with_punch (c : channels) (p : option (option punch_msg)) : channels :=
  {| cand := cand c; cand_gone := cand_gone c; punch := p; punch_gone := punch_gone c; done := done c |}.
Definition with_done (c : channels) (d : option nat) : channels :=
  {| cand := cand c; cand_gone := cand_gone c; punch := punch c; punch_gone := punch_gone c; done := d |}.
Definition with_gone (c : channels) (cg pg : bool) : channels :=
  {| cand := cand c; cand_gone := cg; punch := punch c; punch_gone := pg; done := done c |}.

Record chub : Type := {
  attempts : list channels;
  closed : list nat;
  carriers : @CarrierPool nat;
  forwarded : list StreamOpener;          (* the connections taken, in order *)
}.

Definition with_attempt (g : chub) (a : nat) (f : channels -> channels) : chub :=
  {| attempts := alter f a (attempts g); closed := closed g; carriers := carriers g; forwarded := forwarded g |}.
Definition with_pool (g : chub) (p : @CarrierPool nat) : chub :=
  {| attempts := attempts g; closed := closed g; carriers := p; forwarded := forwarded g |}.

Inductive role : Type := Upgrading (attempt : nat) | Monitoring (conn : nat) | Draining (carrier : nat).

#[export] Instance role_eq : EqDecision role.
Proof. solve_decision. Defined.

Record csystem : Type := {
  cmain : prog csys (option (ares unit));
  ctasks : list (role * prog csys unit);
  chub_of : chub;
}.

Definition running {A} (p : prog csys A) : bool := match p with Ret _ => false | Op _ _ => true end.

(** The attempts whose task has not returned. *)
Definition busy (ts : list (role * prog csys unit)) : list nat :=
  omap (fun t => match t.1 with Upgrading a => if running t.2 then Some a else None | _ => None end) ts.

Section System.
Context `{Json ClientMessage} `{Json ServerMessage} `{Crypto}.
Context `{StrDebug} `{HexText} `{Ipv6Text} (uuid_text : Uuid -> string).
Context (streams : nat).

(** An event of a channel needs its receiver, and a value that waits in it, or that
    its sender is dropped: the task has returned. *)
Definition select_event (cand_rx done_rx closed_rx : option nat) (ended : nat -> bool) (e : proxy_event)
  (g : chub) : option (proxy_event * chub) :=
  match e with
  | CandReady o =>
      a ← cand_rx; c ← attempts g !! a;
      match o, cand c with
      | Some _, Some offer => Some (CandReady (Some offer), with_attempt g a (fun c => with_cand c None))
      | None, None => if ended a then Some (CandReady None, g) else None
      | _, _ => None
      end
  | UpgradeDone o =>
      a ← done_rx; c ← attempts g !! a;
      match o, done c with
      | Some _, Some conn => Some (UpgradeDone (Some conn), with_attempt g a (fun c => with_done c None))
      | None, None => if ended a then Some (UpgradeDone None, g) else None
      | _, _ => None
      end
  | DirectClosed => conn ← closed_rx; if bool_decide (conn ∈ closed g) then Some (DirectClosed, g) else None
  | e => Some (e, g)
  end.

(** What an operation does to the hub, and the tasks it spawns; [left]: the loop
    has returned, and its ends of the channels are dropped. *)
Definition cact (left : bool) (ended : nat -> bool) (o : consumer_op) (a : resp (s := consumer_sig) o)
  (g : chub) : option (resp (s := consumer_sig) o * chub * list (role * prog csys unit)) :=
  match o return resp (s := consumer_sig) o ->
    option (resp (s := consumer_sig) o * chub * list (role * prog csys unit)) with
  | SelectProxy cand_rx done_rx closed_rx => fun e =>
      '(e, g) ← select_event cand_rx done_rx closed_rx ended e g; Some (e, g, [])
  | SpawnUpgrade args => fun _ =>
      let k := length (attempts g) in
      Some (k, {| attempts := attempts g ++ [fresh_channels]; closed := closed g; carriers := carriers g;
                  forwarded := forwarded g |}, [(Upgrading k, upgrade_task k args)])
  | SendPunchTo k p => fun _ => Some (tt, with_attempt g k (fun c => with_punch c (Some p)), [])
  | DropEnd (CandRx k) => fun _ => Some (tt, with_attempt g k (fun c => with_gone c true (punch_gone c)), [])
  | DropEnd (PunchTx k) => fun _ => Some (tt, with_attempt g k (fun c => with_gone c (cand_gone c) true), [])
  | SpawnMonitor c => fun _ => Some (tt, g, [(Monitoring c, closed_monitor c)])
  | SpawnForward _ opener => fun _ =>
      Some (tt, {| attempts := attempts g; closed := closed g; carriers := carriers g;
                   forwarded := forwarded g ++ [opener] |}, [])
  | PoolPush c max => fun _ =>
      let '(pushed, p) := pool_push (carriers g) (Carrier_new c) max in Some (pushed, with_pool g p, [])
  | PoolPick => fun _ => let '(o, p) := pick (carriers g) in Some (o, with_pool g p, [])
  | SpawnDrain c => fun _ => Some (tt, g, [(Draining c, drain_carrier uuid_text streams c)])
  | MarkDead c => fun _ =>
      Some (tt, with_pool g {| pool_carriers :=
        (fun x => if bool_decide (Pool.opener x = c) then {| Pool.opener := c; alive := false |} else x)
          <$> pool_carriers (carriers g); pool_next := pool_next (carriers g) |}, [])
  | SendCand k offer => fun _ =>
      c ← attempts g !! k;
      if left || cand_gone c then Some (false, g, [])
      else Some (true, with_attempt g k (fun c => with_cand c (Some offer)), [])
  | AwaitPunch k => fun _ =>
      c ← attempts g !! k;
      match punch c with
      | Some p => Some (Some p, g, [])
      | None => if left || punch_gone c then Some (None, g, []) else None
      end
  | SendDone k conn => fun _ => Some (tt, with_attempt g k (fun c => with_done c (Some conn)), [])
  | SendClosed conn => fun _ =>
      Some (tt, {| attempts := attempts g; closed := conn :: closed g; carriers := carriers g;
                   forwarded := forwarded g |}, [])
  | o => fun a => Some (a, g, [])
  end a.

Definition ended_in (ts : list (role * prog csys unit)) (a : nat) : bool := negb (bool_decide (a ∈ busy ts)).

Inductive cstep : csystem -> csystem -> Prop :=
| cstep_main_env o k a ts g :
    cstep {| cmain := Op (S := csys) (inr o) k; ctasks := ts; chub_of := g |}
          {| cmain := k a; ctasks := ts; chub_of := g |}
| cstep_main o k a r ts g g' new :
    cact false (ended_in ts) o a g = Some (r, g', new) ->
    cstep {| cmain := Op (S := csys) (inl o) k; ctasks := ts; chub_of := g |}
          {| cmain := k r; ctasks := ts ++ new; chub_of := g' |}
| cstep_task_env m l1 l2 rl o k a g :
    cstep {| cmain := m; ctasks := l1 ++ (rl, Op (S := csys) (inr o) k) :: l2; chub_of := g |}
          {| cmain := m; ctasks := l1 ++ (rl, k a) :: l2; chub_of := g |}
| cstep_task m l1 l2 rl o k a r g g' new :
    cact (negb (running m)) (fun _ => false) o a g = Some (r, g', new) ->
    cstep {| cmain := m; ctasks := l1 ++ (rl, Op (S := csys) (inl o) k) :: l2; chub_of := g |}
          {| cmain := m; ctasks := (l1 ++ (rl, k r) :: l2) ++ new; chub_of := g' |}.

Definition consumer_start (turns : nat) (self : Proxy) (pool : @CarrierPool nat) : csystem :=
  {| cmain := proxy_listen uuid_text turns self;
     ctasks := match direct_closed_rx self with Some c => [(Monitoring c, closed_monitor c)] | None => [] end;
     chub_of := {| attempts := []; closed := []; carriers := pool; forwarded := [] |} |}.

Definition consumer_reached (turns : nat) (self : Proxy) (pool : @CarrierPool nat) (x : csystem) : Prop :=
  rtc cstep (consumer_start turns self pool) x.

(** ** One execution, played from a script

    The next operation of the loop ([None]) or of a task, and an answer for it. *)

Definition answers_of : Type := forall o : op csys, resp o.

Definition canswer {A} (left : bool) (ended : nat -> bool) (w : answers_of) (p : prog csys A) (g : chub) :
  option (prog csys A * chub * list (role * prog csys unit)) :=
  match p with
  | Ret _ => None
  | Op o k =>
      match o return (resp (s := csys) o -> prog csys A) ->
        option (prog csys A * chub * list (role * prog csys unit)) with
      | inr o => fun k => Some (k (w (inr o)), g, [])
      | inl o => fun k =>
          match cact left ended o (w (inl o)) g with
          | Some (r, g', new) => Some (k r, g', new)
          | None => None
          end
      end k
  end.

Definition cplay_one (x : csystem) (who : option nat) (w : answers_of) : option csystem :=
  match who with
  | None =>
      '(m, g, new) ← canswer false (ended_in (ctasks x)) w (cmain x) (chub_of x);
      Some {| cmain := m; ctasks := ctasks x ++ new; chub_of := g |}
  | Some i =>
      '(rl, p) ← ctasks x !! i;
      '(p', g, new) ← canswer (negb (running (cmain x))) (fun _ => false) w p (chub_of x);
      Some {| cmain := cmain x; ctasks := take i (ctasks x) ++ (rl, p') :: drop (S i) (ctasks x) ++ new;
              chub_of := g |}
  end.

Fixpoint cplay (x : csystem) (script : list (option nat * answers_of)) : option csystem :=
  match script with
  | [] => Some x
  | (who, w) :: script' => y ← cplay_one x who w; cplay y script'
  end.

Lemma canswer_inv {A} left ended w (p p' : prog csys A) g g' new :
  canswer left ended w p g = Some (p', g', new) ->
  (exists o k, p = Op (S := csys) (inr o) k /\ p' = k (w (inr o)) /\ g' = g /\ new = []) \/
  (exists o k r, p = Op (S := csys) (inl o) k /\ cact left ended o (w (inl o)) g = Some (r, g', new) /\ p' = k r).
Proof.
  destruct p as [a|[o|o] k]; cbn [canswer]; [done| |].
  - destruct (cact _ _ _ _ _) as [[[r g1] new1]|] eqn:Ea; [|done]. intros [= <- <- <-].
    right. by exists o, k, r.
  - intros [= <- <- <-]. left. by exists o, k.
Qed.

Lemma cplay_one_step x who w y : cplay_one x who w = Some y -> cstep x y.
Proof.
  destruct x as [m ts g], who as [i|]; cbn [cplay_one cmain ctasks chub_of].
  - destruct (ts !! i) as [[rl p]|] eqn:Ei; simpl; [|done].
    pose proof (take_drop_middle ts i (rl, p) Ei) as Et.
    destruct (canswer _ _ w p g) as [[[p' g'] new]|] eqn:Ea; simpl; [|done]. intros [= <-].
    apply canswer_inv in Ea as [(o & k & -> & -> & -> & ->)|(o & k & r & -> & Ha & ->)].
    + rewrite app_nil_r. rewrite <- Et at 1. by apply cstep_task_env.
    + rewrite app_comm_cons, app_assoc. rewrite <- Et at 1. by eapply cstep_task.
  - destruct (canswer _ _ w m g) as [[[p' g'] new]|] eqn:Ea; simpl; [|done]. intros [= <-].
    apply canswer_inv in Ea as [(o & k & -> & -> & -> & ->)|(o & k & r & -> & Ha & ->)].
    + rewrite app_nil_r. apply cstep_main_env.
    + by eapply cstep_main.
Qed.

Lemma cplay_steps x script y : cplay x script = Some y -> rtc cstep x y.
Proof.
  revert x; induction script as [|[who w] script IH]; intros x; simpl; [by intros [= <-]|].
  destruct (cplay_one x who w) as [z|] eqn:Ez; simpl; [|done]. intros Hp.
  eapply rtc_l; [by eapply cplay_one_step|]. by apply IH.
Qed.
End System.
