(* ===== verification/ConsumerTheorems.v ===== *)
(** * What holds of a consumer ([vendored-from-bore/secret.rs])

    Attempts to upgrade never overlap, the path changes once at most, and every
    connection is forwarded on the path of its time; and how a port that the NAT
    released is taken for remapped again. *)

From stdpp Require Import list.
From S2P Require Import Prelude Streams Json Proto Auth Text Reconnect Pool Transport Fs Frames Addresses Stun Candidates Control Direct Rendezvous RefTransport Dial Forwarding Listen ListenSystem ListenTheorems Consumer ConsumerSystem.
Import ClientMessage(ClientMessage) ServerMessage(ServerMessage).

(** ** The stages of a consumer

    On the relay with no attempt, on the relay with one attempt, or on the direct
    path, for good. *)

Inductive stage : Type := Idle | Flying (attempt : nat) | Landed (conn : nat).

Definition done_slot (g : stage) : option nat := match g with Flying a => Some a | _ => None end.
Definition closed_slot (g : stage) : option nat := match g with Landed c => Some c | _ => None end.

(** What an operation needs of the stage, and the stage its answer leads to. *)
Definition fits (g : stage) (o : op csys) : Prop :=
  match o with
  | inl (SelectProxy cand done closed) =>
      (cand = None \/ cand = done_slot g) /\ done = done_slot g /\ closed = closed_slot g
  | inl (SpawnUpgrade _) => g = Idle
  | inl (SpawnForward _ opener) =>
      match g, opener with
      | Landed c, DirectOpener c' => c' = c
      | Landed _, _ | _, DirectOpener _ => False
      | _, MuxOpener _ => True
      end
  | _ => True
  end.

Definition next_stage (g : stage) (o : op csys) : resp (s := csys) o -> stage :=
  match o return resp (s := csys) o -> stage with
  | inl (SelectProxy _ _ _) => fun e =>
      match e with
      | CandReady None | UpgradeDone None => Idle
      | UpgradeDone (Some c) => Landed c
      | _ => g
      end
  | inl (SpawnUpgrade _) => fun a => Flying a
  | _ => fun _ => g
  end.

(** The answers that can come: an event needs its receiver. *)
Definition can_answer (o : op csys) : resp (s := csys) o -> Prop :=
  match o return resp (s := csys) o -> Prop with
  | inl (SelectProxy cand done closed) => fun e =>
      match e with
      | CandReady _ => is_Some cand
      | UpgradeDone _ => is_Some done
      | DirectClosed => is_Some closed
      | _ => True
      end
  | _ => fun _ => True
  end.

(** A program that respects the stages, from [g] on, and ends in [Q]. *)
Fixpoint staged {A} (Q : stage -> A -> Prop) (g : stage) (p : prog csys A) : Prop :=
  match p with
  | Ret a => Q g a
  | Op o k => fits g o /\ forall r, can_answer o r -> staged Q (next_stage g o r) (k r)
  end.

(** An operation that has nothing to do with them. *)
Definition unstaged (o : op csys) : Prop :=
  match o with inl (SelectProxy _ _ _ | SpawnUpgrade _ | SpawnForward _ _) => False | _ => True end.

Lemma staged_bind {A B} (R : stage -> B -> Prop) g (p : prog csys A) (f : A -> prog csys B) :
  staged (fun g a => staged R g (f a)) g p -> staged R g (pbind p f).
Proof. revert g; induction p as [a|o k IH]; intros g; simpl; [done|]. naive_solver. Qed.

Lemma staged_mono {A} (Q R : stage -> A -> Prop) g (p : prog csys A) :
  (forall g a, Q g a -> R g a) -> staged Q g p -> staged R g p.
Proof. intros HQR. revert g; induction p as [a|o k IH]; intros g; simpl; naive_solver. Qed.

Lemma staged_unstaged {A} (Q : stage -> A -> Prop) g (p : prog csys A) :
  every unstaged p -> (forall a, Q g a) -> staged Q g p.
Proof.
  intros Hp HQ. induction p as [a|o k IH]; simpl in *; [done|]. destruct Hp as [Ho Hk].
  assert (Hg : forall r, next_stage g o r = g) by by destruct o as [[]|].
  split; [by destruct o as [[]|]|]. intros r _. rewrite Hg. auto.
Qed.

Lemma staged_after {A B} (R : stage -> B -> Prop) g (p : prog csys A) (f : A -> prog csys B) :
  every unstaged p -> (forall a, staged R g (f a)) -> staged R g (pbind p f).
Proof. intros Hp Hf. by apply staged_bind, staged_unstaged. Qed.

(** ** The programs of a consumer *)

Section Programs.
Context `{Json ClientMessage} `{Json ServerMessage} `{Crypto}.
Context `{StrDebug} `{HexText} `{Ipv6Text} (uuid_text : Uuid -> string).

(** The state of the loop at a stage. *)
Definition at_stage (g : stage) (s : proxy_state) : Prop :=
  nego_done_rx s = done_slot g /\
  (nego_cand_rx s = None \/ nego_cand_rx s = done_slot g) /\
  (nego_punch_tx s = None \/ nego_punch_tx s = done_slot g) /\
  closed_rx s = closed_slot g /\
  (g <> Idle -> waiting_for_stun_hint s = false) /\
  match g with
  | Landed c => path s = DirectPath c /\ is_direct s = true
  | _ => path s = Relay /\ is_direct s = false
  end.

Definition turned (g : stage) (t : proxy_turn) : Prop :=
  match t with Continue s => at_stage g s | Leave _ => True end.

Lemma send_unstaged m : every unstaged (client_send (T := csys) m).
Proof. apply client_send_each. by intros []. Qed.

Lemma recv_unstaged {M} `{Json M} (summary : M -> string) : every unstaged (delimited_recv (T := csys) summary).
Proof. apply delimited_recv_each. by intros []. Qed.

Lemma drop_unstaged e : every unstaged (drop_end (T := csys) e).
Proof. by destruct e. Qed.

Lemma send_or_leave_staged g m s :
  at_stage g s -> staged turned g (send_or_leave (T := csys) m s).
Proof.
  intros Hs. unfold send_or_leave. apply staged_after; [apply send_unstaged|]. by intros [|e|].
Qed.

Lemma kick_off_staged g self s : at_stage g s -> staged turned g (kick_off (T := csys) self s).
Proof.
  intros Hs. unfold kick_off. case_match eqn:Hk; [|done].
  rewrite !andb_true_iff, !negb_true_iff in Hk. destruct Hk as [[[_ Hd] Hn] _].
  apply staged_after; [done|]. intros now. case_match; [|done].
  apply staged_after; [done|]. intros now'. destruct (next_delay (backoff s)) as [d b].
  apply send_or_leave_staged. destruct Hs as (Sd & Sc & Sp & Sx & Sw & Spath).
  apply bool_decide_eq_false in Hn. rewrite Sd in Hn.
  repeat (split; [done|]). split; [|done].
  destruct g; [done|by destruct Hn; eexists|]. destruct Spath. congruence.
Qed.

Lemma forward_punch_staged g p s : at_stage g s -> staged turned g (forward_punch (T := csys) p s).
Proof.
  intros Hs. unfold forward_punch. case_match; [|done]. apply staged_after; [done|]. intros _.
  destruct Hs as (Sd & Sc & Sp & Sx & Sw & Spath). repeat (split; [done|]). split; [by left|]. by repeat split.
Qed.

Lemma on_server_message_staged g self s m :
  at_stage g s -> staged turned g (on_server_message (T := csys) self s m).
Proof.
  intros Hs. destruct m; cbn [on_server_message]; try done; try by apply forward_punch_staged.
  case_match eqn:Hw; [|done]. destruct Hs as (Sd & Sc & Sp & Sx & Sw & Spath).
  destruct g; [|by rewrite Sw in Hw..]. split; [done|]. intros a _. simpl.
  repeat split; auto; tauto.
Qed.

(** With the slots of an attempt emptied, there is none. *)
Lemma at_stage_idle g s :
  at_stage g s -> (forall c, g <> Landed c) -> at_stage Idle (with_nego s None None None).
Proof.
  intros (Sd & Sc & Sp & Sx & Sw & Spath) Hg.
  destruct g as [|a|c]; [| |by destruct (Hg c)].
  all: split; [done|]; split; [by left|]; split; [by left|]; split; [done|]; by split.
Qed.

Lemma on_candidates_staged g self s offer :
  at_stage g s -> (offer = None -> is_Some (nego_cand_rx s)) ->
  staged turned (match offer with Some _ => g | None => Idle end) (on_candidates (T := csys) self s offer).
Proof.
  intros Hs Ho. unfold on_candidates. destruct offer as [offer|].
  - apply send_or_leave_staged. destruct Hs as (Sd & Sc & Sp & Sx & Sw & Spath).
    destruct (shows_remap _ _ _); repeat (split; [by auto|]); done.
  - apply staged_after; [apply drop_unstaged|]. intros _. apply staged_after; [apply drop_unstaged|]. intros _.
    eapply (at_stage_idle g s); [done|]. intros c ->. destruct Hs as (Sd & Sc & _).
    destruct (Ho eq_refl) as [x Hx]. rewrite Hx in Sc. by destruct Sc.
Qed.

Lemma on_upgrade_done_staged g s conn :
  at_stage g s -> is_Some (nego_done_rx s) ->
  staged turned (match conn with Some c => Landed c | None => Idle end) (on_upgrade_done (T := csys) s conn).
Proof.
  intros Hs Hd. unfold on_upgrade_done.
  apply staged_after; [apply drop_unstaged|]. intros _. apply staged_after; [apply drop_unstaged|]. intros _.
  assert (Hg : forall c, g <> Landed c).
  { intros c ->. destruct Hs as [Sd _]. rewrite Sd in Hd. by destruct Hd. }
  pose proof (at_stage_idle g s Hs Hg) as Hi. destruct conn as [c|]; [|done].
  split; [done|]. intros [] _. cbn [pbind]. apply staged_after; [apply drop_unstaged|]. intros _.
  destruct g as [|a|c']; [| |by destruct (Hg c')].
  - destruct Hs as [Sd _]. rewrite Sd in Hd. by destruct Hd.
  - destruct Hs as (Sd & Sc & Sp & Sx & Sw & Spath). repeat split; auto.
Qed.

Lemma check_unstaged port stun : every unstaged (check_reflexive_port (T := csys) port stun).
Proof.
  unfold check_reflexive_port.
  each; [eapply bind_socket_each|apply discover_reflexive_each]; try by intros [].
Qed.

Lemma on_release_tick_staged g self addr s :
  at_stage g s -> staged turned g (on_release_tick (T := csys) self addr s).
Proof.
  intros Hs. unfold on_release_tick. case_match; [|done]. destruct addr; [|done].
  apply staged_after; [apply check_unstaged|]. intros [[[|]|]|e|]; try done.
Qed.

Lemma on_accepted_staged g s r : at_stage g s -> staged turned g (on_accepted (T := csys) s r).
Proof.
  intros Hs. destruct r as [local|e|]; cbn [on_accepted]; [|done..].
  assert (Hf : forall o, match g, o with
      | Landed c, DirectOpener c' => c' = c
      | Landed _, _ | _, DirectOpener _ => False
      | _, MuxOpener _ => True
      end -> staged turned g (pbind (consumer (T := csys) (SpawnForward local o)) (fun _ => Ret (Continue s)))).
  { intros o Ho. split; [done|]. intros [] _. by simpl. }
  pose proof Hs as (Sd & Sc & Sp & Sx & Sw & Spath).
  destruct g as [|a|c]; destruct Spath as [-> _]; cbn [opener].
  - split; [done|]. intros [o|] _; [by apply (Hf (MuxOpener o))|done].
  - split; [done|]. intros [o|] _; [by apply (Hf (MuxOpener o))|done].
  - by apply Hf.
Qed.

Lemma on_proxy_event_staged g self addr s e :
  at_stage g s ->
  can_answer (inl (SelectProxy (nego_cand_rx s) (nego_done_rx s) (closed_rx s))) e ->
  staged turned (next_stage g (inl (SelectProxy (nego_cand_rx s) (nego_done_rx s) (closed_rx s))) e)
    (on_proxy_event (T := csys) uuid_text self addr s e).
Proof.
  intros Hs He. destruct e as [|[offer|]|[c|]| | |r]; cbn [on_proxy_event next_stage]; try done.
  - apply staged_after; [apply recv_unstaged|]. intros [[m|]|e|]; [by apply on_server_message_staged|done..].
  - by apply (on_candidates_staged g self s (Some offer)).
  - by apply (on_candidates_staged g self s None).
  - by apply (on_upgrade_done_staged g s (Some c)).
  - by apply (on_upgrade_done_staged g s None).
  - by apply on_release_tick_staged.
  - by apply on_accepted_staged.
Qed.

Lemma proxy_loop_staged turns g self addr s :
  at_stage g s -> staged (fun _ _ => True) g (proxy_loop (T := csys) uuid_text turns self addr s).
Proof.
  revert g s. induction turns as [|turns IH]; intros g s Hs; cbn [proxy_loop]; [done|].
  apply staged_bind. eapply staged_mono; [|by apply kick_off_staged].
  clear g s Hs. intros g [s|r] Hs; [|done]. cbn [turned] in Hs.
  split; [by destruct Hs as (Sd & Sc & Sp & Sx & Sw & Spath)|]. intros e He. cbn [pbind].
  apply staged_bind. eapply staged_mono; [|by apply on_proxy_event_staged].
  intros g' [s'|r] Hs'; [by apply IH|done].
Qed.

(** A consumer as it is constructed. *)
Definition stage_of (self : Proxy) : stage :=
  match direct_closed_rx self with Some c => Landed c | None => Idle end.

Definition well_made (self : Proxy) : Prop :=
  match data_path self with
  | Relay => direct self = false /\ direct_closed_rx self = None
  | DirectPath c => direct self = true /\ direct_closed_rx self = Some c
  end.

Lemma proxy_listen_staged turns self :
  well_made self -> staged (fun _ _ => True) (stage_of self) (proxy_listen (T := csys) uuid_text turns self).
Proof.
  intros Hw. unfold proxy_listen. apply staged_after; [done|]. intros now.
  apply staged_after; [apply resolve_live_each; by intros []|]. intros [ts|e|]; [| |done].
  all: apply proxy_loop_staged; unfold well_made, stage_of in *; destruct (data_path self) eqn:Ep;
    destruct Hw as [Hd Hc]; rewrite Hc; repeat split; simpl; auto.
Qed.
(** The tasks. *)
Lemma direct_unstaged {A} (p : prog direct_env A) : every unstaged (on_direct (T := csys) p).
Proof. apply every_interp. intros o. by split. Qed.

Lemma upgrade_task_unstaged a args : every unstaged (upgrade_task (T := csys) a args).
Proof.
  assert (Hg : forall e s h pm pp port, every unstaged (gather_consumer_candidates (T := csys) e s h pm pp port)).
  { intros. unfold gather_consumer_candidates, resolve_live_stun_targets_with_hint.
    assert (Hs : forall specs ts, every unstaged (resolve_specs (T := csys) specs ts)).
    { induction specs as [|[r0 s0] specs IH]; intros ts; cbn [resolve_specs];
        unfold resolve_stun_target, Candidates.host; each; try apply IH; by split. }
    each; first [apply Hs | apply gather_each; by intros []
                | eapply bind_socket_each; by intros [] _ ]. }
  unfold upgrade_task, finish_direct_consumer. each; first [apply Hg | apply direct_unstaged | by split].
Qed.

Lemma closed_monitor_unstaged c : every unstaged (closed_monitor (T := csys) c).
Proof. by repeat split. Qed.

Lemma drain_carrier_unstaged n c : every unstaged (drain_carrier (T := csys) uuid_text n c).
Proof.
  induction n as [|n IH]; cbn [drain_carrier]; [done|].
  apply every_bind; [apply on_extra_each; by intros []|]. intros [[m|]|e|]; [apply IH|by split..|done].
Qed.
End Programs.

(** ** The system *)

Definition upgrade_ids (ts : list (role * prog csys unit)) : list nat :=
  omap (fun t => match t.1 with Upgrading a => Some a | _ => None end) ts.

(** Relayed connections first, then those of one direct connection. *)
Definition in_order (g : stage) (fs : list StreamOpener) : Prop :=
  match g with
  | Landed c => exists ms n, fs = (MuxOpener <$> ms) ++ replicate n (DirectOpener c)
  | _ => exists ms, fs = MuxOpener <$> ms
  end.

(** The attempts that can still be running. *)
Definition alone (g : stage) (bs : list nat) : Prop :=
  match g with
  | Idle => bs = []
  | Flying a => forall b, b ∈ bs -> b = a
  | Landed _ => length bs <= 1
  end.

Lemma busy_app l1 l2 : busy (l1 ++ l2) = busy l1 ++ busy l2.
Proof. apply omap_app. Qed.

Lemma busy_ids ts : busy ts `sublist_of` upgrade_ids ts.
Proof.
  induction ts as [|[[a|c|c] [x|o k]] ts IH]; simpl; try done; by constructor.
Qed.

Lemma alone_sublist g bs bs' : bs' `sublist_of` bs -> alone g bs -> alone g bs'.
Proof.
  intros Hs. destruct g as [|a|c]; simpl.
  - intros ->. by apply sublist_nil_r in Hs.
  - intros Hb b Hin. by apply Hb, (elem_of_sublist _ _ _ Hin Hs).
  - apply sublist_length in Hs. lia.
Qed.

Section System.
Context `{Json ClientMessage} `{Json ServerMessage} `{Crypto}.
Context `{StrDebug} `{HexText} `{Ipv6Text} (uuid_text : Uuid -> string).
Context (streams : nat).

Definition orderly (x : csystem) : Prop :=
  exists g,
    staged (fun _ _ => True) g (cmain x) /\
    Forall (fun t => every unstaged t.2) (ctasks x) /\
    NoDup (upgrade_ids (ctasks x)) /\
    Forall (fun a => a < length (attempts (chub_of x))) (upgrade_ids (ctasks x)) /\
    alone g (busy (ctasks x)) /\
    in_order g (forwarded (chub_of x)).

(** An event that comes has its receiver; one that tells of the end of an attempt
    comes after its task returned. *)
Lemma select_event_inv c d cl ended e e' g g' :
  select_event c d cl ended e g = Some (e', g') ->
  can_answer (inl (SelectProxy c d cl)) e' /\
  length (attempts g') = length (attempts g) /\ forwarded g' = forwarded g /\
  match e' with
  | CandReady None => exists a, c = Some a /\ ended a = true
  | UpgradeDone None => exists a, d = Some a /\ ended a = true
  | _ => True
  end.
Proof.
  destruct e; simpl; try (by intros [= <- <-]).
  - destruct c as [a|]; simpl; [|done]. destruct (attempts g !! a) as [ch|]; simpl; [|done].
    destruct offer, (cand ch); try done.
    + intros [= <- <-]. simpl. rewrite length_alter. eauto.
    + destruct (ended a) eqn:Ee; [|done]. intros [= <- <-]. simpl. eauto 10.
  - destruct d as [a|]; simpl; [|done]. destruct (attempts g !! a) as [ch|]; simpl; [|done].
    destruct conn, (done ch); try done.
    + intros [= <- <-]. simpl. rewrite length_alter. eauto.
    + destruct (ended a) eqn:Ee; [|done]. intros [= <- <-]. simpl. eauto 10.
  - destruct cl as [a|]; simpl; [|done]. destruct (bool_decide _); [|done]. intros [= <- <-]. simpl. eauto.
Qed.

Definition no_upgrade (t : role * prog csys unit) : Prop :=
  every unstaged t.2 /\ match t.1 with Upgrading _ => False | _ => True end.

(** An operation outside the stages starts no attempt and forwards nothing. *)
Lemma cact_unstaged left ended o a r g g' new :
  unstaged (inl o) -> cact uuid_text streams left ended o a g = Some (r, g', new) ->
  length (attempts g') = length (attempts g) /\ forwarded g' = forwarded g /\ Forall no_upgrade new.
Proof.
  intros Ho. destruct o; simpl in Ho; try done; cbn [cact].
  all: try (intros [= <- <- <-]; simpl; rewrite ?length_alter; done).
  - destruct e; intros [= <- <- <-]; simpl; rewrite ?length_alter; done.
  - intros [= <- <- <-]. split; [done|]. split; [done|]. constructor; [|done]. split; [apply closed_monitor_unstaged|done].
  - destruct (pool_push _ _ _). by intros [= <- <- <-].
  - destruct (pick _). by intros [= <- <- <-].
  - intros [= <- <- <-]. split; [done|]. split; [done|]. constructor; [|done]. split; [apply drain_carrier_unstaged|done].
  - destruct (attempts g !! attempt) as [ch|]; simpl; [|done]. destruct (_ || _); intros [= <- <- <-];
      simpl; rewrite ?length_alter; done.
  - destruct (attempts g !! attempt) as [ch|]; simpl; [|done].
    destruct (punch ch); [by intros [= <- <- <-]|]. destruct (_ || _); [by intros [= <- <- <-]|done].
Qed.

Lemma no_upgrade_ids new : Forall no_upgrade new -> upgrade_ids new = [] /\ busy new = [].
Proof.
  induction 1 as [|[[a|c|c] p] new [Hp Hr] Hn IH]; [done|by simpl in Hr|done..].
Qed.

Lemma upgrade_ids_app l1 l2 : upgrade_ids (l1 ++ l2) = upgrade_ids l1 ++ upgrade_ids l2.
Proof. apply omap_app. Qed.

(** A task's step leaves the ids alone; the task may have returned. *)
Lemma task_steps l1 l2 rl o k (p : prog csys unit) :
  upgrade_ids (l1 ++ (rl, p) :: l2) = upgrade_ids (l1 ++ (rl, Op o k) :: l2) /\
  busy (l1 ++ (rl, p) :: l2) `sublist_of` busy (l1 ++ (rl, Op o k) :: l2).
Proof.
  rewrite !upgrade_ids_app, !busy_app. split; [by destruct rl|]. apply sublist_app; [done|].
  destruct rl; simpl; [destruct (running p)|..]; by try constructor.
Qed.

(** The end of an attempt frees its place. *)
Lemma ended_alone a ts : alone (Flying a) (busy ts) -> ended_in ts a = true -> busy ts = [].
Proof.
  unfold ended_in. rewrite negb_true_iff, bool_decide_eq_false. intros Hb Ha.
  destruct (busy ts) as [|b bs] eqn:Eb; [done|]. destruct Ha.
  rewrite <- (Hb b); left.
Qed.

Lemma alone_landed g c bs : alone g bs -> NoDup bs -> alone (Landed c) bs.
Proof.
  intros Ha Hn. destruct g as [|a|c']; simpl in *; [subst; simpl; lia| |done].
  destruct bs as [|b1 [|b2 bs]]; simpl; [lia..|].
  assert (b1 = a) as -> by (apply Ha; left). assert (b2 = a) as -> by (apply Ha; right; left).
  apply NoDup_cons in Hn as [Hn _]. destruct Hn. left.
Qed.

Lemma orderly_unstaged o k a r ts h h' new :
  unstaged (inl o) -> cact uuid_text streams false (ended_in ts) o a h = Some (r, h', new) ->
  orderly {| cmain := Op (S := csys) (inl o) k; ctasks := ts; chub_of := h |} ->
  orderly {| cmain := k r; ctasks := ts ++ new; chub_of := h' |}.
Proof.
  intros Ho Ha (g & [_ Hm] & Ht & Hnd & Hlt & Hb & Hf). cbn [cmain ctasks chub_of] in *.
  destruct (cact_unstaged _ _ _ _ _ _ _ _ Ho Ha) as (El & Ef & Hnew).
  destruct (no_upgrade_ids new Hnew) as [Ei Eb]. exists g. cbn [cmain ctasks chub_of].
  rewrite upgrade_ids_app, busy_app, Ei, Eb, !app_nil_r, El, Ef. split.
  - assert (Hg : next_stage g (inl o) r = g) by by destruct o.
    rewrite <- Hg. apply Hm. by destruct o.
  - split; [|done]. apply Forall_app. split; [done|]. eapply Forall_impl; [exact Hnew|]. by intros t [].
Qed.

Lemma orderly_select c d cl k e r ts h h' new :
  cact uuid_text streams false (ended_in ts) (SelectProxy c d cl) e h = Some (r, h', new) ->
  orderly {| cmain := Op (S := csys) (inl (SelectProxy c d cl)) k; ctasks := ts; chub_of := h |} ->
  orderly {| cmain := k r; ctasks := ts ++ new; chub_of := h' |}.
Proof.
  intros Ha (g & [(Hc & Hd & Hcl) Hm] & Ht & Hnd & Hlt & Hb & Hf). cbn [cmain ctasks chub_of cact] in *.
  destruct (select_event c d cl (ended_in ts) e h) as [[e' h1]|] eqn:Es; simpl in Ha; [|done].
  injection Ha as <- <- <-. destruct (select_event_inv _ _ _ _ _ _ _ _ Es) as (Hr & El & Ef & He).
  specialize (Hm e' Hr). exists (next_stage g (inl (SelectProxy c d cl)) e'). cbn [cmain ctasks chub_of].
  rewrite app_nil_r, El, Ef. split; [done|]. repeat (split; [done|]).
  assert (Hbusy : NoDup (busy ts)) by (eapply sublist_NoDup; [exact Hnd|apply busy_ids]).
  destruct e' as [|[offer|]|[conn|]| | |r]; try done; simpl.
  - destruct He as (a & -> & Ha). destruct g as [|a'|c']; simpl in *; [by destruct Hc| |by destruct Hc].
    destruct Hc as [|[= ->]]; [done|]. split; [by apply (ended_alone a')|done].
  - split; [by apply (alone_landed g conn)|].
    destruct g as [|a'|c']; simpl in *; [subst d; by destruct Hr| |subst d; by destruct Hr].
    destruct Hf as [ms ->]. exists ms, 0. by rewrite app_nil_r.
  - destruct He as (a & -> & Ha). destruct g as [|a'|c']; simpl in *; [done| |done].
    injection Hd as ->. split; [by apply (ended_alone a')|done].
Qed.

Lemma orderly_step x y : orderly x -> cstep uuid_text streams x y -> orderly y.
Proof.
  intros Ho Hs.
  destruct Hs as [o k a ts h|o k a r ts h h' new Ha|m l1 l2 rl o k a h|m l1 l2 rl o k a r h h' new Ha].
  - destruct Ho as (g & [_ Hm] & Hrest). exists g. by split; [apply (Hm a)|].
  - destruct o; try by (eapply orderly_unstaged; [|exact Ha|exact Ho]).
    + by eapply orderly_select.
    + destruct Ho as (g & [-> Hm] & Ht & Hnd & Hlt & Hb & Hf). cbn [cmain ctasks chub_of cact] in *.
      injection Ha as <- <- <-. exists (Flying (length (attempts h))). cbn [cmain ctasks chub_of attempts forwarded].
      split; [by apply Hm|]. split; [by apply Forall_app; split; [done|constructor; [apply upgrade_task_unstaged|]]|].
      rewrite upgrade_ids_app, busy_app, length_app. cbn [length].
      split; [|split; [|split; [|done]]].
      * apply NoDup_app. split; [done|]. split; [|apply NoDup_singleton].
        intros b Hin Hin'. apply list_elem_of_singleton in Hin'. rewrite Forall_forall in Hlt.
        specialize (Hlt b Hin). lia.
      * apply Forall_app. split; [eapply Forall_impl; [exact Hlt|]; simpl; lia|]. constructor; [simpl; lia|done].
      * simpl in Hb. rewrite Hb. intros b Hin. eapply elem_of_sublist in Hin; [|apply busy_ids].
        by apply list_elem_of_singleton in Hin.
    + destruct Ho as (g & [Hfit Hm] & Ht & Hnd & Hlt & Hb & Hf). cbn [cmain ctasks chub_of cact] in *.
      injection Ha as <- <- <-. exists g. cbn [cmain ctasks chub_of attempts forwarded].
      rewrite app_nil_r. split; [by apply (Hm tt)|]. repeat (split; [done|]).
      destruct g as [|a'|c]; simpl in *; destruct opener; try done.
      * destruct Hf as [ms ->]. exists (ms ++ [carrier]). by rewrite fmap_app.
      * destruct Hf as [ms ->]. exists (ms ++ [carrier]). by rewrite fmap_app.
      * subst. destruct Hf as (ms & n & ->). exists ms, (S n). rewrite <- app_assoc. f_equal.
        by rewrite replicate_S_end.
  - destruct Ho as (g & Hm & Ht & Hnd & Hlt & Hb & Hf). cbn [cmain ctasks chub_of] in *.
    destruct (task_steps l1 l2 rl (inr o) k (k a)) as [Ei Eb]. exists g. cbn [cmain ctasks chub_of].
    rewrite Ei. split; [done|]. split; [|repeat (split; [done|]); split; [by eapply alone_sublist|done]].
    rewrite Forall_app, Forall_cons in *. destruct Ht as (? & [_ Hk] & ?). repeat split; auto. apply Hk.
  - destruct Ho as (g & Hm & Ht & Hnd & Hlt & Hb & Hf). cbn [cmain ctasks chub_of] in *.
    rewrite Forall_app, Forall_cons in Ht. destruct Ht as (Hl1 & [Ho Hk] & Hl2).
    destruct (cact_unstaged _ _ _ _ _ _ _ _ Ho Ha) as (El & Ef & Hnew).
    destruct (no_upgrade_ids new Hnew) as [Ei Eb].
    destruct (task_steps l1 l2 rl (inl o) k (k r)) as [Ei' Eb']. exists g. cbn [cmain ctasks chub_of].
    rewrite upgrade_ids_app, busy_app, Ei, Eb, !app_nil_r, Ei', El, Ef.
    split; [done|]. split; [|repeat (split; [done|]); split; [by eapply alone_sublist|done]].
    rewrite !Forall_app, Forall_cons. repeat split; auto; [apply Hk|].
    eapply Forall_impl; [exact Hnew|]. by intros t [].
Qed.

Lemma orderly_start turns self pool :
  well_made self -> orderly (consumer_start uuid_text turns self pool).
Proof.
  intros Hw. exists (stage_of self). unfold consumer_start. cbn [cmain ctasks chub_of].
  split; [by apply proxy_listen_staged|]. unfold stage_of. destruct (direct_closed_rx self) as [c|]; simpl.
  - split; [constructor; [apply closed_monitor_unstaged|done]|]. split; [constructor|]. split; [done|].
    split; [lia|]. by exists [], 0.
  - split; [done|]. split; [constructor|]. split; [done|]. split; [done|]. by exists [].
Qed.
End System.

(** ** The start *)

Lemma always_cbind {S A B} (P : option (ares B) -> Prop) (p : prog S (option (ares A)))
  (f : A -> prog S (option (ares B))) :
  P None -> (forall e, P (Some (Err e))) -> P (Some Panicked) -> (forall a, always P (f a)) ->
  always P (cbind p f).
Proof.
  intros Hn He Hp Hf. apply (always_bind (fun _ => True)); [by apply always_true|].
  intros [[a|e|]|] _; simpl; auto.
Qed.

(** A consumer that is constructed is on the path it says. *)
Lemma Proxy_new_well_made `{Json ClientMessage} `{Json ServerMessage} `{Crypto}
  `{StrDebug} `{HexText} `{Ipv6Text} `{ServerNames} {T} `{Has consumer_sig T} `{Has framed_sig T}
  `{Has timer_sig T} `{Has dial_sig T} `{Has extra_sig T} `{Has udp_sig T} `{Has host_sig T}
  `{Has bind_sig T} `{Has direct_env T}
  uuid_text turns to bind_addr id secret insecure udp stun pm pp port release carriers notes :
  always (fun r => forall self, r = Some (Ok self) -> well_made self)
    (Proxy_new (T := T) uuid_text turns to bind_addr id secret insecure udp stun pm pp port release carriers notes).
Proof.
  unfold Proxy_new. do 2 (apply always_cbind; [done..|intros _]).
  apply always_cbind; [done..|]. intros direct.
  apply (always_bind (fun r => forall c, r = Some (Ok c) -> c = if direct : bool then Some 0 else None)).
  - destruct direct; [|by intros c [= <-]]. apply (always_bind (fun rx => rx = 0)).
    + apply (always_bind (fun _ => True)); [by apply always_true|done].
    + by intros rx -> c [= <-].
  - intros [[c|e|]|] Hc; [|done..]. apply always_cbind; [done..|]. intros _.
    apply (always_bind (fun _ => True)); [by apply always_true|]. intros bound _.
    apply always_cbind; [done..|]. intros _ self [= <-]. unfold well_made. simpl.
    rewrite (Hc c eq_refl). by destruct direct.
Qed.

(** C30: One attempt and one path.  However the loop of a consumer and its tasks
    interleave, and whatever the server and the network answer, at most one attempt
    to upgrade is running, and the connections taken were forwarded over carriers
    of the relay first and over one and the same direct connection from the upgrade
    on. *)
Theorem one_attempt_one_path `{Json ClientMessage} `{Json ServerMessage} `{Crypto}
  `{StrDebug} `{HexText} `{Ipv6Text} uuid_text streams turns self pool x :
  well_made self -> consumer_reached uuid_text streams turns self pool x ->
  length (busy (ctasks x)) <= 1 /\
  exists relayed c n, forwarded (chub_of x) = (MuxOpener <$> relayed) ++ replicate n (DirectOpener c).
Proof.
  intros Hw Hr.
  assert (Ho : orderly x).
  { pose proof (orderly_start uuid_text turns self pool Hw) as Hs. revert Hs. unfold consumer_reached in Hr.
    induction Hr as [|x y z Hxy _ IH]; [done|]. intros Hx. by eapply IH, orderly_step. }
  destruct Ho as (g & _ & _ & Hnd & _ & Hb & Hf). split.
  - apply (alone_landed g 0); [done|]. eapply sublist_NoDup; [exact Hnd|apply busy_ids].
  - destruct g as [|a|c]; simpl in Hf; [|by destruct Hf as [ms ->]; exists ms, 0, 0; rewrite app_nil_r|].
    + destruct Hf as [ms ->]. exists ms, 0, 0. by rewrite app_nil_r.
    + destruct Hf as (ms & n & ->). by exists ms, c, n.
Qed.

(** ** A port that was released *)

#[local] Existing Instances lone_client_json lone_str_debug lone_hex lone_ipv6 lone_names lone_crypto.
#[local] Instance hint_json : Json ServerMessage :=
  {| to_vec := fun _ => Ok [];
     from_slice := fun b => Ok (match b with
       | [] => ServerMessage.UdpStunHint None
       | _ => ServerMessage.UdpPunch [x01] [Sock (V4 1) 443] None UdpDirectTuning_default 0
       end) |}.

Definition stun_server : SocketAddr := Sock (V4 (from_octets 198 51 100 1)) 3478.
Definition seen_at (port : N) : SocketAddr := Sock (V4 (from_octets 203 0 113 9)) port.
Definition stun_id : bytes := replicate 12 x07.
Definition stun_reply (port : N) : bytes :=
  match binding_response (binding_request stun_id) (seen_at port) with Ok (Some b) => b | _ => [] end.

(** The world of a consumer: every message is a hint, a STUN server finds the
    socket at port 5000, and an hour passes each time the clock is read. *)
Definition consumer_world : handler csys (list proxy_event * Z) :=
  fun o st =>
    match o return resp (s := csys) o * (list proxy_event * Z) with
    | inl (SelectProxy _ _ _) =>
        match st.1 with e :: es => (e, (es, st.2)) | [] => (DirectClosed, st) end
    | inl InstantNow => (st.2, (st.1, st.2 + 3600000)%Z)
    | inl (SpawnUpgrade _) => (0, st)
    | inl (PoolPush _ _) | inl (SendCand _ _) => (true, st)
    | inl PoolPick => (Some 0, st)
    | inl (BindListener _) => (Ok tt, st)
    | inl (AwaitPunch _) => (None, st)
    | inl _ => (tt, st)
    | inr (inr (inr (inr (inl RandomTxid)))) => (stun_id, st)
    | inr (inr (inr (inr (inl (RecvFromT _ _))))) => (InTime (Ok (stun_reply 5000, stun_server)), st)
    | inr (inr (inr (inr (inr (inl (LookupHost _)))))) => (Ok [stun_server], st)
    | inr o => (lone_world ControlReady (inr o), st)
    end.

Definition port_consumer : Proxy :=
  {| data_path := Relay; direct := false; direct_closed_rx := None; proxy_udp := true;
     proxy_endpoint := parse "bore.tld"; proxy_secret := None; proxy_stun_server := None;
     proxy_port_map := false; proxy_port_prediction := false; proxy_udp_port := 5000;
     proxy_release_timeout := 60; upgrade_backoff := new_with UDP_UPGRADE_INITIAL_SECS UDP_UPGRADE_MAX_SECS;
     upgrade_attempt := 0 |}.

(** The ports that sockets are bound to: by an attempt, or by the loop's check. *)
Inductive port_use : Type := Attempt (port : N) | Probe (port : N).

Definition port_of (o : op csys) : option port_use :=
  match o with
  | inl (SpawnUpgrade args) => Some (Attempt (up_udp_port args))
  | inr (inr (inr (inr (inr (inr (inl (BindPort p))))))) => Some (Probe p)
  | _ => None
  end.

Definition ports_used (events : list proxy_event) : list port_use :=
  omap port_of (run (traced consumer_world)
    (proxy_listen (T := csys) (fun _ => "") (length events) port_consumer) ((events, 0%Z), [])).2.2.

Definition offer_from (port : N) : proxy_event :=
  CandReady (Some {| offered := [seen_at port]; offered_stun := None; peer_id := 0 |}).

(** A remapped attempt, then an attempt from another port while the check finds the
    preferred one released: [late] says whether the offer comes after the check. *)
Definition release_events (late : bool) : list proxy_event :=
  [ProxyControl; offer_from 6000; UpgradeDone None; ProxyControl] ++
  (if late then [ReleaseTick; offer_from 41000] else [offer_from 41000; ReleaseTick]) ++
  [UpgradeDone None; ProxyControl].

(** A released port is taken for remapped.  The check finds that the NAT keeps the
    preferred port again, and schedules an attempt from it.  When the offer of an
    attempt from an ephemeral port, begun before, comes only after the check, its
    address is compared with the preferred port: the port counts as remapped again,
    and the attempt that was scheduled leaves from an ephemeral port.  In the other
    order it leaves from the preferred one. *)
Theorem stale_offer_hides_the_release :
  ports_used (release_events false) = [Attempt 5000; Attempt 0; Probe 5000; Attempt 5000] /\
  ports_used (release_events true) = [Attempt 5000; Attempt 0; Probe 5000; Attempt 0].
Proof. split; by vm_compute. Qed.

(** A run of the system with an attempt that arrives: the loop starts it, forwards
    one connection over the relay while it runs, and two over the direct path. *)
Definition consumer_answers (e : proxy_event) (now : Z) (message : bytes) : answers_of :=
  fun o =>
    match o return resp (s := csys) o with
    | inl (SelectProxy _ _ _) => e
    | inl InstantNow => now
    | inl o => (consumer_world (inl o) ([], now)).1
    | inr (inl FramedNext) => Some (Ok message)
    | inr (inr (inr (inr (inr (inr (inr (inr (inr (inl (NextAttempt _ _)))))))))) => InTime (Ok tt)
    | inr o => (consumer_world (inr o) ([], now)).1
    end.

Definition turn_of (who : option nat) (ops : nat) (e : proxy_event) (message : bytes) :
  list (option nat * answers_of) :=
  replicate ops (who, consumer_answers e 9999 message).

Definition landing_script : list (option nat * answers_of) :=
  [(None, consumer_answers ProxyControl 0 [])] ++
  turn_of None 8 ProxyControl [] ++ turn_of None 5 ProxyControl [] ++         (* the hint *)
  turn_of None 3 (LocalAccepted (Ok 3)) [] ++
  turn_of (Some 0) 17 ProxyControl [] ++                                      (* the candidates *)
  turn_of None 3 (CandReady (Some {| offered := []; offered_stun := None; peer_id := 0 |})) [] ++
  turn_of None 5 ProxyControl [x00] ++                                        (* the punch *)
  turn_of (Some 0) 15 ProxyControl [] ++
  turn_of None 2 (UpgradeDone (Some 0)) [] ++
  turn_of None 2 (LocalAccepted (Ok 4)) [] ++ turn_of None 2 (LocalAccepted (Ok 5)) [].

Lemma one_attempt_one_path_witness :
  exists x, consumer_reached (fun _ => "") 4 8 port_consumer (CarrierPool_new 0) x /\
    forwarded (chub_of x) = [MuxOpener 0; DirectOpener 1; DirectOpener 1] /\
    length (busy (ctasks x)) <= 1 /\
    exists relayed c n, forwarded (chub_of x) = (MuxOpener <$> relayed) ++ replicate n (DirectOpener c).
Proof.
  assert (Hf : (fun x => forwarded (chub_of x)) <$>
      cplay (fun _ => "") 4 (consumer_start (fun _ => "") 8 port_consumer (CarrierPool_new 0)) landing_script =
    Some [MuxOpener 0; DirectOpener 1; DirectOpener 1]) by by vm_compute.
  apply fmap_Some in Hf as (x & Hx & Hf). apply cplay_steps in Hx. exists x.
  split; [exact Hx|]. split; [done|].
  apply (one_attempt_one_path (fun _ => "") 4 8 port_consumer (CarrierPool_new 0) x); [by split|exact Hx].
Defined.
