(* ===== verification/Startup.v ===== *)
(** * The reference server at its start ([vendored-from-bore/server.rs])

    Its configuration, [Server::listen] with the tasks it starts (the frontends of
    virtual hosts, the acceptor of direct carriers), and HTTP on the control port. *)

From stdpp Require Import list gmap.
From S2P Require Import Prelude Streams Json Proto Auth Text Prefixed Pool Shared Transport Fs Frames Addresses Stun Control Direct Rendezvous Front RefTransport Paths.
Import ClientMessage(ClientMessage) ServerMessage(ServerMessage).

(** The [vhost] module, which is not in the repository. *)
Class Vhosts := {
  VhostConfig : Type;
  vhost_http_port : VhostConfig -> N;
  vhost_https_port : VhostConfig -> N;
  vhost_base_domain : VhostConfig -> string;
  vhost_cert_file : VhostConfig -> option string;
  vhost_key_file : VhostConfig -> option string;
  cert_present : VhostConfig -> bool;
  VhostMode : Type;
  mode_http : VhostMode;
  serves_http : VhostMode -> bool;
  serves_https : VhostMode -> bool;
  resolve_mode : VhostConfig -> bool -> ares VhostMode;
  extract_host_from_head : bytes -> option string;
  extract_subdomain : string -> string -> option string;
}.

(** ** Configuration *)

Definition DEFAULT_MAX_CONNS : N := 1024.
Definition DEFAULT_MAX_CARRIERS : N := 16.
Definition DEFAULT_CONTROL_HSTS : string := "max-age=31536000; includeSubDomains".

(** [Server], the settings; its registries and counters are the environment's. *)
Record Config `{Vhosts} : Type := {
  port_range : N * N;
  conf_auth : option Authenticator;
  conf_secret : option string;
  conn_permits : N;
  conf_max_carriers : N;
  conf_udp_tuning : UdpDirectTuning;
  conf_udp : bool;
  control_port : N;
  conf_tls : option TlsAcceptor;
  bind_addr : IpAddr;
  bind_tunnels : IpAddr;
  conf_admin_token : option string;
  control_hsts : option string;
  conf_vhost : option VhostConfig;
  vhost_tls : option TlsAcceptor;
  quic_port : N;
  quic_port_explicit : bool;
  conf_vpn : bool;
}.

Section Config.
Context `{Crypto} `{Pem} `{Vhosts}.

(** [Server::new]: [None] is the panic of its assertion. *)
Definition Server_new (range : N * N) (secret : option string) : option Config :=
  if (range.2 <? range.1)%N then None
  else Some
    {| port_range := range; conf_auth := authenticator_new <$> secret; conf_secret := secret;
       conn_permits := DEFAULT_MAX_CONNS; conf_max_carriers := DEFAULT_MAX_CARRIERS;
       conf_udp_tuning := UdpDirectTuning_default; conf_udp := false; control_port := CONTROL_PORT;
       conf_tls := None; bind_addr := V4 0; bind_tunnels := V4 0; conf_admin_token := None;
       control_hsts := Some DEFAULT_CONTROL_HSTS; conf_vhost := None; vhost_tls := None;
       quic_port := 443; quic_port_explicit := false; conf_vpn := false |}.

(** What a connection sees of it. *)
Definition seen (c : Config) : Server :=
  {| port_lo := (port_range c).1; port_hi := (port_range c).2; max_carriers := conf_max_carriers c;
     auth := conf_auth c; tls := bool_decide (is_Some (conf_tls c)); server_udp := conf_udp c;
     vhost_quic_port := quic_port c; udp_tuning := conf_udp_tuning c;
     vhost_config := bool_decide (is_Some (conf_vhost c)); vpn_enabled := conf_vpn c;
     admin_token := bool_decide (is_Some (conf_admin_token c)) |}.

Definition with_hsts (c : Config) (v : option string) : Config :=
  {| port_range := port_range c; conf_auth := conf_auth c; conf_secret := conf_secret c;
     conn_permits := conn_permits c; conf_max_carriers := conf_max_carriers c;
     conf_udp_tuning := conf_udp_tuning c; conf_udp := conf_udp c; control_port := control_port c;
     conf_tls := conf_tls c; bind_addr := bind_addr c; bind_tunnels := bind_tunnels c;
     conf_admin_token := conf_admin_token c; control_hsts := v; conf_vhost := conf_vhost c;
     vhost_tls := vhost_tls c; quic_port := quic_port c; quic_port_explicit := quic_port_explicit c;
     conf_vpn := conf_vpn c |}.

Definition with_vhost (c : Config) (v : option VhostConfig) (t : option TlsAcceptor) (port : N)
  (explicit : bool) : Config :=
  {| port_range := port_range c; conf_auth := conf_auth c; conf_secret := conf_secret c;
     conn_permits := conn_permits c; conf_max_carriers := conf_max_carriers c;
     conf_udp_tuning := conf_udp_tuning c; conf_udp := conf_udp c; control_port := control_port c;
     conf_tls := conf_tls c; bind_addr := bind_addr c; bind_tunnels := bind_tunnels c;
     conf_admin_token := conf_admin_token c; control_hsts := control_hsts c; conf_vhost := v;
     vhost_tls := t; quic_port := port; quic_port_explicit := explicit; conf_vpn := conf_vpn c |}.

Definition set_control_hsts (c : Config) (hsts : string) : Config :=
  let value := trim hsts in
  let low := to_ascii_lowercase value in
  with_hsts c
    (if String.eqb value "" || String.eqb low "off" || String.eqb low "false" || String.eqb low "none"
     then None else Some value).

Definition set_vhost_quic_port (c : Config) (port : N) : Config :=
  with_vhost c (conf_vhost c) (vhost_tls c) port true.

(** [unwrap_or(VhostMode::Http)]. *)
Definition mode_of (cfg : VhostConfig) : VhostMode :=
  match resolve_mode cfg (cert_present cfg) with Ok m => m | _ => mode_http end.

Definition default_vhost_quic_port (cfg : VhostConfig) : N :=
  if serves_https (mode_of cfg) then vhost_https_port cfg else vhost_http_port cfg.

(** [cert] and [key] are unwrapped where a certificate is present. *)
Definition set_vhost (read : string -> result io_error bytes) (c : Config) (cfg : VhostConfig) : ares Config :=
  rbind (resolve_mode cfg (cert_present cfg)) (fun _ =>
  rbind (if cert_present cfg then
           match vhost_cert_file cfg, vhost_key_file cfg with
           | Some cert, Some key => rbind (load_server_tls read cert key) (fun a => Ok (Some a))
           | _, _ => Panicked
           end
         else Ok None) (fun acceptor =>
  let port := if quic_port_explicit c then quic_port c else default_vhost_quic_port cfg in
  Ok (with_vhost c (Some cfg) acceptor port (quic_port_explicit c)))).
End Config.

(** ** Operations *)

(** Registries of direct carriers: of public tunnels, or of virtual hosts. *)
Inductive startup_op `{Vhosts} : Type :=
| BindTcp (addr : IpAddr) (port : N)
| FrontendPort                               (* [local_addr()] of the listener *)
| SpawnFrontend (https : bool)
| SpawnReload
| BindUdp (addr : IpAddr) (port : N)
| SpawnStun
| QuicEndpoint
| SpawnQuic
| AcceptTcp
| SpawnConnection (c : conn)
| TryPermit_
| CountRejection_
| SpawnVisitor (https : bool) (c : conn)     (* with its permit *)
| HandleVisitor (https : bool) (c : conn)    (* [vhost::handle_http] or [handle_https] *)
| DropPermit_
| TlsAccept
| ReadFirst (secs : N)                       (* one byte, under a timeout *)
| ReadHead (secs : N)                        (* [vhost::read_head_async] *)
| VhostGet (subdomain : string)
| ServiceUnavailable
| RelayVhost (subdomain host : string) (head : bytes)
| AdminServe (token : string) (hsts : option string)
| RespondNotFound (hsts : option string)
| AcceptIncoming
| SpawnQuicConn
| RegistryGet (public : bool) (key : string)
| Install (public : bool) (key : string)     (* the number it has in the pool *)
| CloseDirect
| SpawnWatch (public : bool) (key : string) (id : N)
| DirectClosed_
| RemoveDirect (public : bool) (key : string) (id : N).

Definition startup_sig `{Vhosts} : sig :=
  Sig startup_op (fun o =>
    match o with
    | BindTcp _ _ | BindUdp _ _ => result io_error unit
    | FrontendPort => result io_error N
    | QuicEndpoint | ServiceUnavailable | RelayVhost _ _ _ => ares unit
    | AcceptTcp => result io_error conn
    | TlsAccept => result string unit
    | ReadFirst _ | ReadHead _ => timed (result io_error bytes)
    | TryPermit_ | VhostGet _ | AcceptIncoming | RegistryGet _ _ => bool
    | Install _ _ => option N
    | _ => unit
    end).

Section Startup.
Context `{Crypto} `{Vhosts} `{Json ClientMessage} `{Json ServerMessage}.
Context `{StrDebug} `{HexText} `{Ipv6Text} (uuid_text : Uuid -> string).
Context (is_http_first_byte : byte -> bool).
Context {T : sig} `{Has startup_sig T} `{Has front T}.

Definition startup (o : startup_op) : prog T (resp (s := startup_sig) o) := call (S := startup_sig) o.
Definition on_front {A} (p : prog front A) : prog T A := interp (fun o => call (S := front) o) p.

(** ** Frontends of virtual hosts *)

Definition visitor_task (https : bool) (c : conn) : prog T unit :=
  let! _ := startup (HandleVisitor https c) in
  startup DropPermit_.

Fixpoint frontend (turns : nat) (https : bool) : prog T unit :=
  match turns with
  | O => Ret tt
  | S turns' =>
      let! accepted := startup AcceptTcp in
      match accepted with
      | Ok c =>
          let! permit := startup TryPermit_ in
          let! _ := (if permit : bool then startup (SpawnVisitor https c) else startup CountRejection_) in
          frontend turns' https
      | Err _ => frontend turns' https
      | Panicked => Ret tt
      end
  end.

(** A frontend whose port is the control port is not bound. *)
Definition start_frontend (self : Config) (https : bool) (port : N) : prog T (ares unit) :=
  let? _ := (let! r := startup (BindTcp (bind_tunnels self) port) in Ret (map_err AnyIo r)) in
  let? _ := (let! r := startup FrontendPort in Ret (map_err AnyIo r)) in
  let! _ := startup (SpawnFrontend https) in
  Ret (Ok tt).

Definition start_frontends (self : Config) (cfg : VhostConfig) : prog T (ares unit) :=
  let mode := mode_of cfg in
  let http_unified := (vhost_http_port cfg =? control_port self)%N in
  let https_unified := (vhost_https_port cfg =? control_port self)%N in
  let? _ := (if serves_http mode && negb http_unified
             then start_frontend self false (vhost_http_port cfg) else Ret (Ok tt)) in
  let? _ := (if serves_https mode && negb https_unified
             then start_frontend self true (vhost_https_port cfg) else Ret (Ok tt)) in
  let! _ := startup SpawnReload in
  Ret (Ok tt).

(** ** HTTP on the control port *)

Definition serve_admin_http (self : Config) : prog T (ares unit) :=
  let hsts := if bool_decide (is_Some (conf_tls self)) then control_hsts self else None in
  match conf_admin_token self with
  | Some token => let! _ := startup (AdminServe token hsts) in Ret (Ok tt)
  | None => let! _ := startup (RespondNotFound hsts) in Ret (Ok tt)
  end.

Definition serve_control_http (self : Config) : prog T (ares unit) :=
  match conf_vhost self with
  | Some cfg =>
      let! head := startup (ReadHead NETWORK_TIMEOUT) in
      match head with
      | InTime (Ok head) =>
          let host := extract_host_from_head head in
          match host ≫= fun h => extract_subdomain h (vhost_base_domain cfg) with
          | Some sub =>
              let! entry := startup (VhostGet sub) in
              if entry : bool then
                let! permit := startup TryPermit_ in
                if permit : bool then
                  let! r := startup (RelayVhost sub (default "" host) head) in
                  let! _ := startup DropPermit_ in Ret r
                else let! _ := startup CountRejection_ in startup ServiceUnavailable
              else serve_admin_http self
          | None => serve_admin_http self
          end
      | _ => Ret (Ok tt)
      end
  | None => serve_admin_http self
  end.

(** ** A connection to the control port *)

(** [route_connection] with what it leads to; [turns] bounds a tunnel's loop. *)
Definition serve_socket (turns : nat) (self : Config) (c : conn) : prog T (option (ares unit)) :=
  let! read :=
    (if negb (admin_token (seen self)) && negb (vhost_config (seen self)) then Ret Elapsed
     else startup (ReadFirst NETWORK_TIMEOUT)) in
  match route_connection is_http_first_byte (seen self) read tt with
  | Dropped => Ret (Some (Ok tt))
  | ToHttp _ => let! r := serve_control_http self in Ret (Some r)
  | ToProtocol _ | ToProtocolBare _ => on_front (handle_connection uuid_text turns (seen self) c)
  end.

Definition connection_task (turns : nat) (self : Config) (c : conn) : prog T (option (ares unit)) :=
  match conf_tls self with
  | Some _ =>
      let! handshake := startup TlsAccept in
      match handshake with
      | Ok _ => serve_socket turns self c
      | _ => Ret (Some (Ok tt))
      end
  | None => serve_socket turns self c
  end.

Fixpoint accept_loop (turns : nat) : prog T (option (ares unit)) :=
  match turns with
  | O => Ret None
  | S turns' =>
      let! accepted := startup AcceptTcp in
      match accepted with
      | Ok c => let! _ := startup (SpawnConnection c) in accept_loop turns'
      | Err e => Ret (Some (Err (AnyIo e)))
      | Panicked => Ret (Some Panicked)
      end
  end.

(** [Server::listen]. *)
Definition server_listen (turns : nat) (self : Config) : prog T (option (ares unit)) :=
  let! bound := startup (BindTcp (bind_addr self) (control_port self)) in
  match bound with
  | Ok _ =>
      let! started := match conf_vhost self with Some cfg => start_frontends self cfg | None => Ret (Ok tt) end in
      match started with
      | Ok _ =>
          let! _ :=
            (if conf_udp self then
               let! udp := startup (BindUdp (bind_addr self) (control_port self)) in
               match udp with Ok _ => startup SpawnStun | _ => Ret tt end
             else Ret tt) in
          let! _ :=
            (if conf_udp self then
               let! udp := startup (BindUdp (bind_addr self) (quic_port self)) in
               match udp with
               | Ok _ =>
                   let! endpoint := startup QuicEndpoint in
                   match endpoint with Ok _ => startup SpawnQuic | _ => Ret tt end
               | _ => Ret tt
               end
             else Ret tt) in
          accept_loop turns
      | Err e => Ret (Some (Err e))
      | Panicked => Ret (Some Panicked)
      end
  | Err e => Ret (Some (Err (AnyIo e)))
  | Panicked => Ret (Some Panicked)
  end.

(** ** Direct carriers *)

Fixpoint quic_loop (turns : nat) : prog T unit :=
  match turns with
  | O => Ret tt
  | S turns' =>
      let! incoming := startup AcceptIncoming in
      if incoming : bool then let! _ := startup SpawnQuicConn in quic_loop turns' else Ret tt
  end.

(** The task that takes a closed carrier out of its pool, if the key is still there. *)
Definition watch_task (public : bool) (key : string) (id : N) : prog T unit :=
  let! _ := startup DirectClosed_ in
  let! entry := startup (RegistryGet public key) in
  if entry : bool then startup (RemoveDirect public key id) else Ret tt.
End Startup.

(** The token a key calls for, by the nonces that are pending when it is looked up. *)
Definition direct_lookup `{Crypto} (secret : option string) (vhosts publics : gmap string bytes)
  (key : string) : option bytes :=
  match vhosts !! key with
  | Some nonce => Some (derive_token secret nonce)
  | None => derive_token secret <$> publics !! key
  end.

Definition is_public_key (key : string) : bool := bool_decide (is_Some (strip_prefix "port:" key)).

Section Carriers.
Context `{Crypto} `{Vhosts} {L : sig} `{Has startup_sig L} `{Has quic_sig L} `{Has timer_sig L}.

Abbreviation net := (stream_sig ⊕ L).

Definition at_startup (o : startup_op) : prog net (resp (s := startup_sig) o) :=
  lift_r (call (S := startup_sig) (T := L) o).

(** The task of an incoming connection. *)
Definition quic_conn (utf8_error : bytes -> string) (lookup : string -> option bytes) : prog net unit :=
  let! conn := quic Handshake in
  match conn with
  | Ok _ =>
      let! r := vhost_server_handshake utf8_error lookup in
      match r with
      | Ok key =>
          let public := is_public_key key in
          let! entry := at_startup (RegistryGet public key) in
          if entry : bool then
            let! id := at_startup (Install public key) in
            match id with
            | Some id => at_startup (SpawnWatch public key id)
            | None => at_startup CloseDirect
            end
          else Ret tt
      | _ => Ret tt
      end
  | _ => Ret tt
  end.
End Carriers.

(** * What holds of the server at its start ([vendored-from-bore/server.rs])

    Direct carriers are installed only under a key whose token they showed; the
    control port is bound once; the port of QUIC follows the settings in any order;
    and one failed [accept] ends the server. *)

(** ** Programs over a memory stream

    [mem_safe G Q p m]: on the stream [m], whatever else is answered, every other
    operation of [p] satisfies [G] and its result and what is left of the stream
    satisfy [Q]. *)

Section Mem.
Context {L : sig} (G : op L -> Prop).

Fixpoint mem_safe {A} (Q : A -> mem -> Prop) (p : prog (stream_sig ⊕ L) A) (m : mem) : Prop :=
  match p with
  | Ret a => Q a m
  | Op o k =>
      match o return (resp (s := stream_sig ⊕ L) o -> prog (stream_sig ⊕ L) A) -> Prop with
      | inl o => fun k => mem_safe Q (k (mem_stream o m).1) (mem_stream o m).2
      | inr o => fun k => G o /\ forall r, mem_safe Q (k r) m
      end k
  end.

Definition local_ok (o : op (stream_sig ⊕ L)) : Prop := match o with inl _ => True | inr o => G o end.

Lemma mem_safe_run {A St} (Q : A -> mem -> Prop) (h : handler L St) p m st l0 :
  mem_safe Q p m ->
  exists l, (run (traced (hsum mem_stream h)) p ((m, st), l0)).2.2 = l0 ++ l /\ Forall local_ok l.
Proof.
  revert m st l0. induction p as [a|[o|o] k IH]; intros m st l0; simpl.
  - intros _. exists []. by rewrite app_nil_r.
  - destruct (mem_stream o m) as [r m'] eqn:E. simpl. intros Hk.
    destruct (IH r m' st (l0 ++ [inl o]) Hk) as (l & El & Hl). exists (inl o :: l).
    split; [|by constructor]. rewrite <- El || (etrans; [exact El|]). by rewrite <- app_assoc.
  - intros [Ho Hk]. destruct (IH (h o st).1 m (h o st).2 (l0 ++ [inr o]) (Hk _)) as (l & El & Hl).
    exists (inr o :: l). split; [|by constructor].
    destruct (h o st) as [r st']. simpl in *. etrans; [exact El|]. by rewrite <- app_assoc.
Qed.

Lemma mem_safe_bind {A B} (Q : B -> mem -> Prop) (p : prog (stream_sig ⊕ L) A) f m :
  mem_safe (fun a m => mem_safe Q (f a) m) p m -> mem_safe Q (pbind p f) m.
Proof. revert m. induction p as [a|[o|o] k IH]; intros m; simpl; naive_solver. Qed.

Lemma mem_safe_mono {A} (Q R : A -> mem -> Prop) (p : prog (stream_sig ⊕ L) A) m :
  (forall a m, Q a m -> R a m) -> mem_safe Q p m -> mem_safe R p m.
Proof. intros HQR. revert m. induction p as [a|[o|o] k IH]; intros m; simpl; naive_solver. Qed.

(** A program that leaves the stream alone. *)
Lemma mem_safe_local {A} (Q : A -> mem -> Prop) (p : prog L A) m :
  every G p -> (forall a, Q a m) -> mem_safe Q (lift_r p) m.
Proof. intros Hp HQ. induction p as [a|o k IH]; simpl in *; [done|]. destruct Hp. split; auto. Qed.
End Mem.

Section Handshake.
Context {L : sig} `{Has quic_sig L} `{Has timer_sig L} (G : op L -> Prop).
Context (Hquic : forall o, every G (call (S := quic_sig) (T := L) o)).
Context (Htimer : forall o, every G (call (S := timer_sig) (T := L) o)).

Abbreviation net := (stream_sig ⊕ L).

Lemma mem_safe_timeout {A} (Q : A -> mem -> Prop) secs (p : prog net A) m :
  mem_safe G Q p m ->
  mem_safe G (fun r m => match r with InTime a => Q a m | Elapsed => True end) (timeout secs p) m.
Proof.
  revert m. induction p as [a|[o|o] k IH]; intros m; cbn [timeout]; [done| |].
  - intros Hk. apply mem_safe_bind, mem_safe_local; [apply Htimer|]. intros [|]; simpl; [done|]. by apply IH.
  - intros [Ho Hk]. apply mem_safe_bind, mem_safe_local; [apply Htimer|].
    intros [|]; simpl; [done|]. split; [done|]. intros r. by apply IH.
Qed.

(** What is read is taken off the stream. *)
Lemma mem_safe_read {A} (Q : ares A -> mem -> Prop) n (f : bytes -> prog net (ares A)) m :
  (forall bs rest, inbox m = bs ++ rest -> nlen bs = n ->
     mem_safe G Q (f bs) (Mem rest (outbox m) (sched m))) ->
  (forall e m', Q (Err e) m') ->
  mem_safe G Q (ptry (io_try (stream (ReadExact n))) f) m.
Proof.
  intros Hf He. simpl. destruct (decide (n <= nlen (inbox m))%N) as [Hn|Hn]; simpl.
  - apply Hf; [by rewrite take_drop|]. unfold nlen in *. rewrite length_take. lia.
  - apply He.
Qed.

Lemma mem_safe_quic {A} (Q : ares A -> mem -> Prop) o (g : resp (s := quic_sig) o -> ares unit)
  (f : unit -> prog net (ares A)) m :
  (forall u, mem_safe G Q (f u) m) -> (forall e, Q (Err e) m) -> Q Panicked m ->
  mem_safe G Q (ptry (pbind (quic o) (fun r => Ret (g r))) f) m.
Proof.
  intros Hf He Hp. apply mem_safe_bind, mem_safe_bind, mem_safe_local; [apply Hquic|].
  intros r. simpl. destruct (g r); simpl; auto.
Qed.

(** The key of an accepted connection, and the token that was shown for it. *)
Definition shown (lookup : string -> option bytes) (i : bytes) (key : string) : Prop :=
  exists a b token received rest,
    i = [a; b] ++ String.list_byte_of_string key ++ received ++ rest /\
    be_u16 a b = nlen (String.list_byte_of_string key) /\ nlen received = TOKEN_LEN /\
    lookup key = Some token /\ tokens_match token received = true.

Lemma vhost_check_shown utf8_error lookup m :
  mem_safe G (fun r _ => forall key, r = Ok key -> shown lookup (inbox m) key)
    (vhost_check (L := L) utf8_error lookup) m.
Proof.
  unfold vhost_check. apply mem_safe_quic; [|done..]. intros _.
  apply mem_safe_read; [|done]. intros len rest1 Ei El.
  destruct len as [|a [|b [|c len]]]; [done..| |done]. cbn [ptry pbind].
  apply mem_safe_read; [|done]. intros bs rest2 Ei2 El2. simpl in Ei2.
  destruct (valid_utf8 _); cbn [ptry pbind]; [|done].
  apply mem_safe_read; [|done]. intros received rest3 Ei3 El3. simpl in Ei3.
  destruct (lookup _) as [token|] eqn:Et; cbn [ok_or ptry pbind]; [|done].
  destruct (tokens_match token received) eqn:Em; cbn [negb]; [|done].
  simpl. apply mem_safe_bind, mem_safe_local; [apply Hquic|]. intros []. simpl. intros key [= <-].
  exists a, b, token, received, rest3. rewrite String.list_byte_of_string_of_list_byte.
  rewrite Ei, Ei2, Ei3. by rewrite <- El2.
Qed.

Lemma vhost_server_handshake_shown utf8_error lookup m :
  mem_safe G (fun r _ => forall key, r = Ok key -> shown lookup (inbox m) key)
    (vhost_server_handshake (L := L) utf8_error lookup) m.
Proof.
  unfold vhost_server_handshake, in_budget. apply mem_safe_bind.
  eapply mem_safe_mono; [|apply mem_safe_timeout, vhost_check_shown]. by intros [r|] m'; simpl.
Qed.
End Handshake.

(** ** The task of an incoming connection *)

Definition quic_env `{Vhosts} : sig := startup_sig ⊕ (quic_sig ⊕ timer_sig).

(** A carrier that is installed showed the token of its key. *)
Definition proven (lookup : string -> option bytes) (i : bytes) `{Vhosts} (o : op quic_env) : Prop :=
  match o with
  | inl (Install public key) => public = is_public_key key /\ shown lookup i key
  | _ => True
  end.


(** ** Settings *)

(** The calls that set the port of QUIC. *)
Inductive setting `{Vhosts} : Type := QuicPort (port : N) | Vhost (cfg : VhostConfig).

Definition apply_setting `{Vhosts} `{Pem} (read : string -> result io_error bytes) (c : ares Config)
  (s : setting) : ares Config :=
  rbind c (fun c =>
  match s with QuicPort port => Ok (set_vhost_quic_port c port) | Vhost cfg => set_vhost read c cfg end).

(** The last port that was set, else that of the last frontend, else [otherwise]. *)
Fixpoint last_port `{Vhosts} (ss : list setting) : option N :=
  match ss with
  | [] => None
  | QuicPort p :: ss => Some (default p (last_port ss))
  | Vhost _ :: ss => last_port ss
  end.
Fixpoint last_frontend `{Vhosts} (ss : list setting) : option N :=
  match ss with
  | [] => None
  | QuicPort _ :: ss => last_frontend ss
  | Vhost cfg :: ss => Some (default (default_vhost_quic_port cfg) (last_frontend ss))
  end.

Lemma apply_setting_stays `{Vhosts} `{Pem} read ss (r : ares Config) c :
  foldl (apply_setting read) r ss = Ok c -> exists c0, r = Ok c0.
Proof.
  destruct r as [c0|e|]; [by eexists|..]; (induction ss as [|s ss IH]; simpl; [done|exact IH]).
Qed.

(** The port of the QUIC endpoint: whatever the order of the calls, the port that
    was set explicitly wins over the one a frontend suggests. *)
Lemma quic_port_follows_settings `{Vhosts} `{Pem} read ss c0 c :
  foldl (apply_setting read) (Ok c0) ss = Ok c ->
  quic_port c =
    match last_port ss with
    | Some p => p
    | None => if quic_port_explicit c0 then quic_port c0 else default (quic_port c0) (last_frontend ss)
    end.
Proof.
  revert c0. induction ss as [|[p|cfg] ss IH]; intros c0; cbn [foldl last_port last_frontend].
  - intros [= ->]. simpl. by destruct (quic_port_explicit c).
  - simpl. intros Hf. rewrite (IH _ Hf). simpl. by destruct (last_port ss).
  - intros Hf. destruct (apply_setting_stays _ _ _ _ Hf) as [c1 E]. rewrite E in Hf.
    rewrite (IH _ Hf). clear Hf. simpl in E. unfold set_vhost in E.
    destruct (resolve_mode cfg _) as [m|e|]; simpl in E; [|done..].
    destruct (if cert_present cfg then _ else _) as [t|e|]; simpl in E; [|done..]. injection E as <-. simpl.
    destruct (last_port ss); [done|]. destruct (quic_port_explicit c0); [done|]. by destruct (last_frontend ss).
Qed.

(** ** The control port *)

Definition control_binds `{Vhosts} (port : N) (o : op startup_sig) : bool :=
  match o with BindTcp _ p => (p =? port)%N | _ => false end.

Section Listening.
Context `{Crypto} `{Vhosts}.

Definition apart (port : N) (o : op startup_sig) : Prop := control_binds port o = false.

Lemma frontends_apart (self : Config) cfg :
  every (apart (control_port self)) (start_frontends (T := startup_sig) self cfg).
Proof.
  assert (Hf : forall https port, (port =? control_port self)%N = false ->
    every (apart (control_port self)) (start_frontend (T := startup_sig) self https port)).
  { intros https port Hp. split; [exact Hp|]. intros [u|e|]; simpl; [|done..].
    split; [done|]. intros [p|e|]; simpl; by repeat split. }
  unfold start_frontends. apply every_try; [|intros _; apply every_try; [|intros _; by repeat split]].
  - case_match eqn:E; [|done]. rewrite andb_true_iff, negb_true_iff in E. apply Hf, E.
  - case_match eqn:E; [|done]. rewrite andb_true_iff, negb_true_iff in E. apply Hf, E.
Qed.

Lemma accept_loop_apart turns port : every (apart port) (accept_loop (T := startup_sig) turns).
Proof.
  induction turns as [|turns IH]; simpl; [done|]. split; [done|]. intros [c|e|]; simpl; by repeat split.
Qed.

(** One failed [accept] ends the server: the loop of the control port returns the
    error of the first connection that could not be accepted, where the frontends
    of virtual hosts go on to the next. *)
Lemma accept_error_ends_the_server {St} (h : handler startup_sig St) turns st e :
  (h AcceptTcp st).1 = Err e ->
  (run h (accept_loop (S turns)) st).1 = Some (Err (AnyIo e)) /\
  run h (frontend (S turns) false) st = run h (frontend turns false) (h AcceptTcp st).2.
Proof. intros E. simpl. destruct (h AcceptTcp st) as [r st']. simpl in E. by subst. Qed.

(** The control port is bound first, and never again: a frontend that is configured
    on the same port is served by the control port. *)
Lemma control_port_is_bound_once {St} (h : handler startup_sig St) turns (self : Config) st :
  length (List.filter (control_binds (control_port self))
    (run (traced h) (server_listen (T := startup_sig) turns self) (st, [])).2.2) = 1.
Proof.
  unfold server_listen. cbn [pbind].
  assert (Hrest : forall p : prog startup_sig (option (ares unit)), every (apart (control_port self)) p ->
    forall st, length (List.filter (control_binds (control_port self))
      (run (traced h) p (st, [BindTcp (bind_addr self) (control_port self)])).2.2) = 1).
  { intros p Hp st'. destruct (traced_every _ h p st' [BindTcp (bind_addr self) (control_port self)] Hp)
      as (l & E & Hl).
    etrans; [exact (f_equal (fun x => length (List.filter (control_binds (control_port self)) x.2.2)) E)|].
    simpl. rewrite N.eqb_refl. simpl. f_equal. clear E. induction Hl as [|o l Ho Hl IH]; [done|]. unfold apart in Ho. simpl. by rewrite Ho. }
  simpl. destruct (h _ st) as [[u|e|] st']; cbn [fst snd app].
  - apply Hrest. apply every_bind; [destruct (conf_vhost self); [apply frontends_apart|done]|].
    intros [v|e|]; [|done..].
    apply every_bind; [destruct (conf_udp self); [|done]; split; [done|]; intros [|e|]; by repeat split|].
    intros _. apply every_bind; [|intros _; apply accept_loop_apart].
    destruct (conf_udp self); [|done]. split; [done|]. intros [|e|]; simpl; [|done..].
    split; [done|]. intros [|e|]; by repeat split.
  - simpl. by rewrite N.eqb_refl.
  - simpl. by rewrite N.eqb_refl.
Qed.
End Listening.
