(* ===== verification/Diagnose.v ===== *)
(** * The report on a host's UDP ([vendored-from-bore/holepunch.rs], [diagnose])

    The probes of STUN servers on one socket, the verdict on the NAT, and what is
    printed of them; then what the verdict says of the probes. *)

From stdpp Require Import list.
From S2P Require Import Prelude Streams Proto Transport Plan Fs Addresses Stun Candidates Control RefTransport Dial.

(** ** Operations *)

Inductive print_op : Type := Println (line : string).

Definition print_sig : sig := Sig print_op (fun _ => unit).

Definition ip_text `{Ipv6Text} (i : IpAddr) : string :=
  match i with V4 a => ipv4_display a | V6 a => ipv6_display a end.

(** ** The verdict *)

Definition verdict (class : NatClass) : list string :=
  match class with
  | Blocked =>
      ["UDP appears BLOCKED outbound: no public STUN server answered.";
       "  -> Direct UDP hole-punching is impossible from this host.";
       "  -> Tunnels still work over the TCP relay (--udp simply has no effect).";
       "  Fix: allow outbound UDP, or run from a network that permits it."]
  | Open =>
      ["PUBLIC IP / no NAT: this socket is directly reachable.";
       "  -> Hole-punching trivially works; an ideal provider."]
  | Inconclusive =>
      ["UDP egress WORKS but only one server answered — cannot classify the";
       "  NAT mapping (need >=2 distinct STUN servers). Re-run to retry."]
  | Cone =>
      ["CONE NAT (endpoint-independent mapping): same public port to every server.";
       "  -> Hole-punching WORKS from your side. If the direct path still fails,";
       "     the *peer* is the blocker (symmetric/CGNAT/UDP-blocked on their end)."]
  | Symmetric sequential =>
      ["SYMMETRIC NAT (endpoint-dependent mapping): public port changes per destination.";
       if sequential then "  Ports look SEQUENTIAL -> --try-port-prediction has a chance (best-effort)."
       else "  Ports look RANDOM -> port prediction is unlikely to help.";
       "  -> Direct path works only if the *other* peer is cone/open. Symmetric+symmetric";
       "     or symmetric+CGNAT cannot punch and falls back to the relay."]
  end.

Section Lines.
Context `{Ipv6Text}.

Definition socket_lines (local_port preferred_port : N) (local_ip : option IpAddr) : list string :=
  let port_kind := if (preferred_port =? 0)%N then "ephemeral" else "fixed (--nat-udp-preferred-port)" in
  [""; "Local UDP socket : 0.0.0.0:" +:+ pretty local_port +:+ " (" +:+ port_kind +:+ ")";
   match local_ip with
   | Some i => "Primary local IP : " +:+ ip_text i +:+ routability_note i
   | None => "Primary local IP : <none found>"
   end;
   ""; "STUN probes (a public IP here means UDP egress works):"].

Definition probe_ok (server : string) (refl : SocketAddr) : string :=
  "  [ ok ] " +:+ pad_right 26 server +:+ " -> " +:+ sock_display refl.
Definition probe_failed (server : string) (err : anyhow) : string :=
  "  [FAIL] " +:+ pad_right 26 server +:+ " -> " +:+ any_display err.

(** Port preservation, and an address that is not public. *)
Definition first_lines (local_port : N) (refl : SocketAddr) : list string :=
  ["";
   if (port refl =? local_port)%N
   then "Port preservation: YES (local " +:+ pretty local_port +:+ " == public " +:+ pretty (port refl) +:+ ")."
   else "Port preservation: no  (local " +:+ pretty local_port +:+ " -> public " +:+ pretty (port refl) +:+ ")."] ++
  (if is_cgnat (ip refl) then
     ["CGNAT detected: public address " +:+ ip_text (ip refl) +:+ " is in 100.64.0.0/10.";
      "  -> P2P is unlikely; the relay is the reliable path here."]
   else if is_non_routable (ip refl) then
     ["Double-NAT: the 'public' address " +:+ ip_text (ip refl) +:+ " is itself private — another NAT upstream."]
   else []).

Definition hairpin_lines : list string :=
  ["";
   "Note: public STUN works but YOUR bore server's UDP did NOT answer.";
   "  Likely co-location/hairpin (this host shares the server's machine/LAN),";
   "  or UDP to the control port is not open server-side. Run the provider from a";
   "  different network, or pass --stun-server <public:port> so candidates still";
   "  get a public IP."].

Definition upnp_lines (r : result anyhow IpAddr) : list string :=
  match r with
  | Ok i =>
      ["UPnP-IGD router : FOUND, external IP " +:+ ip_text i +:+ routability_note i +:+ ".";
       "  -> --upnp can map a router port here (helps strict home NATs)."]
  | Err err => ["UPnP-IGD router : none (" +:+ any_display err +:+ "); --upnp would have no effect here."]
  | Panicked => []
  end.
End Lines.

(** ** The probes *)

Section Diagnose.
Context {T : sig} `{Has print_sig T} `{Has udp_sig T} `{Has host_sig T} `{Has bind_sig T} `{Ipv6Text}.

Fixpoint say (lines : list string) : prog T unit :=
  match lines with
  | [] => Ret tt
  | l :: lines' => let! _ := call (S := print_sig) (Println l) in say lines'
  end.

(** The first address of the name, of either family. *)
Definition probe_one (hostport : string) : prog T (ares SocketAddr) :=
  let? addrs := (let! r := host (LookupHost hostport) in
                 Ret (context ("resolve " +:+ hostport) (map_err AnyIo r))) in
  let? addr := Ret (ok_or (head addrs) (AnyMsg ("no addresses for " +:+ hostport))) in
  discover_reflexive addr.

Definition upnp_external_ip : prog T (ares IpAddr) :=
  let? _ := (let! r := host SearchGateway in
             Ret (context "no UPnP-IGD gateway found" (map_err AnyMsg r))) in
  let! r := host GetExternalIp in
  Ret (context "UPnP-IGD external IP query failed" (map_err AnyMsg r)).

(** [for server in PUBLIC_STUN]. *)
Fixpoint probe_public (servers : list string) (public_obs : list StunObservation) :
  prog T (ares (list StunObservation)) :=
  match servers with
  | [] => Ret (Ok public_obs)
  | server :: servers' =>
      let! r := probe_one server in
      match r with
      | Ok refl =>
          let! _ := say [probe_ok server refl] in
          probe_public servers' (public_obs ++ [{| obs_server := server; obs_reflexive := refl |}])
      | Err err =>
          let! _ := say [probe_failed server err] in
          probe_public servers' public_obs
      | Panicked => Ret Panicked
      end
  end.

Definition probe_override (server : string) : prog T (ares unit) :=
  let! r := probe_one server in
  match r with
  | Ok refl => let! _ := say [probe_ok server refl +:+ "  (--stun-server)"] in Ret (Ok tt)
  | Err err => let! _ := say [probe_failed server err +:+ "  (--stun-server)"] in Ret (Ok tt)
  | Panicked => Ret Panicked
  end.

(** Whether the server's own responder answers; [None] where its name does not resolve. *)
Definition probe_bore (name : string) (port : N) : prog T (ares (option bool)) :=
  let! resolved := resolve_stun name port None in
  match resolved with
  | Ok addr =>
      let to := pad_right 20 (sock_display addr) in
      let! r := discover_reflexive addr in
      match r with
      | Ok refl =>
          let! _ := say ["  [ ok ] bore server " +:+ to +:+ " -> " +:+ sock_display refl +:+ "  (your --to)"] in
          Ret (Ok (Some true))
      | Err err =>
          let! _ := say ["  [FAIL] bore server " +:+ to +:+ " -> " +:+ any_display err +:+ "  (your --to)"] in
          Ret (Ok (Some false))
      | Panicked => Ret Panicked
      end
  | Err err =>
      let! _ := say ["  [FAIL] bore server resolve -> " +:+ any_display err +:+ "  (your --to)"] in
      Ret (Ok None)
  | Panicked => Ret Panicked
  end.

(** Parts 4 and 5 of the report. *)
Definition report (local_ip : option IpAddr) (local_port : N) (public_obs : list StunObservation)
  (bore_reachable : option bool) : list string :=
  [""; "Verdict"; "-------"] ++ verdict (classify_nat (option_list local_ip) public_obs) ++
  match public_obs with first :: _ => first_lines local_port (obs_reflexive first) | [] => [] end ++
  (if bool_decide (bore_reachable = Some false) && negb (bool_decide (public_obs = [])) then hairpin_lines
   else []) ++ [""].

Definition diagnose (bore_target : option (string * N)) (stun_override : option string)
  (preferred_port : N) : prog T (ares unit) :=
  let! _ := say ["bore UDP / NAT diagnostic"; "========================="] in
  let? _ := bind_socket preferred_port in
  let? local := (let! r := host LocalAddr in Ret (map_err AnyIo r)) in
  let local_port := port local in
  let! local_ip := primary_local_ip in
  let! _ := say (socket_lines local_port preferred_port local_ip) in
  let? public_obs := probe_public PUBLIC_STUN [] in
  let? _ := match stun_override with Some server => probe_override server | None => Ret (Ok tt) end in
  let? bore_reachable :=
    match bore_target with Some (name, port) => probe_bore name port | None => Ret (Ok None) end in
  let! _ := say (report local_ip local_port public_obs bore_reachable) in
  let! r := upnp_external_ip in
  match r with
  | Panicked => Ret Panicked
  | _ => let! _ := say (upnp_lines r) in Ret (Ok tt)
  end.
End Diagnose.

(** * What the report on a host's UDP says ([vendored-from-bore/holepunch.rs])

    The verdict of a report is that of the probes it lists; the probes it draws no
    verdict from; and a name with addresses of both families. *)

(** ** What a program prints *)

Definition diag_sig : sig := print_sig ⊕ (udp_sig ⊕ (host_sig ⊕ bind_sig)).

(** [says Q p out]: whatever is answered, [p] ends with a result and an output,
    after [out], that satisfy [Q]. *)
Fixpoint says {A} (Q : A -> list string -> Prop) (p : prog diag_sig A) (out : list string) : Prop :=
  match p with
  | Ret a => Q a out
  | Op o k =>
      match o return (resp (s := diag_sig) o -> prog diag_sig A) -> Prop with
      | inl (Println line) => fun k => says Q (k tt) (out ++ [line])
      | inr _ => fun k => forall r, says Q (k r) out
      end k
  end.

(** The lines of a trace. *)
Definition printed : list (op diag_sig) -> list string :=
  omap (fun o => match o with inl (Println line) => Some line | inr _ => None end).

Lemma says_run {A St} (Q : A -> list string -> Prop) (h : handler diag_sig St) p st l :
  says Q p (printed l) ->
  Q (run (traced h) p (st, l)).1 (printed (run (traced h) p (st, l)).2.2).
Proof.
  revert st l. induction p as [a|o k IH]; intros st l; [done|].
  assert (Hp : printed (l ++ [o]) = printed l ++ printed [o]) by apply omap_app.
  destruct o as [[line]|o]; simpl; intros Hk.
  - apply IH. refine (eq_ind_r (says Q (k _)) _ Hp). by destruct (h _ st) as [[] ?].
  - apply IH. refine (eq_ind_r (says Q (k _)) _ Hp).
    simpl. rewrite app_nil_r. apply Hk.
Qed.

Lemma says_bind {A B} (Q : B -> list string -> Prop) (p : prog diag_sig A) f out :
  says (fun a out => says Q (f a) out) p out -> says Q (pbind p f) out.
Proof. revert out. induction p as [a|[[line]|o] k IH]; intros out; simpl; auto. Qed.

Lemma says_mono {A} (Q R : A -> list string -> Prop) (p : prog diag_sig A) out :
  (forall a out, Q a out -> R a out) -> says Q p out -> says R p out.
Proof. intros HQR. revert out. induction p as [a|[[line]|o] k IH]; intros out; simpl; auto. Qed.

Lemma says_say (Q : unit -> list string -> Prop) lines out :
  Q tt (out ++ lines) -> says Q (say lines) out.
Proof.
  revert out. induction lines as [|l lines IH]; intros out; simpl; [by rewrite app_nil_r|].
  intros HQ. apply IH. by rewrite <- app_assoc.
Qed.

(** A program that prints nothing. *)
Definition silent (o : op diag_sig) : Prop := match o with inl _ => False | inr _ => True end.

Lemma says_silent {A} (Q : A -> list string -> Prop) (p : prog diag_sig A) out :
  every silent p -> (forall a, Q a out) -> says Q p out.
Proof. intros Hp HQ. induction p as [a|[o|o] k IH]; simpl in *; [done|tauto|]. destruct Hp as [_ Hp]. intros r. apply IH, Hp. Qed.

Section Quiet.
Context `{Ipv6Text}.

Lemma discover_silent stun : every silent (discover_reflexive (T := diag_sig) stun).
Proof.
  split; [done|]. intros txid. cbn [lift_r pbind]. generalize (binding_request txid) as request.
  intros request. generalize 3. intros todo. generalize 0.
  induction todo as [|todo IH]; intros n; [done|].
  split; [done|]. intros [sent|e|]; [|done..]. split; [done|].
  intros [[[buf from]|e|]|]; simpl; [|done..|apply IH].
  destruct (decide _); [|apply IH]. destruct (parse_response buf txid) as [[a|]|e1|]; simpl; [done|apply IH|done..].
Qed.

Lemma probe_one_silent name : every silent (probe_one (T := diag_sig) name).
Proof.
  unfold probe_one. apply every_try; [by split|]. intros addrs.
  apply every_try; [done|]. intros addr. apply discover_silent.
Qed.

Lemma bind_socket_silent p : every silent (bind_socket (T := diag_sig) p).
Proof.
  unfold bind_socket. apply every_try; [by split|]. intros s.
  apply every_bind; [destruct (_ =? _)%N; by repeat split|]. intros _.
  do 3 (apply every_try; [by split|intros _]). done.
Qed.

Lemma primary_local_ip_silent : every silent (primary_local_ip (T := diag_sig)).
Proof.
  unfold primary_local_ip. split; [done|]. intros [u|e|]; simpl; [|done..].
  split; [done|]. intros [v|e|]; simpl; [|done..]. split; [done|]. by intros r.
Qed.

Lemma upnp_silent : every silent (upnp_external_ip (T := diag_sig)).
Proof. unfold upnp_external_ip. apply every_try; [by split|]. intros _. by split. Qed.

Lemma resolve_stun_silent name p : every silent (resolve_stun (T := diag_sig) name p None).
Proof. by split. Qed.

(** ** The verdict *)

Definition probe_line (server : string) (r : ares SocketAddr) : string :=
  match r with Ok refl => probe_ok server refl | Err e => probe_failed server e | Panicked => "" end.

Definition observed (probe : string * ares SocketAddr) : option StunObservation :=
  match probe.2 with Ok refl => Some {| obs_server := probe.1; obs_reflexive := refl |} | _ => None end.

Definition answered_probe (probe : string * ares SocketAddr) : Prop := probe.2 <> Panicked.

Lemma probe_public_says servers obs out :
  says (fun r out' => forall obs', r = Ok obs' -> exists rs, length rs = length servers /\
          Forall answered_probe (zip servers rs) /\
          obs' = obs ++ omap observed (zip servers rs) /\
          out' = out ++ ((fun p => probe_line p.1 p.2) <$> zip servers rs))
    (probe_public (T := diag_sig) servers obs) out.
Proof.
  revert obs out. induction servers as [|s servers IH]; intros obs out; cbn [probe_public].
  { simpl. intros obs' [= <-]. exists []. by rewrite !app_nil_r. }
  apply says_bind, says_silent; [apply probe_one_silent|]. intros [refl|e|]; [| |done].
  - apply says_bind, says_say. eapply says_mono; [|apply IH]. intros r out' Hr obs' E.
    destruct (Hr obs' E) as (rs & Hl & Hp & -> & ->). exists (Ok refl :: rs). simpl.
    split; [lia|]. split; [by constructor|]. by rewrite <- !app_assoc.
  - apply says_bind, says_say. eapply says_mono; [|apply IH]. intros r out' Hr obs' E.
    destruct (Hr obs' E) as (rs & Hl & Hp & -> & ->). exists (Err e :: rs). simpl.
    split; [lia|]. split; [by constructor|]. by rewrite <- !app_assoc.
Qed.

Lemma probe_override_says server out :
  says (fun r out' => r <> Panicked -> exists line, out' = out ++ [line])
    (probe_override (T := diag_sig) server) out.
Proof.
  apply says_bind, says_silent; [apply probe_one_silent|].
  intros [refl|e|]; simpl; [by eexists..|done].
Qed.

Lemma probe_bore_says name p out :
  says (fun r out' => forall b, r = Ok b -> exists line, out' = out ++ [line])
    (probe_bore (T := diag_sig) name p) out.
Proof.
  apply says_bind, says_silent; [apply resolve_stun_silent|]. intros [a|e|]; cbv beta iota; [|simpl; by eexists|done].
  apply says_bind, says_silent; [apply discover_silent|]. intros [refl|e|]; simpl; [by eexists..|done].
Qed.

(** A whole report: [bore] is what the probe of the tunnel's server found, [between]
    are the lines of that probe and of the configured server's. *)
Definition reported (preferred : N) (out : list string) : Prop :=
  exists local_port local_ip rs bore between upnp, length rs = length PUBLIC_STUN /\
    out = ["bore UDP / NAT diagnostic"; "========================="] ++
      socket_lines local_port preferred local_ip ++
      ((fun p => probe_line p.1 p.2) <$> zip PUBLIC_STUN rs) ++ between ++
      report local_ip local_port (omap observed (zip PUBLIC_STUN rs)) bore ++ upnp.

(** The verdict is that of the probes of the report.  Whatever the network
    answers, a report that is printed to its end lists one probe for each public
    server, and its verdict is that of the addresses those that answered saw, in
    their order; the probes of the configured server and of the server of the
    tunnel are listed and play no part in it. *)
Theorem verdict_is_of_the_listed_probes {St} (h : handler diag_sig St) target stun_override preferred st :
  (run (traced h) (diagnose target stun_override preferred) (st, [])).1 = Ok tt ->
  reported preferred (printed (run (traced h) (diagnose target stun_override preferred) (st, [])).2.2).
Proof.
  pose (Q := fun (r : ares unit) out => r = Ok tt -> reported preferred out).
  apply (says_run Q h _ st []). change (printed []) with (@nil string). unfold diagnose.
  apply says_bind, says_say. cbn [app].
  apply says_bind, says_silent; [apply bind_socket_silent|]. intros [sock|e|]; [|done..].
  apply says_bind, says_silent; [by split|]. intros [local|e|]; [|done..].
  apply says_bind, says_silent; [apply primary_local_ip_silent|]. intros local_ip.
  apply says_bind, says_say. apply says_bind.
  eapply says_mono; [|apply probe_public_says]. intros [obs|e|] out1 Hobs; [|done..].
  destruct (Hobs _ eq_refl) as (rs & Hl & _ & -> & ->). clear Hobs. cbn [ptry].
  set (out1 := _ ++ (_ <$> _)). apply says_bind.
  apply (says_mono (fun r out2 => r <> Panicked -> exists b1, out2 = out1 ++ b1)).
  2:{ destruct stun_override as [server|]; [|intros _; exists []; by rewrite app_nil_r].
      eapply says_mono; [|apply probe_override_says]. intros r out' Hr Hne.
      destruct (Hr Hne) as [line ->]. by eexists. }
  intros [u|e|] out2 H2; [|done..]. destruct H2 as [b1 ->]; [done|]. apply says_bind.
  apply (says_mono (fun r out3 => forall b, r = Ok b -> exists b2, out3 = (out1 ++ b1) ++ b2)).
  2:{ destruct target as [[name p]|]; [|intros b _; exists []; by rewrite app_nil_r].
      eapply says_mono; [|apply probe_bore_says]. intros r out' Hr b E.
      destruct (Hr b E) as [line ->]. by eexists. }
  intros [bore|e|] out3 H3; [|done..]. destruct (H3 bore eq_refl) as [b2 ->].
  apply says_bind, says_say. apply says_bind, says_silent; [apply upnp_silent|].
  assert (Hend : forall upnp, Q (Ok tt) (((((out1 ++ b1) ++ b2) ++
    report local_ip (port local) ([] ++ omap observed (zip PUBLIC_STUN rs)) bore)) ++ upnp)).
  { intros upnp _. exists (port local), local_ip, rs, bore, (b1 ++ b2), upnp. split; [done|].
    unfold out1. by rewrite <- !app_assoc. }
  intros [i|e|]; [..|done]; apply says_bind, says_say; apply Hend.
Qed.

(** "BLOCKED" is printed exactly when no public server answered. *)
Lemma blocked_iff_no_public_answer local_ips rs :
  length rs = length PUBLIC_STUN ->
  classify_nat local_ips (omap observed (zip PUBLIC_STUN rs)) = Blocked <->
  Forall (fun r => forall a, r <> Ok a) rs.
Proof.
  intros Hl. assert (Hz : omap observed (zip PUBLIC_STUN rs) = [] <-> Forall (fun r => forall a, r <> Ok a) rs).
  { generalize PUBLIC_STUN, Hl. clear Hl. induction rs as [|r rs IH]; intros [|s ss]; simpl; try done.
    intros [= Hl]. rewrite Forall_cons, <- (IH ss Hl). unfold observed at 1. simpl.
    destruct r as [a|e|]; simpl; [|by split; [intros Hz; split; [discriminate|]|intros [_ Hz]]..].
    split; [done|]. intros [Ha _]. by destruct (Ha a). }
  rewrite <- Hz. destruct (omap observed _) as [|o os]; [done|]. split; [|done].
  unfold classify_nat. destruct (existsb _ _); [done|]. destruct (_ =? 1); [done|]. by case_match.
Qed.

(** The answer of the environment that a hypothesis gives. *)
Ltac answer h E :=
  lazymatch type of E with
  | _ ?st = _ =>
      let r := fresh "r" in let s := fresh "s" in
      destruct (h _ st) as [r s]; injection E as -> ->
  end.

(** A name that resolves to both families: the probe takes the first address,
    which the IPv4 socket cannot send to, where the candidates of a tunnel are
    gathered with the IPv4 address. *)
Lemma probe_takes_the_first_address {St} (h : handler diag_sig St) name v6 v4 st st1 txid st2 e st3 :
  h (inr (inr (inl (LookupHost name)))) st = (Ok [Sock (V6 v6) 3478; Sock (V4 v4) 3478], st1) ->
  h (inr (inl RandomTxid)) st1 = (txid, st2) ->
  h (inr (inl (SendTo (binding_request txid) (Sock (V6 v6) 3478)))) st2 = (Err e, st3) ->
  run h (probe_one name) st = (Err (AnyIo e), st3) /\
  run h (resolve_stun_target (T := diag_sig) name) st = (Ok (Sock (V4 v4) 3478), st1).
Proof.
  intros E1 E2 E3. split.
  - unfold probe_one, discover_reflexive. simpl.
    answer h E1. simpl. answer h E2. simpl. answer h E3. done.
  - unfold resolve_stun_target. simpl. by answer h E1.
Qed.
End Quiet.
