(* ===== verification/Runs.v ===== *)
(** * Whole runs of a transfer ([vendored-from-bore/transfer.rs])

    [run_listener] and [run_sender]: the options, the tunnel each sets up, and what
    they run over its connections. *)

From stdpp Require Import list.
From S2P Require Import Prelude Streams Json Wire Proto Auth Text Paths Transfer Fs Tracker Frames Resume Workers Scan Receive Transport Addresses Stun Candidates Control RefTransport Direct Dial Listen Consumer Startup.
Import ClientMessage(ClientMessage) ServerMessage(ServerMessage).

(** ** Options *)

Record ListenerOptions : Type := {
  lo_to : string;
  lo_secret : option string;
  lo_insecure : bool;
  lo_transfer_id : option string;
  dest_path : string;
  lo_relay_only : bool;
  lo_stun_server : option string;
  lo_upnp : bool;
  lo_try_port_prediction : bool;
  lo_nat_udp_preferred_port : N;
  lo_nat_udp_release_timeout : N;
  lo_carriers : N;
  collision : CollisionPolicy;
  persistent : bool;
  lo_ask_confirm : bool;
  lo_confirm_timeout : N;
  lo_stall_timeout : N;
}.

Record SenderOptions : Type := {
  so_to : string;
  so_secret : option string;
  so_insecure : bool;
  so_transfer_id : option string;
  sources : list string;
  source_files : list string;
  so_ask_confirm : bool;
  output : option string;
  so_relay_only : bool;
  so_stun_server : option string;
  so_upnp : bool;
  so_try_port_prediction : bool;
  so_nat_udp_preferred_port : N;
  so_nat_udp_release_timeout : N;
  so_carriers : N;
  parallel : N;
  symlinks : SymlinkMode;
  devices : DeviceMode;
  so_stall_timeout : N;
}.

(** ** Operations *)

(** A task that was joined: its result, or that it panicked or was cancelled. *)
Inductive joined : Type := Joined (r : ares unit) | JoinFailed (err : string).

(** What the [select!] of [run_listener] wakes up for. *)
Inductive wake : Type :=
| NewConnection (c : nat)                (* from the queue of the accepting task *)
| QueueClosed
| ProviderEnded (r : joined)
| AcceptorEnded (r : joined).

Inductive run_op : Type :=
| BindLoopback                           (* a listener on [LOCAL_BIND] *)
| LoopbackPort
| SpawnProvider                          (* [Client::listen] *)
| SpawnAcceptor                          (* the loop that queues connections *)
| Wake
| DrainQueue                             (* [while conn_rx.try_recv().is_ok() {}] *)
| AbortProvider
| AbortAcceptor
| ProxyAddr                              (* [local_addr] of the proxy *)
| SpawnProxy                             (* [Proxy::listen] *)
| AbortProxy
| Pause (ms : N).

Definition run_sig : sig :=
  Sig run_op (fun o =>
    match o with
    | BindLoopback => result io_error unit
    | LoopbackPort => result io_error N
    | ProxyAddr => ares unit
    | Wake => wake
    | _ => unit
    end).

(** Reads and writes on a connection, by its number. *)
Definition conn_sig : sig := Sig (nat * op stream_sig) (fun o => resp (s := stream_sig) o.2).

Definition LOCAL_HOST : string := "127.0.0.1".
Definition LOCAL_BIND : SocketAddr := Sock (V4 2130706433) 0.

Definition no_meta : ProviderMeta :=
  {| meta_notes := None; meta_basic_auth := None; meta_auto_reconnect := false |}.

(** [downcast_ref::<StrayWorkerConnection>()]: the error itself, whatever context it was given. *)
Fixpoint is_stray (e : anyhow) : bool :=
  match e with
  | AnyTyped name _ => String.eqb name "StrayWorkerConnection"
  | AnyContext _ e => is_stray e
  | _ => false
  end.

Definition with_id (o : TransferOutcome) (id : string) : TransferOutcome :=
  {| outcome_transfer_id := id; outcome_final_path := outcome_final_path o;
     outcome_total_bytes := outcome_total_bytes o; outcome_regular_files := outcome_regular_files o;
     outcome_transport := outcome_transport o |}.

Section Runs.
Context `{Json Frame} `{Json ResumeState} `{Json TransferRecord}.
Context `{Json (string * RootSourceKind * list ManifestEntry)}.
Context `{Json ClientMessage} `{Json ServerMessage} `{Crypto} `{Blake3} `{Hex} `{Libc} `{FrameText} `{EntryLayout}.
Context `{StrDebug} `{HexText} `{Ipv6Text} (uuid_text : Uuid -> string).
Context `{ServerNames} `{MessageDebug} `{BasicAuths}.
Context {T : sig} `{Has run_sig T} `{Has conn_sig T}.
Context `{Has timer_sig T} `{Has fs_sig T} `{Has resume_sig T} `{Has tracker_sig T} `{Has join_sig T}
  `{Has accept_sig T} `{Has term_sig T} `{Has uuid_sig T} `{Has stdin_sig T} `{Has Workers.dial_sig T}.
Context `{Has consumer_sig T} `{Has framed_sig T} `{Has RefTransport.dial_sig T} `{Has extra_sig T}
  `{Has udp_sig T} `{Has host_sig T} `{Has bind_sig T} `{Has direct_env T}.
Context (fuel : nat).

Definition runtime (o : run_op) : prog T (resp (s := run_sig) o) := call (S := run_sig) o.

(** A program over a stream, on the connection [c]. *)
Definition over {A} (c : nat) (p : prog (stream_sig ⊕ T) A) : prog T A :=
  interp (S := stream_sig ⊕ T)
    (fun o => match o return prog T (resp (s := stream_sig ⊕ T) o) with
              | inl o => call (S := conn_sig) (c, o)
              | inr o => Op o Ret
              end) p.

(** The configured id of a transfer, or a fresh one, which is printed. *)
Definition transfer_id_of (configured : option string) : prog T string :=
  match configured with
  | Some id => Ret id
  | None =>
      let! id := call (S := uuid_sig) NewUuid in
      let! _ := println ("transfer id: " +:+ id) in Ret id
  end.

(** ** The listener *)

Definition wake_error (w : wake) : anyhow :=
  match w with
  | ProviderEnded (Joined (Err err)) => AnyContext "transfer listener transport failed" err
  | ProviderEnded (Joined _) =>
      AnyMsg "the listener's connection to the relay server ended while waiting for a sender"
  | ProviderEnded (JoinFailed err) => AnyMsg ("transfer listener task failed: " +:+ err)
  | AcceptorEnded (Joined (Err err)) => AnyContext "transfer listener accept loop failed" err
  | AcceptorEnded (Joined _) =>
      AnyMsg "the listener stopped accepting local connections while waiting for a sender"
  | AcceptorEnded (JoinFailed err) => AnyMsg ("transfer listener accept task failed: " +:+ err)
  | _ => AnyMsg "accept channel closed unexpectedly"
  end.

(** What a listener that is not persistent does last. *)
Definition stop_listening : prog T unit :=
  let! _ := runtime (Pause 50) in
  let! _ := runtime AbortProvider in
  runtime AbortAcceptor.

Definition receive_on (options : ListenerOptions) (c : nat) : prog T (ares TransferOutcome) :=
  over c (receive_transfer fuel (dest_path options) (collision options) (lo_ask_confirm options)
            (lo_confirm_timeout options) (lo_stall_timeout options)).

Fixpoint listen_transfers (turns : nat) (options : ListenerOptions) (id : string) :
  prog T (option (ares TransferOutcome)) :=
  match turns with
  | O => Ret None
  | S turns' =>
      let! w := runtime Wake in
      match w with
      | NewConnection c =>
          let! outcome := receive_on options c in
          match outcome with
          | Ok o =>
              if negb (persistent options) then
                let! _ := stop_listening in Ret (Some (Ok (with_id o id)))
              else
                let! _ := println ("transfer complete, waiting for next transfer " +:+ id +:+ " into " +:+ dest_path options) in
                let! _ := runtime DrainQueue in
                listen_transfers turns' options id
          | Err err =>
              if is_stray err then listen_transfers turns' options id
              else if negb (persistent options) then
                let! _ := stop_listening in Ret (Some (Err err))
              else
                let! _ := runtime DrainQueue in
                listen_transfers turns' options id
          | Panicked => Ret (Some Panicked)
          end
      | w => Ret (Some (Err (wake_error w)))
      end
  end.

(** The destination, the loopback port and the provider of the tunnel; [available]
    is the number of processors. *)
Definition set_up_listener (available : option N) (options : ListenerOptions) (id : string) :
  prog T (ares Client) :=
  let? _ := (let! r := fs (FsCreateDirAll (dest_path options)) in
             Ret (context ("failed to create destination root " +:+ dest_path options) (map_err AnyIo r))) in
  let carriers := resolve_carriers (lo_carriers options) (default_parallel_hint available) in
  let? _ := (let! r := runtime BindLoopback in
             Ret (context "failed to bind transfer listener loopback port" (map_err AnyIo r))) in
  let? local_port := (let! r := runtime LoopbackPort in Ret (map_err AnyIo r)) in
  new_secret_provider uuid_text LOCAL_HOST local_port (lo_to options) id (lo_secret options)
    (lo_insecure options) (negb (lo_relay_only options)) (lo_stun_server options) (lo_upnp options)
    (lo_try_port_prediction options) (lo_nat_udp_preferred_port options)
    (lo_nat_udp_release_timeout options) DEFAULT_MAX_CONNS carriers no_meta false.

Definition serve_transfers (turns : nat) (options : ListenerOptions) (id : string) (provider : ares Client) :
  prog T (option (ares TransferOutcome)) :=
  match provider with
  | Ok _ =>
      let! _ := runtime SpawnProvider in
      let! _ := runtime SpawnAcceptor in
      let! _ := println ("waiting for transfer " +:+ id +:+ " into " +:+ dest_path options) in
      listen_transfers turns options id
  | Err err => Ret (Some (Err err))
  | Panicked => Ret (Some Panicked)
  end.

Definition run_listener (turns : nat) (available : option N) (options : ListenerOptions) :
  prog T (option (ares TransferOutcome)) :=
  let! id := transfer_id_of (lo_transfer_id options) in
  let! provider := set_up_listener available options id in
  serve_transfers turns options id provider.

(** ** The sender *)

(** The part of a run that has a proxy: it is aborted whatever comes of it. *)
Definition send_over (proxy_addr : ares unit) (plan : PlannedTransfer) (transport : TransportMode)
  (stall_timeout : N) : prog (stream_sig ⊕ T) (ares TransferOutcome) :=
  match proxy_addr with
  | Ok _ =>
      let! _ := lift_r (runtime SpawnProxy) in
      let! outcome :=
        (let? _ := lift_r connect_local in
         send_transfer fuel plan transport stall_timeout) in
      let! _ := lift_r (runtime (Pause 50)) in
      let! _ := lift_r (runtime AbortProxy) in
      Ret outcome
  | Err err => Ret (Err err)
  | Panicked => Ret Panicked
  end.

(** [turns] bounds the messages of the negotiation, [depth] the scan. *)
Definition run_sender (turns depth : nat) (available : option N) (options : SenderOptions) :
  prog (stream_sig ⊕ T) (option (ares TransferOutcome)) :=
  let! id := lift_r (transfer_id_of (so_transfer_id options)) in
  let! planned :=
    (let? all_sources := lift_r (gather_sources fuel (sources options) (source_files options) (so_ask_confirm options)) in
     lift_r (plan_transfer (symlinks options) (devices options) fuel depth available id (parallel options)
               (output options) all_sources)) in
  match planned with
  | Ok plan =>
      let carriers := resolve_carriers (so_carriers options) (planned_parallel plan) in
      let endpoint := parse (so_to options) in
      let! proxy := lift_r (Proxy_new uuid_text turns (so_to options) LOCAL_BIND (planned_transfer_id plan)
        (so_secret options) (so_insecure options) (negb (so_relay_only options)) (so_stun_server options)
        (so_upnp options) (so_try_port_prediction options) (so_nat_udp_preferred_port options)
        (so_nat_udp_release_timeout options) carriers None) in
      match proxy with
      | Some (Ok proxy) =>
          let transport := {| direct_udp := direct proxy; relay_tls := Transport.tls endpoint |} in
          let! addr := lift_r (runtime ProxyAddr) in
          let! outcome := send_over addr plan transport (so_stall_timeout options) in
          Ret (Some outcome)
      | Some (Err err) => Ret (Some (Err err))
      | Some Panicked => Ret (Some Panicked)
      | None => Ret None
      end
  | Err err => Ret (Some (Err err))
  | Panicked => Ret (Some Panicked)
  end.
End Runs.

(** * What a run of a transfer leaves behind ([vendored-from-bore/transfer.rs])

    A run that succeeds has taken its tunnel down; a persistent listener never
    succeeds; a listener whose tunnel ends leaves its accepting task behind. *)

(** ** Results and traces

    [traces Q p l]: whatever is answered, the result of [p] and its operations,
    after those of [l], satisfy [Q]. *)

Fixpoint traces {S A} (Q : A -> list (op S) -> Prop) (p : prog S A) (l : list (op S)) : Prop :=
  match p with
  | Ret a => Q a l
  | Op o k => forall r, traces Q (k r) (l ++ [o])
  end.

Lemma traces_run {S St A} (Q : A -> list (op S) -> Prop) (h : handler S St) (p : prog S A) st l :
  traces Q p l -> Q (run (traced h) p (st, l)).1 (run (traced h) p (st, l)).2.2.
Proof. revert st l. induction p as [a|o k IH]; intros st l Hp; simpl; [done|]. apply IH, Hp. Qed.

Lemma traces_bind {S A B} (Q : B -> list (op S) -> Prop) (p : prog S A) f l :
  traces (fun a l => traces Q (f a) l) p l -> traces Q (pbind p f) l.
Proof. revert l. induction p as [a|o k IH]; intros l; simpl; auto. Qed.

Lemma traces_any {S A} (Q : A -> list (op S) -> Prop) (p : prog S A) l :
  (forall a l, Q a l) -> traces Q p l.
Proof. intros HQ. revert l. induction p as [a|o k IH]; intros l; simpl; auto. Qed.

(** Whatever comes first, what comes after decides. *)
Lemma traces_after {S A B} (Q : B -> list (op S) -> Prop) (p : prog S A) f l :
  (forall a l, traces Q (f a) l) -> traces Q (pbind p f) l.
Proof. intros Hf. by apply traces_bind, traces_any. Qed.

Lemma traces_after_try {S E A B} (Q : result E B -> list (op S) -> Prop) (p : prog S (result E A)) f l :
  (forall e l, Q (Err e) l) -> (forall l, Q Panicked l) -> (forall a l, traces Q (f a) l) ->
  traces Q (ptry p f) l.
Proof. intros He Hp Hf. apply traces_after. intros [a|e|] l'; simpl; auto. Qed.

Definition ends_with {A} (last l : list A) : Prop := exists l0, l = l0 ++ last.

(** ** Runs *)

Section Runs.
Context `{Json Frame} `{Json ResumeState} `{Json TransferRecord}.
Context `{Json (string * RootSourceKind * list ManifestEntry)}.
Context `{Json ClientMessage} `{Json ServerMessage} `{Crypto} `{Wire.Blake3} `{Hex} `{Libc} `{FrameText} `{EntryLayout}.
Context `{StrDebug} `{HexText} `{Ipv6Text} (uuid_text : Uuid -> string).
Context `{ServerNames} `{MessageDebug} `{BasicAuths}.
Context {R : sig} `{Has conn_sig R}.
Context `{Has timer_sig R} `{Has fs_sig R} `{Has resume_sig R} `{Has tracker_sig R} `{Has join_sig R}
  `{Has accept_sig R} `{Has term_sig R} `{Has uuid_sig R} `{Has stdin_sig R} `{Has Workers.dial_sig R}.
Context `{Has consumer_sig R} `{Has framed_sig R} `{Has RefTransport.dial_sig R} `{Has extra_sig R}
  `{Has udp_sig R} `{Has host_sig R} `{Has bind_sig R} `{Has direct_env R}.
Context (fuel : nat).

(** Everything a run awaits: its own operations, and those of what it runs. *)
Definition run_env : sig := run_sig ⊕ R.

Definition listener_down : list (op run_env) := [inl (Pause 50); inl AbortProvider; inl AbortAcceptor].
Definition sender_down : list (op (stream_sig ⊕ run_env)) := [inr (inl (Pause 50)); inr (inl AbortProxy)].

(** What a listener may return, after which operations. *)
Definition listener_end (options : ListenerOptions) (id : option string) (r : option (ares TransferOutcome))
  (l : list (op run_env)) : Prop :=
  forall o, r = Some (Ok o) ->
    persistent options = false /\ ends_with listener_down l /\
    match id with Some id => outcome_transfer_id o = id | None => True end.

Lemma listen_transfers_ends turns options id l :
  traces (listener_end options (Some id)) (listen_transfers (T := run_env) fuel turns options id) l.
Proof.
  revert l. induction turns as [|turns IH]; intros l; [by intros o|].
  cbn [listen_transfers]. intros w. cbn [pbind].
  destruct w as [c| |r|r]; [|by intros o..].
  apply traces_after. intros [o|err|] l'; [..|by intros o].
  - destruct (persistent options) eqn:Ep; cbn [negb].
    + apply traces_after. intros _ l1. intros ?. apply IH.
    + intros ? ? ? o' [= <-]. split; [done|]. split; [|done].
      exists l'. by rewrite <- !app_assoc.
  - destruct (is_stray err); [apply IH|]. destruct (persistent options); cbn [negb].
    + intros ?. apply IH.
    + by intros ? ? ? o'.
Qed.

(** A listener that succeeds has served one transfer and taken its tunnel down:
    whatever is answered, a run returns an outcome only when it is not persistent,
    its last operations are the pause and the end of both of its tasks, and the
    outcome carries the id the listener was given, whatever the sender stated. *)
Theorem listener_ends_with_its_tunnel {St} (h : handler run_env St) turns available options st o :
  (run (traced h) (run_listener (T := run_env) uuid_text fuel turns available options) (st, [])).1 = Some (Ok o) ->
  persistent options = false /\
  ends_with listener_down
    (run (traced h) (run_listener (T := run_env) uuid_text fuel turns available options) (st, [])).2.2 /\
  match lo_transfer_id options with Some id => outcome_transfer_id o = id | None => True end.
Proof.
  intros E. revert o E.
  apply (traces_run (listener_end options (lo_transfer_id options)) h _ st []).
  assert (Hgo : forall id l, (forall given, lo_transfer_id options = Some given -> id = given) ->
    traces (listener_end options (lo_transfer_id options)) (listen_transfers (T := run_env) fuel turns options id) l).
  { intros id l Hid. pose proof (listen_transfers_ends turns options id l) as Hl. revert Hl.
    generalize (listen_transfers (T := run_env) fuel turns options id) as p. intros p.
    revert l. induction p as [a|o k IH]; intros l; simpl; [|by eauto].
    intros Ha o Eo. destruct (Ha o Eo) as (Hp & Hl & Ei). repeat split; [done..|].
    destruct (lo_transfer_id options) as [given|] eqn:Eg; [|done]. by rewrite Ei, (Hid given). }
  assert (Htail : forall id provider l, (forall given, lo_transfer_id options = Some given -> id = given) ->
    traces (listener_end options (lo_transfer_id options)) (serve_transfers (T := run_env) fuel turns options id provider) l).
  { intros id provider l Hid. destruct provider as [c|e|]; [|by intros o..].
    intros ? ?. do 2 (apply traces_after; intros ? ?). by apply Hgo. }
  unfold run_listener. apply traces_bind. unfold transfer_id_of.
  destruct (lo_transfer_id options) as [given|] eqn:Eg.
  - apply traces_after. intros provider l'. apply Htail. by intros ? [= <-].
  - apply traces_any. intros id l'. apply traces_after. intros provider l2. by apply Htail.
Qed.

(** A sender that succeeds has ended its proxy, whatever path it used. *)
Theorem sender_ends_its_proxy {St} (h : handler (stream_sig ⊕ run_env) St) turns depth available options st o :
  (run (traced h) (run_sender (T := run_env) uuid_text fuel turns depth available options) (st, [])).1 = Some (Ok o) ->
  ends_with sender_down
    (run (traced h) (run_sender (T := run_env) uuid_text fuel turns depth available options) (st, [])).2.2.
Proof.
  intros E. revert o E.
  pose (Q := fun (r : option (ares TransferOutcome)) l => forall o, r = Some (Ok o) -> ends_with sender_down l).
  apply (traces_run Q h _ st []). unfold run_sender.
  apply traces_after. intros id l1. apply traces_after. intros [plan|e|] l2; [|by intros o..].
  apply traces_after. intros [[proxy|e|]|] l3; [|by intros o..].
  apply traces_after. intros [u|e|] l4; [|by intros o..].
  cbn [send_over]. apply traces_bind, traces_after. intros _ l5.
  apply traces_after. intros outcome l6. intros ? ? o _.
  exists l6. by rewrite <- app_assoc.
Qed.

(** When the tunnel ends while the listener waits, it returns at once: neither the
    accepting task nor the socket it has bound is ended. *)
Lemma ended_tunnel_leaves_the_acceptor {St} (h : handler run_env St) turns options id r st :
  (h (inl Wake) st).1 = ProviderEnded r ->
  exists e, run (traced h) (listen_transfers (T := run_env) fuel (S turns) options id) (st, []) =
    (Some (Err e), ((h (inl Wake) st).2, [inl Wake])).
Proof. intros E. simpl. destruct (h (inl Wake) st) as [w st']. simpl in E. subst w. by eexists. Qed.

(** After a transfer of a persistent listener the queue is emptied, whatever is in
    it: a sender that connected during the transfer is dropped. *)
Lemma waiting_sender_is_dropped {St} (h : handler run_env St) turns options id c o st st1 st2 st3 st4 :
  persistent options = true ->
  h (inl Wake) st = (NewConnection c, st1) ->
  run h (receive_on fuel options c) st1 = (Ok o, st2) ->
  run h (println (T := run_env) ("transfer complete, waiting for next transfer " +:+ id +:+ " into " +:+ dest_path options)) st2 = (tt, st3) ->
  h (inl DrainQueue) st3 = (tt, st4) ->
  run h (listen_transfers (T := run_env) fuel (S turns) options id) st =
    run h (listen_transfers (T := run_env) fuel turns options id) st4.
Proof.
  intros Hp E1 E2 E3 E4. cbn [listen_transfers].
  etrans; [exact (run_bind h (runtime Wake) _ st)|]. simpl. rewrite E1. cbn [fst snd].
  etrans; [apply run_bind|]. rewrite E2, Hp. cbn [fst snd negb].
  etrans; [apply run_bind|]. rewrite E3. cbn [fst snd].
  simpl. by rewrite E4.
Qed.
End Runs.
