(* ===== verification/DirectConfig.v ===== *)
(** * Endpoints and connections of the direct path ([vendored-from-bore/holepunch.rs])

    The buffers of a UDP socket, the configuration of QUIC endpoints, and what is
    done with a [DirectConn]: streams, datagrams, further connections.  [quinn],
    [rustls] and the kernel are environments. *)

From stdpp Require Import list.
From S2P Require Import Prelude Streams Proto Transport Fs Frames Addresses Stun Candidates Control Direct RefTransport DirectTheorems Exchange.

Definition ALPN : bytes := String.list_byte_of_string "bore-udp".
Definition QUIC_KEEPALIVE : N := 3.              (* seconds *)
Definition QUIC_MAX_IDLE : N := 10.

(** ** The buffers of a socket (Linux) *)

(** [setsockopt] succeeds or not; [getsockopt] may fail. *)
Inductive sockopt_op : Type :=
| SetForced (send : bool) (size : N)             (* [SO_SNDBUFFORCE], [SO_RCVBUFFORCE] *)
| SetPlain (send : bool) (size : N)
| GetBuffer (send : bool)
| LogClamped                                     (* [tracing::warn!] *)
| LogConfigured.

Definition sockopt_sig : sig :=
  Sig sockopt_op (fun o =>
    match o with
    | SetForced _ _ | SetPlain _ _ => bool
    | GetBuffer _ => option N
    | _ => unit
    end).

Section Buffers.
Context {T : sig} `{Has sockopt_sig T}.

Definition sockopt (o : sockopt_op) : prog T (resp (s := sockopt_sig) o) := call (S := sockopt_sig) o.

Definition configure_udp_socket_buffers (tuning : UdpDirectTuning) : prog T unit :=
  let! recv_forced := sockopt (SetForced false (udp_socket_recv_buffer tuning)) in
  let! _ := (if recv_forced : bool then Ret true else sockopt (SetPlain false (udp_socket_recv_buffer tuning))) in
  let! send_forced := sockopt (SetForced true (udp_socket_send_buffer tuning)) in
  let! _ := (if send_forced : bool then Ret true else sockopt (SetPlain true (udp_socket_send_buffer tuning))) in
  let! actual_recv := sockopt (GetBuffer false) in
  let! actual_send := sockopt (GetBuffer true) in
  let recv_clamped := (default 0 actual_recv <? udp_socket_recv_buffer tuning)%N in
  let send_clamped := (default 0 actual_send <? udp_socket_send_buffer tuning)%N in
  if recv_clamped || send_clamped then sockopt LogClamped else sockopt LogConfigured.
End Buffers.

(** ** The configuration of endpoints *)

(** The fields of [quinn::TransportConfig] that are set. *)
Record QuicTransportConfig : Type := {
  keep_alive_interval : N;
  max_idle_timeout : N;
  quic_stream_receive_window : N;
  quic_receive_window : N;
  quic_send_window : N;
  bbr : bool;
  max_concurrent_bidi_streams : N;
  datagram_receive_buffer_size : N;
  datagram_send_buffer_size : N;
}.

Definition transport_config (tuning : UdpDirectTuning) : QuicTransportConfig :=
  {| keep_alive_interval := QUIC_KEEPALIVE; max_idle_timeout := QUIC_MAX_IDLE;
     quic_stream_receive_window := stream_receive_window tuning;
     quic_receive_window := connection_receive_window tuning;
     quic_send_window := send_window tuning; bbr := true;
     max_concurrent_bidi_streams := max_direct_streams tuning;
     datagram_receive_buffer_size := 8 * 1024 * 1024; datagram_send_buffer_size := 8 * 1024 * 1024 |}.

(** The verifiers a client of QUIC can have; [SkipVerify] accepts a certificate and
    the signatures made with it. *)
Inductive QuicVerifier : Type := SkipVerify.

Definition verify_server_cert {C} (v : QuicVerifier) (cert : C) : result string unit :=
  match v with SkipVerify => Ok tt end.
Definition verify_tls12_signature {C D} (v : QuicVerifier) (message : bytes) (cert : C) (dss : D) :
  result string unit := match v with SkipVerify => Ok tt end.
Definition verify_tls13_signature {C D} (v : QuicVerifier) (message : bytes) (cert : C) (dss : D) :
  result string unit := match v with SkipVerify => Ok tt end.

Record QuicClientConfig : Type :=
  { quic_verifier : QuicVerifier; client_alpn : list bytes; client_transport : QuicTransportConfig }.
Record QuicServerConfig : Type :=
  { cert_names : list string; server_alpn : list bytes; server_transport : QuicTransportConfig }.

(** Steps of [rustls], [rcgen], [quinn] and the sockets that can fail. *)
Inductive endpoint_op : Type :=
| Tls13Client
| QuicClientCrypto
| SelfSigned (names : list string)
| Tls13Server
| SingleCert
| QuicServerCrypto
| IntoStd
| StdNonblocking
| NewEndpoint (server : option QuicServerConfig)
| SetDefaultClient (config : QuicClientConfig)
| ConnectTo (peer : SocketAddr)                  (* [endpoint.connect(peer, "bore")] *)
| SpawnAwait (secs : N)                          (* a task that awaits it under a timeout *)
| CloseEndpoint (reason : string).

Definition endpoint_sig : sig :=
  Sig endpoint_op (fun o =>
    match o with
    | SetDefaultClient _ | SpawnAwait _ | CloseEndpoint _ => unit
    | _ => result string unit
    end).

Section Endpoints.
Context {T : sig} `{Has endpoint_sig T}.

Definition endpoint (o : endpoint_op) : prog T (resp (s := endpoint_sig) o) := call (S := endpoint_sig) o.

Definition into_std : prog T (ares unit) :=
  let? _ := (let! r := endpoint IntoStd in Ret (quic_ctx "failed to detach UDP socket" r)) in
  let! r := endpoint StdNonblocking in Ret (quic_ctx "failed to set socket nonblocking" r).

Definition client_config (tuning : UdpDirectTuning) : prog T (ares QuicClientConfig) :=
  let? _ := (let! r := endpoint Tls13Client in Ret (quic_ctx "failed to configure QUIC TLS" r)) in
  let? _ := (let! r := endpoint QuicClientCrypto in Ret (quic_ctx "invalid QUIC client crypto" r)) in
  Ret (Ok {| quic_verifier := SkipVerify; client_alpn := [ALPN]; client_transport := transport_config tuning |}).

Definition server_config (tuning : UdpDirectTuning) : prog T (ares QuicServerConfig) :=
  let? _ := (let! r := endpoint (SelfSigned ["bore"]) in
             Ret (quic_ctx "failed to generate self-signed certificate" r)) in
  let? _ := (let! r := endpoint Tls13Server in Ret (quic_ctx "failed to configure QUIC TLS" r)) in
  let? _ := (let! r := endpoint SingleCert in Ret (quic_ctx "invalid QUIC server certificate" r)) in
  let? _ := (let! r := endpoint QuicServerCrypto in Ret (quic_ctx "invalid QUIC server crypto" r)) in
  Ret (Ok {| cert_names := ["bore"]; server_alpn := [ALPN]; server_transport := transport_config tuning |}).

Definition client_endpoint (tuning : UdpDirectTuning) : prog T (ares unit) :=
  let? _ := into_std in
  let? _ := (let! r := endpoint (NewEndpoint None) in
             Ret (quic_ctx "failed to create QUIC client endpoint" r)) in
  let? config := client_config tuning in
  let! _ := endpoint (SetDefaultClient config) in
  Ret (Ok tt).

Definition server_endpoint (tuning : UdpDirectTuning) : prog T (ares unit) :=
  let? _ := into_std in
  let? server := server_config tuning in
  let? _ := (let! r := endpoint (NewEndpoint (Some server)) in
             Ret (quic_ctx "failed to create QUIC server endpoint" r)) in
  let? config := client_config tuning in
  let! _ := endpoint (SetDefaultClient config) in
  Ret (Ok tt).

(** [DirectListener::punch_via_endpoint]: a connection that is not waited for, to each. *)
Fixpoint punch_via_endpoint (peers : list SocketAddr) : prog T unit :=
  match peers with
  | [] => Ret tt
  | peer :: peers' =>
      let! connecting := endpoint (ConnectTo peer) in
      let! _ := match connecting with Ok _ => endpoint (SpawnAwait NETWORK_TIMEOUT) | _ => Ret tt end in
      punch_via_endpoint peers'
  end.

Definition listener_close : prog T unit := endpoint (CloseEndpoint "provider shutting down").
End Endpoints.

(** ** Connections *)

(** [quinn::SendDatagramError]. *)
Inductive SendDatagramError : Type :=
| UnsupportedByPeer
| Disabled
| TooLarge
| ConnectionLost (reason : string).

(** What [quinn] displays for one. *)
Class DatagramText := datagram_error : SendDatagramError -> string.

Inductive DatagramSend : Type := Sent | DroppedTooLarge.

Inductive datagram_op : Type :=
| SendDatagram (pkt : bytes)
| SendDatagramWait (pkt : bytes)
| ReadDatagram
| CloseConnection (reason : string)
| ConnectionClosed.                              (* [conn.closed().await] *)

Definition datagram_sig : sig :=
  Sig datagram_op (fun o =>
    match o with
    | SendDatagram _ | SendDatagramWait _ => result SendDatagramError unit
    | ReadDatagram => result string bytes
    | _ => unit
    end).

(** What a send of either kind makes of the answer. *)
Definition datagram_result `{DatagramText} (name : string) (r : result SendDatagramError unit) : ares DatagramSend :=
  match r with
  | Ok _ => Ok Sent
  | Err TooLarge => Ok DroppedTooLarge
  | Err e => Err (AnyMsg (name +:+ ": " +:+ datagram_error e))
  | Panicked => Panicked
  end.

Section Connection.
Context `{DatagramText} {L : sig} `{Has datagram_sig L} `{Has quic_sig L}.

Abbreviation net := (stream_sig ⊕ L).

Definition datagram (o : datagram_op) : prog net (resp (s := datagram_sig) o) :=
  lift_r (call (S := datagram_sig) (T := L) o).

Definition open_stream : prog net (ares unit) :=
  let! r := quic OpenBi in Ret (quic_ctx "open_bi failed" r).
Definition accept_stream : prog net (ares unit) :=
  let! r := quic AcceptBi in Ret (quic_ctx "accept_bi failed" r).
Definition conn_closed : prog net unit := datagram ConnectionClosed.
Definition conn_close : prog net unit := datagram (CloseConnection "vhost direct path closed").

Definition send_datagram (pkt : bytes) : prog net (ares DatagramSend) :=
  let! r := datagram (SendDatagram pkt) in Ret (datagram_result "send_datagram" r).
Definition send_datagram_wait (pkt : bytes) : prog net (ares DatagramSend) :=
  let! r := datagram (SendDatagramWait pkt) in Ret (datagram_result "send_datagram_wait" r).
Definition read_datagram : prog net (ares bytes) :=
  let! r := datagram ReadDatagram in
  Ret (context "read_datagram" (map_err AnyMsg r)).

(** A further connection to the same peer, over the same endpoint. *)
Definition open_sibling (token : bytes) : prog net (ares unit) :=
  let? _ := (let! r := quic StartConnect in Ret (quic_ctx "failed to start direct carrier connect" r)) in
  let? _ := (let! r := quic Handshake in Ret (quic_ctx "direct carrier QUIC handshake failed" r)) in
  let? _ := (let! r := quic OpenBi in Ret (quic_ctx "carrier auth open_bi failed" r)) in
  let? _ := io_try (stream (WriteAll token)) in
  let? _ := io_try (stream Flush) in
  let? peer_token := io_try (stream (ReadExact TOKEN_LEN)) in
  if negb (tokens_match token peer_token) then Ret (Err (AnyMsg "direct carrier token mismatch"))
  else let! _ := quic FinishStream in Ret (Ok tt).
End Connection.

(** ** What holds of them *)

(** A socket of Linux without the capability to force its buffers: what is set is
    clamped to the kernel's maximum, and what is read is twice what is kept. *)
Definition kernel (limit : N) : handler sockopt_sig (N * N) :=
  fun o st =>
    match o return resp (s := sockopt_sig) o * (N * N) with
    | SetForced _ _ => (false, st)
    | SetPlain false size => (true, (N.min size limit, st.2))
    | SetPlain true size => (true, (st.1, N.min size limit))
    | GetBuffer send => (Some (2 * if send then st.2 else st.1)%N, st)
    | LogClamped | LogConfigured => (tt, st)
    end.

(** Whether the clamp of a kernel is reported: only one below half the request is,
    since the doubled size is compared with the request itself. *)
Lemma clamp_reported_below_half limit tuning st :
  (run (traced (kernel limit)) (configure_udp_socket_buffers tuning) (st, [])).2.2 =
    [SetForced false (udp_socket_recv_buffer tuning); SetPlain false (udp_socket_recv_buffer tuning);
     SetForced true (udp_socket_send_buffer tuning); SetPlain true (udp_socket_send_buffer tuning);
     GetBuffer false; GetBuffer true;
     if (2 * limit <? udp_socket_recv_buffer tuning)%N || (2 * limit <? udp_socket_send_buffer tuning)%N
     then LogClamped else LogConfigured].
Proof.
  assert (Hc : forall req, (2 * N.min req limit <? req)%N = (2 * limit <? req)%N).
  { intros req. apply eq_true_iff_eq. rewrite !N.ltb_lt. lia. }
  cbn [configure_udp_socket_buffers run traced sockopt call pbind fst snd kernel default].
  simpl. rewrite !Hc. by destruct (_ || _).
Qed.

(** A datagram that does not fit is dropped and the link lives; every other failure
    of a send is the link's. *)
Lemma only_dead_links_fail `{DatagramText} name r :
  (exists e, datagram_result name r = Err e) <-> exists e, r = Err e /\ e <> TooLarge.
Proof.
  destruct r as [u|[| | |reason]|]; simpl; split; try (by intros [e [=]]); try (by intros (e & [=] & ?));
    try (by intros _; eexists); try (by intros _; eexists; split; [done|]).
Qed.

(** Whatever certificate a peer shows, the configured client accepts it. *)
Lemma any_certificate_is_accepted {T} `{Has endpoint_sig T} {C} tuning (cert : C) :
  always (fun r => forall c, r = Ok c -> verify_server_cert (quic_verifier c) cert = Ok tt)
    (client_config (T := T) tuning).
Proof. apply always_then; [done|done|]. intros _. apply always_then; [done|done|]. intros _. by intros c [= <-]. Qed.

Section Sibling.
Context {L : sig} {St : Type} (h : handler L St) `{Has datagram_sig L} `{Has quic_sig L}.
Context (Hq : quic_works h).

Lemma sibling_behaves token peer st :
  nlen token = TOKEN_LEN -> nlen peer = TOKEN_LEN ->
  behaves Exact h (open_sibling token) st (snds token ++ rcvs peer)
    (if bool_decide (token = peer) then Ok tt else Err (AnyMsg "direct carrier token mismatch")) st.
Proof.
  intros Ht Hp. unfold open_sibling.
  apply (behaves_quic_try h Hq); [by rewrite (Hq StartConnect)|].
  apply (behaves_quic_try h Hq); [by rewrite (Hq Handshake)|].
  apply (behaves_quic_try h Hq); [by rewrite (Hq OpenBi)|].
  eapply (behaves_try Exact); [apply io_write_behaves|]. apply behaves_flush.
  rewrite <- (app_nil_r (rcvs peer)).
  eapply (behaves_try Exact); [by apply io_read_behaves|].
  rewrite tokens_match_eq by (unfold nlen in *; lia).
  case_bool_decide; cbn [negb]; [apply (behaves_quic h Hq)|]; constructor.
Qed.
End Sibling.

(** A further connection is accepted by the listener the first was accepted by, and
    it takes the same words on the wire as the first. *)
Theorem sibling_joins_its_listener {L1 L2 St1 St2} (h1 : handler L1 St1) (h2 : handler L2 St2)
  `{Has datagram_sig L1} `{Has quic_sig L1} `{Has quic_sig L2} token st1 st2 :
  quic_works h1 -> quic_works h2 -> nlen token = TOKEN_LEN ->
  ends_in h1 h2 (Net (open_sibling token) st1 (listener_accept token) st2 [] [])
    (final (Ok tt) st1 (Ok tt) st2).
Proof.
  intros Hq1 Hq2 Ht.
  pose proof (sibling_behaves h1 Hq1 token token st1 Ht Ht) as H1x.
  pose proof (listener_behaves h2 Hq2 token token st2 Ht Ht) as H2x.
  rewrite bool_decide_true in H1x, H2x by done.
  eapply dual_peers_end; [exact H1x|exact H2x|]. by autorewrite with rb.
Qed.
