(* ===== verification/Relayed.v ===== *)
(** * A session through the relay

    The composition of the parts that carry one session: the module's run loop
    over the paired channel at either end, and between them the server's relay,
    which takes the consumer's marker, finds the provider, writes it a marker of
    its own and copies bytes both ways until both sides have closed.  The two
    ends and the relay interleave step by step; every hop is a queue.

    [tokio::io::copy_bidirectional_with_sizes] is not code of this repository: it
    is a parameter, [CopyCall], and [CopyLaws] states of its documented behaviour
    what the relay relies on.  [buffered_copy] is an instance. *)

From S2P Require Import Prelude Streams Errors Json Plan Wire Progress Channel Module.
From S2P Require Import Session Demo Config Proto Auth Pool Paired Text Shared Server.
From S2P Require Import ServerSystem Transport TransportDemo TransportTheorems ServerTheorems.
From S2P Require Import Client Cli.

(** ** One direction of the relay

    [p_in] was sent towards the relay and not read by it, [p_buf] is in its
    buffer, [p_out] was written on and not read by the other end; [p_eof] is set
    once the direction has been shut down. *)
Record pipe : Type := Pipe { p_in : bytes; p_buf : bytes; p_out : bytes; p_eof : bool }.

Definition pipe0 : pipe := Pipe [] [] [] false.
Definition pipe_shut : pipe := Pipe [] [] [] true.

Definition set_in (i : bytes) (p : pipe) : pipe := Pipe i (p_buf p) (p_out p) (p_eof p).
Definition set_out (o : bytes) (p : pipe) : pipe := Pipe (p_in p) (p_buf p) o (p_eof p).

(** What is on its way in a direction, in the order in which it will arrive;
    [pend] is what the relay has taken and is bound to write on. *)
Definition content (pend : bytes) (p : pipe) : bytes := p_out p ++ pend ++ p_buf p ++ p_in p.

(** What is left to do before a direction is shut down. *)
Definition pipe_weight (p : pipe) : nat :=
  2 * length (p_in p) + length (p_buf p) + (if p_eof p then 0 else 1).

(** One step of a call with buffers of [a] bytes towards the provider and [b]
    towards the consumer: it goes on ([None]) or returns.  The two booleans say
    whether the provider and the consumer have returned, and so dropped their
    streams. *)
Class CopyCall : Type :=
  copying : forall (a b : N) (lf rf : bool) (up down : pipe),
    option (result io_error unit) -> pipe -> pipe -> Prop.

(** While it goes on the bytes keep their order and get closer; a direction is
    shut down only after its writer has gone; it returns success when both have
    been, and fails only where it has bytes for an end that has gone; and it goes
    on or returns whenever it has bytes to move or nobody is left. *)
Class CopyLaws `{CopyCall} : Prop := {
  copy_keeps a b lf rf up down up' down' :
    copying a b lf rf up down None up' down' ->
    content [] up' = content [] up /\ content [] down' = content [] down;
  copy_lighter a b lf rf up down up' down' :
    copying a b lf rf up down None up' down' ->
    pipe_weight up' + pipe_weight down' < pipe_weight up + pipe_weight down;
  copy_shuts a b lf rf up down up' down' :
    copying a b lf rf up down None up' down' ->
    (p_eof up' = true -> p_eof up = true \/ lf = true) /\
    (p_eof down' = true -> p_eof down = true \/ rf = true);
  copy_returns a b lf rf up down r up' down' :
    copying a b lf rf up down (Some r) up' down' ->
    up' = up /\ down' = down /\
    ((r = Ok tt /\ p_eof up = true /\ p_eof down = true) \/
     (rf = true /\ p_buf up <> []) \/ (lf = true /\ p_buf down <> []));
  copy_moves (a b : N) lf rf up down :
    (0 < a)%N -> (0 < b)%N ->
    (p_in up <> [] \/ p_buf up <> []) \/ (p_in down <> [] \/ p_buf down <> []) \/
      (lf = true /\ rf = true) ->
    exists r up' down', copying a b lf rf up down r up' down';
}.

(** A queue of outgoing and a queue of incoming bytes before and after one step
    of a party. *)
Definition moves (l : lab) (out inb out' inb' : bytes) : Prop :=
  match l with
  | Tau => out' = out /\ inb' = inb
  | Send bs => out' = out ++ bs /\ inb' = inb
  | Recv bs => out' = out /\ inb = bs ++ inb'
  end.

Definition finished {S A} (p : prog S A) : bool :=
  match p with Ret _ => true | Op _ _ => false end.

(** The awaits of a relay that are not on one of its two substreams. *)
Definition off_stream (o : srv_op) : bool :=
  match o with WriteProvider _ | CopyBidirectional _ _ => false | _ => true end.

Definition at_copy {A} (q : prog srv A) : option (N * N) :=
  match q with
  | Op (inr (CopyBidirectional a b)) _ => Some (a, b)
  | _ => None
  end.

Section Relay.
Context {CC : CopyCall} {CL : CopyLaws}.
Context {L1 L2 : sig} {St1 St2 SR A1 A2 O : Type}.
Context (h1 : handler L1 St1) (h2 : handler L2 St2) (hR : handler srv_sig SR).

(** Provider on the left, consumer on the right, the relay between them; [r_up]
    runs from the provider to the consumer, [r_down] back. *)
Record rnet : Type := RNet {
  r_left : prog (stream_sig ⊕ L1) A1;
  r_lst : St1;
  r_right : prog (stream_sig ⊕ L2) A2;
  r_rst : St2;
  r_relay : prog srv O;
  r_st : SR;
  r_up : pipe;
  r_down : pipe;
}.

(** One step of the relay; [lf] and [rf] say whether the provider and the
    consumer have returned. *)
Definition relay_step (lf rf : bool) (q : prog srv O) (s : SR) (up down : pipe)
  (q' : prog srv O) (s' : SR) (up' down' : pipe) : Prop :=
  match q with
  | Ret _ => False
  | Op o k =>
      match o return (resp (s := srv) o -> prog srv O) -> Prop with
      | inl o => fun _ =>
          exists l out' in', party_step hR q s l q' s' /\
            moves l (p_out up) (p_in down) out' in' /\
            up' = set_out out' up /\ down' = set_in in' down
      | inr (WriteProvider buf) => fun k =>
          s' = s /\ up' = up /\
          ((lf = false /\ q' = k (Ok tt) /\ down' = set_out (p_out down ++ buf) down) \/
           (lf = true /\ (exists e, q' = k (Err e)) /\ down' = down))
      | inr (CopyBidirectional a b) => fun k =>
          s' = s /\ exists r, copying a b lf rf up down r up' down' /\
            q' = match r with None => q | Some r => k r end
      | inr o => fun k => q' = k (hR o s).1 /\ s' = (hR o s).2 /\ up' = up /\ down' = down
      end k
  end.

Inductive rstep : rnet -> rnet -> Prop :=
| rs_left p st l p' st' r rst q s up down in' out' :
    party_step h1 p st l p' st' ->
    moves l (p_in up) (p_out down) in' out' ->
    rstep (RNet p st r rst q s up down)
      (RNet p' st' r rst q s (set_in in' up) (set_out out' down))
| rs_right r rst l r' rst' p st q s up down in' out' :
    party_step h2 r rst l r' rst' ->
    moves l (p_in down) (p_out up) in' out' ->
    rstep (RNet p st r rst q s up down)
      (RNet p st r' rst' q s (set_out out' up) (set_in in' down))
| rs_relay p st r rst q s up down q' s' up' down' :
    relay_step (finished p) (finished r) q s up down q' s' up' down' ->
    rstep (RNet p st r rst q s up down) (RNet p st r rst q' s' up' down').

(** The two ends joined directly, with the same bytes on their way. *)
Definition direct (pend : bytes) (x : rnet) : net L1 L2 St1 St2 A1 A2 :=
  Net (r_left x) (r_lst x) (r_right x) (r_rst x) (content [] (r_up x)) (content pend (r_down x)).

Definition weight (x : rnet) : nat := pipe_weight (r_up x) + pipe_weight (r_down x).

(** ** Every execution is finite

    A step of an end shortens its program, a step of the relay its own, and
    while the relay copies it moves a byte closer to the other end or shuts a
    direction down. *)

Lemma relay_step_smaller lf rf o k s up down q' s' up' down' :
  relay_step lf rf (Op o k) s up down q' s' up' down' ->
  (exists r, q' = k r) \/
  (q' = Op o k /\ pipe_weight up' + pipe_weight down' < pipe_weight up + pipe_weight down).
Proof.
  intros H. destruct o as [o|o].
  - destruct H as (l&out'&in'&H&_). left. by eapply party_step_smaller.
  - destruct o; simpl in H; try (destruct_and?; by left; eauto).
    + destruct H as (_&_&[(_&->&_)|(_&[e ->]&_)]); left; eauto.
    + destruct H as (_&[r|]&Hc&->); [left; eauto|right]. split; [done|].
      by eapply copy_lighter.
Qed.

Lemma rnet_terminates x : Acc (fun y x => rstep x y) x.
Proof.
  destruct x as [p st r rst q s up down]. revert st r rst q s up down.
  induction p as [a|o1 k1 IHp]; intros st r; revert st;
    induction r as [b|o2 k2 IHr]; intros st rst q; revert st rst;
    induction q as [c|o3 k3 IHq]; intros st rst s up down;
    remember (pipe_weight up + pipe_weight down) as w eqn:Ew; revert st rst s up down Ew;
    induction (lt_wf w) as [w _ IHw]; intros st rst s up down Ew;
    constructor; intros y Hy; inversion Hy; subst;
    match goal with
    | H : party_step _ (Ret _) _ _ _ _ |- _ => by destruct H
    | H : party_step _ (Op _ _) _ _ _ _ |- _ =>
        apply party_step_smaller in H as [x ->]; eauto
    | H : relay_step _ _ (Ret _) _ _ _ _ _ _ _ |- _ => by destruct H
    | H : relay_step _ _ (Op _ _) _ _ _ _ _ _ _ |- _ =>
        apply relay_step_smaller in H as [[x ->]|[-> Hw]]; [eauto|by eapply IHw]
    end.
Qed.
(** ** The relay adds nothing

    While the relay copies, a step of the relayed ends is a step of the ends
    joined directly, or moves bytes that stay where they are in the order of
    arrival. *)

Lemma moves_content l up down i o pend pend' :
  moves l (p_in up) (p_out down) i o ->
  moves l (content pend' up) (content pend down)
    (content pend' (set_in i up)) (content pend (set_out o down)).
Proof.
  unfold content. destruct l as [|bs|bs]; simpl; intros [E1 E2]; rewrite ?E1, ?E2;
    by rewrite <- ?app_assoc.
Qed.

Lemma net_left p st l p' st' r rst q1 q2 q1' q2' :
  party_step h1 p st l p' st' -> moves l q1 q2 q1' q2' ->
  net_step (A1 := A1) (A2 := A2) h1 h2 (Net p st r rst q1 q2) (Net p' st' r rst q1' q2').
Proof. destruct l; simpl; intros Hs [-> ->]; eauto using net_step. Qed.

Lemma net_right p st l r' rst' r rst q1 q2 q1' q2' :
  party_step h2 r rst l r' rst' -> moves l q2 q1 q2' q1' ->
  net_step (A1 := A1) (A2 := A2) h1 h2 (Net p st r rst q1 q2) (Net p st r' rst' q1' q2').
Proof. destruct l; simpl; intros Hs [-> ->]; eauto using net_step. Qed.

(** A program that copies once, and does so now. *)
Definition copies_once (a b : N) (q : prog srv O) : Prop :=
  match q with
  | Op (inr (CopyBidirectional a' b')) k => a' = a /\ b' = b /\ forall r, at_copy (k r) = None
  | _ => False
  end.

(** What the relay does while it copies leaves the direct net as it is. *)
Lemma relay_copies lf rf a b q s up down q' s' up' down' :
  copies_once a b q -> relay_step lf rf q s up down q' s' up' down' ->
  at_copy q' <> None ->
  q' = q /\ s' = s /\ content [] up' = content [] up /\ content [] down' = content [] down /\
  pipe_weight up' + pipe_weight down' < pipe_weight up + pipe_weight down.
Proof.
  destruct q as [c|[o|[]] k]; try done. intros (->&->&Hk) (->&[r|]&Hc&->) Hat.
  { by rewrite Hk in Hat. }
  destruct (copy_keeps _ _ _ _ _ _ _ _ Hc). split_and!; [done..|]. by eapply copy_lighter.
Qed.

Lemma copy_simulates a b x y :
  copies_once a b (r_relay x) -> rstep x y -> at_copy (r_relay y) <> None ->
  copies_once a b (r_relay y) /\
  (net_step h1 h2 (direct [] x) (direct [] y) \/
   direct [] y = direct [] x /\ weight y < weight x).
Proof.
  intros Hx Hs Hy. destruct Hs as [p st l p' st' r rst q s up down i o Hp Hm
    |r rst l r' rst' p st q s up down i o Hp Hm|p st r rst q s up down q' s' up' down' Hr];
    simpl in *.
  - split; [done|left]. eapply net_left; [exact Hp|]. by apply moves_content.
  - split; [done|left]. eapply net_right; [exact Hp|]. by apply moves_content.
  - destruct (relay_copies _ _ _ _ _ _ _ _ _ _ _ _ Hx Hr Hy) as (->&->&Eu&Ed&Hw).
    split; [done|right]. unfold direct, weight. simpl. by rewrite Eu, Ed.
Qed.
(** Nor does it hold anything up: while it copies with room in its buffers, it
    or an end can go on whenever the ends joined directly could. *)
Lemma relay_moves p st r rst q s up down q' s' up' down' :
  relay_step (finished p) (finished r) q s up down q' s' up' down' ->
  exists y, rstep (RNet p st r rst q s up down) y.
Proof. eexists. by constructor. Qed.

Lemma relay_busy a b x :
  copies_once a b (r_relay x) -> (0 < a)%N -> (0 < b)%N ->
  (p_in (r_up x) <> [] \/ p_buf (r_up x) <> []) \/
  (p_in (r_down x) <> [] \/ p_buf (r_down x) <> []) ->
  exists y, rstep x y.
Proof.
  destruct x as [p st r rst q s up down]. simpl. intros Hq Ha Hb H.
  destruct q as [c|[o|[]] k]; try done. destruct Hq as (->&->&_).
  destruct (copy_moves a b (finished p) (finished r) up down Ha Hb) as (r0&up'&down'&Hc);
    [tauto|].
  eapply relay_moves. simpl. eauto.
Qed.

(** When everything has left the relay, a step of the ends joined directly is a
    step of the relayed ends. *)
Lemma direct_step_lifts x n' :
  net_step h1 h2 (direct [] x) n' ->
  p_in (r_up x) = [] -> p_buf (r_up x) = [] ->
  p_in (r_down x) = [] -> p_buf (r_down x) = [] ->
  exists y, rstep x y.
Proof.
  destruct x as [p st r rst q s [i1 b1 o1 e1] [i2 b2 o2 e2]]. unfold direct, content. simpl.
  intros H -> -> -> ->. simpl in H. rewrite !app_nil_r in H.
  inversion H; subst; eexists.
  1-3: eapply rs_left; [done|]; simpl; eauto.
  all: eapply rs_right; [done|]; simpl; eauto.
Qed.

Lemma copy_progress a b x n' :
  copies_once a b (r_relay x) -> (0 < a)%N -> (0 < b)%N ->
  net_step h1 h2 (direct [] x) n' -> exists y, rstep x y.
Proof.
  intros Hq Ha Hb Hs.
  destruct (decide (p_in (r_up x) = [])), (decide (p_buf (r_up x) = [])),
    (decide (p_in (r_down x) = [])), (decide (p_buf (r_down x) = []));
    try (eapply relay_busy; eauto; fail). by eapply direct_step_lifts.
Qed.

(** ** The relay's own run

    [leads q s t s']: by awaits that touch neither substream, [q] comes to [t]. *)

Inductive leads : prog srv O -> SR -> prog srv O -> SR -> Prop :=
| leads_here q s : leads q s q s
| leads_await o k s q s' :
    off_stream o = true ->
    leads (k (hR o s).1) (hR o s).2 q s' -> leads (Op (S := srv) (inr o) k) s q s'.

Lemma leads_step lf rf q s t s' up down q1 s1 up1 down1 :
  leads q s t s' -> relay_step lf rf q s up down q1 s1 up1 down1 ->
  (q = t /\ s = s') \/ (leads q1 s1 t s' /\ up1 = up /\ down1 = down).
Proof.
  destruct 1 as [q s|o k s q s' Ho Hl]; [by left|]. intros H. right.
  destruct o; try done; simpl in H; destruct H as (->&->&->&->); by split_and!.
Qed.

Lemma leads_progress q s t s' lf rf up down :
  leads q s t s' ->
  (q = t /\ s = s') \/ exists q1 s1, relay_step lf rf q s up down q1 s1 up down.
Proof.
  destruct 1 as [q s|o k s q s' Ho Hl]; [by left|right].
  destruct o; try done; simpl; by eexists _, _.
Qed.

(** ** One party at a time *)

Lemma finished_behaves {L St A} m (h : handler L St) (p : prog (stream_sig ⊕ L) A) st τ a st' :
  finished p = true -> behaves m h p st τ a st' -> p = Ret a /\ st = st' /\ τ = [].
Proof. intros Hf H. by destruct H. Qed.

Lemma finished_stays {L St A} (h : handler L St) (p : prog (stream_sig ⊕ L) A) st l p' st' :
  party_step h p st l p' st' -> finished p = false.
Proof. by destruct p. Qed.

Lemma in_flight_done τ q1 q2 : in_flight τ [] q1 q2 -> q1 = [].
Proof.
  intros [(σ&_&_&E)|(σ&E&_)]; [done|]. symmetry in E.
  apply app_eq_nil in E as [E _]. by apply fmap_nil_inv in E.
Qed.

Lemma party_keeps {L St A} (h : handler L St) (p : prog (stream_sig ⊕ L) A) st l p' st'
  τ a sf τo q1 q2 q1' q2' :
  behaves Whole h p st τ a sf -> party_step h p st l p' st' -> moves l q1 q2 q1' q2' ->
  in_flight τ τo q1 q2 ->
  exists τ', behaves Whole h p' st' τ' a sf /\ in_flight τ' τo q1' q2'.
Proof.
  intros H Hs Hm Hf. destruct l as [|bs|bs]; destruct Hm as [-> E].
  - subst. exists τ. split; [|done]. by eapply step_tau.
  - subst. destruct (step_send _ _ _ _ _ _ _ _ _ _ H Hs) as (τ'&->&H').
    exists τ'. split; [done|]. by apply in_flight_send.
  - subst. by eapply in_flight_take.
Qed.

(** A party whose trace starts with a receipt neither sends nor goes past it
    before a byte arrives. *)
Lemma party_waits {L St A} (h : handler L St) (p : prog (stream_sig ⊕ L) A) st l p' st'
  b τ a sf q1 q1' q2' :
  behaves Whole h p st (Rcv b :: τ) a sf -> party_step h p st l p' st' ->
  moves l q1 [] q1' q2' ->
  q1' = q1 /\ q2' = [] /\ behaves Whole h p' st' (Rcv b :: τ) a sf.
Proof.
  intros H Hs Hm. destruct l as [|bs|bs]; destruct Hm as [-> E].
  - subst. split_and!; [done..|]. by eapply step_tau.
  - subst. destruct (step_send _ _ _ _ _ _ _ _ _ _ H Hs) as (τ'&E&H').
    destruct bs; [|done]. rewrite app_nil_r. simpl in E. subst. by split_and!.
  - symmetry in E. apply app_eq_nil in E as [-> ->]. split_and!; [done..|].
    by eapply (step_recv Whole h _ _ _ _ _ [] [b] τ).
Qed.

(** ** From the marker to the end of the copy

    What is assumed of the relay: it reads one byte, comes to write its marker
    [m] to the provider, comes to copy with buffers of [a] and [b] bytes, and
    comes to its end once the copy has returned. *)
Section Phases.
Context (m : byte) (a b : N) (out : O) (s0 s1 s2 s3 : SR).
Context (k0 : result io_error bytes -> prog srv O) (k1 k2 : result io_error unit -> prog srv O).
Context (a1 : A1) (f1 : St1) (a2 : A2) (f2 : St2).

Abbreviation reading := (Op (S := srv) (inl (ReadExact 1)) k0).
Abbreviation marking := (Op (S := srv) (inr (WriteProvider [m])) k1).
Abbreviation passing := (Op (S := srv) (inr (CopyBidirectional a b)) k2).

Record relay_path : Prop := {
  path_rooms : (0 < a)%N /\ (0 < b)%N;
  path_marker c : leads (k0 (Ok [c])) s0 marking s1;
  path_copy : leads (k1 (Ok tt)) s1 passing s2;
  path_once r : at_copy (k2 r) = None;
  path_end : leads (k2 (Ok tt)) s2 (Ret out) s3;
}.

Definition unread (p : pipe) : Prop := p_buf p = [] /\ p_out p = [] /\ p_eof p = false.

(** Where the relay is; [pend] is the marker between its two substreams, [τ]
    what is left of the provider's trace. *)
Inductive phase (x : rnet) : bytes -> list act -> Prop :=
| ph_waiting τ :
    r_relay x = reading -> r_st x = s0 -> r_up x = pipe0 -> unread (r_down x) ->
    phase x [] (Rcv m :: τ)
| ph_opening τ :
    leads (r_relay x) (r_st x) marking s1 -> r_up x = pipe0 -> unread (r_down x) ->
    phase x [m] (Rcv m :: τ)
| ph_copying τ :
    leads (r_relay x) (r_st x) passing s2 ->
    (p_eof (r_up x) = true -> finished (r_left x) = true) ->
    (p_eof (r_down x) = true -> finished (r_right x) = true) ->
    phase x [] τ
| ph_closing τ :
    leads (r_relay x) (r_st x) (Ret out) s3 ->
    r_up x = pipe_shut -> r_down x = pipe_shut ->
    finished (r_left x) = true -> finished (r_right x) = true ->
    phase x [] τ.

Definition under_way (x : rnet) : Prop :=
  exists pend τ1 τ2,
    behaves Whole h1 (r_left x) (r_lst x) τ1 a1 f1 /\
    behaves Whole h2 (r_right x) (r_rst x) τ2 a2 f2 /\
    in_flight τ1 τ2 (content [] (r_up x)) (content pend (r_down x)) /\
    phase x pend τ1.

Definition arrived : rnet := RNet (Ret a1) f1 (Ret a2) f2 (Ret out) s3 pipe_shut pipe_shut.

Lemma under_way_left p st l p' st' r rst q s up down i o :
  under_way (RNet p st r rst q s up down) ->
  party_step h1 p st l p' st' -> moves l (p_in up) (p_out down) i o ->
  under_way (RNet p' st' r rst q s (set_in i up) (set_out o down)).
Proof.
  intros (pend&τ1&τ2&H1&H2&Hf&Hp) Hs Hm. simpl in *.
  pose proof (finished_stays _ _ _ _ _ _ Hs) as Hfin.
  destruct Hp as [τ Eq Es Eu Hu|τ Hl Eu Hu|τ Hl Hu Hd|τ Hl Eu Ed Hfl Hfr]; simpl in *.
  - subst up. destruct down as [i2 b2 o2 e2], Hu as (?&?&?). simpl in *. subst.
    destruct (party_waits _ _ _ _ _ _ _ _ _ _ _ _ _ H1 Hs Hm) as (->&->&H1').
    exists [], (Rcv m :: τ), τ2. split_and!; [done..|]. by apply ph_waiting.
  - subst up. destruct down as [i2 b2 o2 e2], Hu as (?&?&?). simpl in *. subst.
    destruct (party_waits _ _ _ _ _ _ _ _ _ _ _ _ _ H1 Hs Hm) as (->&->&H1').
    exists [m], (Rcv m :: τ), τ2. split_and!; [done..|]. by apply ph_opening.
  - apply (moves_content _ _ _ _ _ [] []) in Hm.
    destruct (party_keeps _ _ _ _ _ _ _ _ _ _ _ _ _ _ H1 Hs Hm Hf) as (τ'&H1'&Hf').
    exists [], τ', τ2. split_and!; [done..|]. apply ph_copying; simpl; [done| |done].
    intros E. rewrite Hu in Hfin; done.
  - by rewrite Hfl in Hfin.
Qed.

Lemma under_way_right p st r rst l r' rst' q s up down i o :
  under_way (RNet p st r rst q s up down) ->
  party_step h2 r rst l r' rst' -> moves l (p_in down) (p_out up) i o ->
  under_way (RNet p st r' rst' q s (set_out o up) (set_in i down)).
Proof.
  intros (pend&τ1&τ2&H1&H2&Hf&Hp) Hs Hm. simpl in *.
  pose proof (finished_stays _ _ _ _ _ _ Hs) as Hfin.
  pose proof (moves_content _ _ _ _ _ [] pend Hm) as Hm'. apply in_flight_sym in Hf.
  destruct (party_keeps _ _ _ _ _ _ _ _ _ _ _ _ _ _ H2 Hs Hm' Hf) as (τ'&H2'&Hf').
  apply in_flight_sym in Hf'. exists pend, τ1, τ'. split_and!; [done..|].
  destruct Hp as [τ Eq Es Eu Hu|τ Hl Eu Hu|τ Hl Hu Hd|τ Hl Eu Ed Hfl Hfr]; simpl in *.
  3: { apply ph_copying; simpl; [done..|]. intros E. rewrite Hd in Hfin; done. }
  3: by rewrite Hfr in Hfin.
  all: subst up; destruct down as [i2 b2 o2 e2], Hu as (?&?&?); simpl in *; subst;
    assert (set_out o pipe0 = pipe0) as E
      by (destruct l as [|bs|bs], Hm as [? E]; simpl in *; subst; try done;
          symmetry in E; apply app_eq_nil in E as [_ ->]; done).
  - by apply ph_waiting.
  - by apply ph_opening.
Qed.
Context (Hpath : relay_path).

Lemma first_is_marker τ τ2 bs rest :
  in_flight (Rcv m :: τ) τ2 [] (bs ++ rest) -> nlen bs = 1%N -> bs = [m].
Proof.
  intros Hf Hl. destruct bs as [|c [|c' bs]]; unfold nlen in Hl; simpl in Hl; try lia.
  destruct Hf as [(σ&E&_)|(σ&_&_&E)]; [|done]. simpl in E. by injection E as ->.
Qed.

(** The relay's steps, phase by phase. *)
Lemma read_marker p st r rst s up down q' s' up' down' τ τ2 :
  in_flight (Rcv m :: τ) τ2 (content [] up) (content [] down) ->
  up = pipe0 -> unread down -> s = s0 ->
  relay_step (finished p) (finished r) reading s up down q' s' up' down' ->
  phase (RNet p st r rst q' s' up' down') [m] (Rcv m :: τ) /\
  content [] up' = content [] up /\ content [m] down' = content [] down.
Proof.
  intros Hf -> (Eb&Eo&Ee) -> (l&o'&i'&(bs&Hl&->&->&->)&[-> Ei]&->&->).
  unfold content in *. rewrite Eb, Eo in Hf. simpl in Hf. rewrite Ei in Hf.
  rewrite (first_is_marker _ _ _ _ Hf Hl) in *. split_and!.
  - apply ph_opening; simpl; [apply Hpath|done|]. by split_and!.
  - done.
  - simpl. by rewrite Eb, Eo, Ei.
Qed.

Lemma write_marker p st r rst q s up down q' s' up' down' τ :
  leads q s marking s1 -> up = pipe0 -> unread down -> finished p = false ->
  relay_step (finished p) (finished r) q s up down q' s' up' down' ->
  exists pend, phase (RNet p st r rst q' s' up' down') pend (Rcv m :: τ) /\
  content [] up' = content [] up /\ content pend down' = content [m] down.
Proof.
  intros Hl -> (Eb&Eo&Ee) Hp Hs.
  destruct (leads_step _ _ _ _ _ _ _ _ _ _ _ _ Hl Hs) as [[-> ->]|(Hl'&->&->)].
  - destruct Hs as (->&->&[(_&->&->)|[E _]]); [|by rewrite Hp in E]. exists [].
    split_and!.
    + apply ph_copying; simpl; [apply Hpath|done|]. by rewrite Ee.
    + done.
    + unfold content. simpl. by rewrite Eb, Eo.
  - exists [m]. split_and!; [|done..]. by apply ph_opening.
Qed.

Lemma copy_on p st r rst q s up down q' s' up' down' τ1 τ2 :
  behaves Whole h1 p st τ1 a1 f1 -> behaves Whole h2 r rst τ2 a2 f2 ->
  in_flight τ1 τ2 (content [] up) (content [] down) ->
  leads q s passing s2 ->
  (p_eof up = true -> finished p = true) -> (p_eof down = true -> finished r = true) ->
  relay_step (finished p) (finished r) q s up down q' s' up' down' ->
  phase (RNet p st r rst q' s' up' down') [] τ1 /\
  content [] up' = content [] up /\ content [] down' = content [] down.
Proof.
  intros H1 H2 Hf Hl Hu Hd Hs.
  assert (Hfl : finished p = true -> content [] down = []).
  { intros E. destruct (finished_behaves _ _ _ _ _ _ _ E H1) as (_&_&->).
    by eapply in_flight_done, in_flight_sym. }
  assert (Hfr : finished r = true -> content [] up = []).
  { intros E. destruct (finished_behaves _ _ _ _ _ _ _ E H2) as (_&_&->).
    by eapply in_flight_done. }
  destruct (leads_step _ _ _ _ _ _ _ _ _ _ _ _ Hl Hs) as [[-> ->]|(Hl'&->&->)].
  2: { split_and!; [|done..]. by apply ph_copying. }
  destruct Hs as (->&[r0|]&Hc&->).
  2: { destruct (copy_keeps _ _ _ _ _ _ _ _ Hc), (copy_shuts _ _ _ _ _ _ _ _ Hc) as [Su Sd].
       split_and!; [|done..]. apply ph_copying; simpl; [constructor| |].
       - intros E. destruct (Su E); auto.
       - intros E. destruct (Sd E); auto. }
  destruct (copy_returns _ _ _ _ _ _ _ _ _ Hc) as (->&->&[(->&Eu&Ed)|[[E Hne]|[E Hne]]]).
  - pose proof (Hu Eu) as Fp. pose proof (Hd Ed) as Fr.
    pose proof (Hfl Fp) as Cd. pose proof (Hfr Fr) as Cu.
    destruct up as [i b' o e], down as [i2 b2 o2 e2]. unfold content in *. simpl in *. subst.
    apply app_eq_nil in Cd as [-> [-> ->]%app_eq_nil], Cu as [-> [-> ->]%app_eq_nil].
    split_and!; [|done..]. apply ph_closing; simpl; try done. apply Hpath.
  - destruct up as [i b' o e]. apply Hfr in E. unfold content in E. simpl in *.
    by destruct o, b'.
  - destruct down as [i b' o e]. apply Hfl in E. unfold content in E. simpl in *.
    by destruct o, b'.
Qed.

Lemma under_way_step x y : under_way x -> rstep x y -> under_way y.
Proof.
  intros Hx Hs. destruct Hs as [p st l p' st' r rst q s up down i o Hp Hm
    |r rst l r' rst' p st q s up down i o Hp Hm|p st r rst q s up down q' s' up' down' Hr].
  - by eapply under_way_left.
  - by eapply under_way_right.
  - destruct Hx as (pend&τ1&τ2&H1&H2&Hf&Hp). simpl in *.
    enough (exists pend', phase (RNet p st r rst q' s' up' down') pend' τ1 /\
      content [] up' = content [] up /\ content pend' down' = content pend down)
      as (pend'&Hp'&Eu&Ed).
    { exists pend', τ1, τ2. split_and!; [done..| |done]. simpl. by rewrite Eu, Ed. }
    destruct Hp as [τ Eq Es Eu Hu|τ Hl Eu Hu|τ Hl Hu Hd|τ Hl Eu Ed Hfl Hfr]; simpl in *.
    + subst q. exists [m]. by eapply read_marker.
    + eapply write_marker; try done. by destruct p; inversion H1.
    + exists []. by eapply copy_on.
    + destruct (leads_step _ _ _ _ _ _ _ _ _ _ _ _ Hl Hr) as [[-> ->]|(Hl'&->&->)]; [done|].
      exists []. split; [|done]. by apply ph_closing.
Qed.
Lemma under_way_coupled x pend τ1 τ2 :
  behaves Whole h1 (r_left x) (r_lst x) τ1 a1 f1 ->
  behaves Whole h2 (r_right x) (r_rst x) τ2 a2 f2 ->
  in_flight τ1 τ2 (content [] (r_up x)) (content pend (r_down x)) ->
  direct pend x = final a1 f1 a2 f2 \/ exists n', net_step h1 h2 (direct pend x) n'.
Proof. intros H1 H2 Hf. apply coupled_progress. by exists τ1, τ2. Qed.

(** Nobody is stuck before the end. *)
Lemma under_way_progress x : under_way x -> x = arrived \/ exists y, rstep x y.
Proof.
  destruct x as [p st r rst q s up down]. intros (pend&τ1&τ2&H1&H2&Hf&Hp).
  pose proof (under_way_coupled _ _ _ _ H1 H2 Hf) as Hc. simpl in *.
  destruct Hp as [τ Eq Es Eu Hu|τ Hl Eu Hu|τ Hl Hu Hd|τ Hl Eu Ed Hfl Hfr]; simpl in *.
  - right. subst. destruct down as [[|c i] b' o e], Hu as (?&?&?); simpl in *; subst.
    + destruct Hc as [E|[n' Hn]]; [|by eapply direct_step_lifts].
      injection E as -> _ _ _. inversion H1.
    + eapply relay_moves. simpl. eexists (Recv [c]), _, _. split.
      { exists [c]. by split_and!. }
      by split_and!.
  - right. destruct (leads_progress _ _ _ _ (finished p) (finished r) up down Hl)
      as [[-> ->]|(q1&s'&Hs)]; [|by eapply relay_moves].
    destruct (finished p) eqn:E; [by destruct p; inversion H1|].
    eapply relay_moves. simpl. split_and!; [done..|]. left. by rewrite E.
  - destruct (leads_progress _ _ _ _ (finished p) (finished r) up down Hl)
      as [[-> ->]|(q1&s'&Hs)]; [right|right; by eapply relay_moves].
    destruct Hpath.(path_rooms) as [Ha Hb].
    destruct Hc as [E|[n' Hn]];
      [|by eapply (copy_progress a b _ n'); [split_and!; [..|apply Hpath]|..]].
    injection E as -> -> -> -> _ _.
    destruct (copy_moves a b true true up down Ha Hb) as (r0&up'&down'&Hcm); [tauto|].
    eapply relay_moves. simpl. eauto.
  - destruct (leads_progress _ _ _ _ (finished p) (finished r) up down Hl)
      as [[-> ->]|(q1&s'&Hs)]; [left|right; by eapply relay_moves].
    destruct (finished_behaves _ _ _ _ _ _ _ Hfl H1) as (->&->&_).
    destruct (finished_behaves _ _ _ _ _ _ _ Hfr H2) as (->&->&_). by subst.
Qed.
End Phases.

(** Every execution is finite, [stop] is reached, and no execution stops
    anywhere else. *)
Definition relayed_ends_in (start stop : rnet) : Prop :=
  Acc (fun y x => rstep x y) start /\ rtc rstep start stop /\
  forall x, rtc rstep start x -> x = stop \/ exists y, rstep x y.

Lemma ends_by_invariant (P : rnet -> Prop) start stop :
  P start -> (forall x y, P x -> rstep x y -> P y) ->
  (forall x, P x -> x = stop \/ exists y, rstep x y) ->
  relayed_ends_in start stop.
Proof.
  intros H0 Hs Hp. pose proof (rnet_terminates start) as Hacc. split; [done|]. split.
  - revert H0. induction Hacc as [x _ IH]. intros Hx.
    destruct (Hp x Hx) as [->|[y Hy]]; [constructor|].
    eapply rtc_l; [exact Hy|]. eauto.
  - intros x Hx. apply Hp. clear Hacc.
    induction Hx as [x|x y z Hxy _ IH]; [done|]. apply IH. by eapply Hs.
Qed.

(** Peers with dual traces, the provider's preceded by the marker: through the
    relay they end as they would joined directly, and so does the relay. *)
Lemma relayed_peers_end m a b out s0 s1 s2 s3 k0 k1 k2 p st r rst τ c a1 f1 a2 f2 :
  relay_path m a b out s0 s1 s2 s3 k0 k1 k2 ->
  behaves Exact h1 p st (Rcv m :: τ) a1 f1 ->
  behaves Exact h2 r rst (Snd c :: dual τ) a2 f2 ->
  c = m ->
  relayed_ends_in
    (RNet p st r rst (Op (S := srv) (inl (ReadExact 1)) k0) s0 pipe0 pipe0)
    (arrived out s3 a1 f1 a2 f2).
Proof.
  intros Hpath H1%(behaves_mode Whole) H2%(behaves_mode Whole) ->.
  apply (ends_by_invariant (under_way m a b out s0 s1 s2 s3 k0 k1 k2 a1 f1 a2 f2)).
  - exists [], (Rcv m :: τ), (Snd m :: dual τ). split_and!; [done..| |].
    + left. by exists (Rcv m :: τ).
    + by apply ph_waiting.
  - intros x y. by apply under_way_step.
  - intros x. by apply under_way_progress.
Qed.
End Relay.

(** ** A session over the paired channel

    The run loops meet the channel as an answer; over the paired channel the
    answer is a conversation of its own, which puts the ready marker in front of
    the session's bytes.  [gate] counts the channel operations, [opens_first]
    says that [q] performs [c] before it touches the stream. *)

Definition gate : handler channel_sig nat := fun _ n => (Ok tt, S n).

Fixpoint opens_first {B A} (c : channel_op)
  (q : prog (stream_sig ⊕ (progress_sig ⊕ (channel_sig ⊕ B))) A) : Prop :=
  match q with
  | Ret _ => True
  | Op o k =>
      match o with
      | inl _ => False
      | inr (inr (inl c')) => c' = c
      | _ => forall r, opens_first c (k r)
      end
  end.

Lemma opens_first_backend {B E A C} c (p : prog B (result E A))
  (f : A -> prog (stream_sig ⊕ (progress_sig ⊕ (channel_sig ⊕ B))) (result E C)) :
  (forall a, opens_first c (f a)) -> opens_first c (ptry (backend p) f).
Proof. intros H. unfold backend, ptry. induction p as [[a|e|]|o k IH]; simpl; auto. Qed.

Section Plug.
Context {B : sig} {SN SM SF SB : Type} (hN : handler net_sig SN) (hM : handler mux_sig SM).
Context (hF : handler fs_sig SF) (hB : handler (tty_sig ⊕ B) SB) (ch : PairedChannel).

Abbreviation hG := (hsum progress_handler (hsum gate hB)).
Abbreviation hCli := (hsum hN (hsum hM (hsum hF hB))).
Abbreviation gated :=
  (prog (stream_sig ⊕ (progress_sig ⊕ (channel_sig ⊕ (tty_sig ⊕ B))))).

Lemma gate_grows {A} (q : gated A) st τ a st' :
  behaves Exact hG q st τ a st' -> st.2.1 <= st'.2.1.
Proof.
  induction 1 as [|[c|[c|o]] k st τ a st' H IH|d buf k st τ a st' Hb H IH
    |d n k st bs τ a st' (Hne&_&Hr) H IH|n k st bs τ a st' (Hne&_&Hr) H IH| | |];
    simpl in *; try done; try lia.
  - apply (IH (length buf)). split; [|done]. by destruct buf; [|simpl; lia].
  - destruct Hr as [<-|[[? _]|[? _]]]; try done.
    apply (IH bs []); [by rewrite app_nil_r|done|done].
  - destruct Hr as [<-|[[? _]|[? _]]]; try done.
    apply (IH bs []); [by rewrite app_nil_r|done|done].
Qed.

(** Once the channel has been used the plugged program does the same. *)
Lemma plug_rest {A} (q : gated A) x m f st τ a st' :
  behaves Exact hG q st τ a st' -> st.2.1 = st'.2.1 ->
  behaves Exact hCli (interp (over_channel ch) (with_progress st.1 q))
    (x, (m, (f, st.2.2))) τ a (x, (m, (f, st'.2.2))).
Proof.
  induction 1 as [|[c|[c|o]] k st τ a st' H IH| | | | | |]; intros E; simpl in *;
    try (econstructor; eauto; fail).
  - by apply IH.
  - apply gate_grows in H. simpl in H. lia.
Qed.

(** The bytes [μ] of the channel's conversation come first. *)
Lemma plug_first {A} c (q : gated A) x m m' f μ st τ a st' :
  (forall b, behaves Exact hCli
     (interp (over_channel ch) (Op (S := stream_sig ⊕ (channel_sig ⊕ (tty_sig ⊕ B)))
        (inr (inl c)) Ret)) (x, (m, (f, b))) μ (Ok tt) (x, (m', (f, b)))) ->
  opens_first c q -> behaves Exact hG q st τ a st' -> st'.2.1 = S st.2.1 ->
  behaves Exact hCli (interp (over_channel ch) (with_progress st.1 q))
    (x, (m, (f, st.2.2))) (μ ++ τ) a (x, (m', (f, st'.2.2))).
Proof.
  intros Hc Ho Hb. induction Hb as [|[c'|[c'|o]] k st τ a st' H IH| | | | | |];
    intros E; simpl in Ho; try done.
  - simpl in E. lia.
  - apply (IH (Ho _)). exact E.
  - subst c'. cbn [with_progress interp].
    eapply behaves_bind.
    + eapply behaves_equiv; [|apply Hc]. symmetry. apply pbind_ret_r.
    + apply (plug_rest _ x m' f _ _ _ _ H). simpl in *. lia.
  - apply (bh_local Exact hCli (inr (inr (inr o)))). apply (IH (Ho _)). exact E.
Qed.
End Plug.

(** ** The relay of the server

    [relay_task] against the shared state: the provider is on the books and has
    a live carrier, which opens a substream. *)

Lemma proxy_buffer_positive size var :
  (forall n, size = Some n -> (0 < n)%N) -> (0 < (proxy_buffer_size size var).1)%N.
Proof.
  intros H. unfold proxy_buffer_size, clamp, DEFAULT_PROXY_BUFFER_SIZE, MIN_PROXY_BUFFER_SIZE,
    MAX_PROXY_BUFFER_SIZE.
  destruct size as [n|]; [by apply H|]. simpl.
  destruct var as [raw|]; [destruct (parse_size_bytes raw)|]; lia.
Qed.

(** What every reachable state of the server has: the buffer size the process has
    settled on, if any, leaves room for a byte, and pools are numbered in the order
    in which they were made. *)
Record sound (s : shared) : Prop := {
  sound_buffer n : buffer_size s = Some n -> (0 < n)%N;
  sound_pools q : size (pools s) <= q -> pools s !! q = None;
}.

Lemma shared_step_sound var o a s : sound s -> sound (shared_step var o a s).2.
Proof.
  intros [Hb Hp]. destruct o; simpl; try by constructor.
  - constructor; simpl; [done|]. intros q. rewrite map_size_insert_None by (by apply Hp).
    intros Hq. rewrite lookup_insert_ne by lia. apply Hp. lia.
  - destruct (pools s !! pool) as [c|] eqn:E; [|by constructor]. destruct (pick c) as [o c'].
    constructor; simpl; [done|]. intros q. rewrite map_size_insert_Some by (by eexists).
    intros Hq. rewrite lookup_insert_ne; [by apply Hp|]. intros ->. by rewrite Hp in E.
  - destruct (permits s); by constructor.
  - pose proof (proxy_buffer_positive _ var Hb) as Hn. unfold proxy_buffer_size in *.
    destruct (buffer_size s) as [n|] eqn:E; constructor; simpl in *; try done;
      by intros n' [= <-].
Qed.

Lemma reachable_sound `{Crypto} `{Json ClientMsg} `{Json ServerMsg} auth var max_conns x :
  reachable auth var max_conns x -> sound (sys_shared x).
Proof.
  revert x. apply (reachable_ind' auth var max_conns (fun x => sound (sys_shared x))); [done|].
  intros x y _ Hx Hs. destruct Hs as [s ts|s ts i o k a]; [done|].
  destruct o as [o|o]; [done|]. by apply shared_step_sound.
Qed.

(** ** Among the other tasks of the server

    [doing] is what other tasks do to the shared state between two operations of
    the relay: operations with the environment's answers. *)

Abbreviation doing := (list {o : srv_op & srv_resp o}).

Definition meanwhile (var : option string) (l : doing) (s : shared) : shared :=
  foldl (fun s x => (shared_step var (projT1 x) (projT2 x) s).2) s l.

(** The relay's operations, each after what the others do first. *)
Definition amid (var : option string) (orc : forall o, srv_resp o) :
  handler srv_sig (list doing * shared) :=
  fun o st =>
    let r := shared_step var o (orc o) (meanwhile var (default [] (head st.1)) st.2) in
    (r.1, (tail st.1, r.2)).

(** They may do anything but register or remove this channel. *)
Definition harmless (id : string) (x : {o : srv_op & srv_resp o}) : Prop :=
  match projT1 x with RegInsert id' _ | RegRemove id' => id' <> id | _ => True end.

(** The channel's provider: its pool has live carriers, and each of them opens. *)
Definition provider_up (orc : forall o, srv_resp o) (id : string) (p : nat) (s : shared) : Prop :=
  registry s !! id = Some p /\
  exists pool, pools s !! p = Some pool /\ live pool <> [] /\
    Forall (fun c => orc (OpenProvider (opener c)) = Ok tt) (live pool).

Lemma shared_step_provider var (orc : forall o, srv_resp o) id p x s :
  harmless id x -> sound s -> provider_up orc id p s ->
  provider_up orc id p (shared_step var (projT1 x) (projT2 x) s).2.
Proof.
  destruct x as [o a]. unfold harmless. cbn [projT1 projT2].
  intros Hh Hs (Hr&pool&Hp&Hl&Ho). unfold provider_up.
  destruct o; simpl; eauto 10.
  - split; [done|]. exists pool. rewrite lookup_insert_ne; [done|]. intros <-.
    by rewrite (sound_pools s Hs) in Hp.
  - rewrite lookup_insert_ne by done. eauto 10.
  - rewrite lookup_delete_ne by done. eauto 10.
  - destruct (pools s !! pool0) as [c|] eqn:Ec; [|eauto 10].
    pose proof (live_pick c) as Elive. destruct (pick c) as [o' c']. simpl in *.
    split; [done|]. destruct (decide (pool0 = p)) as [->|Hne].
    + rewrite lookup_insert_eq. exists c'. simplify_eq. by rewrite Elive.
    + rewrite lookup_insert_ne by done. eauto.
  - destruct (permits s); eauto 10.
  - destruct (proxy_buffer_size (buffer_size s) var). eauto 10.
Qed.

Lemma meanwhile_sound var l s : sound s -> sound (meanwhile var l s).
Proof.
  revert s; induction l as [|x l IH]; intros s Hs; simpl; [done|].
  by apply IH, shared_step_sound.
Qed.

Lemma meanwhile_provider var (orc : forall o, srv_resp o) id p l s :
  Forall (harmless id) l -> sound s -> provider_up orc id p s ->
  provider_up orc id p (meanwhile var l s).
Proof.
  intros Hl. revert s; induction Hl as [|x l Hx _ IH]; intros s Hs Hp; simpl; [done|].
  apply IH; [by apply shared_step_sound|by apply shared_step_provider].
Qed.

(** The shared state when the relay has returned: its own operations, and what
    happened before each of them. *)
Definition relay_done (var : option string) (orc : forall o, srv_resp o) (id : string) (p : nat)
  (st : list doing * shared) : list doing * shared :=
  foldl (fun st o => (amid var orc o st).2) st
    [RegGet id; PickPool p; OpenProvider 0; ProxyBufferSize; ReleasePermit].

Lemma pick_up (orc : forall o, srv_resp o) pool :
  live pool <> [] -> Forall (fun c => orc (OpenProvider (opener c)) = Ok tt) (live pool) ->
  exists o, (pick pool).1 = Some o /\ orc (OpenProvider o) = Ok tt.
Proof.
  intros Hl Ho. destruct (pick_live pool Hl) as [E _]. rewrite E.
  assert (length (live pool) <> 0) by (by destruct (live pool)).
  destruct (lookup_lt_is_Some_2 (live pool) (N.to_nat (pool_next pool mod nlen (live pool))))
    as [c Hc].
  { unfold nlen. rewrite N2Nat.inj_mod, Nat2N.id. by apply Nat.mod_upper_bound. }
  rewrite Hc. exists (opener c). split; [done|]. exact (Forall_lookup_1 _ _ _ _ Ho Hc).
Qed.

(** One operation of the relay among the others. *)
Lemma leads_amid {A} var (orc : forall o, srv_resp o) o k sched s (t : prog srv A) st' r s1 :
  off_stream o = true ->
  shared_step var o (orc o) (meanwhile var (default [] (head sched)) s) = (r, s1) ->
  leads (amid var orc) (k r) (tail sched, s1) t st' ->
  leads (amid var orc) (Op (S := srv) (inr o) k) (sched, s) t st'.
Proof.
  intros Ho E Hl. apply leads_await; [done|]. unfold amid at 2 3. cbn [fst snd]. by rewrite E.
Qed.

Lemma pick_step var (orc : forall o, srv_resp o) id p s :
  provider_up orc id p s ->
  exists o, orc (OpenProvider o) = Ok tt /\
    forall a, shared_step var (PickPool p) a s =
      (Some o, (shared_step var (PickPool p) (orc (PickPool p)) s).2).
Proof.
  intros (_&pool&Hp&Hl&Ho). destruct (pick_up orc pool Hl Ho) as (o&E&Eo). exists o.
  split; [done|]. intros a. simpl. rewrite Hp. destruct (pick pool). simpl in E. by rewrite E.
Qed.

Lemma relay_task_path var (orc : forall o, srv_resp o) id p sched s :
  provider_up orc id p s -> sound s -> Forall (Forall (harmless id)) sched ->
  exists k0 k1 k2 st1 st2 buf,
    relay_task id = Op (S := srv) (inl (ReadExact 1)) k0 /\
    relay_path (amid var orc) STREAM_READY buf buf (Some (Ok tt)) (sched, s) st1 st2
      (relay_done var orc id p (sched, s)) k0 k1 k2.
Proof.
  intros Hp Hs Hall.
  assert (Hhd : forall l, Forall (Forall (harmless id)) l ->
    Forall (harmless id) (default [] (head l))) by (intros ? [|]; simpl; auto).
  set (s0 := meanwhile var (default [] (head sched)) s).
  set (s1 := meanwhile var (default [] (head (tail sched))) s0).
  set (s2 := (shared_step var (PickPool p) (orc (PickPool p)) s1).2).
  set (s3 := meanwhile var (default [] (head (tail (tail sched)))) s2).
  set (s4 := meanwhile var (default [] (head (tail (tail (tail sched))))) s3).
  assert (Hs0 : sound s0) by (by apply meanwhile_sound).
  assert (Hp0 : provider_up orc id p s0) by (by apply meanwhile_provider; auto).
  assert (Hp1 : provider_up orc id p s1)
    by (apply meanwhile_provider; [apply Hhd; by destruct Hall|done..]).
  assert (Hs4 : sound s4).
  { by apply meanwhile_sound, meanwhile_sound, shared_step_sound, meanwhile_sound. }
  destruct (pick_step var orc id p s1 Hp1) as (o&Eopen&Epick).
  pose proof (proxy_buffer_positive _ var (sound_buffer s4 Hs4)) as Hpos.
  assert (Esize : shared_step var ProxyBufferSize (orc ProxyBufferSize) s4 =
    ((proxy_buffer_size (buffer_size s4) var).1,
     (shared_step var ProxyBufferSize (orc ProxyBufferSize) s4).2))
    by (simpl; by destruct (proxy_buffer_size (buffer_size s4) var)).
  destruct Hp0 as (Hreg&_).
  eexists _, _, _, (tail (tail (tail sched)), s3), _, (proxy_buffer_size (buffer_size s4) var).1.
  split; [reflexivity|]. split.
  - done.
  - intros c. cbn.
    apply (leads_amid var orc (RegGet id) _ _ _ _ _ (Some p) s0);
      [done|cbn; fold s0; by rewrite Hreg|].
    simpl. apply (leads_amid var orc (PickPool p) _ _ _ _ _ (Some o) s2); [done|apply Epick|].
    simpl. apply (leads_amid var orc (OpenProvider o) _ _ _ _ _ (Ok tt) s3);
      [done|cbn; by rewrite Eopen|].
    simpl. apply leads_here.
  - simpl. eapply (leads_amid var orc ProxyBufferSize); [done| |apply leads_here].
    exact Esize.
  - by intros [].
  - simpl. eapply (leads_amid var orc ReleasePermit); [done| |].
    + cbn. reflexivity.
    + simpl. apply leads_here.
Qed.

(** ** The whole path *)

Section Whole.
Context `{JsonLaws ControlFrame} `{JsonLaws DataFrame} `{Blake3} `{FrameDebug}.
Context {B : sig} {SN SM SF SB : Type} (hN : handler net_sig SN) (hM : handler mux_sig SM).
Context (hF : handler fs_sig SF) (hB : handler (tty_sig ⊕ B) SB).

Abbreviation hCli := (hsum hN (hsum hM (hsum hF hB))).

Lemma source_opens_first (src : Source (tty_sig ⊕ B)) :
  opens_first AcceptStream (run_source src).
Proof.
  unfold run_source. apply opens_first_backend. intros fp. by apply opens_first_backend.
Qed.

Lemma source_over src d x m m' f b0 plan cs fp fp' b4 bp ba bs bd :
  let n := bytes_done (counts Progress_default cs) in
  hM MuxAccept m = (Some tt, m') ->
  source_plays hB src b0 plan cs fp fp' b4 ->
  session_wire plan cs n bp ba bs bd ->
  behaves Exact hCli (session_over (PairedSource d) (run_source src)) (x, (m, (f, b0)))
    (Rcv STREAM_READY :: snds bp ++ rcvs ba ++ snds bs ++ snds bd)
    (audit fp fp' plan n) (x, (m', (f, b4))).
Proof.
  intros n Hm Hs Hw.
  pose proof (source_accepted gate hB src Progress_default 0 1 _ _ _ _ _ _ _ _ _ _
    eq_refl Hs Hw) as Hb.
  refine (plug_first hN hM hF hB (PairedSource d) AcceptStream (run_source src) x m m' f
    [Rcv STREAM_READY] _ _ _ _ _ (source_opens_first src) Hb eq_refl).
  intros b. cbn. apply (bh_local Exact hCli (inr (inl MuxAccept))). simpl. rewrite Hm. simpl.
  apply (bh_read_exact Exact hCli 1 _ _ [STREAM_READY] []); [done|]. constructor.
Qed.

Lemma destination_over dst accept d x m m' f b0 plan cs n b3 bp ba bs bd :
  hM MuxOpen m = (Ok tt, m') ->
  destination_plays hB dst accept b0 plan (cs ++ [Finish]) b3 ->
  session_wire plan cs n bp ba bs bd ->
  behaves Exact hCli (session_over (PairedDestination d) (run_destination dst accept))
    (x, (m, (f, b0)))
    (Snd STREAM_READY :: rcvs bp ++ snds ba ++ rcvs bs ++ rcvs bd)
    (Ok plan) (x, (m', (f, b3))).
Proof.
  intros Hm Hd Hw.
  pose proof (destination_accepted gate hB dst accept Progress_default 0 1 _ _ _ _ _ _ _ _ _
    eq_refl Hd Hw) as Hb.
  refine (plug_first hN hM hF hB (PairedDestination d) OpenStream _ x m m' f
    [Snd STREAM_READY] _ _ _ _ _ _ Hb eq_refl); [|done].
  intros b. cbn. apply (bh_local Exact hCli (inr (inl MuxOpen))). simpl. rewrite Hm. simpl.
  apply (bh_write_all Exact hCli [STREAM_READY] _ _ []). constructor.
Qed.
End Whole.

(** The session of a provider on the books.  Under every scheduling of the two
    ends and the relay, every fragmentation on each hop, whatever the size of the
    relay's buffers and whatever the other tasks of the server do between the
    relay's operations short of registering or removing this channel: every execution is finite; it can end only where both run
    loops have returned (success for the destination; for the source, success or,
    when its fingerprint changed, [SourceMutated]), nothing is left on any hop, and
    the relay has shut both directions down, returned and given its permit back;
    and that end is reached. *)
Lemma relayed_session {CC : CopyCall} {CL : CopyLaws}
  `{JsonLaws ControlFrame} `{JsonLaws DataFrame} `{Blake3} `{FrameDebug}
  {B1 B2 : sig} {SN1 SM1 SF1 SB1 SN2 SM2 SF2 SB2 : Type}
  (hN1 : handler net_sig SN1) (hM1 : handler mux_sig SM1) (hF1 : handler fs_sig SF1)
  (hB1 : handler (tty_sig ⊕ B1) SB1)
  (hN2 : handler net_sig SN2) (hM2 : handler mux_sig SM2) (hF2 : handler fs_sig SF2)
  (hB2 : handler (tty_sig ⊕ B2) SB2) (var : option string) (orc : forall o, srv_resp o)
  src dst accept id sched s p d1 d2 x1 m1 m1' f1 b1 b1' x2 m2 m2' f2 b2 b2'
  plan cs fp fp' bp ba bs bd :
  let n := bytes_done (counts Progress_default cs) in
  provider_up orc id p s -> sound s -> Forall (Forall (harmless id)) sched ->
  hM1 MuxAccept m1 = (Some tt, m1') -> hM2 MuxOpen m2 = (Ok tt, m2') ->
  source_plays hB1 src b1 plan cs fp fp' b1' ->
  destination_plays hB2 dst accept b2 plan (cs ++ [Finish]) b2' ->
  session_wire plan cs n bp ba bs bd ->
  relayed_ends_in (hsum hN1 (hsum hM1 (hsum hF1 hB1))) (hsum hN2 (hsum hM2 (hsum hF2 hB2)))
    (amid var orc)
    (RNet (session_over (PairedSource d1) (run_source src)) (x1, (m1, (f1, b1)))
       (session_over (PairedDestination d2) (run_destination dst accept)) (x2, (m2, (f2, b2)))
       (relay_task id) (sched, s) pipe0 pipe0)
    (RNet (Ret (audit fp fp' plan n)) (x1, (m1', (f1, b1')))
       (Ret (Ok plan)) (x2, (m2', (f2, b2')))
       (Ret (Some (Ok tt))) (relay_done var orc id p (sched, s)) pipe_shut pipe_shut).
Proof.
  intros n Hp Hsound Hsched Hm1 Hm2 Hs Hd Hw.
  destruct (relay_task_path var orc id p sched s Hp Hsound Hsched)
    as (k0&k1&k2&s1&s2&buf&->&Hpath).
  eapply (relayed_peers_end _ _ _ _ _ _ _ _ _ _ _ _ _ _ _ _ _ _ _ STREAM_READY);
    [exact Hpath|..|done].
  - by eapply source_over.
  - eapply behaves_eq; [by eapply destination_over|].
    by rewrite !dual_app, !dual_snds, dual_rcvs.
Qed.

Lemma amid_keeps var (orc : forall o, srv_resp o) id p o sched s :
  harmless id (existT o (orc o)) -> Forall (Forall (harmless id)) sched ->
  sound s -> provider_up orc id p s ->
  Forall (Forall (harmless id)) (amid var orc o (sched, s)).2.1 /\
  sound (amid var orc o (sched, s)).2.2 /\ provider_up orc id p (amid var orc o (sched, s)).2.2.
Proof.
  intros Ho Hl Hs Hp. unfold amid. cbn [fst snd].
  assert (Forall (harmless id) (default [] (head sched))) by (by destruct Hl; simpl).
  assert (sound (meanwhile var (default [] (head sched)) s)) by (by apply meanwhile_sound).
  split; [by destruct Hl|]. split; [by apply shared_step_sound|].
  apply (shared_step_provider var orc id p (existT o (orc o))); try done.
  by apply meanwhile_provider.
Qed.

(** The channel is on the books when its relay returns. *)
Lemma relay_done_keeps var (orc : forall o, srv_resp o) id p sched s :
  Forall (Forall (harmless id)) sched -> sound s -> provider_up orc id p s ->
  provider_up orc id p (relay_done var orc id p (sched, s)).2.
Proof.
  unfold relay_done.
  assert (Hall : Forall (fun o => harmless id (existT o (orc o)))
    [RegGet id; PickPool p; OpenProvider 0; ProxyBufferSize; ReleasePermit])
    by (repeat constructor).
  revert Hall. generalize [RegGet id; PickPool p; OpenProvider 0; ProxyBufferSize; ReleasePermit].
  intros ops Hall. revert sched s. induction Hall as [|o ops Ho _ IH]; intros sched s Hl Hs Hp;
    [done|]. cbn [foldl].
  destruct (amid_keeps var orc id p o sched s Ho Hl Hs Hp) as (Hl'&Hs'&Hp').
  destruct (amid var orc o (sched, s)).2 as [sched' s']. by apply IH.
Qed.

(** Left alone, the relay has given back the permit and taken none. *)
Lemma relay_done_permits var (orc : forall o, srv_resp o) id p s :
  permits (relay_done var orc id p ([], s)).2 = S (permits s).
Proof.
  cbn. destruct (pools s !! p) as [pool|]; [destruct (pick pool)|];
    cbn; by destruct (proxy_buffer_size (buffer_size s) var).
Qed.



(** ** Concrete inputs *)

(** [copy_step n src dst]: one turn of a direction with a buffer of [n] bytes;
    [src] and [dst] say whether the end it reads from, or writes to, has
    returned and so dropped its stream. *)
Inductive copy_step (n : N) (src dst : bool) : pipe -> pipe -> Prop :=
| cs_read bs i b o e :
    bs <> [] -> (nlen (b ++ bs) <= n)%N ->
    copy_step n src dst (Pipe (bs ++ i) b o e) (Pipe i (b ++ bs) o e)
| cs_write bs i b o e :
    bs <> [] -> dst = false ->
    copy_step n src dst (Pipe i (bs ++ b) o e) (Pipe i b (o ++ bs) e)
| cs_eof o :
    src = true ->
    copy_step n src dst (Pipe [] [] o false) (Pipe [] [] o true).

Inductive buffered (a b : N) (lf rf : bool) (up down : pipe) :
  option (result io_error unit) -> pipe -> pipe -> Prop :=
| cp_up up' : copy_step b lf rf up up' -> buffered a b lf rf up down None up' down
| cp_down down' : copy_step a rf lf down down' -> buffered a b lf rf up down None up down'
| cp_broken e :
    (rf = true /\ p_buf up <> []) \/ (lf = true /\ p_buf down <> []) ->
    buffered a b lf rf up down (Some (Err e)) up down
| cp_closed :
    p_eof up = true -> p_eof down = true ->
    buffered a b lf rf up down (Some (Ok tt)) up down.

#[export] Instance buffered_copy : CopyCall := buffered.

Lemma copy_step_lighter n src dst p p' :
  copy_step n src dst p p' -> pipe_weight p' < pipe_weight p.
Proof.
  unfold pipe_weight. destruct 1 as [bs i b o e Hne|bs i b o e Hne|o]; cbn [p_in p_buf p_eof];
    try (assert (0 < length bs) by (destruct bs; [done|simpl; lia]));
    rewrite ?length_app; simpl; lia.
Qed.

Lemma copy_step_content n src dst p p' :
  copy_step n src dst p p' -> content [] p' = content [] p.
Proof. unfold content. destruct 1; simpl; by rewrite <- ?app_assoc. Qed.

Lemma copy_step_eof n src dst p p' :
  copy_step n src dst p p' -> p_eof p' = true -> p_eof p = true \/ src = true.
Proof. destruct 1; simpl; auto. Qed.

Lemma copy_can_step n src dst p :
  (0 < n)%N -> p_in p <> [] \/ p_buf p <> [] ->
  (exists p', copy_step n src dst p p') \/ (dst = true /\ p_buf p <> []).
Proof.
  intros Hn H. destruct p as [i b o e]. simpl in *. destruct b as [|c b].
  - destruct H as [H|H]; [|done]. destruct i as [|c i]; [done|]. left. eexists.
    apply (cs_read _ _ _ [c]); [done|]. unfold nlen. simpl. lia.
  - destruct dst; [by right|]. left. eexists. by apply (cs_write _ _ _ [c]).
Qed.

Lemma copy_can_close n dst p :
  (0 < n)%N -> p_eof p = true \/ (exists p', copy_step n true dst p p') \/
  (dst = true /\ p_buf p <> []).
Proof.
  intros Hn. destruct p as [[|c i] [|c' b] o []]; simpl; auto; right.
  1: left; eexists; by apply cs_eof.
  all: apply copy_can_step; [done|]; simpl; auto.
Qed.

#[export] Instance buffered_laws : CopyLaws.
Proof.
  pose (e := IoError UnexpectedEof ""). split; unfold copying, buffered_copy.
  - intros * Hc. inversion Hc; subst;
      match goal with Hs : copy_step _ _ _ _ _ |- _ => apply copy_step_content in Hs end; auto.
  - intros * Hc. inversion Hc; subst;
      match goal with Hs : copy_step _ _ _ _ _ |- _ => apply copy_step_lighter in Hs end; lia.
  - intros * Hc. inversion Hc; subst;
      match goal with Hs : copy_step _ _ _ _ _ |- _ => pose proof (copy_step_eof _ _ _ _ _ Hs) end; tauto.
  - intros * Hc. inversion Hc; subst; naive_solver.
  - intros a b lf rf up down Ha Hb [Hi|[Hi|[-> ->]]].
    + destruct (copy_can_step b lf rf up Hb Hi) as [[up' Hc]|Hc].
      * eexists _, _, _. by apply cp_up.
      * eexists _, _, _. apply (cp_broken _ _ _ _ _ _ e). by left.
    + destruct (copy_can_step a rf lf down Ha Hi) as [[down' Hc]|Hc].
      * eexists _, _, _. by apply cp_down.
      * eexists _, _, _. apply (cp_broken _ _ _ _ _ _ e). by right.
    + destruct (copy_can_close b true up Hb) as [Eu|[[up' Hc]|Hc]].
      * destruct (copy_can_close a true down Ha) as [Ed|[[down' Hc]|Hc]].
        { eexists _, _, _. by apply cp_closed. }
        { eexists _, _, _. by apply cp_down. }
        eexists _, _, _. apply (cp_broken _ _ _ _ _ _ e). by right.
      * eexists _, _, _. by apply cp_up.
      * eexists _, _, _. apply (cp_broken _ _ _ _ _ _ e). by left.
Qed.

(** An operator who types the answer. *)
Definition typing (answer : string) : handler tty_sig unit :=
  fun o _ =>
    match o return resp (s := tty_sig) o * unit with
    | ReadLine => (Ok answer, tt)
    | Print _ | FlushStdout => (tt, tt)
    end.

Definition no_files : handler fs_sig unit := fun _ _ => (Err "no such file", tt).

(** Meanwhile another consumer is served and another provider comes and goes. *)
Definition busy_first : doing := [existT TryAcquire true].
Definition busy_second : doing := [existT (NewPool 9) 1; existT (RegInsert "weekly" 1) tt].
Definition busy_relay : list doing :=
  [[existT (PickPool 1) (Some 9)]; [existT (PickPool 0) (Some 5)]; []; [existT ReleasePermit tt];
   [existT (RegRemove "weekly") tt]].


(** A provider that sends a byte and a consumer that takes it; the relay reads it
    and writes it on. *)
Definition hand_over (up : pipe) (left : prog (stream_sig ⊕ no_sig) (result io_error unit))
  (right : prog (stream_sig ⊕ no_sig) (result io_error bytes)) : rnet :=
  RNet left tt right tt
    (Op (S := srv) (inr (CopyBidirectional 1 1)) (fun r => Ret (map_err AnyIo r))) (shared0 1)
    up pipe0.

